(* ===== verification/_CoqProject ===== *)
-Q . S2P
Prelude.v
PyFloat.v
Device.v
Protocol.v
Hasher.v
Memory.v
L1Manager.v
Eviction.v
L1Protocol.v
L2.v
L2FS.v
L2Registry.v
Threads.v
Storage.v
StoreController.v
Prefetch.v
Server.v
MQ.v
Corners.v
Resources.v
Ownership.v
KVFormat.v
Transfer.v
Streams.v
Tracker.v
Connector.v
Scheduling.v
Unlocking.v
Worker.v
EndToEnd.v
Evictor.v
Rely.v
Interleaving.v
ServerThreads.v
CommandLine.v
Serving.v
Still.v
Sessions.v
Releases.v
Answers.v
Pending.v
Clients.v
Accounting.v
IOLoop.v
Recency.v
