(* ===== verification/Prelude.v ===== *)
(** * mini-llmcache: a verification development

    mini-llmcache keeps the KV caches of LLM engines in a cache server.  An
    engine (vLLM) cuts a prompt into chunks, names every whole chunk by a hash
    that covers the prompt up to its end, copies the blocks of computed chunks
    out of its KV tensors and sends them to the server; before it computes a new
    prompt it asks the server for the longest cached prefix and loads that
    prefix into its own blocks.  The server keeps chunks in one host buffer (L1)
    with a lock protocol and an LRU evictor, mirrors them into secondary
    adapters (L2), and prefetches from those on a lookup.

    ** Conventions

    Code that mutates state is a function of the monad [M S A = S -> S * res A]
    of this file: a Python statement that raises keeps the mutations it made
    before, so the state is returned with the exception too.  A critical section
    (a [with lock:] block, one task of an adapter's worker, one queue operation)
    is one transition of [M]; a thread is a [Threads.prog], the tree of its
    critical sections, run alone by [run] or interleaved with others by [tstep].
    Python integers are [Z]; a [dict] is stdpp's [gmap], or an association list
    ([od_*], [os_*] below) where the code depends on its order; the list indices
    of Python (negative, clamped or raising) are [py_take], [py_drop],
    [py_slice], [py_index].  Floats are the binary64 numbers of [PyFloat].
    Bytes are [list Byte.byte]; the pool of L1 is one such list and a slice of
    it a view, so what is written through a view is seen by every other.

    ** Files

    - [Prelude]: the monad and its loops, Python's lists, integers and ordered
      dictionaries, the lemmas and tactics the components share.
    - [PyFloat]: the float operations of l1/eviction.py and
      l1/prefetch_controller.py.
    - [Device] (utils/device.py), [Protocol] (protocol.py), [Hasher]
      (utils/hasher.py).
    - [Memory] (l1/memory.py): the pool, its views, [PoolAllocator].
    - [L1Manager] (l1/manager.py): entries and every public operation;
      [Eviction] (l1/eviction.py): [LRUPolicy] and one round of the controller;
      [L1Protocol]: the abstract lock machine, the refinement, the reachable
      states.
    - [L2] (l2/base.py, l2/mock.py): the class [L2Ops] of an adapter and its
      laws [L2Laws], the serial worker, the mock adapter; [L2FS] (l2/fs.py): the
      adapter over a directory; [L2Registry] (server.py, [build_l2s]).
    - [Threads]: programs of atomic steps; [Storage] (storage_manager.py): the
      state all threads of the server share; [StoreController]
      (l1/store_controller.py) and [Prefetch] (l1/prefetch_controller.py): their
      threads and, for the latter, the session table.
    - [Server] (server.py): registration and the request handlers; [CommandLine]
      (server.py): from the arguments of the program to the server that starts;
      [MQ] (mq.py): the thread of one request, the reply it sends, the client's
      futures; [IOLoop] (mq.py, [SocketLoop]): the I/O thread with its queue and
      pipe.
    - [KVFormat] (l0/kv_format.py) and [Transfer] (l0/transfer.py): the layout of
      a KV tensor, [KVTransfer.to_host] and [from_host] in program order;
      [Streams] (the same file): the commands they give the two CUDA streams, and
      a machine of streams and events that runs them in any order.
    - [Corners]: what happens outside the obligations the theorems ask of callers,
      on concrete runs.
    - [Resources]: a program logic for threads that interleave, over any resource
      they own (a class); [Ownership]: the resource of L1's locks; [Evictor]
      (l1/eviction.py): the eviction thread, step by step ([Recency]: what the
      order of the policy means); [Interleaving]: the threads of the storage stack
      in that logic; [ServerThreads]: the handlers and all threads of the server
      together; [Rely]: what one thread achieves while others run that respect
      something of it; [Serving]: a RETRIEVE whose session is left alone; [Still]:
      threads, for what concerns the session tables, the resource being tokens;
      [Sessions]: which requests leave a session alone; [Releases]: what a thread
      that gives holds back achieves; [Answers]: what the answer to a lookup
      stands for; [Pending]: that every lookup is answered; [Clients]: a client
      that looks up, polls, frees and retrieves as the connector's tracker says,
      among all other threads; [Accounting]: that no hold is left over when
      sessions are looked up and ended one at a time.
    - [Tracker], [Connector] (integration/vllm_connector.py): the state of one
      request, and every hook of the scheduler and worker sides.
    - [Scheduling], [Unlocking], [Worker], [EndToEnd]: theorems that cross these
      components.

    ** What is shown

    - L1: whatever the interleaving of legal calls, the concrete operations
      simulate an abstract machine in which a chunk is absent, being written or
      ready with a number of holds; none of them raises, no two chunks overlap,
      a held chunk keeps its bytes, and eviction removes exactly the cold,
      unlocked victims it selects.
    - Allocation: slots are disjoint, inside the pool and reused when freed.
    - Names: equal chunk hashes mean equal token prefixes (or a collision of the
      digest is exhibited); equal prefixes have equal hashes; file names identify
      chunks up to the model's slashes.
    - L2: an adapter gives back what it stored; a crash at any point of a store
      leaves only whole chunks under their final names; the worker settles
      futures in the order of submission; write-back mirrors every chunk.
    - Lookups: what a prefetch resolves to and what it holds afterwards; a
      session gives back every lock it took; one interleaving in which it does
      not.
    - Requests: a store commits the chunks it names and nothing else; a retrieve
      replies with the contents of its chunks and releases them; every handler
      answers exactly once; a future is settled by its own reply only.
    - Messages: the I/O thread loses no wake-up; it sends what is queued, in order,
      before it blocks, and ends when it is stopped.
    - Connector: the batched scheduler step handles every request on its own;
      over any history of hooks the store operations of a request tile its
      tokens without gap or overlap and name each chunk once; the
      acknowledgements, retrieves and the end of the session partition the locks
      the lookup took; the worker ships and fills exactly the blocks of its
      operations and reports each transfer when it is complete.
    - Streams: whatever order the host and the two streams make progress in, the
      pipelines of the transfer engine do not deadlock, take a bounded number of
      steps and leave the blocks (or the host buffers) as the program order does.
    - Threads: under every interleaving of handlers, prefetcher, write-back,
      evictor and I/O thread, ready chunks keep their contents, what a session
      holds stays in L1, and every finished thread has given back its locks; no
      lookup is lost, and as many prefetch workers as there are jobs leave none
      unanswered; the answer to a lookup never counts more than the session holds,
      and a RETRIEVE of held chunks is answered with their contents whatever else
      runs; a client that looks a prompt up gets the contents of what it was
      promised; once the threads have finished, a chunk's reader count is the
      number of sessions that hold it, provided no session is looked up again or
      ended while a lookup of it is under way (a finding shows what happens then).
    - End to end: what one engine stores is what another engine loads, byte for
      byte, block for block.

    ** Parameters, bounds and fuel

    The digest (blake3), the probes of transformers and torch, the JSON decoder,
    the allocation of the pool, the binding of the socket and elapsed times are
    parameters.  The printer of hexadecimal digits of [L2FS] has fuel, one more
    than the bits of its argument, which the lemmas on file names depend on; the
    client of [Clients] asks as often as it is told and then gives up; every other
    loop is over a list or a count the code has computed.  Pickling is the
    identity on the messages of the protocol.  Token ids are bounded where the
    code packs them (32 bits, [StructError] beyond).

    ** Not modelled

    The streams and events of [Streams] follow CUDA's documented semantics
    (commands of a stream in order, an event waited for before what follows);
    the timing events are not modelled.  A critical section is one step: two
    sections of one lock do not overlap, and the listeners run inside.  Creating
    and closing sockets and pipes: delivery is in order.  Logging.  The spelling
    of the program's arguments (argparse): [CommandLine] starts from the parsed
    ones.  Thread start-up and the sleep of the evictor.  [wait_for_layer_load]
    and [save_kv_layer], which do nothing. *)
From Stdlib Require Export ZArith Lia.
From stdpp Require Export gmultiset.
From stdpp Require Export base numbers list list_numbers gmap sets strings.
From Stdlib Require Import Init.Byte.

#[export] Set Default Goal Selector "!".

(** ** Bytes *)

Definition bytes := list Byte.byte.

#[export] Instance byte_eq_dec : EqDecision Byte.byte := Byte.byte_eq_dec.

#[export] Program Instance byte_countable : Countable Byte.byte :=
  inj_countable' Byte.to_nat (fun n => default x00 (Byte.of_nat n)) _.
Next Obligation. intros b. simpl. by rewrite Byte.of_to_nat. Qed.

(** ** Exceptions and the state-and-exception monad

    A Python statement that raises keeps the mutations it has already made,
    so the state is returned in both cases. *)

Inductive exn :=
| KeyError | ValueError | IndexError | TypeError | ZeroDivisionError
| StructError | RuntimeError | AssertionError | OSError | PicklingError
| TimeoutError | AttributeError | ImportError | OverflowError.

#[export] Instance exn_eq_dec : EqDecision exn.
Proof. solve_decision. Defined.

Inductive res (A : Type) :=
| Ok (a : A)
| Raise (e : exn).
Arguments Ok {A} a.
Arguments Raise {A} e.

#[export] Instance res_eq_dec `{EqDecision A} : EqDecision (res A).
Proof. solve_decision. Defined.

Definition is_ok {A} (r : res A) : bool :=
  match r with Ok _ => true | Raise _ => false end.

Definition res_bind {A B} (r : res A) (k : A -> res B) : res B :=
  match r with Ok a => k a | Raise e => Raise e end.

Definition M (S A : Type) : Type := S -> S * res A.

Definition ret {S A} (a : A) : M S A := fun s => (s, Ok a).
Definition raise {S A} (e : exn) : M S A := fun s => (s, Raise e).
Definition bind {S A B} (m : M S A) (k : A -> M S B) : M S B :=
  fun s => match m s with
           | (s', Ok a) => k a s'
           | (s', Raise e) => (s', Raise e)
           end.
Definition get {S} : M S S := fun s => (s, Ok s).
Definition modify {S} (f : S -> S) : M S unit := fun s => (f s, Ok tt).
Definition lift_res {S A} (r : res A) : M S A := fun s => (s, r).

(** [zoom g p m] runs [m] on the component of the state selected by [g] and
    stored back by [p]: an attribute access such as [self.allocator.free]. *)
Definition zoom {S T A} (g : S -> T) (p : T -> S -> S) (m : M T A) : M S A :=
  fun s => let (t, r) := m (g s) in (p t s, r).

Declare Scope py_scope.
Delimit Scope py_scope with py.
Notation "'let*' x := m 'in' k" := (bind m (fun x => k))
  (at level 10, x name, m at level 100, k at level 200,
   format "'[v' 'let*'  x  :=  m  'in'  '/' k ']'") : py_scope.
Notation "'let?' x := r 'in' k" := (res_bind r (fun x => k))
  (at level 10, x name, r at level 100, k at level 200,
   format "'[v' 'let?'  x  :=  r  'in'  '/' k ']'") : py_scope.

(** [for x in xs: body]; the loop stops at the first exception. *)
Fixpoint for_each {S X} (xs : list X) (body : X -> M S unit) : M S unit :=
  match xs with
  | [] => ret tt
  | x :: xs' => bind (body x) (fun _ => for_each xs' body)
  end.

(** A loop that also updates local variables, threaded as [acc]. *)
Fixpoint for_acc {S X A} (xs : list X) (acc : A) (body : A -> X -> M S A) : M S A :=
  match xs with
  | [] => ret acc
  | x :: xs' => bind (body acc x) (fun acc' => for_acc xs' acc' body)
  end.

(** *** Hoare triples over the monad *)

Definition triple {S A} (P : S -> Prop) (m : M S A) (Q : res A -> S -> Prop) : Prop :=
  forall s, P s -> Q (snd (m s)) (fst (m s)).

Section triples.
Context {S : Type}.

Lemma triple_ret {A} (a : A) (Q : res A -> S -> Prop) : triple (Q (Ok a)) (ret a) Q.
Proof. by intros s. Qed.

Lemma triple_bind {A B} (P : S -> Prop) (m : M S A) (k : A -> M S B) R Q :
  triple P m R ->
  (forall a, triple (R (Ok a)) (k a) Q) ->
  (forall e s, R (Raise e) s -> Q (Raise e) s) ->
  triple P (bind m k) Q.
Proof.
  intros Hm Hk He s HP. specialize (Hm s HP). unfold bind.
  destruct (m s) as [s' [a|e]]; simpl in *; [by apply Hk | by apply He].
Qed.

Lemma triple_conseq {A} (P P' : S -> Prop) (m : M S A) (Q Q' : res A -> S -> Prop) :
  triple P' m Q' -> (forall s, P s -> P' s) ->
  (forall r s, Q' r s -> Q r s) -> triple P m Q.
Proof. intros Hm HP HQ s Hs. apply HQ, Hm, HP, Hs. Qed.

(** The invariant of a loop may speak of the iterations still to come. *)
Lemma triple_for_each {X} (xs : list X) (body : X -> M S unit)
    (I : list X -> S -> Prop) (E : exn -> S -> Prop) :
  (forall x rest, triple (I (x :: rest)) (body x)
     (fun r s => match r with Ok _ => I rest s | Raise e => E e s end)) ->
  triple (I xs) (for_each xs body)
     (fun r s => match r with Ok _ => I [] s | Raise e => E e s end).
Proof.
  intros Hbody. induction xs as [|x xs IH]; simpl; [by intros s|].
  eapply triple_bind; [apply Hbody | intros [] ; apply IH | done].
Qed.
End triples.

Lemma for_each_app {S X} (xs ys : list X) (body : X -> M S unit) s :
  for_each (xs ++ ys) body s =
    bind (for_each xs body) (fun _ => for_each ys body) s.
Proof.
  revert s. induction xs as [|x xs IH]; intros s; [done|].
  simpl. unfold bind in *. destruct (body x s) as [s' [[]|e]]; [apply IH | done].
Qed.

(** A loop whose body never raises is a left fold. *)
Lemma for_each_fold {S X} (f : X -> S -> S) (xs : list X) (body : X -> M S unit) s :
  (forall x s, body x s = (f x s, Ok tt)) ->
  for_each xs body s = (foldl (fun s x => f x s) s xs, Ok tt).
Proof.
  intros Hb. revert s. induction xs as [|x xs IH]; intros s; [done|].
  simpl. unfold bind. by rewrite Hb, IH.
Qed.

(** ** Python lists: slices and indices (clamping, negative indices) *)

Definition Zlen {A} (l : list A) : Z := Z.of_nat (length l).

(** The position a slice bound denotes. *)
Definition slice_idx (n i : Z) : nat :=
  Z.to_nat (if i <? 0 then Z.max 0 (n + i) else Z.min i n)%Z.

(** [l[i:j]] *)
Definition py_slice {A} (i j : Z) (l : list A) : list A :=
  let i' := slice_idx (Zlen l) i in
  let j' := slice_idx (Zlen l) j in
  take (j' - i') (drop i' l).

(** [l[:j]] and [l[i:]] *)
Definition py_take {A} (j : Z) (l : list A) : list A := take (slice_idx (Zlen l) j) l.
Definition py_drop {A} (i : Z) (l : list A) : list A := drop (slice_idx (Zlen l) i) l.

(** [l[i]] *)
Definition py_index {A} (l : list A) (i : Z) : res A :=
  match (if (i <? 0)%Z then (if (Zlen l + i <? 0)%Z then None else l !! Z.to_nat (Zlen l + i))
         else l !! Z.to_nat i) with
  | Some x => Ok x
  | None => Raise IndexError
  end.

(** [l.pop()] on a list known to be non-empty when [Some]. *)
Definition py_pop {A} (l : list A) : option (list A * A) :=
  match last l with
  | Some x => Some (removelast l, x)
  | None => None
  end.

(** [dict.fromkeys(l)] as an ordered set: first occurrences, in order. *)
Fixpoint fromkeys `{EqDecision K} (l : list K) : list K :=
  match l with
  | [] => []
  | k :: l' => k :: filter (fun k' => k' <> k) (fromkeys l')
  end.

(** The keys of a [dict] in insertion order, with [d[k] = v] on an ordered
    set (an existing key keeps its place) and [d.pop(k, None)]. *)
Definition os_add `{EqDecision K} (k : K) (l : list K) : list K :=
  if decide (k ∈ l) then l else l ++ [k].
Definition os_del `{EqDecision K} (k : K) (l : list K) : list K :=
  filter (fun k' => k' <> k) l.
Definition os_move_to_end `{EqDecision K} (k : K) (l : list K) : list K :=
  os_del k l ++ [k].

(** An insertion-ordered [dict]. *)
Fixpoint od_get `{EqDecision K} {V} (k : K) (d : list (K * V)) : option V :=
  match d with
  | [] => None
  | (k', v) :: d' => if decide (k = k') then Some v else od_get k d'
  end.
Fixpoint od_set `{EqDecision K} {V} (k : K) (v : V) (d : list (K * V)) : list (K * V) :=
  match d with
  | [] => [(k, v)]
  | (k', v') :: d' => if decide (k = k') then (k, v) :: d' else (k', v') :: od_set k v d'
  end.
Definition od_pop `{EqDecision K} {V} (k : K) (d : list (K * V)) : list (K * V) :=
  filter (fun p => p.1 <> k) d.

(** The length of the longest prefix of [l] whose elements all satisfy [p]. *)
Fixpoint prefix_count {A} (p : A -> bool) (l : list A) : nat :=
  match l with
  | [] => 0
  | x :: l' => if p x then S (prefix_count p l') else 0
  end.

(** ** Lemmas on slices *)

Create HintDb pylist.

Lemma Zlen_nonneg {A} (l : list A) : (0 <= Zlen l)%Z.
Proof. unfold Zlen. lia. Qed.
#[export] Hint Resolve Zlen_nonneg : pylist.

Lemma Zlen_one {A} (x : A) : Zlen [x] = 1%Z.
Proof. done. Qed.

Lemma py_take_nonneg {A} (j : Z) (l : list A) :
  (0 <= j)%Z -> py_take j l = take (Z.to_nat j) l.
Proof.
  intros Hj. unfold py_take, slice_idx, Zlen.
  replace (j <? 0)%Z with false by lia.
  destruct (Z.le_gt_cases j (Z.of_nat (length l))).
  - by rewrite Z.min_l by lia.
  - rewrite Z.min_r, Nat2Z.id by lia. by rewrite !take_ge by lia.
Qed.

Lemma py_drop_nonneg {A} (i : Z) (l : list A) :
  (0 <= i)%Z -> py_drop i l = drop (Z.to_nat i) l.
Proof.
  intros Hi. unfold py_drop, slice_idx, Zlen.
  replace (i <? 0)%Z with false by lia.
  destruct (Z.le_gt_cases i (Z.of_nat (length l))).
  - by rewrite Z.min_l by lia.
  - rewrite Z.min_r, Nat2Z.id by lia. by rewrite !drop_ge by lia.
Qed.

Lemma py_slice_nonneg {A} (i j : Z) (l : list A) :
  (0 <= i)%Z -> (0 <= j)%Z ->
  py_slice i j l = take (Z.to_nat j - Z.to_nat i) (drop (Z.to_nat i) l).
Proof.
  intros Hi Hj. unfold py_slice, slice_idx, Zlen.
  replace (i <? 0)%Z with false by lia. replace (j <? 0)%Z with false by lia.
  destruct (Z.le_gt_cases i (Z.of_nat (length l))) as [Hil|Hil].
  - rewrite (Z.min_l i) by lia.
    destruct (Z.le_gt_cases j (Z.of_nat (length l))) as [Hjl|Hjl].
    + by rewrite Z.min_l by lia.
    + rewrite Z.min_r, Nat2Z.id by lia.
      rewrite !take_ge; rewrite ?length_drop; [done|lia|lia].
  - rewrite (Z.min_r i), Nat2Z.id by lia.
    by rewrite !drop_ge, !take_nil by lia.
Qed.

Lemma py_pop_Some {A} (l l' : list A) (x : A) :
  py_pop l = Some (l', x) <-> l = l' ++ [x].
Proof.
  unfold py_pop. split.
  - intros H. destruct (last l) as [y|] eqn:E; [|done]. simplify_eq.
    apply last_Some in E as [l0 ->]. by rewrite removelast_last.
  - intros ->. by rewrite last_snoc, removelast_last.
Qed.

Lemma py_pop_None {A} (l : list A) : py_pop l = None <-> l = [].
Proof.
  unfold py_pop. rewrite <- last_None. destruct (last l); naive_solver.
Qed.

(** ** Lemmas on ordered sets *)

Section ordered_sets.
Context `{EqDecision K}.
Implicit Types (k : K) (l : list K).

Lemma elem_of_fromkeys k l : k ∈ fromkeys l <-> k ∈ l.
Proof.
  induction l as [|k' l IH]; simpl; [done|].
  rewrite !elem_of_cons, list_elem_of_filter, IH.
  destruct (decide (k = k')); naive_solver.
Qed.

Lemma NoDup_fromkeys l : NoDup (fromkeys l).
Proof.
  induction l as [|k l IH]; simpl; constructor.
  - rewrite list_elem_of_filter. naive_solver.
  - by apply NoDup_filter.
Qed.

Lemma fromkeys_NoDup l : NoDup l -> fromkeys l = l.
Proof.
  induction 1 as [|k l Hk Hl IH]; simpl; [done|]. f_equal. rewrite IH.
  clear -Hk. induction l as [|k' l IHl]; [done|].
  rewrite filter_cons_True by set_solver. f_equal. apply IHl. set_solver.
Qed.

Lemma elem_of_os_del k k' l : k ∈ os_del k' l <-> k <> k' /\ k ∈ l.
Proof. unfold os_del. by rewrite list_elem_of_filter. Qed.

Lemma elem_of_os_add k k' l : k ∈ os_add k' l <-> k = k' \/ k ∈ l.
Proof. unfold os_add. case_decide; set_solver. Qed.

Lemma elem_of_os_move_to_end k k' l :
  k ∈ os_move_to_end k' l <-> k = k' \/ k ∈ l.
Proof.
  unfold os_move_to_end. rewrite elem_of_app, elem_of_os_del, list_elem_of_singleton.
  destruct (decide (k = k')); naive_solver.
Qed.

Lemma NoDup_os_del k l : NoDup l -> NoDup (os_del k l).
Proof. apply NoDup_filter. Qed.

Lemma NoDup_os_add k l : NoDup l -> NoDup (os_add k l).
Proof.
  unfold os_add. case_decide; [done|]. intros. apply NoDup_app. split; [done|].
  split; [|apply NoDup_singleton]. set_solver.
Qed.

Lemma NoDup_os_move_to_end k l : NoDup l -> NoDup (os_move_to_end k l).
Proof.
  intros Hl. unfold os_move_to_end. apply NoDup_app. split; [by apply NoDup_os_del|].
  split; [|apply NoDup_singleton]. intros k'. rewrite elem_of_os_del. set_solver.
Qed.

Lemma os_del_notin k l : k ∉ l -> os_del k l = l.
Proof.
  intros Hk. unfold os_del. induction l as [|k' l IH]; [done|].
  rewrite filter_cons_True by set_solver. f_equal. apply IH. set_solver.
Qed.

Lemma os_del_app k l1 l2 : os_del k (l1 ++ l2) = os_del k l1 ++ os_del k l2.
Proof. apply filter_app. Qed.
End ordered_sets.
#[export] Hint Resolve NoDup_fromkeys NoDup_os_del NoDup_os_add NoDup_os_move_to_end : pylist.

Section ordered_dicts.
Context `{EqDecision K} {V : Type}.
Implicit Types (k : K) (v : V) (d : list (K * V)).

Lemma od_get_set_eq k v d : od_get k (od_set k v d) = Some v.
Proof.
  induction d as [|[k' v'] d IH]; simpl; [by case_decide|].
  case_decide; simpl; by case_decide.
Qed.

Lemma od_get_set_ne k k' v d : k <> k' -> od_get k (od_set k' v d) = od_get k d.
Proof.
  intros Hne. induction d as [|[k0 v0] d IH]; simpl; [by case_decide|].
  case_decide as E; simpl.
  - subst. by rewrite !decide_False by done.
  - case_decide; [done|apply IH].
Qed.

Lemma od_get_pop_eq k d : od_get k (od_pop k d) = None.
Proof.
  unfold od_pop. induction d as [|[k0 v0] d IH]; [done|].
  rewrite filter_cons. simpl. case_decide; simpl; [|done].
  rewrite decide_False by done. apply IH.
Qed.

Lemma od_get_pop_ne k k' d : k <> k' -> od_get k (od_pop k' d) = od_get k d.
Proof.
  intros Hne. unfold od_pop. induction d as [|[k0 v0] d IH]; [done|].
  rewrite filter_cons. simpl. case_decide as E; simpl.
  - case_decide; [done|apply IH].
  - rewrite decide_False by congruence. apply IH.
Qed.

Lemma od_set_keys k v v' d : od_get k d = Some v' -> (od_set k v d).*1 = d.*1.
Proof.
  induction d as [|[k0 v0] d IH]; simpl; [done|]. case_decide; [by subst|].
  intros Hk. by rewrite !fmap_cons, IH.
Qed.

Lemma od_set_set k v v' d : od_set k v (od_set k v' d) = od_set k v d.
Proof.
  induction d as [|[k0 v0] d IH]; simpl; [by rewrite decide_True|].
  case_decide; simpl; [by rewrite decide_True|]. rewrite decide_False by done. by rewrite IH.
Qed.

Lemma od_get_None k d : od_get k d = None <-> k ∉ d.*1.
Proof.
  induction d as [|[k0 v0] d IH]; [split; [intros _; apply not_elem_of_nil|done]|].
  rewrite fmap_cons, not_elem_of_cons. simpl. case_decide; naive_solver.
Qed.

Lemma od_set_fresh k v d : od_get k d = None -> od_set k v d = d ++ [(k, v)].
Proof.
  induction d as [|[k0 v0] d IH]; simpl; [done|]. case_decide; [done|]. intros Hk. by rewrite IH.
Qed.

Lemma od_get_app k d1 d2 :
  od_get k (d1 ++ d2) = match od_get k d1 with Some v => Some v | None => od_get k d2 end.
Proof. induction d1 as [|[k0 v0] d1 IH]; simpl; [done|]. by case_decide. Qed.

Lemma od_get_elem k v d : od_get k d = Some v -> (k, v) ∈ d.
Proof.
  induction d as [|[k0 v0] d IH]; simpl; [done|]. case_decide; [intros [= ->]; subst; left|].
  intros Hk. right. by apply IH.
Qed.

Lemma od_get_NoDup k v d : NoDup d.*1 -> (k, v) ∈ d -> od_get k d = Some v.
Proof.
  induction d as [|[k0 v0] d IH]; [by intros _ H%not_elem_of_nil|]. rewrite fmap_cons.
  intros [Hnotin Hnd]%NoDup_cons [Heq|Hin]%elem_of_cons; simpl.
  - injection Heq as -> ->. by rewrite decide_True.
  - rewrite decide_False; [by apply IH|]. intros ->. apply Hnotin. apply list_elem_of_fmap. by exists (k0, v).
Qed.
End ordered_dicts.

(** ** Lemmas on prefixes *)

Section prefixes.
Context {A : Type}.
Implicit Types (p : A -> bool) (l : list A).

Lemma prefix_count_le p l : prefix_count p l <= length l.
Proof. induction l; simpl; [done|]. case_match; simpl; lia. Qed.

Lemma prefix_count_take p l : Forall (fun x => p x = true) (take (prefix_count p l) l).
Proof.
  induction l as [|x l IH]; simpl; [constructor|]. destruct (p x) eqn:E; by constructor.
Qed.

Lemma prefix_count_stop p l x : l !! prefix_count p l = Some x -> p x = false.
Proof.
  induction l as [|y l IH]; simpl; [done|].
  destruct (p y) eqn:E; simpl; [apply IH|]. naive_solver.
Qed.

(** It is the only such length. *)
Lemma prefix_count_unique p l n :
  n <= length l -> Forall (fun x => p x = true) (take n l) ->
  (forall x, l !! n = Some x -> p x = false) -> n = prefix_count p l.
Proof.
  revert n. induction l as [|y l IH]; intros [|n] Hn Ht Hs; simpl in *; [done|lia| |].
  - by rewrite (Hs y).
  - inversion_clear Ht as [|? ? Hy Ht']. rewrite Hy. f_equal. apply IH; [lia|done..].
Qed.

Lemma prefix_count_ext p q l :
  (forall x, x ∈ l -> p x = q x) -> prefix_count p l = prefix_count q l.
Proof.
  induction l as [|y l IH]; intros H; simpl; [done|].
  rewrite (H y), IH by set_solver. done.
Qed.

Lemma prefix_count_full p l :
  Forall (fun x => p x = true) l -> prefix_count p l = length l.
Proof. induction 1 as [|x l Hx _ IH]; simpl; [done|]. by rewrite Hx, IH. Qed.
End prefixes.
#[export] Hint Resolve prefix_count_le : pylist.

(** Case analysis on every [match] and [decide] of the goal, clearing the
    impossible cases. *)
Ltac split_cases :=
  repeat first [case_match | case_decide | progress simplify_eq/=]; try done.

(** ** [range(start, stop, step)] *)

Definition range_len (start stop step : Z) : Z :=
  (if 0 <? step
   then if start <? stop then (stop - start + step - 1) / step else 0
   else if stop <? start then (start - stop - step - 1) / (- step) else 0)%Z.

Definition py_range (start stop step : Z) : res (list Z) :=
  if (step =? 0)%Z then Raise ValueError
  else Ok ((fun i => (start + i * step)%Z) <$> seqZ 0 (range_len start stop step)).

(** [a % b] and [a // b] (floored, like [Z.modulo] and [Z.div]). *)
Definition py_mod (a b : Z) : res Z :=
  if (b =? 0)%Z then Raise ZeroDivisionError else Ok (a mod b)%Z.
Definition py_floordiv (a b : Z) : res Z :=
  if (b =? 0)%Z then Raise ZeroDivisionError else Ok (a / b)%Z.

Lemma forallb_Forall {A} (p : A -> bool) (l : list A) :
  forallb p l = true <-> Forall (fun x => p x = true) l.
Proof.
  rewrite List.forallb_forall, Forall_forall. by setoid_rewrite list_elem_of_In.
Qed.

Lemma list_filter_all {A} (P : A -> Prop) `{!forall x, Decision (P x)} (l : list A) :
  (forall x, x ∈ l -> P x) -> filter P l = l.
Proof.
  intros Hl. induction l as [|x l IH]; [done|].
  rewrite filter_cons_True by (apply Hl; set_solver). f_equal. apply IH. set_solver.
Qed.

Lemma list_filter_iff_in {A} (P Q : A -> Prop) `{!forall x, Decision (P x)}
    `{!forall x, Decision (Q x)} (l : list A) :
  (forall x, x ∈ l -> P x <-> Q x) -> filter P l = filter Q l.
Proof.
  intros Hl. induction l as [|x l IH]; [done|].
  rewrite !filter_cons, IH by (intros; apply Hl; set_solver).
  destruct (Hl x) as [H1 H2]; [set_solver|]. do 2 case_decide; naive_solver.
Qed.

Lemma NoDup_take {A} n (l : list A) : NoDup l -> NoDup (take n l).
Proof. rewrite <- (take_drop n l) at 1. by intros (H & _ & _)%NoDup_app. Qed.
Lemma NoDup_drop {A} n (l : list A) : NoDup l -> NoDup (drop n l).
Proof. rewrite <- (take_drop n l) at 1. by intros (_ & _ & H)%NoDup_app. Qed.
Lemma NoDup_take_notin_drop {A} n (l : list A) x : NoDup l -> x ∈ take n l -> x ∉ drop n l.
Proof. rewrite <- (take_drop n l) at 1. intros (_ & H & _)%NoDup_app. apply H. Qed.
#[export] Hint Resolve NoDup_take NoDup_drop : pylist.

Lemma delete_inserted {X} (l : list X) i x : delete i (<[i := x]> l) = delete i l.
Proof. revert i. induction l as [|y l IH]; intros [|i]; simpl; [done..|]. f_equal. apply IH. Qed.
