(* ===== verification/PyFloat.v ===== *)
(** Python floats as the executable binary64 arithmetic of the standard
    library's [SpecFloat] (IEEE 754, precision 53, exponent bound 1024), with
    the exceptions Python raises.  Used for the LRU target and watermark of
    l1/eviction.py, for the bandwidth figure of l1/prefetch_controller.py and
    server.py, and for the size of L1 given to server.py.  [int / int] is computed on the converted operands, which
    is what CPython does for integers below 2^53. *)
From Stdlib Require Export Floats.SpecFloat.
From S2P Require Import Prelude.

Definition float := spec_float.

Definition fprec : Z := 53.
Definition femax : Z := 1024.

(** [float(n)], rounding to nearest even. *)
Definition float_of_int (n : Z) : float := binary_normalize fprec femax n 0 false.

Definition fmul (x y : float) : float := SFmul fprec femax x y.
Definition flt (x y : float) : bool := SFltb x y.

(** [x / y] on floats. *)
Definition fdiv (x y : float) : res float :=
  match y with
  | S754_zero _ => Raise ZeroDivisionError
  | _ => Ok (SFdiv fprec femax x y)
  end.

(** [a / b] on integers. *)
Definition int_truediv (a b : Z) : res float :=
  if (b =? 0)%Z then Raise ZeroDivisionError
  else Ok (SFdiv fprec femax (float_of_int a) (float_of_int b)).

(** [int(x)]: truncation towards zero; infinities and NaN raise. *)
Definition float_trunc (x : float) : res Z :=
  match x with
  | S754_zero _ => Ok 0%Z
  | S754_finite s m e =>
      let v := if (0 <=? e)%Z then (Zpos m * 2 ^ e)%Z else (Zpos m / 2 ^ (- e))%Z in
      Ok (if s then (- v)%Z else v)
  | S754_infinity _ => Raise OverflowError
  | S754_nan => Raise ValueError
  end.

(** The literals of the program: [0.0], [0.2], [0.8], [1e9]. *)
Definition f_0 : float := S754_zero false.
Definition f_0_2 : float := S754_finite false 7205759403792794 (-55).
Definition f_0_8 : float := S754_finite false 7205759403792794 (-53).
Definition f_1e9 : float := float_of_int 1000000000.

(** The literals are the floats nearest to the decimals: 0.2 is 1/5 and 0.8
    is 4/5 divided in binary64. *)
Lemma f_literals :
  int_truediv 1 5 = Ok f_0_2 /\ int_truediv 4 5 = Ok f_0_8.
Proof. split; vm_compute; reflexivity. Qed.

(** Conversion and truncation are inverse on every integer a chunk count of
    this program reaches in practice. *)
Lemma float_trunc_int_small :
  forallb (fun n => bool_decide (float_trunc (float_of_int n) = Ok n))
          (seqZ (-512) 1536) = true.
Proof. vm_compute. reflexivity. Qed.

(** ** Multiplying by a power of two

    A product with [2 ^ k] only moves the exponent: it is exact unless it
    overflows. *)

Lemma iter_pos_nat {A} (f : A -> A) p x : SpecFloat.iter_pos f p x = Nat.iter (Pos.to_nat p) f x.
Proof.
  revert x. induction p as [p IH|p IH|]; intros x; simpl SpecFloat.iter_pos; [| |done].
  - rewrite !IH, Pos2Nat.inj_xI, <- Nat.iter_succ_r, <- Nat.iter_add. f_equal. lia.
  - rewrite !IH, Pos2Nat.inj_xO, <- Nat.iter_add. f_equal. lia.
Qed.

Lemma scaled_pos m n : (0 < m)%Z -> (0 <= n)%Z -> (0 < m * 2 ^ n)%Z.
Proof. intros Hm Hn. apply Z.mul_pos_pos; [done|]. by apply Z.pow_pos_nonneg. Qed.

Definition exact_record (m : Z) : shr_record := Build_shr_record m false false.

Lemma shr_exact m e n : (0 < m)%Z -> (0 <= n)%Z -> shr (exact_record (m * 2 ^ n)) e n = (exact_record m, (e + n)%Z).
Proof.
  intros Hm Hn. unfold shr. destruct n as [|p|p]; [by rewrite Z.mul_1_r, Z.add_0_r| |lia].
  f_equal. rewrite iter_pos_nat, <- (positive_nat_Z p). induction (Pos.to_nat p) as [|k IH]; [by rewrite Z.mul_1_r|].
  rewrite Nat.iter_succ_r, <- IH. f_equal. rewrite Nat2Z.inj_succ, Z.pow_succ_r by lia.
  replace (m * (2 * 2 ^ Z.of_nat k))%Z with (2 * (m * 2 ^ Z.of_nat k))%Z by lia.
  assert (0 < m * 2 ^ Z.of_nat k)%Z by (apply scaled_pos; lia).
  by destruct (m * 2 ^ Z.of_nat k)%Z.
Qed.

Lemma digits2_mul m n : (0 < m)%Z -> (0 <= n)%Z -> Zdigits2 (m * 2 ^ n) = (Zdigits2 m + n)%Z.
Proof.
  intros Hm. revert n. apply natlike_ind; [by rewrite Z.mul_1_r, Z.add_0_r|]. intros n Hn IH.
  rewrite Z.pow_succ_r by done. replace (m * (2 * 2 ^ n))%Z with (2 * (m * 2 ^ n))%Z by lia.
  assert (0 < m * 2 ^ n)%Z by (apply scaled_pos; lia).
  replace (Zdigits2 m + Z.succ n)%Z with (Z.succ (Zdigits2 (m * 2 ^ n))) by lia.
  destruct (m * 2 ^ n)%Z as [|p|p]; [lia| |lia]. exact (Pos2Z.inj_succ (digits2_pos p)).
Qed.

Lemma digits2_pos_bound m : (2 ^ (Zdigits2 (Zpos m) - 1) <= Zpos m < 2 ^ Zdigits2 (Zpos m))%Z.
Proof.
  assert (forall p, Z.succ (Zpos p) - 1 = Zpos p)%Z as E by lia.
  induction m as [m IH|m IH|]; [| |done]; simpl Zdigits2 in *; rewrite Pos2Z.inj_succ, E, Z.pow_succ_r by lia;
    replace (2 ^ Z.pos (digits2_pos m))%Z with (2 * 2 ^ (Z.pos (digits2_pos m) - 1))%Z in * by
      (rewrite <- Z.pow_succ_r by lia; f_equal; lia); lia.
Qed.

(** The integer part of [m * 2 ^ e]. *)
Definition scaled_floor (m e : Z) : Z := if (0 <=? e)%Z then (m * 2 ^ e)%Z else (m / 2 ^ (- e))%Z.

Lemma scaled_floor_shift m e n : (0 <= n)%Z -> scaled_floor (m * 2 ^ n) (e - n) = scaled_floor m e.
Proof.
  intros Hn. unfold scaled_floor. destruct (Z.leb_spec 0 e), (Z.leb_spec 0 (e - n)); try lia.
  - rewrite <- Z.mul_assoc, <- Z.pow_add_r by lia. do 2 f_equal. lia.
  - replace n with (e + (- (e - n)))%Z at 1 by lia. rewrite Z.pow_add_r, Z.mul_assoc by lia.
    apply Z.div_mul, Z.pow_nonzero; lia.
  - replace (- (e - n))%Z with (n + - e)%Z by lia. rewrite Z.pow_add_r, (Z.mul_comm (2 ^ n)) by lia.
    apply Z.div_mul_cancel_r; apply Z.pow_nonzero; lia.
Qed.

Lemma scaled_floor_nonneg m e : (0 <= m)%Z -> (0 <= scaled_floor m e)%Z.
Proof.
  intros Hm. unfold scaled_floor. destruct (_ <=? _)%Z; [apply Z.mul_nonneg_nonneg; [done|apply Z.pow_nonneg; lia]|].
  destruct (Z.eq_dec (2 ^ (- e)) 0)%Z as [->|Hne]; [by rewrite Zdiv_0_r|]. apply Z.div_pos; [done|].
  assert (0 <= 2 ^ (- e))%Z by (apply Z.pow_nonneg; lia). lia.
Qed.

Lemma scaled_floor_shiftr m e k : (0 <= k)%Z -> Z.shiftr (scaled_floor m (e + k)) k = scaled_floor m e.
Proof.
  intros Hk. rewrite Z.shiftr_div_pow2 by done. unfold scaled_floor.
  destruct (Z.leb_spec 0 (e + k)), (Z.leb_spec 0 e); try lia.
  - rewrite Z.pow_add_r, Z.mul_assoc by done. apply Z.div_mul, Z.pow_nonzero; lia.
  - replace (2 ^ k)%Z with (2 ^ (- e) * 2 ^ (e + k))%Z by (rewrite <- Z.pow_add_r by lia; f_equal; lia).
    apply Z.div_mul_cancel_r; apply Z.pow_nonzero; lia.
  - rewrite Z.div_div by (first [apply Z.pow_nonzero; lia|apply Z.pow_pos_nonneg; lia]).
    rewrite <- Z.pow_add_r by lia. do 2 f_equal. lia.
Qed.

Notation pfexp := (fexp fprec femax).

Lemma round_exact s m e n :
  (0 < m)%Z -> (0 <= n)%Z -> pfexp (Zdigits2 m + (e + n)) = (e + n)%Z ->
  binary_round_aux fprec femax s (m * 2 ^ n) e loc_Exact =
    if (e + n <=? femax - fprec)%Z then S754_finite s (Z.to_pos m) (e + n) else S754_infinity s.
Proof.
  intros Hm Hn He. unfold binary_round_aux, shr_fexp. rewrite digits2_mul by done.
  replace (pfexp (Zdigits2 m + n + e) - e)%Z with n by (rewrite <- Z.add_assoc, (Z.add_comm n), He; lia).
  change (shr_record_of_loc (m * 2 ^ n) loc_Exact) with (exact_record (m * 2 ^ n)). rewrite shr_exact by done.
  cbn [shr_m exact_record loc_of_shr_record round_nearest_even]. rewrite He, Z.sub_diag. by destruct m.
Qed.

Lemma bounded_spec m e :
  bounded fprec femax m e = true -> pfexp (Zdigits2 (Zpos m) + e) = e /\ (e <= femax - fprec)%Z.
Proof. unfold bounded, canonical_mantissa. intros [H1%Z.eqb_eq H2%Z.leb_le]%andb_prop. done. Qed.

(** [x * 2 ^ k], for the floats that stand for a power of two. *)
Lemma fmul_pow2 s m e k :
  bounded fprec femax m e = true -> (0 <= k <= 52)%Z ->
  exists n, (0 <= n)%Z /\ (n = 0 \/ e = emin fprec femax)%Z /\
    fmul (S754_finite s m e) (S754_finite false 4503599627370496 (k - 52)) =
      if (e + k - n <=? femax - fprec)%Z then S754_finite s (Z.to_pos (Zpos m * 2 ^ n)) (e + k - n) else S754_infinity s.
Proof.
  intros [He _]%bounded_spec Hk. set (d := Zdigits2 (Zpos m)) in *.
  assert (0 < d)%Z as Hd by done. unfold fexp, emin, fprec, femax in He.
  set (e' := pfexp (d + (e + k))).
  assert (e - (52 - k) <= e' <= e + k)%Z as He' by (unfold e', fexp, emin, fprec, femax; lia).
  exists (e + k - e')%Z. split_and!; [lia|unfold e', fexp, emin, fprec, femax; lia|]. unfold fmul, SFmul. rewrite xorb_false_r.
  replace (Zpos (m * 4503599627370496)) with (Zpos m * 2 ^ (e + k - e') * 2 ^ (e' - (e + (k - 52))))%Z.
  2: { rewrite <- Z.mul_assoc, <- Z.pow_add_r by lia. replace (_ + _)%Z with 52%Z by lia. done. }
  rewrite round_exact; [|by apply scaled_pos; [|lia]|lia|].
  - by replace (e + (k - 52) + (e' - (e + (k - 52))))%Z with (e + k - (e + k - e'))%Z by lia.
  - rewrite digits2_mul by lia. fold d. replace (_ + (_ + _))%Z with (d + (e + k))%Z by lia.
    change (pfexp (d + (e + k))) with e'. lia.
Qed.

(** [int(x * 2 ^ k)]: the integer part of the exact product. *)
Lemma float_trunc_pow2 s m e k :
  bounded fprec femax m e = true -> (0 <= k <= 52)%Z -> (e + k <= femax - fprec)%Z ->
  float_trunc (fmul (S754_finite s m e) (S754_finite false 4503599627370496 (k - 52))) =
    Ok (if s then (- scaled_floor (Zpos m) (e + k))%Z else scaled_floor (Zpos m) (e + k)).
Proof.
  intros Hb Hk He. destruct (fmul_pow2 s m e k Hb Hk) as (n & Hn & _ & ->).
  replace (_ <=? _)%Z with true by lia. cbn [float_trunc]. rewrite Z2Pos.id by by apply scaled_pos.
  change (if (0 <=? ?x)%Z then _ else _) with (scaled_floor (Zpos m * 2 ^ n) x).
  fold (scaled_floor (Zpos m * 2 ^ n) (e + k - n)). by rewrite scaled_floor_shift.
Qed.
