(* ===== verification/Device.v ===== *)
(** Device backend selection (utils/device.py).

    What is installed is given by [probes], the results of the availability
    functions of transformers, and by [torch_has], whether torch has a namespace of
    that name. The cache of [get_device_module] is its state. *)
From S2P Require Import Prelude.
Local Open Scope py_scope.

Record Probes := mkProbes {
  is_torch_npu_available : bool;
  is_torch_cuda_available : bool;
  is_torch_xpu_available : bool;
  is_torch_mlu_available : bool;
  is_torch_musa_available : bool;
  is_torch_mps_available : bool
}.

Definition get_device_type (p : Probes) : string :=
  if is_torch_npu_available p then "npu"
  else if is_torch_cuda_available p then "cuda"
  else if is_torch_xpu_available p then "xpu"
  else if is_torch_mlu_available p then "mlu"
  else if is_torch_musa_available p then "musa"
  else if is_torch_mps_available p then "mps"
  else "cpu".

(** The namespace whose [set_device] is called. *)
Definition set_device (dtype : string) : res string :=
  if decide (dtype = "npu") then Ok "npu"
  else if decide (dtype = "cuda") then Ok "cuda"
  else if decide (dtype = "xpu") then Ok "xpu"
  else if decide (dtype = "mlu") then Ok "mlu"
  else if decide (dtype = "musa") then Ok "musa"
  else if decide (dtype = "mps") then Ok "mps"
  else Raise ValueError.

Section device.
Context (torch_has : string -> bool).

(** [getattr(torch, name)] *)
Definition torch_attr (name : string) : res string :=
  if torch_has name then Ok name else Raise AttributeError.

(** The decorated function: a result is kept, an exception is not. *)
Definition get_device_module (p : Probes) : M (option string) string := fun cache =>
  match cache with
  | Some m => (cache, Ok m)
  | None =>
      let device_type := get_device_type p in
      if decide (device_type = "cpu") then (cache, Raise RuntimeError)
      else match torch_attr device_type with
           | Ok m => (Some m, Ok m)
           | Raise e => (cache, Raise e)
           end
  end.

(** [current_device] is the probe of the namespace found. *)
Definition is_device_available (p : Probes) (current_device : string -> res Z)
    : M (option string) bool := fun cache =>
  let (cache', r) := get_device_module p cache in
  match (let? m := r in current_device m) with
  | Ok _ => (cache', Ok true)
  | Raise e =>
      (cache', if decide (e = RuntimeError \/ e = ImportError \/ e = AttributeError)
               then Ok false else Raise e)
  end.
End device.

(** The accelerators in order of preference. *)
Definition accelerators (p : Probes) : list (bool * string) :=
  [(is_torch_npu_available p, "npu"); (is_torch_cuda_available p, "cuda");
   (is_torch_xpu_available p, "xpu"); (is_torch_mlu_available p, "mlu");
   (is_torch_musa_available p, "musa"); (is_torch_mps_available p, "mps")].

Lemma device_type_first p :
  get_device_type p = default "cpu" (snd <$> head (filter (fun a => a.1 = true) (accelerators p))).
Proof. destruct p as [[] [] [] [] [] []]; reflexivity. Qed.

(** The module is chosen once: the first success picks the first available
    accelerator in the order npu, cuda, xpu, mlu, musa, mps, and every later call
    returns the same one whatever the probes say then; a failure is not kept and
    only a machine without accelerator (or a torch without its namespace) fails.
    The type chosen is always one [set_device] accepts. *)
Theorem device_module_chosen_once torch_has p p' :
  match get_device_module torch_has p None with
  | (cache, Ok m) =>
      head (filter (fun a => a.1 = true) (accelerators p)) = Some (true, m) /\
      cache = Some m /\ get_device_module torch_has p' cache = (cache, Ok m) /\ set_device m = Ok m
  | (cache, Raise e) =>
      cache = None /\
      (e = RuntimeError /\ Forall (fun a => a.1 = false) (accelerators p) \/
       e = AttributeError /\ torch_has (get_device_type p) = false)
  end.
Proof.
  unfold get_device_module, torch_attr.
  destruct p as [[] [] [] [] [] []]; simpl;
    repeat match goal with |- context [torch_has ?n] => destruct (torch_has n) eqn:? end;
    first [by split_and! | split; [done|]; first [by right | left; split; [done|]; by repeat constructor]].
Qed.

(** [is_device_available] answers True exactly when a module is found and
    its [current_device] works, False on the three exceptions it expects, and lets
    any other exception through. *)
Lemma is_device_available_exact torch_has p current_device :
  match is_device_available torch_has p current_device None with
  | (_, Ok true) => exists m d, get_device_module torch_has p None = (Some m, Ok m) /\ current_device m = Ok d
  | (cache, Ok false) =>
      cache = None \/ exists m e, cache = Some m /\ current_device m = Raise e /\
        (e = RuntimeError \/ e = ImportError \/ e = AttributeError)
  | (_, Raise e) => exists m, get_device_module torch_has p None = (Some m, Ok m) /\ current_device m = Raise e
  end.
Proof.
  unfold is_device_available, get_device_module, torch_attr.
  case_decide; simpl; [by left|]. destruct (torch_has _); simpl; [|by left].
  destruct (current_device _) as [d|e] eqn:E; [by eauto|]. case_decide; [|by eauto]. right. by eauto 6.
Qed.
