(* ===== verification/Protocol.v ===== *)
(** Wire protocol (protocol.py): the request types, the identity of a chunk
    and the payload records exchanged by connector and server. *)
From S2P Require Import Prelude PyFloat.

(** [Req], an [IntEnum]. *)
Inductive Req :=
| GET_CHUNK_SIZE
| REGISTER_KV_CACHE
| UNREGISTER_KV_CACHE
| LOOKUP
| QUERY_PREFETCH_STATUS
| RETRIEVE
| STORE
| FREE_LOOKUP_LOCKS
| END_SESSION
| TRANSFER_ACK.

#[export] Instance Req_eq_dec : EqDecision Req.
Proof. solve_decision. Defined.

Definition Req_value (r : Req) : Z :=
  match r with
  | GET_CHUNK_SIZE => 1
  | REGISTER_KV_CACHE => 2
  | UNREGISTER_KV_CACHE => 3
  | LOOKUP => 4
  | QUERY_PREFETCH_STATUS => 5
  | RETRIEVE => 6
  | STORE => 7
  | FREE_LOOKUP_LOCKS => 8
  | END_SESSION => 9
  | TRANSFER_ACK => 10
  end.

(** [ChunkKey], frozen: usable as a dict key. *)
Record ChunkKey := mkChunkKey {
  chunk_hash : bytes;
  key_model : string;
  key_rank : Z
}.

#[export] Instance ChunkKey_eq_dec : EqDecision ChunkKey.
Proof. solve_decision. Defined.

#[export] Program Instance ChunkKey_countable : Countable ChunkKey :=
  inj_countable' (fun k => (chunk_hash k, key_model k, key_rank k))
                 (fun '(h, m, r) => mkChunkKey h m r) _.
Next Obligation. by intros []. Qed.

Record LoadStoreOp := mkLoadStoreOp {
  op_token_ids : list Z;
  op_block_ids : list Z;
  op_start : Z;
  op_end : Z;
  op_skip_first_n_tokens : Z
}.

Record ReqMeta := mkReqMeta {
  rm_request_id : string;
  rm_req : Req;
  rm_op : LoadStoreOp
}.

Record RegisterPayload := mkRegisterPayload {
  rp_instance_id : Z;
  rp_model : string;
  rp_rank : Z;
  rp_world_size : Z;
  rp_block_size : Z;
  rp_chunk_nbytes : Z
}.

Record LookupPayload := mkLookupPayload {
  lp_request_id : string;
  lp_token_ids : list Z;
  lp_model : string;
  lp_world_size : Z
}.

Record TransferPayload := mkTransferPayload {
  tp_request_id : string;
  tp_instance_id : Z;
  tp_op : LoadStoreOp;
  tp_chunks : list bytes;
  tp_elapsed : float;
  tp_nbytes : Z
}.

Record AckPayload := mkAckPayload {
  ap_request_id : string;
  ap_kind : string;
  ap_nbytes : Z;
  ap_elapsed : float
}.

Record QueryPayload := mkQueryPayload {
  qp_request_id : string;
  qp_world_size : Z
}.

Record FreeLocksPayload := mkFreeLocksPayload {
  fp_request_id : string;
  fp_num_chunks : Z;
  fp_world_size : Z
}.

(** The wire value identifies the request type. *)
Lemma Req_value_inj : Inj (=) (=) Req_value.
Proof. intros [] []; simpl; intros H; solve [reflexivity | discriminate H]. Qed.
