(* ===== verification/Hasher.v ===== *)
(** Prefix-chained hashing of token chunks (utils/hasher.py).

    [blake3] is the digest function of the third-party package: a parameter.
    [hash_one] feeds it the previous hash followed by the tokens packed as
    big-endian 32-bit words. *)
From S2P Require Import Prelude.
From Stdlib Require Import Init.Byte.
Local Open Scope py_scope.

(** ** [struct.pack(">nI", *tokens)] *)

Definition byte_of_Z (z : Z) : Byte.byte :=
  default x00 (Byte.of_N (Z.to_N (Z.land z 255))).

Definition be32 (t : Z) : bytes :=
  [byte_of_Z (Z.shiftr t 24); byte_of_Z (Z.shiftr t 16);
   byte_of_Z (Z.shiftr t 8); byte_of_Z t].

Definition u32_ok (t : Z) : bool := ((0 <=? t) && (t <? 2 ^ 32))%Z.

Definition pack_u32s (tokens : list Z) : res bytes :=
  if forallb u32_ok tokens then Ok (concat (be32 <$> tokens)) else Raise StructError.

Section hasher.
Context (blake3 : bytes -> bytes).

Definition hash_one (prefix_hash : bytes) (tokens : list Z) : res bytes :=
  let? packed := pack_u32s tokens in
  Ok (blake3 (prefix_hash ++ packed)).

(** [(0).to_bytes(8, byteorder="big", signed=True)] followed by one packed
    zero token. *)
Definition none_input : bytes := replicate 8 x00 ++ be32 0.

Definition NONE_HASH : bytes := blake3 none_input.

(** The loop of [chunk_hashes], over the chunk start positions. *)
Fixpoint hash_loop (token_ids : list Z) (chunk_size : Z) (prefix_hash : bytes)
    (starts : list Z) : res (list bytes) :=
  match starts with
  | [] => Ok []
  | i :: starts' =>
      let? h := hash_one prefix_hash (py_slice i (i + chunk_size) token_ids) in
      let? hs := hash_loop token_ids chunk_size h starts' in
      Ok (h :: hs)
  end.

Definition chunk_hashes (token_ids : list Z) (chunk_size : Z) : res (list bytes) :=
  let? r := py_mod (Zlen token_ids) chunk_size in
  let? starts := py_range 0 (Zlen token_ids - r) chunk_size in
  hash_loop token_ids chunk_size NONE_HASH starts.

(** ** Reference: a chain of digests over the list of whole chunks *)

Definition whole_chunks (c : nat) (l : list Z) : list (list Z) :=
  (fun i => take c (drop (i * c) l)) <$> seq 0 (length l / c).

Definition packed (chunk : list Z) : bytes := concat (be32 <$> chunk).

Fixpoint hash_chain (h : bytes) (chunks : list (list Z)) : list bytes :=
  match chunks with
  | [] => []
  | c :: cs => let h' := blake3 (h ++ packed c) in h' :: hash_chain h' cs
  end.

(** The byte strings digested while hashing a chain. *)
Fixpoint chain_inputs (h : bytes) (chunks : list (list Z)) : list bytes :=
  match chunks with
  | [] => []
  | c :: cs => (h ++ packed c) :: chain_inputs (blake3 (h ++ packed c)) cs
  end.

Definition hash_inputs (token_ids : list Z) (chunk_size : Z) : list bytes :=
  none_input :: chain_inputs NONE_HASH (whole_chunks (Z.to_nat chunk_size) token_ids).
End hasher.

(** ** Packing *)

Lemma byte_of_Z_inj a b : byte_of_Z a = byte_of_Z b -> Z.land a 255 = Z.land b 255.
Proof.
  unfold byte_of_Z. intros H.
  assert (forall z, exists x, Byte.of_N (Z.to_N (Z.land z 255)) = Some x /\
            Byte.to_N x = Z.to_N (Z.land z 255)) as Hb.
  { intros z. change 255%Z with (Z.ones 8). rewrite (Z.land_ones z 8) by lia.
    pose proof (Z.mod_pos_bound z (2 ^ 8) ltac:(lia)) as Hz.
    destruct (Byte.of_N (Z.to_N (z mod 2 ^ 8))) as [x|] eqn:E.
    - exists x. split; [done|]. by apply Byte.to_of_N.
    - apply Byte.of_N_None_iff in E. change (2 ^ 8)%Z with 256%Z in *. lia. }
  destruct (Hb a) as (x & Hx & Hx'). destruct (Hb b) as (y & Hy & Hy').
  rewrite Hx, Hy in H. simpl in H. subst y. rewrite Hx' in Hy'.
  change 255%Z with (Z.ones 8) in *. rewrite !Z.land_ones in * by lia.
  pose proof (Z.mod_pos_bound a (2 ^ 8) ltac:(lia)).
  pose proof (Z.mod_pos_bound b (2 ^ 8) ltac:(lia)). lia.
Qed.

Lemma u32_ok_spec t : u32_ok t = true <-> (0 <= t < 2 ^ 32)%Z.
Proof. unfold u32_ok. rewrite andb_true_iff. lia. Qed.

Lemma u32_bytes t : (0 <= t < 2 ^ 32)%Z ->
  t = (Z.land (Z.shiftr t 24) 255 * 2 ^ 24 + Z.land (Z.shiftr t 16) 255 * 2 ^ 16
       + Z.land (Z.shiftr t 8) 255 * 2 ^ 8 + Z.land t 255)%Z.
Proof.
  intros Ht. change 255%Z with (Z.ones 8). rewrite !Z.land_ones, !Z.shiftr_div_pow2 by lia.
  change (2 ^ 8)%Z with 256%Z. change (2 ^ 16)%Z with 65536%Z.
  change (2 ^ 24)%Z with 16777216%Z. change (2 ^ 32)%Z with 4294967296%Z in Ht.
  Z.div_mod_to_equations. lia.
Qed.

Lemma be32_inj t u : u32_ok t = true -> u32_ok u = true -> be32 t = be32 u -> t = u.
Proof.
  rewrite !u32_ok_spec. unfold be32. intros Ht Hu H. injection H as H1 H2 H3 H4.
  rewrite (u32_bytes t), (u32_bytes u) by done.
  by rewrite (byte_of_Z_inj _ _ H1), (byte_of_Z_inj _ _ H2), (byte_of_Z_inj _ _ H3),
    (byte_of_Z_inj _ _ H4).
Qed.

Lemma packed_length l : length (packed l) = 4 * length l.
Proof. unfold packed. induction l as [|t l IH]; csimpl; [done|]. rewrite IH. lia. Qed.

Lemma packed_inj l1 l2 :
  Forall (fun t => u32_ok t = true) l1 -> Forall (fun t => u32_ok t = true) l2 ->
  packed l1 = packed l2 -> l1 = l2.
Proof.
  intros H1. revert l2. induction H1 as [|t l1 Ht _ IH]; intros l2 H2 Hp.
  - destruct l2; [done|discriminate Hp].
  - destruct H2 as [|u l2 Hu Hl2]; [discriminate Hp|].
    change (be32 t ++ packed l1 = be32 u ++ packed l2) in Hp.
    apply app_inj_1 in Hp as [Hb Hp]; [|done].
    f_equal; [by apply be32_inj | by apply IH].
Qed.

Lemma pack_u32s_ok l :
  Forall (fun t => u32_ok t = true) l -> pack_u32s l = Ok (packed l).
Proof. intros H. unfold pack_u32s. by rewrite (proj2 (forallb_Forall _ _) H). Qed.

(** ** The loop computes the reference chain *)

Lemma range_len_whole n c : (0 < c)%Z -> (0 <= n)%Z ->
  range_len 0 (n - n mod c) c = (n / c)%Z.
Proof.
  intros Hc Hn. unfold range_len. replace (0 <? c)%Z with true by lia.
  pose proof (Z.mod_pos_bound n c Hc). pose proof (Z.div_mod n c ltac:(lia)).
  assert (n - n mod c = c * (n / c))%Z as -> by lia.
  destruct (Z.ltb_spec 0 (c * (n / c))) as [Hlt|Hge].
  - symmetry. apply (Z.div_unique _ _ _ (c - 1)%Z); lia.
  - assert (0 <= n / c)%Z by (apply Z.div_pos; lia). nia.
Qed.

Lemma whole_chunk_slice (l : list Z) (c i : nat) :
  py_slice (Z.of_nat i * Z.of_nat c) (Z.of_nat i * Z.of_nat c + Z.of_nat c) l
  = take c (drop (i * c) l).
Proof.
  rewrite py_slice_nonneg by lia.
  replace (Z.to_nat (Z.of_nat i * Z.of_nat c + Z.of_nat c) -
           Z.to_nat (Z.of_nat i * Z.of_nat c)) with c by lia.
  by replace (Z.to_nat (Z.of_nat i * Z.of_nat c)) with (i * c) by lia.
Qed.

Lemma whole_chunks_length c l : length (whole_chunks c l) = length l / c.
Proof. unfold whole_chunks. by rewrite length_fmap, length_seq. Qed.

Lemma whole_chunks_lookup c l i ch :
  whole_chunks c l !! i = Some ch ->
  i < length l / c /\ ch = take c (drop (i * c) l).
Proof.
  unfold whole_chunks. rewrite list_lookup_fmap_Some.
  intros (j & -> & Hj%lookup_seq). naive_solver lia.
Qed.

Lemma whole_chunks_chunk_length c l ch :
  ch ∈ whole_chunks c l -> length ch = c.
Proof.
  intros [i Hi]%list_elem_of_lookup. apply whole_chunks_lookup in Hi as [Hi ->].
  rewrite length_take, length_drop.
  assert (0 < c). { destruct c; [|lia]. simpl in Hi. lia. }
  pose proof (Nat.div_mod_eq (length l) c). nia.
Qed.

Lemma take_whole_chunks c l n :
  n <= length l / c -> concat (take n (whole_chunks c l)) = take (n * c) l.
Proof.
  intros Hn. induction n as [|n IH]; [done|].
  assert (whole_chunks c l !! n = Some (take c (drop (n * c) l))) as Hl.
  { unfold whole_chunks. rewrite list_lookup_fmap, lookup_seq_lt by lia. done. }
  rewrite (take_S_r _ _ _ Hl), concat_app, IH by lia. simpl. rewrite app_nil_r.
  rewrite take_take_drop. f_equal. lia.
Qed.

Section chain_lemmas.
Context (blake3 : bytes -> bytes).

Lemma hash_loop_chain l c h (ix : list nat) :
  Forall (fun ch => Forall (fun t => u32_ok t = true) ch)
         ((fun i => take c (drop (i * c) l)) <$> ix) ->
  hash_loop blake3 l (Z.of_nat c) h ((fun i => (0 + Z.of_nat i * Z.of_nat c)%Z) <$> ix)
  = Ok (hash_chain blake3 h ((fun i => take c (drop (i * c) l)) <$> ix)).
Proof.
  revert h. induction ix as [|i ix IH]; intros h Hok; [done|].
  apply Forall_cons in Hok as [Hi Hok]. csimpl.
  unfold hash_one. rewrite Z.add_0_l, whole_chunk_slice, (pack_u32s_ok _ Hi). simpl.
  by rewrite IH.
Qed.

Lemma py_range_chunks n c : 0 < c ->
  py_range 0 (Z.of_nat n - Z.of_nat n mod Z.of_nat c) (Z.of_nat c)
  = Ok ((fun i => (0 + Z.of_nat i * Z.of_nat c)%Z) <$> seq 0 (n / c)).
Proof.
  intros Hc. unfold py_range. replace (Z.of_nat c =? 0)%Z with false by lia.
  rewrite range_len_whole by lia. f_equal. rewrite <- Nat2Z.inj_div.
  unfold seqZ. rewrite Nat2Z.id, <- list_fmap_compose.
  apply list_fmap_ext. intros i x _. simpl. lia.
Qed.

Lemma chunk_hashes_chain l c :
  0 < c -> Forall (Forall (fun t => u32_ok t = true)) (whole_chunks c l) ->
  chunk_hashes blake3 l (Z.of_nat c)
  = Ok (hash_chain blake3 (NONE_HASH blake3) (whole_chunks c l)).
Proof.
  intros Hc Hok. unfold chunk_hashes, py_mod, Zlen.
  replace (Z.of_nat c =? 0)%Z with false by lia. simpl.
  rewrite py_range_chunks by done. simpl. by apply hash_loop_chain.
Qed.

Lemma hash_chain_length h cs : length (hash_chain blake3 h cs) = length cs.
Proof. revert h. induction cs; intros h; simpl; [done|]. by f_equal. Qed.

Lemma hash_chain_take h cs n :
  hash_chain blake3 h (take n cs) = take n (hash_chain blake3 h cs).
Proof.
  revert h n. induction cs as [|c cs IH]; intros h [|n]; simpl; [done..|]. by f_equal.
Qed.
End chain_lemmas.

Lemma hash_loop_bad blake3 l c h (ix : list nat) :
  ~ Forall (fun ch => Forall (fun t => u32_ok t = true) ch)
           ((fun i => take c (drop (i * c) l)) <$> ix) ->
  hash_loop blake3 l (Z.of_nat c) h ((fun i => (0 + Z.of_nat i * Z.of_nat c)%Z) <$> ix)
  = Raise StructError.
Proof.
  revert h. induction ix as [|i ix IH]; intros h Hbad; [by destruct Hbad|].
  rewrite fmap_cons, Forall_cons in Hbad. csimpl.
  unfold hash_one, pack_u32s. rewrite Z.add_0_l, whole_chunk_slice.
  destruct (forallb u32_ok _) eqn:E; [|done]. simpl.
  apply forallb_Forall in E. rewrite IH; [done|]. naive_solver.
Qed.

Lemma chunks_ok_dec (chs : list (list Z)) :
  Forall (Forall (fun t => u32_ok t = true)) chs <-> forallb (forallb u32_ok) chs = true.
Proof.
  rewrite forallb_Forall. apply Forall_iff. intros ch. by rewrite forallb_Forall.
Qed.

Lemma all_tokens_chunks_ok c l :
  Forall (fun t => u32_ok t = true) l ->
  Forall (Forall (fun t => u32_ok t = true)) (whole_chunks c l).
Proof.
  intros H. apply Forall_forall. intros ch [i Hi]%list_elem_of_lookup.
  apply whole_chunks_lookup in Hi as [_ ->]. by apply Forall_take, Forall_drop.
Qed.

(** Every branch of [chunk_hashes]: a zero chunk size divides by zero, a
    negative one yields no chunk, a token of a whole chunk outside 32 bits
    fails to pack, and otherwise the digests are the chained digests of the
    whole chunks; tokens of the partial tail are never looked at. *)
Lemma chunk_hashes_all blake3 l c :
  chunk_hashes blake3 l c =
    if (c =? 0)%Z then Raise ZeroDivisionError
    else if (c <? 0)%Z then Ok []
    else if forallb (forallb u32_ok) (whole_chunks (Z.to_nat c) l)
         then Ok (hash_chain blake3 (NONE_HASH blake3) (whole_chunks (Z.to_nat c) l))
         else Raise StructError.
Proof.
  destruct (Z.eqb_spec c 0) as [->|Hne]; [done|].
  destruct (Z.ltb_spec c 0) as [Hneg|Hpos].
  - unfold chunk_hashes, py_mod, py_range. replace (c =? 0)%Z with false by lia.
    csimpl. unfold range_len. replace (0 <? c)%Z with false by lia.
    pose proof (Z.mod_neg_bound (Zlen l) c Hneg). pose proof (Zlen_nonneg l).
    replace (Zlen l - Zlen l mod c <? 0)%Z with false by lia. done.
  - assert (0 < Z.to_nat c)%nat as Hc by lia.
    replace c with (Z.of_nat (Z.to_nat c)) at 1 by lia. revert Hc.
    generalize (Z.to_nat c) as n. clear Hne Hpos c. intros n Hc.
    destruct (forallb _ _) eqn:E.
    + apply chunks_ok_dec in E. by apply chunk_hashes_chain.
    + unfold chunk_hashes, py_mod, Zlen.
      replace (Z.of_nat n =? 0)%Z with false by lia. simpl.
      rewrite py_range_chunks by lia. simpl. apply hash_loop_bad.
      intros Hok. apply (chunks_ok_dec (whole_chunks n l)) in Hok. congruence.
Qed.

(** ** Digest collisions *)

Section collisions.
Context (blake3 : bytes -> bytes).
Context (blake3_len : forall x, length (blake3 x) = 32).

(** The running hash after [n] chunks. *)
Fixpoint run_hash (h : bytes) (cs : list (list Z)) : bytes :=
  match cs with
  | [] => h
  | c :: cs => run_hash (blake3 (h ++ packed c)) cs
  end.

Lemma run_hash_app h cs1 cs2 : run_hash h (cs1 ++ cs2) = run_hash (run_hash h cs1) cs2.
Proof. revert h. induction cs1 as [|c cs IH]; intros h; [done|apply IH]. Qed.

Lemma hash_chain_lookup h cs i x :
  hash_chain blake3 h cs !! i = Some x <->
  i < length cs /\ x = run_hash h (take (S i) cs).
Proof.
  revert h i. induction cs as [|c cs IH]; intros h i; simpl.
  { split; [done|lia]. }
  destruct i as [|i]; simpl.
  - split; [intros [= <-]; split; [lia|by destruct cs]|].
    intros [_ ->]. by destruct cs.
  - rewrite IH. simpl. split; intros [? ->]; (split; [lia|done]).
Qed.

Lemma run_hash_len h cs : length h = 32 -> length (run_hash h cs) = 32.
Proof. revert h. induction cs; intros h Hh; simpl; [done|]. auto. Qed.

Lemma chain_inputs_app h cs1 cs2 :
  chain_inputs blake3 h (cs1 ++ cs2) =
  chain_inputs blake3 h cs1 ++ chain_inputs blake3 (run_hash h cs1) cs2.
Proof. revert h. induction cs1 as [|c cs IH]; intros h; [done|]. simpl. by rewrite IH. Qed.

Lemma chain_inputs_take h cs n :
  chain_inputs blake3 h (take n cs) ⊆ chain_inputs blake3 h cs.
Proof.
  rewrite <- (take_drop n cs) at 2. rewrite chain_inputs_app. set_solver.
Qed.

Definition collision (xs ys : list bytes) : Prop :=
  exists x y, x ∈ xs /\ y ∈ ys /\ x <> y /\ blake3 x = blake3 y.

Lemma collision_mono xs xs' ys ys' :
  xs ⊆ xs' -> ys ⊆ ys' -> collision xs ys -> collision xs' ys'.
Proof. intros Hx Hy (x & y & ? & ? & ? & ?). exists x, y. naive_solver. Qed.

Definition inputs (cs : list (list Z)) : list bytes :=
  none_input :: chain_inputs blake3 (NONE_HASH blake3) cs.

(** Two chains that end in the same hash are equal or exhibit a collision. *)
Lemma run_hash_inj (n : nat) (cs1 cs2 : list (list Z)) :
  0 < n ->
  Forall (fun c => length c = n /\ Forall (fun t => u32_ok t = true) c) cs1 ->
  Forall (fun c => length c = n /\ Forall (fun t => u32_ok t = true) c) cs2 ->
  run_hash (NONE_HASH blake3) cs1 = run_hash (NONE_HASH blake3) cs2 ->
  cs1 = cs2 \/ collision (inputs cs1) (inputs cs2).
Proof.
  intros Hn. revert cs2. induction cs1 as [|c1 cs1 IH] using rev_ind; intros cs2 H1 H2 Heq.
  - destruct cs2 as [|c2 cs2 _] using rev_ind; [by left|right].
    rewrite run_hash_app in Heq. simpl in Heq.
    apply Forall_app in H2 as [_ [[Hl _] _]%Forall_cons].
    exists none_input, (run_hash (NONE_HASH blake3) cs2 ++ packed c2).
    unfold inputs. rewrite chain_inputs_app. simpl. split_and!; [set_solver..| |done].
    intros Hbad%(f_equal length). rewrite length_app, packed_length, run_hash_len in Hbad;
      [|apply blake3_len]. simpl in Hbad. lia.
  - rewrite run_hash_app in Heq. simpl in Heq.
    apply Forall_app in H1 as [H1 [[Hl1 Hok1] _]%Forall_cons].
    destruct cs2 as [|c2 cs2 _] using rev_ind.
    + right. exists (run_hash (NONE_HASH blake3) cs1 ++ packed c1), none_input.
      unfold inputs. rewrite chain_inputs_app. simpl. split_and!; [set_solver..| |done].
      intros Hbad%(f_equal length). rewrite length_app, packed_length, run_hash_len in Hbad;
        [|apply blake3_len]. simpl in Hbad. lia.
    + rewrite run_hash_app in Heq. simpl in Heq.
      apply Forall_app in H2 as [H2 [[Hl2 Hok2] _]%Forall_cons].
      destruct (decide (run_hash (NONE_HASH blake3) cs1 ++ packed c1 =
                        run_hash (NONE_HASH blake3) cs2 ++ packed c2)) as [E|E].
      * apply app_inj_2 in E as [Eh Ep]; [|rewrite !packed_length; lia].
        apply packed_inj in Ep as ->; [|done..].
        destruct (IH cs2 H1 H2 Eh) as [->|Hc]; [by left|right].
        revert Hc. unfold inputs. rewrite !chain_inputs_app. apply collision_mono; set_solver.
      * right. eexists _, _. unfold inputs. rewrite !chain_inputs_app. simpl.
        split_and!; [..|exact E|exact Heq]; set_solver.
Qed.
End collisions.

Lemma whole_chunks_lookup_full c l i :
  0 < c ->
  whole_chunks c l !! i =
    if decide (S i * c <= length l) then Some (take c (drop (i * c) l)) else None.
Proof.
  intros Hc. unfold whole_chunks. rewrite list_lookup_fmap.
  pose proof (Nat.div_mod_eq (length l) c).
  pose proof (Nat.mod_upper_bound (length l) c ltac:(lia)).
  case_decide as Hi.
  - rewrite lookup_seq_lt; [done|]. apply Nat.div_le_lower_bound; [lia|]. lia.
  - rewrite lookup_seq_ge; [done|].
    apply Nat.lt_succ_r, Nat.Div0.div_lt_upper_bound. nia.
Qed.

Lemma whole_chunks_prefix c k (a b : list Z) :
  take (k * c) a = take (k * c) b ->
  take k (whole_chunks c a) = take k (whole_chunks c b).
Proof.
  intros Hab. destruct (decide (c = 0)) as [->|Hc]; [done|].
  apply list_eq. intros i. destruct (decide (i < k)) as [Hi|Hi].
  2: { by rewrite !lookup_take_ge by lia. }
  rewrite !lookup_take_lt, !whole_chunks_lookup_full by lia.
  assert (S i * c <= k * c) as Hle by nia.
  assert (length (take (k * c) a) = length (take (k * c) b)) as Hlen by by rewrite Hab.
  rewrite !length_take in Hlen.
  assert (forall l : list Z, take c (drop (i * c) l) = drop (i * c) (take (S i * c) (take (k * c) l)))
    as Hl.
  { intros l. rewrite take_take, Nat.min_l by done. rewrite take_drop_commute. do 2 f_equal. lia. }
  rewrite !Hl, Hab. repeat case_decide; [done|lia|lia|done].
Qed.

(** ** Properties *)

(** Every branch of [chunk_hashes]: a zero chunk size divides by zero, a
    negative one yields no hash, a token of a whole chunk that does not fit 32
    bits fails to pack, and otherwise there is exactly one hash per whole
    chunk, each the digest of the previous hash followed by the packed chunk;
    the partial tail is ignored. *)
Theorem chunk_hashes_branches blake3 l c :
  chunk_hashes blake3 l c =
    (if (c =? 0)%Z then Raise ZeroDivisionError
     else if (c <? 0)%Z then Ok []
     else if forallb (forallb u32_ok) (whole_chunks (Z.to_nat c) l)
          then Ok (hash_chain blake3 (NONE_HASH blake3) (whole_chunks (Z.to_nat c) l))
          else Raise StructError) /\
  forall hs, chunk_hashes blake3 l c = Ok hs -> (0 < c)%Z -> Zlen hs = (Zlen l / c)%Z.
Proof.
  split; [apply chunk_hashes_all|]. rewrite chunk_hashes_all.
  intros hs Hhs Hc. replace (c =? 0)%Z with false in Hhs by lia.
  replace (c <? 0)%Z with false in Hhs by lia. split_cases.
  unfold Zlen. rewrite hash_chain_length, whole_chunks_length, Nat2Z.inj_div. f_equal. lia.
Qed.

Lemma chunk_hashes_Ok blake3 l c hs :
  (0 < c)%Z -> chunk_hashes blake3 l c = Ok hs ->
  hs = hash_chain blake3 (NONE_HASH blake3) (whole_chunks (Z.to_nat c) l) /\
  Forall (Forall (fun t => u32_ok t = true)) (whole_chunks (Z.to_nat c) l).
Proof.
  intros Hc. rewrite chunk_hashes_all. replace (c =? 0)%Z with false by lia.
  replace (c <? 0)%Z with false by lia. rewrite chunks_ok_dec.
  destruct (forallb _ _); naive_solver.
Qed.

Lemma chunk_hashes_length blake3 l c hs :
  (0 < c)%Z -> chunk_hashes blake3 l c = Ok hs -> length hs = length l / Z.to_nat c.
Proof.
  intros Hc [-> _]%chunk_hashes_Ok; [|done]. by rewrite hash_chain_length, whole_chunks_length.
Qed.

(** The first chunks of a prompt have the first hashes. *)
Lemma chunk_hashes_take blake3 l c hs k :
  (0 < c)%Z -> chunk_hashes blake3 l c = Ok hs -> k <= length hs ->
  chunk_hashes blake3 (take (k * Z.to_nat c) l) c = Ok (take k hs).
Proof.
  intros Hc Hhs Hk. pose proof (chunk_hashes_length blake3 l c hs Hc Hhs) as Hlen.
  apply chunk_hashes_Ok in Hhs as [-> Hok]; [|done].
  assert (whole_chunks (Z.to_nat c) (take (k * Z.to_nat c) l) = take k (whole_chunks (Z.to_nat c) l)) as Hw.
  { rewrite <- (whole_chunks_prefix _ k (take (k * Z.to_nat c) l)) by (by rewrite take_take, Nat.min_id).
    symmetry. apply take_ge. rewrite whole_chunks_length, length_take.
    rewrite Hlen in Hk. pose proof (Nat.div_mod_eq (length l) (Z.to_nat c)). 
    apply Nat.div_le_upper_bound; [lia|]. lia. }
  rewrite chunk_hashes_all, Hw. replace (c =? 0)%Z with false by lia. replace (c <? 0)%Z with false by lia.
  rewrite (proj1 (chunks_ok_dec _)) by by apply Forall_take. by rewrite hash_chain_take.
Qed.

(** Two prompts that agree on their first [k] chunks have the same first
    [k] hashes, whatever follows: a shared prefix is found in the cache. *)
Lemma chunk_hashes_share_prefix blake3 a b c k ha hb :
  (0 < c)%Z -> take (k * Z.to_nat c) a = take (k * Z.to_nat c) b ->
  chunk_hashes blake3 a c = Ok ha -> chunk_hashes blake3 b c = Ok hb ->
  take k ha = take k hb.
Proof.
  intros Hc Hab [-> _]%chunk_hashes_Ok [-> _]%chunk_hashes_Ok; [|done..].
  by rewrite <- !hash_chain_take, (whole_chunks_prefix _ _ _ _ Hab).
Qed.

(** The hashes of a prefix are a prefix of the hashes. *)
Lemma chunk_hashes_prefix blake3 l m c hs hh :
  (0 < c)%Z -> chunk_hashes blake3 l c = Ok hs -> chunk_hashes blake3 (take m l) c = Ok hh -> hh = take (length hh) hs.
Proof.
  intros Hc Hs Hh. pose proof (chunk_hashes_length blake3 _ c hh Hc Hh) as Hl. rewrite length_take in Hl.
  rewrite <- (take_ge hh (length hh)) at 1 by done.
  apply (chunk_hashes_share_prefix blake3 (take m l) l c); [done| |done|done].
  rewrite take_take, Nat.min_l; [done|]. rewrite Hl.
  pose proof (Nat.mul_div_le (Nat.min m (length l)) (Z.to_nat c) ltac:(lia)). lia.
Qed.

(** A digest function for the witnesses: pads or cuts its input to 32 bytes. *)
Definition toy_digest (b : bytes) : bytes := resize 32 x00 (reverse b).

Lemma toy_digest_len b : length (toy_digest b) = 32.
Proof. apply length_resize. Qed.

(** C23: a hash identifies the whole token prefix up to its chunk: if hash [i]
    of one prompt equals hash [j] of another then the token prefixes are equal,
    or two distinct byte strings that the computation digested collide. *)
Theorem chunk_hashes_identify_prefix blake3
    (blake3_len : forall x, length (blake3 x) = 32) a b c i j ha hb h :
  (0 < c)%Z ->
  chunk_hashes blake3 a c = Ok ha -> chunk_hashes blake3 b c = Ok hb ->
  ha !! i = Some h -> hb !! j = Some h ->
  (i = j /\ take (S i * Z.to_nat c) a = take (S j * Z.to_nat c) b) \/
  collision blake3 (hash_inputs blake3 a c) (hash_inputs blake3 b c).
Proof.
  intros Hc [-> Hoka]%chunk_hashes_Ok [-> Hokb]%chunk_hashes_Ok; [|done..].
  rewrite !hash_chain_lookup. intros [Hi Hh] [Hj Hh'].
  assert (forall l n, Forall (Forall (fun t => u32_ok t = true)) (whole_chunks (Z.to_nat c) l) ->
    Forall (fun ch => length ch = Z.to_nat c /\ Forall (fun t => u32_ok t = true) ch)
           (take n (whole_chunks (Z.to_nat c) l))) as Hwf.
  { intros l n Hok. apply Forall_take, Forall_forall. intros ch Hch.
    split; [by eapply whole_chunks_chunk_length|].
    rewrite Forall_forall in Hok. by apply Hok. }
  destruct (run_hash_inj blake3 blake3_len (Z.to_nat c) _ _ ltac:(lia)
              (Hwf a (S i) Hoka) (Hwf b (S j) Hokb) ltac:(congruence)) as [E|Hcol].
  - left. assert (i = j) as <-.
    { apply (f_equal length) in E. rewrite !length_take in E. lia. }
    split; [done|]. apply (f_equal (@concat Z)) in E.
    rewrite whole_chunks_length in Hi, Hj. by rewrite !take_whole_chunks in E by lia.
  - right. revert Hcol. unfold inputs, hash_inputs.
    apply collision_mono; intros x [->|Hx]%elem_of_cons; apply elem_of_cons;
      [by left| |by left|]; right; by eapply chain_inputs_take.
Qed.

Lemma chunk_hashes_identify_prefix_witness :
  exists ha, chunk_hashes toy_digest [1; 2; 3; 4]%Z 2 = Ok ha /\
  exists h, ha !! 1 = Some h /\
  ((1 = 1 /\ take (2 * 2) [1; 2; 3; 4]%Z = take (2 * 2) [1; 2; 3; 4]%Z) \/
   collision toy_digest (hash_inputs toy_digest [1; 2; 3; 4]%Z 2)
                        (hash_inputs toy_digest [1; 2; 3; 4]%Z 2)).
Proof.
  eexists. split; [vm_compute; reflexivity|]. eexists. split; [reflexivity|].
  eapply (chunk_hashes_identify_prefix toy_digest toy_digest_len
            [1; 2; 3; 4]%Z [1; 2; 3; 4]%Z 2 1 1);
    [lia|vm_compute; reflexivity|vm_compute; reflexivity|reflexivity|reflexivity].
Defined.
