(* ===== verification/Memory.v ===== *)
(** L1 memory (l1/memory.py): one host buffer, a bump pointer and a free list
    per chunk size.

    The pool is the list of its bytes; a [MemoryObj] keeps the view
    [pool[o : o + nbytes]] (its start and length after clamping) and the
    offset.  The state of [PoolAllocator] is the record of its attributes. *)
From S2P Require Import Prelude.
Local Open Scope py_scope.
Local Open Scope Z_scope.

(** A torch view into the pool. *)
Record view := mkView { v_start : nat; v_len : nat }.

Record MemoryObj := mkMemoryObj { mo_tensor : view; mo_offset : Z }.

#[export] Instance view_eq_dec : EqDecision view.
Proof. solve_decision. Defined.
#[export] Instance MemoryObj_eq_dec : EqDecision MemoryObj.
Proof. solve_decision. Defined.

Definition obj_nbytes (o : MemoryObj) : Z := Z.of_nat (v_len (mo_tensor o)).

(** Reading and assigning through [byte_array], the byte view of the slice;
    assigning data of another length raises [ValueError]. *)
Definition view_read (v : view) (pool : bytes) : bytes :=
  take (v_len v) (drop (v_start v) pool).
Definition view_write (v : view) (data : bytes) (pool : bytes) : bytes :=
  take (v_start v) pool ++ data ++ drop (v_start v + length data) pool.

Definition byte_array (o : MemoryObj) (pool : bytes) : bytes := view_read (mo_tensor o) pool.
Definition byte_array_assign (o : MemoryObj) (data : bytes) : M bytes unit :=
  fun pool => if decide (length data = v_len (mo_tensor o))
              then (view_write (mo_tensor o) data pool, Ok tt)
              else (pool, Raise ValueError).

Record PoolAllocator := mkPoolAllocator {
  pool : bytes;
  brk : Z;
  free_segments : gmap Z (list Z);
  used_bytes : Z
}.

Definition capacity (a : PoolAllocator) : Z := Zlen (pool a).

(** [PoolAllocator.__init__]; [torch.empty] leaves the bytes arbitrary. *)
Definition new_pool (contents : bytes) : PoolAllocator :=
  mkPoolAllocator contents 0 ∅ 0.

(** The two [while] loops of [allocate]; [need] counts the offsets still to be
    collected, [count - len(offsets)]. *)
Fixpoint pop_free (need : nat) (offsets free : list Z) : list Z * list Z :=
  match need with
  | O => (offsets, free)
  | S need' =>
      match py_pop free with
      | None => (offsets, free)
      | Some (free', o) => pop_free need' (offsets ++ [o]) free'
      end
  end.

Fixpoint bump (need : nat) (offsets : list Z) (brk nbytes cap : Z) : list Z * Z :=
  match need with
  | O => (offsets, brk)
  | S need' =>
      if brk + nbytes <=? cap
      then bump need' (offsets ++ [brk]) (brk + nbytes) nbytes cap
      else (offsets, brk)
  end.

(** [MemoryObj(self.pool[o : o + nbytes], o)] *)
Definition pool_slice (cap nbytes o : Z) : MemoryObj :=
  let i := slice_idx cap o in
  mkMemoryObj (mkView i (slice_idx cap (o + nbytes) - i)) o.

Definition allocate (count nbytes : Z) : M PoolAllocator (option (list MemoryObj)) :=
  fun a =>
    let free := default [] (free_segments a !! nbytes) in
    let '(offsets1, free') := pop_free (Z.to_nat count) [] free in
    let '(offsets, brk') :=
      bump (Z.to_nat count - length offsets1) offsets1 (brk a) nbytes (capacity a) in
    if Zlen offsets <? count
    then (mkPoolAllocator (pool a) brk' (<[nbytes := free' ++ offsets]> (free_segments a))
                          (used_bytes a), Ok None)
    else (mkPoolAllocator (pool a) brk' (<[nbytes := free']> (free_segments a))
                          (used_bytes a + count * nbytes),
          Ok (Some (pool_slice (capacity a) nbytes <$> offsets))).

(** [free]: the usage is decremented before the free list is looked up. *)
Definition free_one (o : MemoryObj) : M PoolAllocator unit :=
  fun a =>
    let used' := used_bytes a - obj_nbytes o in
    match free_segments a !! obj_nbytes o with
    | None => (mkPoolAllocator (pool a) (brk a) (free_segments a) used', Raise KeyError)
    | Some os =>
        (mkPoolAllocator (pool a) (brk a)
           (<[obj_nbytes o := os ++ [mo_offset o]]> (free_segments a)) used', Ok tt)
    end.

Definition free (objs : list MemoryObj) : M PoolAllocator unit := for_each objs free_one.

(** [usage] *)
Definition alloc_usage (a : PoolAllocator) : Z * Z := (used_bytes a, capacity a).

Definition set_pool (p : bytes) (a : PoolAllocator) : PoolAllocator :=
  mkPoolAllocator p (brk a) (free_segments a) (used_bytes a).

(** ** The allocator invariant

    The segments below the bump pointer, live or free, tile [0, brk). *)

Definition segment : Type := Z * Z.

Fixpoint tiles (start : Z) (l : list segment) (stop : Z) : Prop :=
  match l with
  | [] => start = stop
  | (o, n) :: l' => o = start /\ 0 <= n /\ tiles (o + n) l' stop
  end.

Definition obj_segment (o : MemoryObj) : segment := (mo_offset o, obj_nbytes o).

Definition size_segs (n : Z) (os : list Z) : list segment := (fun o => (o, n)) <$> os.

Definition segs_of (fs : gmap Z (list Z)) : list segment :=
  concat (List.map (fun p => size_segs p.1 p.2) (map_to_list fs)).

Definition sum_nbytes (objs : list MemoryObj) : Z := foldr (fun o s => obj_nbytes o + s) 0 objs.

Definition view_ok (o : MemoryObj) : Prop :=
  0 <= mo_offset o /\ v_start (mo_tensor o) = Z.to_nat (mo_offset o).

Record alloc_inv (a : PoolAllocator) (live : list MemoryObj) : Prop := {
  inv_tiles : exists l, tiles 0 l (brk a) /\
                l ≡ₚ (obj_segment <$> live) ++ segs_of (free_segments a);
  inv_brk : brk a <= capacity a;
  inv_used : used_bytes a = sum_nbytes live;
  inv_views : Forall view_ok live;
  inv_sizes : Forall (fun o => is_Some (free_segments a !! obj_nbytes o)) live
}.

Definition seg_disjoint (s t : segment) : Prop := s.1 + s.2 <= t.1 \/ t.1 + t.2 <= s.1.

(** ** Lemmas on the loops *)

Lemma pop_free_spec need offsets free offsets' free' :
  pop_free need offsets free = (offsets', free') ->
  exists popped, offsets' = offsets ++ popped /\ free = free' ++ reverse popped /\
    length popped = (need `min` length free)%nat.
Proof.
  revert offsets free. induction need as [|need IH]; simpl; intros offsets free H.
  { simplify_eq. exists []. by rewrite !app_nil_r. }
  destruct (py_pop free) as [[fr o]|] eqn:E.
  - apply py_pop_Some in E as ->. apply IH in H as (p & -> & -> & Hlen).
    exists (o :: p). rewrite reverse_cons, <- !app_assoc. split_and!; [done..|].
    rewrite !length_app in Hlen |- *. cbn [length].
    replace (length (reverse p ++ [o])) with (S (length (reverse p)))
      by (rewrite length_app; simpl; lia).
    rewrite Nat.add_succ_r. lia.
  - apply py_pop_None in E as ->. simplify_eq. exists [].
    rewrite app_nil_r. split_and!; [done..|]. simpl. lia.
Qed.

Definition bumped (brk nbytes : Z) (k : nat) : list Z :=
  (fun i => brk + Z.of_nat i * nbytes) <$> seq 0 k.

Lemma bumped_S brk nbytes k : bumped brk nbytes (S k) = brk :: bumped (brk + nbytes) nbytes k.
Proof.
  unfold bumped. simpl. f_equal; [lia|]. rewrite <- fmap_S_seq, <- list_fmap_compose.
  apply list_fmap_ext. intros i x _. simpl. lia.
Qed.

Lemma bump_spec need offsets b nbytes cap offsets' b' :
  bump need offsets b nbytes cap = (offsets', b') ->
  exists k, (k <= need)%nat /\ offsets' = offsets ++ bumped b nbytes k /\
    b' = b + Z.of_nat k * nbytes /\ (k = need \/ cap < b' + nbytes) /\ (b <= cap -> b' <= cap).
Proof.
  revert offsets b. induction need as [|need IH]; simpl; intros offsets b H.
  { simplify_eq. exists 0%nat. rewrite app_nil_r. split_and!; (lia || by eauto). }
  destruct (Z.leb_spec (b + nbytes) cap) as [Hle|Hgt].
  - apply IH in H as (k & Hk & -> & -> & Hor & Hcap). exists (S k).
    rewrite bumped_S, <- app_assoc. split_and!; [lia|done|lia| |lia].
    destruct Hor; [left|right]; lia.
  - simplify_eq. exists 0%nat. rewrite app_nil_r. split_and!; (lia || by eauto).
Qed.

(** ** Lemmas on tilings *)

Lemma tiles_app s l1 l2 e : tiles s (l1 ++ l2) e <-> exists m, tiles s l1 m /\ tiles m l2 e.
Proof.
  revert s. induction l1 as [|[o n] l1 IH]; intros s; simpl.
  - split; [by exists s|]. by intros (m & -> & ?).
  - rewrite IH. naive_solver.
Qed.

Lemma tiles_bumped b n k :
  0 <= n -> tiles b (size_segs n (bumped b n k)) (b + Z.of_nat k * n).
Proof.
  intros Hn. revert b. induction k as [|k IH]; intros b; [simpl; lia|].
  rewrite bumped_S. simpl. split_and!; [done|done|].
  replace (b + Z.of_nat (S k) * n) with (b + n + Z.of_nat k * n) by lia. apply IH.
Qed.

Lemma tiles_bounds s l e : tiles s l e ->
  s <= e /\ Forall (fun g => s <= g.1 /\ 0 <= g.2 /\ g.1 + g.2 <= e) l.
Proof.
  revert s. induction l as [|[o n] l IH]; intros s; simpl; [intros ->; split; [lia|constructor]|].
  intros (-> & Hn & Ht). destruct (IH _ Ht) as [Hle Hall]. split; [lia|].
  constructor; simpl; [lia|]. eapply Forall_impl; [exact Hall|]. simpl. lia.
Qed.

(** Two segments at different positions of a permuted tiling are disjoint. *)
Lemma tiles_disjoint s l e l1 g l2 h l3 :
  tiles s l e -> l ≡ₚ l1 ++ g :: l2 ++ h :: l3 -> seg_disjoint g h.
Proof.
  intros Ht Hp.
  assert (l ≡ₚ g :: h :: (l1 ++ l2 ++ l3)) as Hp2.
  { rewrite Hp. solve_Permutation. }
  clear Hp. revert s Ht Hp2. generalize (l1 ++ l2 ++ l3) as r. intros r s Ht Hp.
  symmetry in Hp. destruct (Permutation_cons_inv_l _ _ _ Hp) as (la & lb & -> & Hp').
  symmetry in Hp'. assert (h ∈ la ++ lb) as Hh by (rewrite Hp'; set_solver).
  apply tiles_app in Ht as (m & Ha & Hg). destruct g as [o n]. simpl in Hg.
  destruct Hg as (-> & Hn & Hb).
  apply tiles_bounds in Ha as [_ Ha]. apply tiles_bounds in Hb as [_ Hb].
  rewrite Forall_forall in Ha, Hb. unfold seg_disjoint. simpl.
  apply elem_of_app in Hh as [Hh|Hh]; [apply Ha in Hh|apply Hb in Hh]; lia.
Qed.

Lemma segs_of_insert fs n os :
  segs_of (<[n := os]> fs) ≡ₚ size_segs n os ++ segs_of (delete n fs).
Proof.
  unfold segs_of. rewrite <- insert_delete_eq.
  rewrite (map_to_list_insert (delete n fs)) by apply lookup_delete_eq. done.
Qed.

Lemma segs_of_lookup fs n :
  segs_of fs ≡ₚ size_segs n (default [] (fs !! n)) ++ segs_of (delete n fs).
Proof.
  destruct (fs !! n) as [os|] eqn:E; simpl.
  - rewrite <- segs_of_insert. by rewrite insert_id.
  - by rewrite delete_id.
Qed.

Lemma size_segs_app n os1 os2 : size_segs n (os1 ++ os2) = size_segs n os1 ++ size_segs n os2.
Proof. apply fmap_app. Qed.

Lemma sum_nbytes_app l1 l2 : sum_nbytes (l1 ++ l2) = sum_nbytes l1 + sum_nbytes l2.
Proof. unfold sum_nbytes. induction l1; simpl; lia. Qed.

Lemma sum_nbytes_const n l :
  Forall (fun o => obj_nbytes o = n) l -> sum_nbytes l = Z.of_nat (length l) * n.
Proof. unfold sum_nbytes. induction 1 as [|o l Ho _ IH]; simpl; lia. Qed.

#[export] Instance sum_nbytes_perm : Proper ((≡ₚ) ==> eq) sum_nbytes.
Proof. intros l1 l2 Hp. unfold sum_nbytes. induction Hp; simpl; lia. Qed.

(** The invariant does not depend on the order of the live objects. *)
#[export] Instance alloc_inv_perm a : Proper ((≡ₚ) ==> iff) (alloc_inv a).
Proof.
  enough (forall l1 l2, l1 ≡ₚ l2 -> alloc_inv a l1 -> alloc_inv a l2) as H.
  { intros l1 l2 Hp. split; apply H; [done|by symmetry]. }
  intros l1 l2 Hp [(l & Ht & Hl) Hb Hu Hv Hs]. split; [|done|by rewrite <- Hp..].
  exists l. split; [done|]. by rewrite <- Hp.
Qed.

Lemma pool_slice_ok cap n o :
  0 <= o -> 0 <= n -> o + n <= cap ->
  view_ok (pool_slice cap n o) /\ obj_segment (pool_slice cap n o) = (o, n).
Proof.
  intros Ho Hn Hc. unfold pool_slice, view_ok, obj_segment, obj_nbytes, slice_idx. simpl.
  replace (o <? 0) with false by lia. replace (o + n <? 0) with false by lia.
  rewrite !Z.min_l by lia. split; [lia|]. f_equal. lia.
Qed.

Lemma alloc_inv_new contents : alloc_inv (new_pool contents) [].
Proof. split; simpl; try done; [by exists []|apply Zlen_nonneg]. Qed.

Lemma alloc_inv_bounds a live o :
  alloc_inv a live -> o ∈ live ->
  0 <= mo_offset o /\ mo_offset o + obj_nbytes o <= capacity a.
Proof.
  intros [(l & Ht & Hl) Hb _ _ _] Ho. apply tiles_bounds in Ht as [_ Ht].
  rewrite Hl, Forall_app, Forall_fmap in Ht. destruct Ht as [Ht _].
  rewrite Forall_forall in Ht. apply Ht in Ho. simpl in Ho. lia.
Qed.

(** ** [allocate] and [free] preserve the invariant *)

Lemma slices_of_segments cap n (offsets : list Z) :
  0 <= n -> Forall (fun o => 0 <= o /\ o + n <= cap) offsets ->
  obj_segment <$> (pool_slice cap n <$> offsets) = size_segs n offsets /\
  Forall view_ok (pool_slice cap n <$> offsets) /\
  Forall (fun o => obj_nbytes o = n) (pool_slice cap n <$> offsets).
Proof.
  intros Hn. induction 1 as [|o os [Ho1 Ho2] _ (IH1 & IH2 & IH3)]; [done|].
  destruct (pool_slice_ok cap n o) as [Hv Hs]; [lia..|]. csimpl. rewrite IH1, Hs.
  split_and!; [done|by constructor|constructor; [|done]]. by injection Hs.
Qed.

(** The tiling after collecting [popped] freed and [k] fresh segments. *)
Lemma collect_tiles a live n free' popped k :
  alloc_inv a live -> 0 <= n ->
  default [] (free_segments a !! n) = free' ++ reverse popped ->
  brk a + Z.of_nat k * n <= capacity a ->
  exists l, tiles 0 l (brk a + Z.of_nat k * n) /\
    l ≡ₚ (obj_segment <$> live) ++ size_segs n (popped ++ bumped (brk a) n k)
         ++ size_segs n free' ++ segs_of (delete n (free_segments a)) /\
    Forall (fun o => 0 <= o /\ o + n <= capacity a) (popped ++ bumped (brk a) n k).
Proof.
  intros [(l & Ht & Hl) Hb _ _ _] Hn Hfree Hcap.
  exists (l ++ size_segs n (bumped (brk a) n k)).
  assert (tiles 0 (l ++ size_segs n (bumped (brk a) n k)) (brk a + Z.of_nat k * n)) as Ht'.
  { apply tiles_app. exists (brk a). split; [done|by apply tiles_bumped]. }
  assert (l ++ size_segs n (bumped (brk a) n k) ≡ₚ
    (obj_segment <$> live) ++ size_segs n (popped ++ bumped (brk a) n k)
         ++ size_segs n free' ++ segs_of (delete n (free_segments a))) as Hp.
  { rewrite Hl, (segs_of_lookup _ n), Hfree, !size_segs_app.
    replace (size_segs n (reverse popped)) with (reverse (size_segs n popped))
      by (unfold size_segs; by rewrite fmap_reverse).
    rewrite reverse_Permutation. solve_Permutation. }
  split_and!; [done..|].
  apply tiles_bounds in Ht' as [_ Hall]. rewrite Hp, !Forall_app in Hall.
  destruct Hall as (_ & Hall & _). unfold size_segs in Hall. rewrite Forall_fmap in Hall.
  eapply Forall_impl; [exact Hall|]. simpl. lia.
Qed.

Lemma allocate_spec a live count n :
  alloc_inv a live -> 0 <= n -> 0 <= count ->
  exists a' r, allocate count n a = (a', Ok r) /\ pool a' = pool a /\
    match r with
    | Some objs => Zlen objs = count /\ Forall (fun o => obj_nbytes o = n) objs /\
                   alloc_inv a' (objs ++ live)
    | None => used_bytes a' = used_bytes a /\ alloc_inv a' live
    end.
Proof.
  intros Hinv Hn Hcount. unfold allocate.
  destruct (pop_free _ _ _) as [off1 free'] eqn:Ep.
  apply pop_free_spec in Ep as (popped & -> & Hfree & Hlenp). simpl.
  destruct (bump _ _ _ _ _) as [offsets brk'] eqn:Eb.
  apply bump_spec in Eb as (k & Hk & -> & -> & Hor & Hcap).
  specialize (Hcap (inv_brk _ _ Hinv)).
  destruct (collect_tiles a live n free' popped k Hinv Hn Hfree Hcap) as (l & Ht & Hl & Hin).
  destruct Hinv as [_ Hb Hu Hv Hs].
  destruct (Z.ltb_spec (Zlen (popped ++ bumped (brk a) n k)) count) as [Hlt|Hge];
    eexists _, _; (split; [reflexivity|]); (split; [done|]); simpl.
  - split; [done|]. split; simpl; [|done|done|done|].
    + exists l. split; [done|]. rewrite Hl, segs_of_insert, !size_segs_app. solve_Permutation.
    + eapply Forall_impl; [exact Hs|]. intros o Ho. rewrite lookup_insert. by case_decide.
  - destruct (slices_of_segments _ _ _ Hn Hin) as (Hseg & Hvs & Hns).
    assert (Zlen (pool_slice (capacity a) n <$> popped ++ bumped (brk a) n k) = count) as Hlen.
    { unfold Zlen in *. rewrite length_fmap, length_app in *. unfold bumped in *.
      rewrite length_fmap, length_seq in *. lia. }
    split_and!; [done|done|]. split; simpl.
    + exists l. split; [done|]. rewrite Hl, segs_of_insert, fmap_app, Hseg. solve_Permutation.
    + done.
    + rewrite sum_nbytes_app, (sum_nbytes_const n) by done. unfold Zlen in Hlen. lia.
    + by apply Forall_app.
    + apply Forall_app. split.
      * eapply Forall_impl; [exact Hns|]. intros o ->. rewrite lookup_insert_eq. eauto.
      * eapply Forall_impl; [exact Hs|]. intros o Ho. rewrite lookup_insert. by case_decide.
Qed.

Lemma free_one_spec a live o :
  alloc_inv a (o :: live) ->
  exists a', free_one o a = (a', Ok tt) /\ pool a' = pool a /\ alloc_inv a' live.
Proof.
  intros [(l & Ht & Hl) Hb Hu Hv Hs]. unfold free_one.
  apply Forall_cons in Hs as [[os Hos] Hs]. rewrite Hos.
  eexists. split; [reflexivity|]. split; [done|].
  split; simpl; [|done|simpl in Hu; lia|by inversion Hv|].
  - exists l. split; [done|]. rewrite Hl, segs_of_insert, size_segs_app. csimpl.
    rewrite (segs_of_lookup (free_segments a) (obj_nbytes o)), Hos. simpl.
    unfold obj_segment at 1. solve_Permutation.
  - eapply Forall_impl; [exact Hs|]. intros o' Ho. rewrite lookup_insert. by case_decide.
Qed.

Lemma free_spec a live objs :
  alloc_inv a (objs ++ live) ->
  exists a', free objs a = (a', Ok tt) /\ pool a' = pool a /\ alloc_inv a' live.
Proof.
  revert a. induction objs as [|o objs IH]; intros a Hinv; [by exists a|].
  destruct (free_one_spec _ _ _ Hinv) as (a1 & E1 & Hp1 & H1).
  destruct (IH _ H1) as (a2 & E2 & Hp2 & H2).
  exists a2. unfold free in *. simpl. unfold bind. rewrite E1, E2.
  split_and!; [done|congruence|done].
Qed.

Lemma alloc_inv_set_pool a live p :
  Zlen p = capacity a -> alloc_inv a live -> alloc_inv (set_pool p a) live.
Proof. intros Hp [H1 H2 H3 H4 H5]. split; try done. simpl. unfold capacity in *. simpl. lia. Qed.

(** ** Isolation of the byte views *)

Definition obj_disjoint (o p : MemoryObj) : Prop := seg_disjoint (obj_segment o) (obj_segment p).

Lemma live_disjoint a live l1 o l2 p l3 :
  alloc_inv a live -> live = l1 ++ o :: l2 ++ p :: l3 -> obj_disjoint o p.
Proof.
  intros [(l & Ht & Hl) _ _ _ _] ->. unfold obj_disjoint.
  rewrite !fmap_app, fmap_cons, fmap_app, fmap_cons in Hl.
  eapply (tiles_disjoint _ _ _ (obj_segment <$> l1) _ (obj_segment <$> l2) _
            ((obj_segment <$> l3) ++ segs_of (free_segments a))); [exact Ht|].
  rewrite Hl. by rewrite <- !app_assoc; simpl; rewrite <- !app_assoc.
Qed.

Lemma obj_disjoint_sym o p : obj_disjoint o p -> obj_disjoint p o.
Proof. unfold obj_disjoint, seg_disjoint. lia. Qed.

Lemma live_disjoint_lookup a live i j o p :
  alloc_inv a live -> live !! i = Some o -> live !! j = Some p -> i <> j -> obj_disjoint o p.
Proof.
  intros Hinv Hi Hj Hij.
  assert (forall i j o p, (i < j)%nat -> live !! i = Some o -> live !! j = Some p ->
            obj_disjoint o p) as Hlt.
  { clear -Hinv. intros i j o p Hij Hi Hj.
    apply (live_disjoint a _ (take i live) o
             (take (j - S i) (drop (S i) live)) p (drop (S j) live) Hinv).
    rewrite <- (take_drop_middle live i o Hi) at 1. do 2 f_equal.
    rewrite <- (take_drop_middle (drop (S i) live) (j - S i) p) at 1.
    - rewrite drop_drop. do 3 f_equal. lia.
    - rewrite lookup_drop. rewrite <- Hj. f_equal. lia. }
  destruct (decide (i < j)%nat); [by eapply Hlt|].
  apply obj_disjoint_sym. apply (Hlt j i); [lia|done..].
Qed.

Lemma view_write_length v d p :
  (v_start v + length d <= length p)%nat -> length (view_write v d p) = length p.
Proof.
  intros H. unfold view_write. rewrite !length_app, length_take, length_drop. lia.
Qed.

Lemma view_read_write v d p :
  length d = v_len v -> (v_start v + v_len v <= length p)%nat ->
  view_read v (view_write v d p) = d.
Proof.
  intros Hd Hp. unfold view_read, view_write.
  rewrite drop_app_length' by (rewrite length_take; lia).
  by rewrite take_app_length' by done.
Qed.

Lemma view_read_write_ne v w d p :
  length d = v_len v -> (v_start v + v_len v <= length p)%nat ->
  (v_start v + v_len v <= v_start w \/ v_start w + v_len w <= v_start v)%nat ->
  view_read w (view_write v d p) = view_read w p.
Proof.
  intros Hd Hp Hdis. unfold view_read, view_write.
  apply list_eq. intros i.
  destruct (decide (i < v_len w)%nat) as [Hi|Hi]; [|by rewrite !lookup_take_ge by lia].
  rewrite !lookup_take_lt, !lookup_drop by done.
  destruct Hdis as [Hdis|Hdis].
  - rewrite lookup_app_r by (rewrite length_take; lia).
    rewrite lookup_app_r by (rewrite length_take; lia).
    rewrite lookup_drop, length_take. f_equal. lia.
  - rewrite lookup_app_l by (rewrite length_take; lia). by rewrite lookup_take_lt by lia.
Qed.

Lemma obj_disjoint_views o p :
  view_ok o -> view_ok p -> obj_disjoint o p ->
  (v_start (mo_tensor o) + v_len (mo_tensor o) <= v_start (mo_tensor p) \/
   v_start (mo_tensor p) + v_len (mo_tensor p) <= v_start (mo_tensor o))%nat.
Proof.
  intros [Ho Hvo] [Hp Hvp]. unfold obj_disjoint, seg_disjoint, obj_segment, obj_nbytes.
  simpl. rewrite Hvo, Hvp. lia.
Qed.

(** How many segments of size [n] the pool can still hand out. *)
Definition room (a : PoolAllocator) (n : Z) : Z :=
  Zlen (default [] (free_segments a !! n)) + (capacity a - brk a) / n.

Lemma bump_stops a n k need :
  0 < n -> brk a <= capacity a ->
  brk a + Z.of_nat k * n <= capacity a -> (k <= need)%nat ->
  (k = need \/ capacity a < brk a + Z.of_nat k * n + n) ->
  Z.of_nat k = Z.min (Z.of_nat need) ((capacity a - brk a) / n).
Proof.
  intros Hn Hb Hk Hkn Hor.
  assert (Z.of_nat k <= (capacity a - brk a) / n).
  { apply Z.div_le_lower_bound; lia. }
  destruct Hor as [->|Hlt]; [lia|].
  assert ((capacity a - brk a) / n < Z.of_nat k + 1).
  { apply Z.div_lt_upper_bound; lia. }
  lia.
Qed.

Lemma allocate_some_iff a live count n :
  alloc_inv a live -> 0 < n -> 0 <= count ->
  (exists a' objs, allocate count n a = (a', Ok (Some objs))) <-> count <= room a n.
Proof.
  intros Hinv Hn Hcount. unfold allocate, room.
  destruct (pop_free _ _ _) as [off1 free'] eqn:Ep.
  apply pop_free_spec in Ep as (popped & -> & Hfree & Hlenp). simpl.
  destruct (bump _ _ _ _ _) as [offsets brk'] eqn:Eb.
  apply bump_spec in Eb as (k & Hk & -> & -> & Hor & Hcap).
  specialize (Hcap (inv_brk _ _ Hinv)).
  pose proof (bump_stops a n k _ Hn (inv_brk _ _ Hinv) Hcap Hk Hor) as Hmin.
  assert (0 <= (capacity a - brk a) / n).
  { apply Z.div_pos; [|lia]. pose proof (inv_brk _ _ Hinv). lia. }
  assert (Zlen (popped ++ bumped (brk a) n k) = Z.of_nat (length popped) + Z.of_nat k) as ->.
  { unfold Zlen, bumped. rewrite length_app, length_fmap, length_seq. lia. }
  unfold Zlen in *.
  destruct (Z.ltb_spec (Z.of_nat (length popped) + Z.of_nat k) count); split.
  - intros (? & ? & ?). simplify_eq.
  - intros. exfalso. lia.
  - intros _. lia.
  - intros _. eauto.
Qed.

(** ** Properties *)

(** C28: [allocate] on a well-formed pool returns either [None] or exactly
    [count] slices of [nbytes] bytes that lie inside the pool, are disjoint from
    each other and from every live slice, and are charged to the usage; the
    pool bytes are untouched and a refused request charges nothing.  It is
    refused exactly when recycled segments plus the room above the bump pointer
    fall short. *)
Theorem allocate_correct a live count n :
  alloc_inv a live -> 0 < n -> 0 <= count ->
  exists a' r, allocate count n a = (a', Ok r) /\ pool a' = pool a /\
    (r = None <-> room a n < count) /\
    match r with
    | None => used_bytes a' = used_bytes a /\ alloc_inv a' live
    | Some objs =>
        Zlen objs = count /\ used_bytes a' = used_bytes a + count * n /\
        alloc_inv a' (objs ++ live) /\
        Forall (fun o => obj_nbytes o = n /\ 0 <= mo_offset o /\
                         mo_offset o + n <= capacity a) objs /\
        (forall i j o p, (objs ++ live) !! i = Some o -> objs !! j = Some p -> i <> j ->
                         obj_disjoint o p)
    end.
Proof.
  intros Hinv Hn Hc.
  destruct (allocate_spec a live count n Hinv ltac:(lia) Hc) as (a' & r & E & Hp & Hr).
  pose proof (allocate_some_iff a live count n Hinv Hn Hc) as Hiff.
  exists a', r. split_and!; [done|done| |].
  { rewrite E in Hiff. destruct r as [objs|]; split; intros H; try done.
    - assert (count <= room a n) by (apply Hiff; eauto). lia.
    - destruct (Z.lt_ge_cases (room a n) count) as [|Hge]; [done|].
      apply Hiff in Hge as (? & ? & ?). simplify_eq. }
  destruct r as [objs|]; [|done]. destruct Hr as (Hlen & Hn' & Hinv').
  split_and!; [done| |done| |].
  - rewrite (inv_used _ _ Hinv'), (inv_used _ _ Hinv), sum_nbytes_app, (sum_nbytes_const n) by done.
    unfold Zlen in Hlen. lia.
  - apply Forall_forall. intros o Ho. rewrite Forall_forall in Hn'.
    pose proof (Hn' o Ho) as Hno.
    destruct (alloc_inv_bounds _ _ o Hinv'); [set_solver|].
    unfold capacity in *. rewrite Hp, Hno in *. lia.
  - intros i j o p Hi Hj Hij. pose proof (lookup_app_l_Some _ live _ _ Hj) as Hj'.
    by apply (live_disjoint_lookup a' (objs ++ live) i j).
Qed.

(** A 12-byte pool with one live 4-byte slice. *)
Definition toy_pool : PoolAllocator := fst (allocate 1 4 (new_pool (replicate 12 Byte.x00))).
Definition toy_obj : MemoryObj := mkMemoryObj (mkView 0 4) 0.

Lemma toy_pool_inv : alloc_inv toy_pool [toy_obj].
Proof.
  destruct (allocate_spec (new_pool (replicate 12 Byte.x00)) [] 1 4 (alloc_inv_new _))
    as (a' & r & E & _ & Hr); [lia..|].
  unfold toy_pool. rewrite E. vm_compute in E. simplify_eq. by destruct Hr as (_ & _ & H).
Qed.

Lemma allocate_correct_witness :
  alloc_inv toy_pool [toy_obj] /\
  exists a' r, allocate 2 4 toy_pool = (a', Ok r) /\ pool a' = pool toy_pool /\
    (r = None <-> room toy_pool 4 < 2).
Proof.
  split; [exact toy_pool_inv|].
  destruct (allocate_correct toy_pool [toy_obj] 2 4 toy_pool_inv) as (a' & r & H1 & H2 & H3 & _);
    [reflexivity|discriminate|].
  exists a', r. split; [exact H1|]. split; [exact H2|exact H3].
Defined.

Lemma pop_free_app xs offsets os :
  pop_free (length xs) offsets (os ++ xs) = (offsets ++ reverse xs, os).
Proof.
  revert offsets. induction xs as [|x xs IH] using rev_ind; intros offsets.
  { by rewrite !app_nil_r. }
  rewrite length_app, Nat.add_comm. simpl.
  assert (py_pop (os ++ xs ++ [x]) = Some (os ++ xs, x)) as ->.
  { apply py_pop_Some. by rewrite <- app_assoc. }
  by rewrite IH, reverse_snoc, <- app_assoc.
Qed.

Lemma allocate_from_free a n os xs :
  default [] (free_segments a !! n) = os ++ xs ->
  allocate (Zlen xs) n a =
    (mkPoolAllocator (pool a) (brk a) (<[n := os]> (free_segments a))
                     (used_bytes a + Zlen xs * n),
     Ok (Some (pool_slice (capacity a) n <$> reverse xs))).
Proof.
  intros Hfree. unfold allocate, Zlen. rewrite Hfree, Nat2Z.id, pop_free_app. simpl.
  rewrite length_reverse, Nat.sub_diag. simpl. by rewrite length_reverse, Z.ltb_irrefl.
Qed.

Lemma free_same_size a objs n :
  Forall (fun o => obj_nbytes o = n) objs ->
  is_Some (free_segments a !! n) \/ objs = [] ->
  free objs a =
    (mkPoolAllocator (pool a) (brk a)
       (if objs is [] then free_segments a else
        <[n := default [] (free_segments a !! n) ++ (mo_offset <$> objs)]> (free_segments a))
       (used_bytes a - Zlen objs * n), Ok tt).
Proof.
  intros Hn. revert a. induction Hn as [|o objs Ho Hn IH]; intros a Hsome.
  { unfold free, Zlen. simpl. rewrite Z.sub_0_r. by destruct a. }
  destruct Hsome as [[os Hos]|]; [|done].
  unfold free in *. simpl. unfold bind. unfold free_one at 1. rewrite Ho, Hos. simpl.
  rewrite IH by (left; simpl; rewrite lookup_insert_eq; eauto). simpl. f_equal.
  rewrite lookup_insert_eq. simpl. f_equal.
  - destruct objs; [done|]. by rewrite insert_insert_eq, <- app_assoc.
  - unfold Zlen. simpl length. lia.
Qed.

Lemma pool_slice_same cap o :
  view_ok o -> mo_offset o + obj_nbytes o <= cap ->
  pool_slice cap (obj_nbytes o) (mo_offset o) = o.
Proof.
  destruct o as [[st ln] off]. unfold view_ok, pool_slice, obj_nbytes, slice_idx. simpl.
  intros [Ho ->] Hc.
  replace (off <? 0) with false by lia. replace (off + Z.of_nat ln <? 0) with false by lia.
  do 2 f_equal; lia.
Qed.

(** Freeing live slices succeeds, gives their bytes back to the usage
    figure, keeps the invariant for the slices still live, and the next
    request of the same size and count is served by exactly those segments,
    last freed first, without moving the bump pointer. *)
Theorem free_then_reuse a live objs n :
  alloc_inv a (objs ++ live) -> 0 < n -> Forall (fun o => obj_nbytes o = n) objs ->
  exists a', free objs a = (a', Ok tt) /\ alloc_inv a' live /\
    used_bytes a' = used_bytes a - Zlen objs * n /\ brk a' = brk a /\
    exists a'', allocate (Zlen objs) n a' = (a'', Ok (Some (reverse objs))) /\
      brk a'' = brk a /\ alloc_inv a'' (reverse objs ++ live).
Proof.
  intros Hinv Hn Hsz. destruct (free_spec _ _ _ Hinv) as (a' & E & Hpool & Hinv').
  exists a'. split; [done|]. split; [done|].
  assert (is_Some (free_segments a !! n) \/ objs = []) as Hsome.
  { destruct objs as [|o objs]; [by right|left].
    pose proof (inv_sizes _ _ Hinv) as Hs. apply Forall_cons in Hs as [Hs _].
    apply Forall_cons in Hsz as [Ho _]. by rewrite <- Ho. }
  rewrite (free_same_size a objs n Hsz Hsome) in E. injection E as <-. simpl.
  split_and!; [done|done|].
  set (a' := mkPoolAllocator _ _ _ _) in *.
  assert (default [] (free_segments a' !! n)
    = default [] (free_segments a !! n) ++ (mo_offset <$> objs)) as Hfree.
  { simpl. destruct objs; [by rewrite app_nil_r|]. by rewrite lookup_insert_eq. }
  apply allocate_from_free in Hfree.
  assert (Zlen (mo_offset <$> objs) = Zlen objs) as Hlen
    by (unfold Zlen; by rewrite length_fmap).
  rewrite Hlen in Hfree.
  assert (pool_slice (capacity a') n <$> reverse (mo_offset <$> objs) = reverse objs) as Hsl.
  { rewrite <- fmap_reverse, <- list_fmap_compose. rewrite <- (list_fmap_id (reverse objs)) at 2.
    apply list_fmap_ext. intros i o Ho%list_elem_of_lookup_2. simpl.
    assert (o ∈ objs) as Ho' by by rewrite <- elem_of_reverse.
    rewrite Forall_forall in Hsz. rewrite <- (Hsz o) by done. apply pool_slice_same.
    - pose proof (inv_views _ _ Hinv) as Hv. rewrite Forall_forall in Hv. apply Hv. set_solver.
    - eapply (alloc_inv_bounds a _ o Hinv). set_solver. }
  rewrite Hsl in Hfree. eexists. split; [exact Hfree|]. split; [done|].
  destruct (allocate_spec a' live (Zlen objs) n Hinv') as (a2 & r & E2 & _ & Hr);
    [lia|apply Zlen_nonneg|].
  rewrite Hfree in E2. injection E2 as <- <-. by destruct Hr as (_ & _ & ?).
Qed.

Lemma free_then_reuse_witness :
  alloc_inv toy_pool ([toy_obj] ++ []) /\
  exists a', free [toy_obj] toy_pool = (a', Ok tt) /\ alloc_inv a' [] /\ used_bytes a' = 0.
Proof.
  split; [exact toy_pool_inv|].
  destruct (free_then_reuse toy_pool [] [toy_obj] 4 toy_pool_inv) as (a' & H1 & H2 & H3 & _);
    [reflexivity|repeat constructor|].
  exists a'. split; [exact H1|]. split; [exact H2|]. rewrite H3. reflexivity.
Defined.

(** A chunk written through the [byte_array] of one live slice is read
    back unchanged, no other live slice sees a different byte, the allocator
    bookkeeping is unaffected, and a blob of the wrong length raises
    [ValueError] without writing anything. *)
Theorem byte_array_isolated a live i j o p data :
  alloc_inv a live -> live !! i = Some o -> live !! j = Some p -> i <> j ->
  match byte_array_assign o data (pool a) with
  | (pool', Ok _) =>
      Zlen data = obj_nbytes o /\ byte_array o pool' = data /\
      byte_array p pool' = byte_array p (pool a) /\ alloc_inv (set_pool pool' a) live
  | (pool', Raise e) => e = ValueError /\ Zlen data <> obj_nbytes o /\ pool' = pool a
  end.
Proof.
  intros Hinv Hi Hj Hij. unfold byte_array_assign, Zlen, obj_nbytes.
  case_decide as Hd; [|by split_and!; [|lia|]].
  assert (forall k q, live !! k = Some q -> view_ok q /\
            (v_start (mo_tensor q) + v_len (mo_tensor q) <= length (pool a))%nat) as Hok.
  { intros k q Hq%list_elem_of_lookup_2.
    pose proof (inv_views _ _ Hinv) as Hv. rewrite Forall_forall in Hv.
    destruct (alloc_inv_bounds _ _ _ Hinv Hq) as [H1 H2]. destruct (Hv q Hq) as [H3 H4].
    split; [done|]. rewrite H4. unfold capacity, Zlen, obj_nbytes in H2. lia. }
  destruct (Hok _ _ Hi) as [Hvo Hbo]. destruct (Hok _ _ Hj) as [Hvp Hbp].
  split; [lia|]. split; [by apply view_read_write|]. split.
  - apply view_read_write_ne; [done|done|]. apply obj_disjoint_views; [done|done|].
    by apply (live_disjoint_lookup a live i j).
  - apply alloc_inv_set_pool; [|done]. unfold Zlen. rewrite view_write_length by lia. done.
Qed.

Lemma byte_array_isolated_witness :
  exists a o p, alloc_inv a [o; p] /\
  match byte_array_assign o (replicate 4 Byte.xff) (pool a) with
  | (pool', Ok _) =>
      Zlen (replicate 4 Byte.xff) = obj_nbytes o /\ byte_array o pool' = replicate 4 Byte.xff /\
      byte_array p pool' = byte_array p (pool a) /\ alloc_inv (set_pool pool' a) [o; p]
  | (pool', Raise e) =>
      e = ValueError /\ Zlen (replicate 4 Byte.xff) <> obj_nbytes o /\ pool' = pool a
  end.
Proof.
  destruct (allocate_spec toy_pool [toy_obj] 1 4 toy_pool_inv) as (a' & r & E & _ & Hr); [lia..|].
  vm_compute in E. injection E as <- <-. destruct Hr as (_ & _ & Hr).
  eexists _, _, _. split; [exact Hr|].
  exact (byte_array_isolated _ _ 0 1 _ _ (replicate 4 Byte.xff) Hr eq_refl eq_refl ltac:(lia)).
Defined.

Lemma tiles_total s l e : tiles s l e -> foldr (fun g t => g.2 + t) 0 l = e - s.
Proof.
  revert s. induction l as [|[o n] l IH]; intros s; simpl; [intros ->; lia|].
  intros (-> & _ & Ht). apply IH in Ht. lia.
Qed.

Lemma alloc_inv_used_le a live : alloc_inv a live -> 0 <= used_bytes a <= capacity a.
Proof.
  intros Hinv. rewrite (inv_used _ _ Hinv). destruct Hinv as [(l & Ht & Hl) Hb _ _ _].
  pose proof (tiles_total _ _ _ Ht) as Htot. destruct (tiles_bounds _ _ _ Ht) as [_ Hall].
  assert (forall l l' : list segment, l ≡ₚ l' ->
    foldr (fun g t => g.2 + t) 0 l = foldr (fun g t => g.2 + t) 0 l') as Hperm.
  { induction 1; simpl; lia. }
  rewrite (Hperm _ _ Hl) in Htot. rewrite Hl, Forall_app in Hall. destruct Hall as [_ Hfree].
  assert (forall l1 l2 : list segment,
    foldr (fun g t => g.2 + t) 0 (l1 ++ l2) =
    foldr (fun g t => g.2 + t) 0 l1 + foldr (fun g t => g.2 + t) 0 l2) as Happ.
  { induction l1; intros; simpl; [done|]. rewrite IHl1. lia. }
  rewrite Happ in Htot.
  assert (foldr (fun g t => g.2 + t) 0 (obj_segment <$> live) = sum_nbytes live) as Hs.
  { clear. unfold sum_nbytes. induction live as [|o live IH]; [done|]. csimpl. by rewrite IH. }
  assert (0 <= foldr (fun g t => g.2 + t) 0 (segs_of (free_segments a))) as Hf.
  { clear -Hfree. induction Hfree as [|g l Hg _ IH]; simpl; lia. }
  assert (0 <= sum_nbytes live).
  { clear. unfold sum_nbytes. induction live as [|o live IH]; simpl; [lia|]. unfold obj_nbytes at 1. lia. }
  rewrite Hs in Htot. lia.
Qed.

(** One allocation takes one segment out of the room that is left. *)
Lemma allocate_one_room a live n :
  alloc_inv a live -> 0 < n ->
  exists a' r, allocate 1 n a = (a', Ok r) /\
    match r with
    | Some objs => 1 <= room a n /\ exists o, objs = [o] /\ room a' n = room a n - 1
    | None => room a n < 1
    end.
Proof.
  intros Hinv Hn. pose proof (allocate_some_iff a live 1 n Hinv Hn ltac:(lia)) as Hiff.
  unfold allocate in *. unfold room.
  destruct (default [] (free_segments a !! n)) as [|x l _] eqn:Ef using rev_ind; simpl in *.
  - destruct (Z.leb_spec (brk a + n) (capacity a)) as [Hle|Hgt].
    + eexists _, _. split; [reflexivity|]. assert (1 <= room a n) by (apply Hiff; eauto).
      unfold room in *. rewrite Ef in *. split; [done|]. eexists. split; [reflexivity|]. simpl.
      rewrite lookup_insert_eq. simpl. unfold capacity in *. simpl.
      replace (Zlen (pool a) - (brk a + n)) with (Zlen (pool a) - brk a + (-1) * n) by lia.
      rewrite Z.div_add by lia. lia.
    + eexists _, _. split; [reflexivity|].
      destruct (Z.lt_ge_cases (room a n) 1) as [Hr|Hr]; unfold room in Hr; rewrite Ef in Hr; [done|].
      exfalso. assert (1 <= room a n) as Hr' by (unfold room; by rewrite Ef).
      apply Hiff in Hr' as (? & ? & ?). simplify_eq.
  - assert (py_pop (l ++ [x]) = Some (l, x)) as Ep by by apply py_pop_Some.
    rewrite Ep in *. simpl in *. eexists _, _. split; [reflexivity|].
    assert (1 <= room a n) as Hr by (apply Hiff; eauto). unfold room in Hr. rewrite Ef in Hr.
    split; [done|]. eexists. split; [reflexivity|]. simpl. rewrite lookup_insert_eq. simpl.
    unfold capacity, Zlen. simpl. rewrite length_app. simpl. lia.
Qed.
