(* ===== verification/L1Manager.v ===== *)
(** L1 cache manager (l1/manager.py): entries, reference counts and the lock
    protocol.

    Every public operation of [L1Manager] runs under [self.lock]; it is one
    transition of the monad [M], hence atomic.  Listeners are references [R]
    into a joint observer state [O] (the store controller and the LRU policy
    share theirs with their owners); the class [Listener] is what the manager
    needs of them. *)
From S2P Require Import Prelude Protocol Memory.
Local Open Scope py_scope.
Local Open Scope Z_scope.

(** ** Listeners *)

Inductive event := on_created | on_write_finished | on_touched | on_removed.

#[export] Instance event_eq_dec : EqDecision event.
Proof. solve_decision. Defined.

(** [getattr(listener, event)(keys)] *)
Class Listener (R O : Type) := dispatch : R -> event -> list ChunkKey -> O -> O.

(** ** Entries *)

Record Entry := mkEntry {
  entry_obj : MemoryObj;
  write_locked : bool;
  read_count : Z;
  is_temporary : bool
}.

#[export] Instance Entry_eq_dec : EqDecision Entry.
Proof. solve_decision. Defined.

Definition readable (e : Entry) : bool := negb (write_locked e).
Definition unlocked (e : Entry) : bool := negb (write_locked e) && (read_count e =? 0).

Definition set_write_locked (b : bool) (e : Entry) : Entry :=
  mkEntry (entry_obj e) b (read_count e) (is_temporary e).
Definition add_read_count (d : Z) (e : Entry) : Entry :=
  mkEntry (entry_obj e) (write_locked e) (read_count e + d) (is_temporary e).
Definition set_temporary (b : bool) (e : Entry) : Entry :=
  mkEntry (entry_obj e) (write_locked e) (read_count e) b.

Section manager.
Context {R O : Type} `{!Listener R O}.

Record L1 := mkL1 {
  allocator : PoolAllocator;
  entries : gmap ChunkKey Entry;
  listeners : list R;
  observers : O
}.

(** [L1Manager.__init__] and [register_listener]. *)
Definition new_l1 (a : PoolAllocator) (o : O) : L1 := mkL1 a ∅ [] o.
Definition register_listener (r : R) : M L1 unit :=
  modify (fun s => mkL1 (allocator s) (entries s) (listeners s ++ [r]) (observers s)).

Definition set_allocator (a : PoolAllocator) (s : L1) : L1 :=
  mkL1 a (entries s) (listeners s) (observers s).
Definition set_entries (m : gmap ChunkKey Entry) (s : L1) : L1 :=
  mkL1 (allocator s) m (listeners s) (observers s).
Definition set_observers (o : O) (s : L1) : L1 :=
  mkL1 (allocator s) (entries s) (listeners s) o.

Definition on_allocator {A} (m : M PoolAllocator A) : M L1 A := zoom allocator set_allocator m.

(** [self.entries[key]], [self.entries[key] = e], [del self.entries[key]]. *)
Definition entry_at (k : ChunkKey) : M L1 Entry :=
  fun s => match entries s !! k with Some e => (s, Ok e) | None => (s, Raise KeyError) end.
Definition put_entry (k : ChunkKey) (e : Entry) : M L1 unit :=
  modify (fun s => set_entries (<[k := e]> (entries s)) s).
Definition del_entry (k : ChunkKey) : M L1 unit :=
  modify (fun s => set_entries (delete k (entries s)) s).

Definition notify (ev : event) (keys : list ChunkKey) : M L1 unit :=
  modify (fun s =>
    set_observers (foldl (fun o r => dispatch r ev keys o) (observers s) (listeners s)) s).

(** One iteration of the loop that creates the entries of new chunks. *)
Definition reserve_write_one (temporary : bool)
    (result : gmap ChunkKey (option MemoryObj)) (ko : ChunkKey * MemoryObj)
    : M L1 (gmap ChunkKey (option MemoryObj)) :=
  let* _ := put_entry ko.1 (mkEntry ko.2 true 0 temporary) in
  ret (<[ko.1 := Some ko.2]> result).

Definition reserve_write (keys : list ChunkKey) (chunk_nbytes : Z) (temporary : bool)
    : M L1 (gmap ChunkKey (option MemoryObj)) :=
  let* s := get in
  let result := list_to_map ((fun k => (k, None)) <$> keys) in
  let missing := filter (fun k => entries s !! k = None) keys in
  let* objs := on_allocator (allocate (Zlen missing) chunk_nbytes) in
  match objs with
  | None => ret result
  | Some objs =>
      for_acc (zip missing objs) result (reserve_write_one temporary)
  end.

Definition finish_write (keys : list ChunkKey) : M L1 unit :=
  let* _ := for_each keys (fun key =>
    let* e := entry_at key in put_entry key (set_write_locked false e)) in
  let* _ := notify on_created keys in
  notify on_write_finished keys.

Definition finish_write_and_reserve_read (keys : list ChunkKey) : M L1 unit :=
  let* _ := for_each keys (fun key =>
    let* e := entry_at key in
    put_entry key (add_read_count 1 (set_write_locked false e))) in
  notify on_created keys.

Definition reserve_read_one (result : gmap ChunkKey (option MemoryObj)) (key : ChunkKey)
    : M L1 (gmap ChunkKey (option MemoryObj)) :=
  let* s := get in
  match entries s !! key with
  | Some e =>
      if readable e
      then let* _ := put_entry key (add_read_count 1 e) in
           ret (<[key := Some (entry_obj e)]> result)
      else ret (<[key := None]> result)
  | None => ret (<[key := None]> result)
  end.

Definition reserve_read (keys : list ChunkKey) : M L1 (gmap ChunkKey (option MemoryObj)) :=
  for_acc keys ∅ reserve_read_one.

(** The counting loop of [reserve_read_prefix]. *)
Fixpoint count_readable (m : gmap ChunkKey Entry) (keys : list ChunkKey) (hit : nat) : nat :=
  match keys with
  | [] => hit
  | key :: keys' =>
      match m !! key with
      | Some e => if readable e then count_readable m keys' (S hit) else hit
      | None => hit
      end
  end.

Definition reserve_read_prefix (keys : list ChunkKey) : M L1 nat :=
  let* s := get in
  let hit := count_readable (entries s) keys 0 in
  let* _ := for_each (take hit keys) (fun key =>
    let* e := entry_at key in put_entry key (add_read_count 1 e)) in
  ret hit.

Definition read (keys : list ChunkKey) : M L1 (list MemoryObj) :=
  for_acc keys [] (fun objs key => let* e := entry_at key in ret (objs ++ [entry_obj e])).

(** One iteration of [finish_read]; the accumulator is [(freed, touched)]. *)
Definition finish_read_one (acc : list ChunkKey * list ChunkKey) (key : ChunkKey)
    : M L1 (list ChunkKey * list ChunkKey) :=
  let* e := entry_at key in
  let e' := add_read_count (-1) e in
  let* _ := put_entry key e' in
  if (read_count e' =? 0) && is_temporary e'
  then let* _ := on_allocator (free [entry_obj e']) in
       let* _ := del_entry key in
       ret (acc.1 ++ [key], acc.2)
  else ret (acc.1, acc.2 ++ [key]).

Definition finish_read (keys : list ChunkKey) : M L1 unit :=
  let* acc := for_acc keys ([], []) finish_read_one in
  let* _ := (if acc.2 is [] then ret tt else notify on_touched acc.2) in
  if acc.1 is [] then ret tt else notify on_removed acc.1.

Definition promote (keys : list ChunkKey) : M L1 unit :=
  for_each keys (fun key =>
    let* s := get in
    match entries s !! key with
    | Some e => put_entry key (set_temporary false e)
    | None => ret tt
    end).

(** Called without the lock: a single dict lookup. *)
Definition is_evictable (s : L1) (key : ChunkKey) : bool :=
  match entries s !! key with Some e => unlocked e | None => false end.

Definition delete_one (force : bool) (deleted : list ChunkKey) (key : ChunkKey)
    : M L1 (list ChunkKey) :=
  let* s := get in
  match entries s !! key with
  | None => ret deleted
  | Some e =>
      if negb (unlocked e) && negb force then ret deleted
      else let* _ := on_allocator (free [entry_obj e]) in
           let* _ := del_entry key in
           ret (deleted ++ [key])
  end.

Definition delete_keys (keys : list ChunkKey) (force : bool) : M L1 nat :=
  let* deleted := for_acc keys [] (delete_one force) in
  let* _ := (if deleted is [] then ret tt else notify on_removed deleted) in
  ret (length deleted).

(** [obj.byte_array[:] = data] on a slice of the pool. *)
Definition assign_obj (obj : MemoryObj) (data : bytes) : M L1 unit :=
  on_allocator (zoom pool set_pool (byte_array_assign obj data)).

Definition l1_usage : M L1 (Z * Z) := fun s => (s, Ok (alloc_usage (allocator s))).
End manager.
Arguments L1 : clear implicits.

(** ** The lock-table invariant

    [W] records the write locks with their owner's view (is the entry
    temporary, which slice was handed out); [H] is the multiset of read holds;
    [C k] is the content chunk [k] stands for.  The manager's entries refine
    this table: an entry is write-locked exactly when [W] lists it, its read
    count is its multiplicity in [H], its bytes are [C k] once it is readable,
    and a temporary entry outlives its last hold only while it is written. *)

Notation write_table := (gmap ChunkKey (bool * MemoryObj)).
Notation hold_table := (gmultiset ChunkKey).

Definition entry_ok (C : ChunkKey -> bytes) (p : bytes) (k : ChunkKey) (e : Entry)
    (w : option (bool * MemoryObj)) (h : nat) : Prop :=
  read_count e = Z.of_nat h /\
  match w with
  | Some (tmp, obj) =>
      write_locked e = true /\ h = 0%nat /\ entry_obj e = obj /\
      (is_temporary e = true -> tmp = true)
  | None =>
      write_locked e = false /\ byte_array (entry_obj e) p = C k /\
      (is_temporary e = true -> (0 < h)%nat)
  end.

Definition key_ok (C : ChunkKey -> bytes) (p : bytes) (k : ChunkKey) (me : option Entry)
    (w : option (bool * MemoryObj)) (h : nat) : Prop :=
  match me with
  | Some e => entry_ok C p k e w h
  | None => w = None /\ h = 0%nat
  end.

Definition lock_inv (C : ChunkKey -> bytes) (p : bytes) (m : gmap ChunkKey Entry)
    (W : write_table) (H : hold_table) : Prop :=
  forall k, key_ok C p k (m !! k) (W !! k) (multiplicity k H).

Definition objs_of (m : gmap ChunkKey Entry) : list MemoryObj :=
  List.map (fun p => entry_obj p.2) (map_to_list m).

(** A key is ready when its entry exists and is not being written. *)
Definition ready (m : gmap ChunkKey Entry) (k : ChunkKey) : Prop :=
  exists e, m !! k = Some e /\ write_locked e = false.

Section manager_inv.
Context {R O : Type} `{!Listener R O}.
Implicit Types (s : L1 R O) (m : gmap ChunkKey Entry) (W : write_table) (H : hold_table).

Definition pool_of s : bytes := pool (allocator s).

Definition l1_inv (C : ChunkKey -> bytes) (s : L1 R O) (W : write_table) (H : hold_table) : Prop :=
  alloc_inv (allocator s) (objs_of (entries s)) /\ lock_inv C (pool_of s) (entries s) W H.
End manager_inv.

Implicit Types (k : ChunkKey) (m : gmap ChunkKey Entry) (W : write_table) (H : hold_table).

(** ** Lemmas on the objects of an entry map *)

Lemma objs_of_insert m k e :
  m !! k = None -> objs_of (<[k := e]> m) ≡ₚ entry_obj e :: objs_of m.
Proof. intros Hk. unfold objs_of. by rewrite (map_to_list_insert m k e Hk). Qed.

Lemma objs_of_delete m k e :
  m !! k = Some e -> objs_of m ≡ₚ entry_obj e :: objs_of (delete k m).
Proof.
  intros Hk. rewrite <- (insert_delete_id m k e Hk) at 1.
  apply objs_of_insert, lookup_delete_eq.
Qed.

Lemma objs_of_update m k e e' :
  m !! k = Some e -> entry_obj e' = entry_obj e -> objs_of (<[k := e']> m) ≡ₚ objs_of m.
Proof.
  intros Hk He. rewrite <- insert_delete_eq, objs_of_insert by apply lookup_delete_eq.
  by rewrite He, <- objs_of_delete.
Qed.

Lemma elem_of_objs_of m o : o ∈ objs_of m <-> exists k e, m !! k = Some e /\ entry_obj e = o.
Proof.
  unfold objs_of. rewrite list_elem_of_In, in_map_iff. split.
  - intros ([k e] & <- & Hin). exists k, e. split; [|done].
    apply list_elem_of_In in Hin. by apply elem_of_map_to_list in Hin.
  - intros (k & e & Hk & <-). exists (k, e). split; [done|].
    apply list_elem_of_In. by apply elem_of_map_to_list.
Qed.

Lemma lock_inv_insert C p m W W' H H' k e :
  lock_inv C p m W H ->
  (forall k', k' <> k -> W' !! k' = W !! k') ->
  (forall k', k' <> k -> multiplicity k' H' = multiplicity k' H) ->
  entry_ok C p k e (W' !! k) (multiplicity k H') ->
  lock_inv C p (<[k := e]> m) W' H'.
Proof.
  intros Hl HW HH Hk k'. destruct (decide (k' = k)) as [->|Hne].
  - by rewrite lookup_insert_eq.
  - rewrite lookup_insert_ne, HW, HH by done. apply Hl.
Qed.

Lemma lock_inv_delete C p m W H H' k :
  lock_inv C p m W H ->
  (forall k', k' <> k -> multiplicity k' H' = multiplicity k' H) ->
  multiplicity k H' = 0%nat ->
  lock_inv C p (delete k m) (delete k W) H'.
Proof.
  intros Hl HH Hk k'. destruct (decide (k' = k)) as [->|Hne].
  - by rewrite !lookup_delete_eq.
  - rewrite !lookup_delete_ne, HH by done. apply Hl.
Qed.

Lemma lock_inv_held C p m W H k :
  lock_inv C p m W H -> k ∈ H ->
  exists e, m !! k = Some e /\ W !! k = None /\ write_locked e = false /\
            read_count e = Z.of_nat (multiplicity k H) /\ 0 < read_count e.
Proof.
  intros Hl Hk. specialize (Hl k). rewrite elem_of_multiplicity in Hk.
  destruct (m !! k) as [e|]; simpl in Hl; [|destruct Hl; lia].
  exists e. split; [done|].
  destruct Hl as [Hrc Hw]. destruct (W !! k) as [[tmp obj]|].
  - destruct Hw as (_ & ? & _). lia.
  - destruct Hw as (? & _ & _). split_and!; (done || lia).
Qed.

Lemma lock_inv_written C p m W H k tmp obj :
  lock_inv C p m W H -> W !! k = Some (tmp, obj) ->
  exists e, m !! k = Some e /\ write_locked e = true /\ read_count e = 0 /\
            entry_obj e = obj /\ multiplicity k H = 0%nat /\ (is_temporary e = true -> tmp = true).
Proof.
  intros Hl Hk. specialize (Hl k). rewrite Hk in Hl.
  destruct (m !! k) as [e|]; simpl in Hl; [|by destruct Hl].
  exists e. destruct Hl as [Hrc (Hw & Hh & Ho & Ht)]. rewrite Hh in Hrc.
  by split_and!.
Qed.

Lemma lock_inv_ready C p m W H k e :
  lock_inv C p m W H -> m !! k = Some e -> write_locked e = false ->
  W !! k = None /\ byte_array (entry_obj e) p = C k.
Proof.
  intros Hl Hk He. specialize (Hl k). rewrite Hk in Hl. destruct Hl as [_ Hw].
  destruct (W !! k) as [[tmp obj]|].
  - destruct Hw as (? & _). congruence.
  - by destruct Hw as (_ & ? & _).
Qed.

Lemma lock_inv_absent C p m W H k :
  lock_inv C p m W H -> m !! k = None -> W !! k = None /\ multiplicity k H = 0%nat.
Proof. intros Hl Hk. specialize (Hl k). by rewrite Hk in Hl. Qed.

(** ** Multiset arithmetic *)

Lemma mult_add k k' H :
  multiplicity k' ({[+ k +]} ⊎ H) = ((if decide (k' = k) then 1 else 0) + multiplicity k' H)%nat.
Proof. rewrite multiplicity_disj_union, multiplicity_singleton. by repeat case_decide. Qed.

Lemma mult_sub k k' H :
  multiplicity k' (H ∖ {[+ k +]}) = (multiplicity k' H - (if decide (k' = k) then 1 else 0))%nat.
Proof. rewrite multiplicity_difference, multiplicity_singleton. by repeat case_decide. Qed.

Definition holds_of (keys : list ChunkKey) : hold_table := list_to_set_disj keys.

Lemma holds_of_cons k ks : holds_of (k :: ks) = {[+ k +]} ⊎ holds_of ks.
Proof. done. Qed.

Lemma holds_of_app ks ks' : holds_of (ks ++ ks') = holds_of ks ⊎ holds_of ks'.
Proof. apply list_to_set_disj_app. Qed.

(** ** Tables after a batch of reservations *)

Definition add_writes (tmp : bool) (kos : list (ChunkKey * MemoryObj)) (W : write_table)
    : write_table :=
  foldl (fun W ko => <[ko.1 := (tmp, ko.2)]> W) W kos.
Definition del_writes (keys : list ChunkKey) (W : write_table) : write_table :=
  foldl (fun W k => delete k W) W keys.
Definition add_results (kos : list (ChunkKey * MemoryObj))
    (r : gmap ChunkKey (option MemoryObj)) : gmap ChunkKey (option MemoryObj) :=
  foldl (fun r ko => <[ko.1 := Some ko.2]> r) r kos.

Lemma add_writes_notin tmp kos W k : k ∉ kos.*1 -> add_writes tmp kos W !! k = W !! k.
Proof.
  revert W. induction kos as [|[k' o] kos IH]; intros W Hk; [done|]. csimpl in *.
  rewrite IH, lookup_insert_ne by set_solver. done.
Qed.

Lemma add_writes_in tmp kos W k o :
  NoDup kos.*1 -> (k, o) ∈ kos -> add_writes tmp kos W !! k = Some (tmp, o).
Proof.
  revert W. induction kos as [|[k' o'] kos IH]; intros W Hnd Hin; [set_solver|]. csimpl in *.
  apply NoDup_cons in Hnd as [Hk' Hnd]. apply elem_of_cons in Hin as [?|Hin]; simplify_eq.
  - rewrite add_writes_notin by done. apply lookup_insert_eq.
  - by apply IH.
Qed.

Lemma del_writes_lookup keys W k :
  del_writes keys W !! k = if decide (k ∈ keys) then None else W !! k.
Proof.
  revert W. induction keys as [|k' keys IH]; intros W.
  { by rewrite decide_False by apply not_elem_of_nil. }
  simpl. rewrite IH, lookup_delete.
  destruct (decide (k ∈ keys)), (decide (k' = k)), (decide (k ∈ k' :: keys)); set_solver.
Qed.

Lemma add_results_notin kos r k : k ∉ kos.*1 -> add_results kos r !! k = r !! k.
Proof.
  revert r. induction kos as [|[k' o] kos IH]; intros r Hk; [done|]. csimpl in *.
  rewrite IH, lookup_insert_ne by set_solver. done.
Qed.

Lemma add_results_in kos r k o :
  NoDup kos.*1 -> (k, o) ∈ kos -> add_results kos r !! k = Some (Some o).
Proof.
  revert r. induction kos as [|[k' o'] kos IH]; intros r Hnd Hin; [set_solver|]. csimpl in *.
  apply NoDup_cons in Hnd as [Hk' Hnd]. apply elem_of_cons in Hin as [?|Hin]; simplify_eq.
  - rewrite add_results_notin by done. apply lookup_insert_eq.
  - by apply IH.
Qed.

(** The entries of a batch of reservations. *)
Lemma foldl_insert_other (kos : list (ChunkKey * MemoryObj)) tmp (m : gmap ChunkKey Entry) k :
  k ∉ kos.*1 -> foldl (fun m ko => <[ko.1 := mkEntry ko.2 true 0 tmp]> m) m kos !! k = m !! k.
Proof.
  revert m. induction kos as [|[k' o] kos IH]; intros m Hk; [done|]. csimpl in *.
  rewrite IH, lookup_insert_ne by set_solver. done.
Qed.

Lemma foldl_insert_in (kos : list (ChunkKey * MemoryObj)) tmp (m : gmap ChunkKey Entry) k o :
  NoDup kos.*1 -> (k, o) ∈ kos ->
  foldl (fun m ko => <[ko.1 := mkEntry ko.2 true 0 tmp]> m) m kos !! k = Some (mkEntry o true 0 tmp).
Proof.
  revert m. induction kos as [|[k' o'] kos IH]; intros m Hnd Hin; [set_solver|]. csimpl in *.
  apply NoDup_cons in Hnd as [Hk' Hnd]. apply elem_of_cons in Hin as [?|Hin]; simplify_eq.
  - rewrite foldl_insert_other by done. apply lookup_insert_eq.
  - by apply IH.
Qed.

Lemma none_results_lookup (keys : list ChunkKey) k :
  (list_to_map ((fun k => (k, None)) <$> keys) : gmap ChunkKey (option MemoryObj)) !! k
  = if decide (k ∈ keys) then Some None else None.
Proof.
  induction keys as [|k' keys IH].
  { by rewrite decide_False by apply not_elem_of_nil. }
  csimpl. rewrite lookup_insert, IH.
  destruct (decide (k ∈ keys)), (decide (k' = k)), (decide (k ∈ k' :: keys)); set_solver.
Qed.

(** ** What each operation does to the lock table *)

Section manager_specs.
Context {R O : Type} `{!Listener R O} (C : ChunkKey -> bytes).
Implicit Types (s : L1 R O).

Definition notified (ev : event) (keys : list ChunkKey) s : O :=
  foldl (fun o r => dispatch r ev keys o) (observers s) (listeners s).

(** Everything but allocator, entries and observers is left alone. *)
Definition same_frame s s' : Prop := pool_of s' = pool_of s /\ listeners s' = listeners s.

Lemma same_frame_refl s : same_frame s s.
Proof. done. Qed.
Lemma same_frame_trans s1 s2 s3 : same_frame s1 s2 -> same_frame s2 s3 -> same_frame s1 s3.
Proof. unfold same_frame. intuition congruence. Qed.

(** Rewriting an entry in place, without moving its slice. *)
Lemma l1_inv_put s W W' H H' k e e' :
  l1_inv C s W H -> entries s !! k = Some e -> entry_obj e' = entry_obj e ->
  (forall k', k' <> k -> W' !! k' = W !! k') ->
  (forall k', k' <> k -> multiplicity k' H' = multiplicity k' H) ->
  entry_ok C (pool_of s) k e' (W' !! k) (multiplicity k H') ->
  l1_inv C (set_entries (<[k := e']> (entries s)) s) W' H'.
Proof.
  intros [Ha Hl] Hk He HW HH Hok. split; simpl.
  - by rewrite (objs_of_update _ _ e).
  - by apply lock_inv_insert with W H.
Qed.

(** Returning a slice and dropping its entry. *)
Lemma l1_inv_drop s W H H' k e :
  l1_inv C s W H -> entries s !! k = Some e ->
  (forall k', k' <> k -> multiplicity k' H' = multiplicity k' H) ->
  multiplicity k H' = 0%nat ->
  exists a', free [entry_obj e] (allocator s) = (a', Ok tt) /\ pool a' = pool_of s /\
    l1_inv C (set_entries (delete k (entries s)) (set_allocator a' s)) (delete k W) H'.
Proof.
  intros [Ha Hl] Hk HH Hk'. rewrite (objs_of_delete _ _ _ Hk) in Ha.
  destruct (free_spec _ (objs_of (delete k (entries s))) [entry_obj e] Ha) as (a' & E & Hp & Ha').
  exists a'. split_and!; [done|done|]. split; [done|]. simpl. unfold pool_of. simpl.
  rewrite Hp. by apply lock_inv_delete with H.
Qed.

Lemma reserve_write_loop tmp kos result s W H :
  NoDup kos.*1 -> Forall (fun ko => entries s !! ko.1 = None) kos ->
  alloc_inv (allocator s) (kos.*2 ++ objs_of (entries s)) ->
  lock_inv C (pool_of s) (entries s) W H ->
  exists s', for_acc kos result (reserve_write_one tmp) s = (s', Ok (add_results kos result)) /\
    l1_inv C s' (add_writes tmp kos W) H /\ same_frame s s' /\ observers s' = observers s /\
    entries s' = foldl (fun m ko => <[ko.1 := mkEntry ko.2 true 0 tmp]> m) (entries s) kos.
Proof.
  revert result s W. induction kos as [|[k o] kos IH]; intros result s W Hnd Habs Ha Hl.
  { exists s. by split_and!. }
  csimpl in *. apply NoDup_cons in Hnd as [Hk Hnd]. apply Forall_cons in Habs as [Hkn Habs].
  destruct (IH (<[k := Some o]> result)
    (set_entries (<[k := mkEntry o true 0 tmp]> (entries s)) s) (<[k := (tmp, o)]> W))
    as (s' & E & Hinv & Hf & Ho & He).
  - done.
  - apply Forall_forall. intros [k' o'] Hin. rewrite Forall_forall in Habs. simpl.
    rewrite lookup_insert_ne; [by apply (Habs _ Hin)|]. intros ->. apply Hk.
    apply list_elem_of_fmap. by exists (k', o').
  - simpl. rewrite objs_of_insert by done. simpl. by rewrite <- Permutation_middle.
  - simpl in Hkn. destruct (lock_inv_absent _ _ _ _ _ _ Hl Hkn) as [HW HH].
    apply lock_inv_insert with W H; [done| |done|].
    + intros k' Hne. by rewrite lookup_insert_ne.
    + rewrite lookup_insert_eq, HH. by split_and!.
  - exists s'. split_and!; [|done|done|done|done].
    unfold bind at 1. unfold reserve_write_one at 1, bind, put_entry, modify, ret. simpl. exact E.
Qed.

Lemma reserve_write_spec s W H keys n tmp :
  l1_inv C s W H -> NoDup keys -> 0 <= n ->
  let missing := filter (fun k => entries s !! k = None) keys in
  exists s' r, reserve_write keys n tmp s = (s', Ok r) /\ same_frame s s' /\
    observers s' = observers s /\
    ((entries s' = entries s /\ l1_inv C s' W H /\
      (forall k, r !! k = if decide (k ∈ keys) then Some None else None) /\
      used_bytes (allocator s') = used_bytes (allocator s) /\
      (exists a', allocate (Zlen missing) n (allocator s) = (a', Ok None))) \/
     (exists kos, kos.*1 = missing /\ Forall (fun ko => obj_nbytes ko.2 = n) kos /\
        l1_inv C s' (add_writes tmp kos W) H /\
        (forall k o, (k, o) ∈ kos -> r !! k = Some (Some o)) /\
        (forall k, k ∈ keys -> k ∉ missing -> r !! k = Some None) /\
        entries s' = foldl (fun m ko => <[ko.1 := mkEntry ko.2 true 0 tmp]> m) (entries s) kos)).
Proof.
  intros [Ha Hl] Hnd Hn missing. unfold reserve_write, on_allocator, zoom.
  unfold bind at 1. unfold get at 1. unfold bind at 1. fold missing.
  destruct (allocate_spec (allocator s) _ (Zlen missing) n Ha Hn (Zlen_nonneg _))
    as (a' & r & E & Hp & Hr). rewrite E.
  assert (forall m, lock_inv C (pool a') m W H <-> lock_inv C (pool_of s) m W H) as Hpool
    by (intros; by rewrite Hp).
  destruct r as [objs|].
  - destruct Hr as (Hlen & Hsz & Ha').
    assert (length missing = length objs) as Hle by (unfold Zlen in Hlen; lia).
    assert ((zip missing objs).*1 = missing) as Hz1 by (apply fst_zip; lia).
    assert ((zip missing objs).*2 = objs) as Hz2 by (apply snd_zip; lia).
    destruct (reserve_write_loop tmp (zip missing objs)
      (list_to_map ((fun k => (k, None)) <$> keys)) (set_allocator a' s) W H)
      as (s' & E' & Hinv & Hf & Ho & He).
    + rewrite Hz1. by apply NoDup_filter.
    + apply Forall_forall. intros [k o] Hin. simpl.
      assert (k ∈ missing) as Hk by (rewrite <- Hz1; apply list_elem_of_fmap; by exists (k, o)).
      by apply list_elem_of_filter in Hk as [? _].
    + simpl. by rewrite Hz2.
    + by apply Hpool.
    + exists s', (add_results (zip missing objs) (list_to_map ((fun k => (k, None)) <$> keys))).
      split; [exact E'|]. split.
      { destruct Hf as [Hf1 Hf2]. split; [|done]. rewrite Hf1. unfold pool_of. simpl. done. }
      split; [done|]. right. exists (zip missing objs). split_and!; [done| |done| | |done].
      * apply Forall_forall. intros [k o] Hin. simpl. rewrite Forall_forall in Hsz. apply Hsz.
        rewrite <- Hz2. apply list_elem_of_fmap. by exists (k, o).
      * intros k o Hin. apply add_results_in; [|done]. rewrite Hz1. by apply NoDup_filter.
      * intros k Hk Hm. rewrite add_results_notin by (by rewrite Hz1).
        rewrite none_results_lookup. by rewrite decide_True.
  - destruct Hr as [Hu Ha']. eexists (set_allocator a' s), _. split; [reflexivity|].
    split; [split; [exact Hp|done]|]. split; [done|]. left.
    split_and!; [done|split; [done|by apply Hpool]| |done|by eexists].
    intros k. apply none_results_lookup.
Qed.
End manager_specs.

(** ** Batches of per-key updates

    Every operation other than [reserve_write] changes each entry it names
    independently of the others; [update_keys f keys] applies [f] to them. *)

Definition update_keys (f : option Entry -> option Entry) (keys : list ChunkKey)
    (m : gmap ChunkKey Entry) : gmap ChunkKey Entry :=
  foldl (fun m k => partial_alter f k m) m keys.

Lemma update_keys_lookup f keys m k :
  NoDup keys ->
  update_keys f keys m !! k = if decide (k ∈ keys) then f (m !! k) else m !! k.
Proof.
  intros Hnd. revert m. induction Hnd as [|k' keys Hk' _ IH]; intros m.
  { by rewrite decide_False by apply not_elem_of_nil. }
  unfold update_keys in *. simpl. rewrite IH. destruct (decide (k = k')) as [->|Hne].
  - rewrite decide_False, decide_True by set_solver. apply lookup_partial_alter_eq.
  - rewrite lookup_partial_alter_ne by done.
    destruct (decide (k ∈ keys)), (decide (k ∈ k' :: keys)); set_solver.
Qed.

Lemma update_keys_app f ks ks' m : update_keys f (ks ++ ks') m = update_keys f ks' (update_keys f ks m).
Proof. apply foldl_app. Qed.

(** The updates of the manager. *)
Definition upd_written (me : option Entry) : option Entry := set_write_locked false <$> me.
Definition upd_written_held (me : option Entry) : option Entry :=
  (fun e => add_read_count 1 (set_write_locked false e)) <$> me.
Definition upd_hold (me : option Entry) : option Entry :=
  (fun e => if readable e then add_read_count 1 e else e) <$> me.
Definition upd_release (me : option Entry) : option Entry :=
  match me with
  | Some e =>
      if (read_count e - 1 =? 0) && is_temporary e then None else Some (add_read_count (-1) e)
  | None => None
  end.
Definition upd_promote (me : option Entry) : option Entry := set_temporary false <$> me.
Definition upd_delete (force : bool) (me : option Entry) : option Entry :=
  match me with
  | Some e => if negb (unlocked e) && negb force then Some e else None
  | None => None
  end.

Lemma objs_of_fmap m : objs_of m ≡ₚ (map_to_list (entry_obj <$> m)).*2.
Proof.
  rewrite map_to_list_fmap. unfold objs_of. rewrite <- list_fmap_compose.
  induction (map_to_list m) as [|p l IH]; [done|]. csimpl. by rewrite IH.
Qed.

Lemma objs_of_same m m' :
  (forall k, entry_obj <$> m' !! k = entry_obj <$> m !! k) -> objs_of m' ≡ₚ objs_of m.
Proof.
  intros Hs. rewrite !objs_of_fmap.
  replace (entry_obj <$> m') with (entry_obj <$> m); [done|].
  apply map_eq. intros k. by rewrite !lookup_fmap, Hs.
Qed.

Lemma objs_of_update_keys f keys m :
  NoDup keys -> (forall me, entry_obj <$> f me = entry_obj <$> me) ->
  objs_of (update_keys f keys m) ≡ₚ objs_of m.
Proof.
  intros Hnd Hf. apply objs_of_same. intros k. rewrite update_keys_lookup by done.
  by case_decide.
Qed.

Lemma multiplicity_holds_of keys k :
  NoDup keys -> multiplicity k (holds_of keys) = if decide (k ∈ keys) then 1%nat else 0%nat.
Proof.
  induction 1 as [|k' keys Hk' _ IH].
  { by rewrite decide_False by apply not_elem_of_nil. }
  rewrite holds_of_cons, mult_add, IH.
  destruct (decide (k = k')), (decide (k ∈ keys)), (decide (k ∈ k' :: keys)); set_solver.
Qed.

Lemma insert_as_alter (f : option Entry -> option Entry) k e m :
  f (m !! k) = Some e -> <[k := e]> m = partial_alter f k m.
Proof.
  intros Hf. apply map_eq. intros k'. rewrite lookup_insert, lookup_partial_alter.
  destruct (decide (k = k')) as [<-|]; done.
Qed.

Lemma delete_as_alter (f : option Entry -> option Entry) k m :
  f (m !! k) = None -> delete k m = partial_alter f k m.
Proof.
  intros Hf. apply map_eq. intros k'. rewrite lookup_delete, lookup_partial_alter.
  destruct (decide (k = k')) as [<-|]; done.
Qed.

Lemma alter_noop (f : option Entry -> option Entry) k m :
  f (m !! k) = m !! k -> partial_alter f k m = m.
Proof.
  intros Hf. apply map_eq. intros k'. rewrite lookup_partial_alter.
  destruct (decide (k = k')) as [<-|]; done.
Qed.

Section manager_loops.
Context {R O : Type} `{!Listener R O}.
Implicit Types (s : L1 R O).

Lemma put_at (f : Entry -> Entry) k s :
  is_Some (entries s !! k) ->
  bind (entry_at k) (fun e => put_entry k (f e)) s
  = (set_entries (partial_alter (fmap f) k (entries s)) s, Ok tt).
Proof.
  intros [e He]. unfold bind, entry_at, put_entry, modify. rewrite He. simpl. do 2 f_equal.
  apply insert_as_alter. by rewrite He.
Qed.

Lemma update_loop (f : Entry -> Entry) keys s :
  (forall k, k ∈ keys -> is_Some (entries s !! k)) ->
  for_each keys (fun key => bind (entry_at key) (fun e => put_entry key (f e))) s
  = (set_entries (update_keys (fmap f) keys (entries s)) s, Ok tt).
Proof.
  revert s. induction keys as [|k keys IH]; intros s Hks; [by destruct s|].
  simpl. unfold bind at 1. rewrite put_at by (apply Hks; set_solver).
  rewrite IH; [done|]. intros k' Hk'. simpl. rewrite lookup_partial_alter.
  assert (is_Some (entries s !! k')) by (apply Hks; set_solver).
  case_decide as E; [rewrite E; by apply fmap_is_Some|done].
Qed.
End manager_loops.

(** The test of [reserve_read_prefix] and its loop. *)
Definition key_readable (m : gmap ChunkKey Entry) (k : ChunkKey) : bool :=
  match m !! k with Some e => readable e | None => false end.

Lemma count_readable_prefix m keys n :
  count_readable m keys n = (n + prefix_count (key_readable m) keys)%nat.
Proof.
  revert n. induction keys as [|k keys IH]; intros n; simpl; [lia|]. unfold key_readable at 1.
  destruct (m !! k) as [e|]; [|lia]. destruct (readable e); [rewrite IH|]; lia.
Qed.

Lemma key_readable_true m k :
  key_readable m k = true <-> ready m k.
Proof.
  unfold key_readable, ready, readable. destruct (m !! k) as [e|]; [|naive_solver].
  rewrite negb_true_iff. naive_solver.
Qed.

Lemma mult_sub_holds keys H k : NoDup keys ->
  multiplicity k (H ∖ holds_of keys) =
    (multiplicity k H - if decide (k ∈ keys) then 1 else 0)%nat.
Proof. intros Hnd. by rewrite multiplicity_difference, multiplicity_holds_of. Qed.

Section manager_ops.
Context {R O : Type} `{!Listener R O} (C : ChunkKey -> bytes).
Implicit Types (s : L1 R O).

(** A batch of updates that neither moves nor drops a slice. *)
Lemma l1_inv_update f keys s W W' H H' :
  l1_inv C s W H -> NoDup keys -> (forall me, entry_obj <$> f me = entry_obj <$> me) ->
  (forall k, k ∉ keys -> W' !! k = W !! k /\ multiplicity k H' = multiplicity k H) ->
  (forall k, k ∈ keys ->
     key_ok C (pool_of s) k (f (entries s !! k)) (W' !! k) (multiplicity k H')) ->
  l1_inv C (set_entries (update_keys f keys (entries s)) s) W' H'.
Proof.
  intros [Ha Hl] Hnd Hf Hout Hin. split; simpl.
  - by rewrite objs_of_update_keys.
  - intros k. rewrite update_keys_lookup by done. destruct (decide (k ∈ keys)) as [Hk|Hk].
    + by apply Hin.
    + destruct (Hout k Hk) as [-> ->]. apply Hl.
Qed.

Lemma finish_write_spec s W H keys :
  l1_inv C s W H -> NoDup keys ->
  (forall k, k ∈ keys ->
     exists tmp obj, W !! k = Some (tmp, obj) /\ byte_array obj (pool_of s) = C k /\
       forall e, entries s !! k = Some e -> is_temporary e = false) ->
  exists s', finish_write keys s = (s', Ok tt) /\ same_frame s s' /\
    l1_inv C s' (del_writes keys W) H /\
    entries s' = update_keys upd_written keys (entries s) /\
    observers s' = notified on_write_finished keys
                     (set_observers (notified on_created keys s) s).
Proof.
  intros [Ha Hl] Hnd Hks. unfold finish_write. unfold bind at 1.
  rewrite update_loop.
  2: { intros k Hk. destruct (Hks k Hk) as (tmp & obj & HW & _).
       destruct (lock_inv_written _ _ _ _ _ _ _ _ Hl HW) as (e & -> & _). eauto. }
  unfold notify, bind, modify. eexists. split; [reflexivity|]. simpl.
  split; [done|]. split; [|done].
  apply (l1_inv_update upd_written keys s W _ H); [by split|done|by intros []| |].
  - intros k Hk. by rewrite del_writes_lookup, decide_False.
  - intros k Hk. destruct (Hks k Hk) as (tmp & obj & HW & Hb & Ht).
    destruct (lock_inv_written _ _ _ _ _ _ _ _ Hl HW) as (e & He & Hw & Hr & Ho & HH & _).
    rewrite He, del_writes_lookup, decide_True by done. simpl. rewrite HH.
    split; simpl; [lia|]. rewrite Ho, (Ht e He). by split_and!.
Qed.

(** Filling a slice one is writing: every other entry keeps its bytes. *)
Lemma assign_obj_spec s W H k tmp obj data :
  l1_inv C s W H -> W !! k = Some (tmp, obj) -> length data = v_len (mo_tensor obj) ->
  exists s', assign_obj obj data s = (s', Ok tt) /\ l1_inv C s' W H /\
    listeners s' = listeners s /\ observers s' = observers s /\ entries s' = entries s /\
    Zlen (pool_of s') = Zlen (pool_of s) /\ byte_array obj (pool_of s') = data /\
    (forall k' e', k' <> k -> entries s !! k' = Some e' ->
       byte_array (entry_obj e') (pool_of s') = byte_array (entry_obj e') (pool_of s)).
Proof.
  intros [Ha Hl] HW Hd.
  destruct (lock_inv_written _ _ _ _ _ _ _ _ Hl HW) as (e & He & Hw & Hr & Ho & HH & Ht).
  unfold assign_obj, on_allocator, zoom, byte_array_assign. rewrite decide_True by done.
  pose proof (objs_of_delete _ _ _ He) as Hobjs. rewrite Ho in Hobjs.
  assert (Ha1 := Ha). rewrite Hobjs in Ha1.
  assert (forall o, o ∈ objs_of (entries s) -> view_ok o /\
            (v_start (mo_tensor o) + v_len (mo_tensor o) <= length (pool_of s))%nat) as Hin.
  { intros o Hin. pose proof (inv_views _ _ Ha) as Hv. rewrite Forall_forall in Hv.
    destruct (alloc_inv_bounds _ _ _ Ha Hin) as [Hb1 Hb2]. destruct (Hv o Hin) as [H1 H2].
    split; [by split|]. rewrite H2. unfold capacity, Zlen, obj_nbytes, pool_of in *. lia. }
  destruct (Hin obj) as [Hvo Hbo]; [rewrite Hobjs; set_solver|].
  assert (length (view_write (mo_tensor obj) data (pool_of s)) = length (pool_of s)) as Hlen
    by (apply view_write_length; lia).
  assert (forall k' e', k' <> k -> entries s !! k' = Some e' ->
       byte_array (entry_obj e') (view_write (mo_tensor obj) data (pool_of s)) =
       byte_array (entry_obj e') (pool_of s)) as Hother.
  { intros k' e' Hne He'. apply view_read_write_ne; [done|done|].
    apply obj_disjoint_views; [done|apply Hin, elem_of_objs_of; eauto|].
    rewrite (objs_of_delete (delete k (entries s)) k' e') in Ha1
      by by rewrite lookup_delete_ne.
    by apply (live_disjoint_lookup _ _ 0 1 _ _ Ha1). }
  eexists. split; [reflexivity|]. unfold pool_of in *. simpl.
  split_and!; [|done|done|done|by unfold Zlen; rewrite Hlen|by apply view_read_write|exact Hother].
  split; simpl.
  - apply alloc_inv_set_pool; [|done]. unfold Zlen, capacity, Zlen. by rewrite Hlen.
  - intros k'. specialize (Hl k'). unfold pool_of in *. simpl.
    destruct (entries s !! k') as [e'|] eqn:He'; [|done]. destruct Hl as [Hc Hok].
    split; [done|]. destruct (W !! k') as [[tmp' obj']|] eqn:HW'; [done|].
    rewrite (Hother k' e'); [done| |done]. congruence.
Qed.

Lemma finish_write_and_reserve_read_spec s W H keys :
  l1_inv C s W H -> NoDup keys ->
  (forall k, k ∈ keys ->
     exists tmp obj, W !! k = Some (tmp, obj) /\ byte_array obj (pool_of s) = C k) ->
  exists s', finish_write_and_reserve_read keys s = (s', Ok tt) /\ same_frame s s' /\
    l1_inv C s' (del_writes keys W) (H ⊎ holds_of keys) /\
    entries s' = update_keys upd_written_held keys (entries s) /\
    observers s' = notified on_created keys s.
Proof.
  intros [Ha Hl] Hnd Hks. unfold finish_write_and_reserve_read. unfold bind at 1.
  rewrite (update_loop (fun e => add_read_count 1 (set_write_locked false e))).
  2: { intros k Hk. destruct (Hks k Hk) as (tmp & obj & HW & _).
       destruct (lock_inv_written _ _ _ _ _ _ _ _ Hl HW) as (e & -> & _). eauto. }
  unfold notify, modify. eexists. split; [reflexivity|]. simpl.
  split; [done|]. split; [|done].
  apply (l1_inv_update upd_written_held keys s W _ H); [by split|done|by intros []| |].
  - intros k Hk. rewrite del_writes_lookup, decide_False by done.
    rewrite multiplicity_disj_union, multiplicity_holds_of, decide_False by done. split; [done|lia].
  - intros k Hk. destruct (Hks k Hk) as (tmp & obj & HW & Hb).
    destruct (lock_inv_written _ _ _ _ _ _ _ _ Hl HW) as (e & He & Hw & Hr & Ho & HH & Ht).
    rewrite He, del_writes_lookup, decide_True by done.
    rewrite multiplicity_disj_union, multiplicity_holds_of, decide_True, HH by done. simpl.
    split; simpl; [lia|]. rewrite Ho. split_and!; [done|done|]. lia.
Qed.

Lemma reserve_read_prefix_spec s W H keys :
  l1_inv C s W H -> NoDup keys ->
  let hit := prefix_count (key_readable (entries s)) keys in
  exists s', reserve_read_prefix keys s = (s', Ok hit) /\ same_frame s s' /\
    l1_inv C s' W (H ⊎ holds_of (take hit keys)) /\
    entries s' = update_keys (fmap (add_read_count 1)) (take hit keys) (entries s) /\
    observers s' = observers s.
Proof.
  intros [Ha Hl] Hnd hit. unfold reserve_read_prefix, get. unfold bind at 1.
  rewrite count_readable_prefix, Nat.add_0_l. fold hit. unfold bind at 1.
  assert (forall k, k ∈ take hit keys -> ready (entries s) k) as Hready.
  { intros k Hk. apply key_readable_true. pose proof (prefix_count_take (key_readable (entries s)) keys) as Hp.
    rewrite Forall_forall in Hp. by apply Hp. }
  assert (NoDup (take hit keys)) as Hnd' by by apply NoDup_take.
  rewrite (update_loop (add_read_count 1)).
  2: { intros k Hk. destruct (Hready k Hk) as (e & -> & _). eauto. }
  eexists. split; [reflexivity|]. split; [done|]. split; [|done].
  apply (l1_inv_update _ _ s W _ H); [by split|done|by intros []| |].
  - intros k Hk. rewrite multiplicity_disj_union, multiplicity_holds_of, decide_False by done.
    split; [done|lia].
  - intros k Hk. destruct (Hready k Hk) as (e & He & Hw). pose proof (Hl k) as Hok.
    rewrite He in *. destruct Hok as [Hr Hok].
    destruct (W !! k) as [[tmp obj]|]; [by destruct Hok as (? & _); congruence|].
    rewrite multiplicity_disj_union, multiplicity_holds_of, decide_True by done. simpl.
    split; simpl; [lia|]. destruct Hok as (? & ? & ?). split_and!; [done|done|lia].
Qed.
End manager_ops.

(** What [reserve_read] reports for one key. *)
Definition read_view (me : option Entry) : option MemoryObj :=
  match me with
  | Some e => if readable e then Some (entry_obj e) else None
  | None => None
  end.

(** The two ways an operation makes entries disappear. *)
Definition gone (f : option Entry -> option Entry) m (keys : list ChunkKey) : list ChunkKey :=
  filter (fun k => f (m !! k) = None) keys.
Definition kept (f : option Entry -> option Entry) m (keys : list ChunkKey) : list ChunkKey :=
  filter (fun k => f (m !! k) <> None) keys.

Section manager_reads.
Context {R O : Type} `{!Listener R O} (C : ChunkKey -> bytes).
Implicit Types (s : L1 R O).

Lemma reserve_read_loop s keys result :
  NoDup keys ->
  exists r, for_acc keys result reserve_read_one s
    = (set_entries (update_keys upd_hold keys (entries s)) s, Ok r) /\
    (forall k, r !! k = if decide (k ∈ keys) then Some (read_view (entries s !! k))
                        else result !! k).
Proof.
  intros Hnd. revert s result. induction Hnd as [|k keys Hk _ IH]; intros s result.
  { exists result. split; [by destruct s|]. intros k.
    by rewrite decide_False by apply not_elem_of_nil. }
  set (s1 := set_entries (partial_alter upd_hold k (entries s)) s).
  set (r1 := <[k := read_view (entries s !! k)]> result).
  assert (reserve_read_one result k s = (s1, Ok r1)) as E.
  { unfold reserve_read_one, get, bind, put_entry, modify, ret, s1, r1, read_view.
    destruct (entries s !! k) as [e|] eqn:He; [destruct (readable e) eqn:Hr|].
    - do 2 f_equal. apply insert_as_alter. by rewrite He; simpl; rewrite Hr.
    - f_equal. rewrite alter_noop; [by destruct s|]. by rewrite He; simpl; rewrite Hr.
    - f_equal. rewrite alter_noop; [by destruct s|]. by rewrite He. }
  destruct (IH s1 r1) as (r & Er & Hr). exists r. simpl. unfold bind at 1. rewrite E. split; [exact Er|].
  intros k'. rewrite Hr. unfold s1, r1. simpl. rewrite lookup_partial_alter, lookup_insert.
  destruct (decide (k' ∈ keys)), (decide (k = k')), (decide (k' ∈ k :: keys)); set_solver.
Qed.

Lemma key_ok_hold p k me w h :
  key_ok C p k me w h ->
  key_ok C p k (upd_hold me) w (h + if read_view me then 1 else 0).
Proof.
  destruct me as [e|]; simpl; [|intros [-> ->]; done]. intros [Hr Hok].
  unfold readable. destruct w as [[tmp obj]|].
  - destruct Hok as (Hw & -> & ? & ?). rewrite Hw. simpl. by split_and!.
  - destruct Hok as (Hw & ? & ?). rewrite Hw. simpl. split; simpl; [lia|].
    split_and!; [done|done|lia].
Qed.

Lemma reserve_read_spec s W H keys :
  l1_inv C s W H -> NoDup keys ->
  exists s' r, reserve_read keys s = (s', Ok r) /\ same_frame s s' /\
    (forall k, r !! k = if decide (k ∈ keys) then Some (read_view (entries s !! k)) else None) /\
    l1_inv C s' W (H ⊎ holds_of (filter (fun k => is_Some (read_view (entries s !! k))) keys)) /\
    entries s' = update_keys upd_hold keys (entries s) /\ observers s' = observers s.
Proof.
  intros [Ha Hl] Hnd. destruct (reserve_read_loop s keys ∅ Hnd) as (r & E & Hr).
  eexists _, r. split; [exact E|]. split; [done|]. split.
  { intros k. rewrite Hr. case_decide; [done|apply lookup_empty]. }
  split; [|done].
  apply (l1_inv_update C _ _ s W _ H); [by split|done| | |].
  - intros [e|]; [|done]. simpl. by destruct (readable e).
  - intros k Hk. rewrite multiplicity_disj_union, multiplicity_holds_of by by apply NoDup_filter.
    rewrite decide_False; [split; [done|lia]|]. rewrite list_elem_of_filter. naive_solver.
  - intros k Hk. rewrite multiplicity_disj_union, multiplicity_holds_of by by apply NoDup_filter.
    replace (if decide _ then 1%nat else 0%nat)
      with (if read_view (entries s !! k) then 1%nat else 0%nat);
      [apply key_ok_hold, Hl|].
    destruct (read_view (entries s !! k)) as [o|] eqn:Ev.
    + rewrite decide_True; [done|]. apply list_elem_of_filter. rewrite Ev. eauto.
    + rewrite decide_False; [done|]. rewrite list_elem_of_filter, Ev. by intros [[? ?] _].
Qed.

Lemma read_spec s keys :
  (forall k, k ∈ keys -> is_Some (entries s !! k)) ->
  exists objs, read keys s = (s, Ok objs) /\
    Forall2 (fun k o => exists e, entries s !! k = Some e /\ entry_obj e = o) keys objs.
Proof.
  intros Hks. unfold read. enough (forall acc, exists objs,
    for_acc keys acc (fun objs key => bind (entry_at key) (fun e => ret (objs ++ [entry_obj e]))) s
      = (s, Ok (acc ++ objs)) /\
    Forall2 (fun k o => exists e, entries s !! k = Some e /\ entry_obj e = o) keys objs) as Hg
    by apply (Hg []).
  induction keys as [|k keys IH]; intros acc.
  { exists []. rewrite app_nil_r. by split. }
  destruct (Hks k) as [e He]; [set_solver|].
  destruct (IH ltac:(set_solver) (acc ++ [entry_obj e])) as (objs & E & Hf).
  exists (entry_obj e :: objs). simpl. unfold bind at 1 2, entry_at at 1. rewrite He. simpl.
  rewrite E, <- app_assoc. split; [done|]. constructor; eauto.
Qed.

Lemma read_pure s s' keys r : read keys s = (s', r) -> s' = s.
Proof.
  unfold read. enough (forall acc,
    for_acc keys acc (fun objs key => bind (entry_at key) (fun e => ret (objs ++ [entry_obj e]))) s
      = (s', r) -> s' = s) as Hg by apply Hg.
  induction keys as [|k keys IH]; intros acc; simpl; [by intros [= <- _]|].
  unfold bind at 1 2, entry_at at 1. destruct (entries s !! k); [apply IH|by intros [= <- _]].
Qed.

Lemma read_missing s keys k :
  k ∈ keys -> entries s !! k = None -> read keys s = (s, Raise KeyError).
Proof.
  intros Hin Hk. unfold read. enough (forall acc,
    for_acc keys acc (fun objs key => bind (entry_at key) (fun e => ret (objs ++ [entry_obj e]))) s
      = (s, Raise KeyError)) as Hg by apply Hg.
  induction keys as [|k' keys IH]; intros acc; [set_solver|].
  simpl. unfold bind at 1 2, entry_at at 1.
  destruct (entries s !! k') as [e|] eqn:He; [|done]. apply IH.
  apply elem_of_cons in Hin as [->|?]; [congruence|done].
Qed.

Lemma promote_total s keys : exists s', promote keys s = (s', Ok tt).
Proof.
  unfold promote. revert s. induction keys as [|k keys IH]; intros s; [by eexists|]. simpl. unfold bind at 1.
  unfold get at 1. unfold bind at 1. destruct (entries s !! k); simpl; apply IH.
Qed.

Lemma promote_spec s W H keys :
  l1_inv C s W H -> NoDup keys ->
  exists s', promote keys s = (s', Ok tt) /\ same_frame s s' /\ l1_inv C s' W H /\
    entries s' = update_keys upd_promote keys (entries s) /\ observers s' = observers s.
Proof.
  intros [Ha Hl] Hnd. exists (set_entries (update_keys upd_promote keys (entries s)) s).
  split; [|split; [done|split; [|done]]].
  - clear Ha Hl Hnd. unfold promote. revert s. induction keys as [|k keys IH]; intros s; [by destruct s|].
    simpl. unfold bind at 1. unfold get at 1. unfold bind at 1.
    destruct (entries s !! k) as [e|] eqn:He; simpl.
    + rewrite IH. unfold update_keys. simpl.
      by rewrite (insert_as_alter upd_promote k) by by rewrite He.
    + rewrite IH. unfold update_keys. simpl. by rewrite alter_noop by by rewrite He.
  - apply (l1_inv_update C _ _ s W _ H); [by split|done|by intros []|done|].
    intros k _. specialize (Hl k). destruct (entries s !! k) as [e|]; [|done].
    destruct Hl as [? Hw]. split; [done|]. destruct (W !! k) as [[tmp obj]|]; naive_solver.
Qed.
End manager_reads.

Lemma filter_alter_ext (P : option Entry -> Prop) `{!forall x, Decision (P x)} f k m
    (keys : list ChunkKey) :
  k ∉ keys ->
  filter (fun k' => P (partial_alter f k m !! k')) keys = filter (fun k' => P (m !! k')) keys.
Proof.
  intros Hk. induction keys as [|k' keys IH]; [done|].
  rewrite !filter_cons, lookup_partial_alter_ne by set_solver.
  rewrite IH by set_solver. done.
Qed.

Section manager_releases.
Context {R O : Type} `{!Listener R O} (C : ChunkKey -> bytes).
Implicit Types (s : L1 R O).

(** One released hold: the entry survives with one hold less or is freed. *)
Lemma finish_read_one_spec acc s W H k :
  l1_inv C s W H -> k ∈ H ->
  exists s', finish_read_one acc k s
      = (s', Ok (acc.1 ++ gone upd_release (entries s) [k],
                 acc.2 ++ kept upd_release (entries s) [k])) /\
    same_frame s s' /\ l1_inv C s' W (H ∖ {[+ k +]}) /\ observers s' = observers s /\
    entries s' = partial_alter upd_release k (entries s).
Proof.
  intros Hinv Hk. pose proof Hinv as [Ha Hl].
  destruct (lock_inv_held _ _ _ _ _ _ Hl Hk) as (e & He & HW & Hw & Hr & Hpos).
  unfold finish_read_one. unfold bind at 1, entry_at. rewrite He.
  unfold bind at 1, put_entry, modify.
  replace (read_count (add_read_count (-1) e)) with (read_count e - 1) by done.
  unfold gone, kept. rewrite !filter_cons, !filter_nil, He. simpl.
  assert (forall k', k' <> k -> multiplicity k' (H ∖ {[+ k +]}) = multiplicity k' H) as Hother.
  { intros k' Hne. rewrite mult_sub, decide_False by done. lia. }
  assert (multiplicity k (H ∖ {[+ k +]}) = multiplicity k H - 1)%nat as Hself.
  { by rewrite mult_sub, decide_True. }
  destruct ((read_count e - 1 =? 0) && is_temporary e) eqn:Eg.
  - apply andb_true_iff in Eg as [Ez Et].
    destruct (l1_inv_drop C s W H (H ∖ {[+ k +]}) k e Hinv He Hother ltac:(lia))
      as (a' & Ef & Hp & Hinv').
    unfold bind at 1, on_allocator, zoom. simpl. rewrite Ef.
    unfold bind, del_entry, modify. simpl.
    eexists. split; [rewrite app_nil_r; reflexivity|]. simpl.
    rewrite delete_insert_eq. split; [split; [exact Hp|done]|].
    rewrite (delete_id W) in Hinv' by done. split; [exact Hinv'|]. split; [done|].
    apply delete_as_alter. rewrite He. simpl. by rewrite Ez, Et.
  - unfold ret. eexists. split; [rewrite app_nil_r; reflexivity|]. split; [done|].
    split; [|split; [done|]].
    + apply (l1_inv_put C s W W H _ k e); [done|done|done|done|done|].
      rewrite HW. split; [simpl; lia|]. pose proof (Hl k) as Hok. rewrite He, HW in Hok.
      destruct Hok as (_ & _ & Hb & _). split_and!; [done|done|]. simpl. intros Ht.
      rewrite Ht, andb_true_r in Eg. lia.
    + apply insert_as_alter. rewrite He. simpl. by rewrite Eg.
Qed.

Lemma gone_kept_cons (f : option Entry -> option Entry) k (keys : list ChunkKey) m :
  k ∉ keys ->
  gone f m (k :: keys) = gone f m [k] ++ gone f (partial_alter f k m) keys /\
  kept f m (k :: keys) = kept f m [k] ++ kept f (partial_alter f k m) keys.
Proof.
  intros Hk. unfold gone, kept.
  pose proof (filter_alter_ext (fun x => f x = None) f k m keys Hk) as H1.
  pose proof (filter_alter_ext (fun x => f x <> None) f k m keys Hk) as H2.
  split.
  - etrans; [|apply (f_equal (app _) (eq_sym H1))]. by rewrite <- filter_app.
  - etrans; [|apply (f_equal (app _) (eq_sym H2))]. by rewrite <- filter_app.
Qed.

Lemma finish_read_loop acc s W H keys :
  l1_inv C s W H -> NoDup keys -> (forall k, k ∈ keys -> k ∈ H) ->
  exists s', for_acc keys acc finish_read_one s
      = (s', Ok (acc.1 ++ gone upd_release (entries s) keys,
                 acc.2 ++ kept upd_release (entries s) keys)) /\
    same_frame s s' /\ l1_inv C s' W (H ∖ holds_of keys) /\ observers s' = observers s /\
    entries s' = update_keys upd_release keys (entries s).
Proof.
  intros Hinv Hnd. revert acc s H Hinv.
  induction Hnd as [|k keys Hk _ IH]; intros acc s H Hinv Hks.
  { exists s. simpl. rewrite !app_nil_r. destruct acc. split_and!; [done|done| |done|done].
    replace (H ∖ holds_of []) with H; [done|]. unfold holds_of. simpl. multiset_solver. }
  destruct (finish_read_one_spec acc s W H k Hinv ltac:(set_solver))
    as (s1 & E1 & Hf1 & Hinv1 & Ho1 & He1).
  destruct (IH (acc.1 ++ gone upd_release (entries s) [k], acc.2 ++ kept upd_release (entries s) [k])
               s1 (H ∖ {[+ k +]}) Hinv1) as (s2 & E2 & Hf2 & Hinv2 & Ho2 & He2).
  { intros k' Hk'. rewrite elem_of_multiplicity, mult_sub, decide_False by set_solver.
    assert (k' ∈ H) as Hin by set_solver. rewrite elem_of_multiplicity in Hin. lia. }
  exists s2. simpl. unfold bind at 1. rewrite E1, E2, He1. simpl.
  destruct (gone_kept_cons upd_release k keys (entries s) Hk) as [-> ->].
  rewrite !app_assoc. split; [done|]. split; [by eapply same_frame_trans|].
  split; [|split; [congruence|by rewrite He2, He1]].
  replace (H ∖ holds_of (k :: keys)) with (H ∖ {[+ k +]} ∖ holds_of keys); [done|].
  rewrite holds_of_cons. multiset_solver.
Qed.

Definition notify_nonempty (ev : event) (keys : list ChunkKey) s : L1 R O :=
  if keys is [] then s else set_observers (notified ev keys s) s.

Lemma notify_nonempty_run ev keys s :
  (if keys is [] then ret tt else notify ev keys) s = (notify_nonempty ev keys s, Ok tt).
Proof. by destruct keys. Qed.

Lemma notify_nonempty_frame ev keys s : same_frame s (notify_nonempty ev keys s).
Proof. by destruct keys. Qed.

Lemma notify_nonempty_inv ev keys s W H :
  l1_inv C s W H -> l1_inv C (notify_nonempty ev keys s) W H.
Proof. by destruct keys. Qed.

Lemma notify_nonempty_entries ev keys s : entries (notify_nonempty ev keys s) = entries s.
Proof. by destruct keys. Qed.

(** The observers after [touched] and [removed] announcements. *)
Definition announced touched removed s : O :=
  observers (notify_nonempty on_removed removed (notify_nonempty on_touched touched s)).

Lemma announced_ext touched removed s s' :
  observers s' = observers s -> listeners s' = listeners s ->
  announced touched removed s' = announced touched removed s.
Proof.
  intros Ho Hl. unfold announced, notify_nonempty, notified.
  destruct touched, removed; simpl; by rewrite ?Ho, ?Hl.
Qed.

Lemma finish_read_spec s W H keys :
  l1_inv C s W H -> NoDup keys -> (forall k, k ∈ keys -> k ∈ H) ->
  exists s', finish_read keys s = (s', Ok tt) /\ same_frame s s' /\
    l1_inv C s' W (H ∖ holds_of keys) /\
    entries s' = update_keys upd_release keys (entries s) /\
    observers s' = announced (kept upd_release (entries s) keys)
                             (gone upd_release (entries s) keys) s.
Proof.
  intros Hinv Hnd Hks.
  destruct (finish_read_loop ([], []) s W H keys Hinv Hnd Hks) as (s1 & E & Hf & Hinv1 & Ho & He).
  unfold finish_read. unfold bind at 1. rewrite E. simpl. unfold bind at 1.
  rewrite (notify_nonempty_run on_touched), (notify_nonempty_run on_removed).
  eexists. split; [reflexivity|]. split; [|split; [|split]].
  - eapply same_frame_trans; [exact Hf|]. eapply same_frame_trans; apply notify_nonempty_frame.
  - by do 2 apply notify_nonempty_inv.
  - by rewrite !notify_nonempty_entries.
  - apply announced_ext; [done|apply Hf].
Qed.
End manager_releases.

Definition dropped (f : option Entry -> option Entry) m (keys : list ChunkKey) : list ChunkKey :=
  filter (fun k => is_Some (m !! k) /\ f (m !! k) = None) keys.

Lemma dropped_cons (f : option Entry -> option Entry) k (keys : list ChunkKey) m :
  k ∉ keys ->
  dropped f m (k :: keys) = dropped f m [k] ++ dropped f (partial_alter f k m) keys.
Proof.
  intros Hk. unfold dropped.
  pose proof (filter_alter_ext (fun x => is_Some x /\ f x = None) f k m keys Hk) as H1.
  etrans; [|apply (f_equal (app _) (eq_sym H1))]. by rewrite <- filter_app.
Qed.

Section manager_deletes.
Context {R O : Type} `{!Listener R O} (C : ChunkKey -> bytes).
Implicit Types (s : L1 R O).

(** An entry a deletion removes: nobody holds or writes it, or the caller
    forces the removal of a chunk it is itself writing. *)
Definition may_delete (force : bool) W m k : Prop :=
  forall e, m !! k = Some e -> unlocked e = false -> force = true -> is_Some (W !! k).

Definition table_after (force : bool) (keys : list ChunkKey) W : write_table :=
  if force then del_writes keys W else W.

Lemma lock_inv_unlocked p m W H k e :
  lock_inv C p m W H -> m !! k = Some e -> unlocked e = true ->
  W !! k = None /\ multiplicity k H = 0%nat.
Proof.
  intros Hl Hk [Hw Hr]%andb_true_iff. specialize (Hl k). rewrite Hk in Hl. destruct Hl as [Hc Hok].
  destruct (W !! k) as [[tmp obj]|]; [destruct Hok as (Hx & _); by rewrite Hx in Hw|].
  split; [done|lia].
Qed.

Lemma delete_one_spec force deleted s W H k :
  l1_inv C s W H -> may_delete force W (entries s) k ->
  exists s', delete_one force deleted k s
      = (s', Ok (deleted ++ dropped (upd_delete force) (entries s) [k])) /\
    same_frame s s' /\ l1_inv C s' (table_after force [k] W) H /\ observers s' = observers s /\
    entries s' = partial_alter (upd_delete force) k (entries s).
Proof.
  intros Hinv Hmay. pose proof Hinv as [Ha Hl].
  unfold delete_one, get. unfold bind at 1. unfold dropped. rewrite filter_cons, filter_nil.
  destruct (entries s !! k) as [e|] eqn:He.
  2: { rewrite decide_False by (intros [[? ?] _]; done). exists s. rewrite app_nil_r.
       split_and!; [done|done| |done|by rewrite alter_noop by by rewrite He].
       unfold table_after. destruct force; [|done].
       destruct (lock_inv_absent _ _ _ _ _ _ Hl He) as [HW _]. simpl. by rewrite delete_id. }
  simpl. destruct (negb (unlocked e) && negb force) eqn:Eb.
  { rewrite decide_False by (intros [_ ?]; done). exists s. rewrite app_nil_r.
    split_and!; [done|done| |done|].
    - unfold table_after. apply andb_true_iff in Eb as [_ Ef]. by destruct force.
    - rewrite alter_noop; [done|]. rewrite He. simpl. by rewrite Eb. }
  rewrite decide_True by (split; [eauto|done]).
  assert (multiplicity k H = 0%nat /\ delete k W = table_after force [k] W) as [HH HW].
  { unfold table_after. destruct (unlocked e) eqn:Eu.
    - destruct (lock_inv_unlocked _ _ _ _ _ _ Hl He Eu) as [HW HH]. split; [done|].
      destruct force; [done|]. by rewrite delete_id.
    - destruct force; [|done]. destruct (Hmay e He Eu eq_refl) as [[tmp obj] HW].
      destruct (lock_inv_written _ _ _ _ _ _ _ _ Hl HW) as (? & _ & _ & _ & _ & HH & _). done. }
  destruct (l1_inv_drop C s W H H k e Hinv He ltac:(done) HH) as (a' & Ef & Hp & Hinv').
  unfold bind at 1, on_allocator, zoom. rewrite Ef. unfold bind, del_entry, modify. simpl.
  rewrite HW in Hinv'. eexists. split; [reflexivity|]. split; [split; [exact Hp|done]|].
  split; [exact Hinv'|]. split; [done|]. apply delete_as_alter. rewrite He. simpl. by rewrite Eb.
Qed.

Lemma delete_loop force deleted s W H keys :
  l1_inv C s W H -> NoDup keys -> (forall k, k ∈ keys -> may_delete force W (entries s) k) ->
  exists s', for_acc keys deleted (delete_one force) s
      = (s', Ok (deleted ++ dropped (upd_delete force) (entries s) keys)) /\
    same_frame s s' /\ l1_inv C s' (table_after force keys W) H /\ observers s' = observers s /\
    entries s' = update_keys (upd_delete force) keys (entries s).
Proof.
  intros Hinv Hnd. revert deleted s W Hinv.
  induction Hnd as [|k keys Hk _ IH]; intros deleted s W Hinv Hmay.
  { exists s. simpl. rewrite app_nil_r. split_and!; [done|done| |done|done].
    by destruct force. }
  destruct (delete_one_spec force deleted s W H k Hinv ltac:(apply Hmay; set_solver))
    as (s1 & E1 & Hf1 & Hinv1 & Ho1 & He1).
  destruct (IH (deleted ++ dropped (upd_delete force) (entries s) [k]) s1 _ Hinv1)
    as (s2 & E2 & Hf2 & Hinv2 & Ho2 & He2).
  { intros k' Hk' e. rewrite He1, lookup_partial_alter_ne by set_solver.
    intros He Hu Hfo. destruct (Hmay k' ltac:(set_solver) e He Hu Hfo) as [w Hw].
    exists w. rewrite <- Hw. unfold table_after. rewrite Hfo, del_writes_lookup.
    by rewrite decide_False by set_solver. }
  exists s2. simpl. unfold bind at 1. rewrite E1, E2, (dropped_cons _ _ _ _ Hk), <- app_assoc, He1.
  split; [done|]. split; [by eapply same_frame_trans|].
  split; [|split; [congruence|by rewrite He2, He1]].
  by destruct force.
Qed.

Lemma delete_spec force s W H keys :
  l1_inv C s W H -> NoDup keys -> (forall k, k ∈ keys -> may_delete force W (entries s) k) ->
  exists s', delete_keys keys force s
      = (s', Ok (length (dropped (upd_delete force) (entries s) keys))) /\
    same_frame s s' /\ l1_inv C s' (table_after force keys W) H /\
    entries s' = update_keys (upd_delete force) keys (entries s) /\
    observers s' = announced [] (dropped (upd_delete force) (entries s) keys) s.
Proof.
  intros Hinv Hnd Hmay.
  destruct (delete_loop force [] s W H keys Hinv Hnd Hmay) as (s1 & E & Hf & Hinv1 & Ho & He).
  unfold delete_keys. unfold bind at 1. rewrite E. simpl. unfold bind at 1.
  rewrite (notify_nonempty_run on_removed).
  eexists. split; [reflexivity|]. split; [|split; [|split]].
  - eapply same_frame_trans; [exact Hf|apply notify_nonempty_frame].
  - by apply notify_nonempty_inv.
  - by rewrite notify_nonempty_entries.
  - by apply (announced_ext [] _ s s1); [|apply Hf].
Qed.

Lemma l1_inv_new a (o : O) : alloc_inv a [] -> l1_inv C (new_l1 (R := R) a o) ∅ ∅.
Proof.
  intros Ha. split; [exact Ha|]. intros k. simpl. rewrite !lookup_empty. by split.
Qed.
End manager_deletes.
