(* ===== verification/Eviction.v ===== *)
(** LRU eviction (l1/eviction.py): the recency order kept by [LRUPolicy] as a
    listener of the manager, victim selection, and one round of the
    [EvictionController] thread. *)
From S2P Require Import Prelude PyFloat Protocol Memory L1Manager.
Local Open Scope py_scope.
Local Open Scope Z_scope.

Definition WATERMARK : float := f_0_8.
Definition EVICTION_RATIO : float := f_0_2.

(** [LRUPolicy.order]: the keys of the [OrderedDict], coldest first. *)
Notation lru_order := (list ChunkKey) (only parsing).

(** [self.order[key] = None; self.order.move_to_end(key)] *)
Definition lru_touch_one (order : lru_order) (key : ChunkKey) : lru_order :=
  os_move_to_end key (os_add key order).

(** [on_created], also bound as [on_touched]. *)
Definition lru_on_created (keys : list ChunkKey) (order : lru_order) : lru_order :=
  foldl lru_touch_one order (reverse keys).

Definition lru_on_removed (keys : list ChunkKey) (order : lru_order) : lru_order :=
  foldl (fun order key => os_del key order) order keys.

(** [on_write_finished] is inherited from [Listener] and does nothing. *)
Definition lru_dispatch (ev : event) (keys : list ChunkKey) (order : lru_order) : lru_order :=
  match ev with
  | on_created => lru_on_created keys order
  | on_touched => lru_on_created keys order
  | on_write_finished => order
  | on_removed => lru_on_removed keys order
  end.

(** [max(1, int(len(self.order) * ratio))] *)
Definition victim_target (n : Z) (ratio : float) : res Z :=
  let? t := float_trunc (fmul (float_of_int n) ratio) in
  Ok (Z.max 1 t).

(** The scan of [get_victims]: stop at the target, keep eligible keys. *)
Fixpoint pick_victims (target : Z) (eligible : ChunkKey -> bool)
    (victims : list ChunkKey) (order : lru_order) : list ChunkKey :=
  match order with
  | [] => victims
  | key :: order' =>
      if target <=? Zlen victims then victims
      else pick_victims target eligible
             (if eligible key then victims ++ [key] else victims) order'
  end.

Definition get_victims (ratio : float) (eligible : ChunkKey -> bool) (order : lru_order)
    : res (list ChunkKey) :=
  let? target := victim_target (Zlen order) ratio in
  Ok (pick_victims target eligible [] order).

(** [used / total < WATERMARK] *)
Definition below_watermark (usage : Z * Z) : res bool :=
  let? r := int_truediv usage.1 usage.2 in
  Ok (flt r WATERMARK).

Section controller.
Context {R O : Type} `{!Listener R O}.
(** The policy object the controller shares with the listener list. *)
Context (policy_of : O -> lru_order).

(** One iteration of [EvictionController.run] after the sleep. *)
Definition evict_round : M (L1 R O) nat :=
  let* usage := l1_usage in
  let* below := lift_res (below_watermark usage) in
  if below then ret 0%nat
  else
    let* s := get in
    let* victims :=
      lift_res (get_victims EVICTION_RATIO (is_evictable s) (policy_of (observers s))) in
    delete_keys victims false.
End controller.

(** ** The recency order *)

Lemma elem_of_lru_touch_one order key k :
  k ∈ lru_touch_one order key <-> k = key \/ k ∈ order.
Proof. unfold lru_touch_one. rewrite elem_of_os_move_to_end, elem_of_os_add. naive_solver. Qed.

Lemma elem_of_lru_on_created keys order k :
  k ∈ lru_on_created keys order <-> k ∈ keys \/ k ∈ order.
Proof.
  unfold lru_on_created. rewrite <- (elem_of_reverse k keys). generalize (reverse keys) as l.
  intros l. revert order. induction l as [|key l IH]; intros order; simpl; [set_solver|].
  rewrite IH, elem_of_lru_touch_one. set_solver.
Qed.

Lemma elem_of_lru_on_removed keys order k :
  k ∈ lru_on_removed keys order <-> k ∉ keys /\ k ∈ order.
Proof.
  unfold lru_on_removed. revert order. induction keys as [|key keys IH]; intros order; simpl.
  { set_solver. }
  rewrite IH, elem_of_os_del. set_solver.
Qed.

Lemma NoDup_lru_dispatch ev keys order : NoDup order -> NoDup (lru_dispatch ev keys order).
Proof.
  assert (forall l order, NoDup order -> NoDup (foldl lru_touch_one order l)) as Ht.
  { induction l as [|k l IH]; intros o Ho; [done|]. apply IH. by apply NoDup_os_move_to_end, NoDup_os_add. }
  intros Ho. destruct ev; simpl; [by apply Ht|done|by apply Ht|].
  unfold lru_on_removed. revert order Ho. induction keys as [|k keys IH]; intros order Ho; [done|].
  simpl. by apply IH, NoDup_os_del.
Qed.

(** Touching a batch moves it to the hot end, its last key coldest. *)
Lemma lru_on_created_order keys order :
  NoDup keys ->
  lru_on_created keys order = filter (fun k => k ∉ keys) order ++ reverse keys.
Proof.
  intros Hnd. unfold lru_on_created.
  replace (filter (fun k => k ∉ keys) order) with (filter (fun k => k ∉ reverse keys) order).
  2: { clear. induction order as [|k o IH]; [done|]. rewrite !filter_cons, IH.
       do 2 case_decide; rewrite elem_of_reverse in *; done || by exfalso. }
  rewrite <- (reverse_Permutation keys) in Hnd. revert Hnd. generalize (reverse keys) as l. intros l.
  induction l as [|key l IH] using rev_ind; intros Hnd.
  { simpl. rewrite app_nil_r. induction order as [|k o IH]; [done|].
    rewrite filter_cons_True by apply not_elem_of_nil. by f_equal. }
  apply NoDup_app in Hnd as (Hl & Hdis & _). rewrite foldl_snoc, IH by done.
  unfold lru_touch_one, os_move_to_end.
  assert (forall x : lru_order, os_del key (os_add key x) = os_del key x) as Hda.
  { intros x. unfold os_add. case_decide; [done|]. rewrite os_del_app. unfold os_del at 2.
    rewrite filter_cons_False, filter_nil by naive_solver. apply app_nil_r. }
  rewrite Hda, os_del_app, (os_del_notin key l) by (intros Hk; by apply (Hdis key); set_solver).
  rewrite <- app_assoc. f_equal. unfold os_del. rewrite list_filter_filter.
  clear. induction order as [|k o IH]; [done|]. rewrite !filter_cons, IH.
  do 2 case_decide; set_solver.
Qed.

(** ** Victims *)

Lemma pick_victims_spec target eligible order :
  0 <= target ->
  pick_victims target eligible [] order
    = take (Z.to_nat target) (filter (fun k => eligible k = true) order).
Proof.
  intros Ht. enough (forall vs, Zlen vs <= target ->
    pick_victims target eligible vs order
      = vs ++ take (Z.to_nat target - length vs) (filter (fun k => eligible k = true) order)) as Hg.
  { rewrite Hg by done. simpl. by rewrite Nat.sub_0_r. }
  induction order as [|k order IH]; intros vs Hvs; simpl.
  { by rewrite filter_nil, take_nil, app_nil_r. }
  destruct (Z.leb_spec target (Zlen vs)) as [Hge|Hlt].
  - unfold Zlen in *. replace (Z.to_nat target - length vs)%nat with 0%nat by lia.
    by rewrite take_0, app_nil_r.
  - rewrite filter_cons. destruct (eligible k) eqn:Ee.
    + rewrite decide_True by done. unfold Zlen in *.
      rewrite IH by (rewrite length_app; simpl; lia). rewrite length_app. simpl.
      replace (Z.to_nat target - length vs)%nat
        with (S (Z.to_nat target - (length vs + 1)))%nat by lia.
      by rewrite <- app_assoc.
    + rewrite decide_False by congruence. by apply IH.
Qed.

Lemma get_victims_subset ratio eligible order vs :
  get_victims ratio eligible order = Ok vs -> NoDup order ->
  NoDup vs /\ forall k, k ∈ vs -> k ∈ order /\ eligible k = true.
Proof.
  unfold get_victims, victim_target. destruct (float_trunc _) as [t|]; [|done]. simpl.
  intros [= <-] Hnd. rewrite pick_victims_spec by lia. split.
  - by apply NoDup_take, NoDup_filter.
  - intros k Hk. apply elem_of_take in Hk as (i & Hi & _).
    apply list_elem_of_lookup_2, list_elem_of_filter in Hi. naive_solver.
Qed.

(** ** The size of a batch: a fifth of the tracked chunks, at least one

    Checked by evaluating the float product for every table size below 2048. *)

Definition lru_bound : Z := 2048.

Lemma victim_targets_fifth :
  forallb (fun n => match victim_target n EVICTION_RATIO with
                    | Ok t => t =? Z.max 1 (n / 5) | Raise _ => false end)
          (seqZ 0 lru_bound) = true.
Proof. vm_compute. reflexivity. Qed.

Lemma victim_target_fifth n :
  0 <= n < lru_bound -> victim_target n EVICTION_RATIO = Ok (Z.max 1 (n / 5)).
Proof.
  intros Hn. pose proof victim_targets_fifth as Hall. rewrite forallb_Forall, Forall_forall in Hall.
  specialize (Hall n). rewrite elem_of_seqZ in Hall. specialize (Hall ltac:(lia)).
  destruct (victim_target n EVICTION_RATIO) as [t|]; [|done]. f_equal. by apply Z.eqb_eq.
Qed.

Lemma get_victims_fifth eligible order :
  Zlen order < lru_bound ->
  get_victims EVICTION_RATIO eligible order
    = Ok (take ((length order / 5) `max` 1) (filter (fun k => eligible k = true) order)).
Proof.
  intros Hn. unfold get_victims.
  rewrite victim_target_fifth by (pose proof (Zlen_nonneg order); lia). simpl. f_equal.
  rewrite pick_victims_spec by lia. f_equal.
  rewrite Z2Nat.inj_max. unfold Zlen. rewrite Z2Nat.inj_div by lia. rewrite Nat2Z.id.
  apply Nat.max_comm.
Qed.
