(* ===== verification/L1Protocol.v ===== *)
(** The lock protocol of the L1 manager as an abstract per-key machine, the
    refinement of that machine by [L1Manager], and what holds in every state
    reachable by legal calls.

    A chunk is absent, being written, or ready with a number of read holds.
    [legal] is what callers owe the manager (they finish what they reserved and
    release what they hold); under it no call raises. *)
From S2P Require Import Prelude PyFloat Protocol Memory L1Manager Eviction.
Local Open Scope py_scope.
Local Open Scope Z_scope.

Inductive kstate :=
| Absent
| Writing (temporary : bool)
| Ready (temporary : bool) (holds : Z).

#[export] Instance kstate_eq_dec : EqDecision kstate.
Proof. solve_decision. Defined.

Definition abs_entry (me : option Entry) : kstate :=
  match me with
  | None => Absent
  | Some e => if write_locked e then Writing (is_temporary e)
              else Ready (is_temporary e) (read_count e)
  end.

(** The calls of the manager; [Fill] is a caller copying data into a slice it
    reserved. *)
Inductive l1_call :=
| ReserveWrite (keys : list ChunkKey) (nbytes : Z) (temporary : bool)
| Fill (key : ChunkKey) (data : bytes)
| FinishWrite (keys : list ChunkKey)
| FinishWriteHold (keys : list ChunkKey)
| ReserveRead (keys : list ChunkKey)
| ReservePrefix (keys : list ChunkKey)
| FinishRead (keys : list ChunkKey)
| Promote (keys : list ChunkKey)
| Delete (keys : list ChunkKey) (force : bool).

(** ** The abstract machine *)

Definition k_hold (x : kstate) : kstate :=
  match x with Ready t h => Ready t (h + 1) | _ => x end.
Definition k_release (x : kstate) : kstate :=
  match x with
  | Ready t h => if (h - 1 =? 0) && t then Absent else Ready t (h - 1)
  | _ => x
  end.
Definition k_promote (x : kstate) : kstate :=
  match x with Ready _ h => Ready false h | Writing _ => Writing false | Absent => Absent end.
Definition k_publish_held (x : kstate) : kstate :=
  match x with Writing t => Ready t 1 | _ => x end.
Definition k_delete (force : bool) (x : kstate) : kstate :=
  match x with
  | Absent => Absent
  | Writing t => if force then Absent else Writing t
  | Ready t h => if (h =? 0) || force then Absent else Ready t h
  end.
Definition is_ready (x : kstate) : bool :=
  match x with Ready _ _ => true | _ => false end.

Definition on_keys (keys : list ChunkKey) (f : kstate -> kstate) (a a' : ChunkKey -> kstate)
    : Prop :=
  forall k, a' k = if decide (k ∈ keys) then f (a k) else a k.

Definition spec_call (c : l1_call) (a a' : ChunkKey -> kstate) : Prop :=
  match c with
  | ReserveWrite keys n tmp =>
      (forall k, a' k = a k) \/
      on_keys keys (fun x => match x with Absent => Writing tmp | _ => x end) a a'
  | Fill _ _ => forall k, a' k = a k
  | FinishWrite keys => on_keys keys (fun _ => Ready false 0) a a'
  | FinishWriteHold keys => on_keys keys k_publish_held a a'
  | ReserveRead keys => on_keys keys k_hold a a'
  | ReservePrefix keys =>
      on_keys (take (prefix_count (fun k => is_ready (a k)) keys) keys) k_hold a a'
  | FinishRead keys => on_keys keys k_release a a'
  | Promote keys => on_keys keys k_promote a a'
  | Delete keys force => on_keys keys (k_delete force) a a'
  end.

Section protocol.
Context {R O : Type} `{!Listener R O} (C : ChunkKey -> bytes).
Implicit Types (s : L1 R O).

Definition abs s (k : ChunkKey) : kstate := abs_entry (entries s !! k).

Definition run_call (c : l1_call) : M (L1 R O) unit :=
  match c with
  | ReserveWrite keys n tmp => let* _ := reserve_write keys n tmp in ret tt
  | Fill k data => let* e := entry_at k in assign_obj (entry_obj e) data
  | FinishWrite keys => finish_write keys
  | FinishWriteHold keys => finish_write_and_reserve_read keys
  | ReserveRead keys => let* _ := reserve_read keys in ret tt
  | ReservePrefix keys => let* _ := reserve_read_prefix keys in ret tt
  | FinishRead keys => finish_read keys
  | Promote keys => promote keys
  | Delete keys force => let* _ := delete_keys keys force in ret tt
  end.

(** The entry exists, is being written and its bytes are in place. *)
Definition filled s (k : ChunkKey) (e : Entry) : Prop :=
  entries s !! k = Some e /\ write_locked e = true /\
  byte_array (entry_obj e) (pool_of s) = C k.

Definition legal s (c : l1_call) : Prop :=
  match c with
  | ReserveWrite keys n _ => NoDup keys /\ 0 <= n
  | Fill k data =>
      exists e, entries s !! k = Some e /\ write_locked e = true /\
                Zlen data = obj_nbytes (entry_obj e)
  | FinishWrite keys =>
      NoDup keys /\ forall k, k ∈ keys -> exists e, filled s k e /\ is_temporary e = false
  | FinishWriteHold keys => NoDup keys /\ forall k, k ∈ keys -> exists e, filled s k e
  | ReserveRead keys | ReservePrefix keys | Promote keys => NoDup keys
  | FinishRead keys =>
      NoDup keys /\ forall k, k ∈ keys -> exists e, entries s !! k = Some e /\ 0 < read_count e
  | Delete keys force =>
      NoDup keys /\
      (force = true -> forall k e, k ∈ keys -> entries s !! k = Some e -> read_count e = 0)
  end.

Definition l1_wf s : Prop := exists W H, l1_inv C s W H.

(** Callers' obligations give the ghost facts the operations need. *)
Lemma wf_written s W H k e :
  l1_inv C s W H -> entries s !! k = Some e -> write_locked e = true ->
  exists tmp, W !! k = Some (tmp, entry_obj e).
Proof.
  intros [_ Hl] He Hw. specialize (Hl k). rewrite He in Hl. destruct Hl as [_ Hok].
  destruct (W !! k) as [[tmp obj]|]; [|destruct Hok as (? & _); congruence].
  destruct Hok as (_ & _ & -> & _). eauto.
Qed.

Lemma wf_unread s W H k e :
  l1_inv C s W H -> entries s !! k = Some e -> write_locked e = true -> read_count e = 0.
Proof.
  intros Hinv He Hw. destruct (wf_written _ _ _ _ _ Hinv He Hw) as [tmp HW].
  destruct Hinv as [_ Hl]. destruct (lock_inv_written _ _ _ _ _ _ _ _ Hl HW) as (e' & He' & _ & Hr & _).
  congruence.
Qed.

Lemma wf_held s W H k e :
  l1_inv C s W H -> entries s !! k = Some e -> 0 < read_count e -> k ∈ H.
Proof.
  intros [_ Hl] He Hr. specialize (Hl k). rewrite He in Hl. destruct Hl as [Hc _].
  rewrite elem_of_multiplicity. lia.
Qed.

Lemma wf_free s W H k e :
  l1_inv C s W H -> entries s !! k = Some e -> read_count e = 0 -> unlocked e = false ->
  is_Some (W !! k).
Proof.
  intros Hinv He Hr Hu. unfold unlocked in Hu. rewrite Hr, andb_true_r in Hu.
  destruct (wf_written _ _ _ _ _ Hinv He) as [tmp HW]; [by destruct (write_locked e)|eauto].
Qed.

(** Reading the abstract state off a batch update. *)
Lemma abs_update_keys f (kf : kstate -> kstate) keys s s' :
  entries s' = update_keys f keys (entries s) -> NoDup keys ->
  (forall k, k ∈ keys -> abs_entry (f (entries s !! k)) = kf (abs_entry (entries s !! k))) ->
  on_keys keys kf (abs s) (abs s').
Proof.
  intros He Hnd Hf k. unfold abs. rewrite He, update_keys_lookup by done.
  case_decide; [by apply Hf|done].
Qed.

Lemma abs_hold me : abs_entry (upd_hold me) = k_hold (abs_entry me).
Proof.
  destruct me as [e|]; [|done]. simpl. unfold readable.
  by destruct (write_locked e) eqn:E; simpl; rewrite ?E.
Qed.

Lemma abs_promote me : abs_entry (upd_promote me) = k_promote (abs_entry me).
Proof. destruct me as [e|]; [|done]. simpl. by destruct (write_locked e). Qed.

Lemma abs_release s W H k :
  l1_inv C s W H -> k ∈ H ->
  abs_entry (upd_release (entries s !! k)) = k_release (abs_entry (entries s !! k)).
Proof.
  intros [_ Hl] Hk. destruct (lock_inv_held _ _ _ _ _ _ Hl Hk) as (e & -> & _ & Hw & _).
  simpl. rewrite Hw. simpl. destruct (_ && _); simpl; [done|by rewrite Hw].
Qed.

Lemma abs_delete s W H k force :
  l1_inv C s W H ->
  abs_entry (upd_delete force (entries s !! k)) = k_delete force (abs_entry (entries s !! k)).
Proof.
  intros [_ Hl]. specialize (Hl k). destruct (entries s !! k) as [e|]; [|done].
  destruct Hl as [_ Hok]. simpl. unfold unlocked.
  destruct (write_locked e) eqn:Ew; simpl.
  - destruct force; simpl; by rewrite ?Ew.
  - destruct (read_count e =? 0), force; simpl; by rewrite ?Ew.
Qed.

Lemma is_ready_readable s k : is_ready (abs s k) = key_readable (entries s) k.
Proof.
  unfold abs, key_readable, readable. destruct (entries s !! k) as [e|]; [|done]. simpl.
  by destruct (write_locked e).
Qed.

Lemma is_ready_update f keys s s' k :
  entries s' = update_keys f keys (entries s) -> NoDup keys ->
  is_ready (abs s' k) =
    is_ready (abs_entry (if decide (k ∈ keys) then f (entries s !! k) else entries s !! k)).
Proof. intros He Hnd. unfold abs. by rewrite He, update_keys_lookup. Qed.

(** ** The recency order agrees with the ready chunks *)

Definition observes_lru (pol : O -> list ChunkKey) (ls : list R) : Prop :=
  forall ev keys o, pol (foldl (fun o r => dispatch r ev keys o) o ls) = lru_dispatch ev keys (pol o).

Definition lru_agrees (pol : O -> list ChunkKey) s : Prop :=
  NoDup (pol (observers s)) /\ forall k, k ∈ pol (observers s) <-> is_ready (abs s k) = true.

Lemma pol_notified pol ev keys s :
  observes_lru pol (listeners s) ->
  pol (notified ev keys s) = lru_dispatch ev keys (pol (observers s)).
Proof. intros Hobs. apply Hobs. Qed.

Lemma pol_announced pol touched removed s :
  observes_lru pol (listeners s) ->
  pol (announced touched removed s)
    = lru_on_removed removed (lru_on_created touched (pol (observers s))).
Proof.
  intros Hobs. unfold announced, notify_nonempty, notified.
  destruct touched as [|t ts], removed as [|r rs]; simpl; rewrite ?Hobs; done.
Qed.

(** [keeps_lru s s']: if the policy listens, agreement is preserved. *)
Definition keeps_lru s s' : Prop :=
  forall pol, observes_lru pol (listeners s) -> lru_agrees pol s -> lru_agrees pol s'.

Lemma keeps_lru_same s s' :
  observers s' = observers s -> (forall k, is_ready (abs s' k) = is_ready (abs s k)) ->
  keeps_lru s s'.
Proof.
  intros Ho Ha pol _ [Hnd Hk]. split; rewrite Ho; [done|]. intros k. by rewrite Ha.
Qed.

Lemma keeps_lru_announced touched removed s s' :
  observers s' = announced touched removed s ->
  (forall k, k ∈ touched -> is_ready (abs s k) = true) ->
  (forall k, is_ready (abs s' k) = true <-> is_ready (abs s k) = true /\ k ∉ removed) ->
  keeps_lru s s'.
Proof.
  intros Ho Ht Ha pol Hobs [Hnd Hk]. unfold lru_agrees. rewrite Ho, pol_announced by done. split.
  - apply (NoDup_lru_dispatch on_removed), (NoDup_lru_dispatch on_created), Hnd.
  - intros k. rewrite elem_of_lru_on_removed, elem_of_lru_on_created, Hk, Ha. naive_solver.
Qed.

Lemma keeps_lru_created keys s s' :
  (forall pol, observes_lru pol (listeners s) ->
     pol (observers s') = lru_on_created keys (pol (observers s))) ->
  (forall k, is_ready (abs s' k) = true <-> k ∈ keys \/ is_ready (abs s k) = true) ->
  keeps_lru s s'.
Proof.
  intros Ho Ha pol Hobs [Hnd Hk]. unfold lru_agrees. rewrite Ho by done. split.
  - apply (NoDup_lru_dispatch on_created), Hnd.
  - intros k. by rewrite elem_of_lru_on_created, Hk, Ha.
Qed.

(** ** The refinement, call by call *)

(** No call moves the slice of an entry that survives it. *)
Definition same_slices s s' : Prop :=
  forall k e e', entries s !! k = Some e -> entries s' !! k = Some e' ->
    entry_obj e' = entry_obj e.

Lemma same_slices_update f keys s s' :
  entries s' = update_keys f keys (entries s) -> NoDup keys ->
  (forall me e', f me = Some e' -> entry_obj <$> me = Some (entry_obj e')) -> same_slices s s'.
Proof.
  intros He Hnd Hf k e e' Hk. rewrite He, update_keys_lookup by done.
  case_decide; [intros Hf'%Hf; rewrite Hk in Hf'; by simplify_eq/=|congruence].
Qed.

Lemma upd_objs me e' :
  (upd_written me = Some e' \/ upd_written_held me = Some e' \/ upd_hold me = Some e' \/
   (add_read_count 1 <$> me) = Some e' \/ upd_release me = Some e' \/
   upd_promote me = Some e' \/ (exists force, upd_delete force me = Some e')) ->
  entry_obj <$> me = Some (entry_obj e').
Proof.
  destruct me as [e|]; simpl; [|naive_solver].
  intros [?|[?|[?|[?|[?|[?|[force ?]]]]]]]; repeat case_match; by simplify_eq/=.
Qed.

Definition call_ok s (c : l1_call) s' : Prop :=
  l1_wf s' /\ spec_call c (abs s) (abs s') /\ listeners s' = listeners s /\
  Zlen (pool_of s') = Zlen (pool_of s) /\ keeps_lru s s' /\ same_slices s s'.

Lemma foldl_insert_lookup (kos : list (ChunkKey * MemoryObj)) tmp (m : gmap ChunkKey Entry) k :
  NoDup kos.*1 ->
  abs_entry (foldl (fun m ko => <[ko.1 := mkEntry ko.2 true 0 tmp]> m) m kos !! k)
  = if decide (k ∈ kos.*1) then Writing tmp else abs_entry (m !! k).
Proof.
  revert m. induction kos as [|[k' o] kos IH]; intros m Hnd.
  { by rewrite decide_False by apply not_elem_of_nil. }
  csimpl in *. apply NoDup_cons in Hnd as [Hk' Hnd]. rewrite IH by done.
  rewrite lookup_insert.
  destruct (decide (k ∈ kos.*1)), (decide (k' = k)), (decide (k ∈ k' :: kos.*1)); set_solver.
Qed.

Lemma reserve_write_ok s keys n tmp :
  l1_wf s -> legal s (ReserveWrite keys n tmp) ->
  exists s', run_call (ReserveWrite keys n tmp) s = (s', Ok tt) /\
             call_ok s (ReserveWrite keys n tmp) s'.
Proof.
  intros (W & H & Hinv) [Hnd Hn].
  destruct (reserve_write_spec C s W H keys n tmp Hinv Hnd Hn)
    as (s' & r & E & [Hp Hls] & Ho & Hcase).
  exists s'. simpl. unfold bind. rewrite E. split; [done|].
  assert (on_keys keys (fun x => match x with Absent => Writing tmp | _ => x end) (abs s) (abs s')
          \/ entries s' = entries s) as Hspec.
  { destruct Hcase as [(He & _)|(kos & Hk1 & _ & _ & _ & _ & He)]; [by right|left].
    intros k. unfold abs. rewrite He, foldl_insert_lookup by (rewrite Hk1; by apply NoDup_filter).
    rewrite Hk1. destruct (decide (k ∈ filter _ keys)) as [Hin|Hout].
    - apply list_elem_of_filter in Hin as [Hnone Hin]. by rewrite decide_True, Hnone.
    - rewrite list_elem_of_filter in Hout. destruct (decide (k ∈ keys)); [|done].
      destruct (entries s !! k) as [e0|] eqn:Hek; [|naive_solver]. simpl.
      by destruct (write_locked e0). }
  split_and!; [|by destruct Hspec as [?|Heq]; [right|left; intros k; unfold abs; rewrite Heq]
              |done|by rewrite Hp| |].
  - destruct Hcase as [(_ & Hinv' & _)|(kos & _ & _ & Hinv' & _)]; by eexists _, _.
  - apply keeps_lru_same; [done|]. intros k.
    destruct Hspec as [Hs|Heq]; [|by unfold abs; rewrite Heq].
    rewrite Hs. case_decide; [|done]. by destruct (abs s k).
  - intros k e e' Hk. destruct Hcase as [(-> & _)|(kos & Hk1 & _ & _ & _ & _ & ->)]; [congruence|].
    rewrite foldl_insert_other; [congruence|]. rewrite Hk1, list_elem_of_filter. naive_solver.
Qed.

Lemma fill_ok s k data :
  l1_wf s -> legal s (Fill k data) ->
  exists s', run_call (Fill k data) s = (s', Ok tt) /\ call_ok s (Fill k data) s'.
Proof.
  intros (W & H & Hinv) (e & He & Hw & Hd).
  destruct (wf_written _ _ _ _ _ Hinv He Hw) as [tmp HW].
  destruct (assign_obj_spec C s W H k tmp (entry_obj e) data Hinv HW)
    as (s' & E & Hinv' & Hl & Ho & Hent & Hlen & _).
  { unfold Zlen, obj_nbytes in Hd. lia. }
  exists s'. simpl. unfold bind, entry_at. rewrite He. split; [exact E|].
  assert (forall k, abs s' k = abs s k) as Ha by (intros k'; unfold abs; by rewrite Hent).
  split_and!; [by eexists _, _|done|done|done| |].
  - apply keeps_lru_same; [done|]. intros k'. by rewrite Ha.
  - intros k' e1 e2. rewrite Hent. congruence.
Qed.

Lemma finish_write_ok s keys :
  l1_wf s -> legal s (FinishWrite keys) ->
  exists s', run_call (FinishWrite keys) s = (s', Ok tt) /\ call_ok s (FinishWrite keys) s'.
Proof.
  intros (W & H & Hinv) [Hnd Hks].
  destruct (finish_write_spec C s W H keys Hinv Hnd) as (s' & E & [Hp Hl] & Hinv' & He & Ho).
  { intros k Hk. destruct (Hks k Hk) as (e & (He & Hw & Hb) & Ht).
    destruct (wf_written _ _ _ _ _ Hinv He Hw) as [tmp HW].
    exists tmp, (entry_obj e). split_and!; [done|done|]. intros e' He'. congruence. }
  exists s'. split; [done|].
  assert (on_keys keys (fun _ => Ready false 0) (abs s) (abs s')) as Hs.
  { apply (abs_update_keys _ _ _ _ _ He Hnd). intros k Hk.
    destruct (Hks k Hk) as (e & (Hek & Hw & _) & Ht).
    rewrite Hek. simpl. by rewrite Ht, (wf_unread _ _ _ _ _ Hinv Hek Hw). }
  split_and!; [by eexists _, _|exact Hs|done|by rewrite Hp
              | |eapply same_slices_update; [exact He|auto with pylist|]; intros; apply upd_objs; naive_solver].
  apply (keeps_lru_created keys).
  - intros pol Hobs. rewrite Ho. rewrite pol_notified by done. simpl. by rewrite pol_notified.
  - intros k. rewrite Hs. destruct (decide (k ∈ keys)); simpl; naive_solver.
Qed.

Lemma finish_write_hold_ok s keys :
  l1_wf s -> legal s (FinishWriteHold keys) ->
  exists s', run_call (FinishWriteHold keys) s = (s', Ok tt) /\ call_ok s (FinishWriteHold keys) s'.
Proof.
  intros (W & H & Hinv) [Hnd Hks].
  destruct (finish_write_and_reserve_read_spec C s W H keys Hinv Hnd)
    as (s' & E & [Hp Hl] & Hinv' & He & Ho).
  { intros k Hk. destruct (Hks k Hk) as (e & He & Hw & Hb).
    destruct (wf_written _ _ _ _ _ Hinv He Hw) as [tmp HW]. eauto. }
  exists s'. split; [done|].
  assert (on_keys keys k_publish_held (abs s) (abs s')) as Hs.
  { apply (abs_update_keys _ _ _ _ _ He Hnd). intros k Hk.
    destruct (Hks k Hk) as (e & Hek & Hw & _).
    rewrite Hek. simpl. by rewrite Hw, (wf_unread _ _ _ _ _ Hinv Hek Hw). }
  split_and!; [by eexists _, _|exact Hs|done|by rewrite Hp
              | |eapply same_slices_update; [exact He|auto with pylist|]; intros; apply upd_objs; naive_solver].
  apply (keeps_lru_created keys).
  - intros pol Hobs. rewrite Ho. by apply pol_notified.
  - intros k. rewrite Hs. destruct (decide (k ∈ keys)) as [Hk|]; [|naive_solver].
    destruct (Hks k Hk) as (e & Hek & Hw & _). unfold abs. rewrite Hek. simpl. rewrite Hw. naive_solver.
Qed.

Lemma reserve_read_ok s keys :
  l1_wf s -> legal s (ReserveRead keys) ->
  exists s', run_call (ReserveRead keys) s = (s', Ok tt) /\ call_ok s (ReserveRead keys) s'.
Proof.
  intros (W & H & Hinv) Hnd. simpl in Hnd.
  destruct (reserve_read_spec C s W H keys Hinv Hnd) as (s' & r & E & [Hp Hl] & _ & Hinv' & He & Ho).
  exists s'. simpl. unfold bind. rewrite E. split; [done|].
  assert (on_keys keys k_hold (abs s) (abs s')) as Hs
    by (apply (abs_update_keys _ _ _ _ _ He Hnd); intros; apply abs_hold).
  split_and!; [by eexists _, _|exact Hs|done|by rewrite Hp
              | |eapply same_slices_update; [exact He|auto with pylist|]; intros; apply upd_objs; naive_solver].
  apply keeps_lru_same; [done|]. intros k. rewrite Hs. case_decide; [|done]. by destruct (abs s k).
Qed.

Lemma reserve_prefix_ok s keys :
  l1_wf s -> legal s (ReservePrefix keys) ->
  exists s', run_call (ReservePrefix keys) s = (s', Ok tt) /\ call_ok s (ReservePrefix keys) s'.
Proof.
  intros (W & H & Hinv) Hnd. simpl in Hnd.
  destruct (reserve_read_prefix_spec C s W H keys Hinv Hnd) as (s' & E & [Hp Hl] & Hinv' & He & Ho).
  exists s'. simpl. unfold bind. rewrite E. split; [done|].
  rewrite (prefix_count_ext _ (fun k => is_ready (abs s k)) keys) in He, Hinv'
    by (intros; by rewrite is_ready_readable).
  set (n := prefix_count (fun k => is_ready (abs s k)) keys) in *.
  assert (on_keys (take n keys) k_hold (abs s) (abs s')) as Hs.
  { apply (abs_update_keys _ _ _ _ _ He); [auto with pylist|]. intros k Hk.
    pose proof (prefix_count_take (fun k => is_ready (abs s k)) keys) as Hr.
    rewrite Forall_forall in Hr. specialize (Hr k Hk). unfold abs in Hr.
    destruct (entries s !! k) as [e|]; [|done]. simpl in *.
    by destruct (write_locked e). }
  split_and!; [by eexists _, _|exact Hs|done|by rewrite Hp
              | |eapply same_slices_update; [exact He|auto with pylist|]; intros; apply upd_objs; naive_solver].
  apply keeps_lru_same; [done|]. intros k. rewrite Hs. case_decide; [|done]. by destruct (abs s k).
Qed.

Lemma finish_read_ok s keys :
  l1_wf s -> legal s (FinishRead keys) ->
  exists s', run_call (FinishRead keys) s = (s', Ok tt) /\ call_ok s (FinishRead keys) s'.
Proof.
  intros (W & H & Hinv) [Hnd Hks].
  assert (forall k, k ∈ keys -> k ∈ H) as HH.
  { intros k Hk. destruct (Hks k Hk) as (e & He & Hr). by eapply wf_held. }
  destruct (finish_read_spec C s W H keys Hinv Hnd HH) as (s' & E & [Hp Hl] & Hinv' & He & Ho).
  exists s'. split; [exact E|].
  assert (on_keys keys k_release (abs s) (abs s')) as Hs.
  { apply (abs_update_keys _ _ _ _ _ He Hnd). intros k Hk. eapply abs_release; eauto. }
  assert (forall k, k ∈ keys -> is_ready (abs s k) = true) as Hready.
  { intros k Hk. destruct Hinv as [_ Hlk].
    destruct (lock_inv_held _ _ _ _ _ _ Hlk (HH k Hk)) as (e & Hek & _ & Hw & _).
    unfold abs. rewrite Hek. simpl. by rewrite Hw. }
  split_and!; [by eexists _, _|exact Hs|done|by rewrite Hp
              | |eapply same_slices_update; [exact He|auto with pylist|]; intros; apply upd_objs; naive_solver].
  eapply keeps_lru_announced; [exact Ho| |].
  - intros k [_ Hk]%list_elem_of_filter. by apply Hready.
  - intros k. rewrite (is_ready_update upd_release keys s s' k He Hnd).
    unfold gone. rewrite list_elem_of_filter.
    destruct (decide (k ∈ keys)) as [Hk|Hk]; [|naive_solver].
    specialize (Hready k Hk). rewrite Hready. unfold abs in Hready.
    destruct (entries s !! k) as [e|]; [|done]. simpl in *.
    destruct (write_locked e) eqn:Hw; [done|]. destruct (_ && _); simpl; rewrite ?Hw; naive_solver.
Qed.

Lemma promote_ok s keys :
  l1_wf s -> legal s (Promote keys) ->
  exists s', run_call (Promote keys) s = (s', Ok tt) /\ call_ok s (Promote keys) s'.
Proof.
  intros (W & H & Hinv) Hnd. simpl in Hnd.
  destruct (promote_spec C s W H keys Hinv Hnd) as (s' & E & [Hp Hl] & Hinv' & He & Ho).
  exists s'. split; [exact E|].
  assert (on_keys keys k_promote (abs s) (abs s')) as Hs
    by (apply (abs_update_keys _ _ _ _ _ He Hnd); intros; apply abs_promote).
  split_and!; [by eexists _, _|exact Hs|done|by rewrite Hp
              | |eapply same_slices_update; [exact He|auto with pylist|]; intros; apply upd_objs; naive_solver].
  apply keeps_lru_same; [done|]. intros k. rewrite Hs. case_decide; [|done]. by destruct (abs s k).
Qed.

Lemma delete_ok s keys force :
  l1_wf s -> legal s (Delete keys force) ->
  exists s', run_call (Delete keys force) s = (s', Ok tt) /\ call_ok s (Delete keys force) s'.
Proof.
  intros (W & H & Hinv) [Hnd Hks].
  destruct (delete_spec C force s W H keys Hinv Hnd) as (s' & E & [Hp Hl] & Hinv' & He & Ho).
  { intros k Hk e Hek Hu Hf. by apply (wf_free _ _ _ _ _ Hinv Hek (Hks Hf k e Hk Hek)). }
  exists s'. simpl. unfold bind. rewrite E. split; [done|].
  assert (on_keys keys (k_delete force) (abs s) (abs s')) as Hs.
  { apply (abs_update_keys _ _ _ _ _ He Hnd). intros k Hk. eapply abs_delete; eauto. }
  split_and!; [by eexists _, _|exact Hs|done|by rewrite Hp
              | |eapply same_slices_update; [exact He|auto with pylist|]; intros; apply upd_objs; naive_solver].
  eapply keeps_lru_announced; [exact Ho|by intros k ?%not_elem_of_nil|].
  intros k. rewrite (is_ready_update (upd_delete force) keys s s' k He Hnd).
  unfold dropped. rewrite list_elem_of_filter. unfold abs.
  destruct (decide (k ∈ keys)) as [Hk|Hk]; [|naive_solver].
  destruct (entries s !! k) as [e|]; [|naive_solver]. simpl.
  destruct (negb (unlocked e) && negb force); simpl; [naive_solver|].
  split; [done|]. intros [_ []]. eauto.
Qed.

(** Every legal call returns, keeps the table well formed and does what the
    abstract machine says. *)
Lemma run_call_ok s c :
  l1_wf s -> legal s c -> exists s', run_call c s = (s', Ok tt) /\ call_ok s c s'.
Proof.
  destruct c; eauto using reserve_write_ok, fill_ok, finish_write_ok, finish_write_hold_ok,
    reserve_read_ok, reserve_prefix_ok, finish_read_ok, promote_ok, delete_ok.
Qed.
End protocol.

Section reachability.
Context {R O : Type} `{!Listener R O} (C : ChunkKey -> bytes) (pol : O -> list ChunkKey).
Implicit Types (s : L1 R O).

(** One round of the evictor is a legal deletion, or nothing. *)
Lemma evict_round_ok s s' n :
  NoDup (pol (observers s)) -> evict_round pol s = (s', Ok n) ->
  s' = s \/ exists victims, legal C s (Delete victims false) /\
                           run_call (Delete victims false) s = (s', Ok tt).
Proof.
  intros Hnd. unfold evict_round, l1_usage. unfold bind at 1. unfold bind at 1, lift_res.
  destruct (below_watermark _) as [[]|]; [intros [= <- _]; by left| |done].
  unfold bind at 1. unfold get at 1. unfold bind at 1.
  destruct (get_victims _ _ _) as [vs|] eqn:Ev; [|done]. intros E. right. exists vs. split.
  - split; [|done]. by destruct (get_victims_subset _ _ _ _ Ev Hnd).
  - simpl. unfold bind. by rewrite E.
Qed.

(** The states a server goes through: legal calls and eviction rounds, from
    an empty pool. *)
Inductive reach : L1 R O -> Prop :=
| reach_new contents ls o :
    observes_lru pol ls -> pol o = [] ->
    reach (mkL1 (new_pool contents) ∅ ls o)
| reach_call s c s' :
    reach s -> legal C s c -> run_call c s = (s', Ok tt) -> reach s'
| reach_evict s s' n :
    reach s -> evict_round pol s = (s', Ok n) -> reach s'.

Lemma reach_inv s :
  reach s -> l1_wf C s /\ observes_lru pol (listeners s) /\ lru_agrees pol s.
Proof.
  assert (forall s c s', l1_wf C s -> observes_lru pol (listeners s) -> lru_agrees pol s ->
    legal C s c -> run_call c s = (s', Ok tt) ->
    l1_wf C s' /\ observes_lru pol (listeners s') /\ lru_agrees pol s') as Hstep.
  { intros s1 c s2 Hwf Hobs Hlru Hc E.
    destruct (run_call_ok C s1 c Hwf Hc) as (s2' & E' & Hwf' & _ & Hl & _ & Hk & _).
    rewrite E in E'. simplify_eq. split_and!; [done|by rewrite Hl|by apply Hk]. }
  induction 1 as [contents ls o Hobs Ho|s c s' _ (Hwf & Hobs & Hlru) Hc E
                 |s s' n _ (Hwf & Hobs & Hlru) E].
  - split_and!; [|done|].
    + exists ∅, ∅. split; [apply alloc_inv_new|]. intros k. simpl. by rewrite !lookup_empty.
    + unfold lru_agrees. simpl. rewrite Ho. split; [constructor|]. intros k. unfold abs. simpl.
      rewrite lookup_empty. simpl. split; [by intros ?%not_elem_of_nil|done].
  - by eapply Hstep.
  - destruct (evict_round_ok s s' n) as [->|(vs & Hc & E')]; [apply Hlru|done|done|].
    by eapply Hstep.
Qed.

Lemma wf_slices_disjoint s k k' e e' :
  l1_wf C s -> entries s !! k = Some e -> entries s !! k' = Some e' -> k <> k' ->
  obj_disjoint (entry_obj e) (entry_obj e').
Proof.
  intros (W & H & Ha & _) He He' Hne.
  rewrite (objs_of_delete _ _ _ He) in Ha.
  rewrite (objs_of_delete (delete k (entries s)) k' e') in Ha by by rewrite lookup_delete_ne.
  by apply (live_disjoint_lookup _ _ 0 1 _ _ Ha).
Qed.

(** C2: in every state reachable by legal calls and eviction rounds, a
    chunk that is not being written holds exactly its content, distinct
    entries own disjoint slices of the pool, the usage figure is the sum of
    the owned slices and stays within the capacity, no read count is
    negative, a temporary entry that is not being written has a read hold,
    and the LRU order lists the ready chunks, each once. *)
Theorem l1_reachable_safe s :
  reach s ->
  (forall k e, entries s !! k = Some e ->
     0 <= read_count e /\
     (write_locked e = true -> read_count e = 0) /\
     (write_locked e = false -> byte_array (entry_obj e) (pool_of s) = C k) /\
     (write_locked e = false -> is_temporary e = true -> 0 < read_count e)) /\
  (forall k k' e e', entries s !! k = Some e -> entries s !! k' = Some e' -> k <> k' ->
     obj_disjoint (entry_obj e) (entry_obj e')) /\
  used_bytes (allocator s) = sum_nbytes (objs_of (entries s)) /\
  used_bytes (allocator s) <= capacity (allocator s) /\
  NoDup (pol (observers s)) /\
  (forall k, k ∈ pol (observers s) <-> ready (entries s) k).
Proof.
  intros Hr. destruct (reach_inv s Hr) as (Hwf & _ & Hnd & Hlru).
  split; [|split; [eauto using wf_slices_disjoint|]].
  - intros k e He. destruct Hwf as (W & H & Hinv). split_and!.
    + destruct Hinv as [_ Hl]. specialize (Hl k). rewrite He in Hl. destruct Hl as [? _]. lia.
    + by eapply wf_unread.
    + intros Hw. destruct Hinv as [_ Hl]. by eapply lock_inv_ready.
    + intros Hw Ht. destruct Hinv as [_ Hl]. pose proof (Hl k) as Hok.
      destruct (lock_inv_ready _ _ _ _ _ _ _ Hl He Hw) as [HW _]. rewrite He, HW in Hok.
      destruct Hok as (? & _ & _ & Hpos). specialize (Hpos Ht). lia.
  - destruct Hwf as (W & H & Ha & _). split_and!.
    + apply (inv_used _ _ Ha).
    + apply (alloc_inv_used_le _ _ Ha).
    + done.
    + intros k. rewrite Hlru, is_ready_readable. apply key_readable_true.
Qed.
End reachability.

Section protocol_claims.
Context {R O : Type} `{!Listener R O} (C : ChunkKey -> bytes).
Implicit Types (s : L1 R O).


(** [c] releases a hold on [k]. *)
Definition releases (c : l1_call) (k : ChunkKey) : Prop :=
  match c with FinishRead keys => k ∈ keys | _ => False end.

Lemma spec_call_held s s' c k t h :
  spec_call c (abs s) (abs s') -> legal C s c -> ~ releases c k ->
  abs s k = Ready t h -> 0 < h -> exists t' h', abs s' k = Ready t' h' /\ h <= h'.
Proof.
  assert (forall x : kstate, x = Ready t h -> exists t' h', x = Ready t' h' /\ h <= h') as Hrefl
    by (intros x ->; by eexists _, _).
  intros Hs Hc Hr Hk Hh.
  destruct c as [keys n tmp|k' data|keys|keys|keys|keys|keys|keys|keys force]; simpl in *.
  - destruct Hs as [Hs|Hs]; rewrite Hs; [by apply Hrefl|]. rewrite Hk. case_decide; by apply Hrefl.
  - rewrite Hs. by apply Hrefl.
  - rewrite Hs. case_decide as Hin; [|by apply Hrefl].
    destruct Hc as [_ Hc]. destruct (Hc k Hin) as (e & (He & Hw & _) & _).
    unfold abs in Hk. rewrite He in Hk. simpl in Hk. by rewrite Hw in Hk.
  - rewrite Hs, Hk. case_decide; by apply Hrefl.
  - rewrite Hs, Hk. case_decide; simpl; eexists _, _; (split; [done|lia]).
  - rewrite Hs, Hk. case_decide; simpl; eexists _, _; (split; [done|lia]).
  - rewrite Hs, decide_False by done. by apply Hrefl.
  - rewrite Hs, Hk. case_decide; simpl; eexists _, _; (split; [done|lia]).
  - rewrite Hs. case_decide as Hin; [|by apply Hrefl]. rewrite Hk. simpl.
    replace (h =? 0) with false by lia. simpl. destruct force; [|by apply Hrefl].
    exfalso. destruct Hc as [_ Hc]. unfold abs in Hk.
    destruct (entries s !! k) as [e|] eqn:He; [|done]. specialize (Hc eq_refl k e Hin He).
    simpl in Hk. destruct (write_locked e); simplify_eq. lia.
Qed.

Lemma wf_ready_bytes s k t h :
  l1_wf C s -> abs s k = Ready t h ->
  exists e, entries s !! k = Some e /\ write_locked e = false /\ read_count e = h /\
            is_temporary e = t /\ byte_array (entry_obj e) (pool_of s) = C k.
Proof.
  intros (W & H & _ & Hl) Hk. unfold abs in Hk.
  destruct (entries s !! k) as [e|] eqn:He; [|done]. simpl in Hk.
  destruct (write_locked e) eqn:Hw; [done|]. simplify_eq. exists e. split_and!; try done.
  by eapply lock_inv_ready.
Qed.

(** A read hold pins a chunk: whatever other call the manager serves,
    evictions and forced deletions included, the chunk stays ready, in the
    same slice, with the same bytes, and its read count does not drop. *)
Theorem held_chunk_survives s s' c k e :
  l1_wf C s -> legal C s c -> ~ releases c k -> run_call c s = (s', Ok tt) ->
  entries s !! k = Some e -> 0 < read_count e ->
  exists e', entries s' !! k = Some e' /\ write_locked e' = false /\
    read_count e <= read_count e' /\ entry_obj e' = entry_obj e /\
    byte_array (entry_obj e) (pool_of s) = C k /\
    byte_array (entry_obj e') (pool_of s') = C k.
Proof.
  intros Hwf Hc Hr E He Hh.
  destruct (run_call_ok C s c Hwf Hc) as (s2 & E2 & Hwf' & Hs & _ & _ & _ & Hsl).
  rewrite E in E2. simplify_eq.
  assert (write_locked e = false) as Hw.
  { destruct Hwf as (W & H & Hinv). destruct (write_locked e) eqn:Hw; [|done].
    pose proof (wf_unread _ _ _ _ _ _ Hinv He Hw). lia. }
  assert (abs s k = Ready (is_temporary e) (read_count e)) as Ha
    by (unfold abs; rewrite He; simpl; by rewrite Hw).
  destruct (spec_call_held s s2 c k _ _ Hs Hc Hr Ha Hh) as (t' & h' & Ha' & Hle).
  destruct (wf_ready_bytes _ _ _ _ Hwf' Ha') as (e' & He' & Hw' & <- & _ & Hb').
  destruct (wf_ready_bytes _ _ _ _ Hwf Ha) as (e1 & He1 & _ & _ & _ & Hb). simplify_eq.
  exists e'. split_and!; eauto.
Qed.

(** The L1 prefix lookup returns exactly the length of the longest
    prefix of ready chunks (a missing or write-locked chunk stops it), takes
    one read hold on each chunk of that prefix and none on any other. *)
Theorem reserve_read_prefix_exact s keys :
  l1_wf C s -> NoDup keys ->
  exists s' n, reserve_read_prefix keys s = (s', Ok n) /\ l1_wf C s' /\
    (n <= length keys)%nat /\
    (forall k, k ∈ take n keys -> ready (entries s) k) /\
    (forall k, keys !! n = Some k -> ~ ready (entries s) k) /\
    (forall k, entries s' !! k =
       if decide (k ∈ take n keys) then add_read_count 1 <$> entries s !! k
       else entries s !! k) /\
    pool_of s' = pool_of s /\ observers s' = observers s.
Proof.
  intros (W & H & Hinv) Hnd.
  destruct (reserve_read_prefix_spec C s W H keys Hinv Hnd) as (s' & E & [Hp _] & Hinv' & He & Ho).
  exists s', (prefix_count (key_readable (entries s)) keys).
  split_and!; [done|by eexists _, _|apply prefix_count_le| | | |done|done].
  - intros k Hk. apply key_readable_true.
    pose proof (prefix_count_take (key_readable (entries s)) keys) as Hall.
    rewrite Forall_forall in Hall. by apply Hall.
  - intros k Hk%prefix_count_stop. rewrite <- key_readable_true. by rewrite Hk.
  - intros k. rewrite He, update_keys_lookup by auto with pylist. done.
Qed.

Lemma evict_round_run (pol : O -> list ChunkKey) s r :
  int_truediv (used_bytes (allocator s)) (capacity (allocator s)) = Ok r ->
  evict_round pol s =
    if flt r WATERMARK then (s, Ok 0%nat)
    else match get_victims EVICTION_RATIO (is_evictable s) (pol (observers s)) with
         | Ok victims => delete_keys victims false s
         | Raise e => (s, Raise e)
         end.
Proof.
  intros Hr. unfold evict_round, l1_usage, below_watermark, bind, lift_res, get. simpl.
  rewrite Hr. simpl. destruct (flt r WATERMARK); [done|]. by destruct (get_victims _ _ _).
Qed.

End protocol_claims.

(** ** A small concrete manager

    Two chunks of two bytes in a pool of four, one of them held; the only
    listener is the LRU policy. *)

Inductive lru_ref := RLRU_only.

#[export] Instance lru_only_listener : Listener lru_ref (list ChunkKey) :=
  fun _ ev keys order => lru_dispatch ev keys order.

Lemma lru_only_observes : observes_lru id [RLRU_only].
Proof. done. Qed.

Definition ka : ChunkKey := mkChunkKey [Byte.x01] "m" 0.
Definition kb : ChunkKey := mkChunkKey [Byte.x02] "m" 0.
Definition toy_C (k : ChunkKey) : bytes := chunk_hash k ++ [Byte.xff].

Definition toy_l1 : L1 lru_ref (list ChunkKey) :=
  mkL1 (new_pool (replicate 4 Byte.x00)) ∅ [RLRU_only] [].

Definition toy_calls : list l1_call :=
  [ReserveWrite [ka; kb] 2 false; Fill ka (toy_C ka); Fill kb (toy_C kb);
   FinishWrite [ka; kb]; ReserveRead [ka]].

Definition toy_at (n : nat) : L1 lru_ref (list ChunkKey) :=
  foldl (fun s c => fst (run_call c s)) toy_l1 (take n toy_calls).

Lemma toy_pair {P : ChunkKey -> Prop} : P ka -> P kb -> forall k, k ∈ [ka; kb] -> P k.
Proof. intros Ha Hb k [->|[->|[]%not_elem_of_nil]%elem_of_cons]%elem_of_cons; done. Qed.

Lemma toy_nodup : NoDup [ka; kb].
Proof. by apply (bool_decide_unpack _). Qed.

Lemma toy_step n c :
  toy_calls !! n = Some c -> legal toy_C (toy_at n) c ->
  reach toy_C id (toy_at n) -> reach toy_C id (toy_at (S n)).
Proof.
  intros Hn Hc Hr. apply (reach_call _ _ _ c _ Hr Hc). unfold toy_at at 2.
  rewrite (take_S_r _ _ _ Hn), foldl_app. simpl. fold (toy_at n).
  destruct (reach_inv _ _ _ Hr) as [Hwf _].
  by destruct (run_call_ok _ _ _ Hwf Hc) as (s' & -> & _).
Qed.

Lemma toy_reach : reach toy_C id (toy_at 5).
Proof.
  apply (toy_step 4 _ eq_refl); [apply NoDup_singleton|].
  apply (toy_step 3 _ eq_refl).
  { split; [apply toy_nodup|].
    apply toy_pair; unfold filled; eexists; split_and!; vm_compute; reflexivity. }
  apply (toy_step 2 _ eq_refl); [eexists; split_and!; vm_compute; reflexivity|].
  apply (toy_step 1 _ eq_refl); [eexists; split_and!; vm_compute; reflexivity|].
  apply (toy_step 0 _ eq_refl); [split; [apply toy_nodup|done]|].
  by apply reach_new.
Qed.

Definition ka_entry : Entry := mkEntry (mkMemoryObj (mkView 0 2) 0) false 1 false.

Lemma toy_ka : entries (toy_at 5) !! ka = Some ka_entry.
Proof. vm_compute. reflexivity. Qed.

Lemma toy_wf : l1_wf toy_C (toy_at 5).
Proof. apply (reach_inv toy_C id _ toy_reach). Qed.

Lemma toy_lru : lru_agrees id (toy_at 5).
Proof. apply (reach_inv toy_C id _ toy_reach). Qed.

Lemma l1_reachable_safe_witness :
  reach toy_C id (toy_at 5) /\
  used_bytes (allocator (toy_at 5)) = 4 /\ id (observers (toy_at 5)) = [kb; ka] /\
  used_bytes (allocator (toy_at 5)) <= capacity (allocator (toy_at 5)).
Proof.
  split; [exact toy_reach|]. split; [reflexivity|]. split; [vm_compute; reflexivity|].
  apply (l1_reachable_safe toy_C id (toy_at 5) toy_reach).
Defined.


Lemma held_chunk_survives_witness :
  exists s', run_call (Delete [ka; kb] false) (toy_at 5) = (s', Ok tt) /\
    entries (toy_at 5) !! ka = Some ka_entry /\
    exists e', entries s' !! ka = Some e' /\ write_locked e' = false /\
      1 <= read_count e' /\ entry_obj e' = entry_obj ka_entry /\
      byte_array (entry_obj ka_entry) (pool_of (toy_at 5)) = toy_C ka /\
      byte_array (entry_obj e') (pool_of s') = toy_C ka.
Proof.
  assert (legal toy_C (toy_at 5) (Delete [ka; kb] false)) as Hc by (split; [apply toy_nodup|done]).
  destruct (run_call_ok _ _ _ toy_wf Hc) as (s' & E & _).
  exists s'. split; [exact E|]. split; [exact toy_ka|].
  exact (held_chunk_survives toy_C (toy_at 5) s' (Delete [ka; kb] false) ka ka_entry toy_wf Hc
           (fun f => f) E toy_ka eq_refl).
Defined.

Definition kc : ChunkKey := mkChunkKey [Byte.x03] "m" 0.

Lemma reserve_read_prefix_exact_witness :
  exists s' n, reserve_read_prefix [kb; kc; ka] (toy_at 5) = (s', Ok n) /\ n = 1%nat /\
    forall k, [kb; kc; ka] !! n = Some k -> ~ ready (entries (toy_at 5)) k.
Proof.
  destruct (reserve_read_prefix_exact toy_C (toy_at 5) [kb; kc; ka] toy_wf)
    as (s' & n & E & _ & _ & _ & Hstop & _).
  - by apply (bool_decide_unpack _).
  - exists s', n. split; [exact E|]. split; [|exact Hstop].
    assert (Ok n = Ok 1%nat) as [=]; [|done].
    transitivity (snd (reserve_read_prefix [kb; kc; ka] (toy_at 5))); [by rewrite E|].
    vm_compute. reflexivity.
Defined.

