(* ===== verification/L2.v ===== *)
(** Secondary storage: the interface of an adapter and its laws (l2/base.py),
    the adapter's worker with its futures, and the in-memory adapter
    (l2/mock.py).

    An adapter's operations read and fill slices of the L1 pool, so they take
    the pool bytes.  [L2Laws C ok] states what the storage stack needs of an
    adapter, for the contents [C] and the keys [ok] it is used with; the two
    adapters of the program are instances. *)
From S2P Require Import Prelude Protocol Memory.
Local Open Scope py_scope.
Local Open Scope Z_scope.

(** ** The adapter interface *)

Class L2Ops (A : Type) := {
  l2_store : list ChunkKey -> list MemoryObj -> bytes -> M A unit;
  l2_lookup : list ChunkKey -> M A nat;
  l2_load : list ChunkKey -> list MemoryObj -> M (A * bytes) nat
}.

(** The slices of a batch are in bounds, pairwise apart, and sized for the
    content of their key. *)
Definition slot_ok (C : ChunkKey -> bytes) (pool : bytes) (ko : ChunkKey * MemoryObj) : Prop :=
  view_ok ko.2 /\ (v_start (mo_tensor ko.2) + v_len (mo_tensor ko.2) <= length pool)%nat /\
  length (C ko.1) = v_len (mo_tensor ko.2).

Definition slots_ok (C : ChunkKey -> bytes) (pool : bytes) (kos : list (ChunkKey * MemoryObj))
    : Prop :=
  Forall (slot_ok C pool) kos /\
  forall i j ko ko', kos !! i = Some ko -> kos !! j = Some ko' -> i <> j ->
    obj_disjoint ko.2 ko'.2.

(** The bytes a batch of loads leaves in the pool: its first [n] slices. *)
Definition fill_slots (C : ChunkKey -> bytes) (kos : list (ChunkKey * MemoryObj)) (pool : bytes)
    : bytes :=
  foldl (fun p ko => view_write (mo_tensor ko.2) (C ko.1) p) pool kos.

Class L2Laws (A : Type) `{!L2Ops A} (C : ChunkKey -> bytes) (ok : ChunkKey -> Prop) := {
  l2_get : A -> ChunkKey -> option bytes;
  l2_inv : A -> Prop;
  (** Whatever is stored is the content of its key. *)
  l2_faithful a k b : l2_inv a -> ok k -> l2_get a k = Some b -> b = C k;
  l2_store_law a kos pool :
    l2_inv a -> Forall (fun ko => ok ko.1 /\ byte_array ko.2 pool = C ko.1) kos ->
    exists a', l2_store kos.*1 kos.*2 pool a = (a', Ok tt) /\ l2_inv a' /\
      forall k, ok k -> l2_get a' k = if decide (k ∈ kos.*1) then Some (C k) else l2_get a k;
  l2_lookup_law a keys :
    l2_inv a -> Forall ok keys ->
    l2_lookup keys a = (a, Ok (prefix_count (fun k => bool_decide (is_Some (l2_get a k))) keys));
  l2_load_law a kos pool :
    l2_inv a -> Forall (fun ko => ok ko.1) kos -> slots_ok C pool kos ->
    let n := prefix_count (fun k => bool_decide (is_Some (l2_get a k))) kos.*1 in
    l2_load kos.*1 kos.*2 (a, pool) = ((a, fill_slots C (take n kos) pool), Ok n)
}.

(** ** The worker of an adapter (class L2Adapter)

    [submit] queues a task with a fresh future; [run] takes the oldest task,
    runs it and settles its future with the result or the exception. *)

Inductive l2_task :=
| TStore (keys : list ChunkKey) (objs : list MemoryObj)
| TLookup (keys : list ChunkKey)
| TLoad (keys : list ChunkKey) (objs : list MemoryObj).

Section worker.
Context {A : Type} `{!L2Ops A}.

Record Worker := mkWorker {
  w_adapter : A;
  w_tasks : list (nat * l2_task);
  w_futures : gmap nat (option (res nat));
  w_next : nat
}.

(** [fn( *args )] on the adapter and the pool; [store] returns no count. *)
Definition run_task (t : l2_task) : M (A * bytes) nat :=
  match t with
  | TStore keys objs => fun ap =>
      let (a', r) := l2_store keys objs ap.2 ap.1 in
      ((a', ap.2), res_bind r (fun _ => Ok 0%nat))
  | TLookup keys => fun ap => let (a', r) := l2_lookup keys ap.1 in ((a', ap.2), r)
  | TLoad keys objs => l2_load keys objs
  end.

Definition submit (t : l2_task) (w : Worker) : Worker * nat :=
  (mkWorker (w_adapter w) (w_tasks w ++ [(w_next w, t)])
            (<[w_next w := None]> (w_futures w)) (S (w_next w)), w_next w).

(** One iteration of [run]; [None] while the queue is empty (it blocks). *)
Definition worker_step (wp : Worker * bytes) : option (Worker * bytes) :=
  let (w, pool) := wp in
  match w_tasks w with
  | [] => None
  | (fid, t) :: tasks' =>
      let '((a', pool'), r) := run_task t (w_adapter w, pool) in
      Some (mkWorker a' tasks' (<[fid := Some r]> (w_futures w)) (w_next w), pool')
  end.

Fixpoint drain (n : nat) (wp : Worker * bytes) : Worker * bytes :=
  match n with
  | O => wp
  | S n' => match worker_step wp with Some wp' => drain n' wp' | None => wp end
  end.

(** Running the queue in order, with the result of each task. *)
Fixpoint run_tasks (ts : list (nat * l2_task)) (ap : A * bytes)
    : (A * bytes) * list (nat * res nat) :=
  match ts with
  | [] => (ap, [])
  | (fid, t) :: ts' =>
      let (ap', r) := run_task t ap in
      let (ap'', rs) := run_tasks ts' ap' in (ap'', (fid, r) :: rs)
  end.

Definition worker_ok (w : Worker) : Prop :=
  NoDup (w_tasks w).*1 /\ Forall (fun ft => w_futures w !! ft.1 = Some None) (w_tasks w) /\
  (forall fid, is_Some (w_futures w !! fid) <-> (fid < w_next w)%nat).
End worker.
Arguments Worker : clear implicits.

(** ** MockAdapter *)

Record Mock := mkMock { chunks : gmap ChunkKey bytes }.

Definition mock_store_one (pool : bytes) (ko : ChunkKey * MemoryObj) : M Mock unit :=
  modify (fun a => mkMock (<[ko.1 := byte_array ko.2 pool]> (chunks a))).
Definition mock_store (keys : list ChunkKey) (objs : list MemoryObj) (pool : bytes) : M Mock unit :=
  for_each (zip keys objs) (mock_store_one pool).

Fixpoint mock_count (m : gmap ChunkKey bytes) (keys : list ChunkKey) (hits : nat) : nat :=
  match keys with
  | [] => hits
  | key :: keys' => match m !! key with
                    | None => hits
                    | Some _ => mock_count m keys' (S hits)
                    end
  end.
Definition mock_lookup (keys : list ChunkKey) : M Mock nat :=
  fun a => (a, Ok (mock_count (chunks a) keys 0)).

(** The loop of [load]: stop at the first missing chunk. *)
Fixpoint mock_load_loop (kos : list (ChunkKey * MemoryObj)) (loaded : nat) : M (Mock * bytes) nat :=
  match kos with
  | [] => ret loaded
  | (key, obj) :: kos' => fun ap =>
      match chunks ap.1 !! key with
      | None => (ap, Ok loaded)
      | Some data =>
          match byte_array_assign obj data ap.2 with
          | (pool', Ok _) => mock_load_loop kos' (S loaded) (ap.1, pool')
          | (pool', Raise e) => ((ap.1, pool'), Raise e)
          end
      end
  end.
Definition mock_load (keys : list ChunkKey) (objs : list MemoryObj) : M (Mock * bytes) nat :=
  mock_load_loop (zip keys objs) 0.

#[export] Instance mock_ops : L2Ops Mock := {
  l2_store := mock_store; l2_lookup := mock_lookup; l2_load := mock_load
}.

(** ** Lemmas on batches of slices *)

Lemma zip_fst_snd {X Y} (l : list (X * Y)) : zip l.*1 l.*2 = l.
Proof. induction l as [|[x y] l IH]; csimpl; [done|]. by rewrite IH. Qed.

Lemma slots_ok_cons C pool ko kos :
  slots_ok C pool (ko :: kos) -> slot_ok C pool ko /\ slots_ok C pool kos /\
    forall ko', ko' ∈ kos -> obj_disjoint ko.2 ko'.2.
Proof.
  intros [Hall Hd]. apply Forall_cons in Hall as [H1 H2]. split; [done|]. split; [split; [done|]|].
  - intros i j k1 k2 Hi Hj Hne. apply (Hd (S i) (S j) k1 k2); [done|done|lia].
  - intros ko' [i Hi]%list_elem_of_lookup. by apply (Hd 0%nat (S i)).
Qed.

Lemma slots_ok_length C p p' kos : length p = length p' -> slots_ok C p kos -> slots_ok C p' kos.
Proof. unfold slots_ok, slot_ok. by intros ->. Qed.

Lemma slot_write_length C pool ko :
  slot_ok C pool ko -> length (view_write (mo_tensor ko.2) (C ko.1) pool) = length pool.
Proof. intros (_ & Hb & Hl). apply view_write_length. lia. Qed.

Lemma fill_slots_length C kos pool :
  slots_ok C pool kos -> length (fill_slots C kos pool) = length pool.
Proof.
  revert pool. induction kos as [|ko kos IH]; intros pool Hok; [done|].
  apply slots_ok_cons in Hok as (H1 & H2 & _). unfold fill_slots in *. simpl.
  rewrite IH; [by apply slot_write_length|].
  eapply slots_ok_length; [|exact H2]. symmetry. by apply slot_write_length.
Qed.

(** Slices apart from a batch keep their bytes. *)
Lemma fill_slots_other C kos pool o :
  slots_ok C pool kos -> view_ok o ->
  (v_start (mo_tensor o) + v_len (mo_tensor o) <= length pool)%nat ->
  (forall ko, ko ∈ kos -> obj_disjoint ko.2 o) ->
  byte_array o (fill_slots C kos pool) = byte_array o pool.
Proof.
  revert pool. induction kos as [|ko kos IH]; intros pool Hok Hv Hb Hd; [done|].
  pose proof (slots_ok_cons _ _ _ _ Hok) as (H1 & H2 & _).
  pose proof (slot_write_length _ _ _ H1) as Hlen. unfold fill_slots in *. simpl.
  rewrite IH; [|by eapply slots_ok_length; [symmetry; exact Hlen|]|done|lia|set_solver].
  destruct H1 as (Hv1 & Hb1 & Hl1). apply view_read_write_ne; [lia|done|].
  apply obj_disjoint_views; [done|done|]. apply Hd. set_solver.
Qed.

(** Each filled slice holds the content of its key. *)
Lemma fill_slots_in C kos pool ko :
  slots_ok C pool kos -> ko ∈ kos -> byte_array ko.2 (fill_slots C kos pool) = C ko.1.
Proof.
  revert pool. induction kos as [|ko' kos IH]; intros pool Hok Hin; [set_solver|].
  pose proof (slots_ok_cons _ _ _ _ Hok) as (H1 & H2 & Hd).
  pose proof (slot_write_length _ _ _ H1) as Hlen. unfold fill_slots in *. simpl.
  assert (slots_ok C (view_write (mo_tensor ko'.2) (C ko'.1) pool) kos) as Hok'
    by (by eapply slots_ok_length; [symmetry; exact Hlen|]).
  apply elem_of_cons in Hin as [->|Hin]; [|by apply IH].
  destruct H1 as (Hv & Hb & Hl).
  etrans; [apply fill_slots_other; [done|done|lia|]|].
  - intros ko Hko. apply obj_disjoint_sym. by apply Hd.
  - apply view_read_write; lia.
Qed.

Lemma slot_assign C pool ko :
  slot_ok C pool ko ->
  byte_array_assign ko.2 (C ko.1) pool = (view_write (mo_tensor ko.2) (C ko.1) pool, Ok tt).
Proof. intros (_ & _ & Hl). unfold byte_array_assign. by rewrite decide_True. Qed.

(** A loop that counts the leading keys satisfying a test. *)
Lemma mock_count_prefix m keys n :
  mock_count m keys n = (n + prefix_count (fun k => bool_decide (is_Some (m !! k))) keys)%nat.
Proof.
  revert n. induction keys as [|k keys IH]; intros n; simpl; [lia|].
  destruct (m !! k) as [b|]; [|rewrite bool_decide_eq_false_2 by (intros []; done); lia].
  rewrite bool_decide_eq_true_2, IH by eauto. lia.
Qed.

Section mock_laws.
Context (C : ChunkKey -> bytes) (ok : ChunkKey -> Prop).

Definition mock_inv (a : Mock) : Prop := forall k b, ok k -> chunks a !! k = Some b -> b = C k.

Lemma mock_store_spec a kos pool :
  mock_inv a -> Forall (fun ko => ok ko.1 /\ byte_array ko.2 pool = C ko.1) kos ->
  exists a', mock_store kos.*1 kos.*2 pool a = (a', Ok tt) /\ mock_inv a' /\
    forall k, ok k -> chunks a' !! k = if decide (k ∈ kos.*1) then Some (C k) else chunks a !! k.
Proof.
  unfold mock_store. rewrite zip_fst_snd. intros Ha Hkos. revert a Ha.
  induction Hkos as [|[k o] kos [Hk Hb] _ IH]; intros a Ha.
  { exists a. split_and!; [done|done|]. intros k _. by rewrite decide_False by apply not_elem_of_nil. }
  simpl in *. destruct (IH (mkMock (<[k := C k]> (chunks a)))) as (a' & E & Ha' & Hl).
  { intros k' b Hk'. simpl. rewrite lookup_insert.
    destruct (decide (k = k')) as [<-|]; [by intros [= <-]|by apply Ha]. }
  exists a'. unfold bind, mock_store_one, modify. simpl. rewrite Hb.
  split_and!; [exact E|done|].
  intros k' Hk'. rewrite Hl by done. csimpl. rewrite lookup_insert.
  destruct (decide (k' ∈ kos.*1)), (decide (k = k')), (decide (k' ∈ k :: kos.*1)); set_solver.
Qed.

Lemma mock_load_spec a kos pool loaded :
  mock_inv a -> Forall (fun ko => ok ko.1) kos -> slots_ok C pool kos ->
  let n := prefix_count (fun k => bool_decide (is_Some (chunks a !! k))) kos.*1 in
  mock_load_loop kos loaded (a, pool)
    = ((a, fill_slots C (take n kos) pool), Ok (loaded + n)%nat).
Proof.
  intros Ha Hok. revert pool loaded. induction Hok as [|[k o] kos Hk _ IH]; intros pool loaded Hs.
  { simpl. by rewrite Nat.add_0_r. }
  apply slots_ok_cons in Hs as (H1 & H2 & _). csimpl in *.
  destruct (chunks a !! k) as [b|] eqn:Hb.
  - rewrite bool_decide_eq_true_2 by eauto. rewrite (Ha k b Hk Hb).
    pose proof (slot_assign _ _ _ H1) as Ea. simpl in Ea. rewrite Ea, IH.
    2: { eapply slots_ok_length; [symmetry; exact (slot_write_length _ _ _ H1)|done]. }
    unfold fill_slots. simpl. do 2 f_equal. lia.
  - rewrite bool_decide_eq_false_2 by (intros []; done). simpl. by rewrite Nat.add_0_r.
Qed.

#[export] Program Instance mock_laws : L2Laws Mock C ok := {
  l2_get a k := chunks a !! k; l2_inv := mock_inv
}.
Next Obligation. intros a k b Ha Hk. by apply Ha. Qed.
Next Obligation. intros. by apply mock_store_spec. Qed.
Next Obligation.
  intros a keys _ _. simpl. unfold mock_lookup. do 2 f_equal. apply mock_count_prefix.
Qed.
Next Obligation.
  intros a kos pool Ha Hok Hs. simpl. unfold mock_load. rewrite zip_fst_snd.
  by apply mock_load_spec.
Qed.
End mock_laws.

(** ** The worker serves tasks in order and settles every future *)

Section worker_proofs.
Context {A : Type} `{!L2Ops A}.
Implicit Types (w : Worker A).

Lemma submit_ok t w : worker_ok w -> worker_ok (submit t w).1.
Proof.
  intros (Hnd & Hall & Hdom). unfold submit, worker_ok. simpl.
  assert (forall fid, fid ∈ (w_tasks w).*1 -> (fid < w_next w)%nat) as Hlt.
  { intros fid ([f t'] & -> & Hin)%list_elem_of_fmap. apply Hdom.
    rewrite Forall_forall in Hall. rewrite (Hall _ Hin). eauto. }
  split_and!.
  - rewrite fmap_app. apply NoDup_app. split_and!; [done| |apply NoDup_singleton].
    intros fid Hin%Hlt ->%list_elem_of_singleton. simpl in Hin. lia.
  - apply Forall_app. split; [|by repeat constructor; simpl; rewrite lookup_insert_eq].
    apply Forall_forall. intros [f t'] Hin. simpl. rewrite lookup_insert_ne.
    + rewrite Forall_forall in Hall. apply (Hall _ Hin).
    + assert (f < w_next w)%nat; [|lia]. apply Hlt, list_elem_of_fmap. by exists (f, t').
  - intros fid. rewrite lookup_insert. destruct (decide (w_next w = fid)) as [<-|].
    + split; [lia|eauto].
    + rewrite Hdom. lia.
Qed.

Lemma drain_run_tasks ts w pool :
  w_tasks w = ts -> NoDup ts.*1 ->
  let '((a', pool'), rs) := run_tasks ts (w_adapter w, pool) in
  drain (length ts) (w, pool) =
    (mkWorker a' [] (foldl (fun m fr => <[fr.1 := Some fr.2]> m) (w_futures w) rs) (w_next w),
     pool') /\ rs.*1 = ts.*1.
Proof.
  revert w pool. induction ts as [|[fid t] ts IH]; intros w pool Hts Hnd.
  { simpl. destruct w; simpl in *; by subst. }
  simpl. rewrite Hts. destruct (run_task t (w_adapter w, pool)) as [[a1 p1] r] eqn:Et.
  destruct (run_tasks ts (a1, p1)) as [[a' p'] rs] eqn:Er.
  apply NoDup_cons in Hnd as [_ Hnd].
  specialize (IH (mkWorker a1 ts (<[fid := Some r]> (w_futures w)) (w_next w)) p1 eq_refl Hnd).
  simpl in IH. rewrite Er in IH. destruct IH as [-> Hrs]. split; [done|]. csimpl. by rewrite Hrs.
Qed.

Lemma settle_lookup (rs : list (nat * res nat)) (m : gmap nat (option (res nat))) fid r :
  NoDup rs.*1 -> (fid, r) ∈ rs ->
  foldl (fun m fr => <[fr.1 := Some fr.2]> m) m rs !! fid = Some (Some r).
Proof.
  assert (forall rs (m : gmap nat (option (res nat))) fid, fid ∉ rs.*1 ->
    foldl (fun m fr => <[fr.1 := Some fr.2]> m) m rs !! fid = m !! fid) as Hnot.
  { clear. induction rs as [|[f r] rs IH]; intros m fid Hf; [done|]. csimpl in *.
    rewrite IH, lookup_insert_ne by set_solver. done. }
  revert m. induction rs as [|[f r'] rs IH]; intros m Hnd Hin; [set_solver|].
  csimpl in *. apply NoDup_cons in Hnd as [Hf Hnd].
  apply elem_of_cons in Hin as [[= <- <-]|Hin]; [|by apply IH].
  by rewrite Hnot, lookup_insert_eq.
Qed.

(** C35: the worker of an adapter runs the queued tasks one by one in
    submission order, an exception in one does not stop it, and when the
    queue is empty every submitted future holds the result (or the
    exception) of its own task. *)
Theorem worker_serves_in_order w pool :
  worker_ok w ->
  let '((a', pool'), rs) := run_tasks (w_tasks w) (w_adapter w, pool) in
  exists w', drain (length (w_tasks w)) (w, pool) = (w', pool') /\
    w_tasks w' = [] /\ w_adapter w' = a' /\ worker_step (w', pool') = None /\
    rs.*1 = (w_tasks w).*1 /\
    (forall fid r, (fid, r) ∈ rs -> w_futures w' !! fid = Some (Some r)) /\
    (forall fid t, (fid, t) ∈ w_tasks w -> exists r, w_futures w' !! fid = Some (Some r)).
Proof.
  intros (Hnd & _ & _). pose proof (drain_run_tasks _ w pool eq_refl Hnd) as Hd.
  destruct (run_tasks (w_tasks w) (w_adapter w, pool)) as [[a' p'] rs].
  destruct Hd as [Hd Hrs].
  assert (forall fid r, (fid, r) ∈ rs ->
    foldl (fun m fr => <[fr.1 := Some fr.2]> m) (w_futures w) rs !! fid = Some (Some r)) as Hset
    by (intros fid r Hin; apply settle_lookup; [by rewrite Hrs|done]).
  eexists. split; [exact Hd|]. split_and!; [done|done|done|done|done|].
  intros fid t Hin. assert (fid ∈ rs.*1) as Hf
    by (rewrite Hrs; apply list_elem_of_fmap; by exists (fid, t)).
  apply list_elem_of_fmap in Hf as ([f r] & -> & Hin'). eauto.
Qed.

(** A caller that submits to an idle worker and waits gets what a direct
    call would give. *)
Lemma submit_wait t w pool :
  worker_ok w -> w_tasks w = [] ->
  let '((a', pool'), r) := run_task t (w_adapter w, pool) in
  let (w1, fid) := submit t w in
  exists w2, drain 1 (w1, pool) = (w2, pool') /\ w_adapter w2 = a' /\ w_tasks w2 = [] /\
    w_futures w2 !! fid = Some (Some r).
Proof.
  intros _ Ht. destruct (run_task t (w_adapter w, pool)) as [[a' p'] r] eqn:Et. simpl.
  rewrite Ht. simpl. rewrite Et. eexists. split_and!; [done..|]. simpl. apply lookup_insert_eq.
Qed.
End worker_proofs.

(** ** Storing, then looking up and loading *)

Section roundtrip.
Context {A : Type} (C : ChunkKey -> bytes) (ok : ChunkKey -> Prop) `{!L2Ops A} `{!L2Laws A C ok}.

End roundtrip.

(** *** Instances for the witnesses: one-byte chunks in a four-byte pool *)

Definition one_byte (k : ChunkKey) : bytes := take 1 (chunk_hash k).
Definition any_key (_ : ChunkKey) : Prop := True.
Definition k1 : ChunkKey := mkChunkKey [Byte.x01] "m" 0.
Definition k2 : ChunkKey := mkChunkKey [Byte.x02] "m" 0.
Definition slot_at (i : nat) : MemoryObj := mkMemoryObj (mkView i 1) (Z.of_nat i).
Definition four : bytes := [Byte.x01; Byte.x02; Byte.x00; Byte.x00].

Lemma two_slots : slots_ok one_byte four [(k1, slot_at 2); (k2, slot_at 3)].
Proof.
  split; [repeat constructor; simpl; lia|].
  intros [|[|i]] [|[|j]] ko ko' Hi Hj Hne; simplify_eq/=;
    unfold obj_disjoint, seg_disjoint; simpl; unfold obj_nbytes; simpl; lia.
Qed.

Lemma two_stored :
  Forall (fun ko => any_key ko.1 /\ byte_array ko.2 four = one_byte ko.1)
         [(k1, slot_at 0); (k2, slot_at 1)].
Proof. repeat constructor. Qed.


Definition toy_worker : Worker Mock :=
  fst (submit (TLookup [k2])
    (fst (submit (TLoad [k1] [slot_at 0; slot_at 1])
      (fst (submit (TStore [k1] [slot_at 0]) (mkWorker (mkMock ∅) [] ∅ 0)))))).

Lemma toy_worker_ok : worker_ok toy_worker.
Proof.
  do 3 apply submit_ok. split_and!; [constructor|constructor|]. intros fid. simpl.
  rewrite lookup_empty. split; [by intros []|lia].
Qed.

Lemma worker_serves_in_order_witness :
  worker_ok toy_worker /\
  exists w' pool', drain 3 (toy_worker, four) = (w', pool') /\ w_tasks w' = [] /\
    w_futures w' !! 0%nat = Some (Some (Ok 0%nat)) /\ w_futures w' !! 1%nat = Some (Some (Ok 1%nat)) /\
    w_futures w' !! 2%nat = Some (Some (Ok 0%nat)).
Proof.
  split; [exact toy_worker_ok|].
  pose proof (worker_serves_in_order toy_worker four toy_worker_ok) as H.
  destruct (run_tasks (w_tasks toy_worker) (w_adapter toy_worker, four)) as [[a' pool'] rs] eqn:E.
  destruct H as (w' & Ed & Ht & _ & _ & _ & Hf & _).
  assert (rs = [(0%nat, Ok 0%nat); (1%nat, Ok 1%nat); (2%nat, Ok 0%nat)]) as Hrs.
  { transitivity (snd (run_tasks (w_tasks toy_worker) (w_adapter toy_worker, four)));
      [by rewrite E|vm_compute; reflexivity]. }
  exists w', pool'. split; [exact Ed|]. split; [exact Ht|].
  split; [|split]; apply Hf; rewrite Hrs; set_solver.
Defined.
