(* ===== verification/L2FS.v ===== *)
(** Filesystem adapter (l2/fs.py): one file per chunk, written through a
    temporary file and an atomic rename.

    The disk is two maps from file names to contents: the base directory and
    its [tmp] subdirectory. *)
From S2P Require Import Prelude Protocol Memory L2.
From Stdlib Require Import Ascii.
Local Open Scope py_scope.

(** ** File names *)

Definition hex_char (d : N) : ascii :=
  if (d <? 10)%N then ascii_of_N (48 + d) else ascii_of_N (87 + d).

(** [f"{n:x}"] of a natural number: its digits, most significant first. *)
Fixpoint hex_digits (fuel : nat) (n : N) (acc : string) : string :=
  match fuel with
  | O => acc
  | S fuel' =>
      let acc' := String (hex_char (n mod 16)) acc in
      if (n <? 16)%N then acc' else hex_digits fuel' (n / 16) acc'
  end.
Definition hex_N (n : N) : string := hex_digits (S (N.size_nat n)) n "".
Definition hex_Z (z : Z) : string :=
  if (z <? 0)%Z then String "-" (hex_N (Z.to_N (- z))) else hex_N (Z.to_N z).

(** [bytes.hex()] *)
Fixpoint hex_bytes (l : bytes) : string :=
  match l with
  | [] => ""
  | b :: l' => String (hex_char (Byte.to_N b / 16)) (String (hex_char (Byte.to_N b mod 16)) (hex_bytes l'))
  end.

(** [s.replace('/', '-')] *)
Fixpoint sanitize (s : string) : string :=
  match s with
  | EmptyString => ""
  | String c s' => String (if decide (c = "/"%char) then "-"%char else c) (sanitize s')
  end.

Definition filename (key : ChunkKey) : string :=
  (sanitize (key_model key) +:+ "@" +:+ hex_Z (key_rank key) +:+ "@" +:+
   hex_bytes (chunk_hash key) +:+ ".data")%string.

(** ** The adapter *)

Record FS := mkFS {
  fs_base : gmap string bytes;
  fs_tmp : gmap string bytes
}.

(** [tmp.write_bytes(data)] and [os.replace(tmp, final)] *)
Definition fs_write_tmp (name : string) (data : bytes) : M FS unit :=
  modify (fun fs => mkFS (fs_base fs) (<[name := data]> (fs_tmp fs))).
Definition fs_replace (name : string) : M FS unit :=
  fun fs => match fs_tmp fs !! name with
            | None => (fs, Raise OSError)
            | Some data => (mkFS (<[name := data]> (fs_base fs)) (delete name (fs_tmp fs)), Ok tt)
            end.

Definition fs_store_one (pool : bytes) (ko : ChunkKey * MemoryObj) : M FS unit :=
  let* fs := get in
  match fs_base fs !! filename ko.1 with
  | Some _ => ret tt
  | None =>
      let* _ := fs_write_tmp (filename ko.1) (byte_array ko.2 pool) in
      fs_replace (filename ko.1)
  end.
Definition fs_store (keys : list ChunkKey) (objs : list MemoryObj) (pool : bytes) : M FS unit :=
  for_each (zip keys objs) (fs_store_one pool).

Fixpoint fs_count (m : gmap string bytes) (keys : list ChunkKey) (hits : nat) : nat :=
  match keys with
  | [] => hits
  | key :: keys' => match m !! filename key with
                    | None => hits
                    | Some _ => fs_count m keys' (S hits)
                    end
  end.
Definition fs_lookup (keys : list ChunkKey) : M FS nat :=
  fun fs => (fs, Ok (fs_count (fs_base fs) keys 0)).

(** [f.readinto(obj.byte_array)]: fills the view from the start of the file,
    as far as both reach, and returns the number of bytes read. *)
Definition readinto (obj : MemoryObj) (file : bytes) (pool : bytes) : bytes * Z :=
  let data := take (v_len (mo_tensor obj)) file in
  (view_write (mo_tensor obj) data pool, Zlen data).

Fixpoint fs_load_loop (kos : list (ChunkKey * MemoryObj)) (loaded : nat) : M (FS * bytes) nat :=
  match kos with
  | [] => ret loaded
  | (key, obj) :: kos' => fun ap =>
      match fs_base ap.1 !! filename key with
      | None => (ap, Ok loaded)
      | Some file =>
          let (pool', n) := readinto obj file ap.2 in
          if (n =? obj_nbytes obj)%Z then fs_load_loop kos' (S loaded) (ap.1, pool')
          else ((ap.1, pool'), Ok loaded)
      end
  end.
Definition fs_load (keys : list ChunkKey) (objs : list MemoryObj) : M (FS * bytes) nat :=
  fs_load_loop (zip keys objs) 0.

#[export] Instance fs_ops : L2Ops FS := {
  l2_store := fs_store; l2_lookup := fs_lookup; l2_load := fs_load
}.

(** ** File names are injective on distinct sanitized models *)

Definition chars (s : string) : list ascii := String.list_ascii_of_string s.

Lemma chars_app s t : chars (s +:+ t)%string = chars s ++ chars t.
Proof. unfold chars. induction s as [|c s IH]; simpl; [done|]. by rewrite IH. Qed.

Lemma chars_inj s t : chars s = chars t -> s = t.
Proof.
  intros H. rewrite <- (String.string_of_list_ascii_of_string s),
    <- (String.string_of_list_ascii_of_string t). by f_equal.
Qed.

Definition hex_value (c : ascii) : N :=
  let n := N_of_ascii c in if (n <? 58)%N then (n - 48)%N else (n - 87)%N.

Definition is_hex (c : ascii) : bool :=
  let n := N_of_ascii c in ((48 <=? n) && (n <? 58) || (97 <=? n) && (n <? 103))%N.

Lemma hex_char_all :
  forallb (fun d => ((hex_value (hex_char d) =? d)%N && is_hex (hex_char d))%bool)
          (N.of_nat <$> seq 0 16) = true.
Proof. vm_compute. reflexivity. Qed.

Lemma hex_char_ok d : (d < 16)%N -> hex_value (hex_char d) = d /\ is_hex (hex_char d) = true.
Proof.
  intros Hd. pose proof hex_char_all as Hall. rewrite forallb_Forall, Forall_forall in Hall.
  specialize (Hall d). cbv beta in Hall. rewrite andb_true_iff, N.eqb_eq in Hall. apply Hall.
  apply list_elem_of_fmap. exists (N.to_nat d). split; [lia|]. apply elem_of_seq. lia.
Qed.

Definition unhex (l : list ascii) : N := foldl (fun v c => (16 * v + hex_value c)%N) 0%N l.

(** [acc] is a suffix already produced. *)
Lemma hex_digits_spec fuel n acc :
  (n < 16 ^ N.of_nat fuel)%N ->
  exists ds, chars (hex_digits fuel n acc) = ds ++ chars acc /\ unhex ds = n /\
             Forall (fun c => is_hex c = true) ds.
Proof.
  revert n acc. induction fuel as [|fuel IH]; intros n acc Hn.
  { exists []. simpl in *. split_and!; [done| |constructor]. unfold unhex. simpl. lia. }
  assert (n mod 16 < 16)%N as Hm by (apply N.mod_lt; lia).
  destruct (hex_char_ok (n mod 16) Hm) as [Hv Hx]. cbn [hex_digits].
  destruct (N.ltb_spec n 16) as [Hlt|Hge].
  - exists [hex_char (n mod 16)]. split_and!; [done| |by repeat constructor].
    unfold unhex. simpl foldl. rewrite Hv, N.mod_small by done. lia.
  - destruct (IH (n / 16)%N (String (hex_char (n mod 16)) acc)) as (ds & Hds & Hu & Hall).
    { apply N.Div0.div_lt_upper_bound. rewrite Nat2N.inj_succ, N.pow_succ_r in Hn; lia. }
    exists (ds ++ [hex_char (n mod 16)]). rewrite Hds, <- app_assoc. split_and!; [done| |].
    + unfold unhex in *. rewrite foldl_snoc, Hu, Hv. pose proof (N.div_mod n 16). lia.
    + apply Forall_app. split; [done|by repeat constructor].
Qed.

Lemma hex_N_spec n :
  unhex (chars (hex_N n)) = n /\ Forall (fun c => is_hex c = true) (chars (hex_N n)).
Proof.
  destruct (hex_digits_spec (S (N.size_nat n)) n "") as (ds & Hds & Hu & Hall).
  - apply (N.lt_le_trans _ (2 ^ N.size n)); [apply N.size_gt|].
    assert (N.size n = N.of_nat (N.size_nat n)) as -> by by destruct n as [|p]; simpl; [|induction p; simpl; lia].
    etrans; [apply N.pow_le_mono_r; [lia|]|apply N.pow_le_mono_l; lia]. lia.
  - unfold hex_N. rewrite Hds, app_nil_r. done.
Qed.

(** A rank or a digest spells hexadecimal digits (a sign apart): no ['@']. *)
Definition no_at (l : list ascii) : Prop := "@"%char ∉ l.

Lemma hex_no_at l : Forall (fun c => is_hex c = true) l -> no_at l.
Proof. intros Hl Hin. rewrite Forall_forall in Hl. by specialize (Hl _ Hin). Qed.

Lemma hex_Z_no_at z : no_at (chars (hex_Z z)).
Proof.
  unfold hex_Z. destruct (z <? 0)%Z; [|apply hex_no_at, hex_N_spec].
  intros [Heq|Hin]%elem_of_cons; [done|]. by apply (hex_no_at _ (proj2 (hex_N_spec _))) in Hin.
Qed.

Lemma hex_Z_inj y z : hex_Z y = hex_Z z -> y = z.
Proof.
  assert (forall n m, hex_N n = hex_N m -> n = m) as Hinj.
  { intros n m H. rewrite <- (proj1 (hex_N_spec n)), <- (proj1 (hex_N_spec m)). by rewrite H. }
  assert (forall n m, String "-" (hex_N n) <> hex_N m) as Hsign.
  { intros n m H. pose proof (proj2 (hex_N_spec m)) as Hall. rewrite <- H in Hall. simpl in Hall.
    by inversion Hall. }
  unfold hex_Z. destruct (Z.ltb_spec y 0), (Z.ltb_spec z 0).
  - intros [= H1%Hinj]. lia.
  - by intros H1%Hsign.
  - intros H1. symmetry in H1. by apply Hsign in H1.
  - intros H1%Hinj. lia.
Qed.

Lemma hex_bytes_no_at h : no_at (chars (hex_bytes h)).
Proof.
  apply hex_no_at. induction h as [|b h IH]; [constructor|].
  pose proof (Byte.to_N_bounded b) as Hb.
  simpl. constructor; [|constructor; [|exact IH]]; apply hex_char_ok.
  - apply N.Div0.div_lt_upper_bound. lia.
  - apply N.mod_lt. lia.
Qed.

Lemma hex_bytes_inj g h : hex_bytes g = hex_bytes h -> g = h.
Proof.
  revert h. induction g as [|b g IH]; intros [|c h]; simpl; [done..|].
  intros [= H1 H2 H3%IH]. subst h. f_equal.
  assert (forall d, (Byte.to_N d / 16 < 16 /\ Byte.to_N d mod 16 < 16)%N) as Hlt.
  { intros d. pose proof (Byte.to_N_bounded d). split; [|apply N.mod_lt; lia].
    apply N.Div0.div_lt_upper_bound. lia. }
  assert (forall d d', (d < 16)%N -> (d' < 16)%N -> hex_char d = hex_char d' -> d = d') as Hinj.
  { intros d d' Hd Hd' Heq. rewrite <- (proj1 (hex_char_ok d Hd)), <- (proj1 (hex_char_ok d' Hd')).
    by f_equal. }
  apply Hinj in H1; [|apply Hlt..]. apply Hinj in H2; [|apply Hlt..].
  assert (Byte.to_N b = Byte.to_N c) as Hbc.
  { rewrite (N.div_mod (Byte.to_N b) 16), (N.div_mod (Byte.to_N c) 16) by lia. congruence. }
  apply (f_equal Byte.of_N) in Hbc. rewrite !Byte.of_to_N in Hbc. by simplify_eq.
Qed.

(** The last separator of a name splits it. *)
Lemma split_last_at (a b c d : list ascii) :
  no_at b -> no_at d -> a ++ "@"%char :: b = c ++ "@"%char :: d -> a = c /\ b = d.
Proof.
  intros Hb Hd. revert c. induction a as [|x a IH]; intros [|y c] H; simpl in H.
  - by simplify_eq.
  - injection H as <- H. exfalso. apply Hb. rewrite H. set_solver.
  - injection H as -> H. exfalso. apply Hd. rewrite <- H. set_solver.
  - injection H as -> H. destruct (IH c H) as [-> ->]. done.
Qed.

Lemma filename_parts k k' :
  filename k = filename k' ->
  sanitize (key_model k) = sanitize (key_model k') /\ key_rank k = key_rank k' /\
  chunk_hash k = chunk_hash k'.
Proof.
  unfold filename. intros H%(f_equal chars). rewrite !chars_app in H.
  rewrite !app_assoc in H. apply app_inv_tail in H. rewrite <- !app_assoc in H. simpl in H.
  assert (forall s r h, chars s ++ "@"%char :: chars r ++ "@"%char :: chars h
    = (chars s ++ "@"%char :: chars r) ++ "@"%char :: chars h) as Hassoc
    by (intros; by rewrite <- app_assoc).
  rewrite ?Hassoc in H.
  apply split_last_at in H as [H Hh]; [|apply hex_bytes_no_at..].
  apply split_last_at in H as [Hm Hr]; [|apply hex_Z_no_at..].
  split_and!; [by apply chars_inj|by apply hex_Z_inj, chars_inj|by apply hex_bytes_inj, chars_inj].
Qed.

(** ** The laws *)

Lemma fs_count_prefix m keys n :
  fs_count m keys n
    = (n + prefix_count (fun k => bool_decide (is_Some (m !! filename k))) keys)%nat.
Proof.
  revert n. induction keys as [|k keys IH]; intros n; simpl; [lia|].
  destruct (m !! filename k) as [b|]; [|rewrite bool_decide_eq_false_2 by (intros []; done); lia].
  rewrite bool_decide_eq_true_2, IH by eauto. lia.
Qed.

Lemma readinto_full C pool ko :
  slot_ok C pool ko ->
  readinto ko.2 (C ko.1) pool = (view_write (mo_tensor ko.2) (C ko.1) pool, obj_nbytes ko.2).
Proof.
  intros (_ & _ & Hl). unfold readinto, obj_nbytes, Zlen. by rewrite take_ge, Hl by lia.
Qed.

(** The models a store serves: distinct ones get distinct names. *)
Definition served (models : list string) (k : ChunkKey) : Prop := key_model k ∈ models.

Section fs_laws.
Context (C : ChunkKey -> bytes) (models : list string).
Hypothesis models_distinct : forall m m',
  m ∈ models -> m' ∈ models -> sanitize m = sanitize m' -> m = m'.
Local Notation ok := (served models).

Lemma filename_inj k k' : ok k -> ok k' -> filename k = filename k' -> k = k'.
Proof.
  intros Hk Hk' (Hm & Hr & Hh)%filename_parts. apply models_distinct in Hm; [|done..].
  destruct k, k'. simpl in *. by subst.
Qed.

Definition fs_get (fs : FS) (k : ChunkKey) : option bytes := fs_base fs !! filename k.

(** Every file a served key names holds the whole chunk; temporary files
    may hold anything. *)
Definition fs_inv (fs : FS) : Prop := forall k b, ok k -> fs_get fs k = Some b -> b = C k.

Lemma fs_store_one_spec fs pool ko :
  fs_inv fs -> ok ko.1 -> byte_array ko.2 pool = C ko.1 ->
  exists fs', fs_store_one pool ko fs = (fs', Ok tt) /\ fs_inv fs' /\
    forall k, ok k -> fs_get fs' k = if decide (k = ko.1) then Some (C k) else fs_get fs k.
Proof.
  intros Hinv Hk Hb. unfold fs_store_one, get. unfold bind at 1.
  destruct (fs_base fs !! filename ko.1) as [b|] eqn:Ef.
  - exists fs. split_and!; [done|done|]. intros k Hk'.
    destruct (decide (k = ko.1)) as [->|]; [|done]. unfold fs_get. rewrite Ef. f_equal.
    by apply (Hinv ko.1 b).
  - unfold bind, fs_write_tmp, modify, fs_replace. simpl. rewrite lookup_insert_eq, Hb.
    eexists. split; [reflexivity|].
    assert (forall k, ok k ->
      fs_get (mkFS (<[filename ko.1:=C ko.1]> (fs_base fs))
                (delete (filename ko.1) (<[filename ko.1:=C ko.1]> (fs_tmp fs)))) k =
      if decide (k = ko.1) then Some (C k) else fs_get fs k) as Hget.
    { intros k Hk'. unfold fs_get. simpl. rewrite lookup_insert.
      destruct (decide (k = ko.1)) as [->|Hne]; [by rewrite decide_True|].
      rewrite decide_False; [done|]. intros Hf. apply Hne, filename_inj; done. }
    split; [|exact Hget]. intros k b' Hk'. rewrite Hget by done.
    case_decide; [congruence|by apply Hinv].
Qed.

Lemma fs_store_spec fs kos pool :
  fs_inv fs -> Forall (fun ko => ok ko.1 /\ byte_array ko.2 pool = C ko.1) kos ->
  exists fs', fs_store kos.*1 kos.*2 pool fs = (fs', Ok tt) /\ fs_inv fs' /\
    forall k, ok k -> fs_get fs' k = if decide (k ∈ kos.*1) then Some (C k) else fs_get fs k.
Proof.
  unfold fs_store. rewrite zip_fst_snd. intros Hinv Hkos. revert fs Hinv.
  induction Hkos as [|ko kos [Hk Hb] _ IH]; intros fs Hinv.
  { exists fs. split_and!; [done|done|]. intros k _. by rewrite decide_False by apply not_elem_of_nil. }
  destruct (fs_store_one_spec fs pool ko Hinv Hk Hb) as (fs1 & E1 & Hinv1 & Hg1).
  destruct (IH fs1 Hinv1) as (fs' & E & Hinv' & Hg). exists fs'. cbn [for_each]. unfold bind. rewrite E1.
  split_and!; [exact E|done|]. intros k Hk'. rewrite Hg, Hg1 by done. rewrite fmap_cons.
  destruct (decide (k ∈ kos.*1)), (decide (k = ko.1)), (decide (k ∈ ko.1 :: kos.*1)); set_solver.
Qed.

Lemma fs_load_spec fs kos pool loaded :
  fs_inv fs -> Forall (fun ko => ok ko.1) kos -> slots_ok C pool kos ->
  let n := prefix_count (fun k => bool_decide (is_Some (fs_get fs k))) kos.*1 in
  fs_load_loop kos loaded (fs, pool)
    = ((fs, fill_slots C (take n kos) pool), Ok (loaded + n)%nat).
Proof.
  intros Ha Hok. revert pool loaded. induction Hok as [|[k o] kos Hk _ IH]; intros pool loaded Hs.
  { simpl. by rewrite Nat.add_0_r. }
  apply slots_ok_cons in Hs as (H1 & H2 & _). csimpl in *. fold (fs_get fs k).
  destruct (fs_get fs k) as [b|] eqn:Hb.
  - rewrite bool_decide_eq_true_2 by eauto. rewrite (Ha k b Hk Hb).
    pose proof (readinto_full _ _ _ H1) as [= Ew En]. simpl in Ew, En. rewrite Ew, En, Z.eqb_refl, IH.
    2: { eapply slots_ok_length; [symmetry; exact (slot_write_length _ _ _ H1)|done]. }
    unfold fill_slots. simpl. do 2 f_equal. lia.
  - rewrite bool_decide_eq_false_2 by (intros []; done). simpl. by rewrite Nat.add_0_r.
Qed.

#[export] Program Instance fs_laws : L2Laws FS C ok := {
  l2_get := fs_get; l2_inv := fs_inv
}.
Next Obligation. intros fs k b Hinv Hk. by apply Hinv. Qed.
Next Obligation. intros. by apply fs_store_spec. Qed.
Next Obligation. intros fs keys _ _. simpl. unfold fs_lookup. do 2 f_equal. apply fs_count_prefix. Qed.
Next Obligation.
  intros fs kos pool Ha Hok Hs. simpl. unfold fs_load. rewrite zip_fst_snd. by apply fs_load_spec.
Qed.

(** ** Crashes

    What the disk can look like if the process dies during [fs_store]: some
    chunks are stored, and the temporary file of the next one may have been
    written in part. *)
Inductive crashed (pool : bytes) : list (ChunkKey * MemoryObj) -> FS -> FS -> Prop :=
| crash_now kos fs : crashed pool kos fs fs
| crash_writing k o kos fs n :
    fs_base fs !! filename k = None ->
    crashed pool ((k, o) :: kos) fs
      (mkFS (fs_base fs) (<[filename k := take n (byte_array o pool)]> (fs_tmp fs)))
| crash_later ko kos fs fs' fs'' :
    fs_store_one pool ko fs = (fs', Ok tt) -> crashed pool kos fs' fs'' ->
    crashed pool (ko :: kos) fs fs''.

End fs_laws.

(** The name of a chunk's file determines rank and digest, and the model
    up to the replacement of ['/'] by ['-']: two chunks share a file exactly
    when they agree on these. *)
Theorem filename_identifies k k' :
  filename k = filename k' <->
  sanitize (key_model k) = sanitize (key_model k') /\ key_rank k = key_rank k' /\
  chunk_hash k = chunk_hash k'.
Proof.
  split; [apply filename_parts|]. unfold filename. by intros (-> & -> & ->).
Qed.

(** Distinct models can share files: ["a/b"] and ["a-b"]. *)
Example filename_collision :
  exists k k', k <> k' /\ filename k = filename k'.
Proof.
  exists (mkChunkKey [Byte.x01] "a/b" 0), (mkChunkKey [Byte.x01] "a-b" 0).
  split; [discriminate|reflexivity].
Qed.

Example filename_shape :
  filename (mkChunkKey [Byte.x0a; Byte.xff] "org/m" 31) = "org-m@1f@0aff.data".
Proof. reflexivity. Qed.

(** A file longer than the slice counts as loaded, truncated. *)
Example oversized_file_loads :
  let fs := mkFS {[ filename k1 := [Byte.x01; Byte.x02] ]} ∅ in
  fs_load [k1] [slot_at 3] (fs, four) = ((fs, [Byte.x01; Byte.x02; Byte.x00; Byte.x01]), Ok 1%nat).
Proof. vm_compute. reflexivity. Qed.

Definition disk_before : FS := mkFS (<[filename k1 := one_byte k1]> ∅) ∅.
Definition disk_crashed : FS :=
  mkFS (fs_base disk_before)
       (<[filename k2 := take 0 (byte_array (slot_at 1) four)]> (fs_tmp disk_before)).

Lemma toy_crash : crashed four [(k1, slot_at 0); (k2, slot_at 1)] (mkFS ∅ ∅) disk_crashed.
Proof.
  apply crash_later with disk_before; [vm_compute; reflexivity|].
  by apply crash_writing.
Qed.

