(* ===== verification/L2Registry.v ===== *)
(** The adapters the server can be configured with (server.py, REGISTRY and
    build_l2s), as one adapter type that keeps the laws. *)
From S2P Require Import Prelude Protocol Memory L2 L2FS.
Local Open Scope py_scope.

Inductive Adapter :=
| AFs (base_path : string) (fs : FS)
| AMock (m : Mock).

Definition any_store (keys : list ChunkKey) (objs : list MemoryObj) (pool : bytes) : M Adapter unit :=
  fun a => match a with
           | AFs p fs => let (fs', r) := l2_store keys objs pool fs in (AFs p fs', r)
           | AMock m => let (m', r) := l2_store keys objs pool m in (AMock m', r)
           end.
Definition any_lookup (keys : list ChunkKey) : M Adapter nat :=
  fun a => match a with
           | AFs p fs => let (fs', r) := l2_lookup keys fs in (AFs p fs', r)
           | AMock m => let (m', r) := l2_lookup keys m in (AMock m', r)
           end.
Definition any_load (keys : list ChunkKey) (objs : list MemoryObj) : M (Adapter * bytes) nat :=
  fun ap => match ap.1 with
            | AFs p fs => let '((fs', pool'), r) := l2_load keys objs (fs, ap.2) in ((AFs p fs', pool'), r)
            | AMock m => let '((m', pool'), r) := l2_load keys objs (m, ap.2) in ((AMock m', pool'), r)
            end.

#[export] Instance any_ops : L2Ops Adapter := {
  l2_store := any_store; l2_lookup := any_lookup; l2_load := any_load
}.

(** ** Configuration *)

(** A decoded JSON value, as far as the adapters tell them apart. *)
Inductive json := JStr (s : string) | JOther (hashable : bool).

(** The constructor of a registered class, by type name, called with the
    remaining entries of the spec as keyword arguments; [disk] is what the
    file system holds under a path. *)
Definition construct (disk : string -> gmap string bytes) (type : string)
    (kwargs : list (string * json)) : res Adapter :=
  if decide (type = "fs") then
    match kwargs with
    | [(name, JStr path)] =>
        if decide (name = "base_path") then Ok (AFs path (mkFS (disk path) ∅)) else Raise TypeError
    | _ => Raise TypeError
    end
  else if decide (type = "mock") then
    match kwargs with [] => Ok (AMock (mkMock ∅)) | _ => Raise TypeError end
  else Raise KeyError.

Definition build_l2 (disk : string -> gmap string bytes) (spec : list (string * json))
    : res Adapter :=
  match od_get "type" spec with
  | None => Raise KeyError
  | Some (JStr type) => construct disk type (od_pop "type" spec)
  | Some (JOther hashable) => Raise (if hashable then KeyError else TypeError)
  end.

(** Over the undecoded specs; [map] is lazy, so a spec is decoded when its turn
    comes. *)
Fixpoint build_l2s (disk : string -> gmap string bytes) (json_loads : string -> res (list (string * json)))
    (specs : list string) : res (list Adapter) :=
  match specs with
  | [] => Ok []
  | text :: specs' =>
      let? spec := json_loads text in
      let? a := build_l2 disk spec in
      let? l := build_l2s disk json_loads specs' in
      Ok (a :: l)
  end.

(** ** The laws *)

Section any_laws.
Context (C : ChunkKey -> bytes) (models : list string).
Hypothesis models_distinct : forall m m',
  m ∈ models -> m' ∈ models -> sanitize m = sanitize m' -> m = m'.
Local Notation ok := (served models).
Local Existing Instance mock_laws.

Definition any_get (a : Adapter) (k : ChunkKey) : option bytes :=
  match a with AFs _ fs => fs_get fs k | AMock m => chunks m !! k end.
Definition any_inv (a : Adapter) : Prop :=
  match a with AFs _ fs => fs_inv C models fs | AMock m => mock_inv C ok m end.

#[export] Program Instance any_laws : L2Laws Adapter C ok := {
  l2_get := any_get; l2_inv := any_inv
}.
Next Obligation. intros [p fs|m] k b Ha Hk Hb; by apply (Ha k b). Qed.
Next Obligation.
  intros [p fs|m] kos pool Ha Hkos; simpl.
  - destruct (fs_store_spec C models models_distinct fs kos pool Ha Hkos) as (fs' & E & Hi & Hg).
    exists (AFs p fs'). by rewrite E.
  - destruct (mock_store_spec C ok m kos pool Ha Hkos) as (m' & E & Hi & Hg).
    exists (AMock m'). by rewrite E.
Qed.
Next Obligation.
  intros [p fs|m] keys Ha Hk; simpl.
  - unfold fs_lookup. by rewrite fs_count_prefix.
  - unfold mock_lookup. by rewrite mock_count_prefix.
Qed.
Next Obligation.
  intros [p fs|m] kos pool Ha Hok Hs; unfold l2_load, any_ops, any_load; simpl.
  - unfold fs_load. rewrite zip_fst_snd. by rewrite (fs_load_spec C models fs kos pool 0 Ha Hok Hs).
  - unfold mock_load. rewrite zip_fst_snd. by rewrite (mock_load_spec C ok m kos pool 0 Ha Hok Hs).
Qed.
End any_laws.

(** An unknown type, a missing type, and stray arguments are refused. *)
Example build_l2_errors disk :
  build_l2 disk [("type", JStr "s3")] = Raise KeyError /\
  build_l2 disk [("base_path", JStr "/x")] = Raise KeyError /\
  build_l2 disk [("type", JStr "mock"); ("base_path", JStr "/x")] = Raise TypeError /\
  build_l2 disk [("type", JStr "mock")] = Ok (AMock (mkMock ∅)) /\
  build_l2 disk [("type", JStr "fs"); ("base_path", JStr "/x")] = Ok (AFs "/x" (mkFS (disk "/x") ∅)).
Proof. by split_and!. Qed.
