(* ===== verification/Threads.v ===== *)
(** Threads as programs of atomic steps.

    A thread of the server alternates between critical sections (a [with
    lock:] block, a queue operation, one task of an adapter's worker) and
    local computation.  [prog] is the tree of its critical sections; [run]
    executes it alone, [tstep] interleaves several threads over one world. *)
From S2P Require Import Prelude.
Local Open Scope py_scope.

Section programs.
Context {W : Type}.

(** [Step f k]: the world becomes [f w], the thread goes on as [k w]. *)
Inductive prog (A : Type) : Type :=
| Done (r : res A)
| Step (f : W -> W) (k : W -> prog A).
Arguments Done {A} r.
Arguments Step {A} f k.

Definition pret {A} (a : A) : prog A := Done (Ok a).
Definition praise {A} (e : exn) : prog A := Done (Raise e).

(** One critical section. *)
Definition atomic {A} (m : M W A) : prog A :=
  Step (fun w => fst (m w)) (fun w => Done (snd (m w))).

Fixpoint pbind {A B} (p : prog A) (q : A -> prog B) : prog B :=
  match p with
  | Done (Ok a) => q a
  | Done (Raise e) => Done (Raise e)
  | Step f k => Step f (fun w => pbind (k w) q)
  end.

(** Local computation that may raise. *)
Definition plift {A} (r : res A) : prog A := Done r.

(** [try: p except Exception as exc: h exc] *)
Fixpoint ptry {A} (p : prog A) (h : exn -> prog A) : prog A :=
  match p with
  | Done (Ok a) => Done (Ok a)
  | Done (Raise e) => h e
  | Step f k => Step f (fun w => ptry (k w) h)
  end.

Fixpoint pfor_acc {X A} (xs : list X) (acc : A) (body : A -> X -> prog A) : prog A :=
  match xs with
  | [] => pret acc
  | x :: xs' => pbind (body acc x) (fun acc' => pfor_acc xs' acc' body)
  end.

(** Running a program alone. *)
Fixpoint run {A} (p : prog A) : M W A :=
  match p with
  | Done r => lift_res r
  | Step f k => fun w => run (k w) (f w)
  end.

Lemma run_atomic {A} (m : M W A) w : run (atomic m) w = m w.
Proof. simpl. unfold lift_res. by destruct (m w). Qed.

Lemma run_bind {A B} (p : prog A) (q : A -> prog B) w :
  run (pbind p q) w = bind (run p) (fun a => run (q a)) w.
Proof.
  revert w. induction p as [[a|e]|f k IH]; intros w; [done|done|]. simpl. by rewrite IH.
Qed.

Lemma run_bind_ok {A B} (p : prog A) (q : A -> prog B) w w' a :
  run p w = (w', Ok a) -> run (pbind p q) w = run (q a) w'.
Proof. intros E. rewrite run_bind. unfold bind. by rewrite E. Qed.

Lemma run_bind_raise {A B} (p : prog A) (q : A -> prog B) w w' e :
  run p w = (w', Raise e) -> run (pbind p q) w = (w', Raise e).
Proof. intros E. rewrite run_bind. unfold bind. by rewrite E. Qed.

Lemma run_try {A} (p : prog A) (h : exn -> prog A) w :
  run (ptry p h) w =
    match run p w with (w', Ok a) => (w', Ok a) | (w', Raise e) => run (h e) w' end.
Proof.
  revert w. induction p as [[a|e]|f k IH]; intros w; [done|done|]. simpl. by rewrite IH.
Qed.

Lemma pbind_assoc {A B D} (p : prog A) (q : A -> prog B) (r : B -> prog D) w :
  run (pbind (pbind p q) r) w = run (pbind p (fun a => pbind (q a) r)) w.
Proof.
  revert w. induction p as [[a|e]|f k IH]; intros w; [done|done|]. simpl. by rewrite IH.
Qed.

(** ** Interleaving *)

Definition thread : Type := prog unit.

(** Thread [i] performs its next critical section. *)
Inductive tstep : W * list thread -> W * list thread -> Prop :=
| tstep_at w ts i f k :
    ts !! i = Some (Step f k) -> tstep (w, ts) (f w, <[i := k w]> ts).

Definition tsteps : W * list thread -> W * list thread -> Prop := rtc tstep.

(** *** Every run ends

    A thread has finitely many critical sections in a row, whatever it reads in
    them; so whatever the scheduler does, a finite number of threads comes to
    an end. *)
Definition follows (t t' : thread) : Prop := exists f k w, t' = Step f k /\ t = k w.
Definition one_follows (ts ts' : list thread) : Prop :=
  exists i t t', ts' !! i = Some t' /\ follows t t' /\ ts = <[i := t]> ts'.

Lemma follows_wf t : Acc follows t.
Proof. induction t as [r|f k IH]; constructor; intros t' (f' & k' & w & [=] & ->). subst. apply IH. Qed.

Lemma one_follows_wf ts : Acc one_follows ts.
Proof.
  induction ts as [|t ts IH].
  { constructor. intros ts' (i & t & t' & Hi & _). by rewrite lookup_nil in Hi. }
  revert ts IH. induction (follows_wf t) as [t _ IHt]. intros ts Hts. induction Hts as [ts Hacc IHts].
  constructor. intros ts' ([|i] & t1 & t2 & Hi & Hf & ->); simpl in *.
  - injection Hi as <-. apply IHt; [done|]. by constructor.
  - apply IHts. by exists i, t1, t2.
Qed.

Lemma tstep_wf c : Acc (flip tstep) c.
Proof.
  destruct c as [w ts]. revert w. induction (one_follows_wf ts) as [ts _ IH]. intros w. constructor.
  intros c' Hs. inversion Hs as [w0 ts0 i f k Hi]; subst. apply IH. exists i, (k w), (Step f k).
  split_and!; [done|by exists f, k, w|done].
Qed.

(** Threads that cannot move are done. *)
Lemma stuck_done w ts : (forall c, ~ tstep (w, ts) c) -> Forall (fun t => exists r, t = Done r) ts.
Proof.
  intros Hno. apply Forall_lookup. intros i [r|f k] Hi; [by exists r|]. exfalso. eapply Hno. by apply tstep_at.
Qed.

(** Executing a schedule: which thread moves next. *)
Fixpoint sched (who : list nat) (c : W * list thread) : W * list thread :=
  match who with
  | [] => c
  | i :: who' =>
      match c.2 !! i with
      | Some (Step f k) => sched who' (f c.1, <[i := k c.1]> c.2)
      | _ => sched who' c
      end
  end.

Lemma sched_tsteps who c : tsteps c (sched who c).
Proof.
  revert c. induction who as [|i who IH]; intros [w ts]; [constructor|]. simpl.
  destruct (ts !! i) as [[r|f k]|] eqn:E; [apply IH| |apply IH].
  eapply rtc_l; [by apply tstep_at|]. apply IH.
Qed.
End programs.
Arguments prog : clear implicits.
Arguments Done {W A} r.
Arguments Step {W A} f k.
Arguments thread : clear implicits.

Notation "'let!' x := p 'in' q" := (pbind p (fun x => q))
  (at level 10, x name, p at level 100, q at level 200,
   format "'[v' 'let!'  x  :=  p  'in'  '/' q ']'") : py_scope.

(** A program over a component [S] of the world [W]. *)
Fixpoint pzoom {W S A} (g : W -> S) (put : S -> W -> W) (p : prog S A) : prog W A :=
  match p with
  | Done r => Done r
  | Step f k => Step (fun w => put (f (g w)) w) (fun w => pzoom g put (k (g w)))
  end.

Lemma run_pzoom {W S A} (g : W -> S) (put : S -> W -> W) (p : prog S A) w :
  (forall s w, g (put s w) = s) -> (forall s s' w, put s (put s' w) = put s w) ->
  (forall w, put (g w) w = w) ->
  run (pzoom g put p) w = let (s', r) := run p (g w) in (put s' w, r).
Proof.
  intros Hg Hp Hid. revert w. induction p as [r|f k IH]; intros w; simpl.
  - unfold lift_res. by rewrite Hid.
  - rewrite IH, Hg. destruct (run (k (g w)) (f (g w))) as [s' r]. by rewrite Hp.
Qed.
