(* ===== verification/Storage.v ===== *)
(** The storage stack of the server (storage_manager.py): one L1 manager, the
    adapters, the prefetch controller's tables, and the two listeners of the
    manager, wired as [StorageManager.__init__] does. *)
From S2P Require Import Prelude PyFloat Protocol Memory L1Manager Eviction L1Protocol.
From S2P Require Import L2 Threads.
Local Open Scope py_scope.

(** The listeners: the store controller (its queue of finished writes) and
    the LRU policy (its recency order). *)
Inductive lref := RStore | RLRU.

Record obs := mkObs {
  pending : list (list ChunkKey);
  order : list ChunkKey
}.

(** [StoreController.on_write_finished]; its other events are inherited and
    empty. *)
Definition store_dispatch (ev : event) (keys : list ChunkKey) (p : list (list ChunkKey))
    : list (list ChunkKey) :=
  match ev with on_write_finished => p ++ [keys] | _ => p end.

#[export] Instance stack_listener : Listener lref obs := fun r ev keys o =>
  match r with
  | RStore => mkObs (store_dispatch ev keys (pending o)) (order o)
  | RLRU => mkObs (pending o) (lru_dispatch ev keys (order o))
  end.

Definition hit_info : Type := Z * Z * float.
Definition job : Type := string * list ChunkKey * option Z.

Section stack.
Context {A : Type}.

Record Stack := mkStack {
  l1 : L1 lref obs;
  l2s : list A;
  hits : gmap string (option hit_info);
  held : gmap string (list ChunkKey);
  jobs : list job
}.

Definition set_l1 (x : L1 lref obs) (s : Stack) : Stack :=
  mkStack x (l2s s) (hits s) (held s) (jobs s).
Definition set_l2s (x : list A) (s : Stack) : Stack :=
  mkStack (l1 s) x (hits s) (held s) (jobs s).
Definition set_hits (x : gmap string (option hit_info)) (s : Stack) : Stack :=
  mkStack (l1 s) (l2s s) x (held s) (jobs s).
Definition set_held (x : gmap string (list ChunkKey)) (s : Stack) : Stack :=
  mkStack (l1 s) (l2s s) (hits s) x (jobs s).
Definition set_jobs (x : list job) (s : Stack) : Stack :=
  mkStack (l1 s) (l2s s) (hits s) (held s) x.

(** [StorageManager.__init__]: the store controller listens only when there
    are adapters, and before the LRU policy. *)
Definition new_stack (contents : bytes) (l2s : list A) : Stack :=
  let refs := (if l2s is [] then [] else [RStore]) ++ [RLRU] in
  let l1 := fst (for_each refs register_listener (new_l1 (new_pool contents) (mkObs [] []))) in
  mkStack l1 l2s ∅ ∅ [].

(** A call of the manager. *)
Definition on_l1 {B} (m : M (L1 lref obs) B) : prog Stack B := atomic (zoom l1 set_l1 m).

(** One task of adapter [i], with what its future will hold. *)
Definition on_l2 `{!L2Ops A} (i : nat) (t : l2_task) : prog Stack (res nat) :=
  atomic (fun s =>
    match l2s s !! i with
    | None => (s, Ok (Raise IndexError))
    | Some a =>
        let '((a', pool'), r) := run_task t (a, pool (allocator (l1 s))) in
        (set_l2s (<[i := a']> (l2s s))
           (set_l1 (set_allocator (set_pool pool' (allocator (l1 s))) (l1 s)) s), Ok r)
    end).

(** [future.result()] *)
Definition future_result (r : res nat) : prog Stack nat := plift r.

(** [[f.result() for f in fs]]: the first exception in order is raised. *)
Fixpoint future_results (rs : list (res nat)) : res (list nat) :=
  match rs with
  | [] => Ok []
  | r :: rs' => let? n := r in let? ns := future_results rs' in Ok (n :: ns)
  end.

(** Submitting one task to every adapter. *)
Definition submit_all `{!L2Ops A} (n : nat) (t : l2_task) : prog Stack (list (res nat)) :=
  pfor_acc (seq 0 n) [] (fun rs i => let! r := on_l2 i t in pret (rs ++ [r])).

(** The number of adapters never changes. *)
Definition num_l2s : prog Stack nat := atomic (fun s => (s, Ok (length (l2s s)))).
End stack.
Arguments Stack : clear implicits.

(** The LRU policy sees every event, in both configurations. *)
Lemma stack_observes_lru {A} contents (l : list A) :
  observes_lru order (listeners (l1 (new_stack contents l))).
Proof. by destruct l. Qed.

(** A fresh stack is empty and well formed. *)
Lemma new_stack_inv {A} C contents (l : list A) :
  l1_inv C (l1 (new_stack contents l)) ∅ ∅ /\ held (new_stack contents l) = ∅ /\
  lru_agrees order (l1 (new_stack contents l)).
Proof.
  assert (forall ls : list lref, l1_inv C (mkL1 (new_pool contents) ∅ ls (mkObs [] [])) ∅ ∅) as Hinv.
  { intros ls. split; [apply alloc_inv_new|]. intros k. simpl. by rewrite !lookup_empty. }
  assert (forall ls : list lref, lru_agrees order (mkL1 (new_pool contents) ∅ ls (mkObs [] []))) as Hl.
  { intros ls. split; [constructor|]. intros k. unfold abs. simpl. rewrite lookup_empty. simpl.
    split; [by intros ?%not_elem_of_nil|done]. }
  destruct l; split_and!; (apply Hinv || apply Hl || done).
Qed.

(** ** Calls of the manager and the adapters from a thread *)

Section calls.
Context {A : Type} `{!L2Ops A}.
Implicit Types (s : Stack A).

Lemma run_on_l1 {B} (m : M (L1 lref obs) B) s x r :
  m (l1 s) = (x, r) -> run (on_l1 m) s = (set_l1 x s, r).
Proof. intros E. unfold on_l1. rewrite run_atomic. unfold zoom. by rewrite E. Qed.

Lemma run_on_l1_ok {B D} (m : M (L1 lref obs) B) (q : B -> prog (Stack A) D) s x b :
  m (l1 s) = (x, Ok b) -> run (pbind (on_l1 m) q) s = run (q b) (set_l1 x s).
Proof. intros E. apply run_bind_ok. by apply run_on_l1. Qed.

Lemma run_atomic_ok {B D} (m : M (Stack A) B) (q : B -> prog (Stack A) D) s s' b :
  m s = (s', Ok b) -> run (pbind (atomic m) q) s = run (q b) s'.
Proof. intros E. apply run_bind_ok. by rewrite run_atomic. Qed.

Lemma set_l1_id s : set_l1 (l1 s) s = s.
Proof. by destruct s. Qed.

Lemma set_l1_set_l1 x y s : set_l1 x (set_l1 y s) = set_l1 x s.
Proof. done. Qed.

(** The pool seen and left by an adapter's task. *)
Definition with_pool (p : bytes) (x : L1 lref obs) : L1 lref obs :=
  set_allocator (set_pool p (allocator x)) x.

Lemma with_pool_id x : with_pool (pool_of x) x = x.
Proof. by destruct x as [[] ? ? ?]. Qed.
End calls.

(** Loading into slices one is writing: nothing else changes. *)
Section fill.
Context (C : ChunkKey -> bytes).
Implicit Types (x : L1 lref obs).

(** [kos] are write-locked, with the slices their entries own. *)
Definition writing (W : write_table) (kos : list (ChunkKey * MemoryObj)) : Prop :=
  NoDup kos.*1 /\ forall ko, ko ∈ kos -> exists tmp, W !! ko.1 = Some (tmp, ko.2).

Lemma writing_entry x W H ko tmp :
  l1_inv C x W H -> W !! ko.1 = Some (tmp, ko.2) ->
  exists e, entries x !! ko.1 = Some e /\ entry_obj e = ko.2.
Proof.
  intros [_ Hl] HW. destruct (lock_inv_written _ _ _ _ _ _ _ _ Hl HW) as (e & He & _ & _ & Ho & _).
  eauto.
Qed.

Lemma l1_inv_slot x W H k e :
  l1_inv C x W H -> entries x !! k = Some e ->
  view_ok (entry_obj e) /\
  (v_start (mo_tensor (entry_obj e)) + v_len (mo_tensor (entry_obj e)) <= length (pool_of x))%nat.
Proof.
  intros [Ha _] He. assert (entry_obj e ∈ objs_of (entries x)) as Hin by (apply elem_of_objs_of; eauto).
  pose proof (inv_views _ _ Ha) as Hv. rewrite Forall_forall in Hv.
  destruct (alloc_inv_bounds _ _ _ Ha Hin) as [H1 H2]. destruct (Hv _ Hin) as [H3 H4].
  split; [by split|]. rewrite H4. unfold capacity, Zlen, obj_nbytes, pool_of in *. lia.
Qed.

Lemma writing_slots x W H kos :
  l1_inv C x W H -> writing W kos ->
  (forall ko, ko ∈ kos -> length (C ko.1) = v_len (mo_tensor ko.2)) ->
  slots_ok C (pool_of x) kos.
Proof.
  intros Hinv [Hnd Hw] Hlen. split.
  - apply Forall_forall. intros ko Hin. destruct (Hw ko Hin) as [tmp HW].
    destruct (writing_entry _ _ _ _ _ Hinv HW) as (e & He & Ho).
    destruct (l1_inv_slot _ _ _ _ _ Hinv He) as [H1 H2]. rewrite Ho in *.
    split_and!; [done|done|by apply Hlen].
  - intros i j ko ko' Hi Hj Hne.
    destruct (Hw ko) as [tmp HW]; [by eapply list_elem_of_lookup_2|].
    destruct (Hw ko') as [tmp' HW']; [by eapply list_elem_of_lookup_2|].
    destruct (writing_entry _ _ _ _ _ Hinv HW) as (e & He & <-).
    destruct (writing_entry _ _ _ _ _ Hinv HW') as (e' & He' & <-).
    apply (wf_slices_disjoint C x ko.1 ko'.1); [by exists W, H|done|done|].
    intros Heq. apply Hne. eapply (NoDup_lookup kos.*1); [done| |];
      rewrite list_lookup_fmap; [by rewrite Hi|by rewrite Hj, Heq].
Qed.

Lemma assign_obj_run x obj data :
  length data = v_len (mo_tensor obj) ->
  assign_obj obj data x = (with_pool (view_write (mo_tensor obj) data (pool_of x)) x, Ok tt).
Proof.
  intros Hd. unfold assign_obj, on_allocator, zoom, byte_array_assign. by rewrite decide_True.
Qed.

(** Filling a batch of slices. *)
Lemma fill_slots_inv x W H kos :
  l1_inv C x W H -> writing W kos ->
  (forall ko, ko ∈ kos -> length (C ko.1) = v_len (mo_tensor ko.2)) ->
  l1_inv C (with_pool (fill_slots C kos (pool_of x)) x) W H /\
  (forall k e, k ∉ kos.*1 -> entries x !! k = Some e ->
     byte_array (entry_obj e) (fill_slots C kos (pool_of x)) = byte_array (entry_obj e) (pool_of x)) /\
  (forall ko, ko ∈ kos -> byte_array ko.2 (fill_slots C kos (pool_of x)) = C ko.1) /\
  length (fill_slots C kos (pool_of x)) = length (pool_of x).
Proof.
  intros Hinv Hwr Hlen. pose proof (writing_slots x W H kos Hinv Hwr Hlen) as Hs.
  split; [|split_and!; [|intros ko Hk; by apply fill_slots_in|by apply fill_slots_length]].
  - destruct Hwr as [Hnd Hw]. clear Hs. revert x Hinv.
    induction kos as [|ko kos IH]; intros x Hinv.
    { change (fill_slots C [] (pool_of x)) with (pool_of x). by rewrite with_pool_id. }
    destruct (Hw ko ltac:(set_solver)) as [tmp HW].
    destruct (assign_obj_spec C x W H ko.1 tmp ko.2 (C ko.1) Hinv HW (Hlen ko ltac:(set_solver)))
      as (x1 & E & Hinv1 & _ & _ & _ & _ & _).
    rewrite assign_obj_run in E by (apply Hlen; set_solver). injection E as <-.
    rewrite fmap_cons in Hnd. apply NoDup_cons in Hnd as [_ Hnd].
    apply (IH Hnd ltac:(set_solver) ltac:(set_solver) _ Hinv1).
  - intros k e Hk He. destruct (l1_inv_slot _ _ _ _ _ Hinv He) as [Hv Hb].
    apply fill_slots_other; [done|done|done|]. intros ko Hin. destruct Hwr as [_ Hw].
    destruct (Hw ko Hin) as [tmp HW]. destruct (writing_entry _ _ _ _ _ Hinv HW) as (e' & He' & <-).
    apply (wf_slices_disjoint C x ko.1 k); [by exists W, H|done|done|].
    intros <-. apply Hk. apply list_elem_of_fmap. eauto.
Qed.
End fill.

Lemma holds_add_sub (H X : hold_table) : (H ⊎ X) ∖ X = H.
Proof. multiset_solver. Qed.

Section fill_holds.
Context (C : ChunkKey -> bytes).
Implicit Types (x : L1 lref obs).

(** Giving back holds one has just taken. *)
Lemma finish_read_held x W H keys :
  l1_inv C x W (H ⊎ holds_of keys) -> NoDup keys ->
  exists x', finish_read keys x = (x', Ok tt) /\ same_frame x x' /\ l1_inv C x' W H /\
    entries x' = update_keys upd_release keys (entries x).
Proof.
  intros Hinv Hnd. destruct (finish_read_spec C x W _ keys Hinv Hnd) as (x' & E & Hf & Hinv' & He & _).
  - intros k Hk. rewrite elem_of_multiplicity, multiplicity_disj_union, multiplicity_holds_of,
      decide_True by done. lia.
  - exists x'. rewrite holds_add_sub in Hinv'. done.
Qed.

End fill_holds.

(** ** Tasks on the adapters of a stack *)

Section tasks.
Context {A : Type} (C : ChunkKey -> bytes) (ok : ChunkKey -> Prop) `{!L2Ops A} `{!L2Laws A C ok}.
Implicit Types (s : Stack A).

(** The prefix of [keys] adapter [a] has. *)
Definition l2_prefix (a : A) (keys : list ChunkKey) : nat :=
  prefix_count (fun k => bool_decide (is_Some (l2_get a k))) keys.

Lemma set_l2_same s i a : l2s s !! i = Some a -> set_l2s (<[i := a]> (l2s s)) s = s.
Proof. intros Hi. unfold set_l2s. rewrite list_insert_id by done. by destruct s. Qed.

Lemma on_l2_lookup s i a keys :
  l2s s !! i = Some a -> l2_inv a -> Forall ok keys ->
  run (on_l2 i (TLookup keys)) s = (s, Ok (Ok (l2_prefix a keys))).
Proof.
  intros Hi Ha Hk. unfold on_l2. rewrite run_atomic, Hi. unfold run_task. cbn [fst snd].
  rewrite l2_lookup_law by done. do 2 f_equal.
  change (set_l2s (<[i:=a]> (l2s s)) (set_l1 (with_pool (pool_of (l1 s)) (l1 s)) s) = s).
  rewrite with_pool_id, set_l1_id. by apply set_l2_same.
Qed.

Lemma submit_lookup_all s keys :
  Forall l2_inv (l2s s) -> Forall ok keys ->
  run (submit_all (length (l2s s)) (TLookup keys)) s
    = (s, Ok ((fun a => Ok (l2_prefix a keys)) <$> l2s s)).
Proof.
  intros Ha Hk. unfold submit_all.
  enough (forall n off acc, off + n = length (l2s s) ->
    run (pfor_acc (seq off n) acc (fun rs i => pbind (on_l2 i (TLookup keys)) (fun r => pret (rs ++ [r])))) s
    = (s, Ok (acc ++ ((fun a => Ok (l2_prefix a keys)) <$> drop off (l2s s))))) as Hg
    by apply (Hg (length (l2s s)) 0 [] eq_refl).
  induction n as [|n IH]; intros off acc Hoff.
  { rewrite drop_ge by lia. simpl. by rewrite app_nil_r. }
  destruct (lookup_lt_is_Some_2 (l2s s) off) as [a Hi]; [lia|].
  cbn [seq pfor_acc]. erewrite run_bind_ok.
  2: { erewrite run_bind_ok; [reflexivity|]. apply on_l2_lookup; [done| |done].
       rewrite Forall_forall in Ha. by eapply Ha, list_elem_of_lookup_2. }
  rewrite IH by lia. rewrite (drop_S _ _ _ Hi), fmap_cons, <- app_assoc. done.
Qed.

Lemma future_results_ok (ns : list nat) : future_results (Ok <$> ns) = Ok ns.
Proof. induction ns as [|n ns IH]; csimpl; [done|]. by rewrite IH. Qed.

(** A store changes only that adapter. *)
Lemma on_l2_store s i a kos :
  l2s s !! i = Some a -> l2_inv a ->
  Forall (fun ko => ok ko.1 /\ byte_array ko.2 (pool_of (l1 s)) = C ko.1) kos ->
  exists a', run (on_l2 i (TStore kos.*1 kos.*2)) s = (set_l2s (<[i := a']> (l2s s)) s, Ok (Ok 0)) /\
    l2_inv a' /\ forall k, ok k -> l2_get a' k = if decide (k ∈ kos.*1) then Some (C k) else l2_get a k.
Proof.
  intros Hi Ha Hk. destruct (l2_store_law a kos _ Ha Hk) as (a' & E & Ha' & Hg).
  exists a'. split; [|by split]. unfold on_l2. rewrite run_atomic, Hi. unfold run_task. cbn [fst snd].
  unfold pool_of in E. rewrite E. simpl. do 2 f_equal.
  by destruct s as [[[] ? ? ?] ? ? ? ?].
Qed.

(** A load fills the slices of the chunks the adapter has. *)
Lemma on_l2_load s i a kos :
  l2s s !! i = Some a -> l2_inv a -> Forall (fun ko => ok ko.1) kos ->
  slots_ok C (pool_of (l1 s)) kos ->
  let n := l2_prefix a kos.*1 in
  run (on_l2 i (TLoad kos.*1 kos.*2)) s
    = (set_l1 (with_pool (fill_slots C (take n kos) (pool_of (l1 s))) (l1 s)) s, Ok (Ok n)).
Proof.
  intros Hi Ha Hk Hs n. unfold on_l2. rewrite run_atomic, Hi. unfold run_task.
  change (pool (allocator (l1 s))) with (pool_of (l1 s)).
  rewrite (l2_load_law a kos _ Ha Hk Hs). fold n. do 2 f_equal.
  unfold set_l2s, set_l1. simpl. by rewrite list_insert_id.
Qed.
End tasks.

(** ** A small concrete stack

    One ready chunk [ka] of two bytes in a pool of eight, and an in-memory
    adapter that has [kb]. *)

Definition toy_stack : Stack Mock :=
  let s := new_stack (replicate 8 Byte.x00) [mkMock {[ kb := toy_C kb ]}] in
  let x := fst (for_each [ReserveWrite [ka] 2 false; Fill ka (toy_C ka); FinishWrite [ka]] run_call (l1 s)) in
  set_l1 x s.

Definition any_chunk (_ : ChunkKey) : Prop := True.

#[local] Existing Instance mock_laws.

Lemma toy_stack_inv : l1_inv toy_C (l1 toy_stack) ∅ ∅.
Proof.
  set (x0 := l1 (new_stack (replicate 8 Byte.x00) [mkMock {[ kb := toy_C kb ]}])).
  destruct (new_stack_inv toy_C (replicate 8 Byte.x00) [mkMock {[ kb := toy_C kb ]}]) as (H0 & _).
  assert (l1_wf toy_C (l1 toy_stack)) as (W & H & Hinv).
  { set (x1 := fst (run_call (ReserveWrite [ka] 2 false) x0)).
    set (x2 := fst (run_call (Fill ka (toy_C ka)) x1)).
    assert (l1_wf toy_C x0) as W0 by (by exists ∅, ∅).
    destruct (run_call_ok toy_C x0 (ReserveWrite [ka] 2 false) W0) as (y1 & E1 & W1 & _).
    { split; [apply NoDup_singleton|done]. }
    assert (x1 = y1) as Hx1 by (unfold x1; by rewrite E1). rewrite <- Hx1 in *.
    destruct (run_call_ok toy_C x1 (Fill ka (toy_C ka)) W1) as (y2 & E2 & W2 & _).
    { exists (mkEntry (mkMemoryObj (mkView 0 2) 0) true 0 false).
      split_and!; vm_compute; reflexivity. }
    assert (x2 = y2) as Hx2 by (unfold x2; by rewrite E2). rewrite <- Hx2 in *.
    destruct (run_call_ok toy_C x2 (FinishWrite [ka]) W2) as (y3 & E3 & W3 & _).
    { split; [apply NoDup_singleton|]. intros k ->%list_elem_of_singleton. unfold filled.
      exists (mkEntry (mkMemoryObj (mkView 0 2) 0) true 0 false).
      split_and!; vm_compute; reflexivity. }
    assert (l1 toy_stack = y3) as ->; [|done].
    unfold toy_stack. cbv zeta. fold x0. cbn [for_each]. unfold bind.
    rewrite E1, E2, E3. done. }
  assert (forall k, k <> ka -> entries (l1 toy_stack) !! k = None) as Hnone.
  { intros k Hk. assert (entries (l1 toy_stack) = {[ka := mkEntry (mkMemoryObj (mkView 0 2) 0) false 0 false]})
      as -> by (apply (bool_decide_unpack _); vm_compute; exact I).
    by rewrite lookup_singleton_ne. }
  destruct Hinv as [Ha Hl]. split; [exact Ha|]. intros k. specialize (Hl k).
  rewrite lookup_empty. change (multiplicity k ∅) with 0%nat.
  destruct (decide (k = ka)) as [->|Hne]; [|by rewrite Hnone].
  assert (entries (l1 toy_stack) !! ka = Some (mkEntry (mkMemoryObj (mkView 0 2) 0) false 0 false)) as He
    by (vm_compute; reflexivity).
  rewrite He in *. destruct Hl as [_ Hw]. split; [done|].
  destruct (W !! ka) as [[tmp o]|]; [by destruct Hw as (? & _)|]. done.
Qed.

Lemma toy_stack_loads : Forall (l2_inv (C := toy_C) (ok := any_chunk)) (l2s toy_stack).
Proof.
  constructor; [|constructor]. intros k b _. simpl. rewrite lookup_singleton. by case_decide; intros; simplify_eq.
Qed.

Lemma toy_keys :
  NoDup [ka; kb; kc] /\ Forall any_chunk [ka; kb; kc] /\
  (forall k, k ∈ [ka; kb; kc] -> Zlen (toy_C k) = 2%Z).
Proof.
  split; [by apply (bool_decide_unpack _)|]. split; [by repeat constructor|].
  intros k Hk. repeat (apply elem_of_cons in Hk as [->|Hk]; [done|]). by apply not_elem_of_nil in Hk.
Qed.
