(* ===== verification/StoreController.v ===== *)
(** Write-back (l1/store_controller.py): one iteration of the worker mirrors
    one batch of finished writes into every adapter. *)
From S2P Require Import Prelude PyFloat Protocol Memory L1Manager Eviction L1Protocol.
From S2P Require Import L2 Threads Storage.
Local Open Scope py_scope.

Section store_controller.
Context {A : Type} `{!L2Ops A}.

(** [self.pending.get()]; the empty batch stands for a blocked queue, on
    which the iteration does nothing. *)
Definition pop_pending : M (Stack A) (list ChunkKey) :=
  zoom l1 set_l1 (fun s =>
    match pending (observers s) with
    | [] => (s, Ok [])
    | keys :: rest => (set_observers (mkObs rest (order (observers s))) s, Ok keys)
    end).

(** [reserved[key]] of a key that was asked for. *)
Definition reserved_obj (r : gmap ChunkKey (option MemoryObj)) (k : ChunkKey) : option MemoryObj :=
  default None (r !! k).

Definition write_back (keys : list ChunkKey) : prog (Stack A) unit :=
  let! reserved := on_l1 (reserve_read keys) in
  let locked := filter (fun k => is_Some (reserved_obj reserved k)) keys in
  if locked is [] then pret tt
  else
    let objs := omap (reserved_obj reserved) locked in
    let! n := num_l2s in
    let! futures := submit_all n (TStore locked objs) in
    let! _ := plift (future_results futures) in
    on_l1 (finish_read locked).

(** One iteration of [StoreController.run]. *)
Definition store_round : prog (Stack A) unit :=
  let! keys := atomic pop_pending in
  write_back keys.
End store_controller.

(** ** Write-back mirrors the ready chunks into every adapter *)

Section write_back_proofs.
Context {A : Type} (C : ChunkKey -> bytes) (ok : ChunkKey -> Prop) `{!L2Ops A} `{!L2Laws A C ok}.
Implicit Types (s : Stack A).

(** [a'] is [a] after storing the chunks [keys]. *)
Definition stored (keys : list ChunkKey) (a a' : A) : Prop :=
  l2_inv a' /\ forall k, ok k -> l2_get a' k = if decide (k ∈ keys) then Some (C k) else l2_get a k.

(** Storing into every adapter, one task each. *)
Lemma submit_store_all s kos :
  Forall l2_inv (l2s s) ->
  Forall (fun ko => ok ko.1 /\ byte_array ko.2 (pool_of (l1 s)) = C ko.1) kos ->
  exists l', run (submit_all (length (l2s s)) (TStore kos.*1 kos.*2)) s
      = (set_l2s l' s, Ok ((fun _ => Ok 0) <$> l2s s)) /\
    Forall2 (stored kos.*1) (l2s s) l'.
Proof.
  intros Ha Hk. unfold submit_all.
  enough (forall l0 done s, l2s s = done ++ l0 -> Forall l2_inv l0 ->
    Forall (fun ko => ok ko.1 /\ byte_array ko.2 (pool_of (l1 s)) = C ko.1) kos -> forall acc,
    exists l', run (pfor_acc (seq (length done) (length l0)) acc
        (fun rs i => pbind (on_l2 i (TStore kos.*1 kos.*2)) (fun r => pret (rs ++ [r])))) s
      = (set_l2s (done ++ l') s, Ok (acc ++ ((fun _ => Ok 0) <$> l0))) /\
    Forall2 (stored kos.*1) l0 l') as Hg by apply (Hg (l2s s) [] s eq_refl Ha Hk []).
  clear. induction l0 as [|a l0 IH]; intros done s Hs Ha Hk acc.
  { exists []. split; [|constructor]. rewrite app_nil_r in *. simpl. rewrite app_nil_r. subst.
    by destruct s. }
  apply Forall_cons in Ha as [Ha Hl0].
  assert (l2s s !! length done = Some a) as Hi by (rewrite Hs; apply list_lookup_middle; done).
  destruct (on_l2_store C ok s _ a kos Hi Ha Hk) as (a' & E & Ha' & Hg).
  destruct (IH (done ++ [a']) (set_l2s (<[length done := a']> (l2s s)) s)) with (acc := acc ++ [Ok 0])
    as (l' & E' & Hf); [|done|done|].
  { simpl. rewrite Hs, insert_app_r_alt, Nat.sub_diag by lia. simpl. by rewrite <- app_assoc. }
  exists (a' :: l'). split; [|by constructor]. cbn [length seq pfor_acc].
  erewrite run_bind_ok; [|erewrite run_bind_ok by exact E; reflexivity].
  rewrite length_app, Nat.add_comm in E'. cbn [length Nat.add] in E'. rewrite E', <- !app_assoc. done.
Qed.

Lemma future_results_zeros (l : list A) : future_results ((fun _ => Ok 0) <$> l) = Ok ((fun _ => 0) <$> l).
Proof. induction l as [|a l IH]; csimpl; [done|]. by rewrite IH. Qed.

(** Pairing the locked keys with their slices. *)
Lemma reserved_pairs (f : ChunkKey -> option MemoryObj) (keys : list ChunkKey) :
  Forall (fun k => is_Some (f k)) keys ->
  exists kos, kos.*1 = keys /\ kos.*2 = omap f keys /\ Forall (fun ko => f ko.1 = Some ko.2) kos.
Proof.
  induction 1 as [|k keys [o Ho] _ (kos & H1 & H2 & H3)]; [by exists []|].
  exists ((k, o) :: kos). csimpl. rewrite Ho, H1, H2. by split_and!; [| |constructor].
Qed.

(** C26: one round of write-back stores every chunk of the batch that is
    ready in L1 into every adapter, with its content, leaves what the adapters
    have of other chunks alone, skips chunks evicted in the meantime, and
    gives back the read holds it took. *)
Theorem write_back_mirrors s W H keys :
  l1_inv C (l1 s) W H -> Forall l2_inv (l2s s) -> NoDup keys -> Forall ok keys ->
  let locked := filter (fun k => key_readable (entries (l1 s)) k = true) keys in
  exists s', run (write_back keys) s = (s', Ok tt) /\ l1_inv C (l1 s') W H /\
    pool_of (l1 s') = pool_of (l1 s) /\ hits s' = hits s /\ held s' = held s /\
    Forall2 (stored locked) (l2s s) (l2s s').
Proof.
  intros Hinv Ha Hnd Hok locked.
  destruct (reserve_read_spec C (l1 s) W H keys Hinv Hnd) as (x1 & r & E1 & [Hp1 Hl1] & Hr & Hinv1 & _).
  assert (forall k, k ∈ keys -> reserved_obj r k = read_view (entries (l1 s) !! k)) as Hro.
  { intros k Hk. unfold reserved_obj. by rewrite Hr, decide_True. }
  assert (filter (fun k => is_Some (reserved_obj r k)) keys = locked) as Hlocked.
  { apply list_filter_iff_in. intros k Hk. rewrite Hro by done. unfold key_readable, read_view.
    destruct (entries (l1 s) !! k) as [e|]; [destruct (readable e)|].
    - split; [done|eauto].
    - split; [intros [? [=]]|intros [=]].
    - split; [intros [? [=]]|intros [=]]. }
  assert (filter (fun k => is_Some (read_view (entries (l1 s) !! k))) keys = locked) as Hlocked'.
  { rewrite <- Hlocked. apply list_filter_iff_in. intros k Hk. by rewrite Hro. }
  rewrite Hlocked' in Hinv1. assert (NoDup locked) as Hndl by by apply NoDup_filter.
  destruct (finish_read_held C _ _ _ _ Hinv1 Hndl) as (x2 & E2 & [Hp2 _] & Hinv2 & _).
  destruct (reserved_pairs (reserved_obj r) locked) as (kos & Hk1 & Hk2 & Hkos).
  { rewrite <- Hlocked. apply Forall_forall. by intros k [? _]%list_elem_of_filter. }
  destruct (submit_store_all (set_l1 x1 s) kos) as (l' & E3 & Hst); [done| |].
  { rewrite Forall_forall in Hkos. apply Forall_forall. intros ko Hin. specialize (Hkos ko Hin).
    assert (ko.1 ∈ keys) as Hkk.
    { assert (ko.1 ∈ locked) as Hin' by (rewrite <- Hk1; apply list_elem_of_fmap; eauto).
      apply list_elem_of_filter in Hin' as [_ Hin']. exact Hin'. }
    rewrite Forall_forall in Hok. split; [by apply Hok|]. simpl. rewrite Hp1.
    rewrite Hro in Hkos by done. unfold read_view in Hkos.
    destruct (entries (l1 s) !! ko.1) as [e|] eqn:He; [|done].
    destruct (readable e) eqn:Hre; [|done]. injection Hkos as <-. destruct Hinv as [_ Hl].
    eapply lock_inv_ready; [exact Hl|exact He|]. by apply negb_true_iff. }
  unfold write_back. erewrite run_on_l1_ok by exact E1. rewrite Hlocked.
  destruct locked as [|k0 ks] eqn:El.
  { exists (set_l1 x1 s). split; [done|]. split.
    - by replace (H ⊎ holds_of []) with H in Hinv1 by (unfold holds_of; simpl; multiset_solver).
    - split_and!; [done|done|done|]. simpl. apply Forall_Forall2_diag.
      eapply Forall_impl; [exact Ha|]. intros a Hia. split; [done|]. intros k _.
      by rewrite decide_False by apply not_elem_of_nil. }
  rewrite <- El in *. rewrite <- Hk2, <- Hk1. unfold num_l2s.
  erewrite run_atomic_ok by reflexivity. erewrite run_bind_ok by exact E3. rewrite future_results_zeros.
  unfold plift. cbn [pbind]. rewrite Hk1.
  erewrite (run_on_l1 _ (set_l2s l' (set_l1 x1 s))) by exact E2.
  eexists. split; [reflexivity|]. simpl. rewrite Hk1 in Hst.
  split_and!; [exact Hinv2|by rewrite Hp2, Hp1|done|done|exact Hst].
Qed.
End write_back_proofs.

#[local] Existing Instance mock_laws.

Lemma write_back_mirrors_witness :
  exists s' a', run (write_back [kb; ka]) toy_stack = (s', Ok tt) /\ l2s s' = [a'] /\
    chunks a' !! ka = Some (toy_C ka) /\ chunks a' !! kb = Some (toy_C kb).
Proof.
  destruct (write_back_mirrors toy_C any_chunk toy_stack ∅ ∅ [kb; ka] toy_stack_inv toy_stack_loads)
    as (s' & E & _ & _ & _ & _ & Hst); [by apply (bool_decide_unpack _)|by repeat constructor|].
  assert (filter (fun k => key_readable (entries (l1 toy_stack)) k = true) [kb; ka] = [ka]) as Hl
    by (vm_compute; reflexivity).
  rewrite Hl in Hst. assert (exists a', l2s s' = [a'] /\ stored toy_C any_chunk [ka] (mkMock {[ kb := toy_C kb ]}) a')
    as (a' & El & _ & Hg).
  { change (l2s toy_stack) with [mkMock {[ kb := toy_C kb ]}] in Hst.
    apply Forall2_cons_inv_l in Hst as (a' & l & Ha & Hn & El). apply Forall2_nil_inv_l in Hn as ->.
    exists a'. split; [exact El|exact Ha]. }
  exists s', a'. split; [exact E|]. split; [exact El|].
  split; [exact (Hg ka I)|]. exact (Hg kb I).
Defined.
