(* ===== verification/Prefetch.v ===== *)
(** Lookup and prefetch (l1/prefetch_controller.py): the worker that resolves
    lookups, and the session table of read holds. *)
From S2P Require Import Prelude PyFloat Protocol Memory L1Manager Eviction L1Protocol.
From S2P Require Import L2 Threads Storage.
Local Open Scope py_scope.

(** [sorted(range(n), key=lambda i: -hits[i])]: Python's sort is stable. *)
Fixpoint insert_desc (h : nat -> nat) (x : nat) (l : list nat) : list nat :=
  match l with
  | [] => [x]
  | y :: l' => if h y <=? h x then x :: l else y :: insert_desc h x l'
  end.
Definition sorted_desc (h : nat -> nat) (l : list nat) : list nat := foldr (insert_desc h) [] l.

(** [max(l2_hits, default=0)] *)
Definition max_default (l : list nat) : nat := foldr Nat.max 0 l.

(** [loaded * chunk_nbytes / elapsed / 1e9 if loaded else 0.0] *)
Definition load_gbps (loaded : nat) (chunk_nbytes : Z) (elapsed : float) : res float :=
  if loaded =? 0 then Ok f_0
  else let? x := fdiv (float_of_int (Z.of_nat loaded * chunk_nbytes)) elapsed in
       fdiv x f_1e9.

Section prefetch.
Context {A : Type} `{!L2Ops A}.

Definition lookup_l2s (missing : list ChunkKey) : prog (Stack A) (list nat) :=
  if missing is [] then pret []
  else
    let! n := num_l2s in
    let! futures := submit_all n (TLookup missing) in
    plift (future_results futures).

(** The loop of [reserve_load]; the dict returned by [reserve_write] has an
    entry for the key it was asked for. *)
Fixpoint reserve_load_loop (keys : list ChunkKey) (chunk_nbytes : Z)
    (load_keys : list ChunkKey) (objs : list MemoryObj)
    : prog (Stack A) (list ChunkKey * list MemoryObj) :=
  match keys with
  | [] => pret (load_keys, objs)
  | key :: keys' =>
      let! result := on_l1 (reserve_write [key] chunk_nbytes true) in
      match result !! key with
      | None => praise KeyError
      | Some None => pret (load_keys, objs)
      | Some (Some obj) =>
          reserve_load_loop keys' chunk_nbytes (load_keys ++ [key]) (objs ++ [obj])
      end
  end.
Definition reserve_load (missing : list ChunkKey) (l2_hits : nat) (chunk_nbytes : Z)
    : prog (Stack A) (list ChunkKey * list MemoryObj) :=
  reserve_load_loop (take l2_hits missing) chunk_nbytes [] [].

(** [l2_hits[i]] *)
Definition hit_of (l2_hits : list nat) (i : nat) : nat := nth i l2_hits 0.

(** The loop of [load_from_l2s] over the adapters, best hit first. *)
Fixpoint load_loop (idxs : list nat) (load_keys : list ChunkKey) (objs : list MemoryObj)
    (l2_hits : list nat) (loaded : nat) : prog (Stack A) nat :=
  match idxs with
  | [] => pret loaded
  | i :: idxs' =>
      if (loaded =? length load_keys) || (hit_of l2_hits i <=? loaded) then pret loaded
      else
        let! future := on_l2 i (TLoad (drop loaded load_keys) (drop loaded objs)) in
        let! n := future_result future in
        load_loop idxs' load_keys objs l2_hits (loaded + n)
  end.
Definition load_from_l2s (load_keys : list ChunkKey) (objs : list MemoryObj)
    (l2_hits : list nat) : prog (Stack A) nat :=
  if load_keys is [] then pret 0
  else
    let! n := num_l2s in
    load_loop (sorted_desc (hit_of l2_hits) (seq 0 n)) load_keys objs l2_hits 0.

(** The critical section of [resolve]: publish if the session still exists. *)
Definition publish (request_id : string) (l1_keys loaded_keys : list ChunkKey) (gbps : float)
    : M (Stack A) bool := fun s =>
  match hits s !! request_id with
  | None => (s, Ok false)
  | Some _ =>
      (set_hits (<[request_id := Some (Zlen l1_keys, Zlen loaded_keys, gbps)]> (hits s))
         (set_held (<[request_id := fromkeys (l1_keys ++ loaded_keys)]> (held s)) s), Ok true)
  end.
Definition resolve (request_id : string) (l1_keys loaded_keys : list ChunkKey) (gbps : float)
    : prog (Stack A) unit :=
  let! published := atomic (publish request_id l1_keys loaded_keys gbps) in
  if published then pret tt else on_l1 (finish_read (l1_keys ++ loaded_keys)).

(** [elapsed] is what the performance counter measured around the loads. *)
Definition prefetch (elapsed : float) (request_id : string) (keys : list ChunkKey)
    (chunk_nbytes : option Z) : prog (Stack A) unit :=
  let! l1_hits := on_l1 (reserve_read_prefix keys) in
  let missing := drop l1_hits keys in
  match chunk_nbytes with
  | None => resolve request_id (take l1_hits keys) [] f_0
  | Some chunk_nbytes =>
      let! l2_hits := lookup_l2s missing in
      let! lo := reserve_load missing (max_default l2_hits) chunk_nbytes in
      let! loaded := load_from_l2s lo.1 lo.2 l2_hits in
      let! _ := on_l1 (finish_write_and_reserve_read (take loaded lo.1)) in
      let! _ := on_l1 (delete_keys (drop loaded lo.1) true) in
      let! gbps := plift (load_gbps loaded chunk_nbytes elapsed) in
      resolve request_id (take l1_hits keys) (take loaded lo.1) gbps
  end.

(** One iteration of [run]: [self.jobs.get()]; nothing on an empty queue,
    where the thread blocks. *)
Definition pop_job : M (Stack A) (option job) := fun s =>
  match jobs s with
  | [] => (s, Ok None)
  | j :: rest => (set_jobs rest s, Ok (Some j))
  end.
Definition prefetch_round (elapsed : float) : prog (Stack A) unit :=
  let! j := atomic pop_job in
  match j with
  | None => pret tt
  | Some (request_id, keys, chunk_nbytes) => prefetch elapsed request_id keys chunk_nbytes
  end.

Definition start_session (request_id : string) (keys : list ChunkKey) (chunk_nbytes : option Z)
    : prog (Stack A) unit :=
  let! _ := atomic (modify (fun s => set_hits (<[request_id := None]> (hits s)) s)) in
  atomic (modify (fun s => set_jobs (jobs s ++ [(request_id, keys, chunk_nbytes)]) s)).

Definition query (request_id : string) : prog (Stack A) (option hit_info) :=
  atomic (fun s => (s, Ok (default None (hits s !! request_id)))).

(** [for key in released: del held[key]] on the ordered dict. *)
Fixpoint del_held (released held : list ChunkKey) : list ChunkKey * res unit :=
  match released with
  | [] => (held, Ok tt)
  | key :: released' =>
      if decide (key ∈ held) then del_held released' (os_del key held)
      else (held, Raise KeyError)
  end.

(** The critical section of [release]; without an entry for the request
    [held] is a fresh empty dict. *)
Definition take_held (request_id : string) (keys : option (list ChunkKey))
    : M (Stack A) (list ChunkKey) := fun s =>
  match held s !! request_id with
  | None => (s, Ok [])
  | Some h =>
      let released := filter (fun key => key ∈ h) (default h keys) in
      let (h', r) := del_held released h in
      (set_held (<[request_id := h']> (held s)) s, res_bind r (fun _ => Ok released))
  end.
Definition release (request_id : string) (keys : option (list ChunkKey)) : prog (Stack A) unit :=
  let! released := atomic (take_held request_id keys) in
  on_l1 (finish_read released).

Definition release_first (request_id : string) (count : Z) : prog (Stack A) unit :=
  let! keys := atomic (fun s => (s, Ok (py_take count (default [] (held s !! request_id))))) in
  release request_id (Some keys).

Definition forget (request_id : string) : M (Stack A) unit :=
  modify (fun s => set_held (delete request_id (held s))
                     (set_hits (delete request_id (hits s)) s)).
Definition end_session (request_id : string) : prog (Stack A) unit :=
  let! _ := release request_id None in
  atomic (forget request_id).
End prefetch.

(** ** Sorting the adapters *)

Lemma insert_desc_perm h x l : insert_desc h x l ≡ₚ x :: l.
Proof.
  induction l as [|y l IH]; simpl; [done|]. destruct (h y <=? h x); [done|].
  rewrite IH. apply Permutation_swap.
Qed.

Lemma sorted_desc_perm h l : sorted_desc h l ≡ₚ l.
Proof. induction l as [|x l IH]; simpl; [done|]. by rewrite insert_desc_perm, IH. Qed.

(** The first adapter of the order has the best hit. *)
Lemma sorted_desc_head h l i rest :
  sorted_desc h l = i :: rest -> h i = foldr Nat.max 0 (h <$> l).
Proof.
  assert (forall l, (forall y, y ∈ sorted_desc h l -> h y <= foldr Nat.max 0 (h <$> l)) /\
    match sorted_desc h l with [] => True | i :: _ => h i = foldr Nat.max 0 (h <$> l) end) as Hg.
  { clear. induction l as [|x l [IH1 IH2]]; simpl; [split; [set_solver|done]|]. split.
    - intros y. rewrite insert_desc_perm, elem_of_cons. intros [->|Hy%IH1]; [lia|].
      unfold fmap in *. lia.
    - destruct (sorted_desc h l) as [|y l'] eqn:E; simpl.
      + apply (f_equal length) in E. rewrite (Permutation_length (sorted_desc_perm h l)) in E.
        destruct l; [simpl; lia|done].
      + unfold fmap in *. destruct (Nat.leb_spec (h y) (h x)); simpl; lia. }
  intros E. destruct (Hg l) as [_ H]. by rewrite E in H.
Qed.

Lemma max_default_elem l n : n ∈ l -> n <= max_default l.
Proof. induction l as [|m l IH]; [set_solver|]. simpl. intros [->|?%IH]%elem_of_cons; lia. Qed.

(** ** Reserving one chunk *)

Section reserve.
Context (C : ChunkKey -> bytes).
Implicit Types (x : L1 lref obs).

Lemma reserve_write_allocator keys n tmp x x' r :
  reserve_write keys n tmp x = (x', r) ->
  allocator x' = fst (allocate (Zlen (filter (fun k => entries x !! k = None) keys)) n (allocator x)).
Proof.
  assert (forall kos result x x' r, for_acc kos result (reserve_write_one tmp) x = (x', r) ->
    allocator x' = allocator x) as Hloop.
  { clear. induction kos as [|ko kos IH]; intros result x x' r; simpl; [by intros [= <- _]|].
    unfold bind at 1. intros H%IH. exact H. }
  unfold reserve_write, on_allocator, zoom. unfold bind at 1. unfold get at 1. unfold bind at 1.
  destruct (allocate _ _ _) as [a' [[objs|]|e]]; simpl.
  - intros H%Hloop. exact H.
  - by intros [= <- _].
  - by intros [= <- _].
Qed.

(** Reserving a single chunk succeeds exactly when it is absent and the pool
    has room for it. *)
Lemma reserve_one_spec x W H k n :
  l1_inv C x W H -> (0 < n)%Z ->
  exists x' r, reserve_write [k] n true x = (x', Ok r) /\ same_frame x x' /\
    observers x' = observers x /\
    if bool_decide (entries x !! k = None) && (1 <=? room (allocator x) n)%Z then
      exists o, r !! k = Some (Some o) /\ obj_nbytes o = n /\
        l1_inv C x' (<[k := (true, o)]> W) H /\
        entries x' = <[k := mkEntry o true 0 true]> (entries x) /\
        room (allocator x') n = (room (allocator x) n - 1)%Z
    else r !! k = Some None /\ l1_inv C x' W H /\ entries x' = entries x.
Proof.
  intros Hinv Hn. destruct (reserve_write_spec C x W H [k] n true Hinv) as (x' & r & E & Hf & Ho & Hc);
    [apply NoDup_singleton|lia|].
  exists x', r. split_and!; [done|done|done|].
  pose proof (reserve_write_allocator _ _ _ _ _ _ E) as Hal. destruct Hinv as [Ha _].
  destruct (allocate_one_room _ _ n Ha Hn) as (a1 & ro & E1 & Hro).
  rewrite !filter_cons, !filter_nil in *. destruct (decide (entries x !! k = None)) as [Hk|Hk].
  - rewrite bool_decide_eq_true_2 by done. simpl. rewrite Zlen_one, E1 in *. simpl in Hal.
    destruct Hc as [(He & Hinv' & Hr & _ & (a2 & E2))|(kos & Hk1 & Hsz & Hinv' & Hr & _ & He)].
    + simplify_eq. replace (1 <=? _)%Z with false by lia. split_and!; [|done|done].
      rewrite Hr. by rewrite decide_True by set_solver.
    + destruct kos as [|[k' o] [|]]; try done. csimpl in *. simplify_eq.
      apply Forall_cons in Hsz as [Hsz _]. destruct ro as [objs|].
      * destruct Hro as (Hge & _ & _ & Hroom). replace (1 <=? _)%Z with true by lia.
        exists o. split_and!; [apply Hr; set_solver|done|done|done|done].
      * exfalso. assert (snd (reserve_write [k] n true x) = Ok r) as Hres by by rewrite E.
        revert Hres. unfold reserve_write, on_allocator, zoom. unfold bind at 1. unfold get at 1.
        unfold bind at 1. rewrite filter_cons_True, filter_nil, Zlen_one, E1 by done. simpl.
        intros [= <-]. specialize (Hr k o ltac:(set_solver)). simpl in Hr.
        by rewrite lookup_insert_eq in Hr.
  - rewrite bool_decide_eq_false_2 by done. simpl.
    destruct Hc as [(He & Hinv' & Hr & _)|(kos & Hk1 & _ & Hinv' & _ & Hr & He)].
    + split_and!; [|done|done]. rewrite Hr. by rewrite decide_True by set_solver.
    + destruct kos; [|done]. simpl in *. split_and!; [|done|done]. apply Hr; set_solver.
Qed.
End reserve.

(** ** The steps of a prefetch, run alone *)

Lemma reserve_read_prefix_allocator (x x' : L1 lref obs) keys r :
  reserve_read_prefix keys x = (x', r) -> allocator x' = allocator x.
Proof.
  assert (forall ks (x x' : L1 lref obs) r,
    for_each ks (fun key => bind (entry_at key) (fun e => put_entry key (add_read_count 1 e))) x = (x', r) ->
    allocator x' = allocator x) as Hloop.
  { clear. induction ks as [|k ks IH]; intros x x' r; simpl; [by intros [= <- _]|].
    unfold bind at 1 2, entry_at at 1. destruct (entries x !! k); [|by intros [= <- _]].
    unfold put_entry, modify. intros H%IH. exact H. }
  unfold reserve_read_prefix. unfold bind at 1. unfold get at 1. unfold bind at 1.
  destruct (for_each _ _ x) as [x1 [[]|e]] eqn:E; intros [= <- _]; by eapply Hloop.
Qed.

Section prefetch_steps.
Context {A : Type} (C : ChunkKey -> bytes) (ok : ChunkKey -> Prop) `{!L2Ops A} `{!L2Laws A C ok}.
Implicit Types (s : Stack A) (x : L1 lref obs).

Definition absent x (k : ChunkKey) : bool := bool_decide (entries x !! k = None).

(** How many of [keys] can be reserved: up to the first chunk that already
    has an entry, and as far as the pool goes. *)
Definition reservable x (keys : list ChunkKey) (n : Z) : nat :=
  prefix_count (absent x) keys `min` Z.to_nat (room (allocator x) n).

Lemma reserve_load_spec s W H keys n lks objs :
  l1_inv C (l1 s) W H -> NoDup keys -> (0 < n)%Z ->
  exists x' kos, run (reserve_load_loop keys n lks objs) s
      = (set_l1 x' s, Ok (lks ++ kos.*1, objs ++ kos.*2)) /\
    kos.*1 = take (reservable (l1 s) keys n) keys /\
    Forall (fun ko => obj_nbytes ko.2 = n) kos /\
    l1_inv C x' (add_writes true kos W) H /\ same_frame (l1 s) x' /\
    observers x' = observers (l1 s) /\
    (forall k, k ∉ kos.*1 -> entries x' !! k = entries (l1 s) !! k).
Proof.
  intros Hinv Hnd Hn. revert s W lks objs Hinv.
  induction Hnd as [|k keys Hk _ IH]; intros s W lks objs Hinv.
  { exists (l1 s), []. cbn [reserve_load_loop]. rewrite !app_nil_r, set_l1_id.
    by split_and!; [| |constructor| | | |]. }
  destruct (reserve_one_spec C (l1 s) W H k n Hinv Hn) as (x1 & r & E & Hf & Ho & Hr).
  cbn [reserve_load_loop]. rewrite (run_on_l1_ok _ _ _ _ _ E).
  assert (absent (l1 s) k = bool_decide (entries (l1 s) !! k = None)) as Habs by done.
  destruct (bool_decide (entries (l1 s) !! k = None)) eqn:Ek, (Z.leb_spec 1 (room (allocator (l1 s)) n));
    simpl in Hr.
  2,3,4: destruct Hr as (Hr & Hinv1 & He); rewrite Hr; exists x1, []; rewrite !app_nil_r;
    (split_and!; [done| |constructor|done|done|done|by intros; rewrite He]);
    unfold reservable; simpl; rewrite Habs;
    (replace (_ `min` _) with 0 by lia; done) || done.
  destruct Hr as (o & Hr & Hsz & Hinv1 & He & Hroom). rewrite Hr.
  destruct (IH (set_l1 x1 s) (<[k := (true, o)]> W) (lks ++ [k]) (objs ++ [o]) Hinv1)
    as (x2 & kos & E2 & Hk2 & Hsz2 & Hinv2 & Hf2 & Ho2 & He2).
  exists x2, ((k, o) :: kos). rewrite E2, set_l1_set_l1, <- !app_assoc.
  change (l1 (set_l1 x1 s)) with x1 in *.
  split_and!; [done| |by constructor|done| | |].
  - rewrite fmap_cons, Hk2. unfold reservable. simpl. rewrite Habs, Hroom.
    rewrite (prefix_count_ext (absent x1) (absent (l1 s)) keys).
    + replace (Z.to_nat (room (allocator (l1 s)) n))
        with (S (Z.to_nat (room (allocator (l1 s)) n - 1))) by lia. done.
    + intros k' Hk'. unfold absent. rewrite He, lookup_insert_ne; [done|]. by intros <-.
  - by eapply same_frame_trans.
  - by rewrite Ho2.
  - intros k' [Hne Hk']%not_elem_of_cons. rewrite He2, He by done. by rewrite lookup_insert_ne.
Qed.

(** The per-adapter hit counts. *)
Definition l2_counts s (missing : list ChunkKey) : list nat :=
  (fun a => l2_prefix C ok a missing) <$> l2s s.

Lemma lookup_l2s_spec s missing :
  Forall l2_inv (l2s s) -> Forall ok missing ->
  run (lookup_l2s missing) s = (s, Ok (if missing is [] then [] else l2_counts s missing)).
Proof.
  intros Ha Hk. destruct missing as [|k ks]; [done|]. unfold lookup_l2s, num_l2s.
  erewrite run_atomic_ok by done. erewrite run_bind_ok; [|by apply (submit_lookup_all C ok)].
  unfold plift. simpl run. unfold lift_res. do 2 f_equal. unfold l2_counts.
  rewrite <- future_results_ok. f_equal. by rewrite <- list_fmap_compose.
Qed.

Lemma prefix_count_take_min {X} (p : X -> bool) (l : list X) n :
  prefix_count p (take n l) = n `min` prefix_count p l.
Proof.
  revert n. induction l as [|y l IH]; intros [|n]; simpl; [done..|].
  destruct (p y); [by rewrite IH|lia].
Qed.

Lemma nth_fmap_seq (l : list nat) : hit_of l <$> seq 0 (length l) = l.
Proof.
  apply list_eq. intros i. rewrite list_lookup_fmap. destruct (decide (i < length l)) as [Hi|Hi].
  - rewrite lookup_seq_lt by done. simpl. unfold hit_of.
    destruct (lookup_lt_is_Some_2 l i Hi) as [y Hy]. by rewrite Hy, (nth_lookup_Some _ _ _ _ Hy).
  - rewrite (lookup_ge_None_2 l) by lia. rewrite lookup_ge_None_2; [done|]. rewrite length_seq. lia.
Qed.

(** The best adapter has every chunk that was reserved: one load fills them
    all. *)
Lemma load_from_l2s_spec s W H kos missing m :
  l1_inv C (l1 s) W H -> writing W kos -> Forall l2_inv (l2s s) ->
  Forall (fun ko => ok ko.1 /\ length (C ko.1) = v_len (mo_tensor ko.2)) kos ->
  kos.*1 = take m missing -> length kos <= max_default (l2_counts s missing) ->
  run (load_from_l2s kos.*1 kos.*2 (l2_counts s missing)) s
    = (set_l1 (with_pool (fill_slots C kos (pool_of (l1 s))) (l1 s)) s, Ok (length kos)).
Proof.
  intros Hinv Hwr Ha Hkos Hm Hle. unfold load_from_l2s, num_l2s.
  destruct kos as [|ko kos]; [simpl; by rewrite with_pool_id, set_l1_id|].
  set (kos' := ko :: kos) in *. change (kos'.*1) with (ko.1 :: kos.*1) at 1. cbv iota.
  erewrite run_atomic_ok by done.
  set (counts := l2_counts s missing) in *.
  assert (length counts = length (l2s s)) as Hlen by (unfold counts, l2_counts; apply length_fmap).
  destruct (sorted_desc (hit_of counts) (seq 0 (length (l2s s)))) as [|i rest] eqn:Es.
  { apply (f_equal length) in Es. rewrite (Permutation_length (sorted_desc_perm _ _)), length_seq in Es.
    simpl in Es. destruct counts; simpl in *; lia. }
  pose proof (sorted_desc_head _ _ _ _ Es) as Hbest. rewrite <- Hlen, nth_fmap_seq in Hbest.
  fold (max_default counts) in Hbest.
  assert (i < length (l2s s)) as Hi.
  { assert (i ∈ seq 0 (length (l2s s))) as Hin; [|apply elem_of_seq in Hin; lia].
    rewrite <- (sorted_desc_perm (hit_of counts)), Es. set_solver. }
  destruct (lookup_lt_is_Some_2 _ _ Hi) as [a Hia].
  assert (hit_of counts i = l2_prefix C ok a missing) as Hhit.
  { unfold hit_of. apply nth_lookup_Some. unfold counts, l2_counts. by rewrite list_lookup_fmap, Hia. }
  cbn [load_loop]. change (0 =? length kos'.*1) with false.
  replace (hit_of counts i <=? 0) with false by (symmetry; apply Nat.leb_gt; simpl in Hle; lia).
  cbn [orb]. rewrite !drop_0.
  assert (slots_ok C (pool_of (l1 s)) kos') as Hs.
  { apply (writing_slots C _ W H); [done|done|]. rewrite Forall_forall in Hkos. apply Hkos. }
  rewrite Forall_forall in Ha. rewrite Forall_forall in Hkos.
  assert (l2_prefix C ok a kos'.*1 = length kos') as Hn.
  { rewrite Hm. unfold l2_prefix. rewrite prefix_count_take_min. fold (l2_prefix C ok a missing).
    assert (length kos' = length (take m missing)) as Hlm by (by rewrite <- Hm, length_fmap).
    rewrite length_take in Hlm. pose proof (prefix_count_le (fun k => bool_decide (is_Some (l2_get a k))) missing).
    fold (l2_prefix C ok a missing) in *. lia. }
  erewrite run_bind_ok.
  2: { apply (on_l2_load C ok _ _ a); [done|by eapply Ha, list_elem_of_lookup_2| |done].
       apply Forall_forall. intros ko' Hin. by apply Hkos. }
  rewrite Hn, take_ge by lia. unfold future_result, plift. cbn [pbind]. rewrite Nat.add_0_l.
  destruct rest; [done|]. cbn [load_loop]. rewrite length_fmap, Nat.eqb_refl. done.
Qed.
End prefetch_steps.

Definition nonzero_float (x : float) : bool := match x with S754_zero _ => false | _ => true end.

Lemma load_gbps_ok n nb elapsed : nonzero_float elapsed = true -> exists g, load_gbps n nb elapsed = Ok g.
Proof.
  intros He. unfold load_gbps. destruct (n =? 0); [eauto|]. unfold fdiv at 1.
  destruct elapsed; try done; simpl; eexists; reflexivity.
Qed.

Section prefetching.
Context {A : Type} (C : ChunkKey -> bytes) (ok : ChunkKey -> Prop) `{!L2Ops A} `{!L2Laws A C ok}.
Implicit Types (s : Stack A) (x : L1 lref obs).

(** A step of the controller leaves everything but L1 and the session tables
    alone. *)
Definition only_sessions s s' : Prop :=
  l2s s' = l2s s /\ jobs s' = jobs s /\ same_frame (l1 s) (l1 s').

Lemma resolve_spec s W H rid ks1 ks2 g :
  l1_inv C (l1 s) W (H ⊎ holds_of (ks1 ++ ks2)) -> NoDup (ks1 ++ ks2) ->
  exists s', run (resolve rid ks1 ks2 g) s = (s', Ok tt) /\ only_sessions s s' /\
    match hits s !! rid with
    | Some _ => l1 s' = l1 s /\
        hits s' = <[rid := Some (Zlen ks1, Zlen ks2, g)]> (hits s) /\
        held s' = <[rid := ks1 ++ ks2]> (held s)
    | None => l1_inv C (l1 s') W H /\ hits s' = hits s /\ held s' = held s
    end.
Proof.
  intros Hinv Hnd. unfold resolve.
  assert (publish rid ks1 ks2 g s = publish rid ks1 ks2 g s) as E by done. revert E.
  unfold publish at 2. destruct (hits s !! rid) as [h|] eqn:Eh; intros E.
  - erewrite run_atomic_ok by exact E. eexists. split; [reflexivity|]. split; [done|].
    simpl. by rewrite fromkeys_NoDup.
  - erewrite run_atomic_ok by exact E.
    destruct (finish_read_held C _ _ _ _ Hinv Hnd) as (x' & E' & Hf & Hinv' & _).
    rewrite (run_on_l1 _ _ _ _ E'). eexists. split; [reflexivity|]. done.
Qed.

(** What a lookup finds: ready chunks first, then what the best adapter has,
    as far as slots can be reserved. *)
Definition l1_hits s (keys : list ChunkKey) : nat := prefix_count (key_readable (entries (l1 s))) keys.
Definition l2_hits s (keys : list ChunkKey) (nb : Z) : nat :=
  let missing := drop (l1_hits s keys) keys in
  reservable (l1 s) (take (max_default (l2_counts C ok s missing)) missing) nb.

Lemma reservable_le x keys n : reservable x keys n <= length keys.
Proof. unfold reservable. pose proof (prefix_count_le (absent x) keys). lia. Qed.

Lemma reservable_absent x keys n k : k ∈ take (reservable x keys n) keys -> entries x !! k = None.
Proof.
  intros Hk. pose proof (prefix_count_take (absent x) keys) as Hall. rewrite Forall_forall in Hall.
  apply (bool_decide_eq_true (entries x !! k = None)), Hall.
  rewrite elem_of_take in Hk. apply elem_of_take.
  destruct Hk as (i & Hi & Hlt). exists i. split; [done|]. unfold reservable in Hlt. lia.
Qed.

Lemma add_then_del_writes tmp kos W :
  NoDup kos.*1 -> (forall k, k ∈ kos.*1 -> W !! k = None) ->
  del_writes kos.*1 (add_writes tmp kos W) = W.
Proof.
  intros Hnd HW. apply map_eq. intros k. rewrite del_writes_lookup. case_decide as Hk.
  - by rewrite HW.
  - by rewrite add_writes_notin.
Qed.

Lemma max_default_nil s : max_default (l2_counts C ok s []) = 0.
Proof. unfold l2_counts. induction (l2s s) as [|a l IH]; csimpl; [done|]. by rewrite IH. Qed.

Lemma take_reservable x best missing nb :
  take (reservable x (take best missing) nb) (take best missing)
    = take (reservable x (take best missing) nb) missing /\
  reservable x (take best missing) nb <= best /\ reservable x (take best missing) nb <= length missing.
Proof.
  pose proof (reservable_le x (take best missing) nb) as Hle. rewrite length_take in Hle.
  rewrite take_take, Nat.min_l by lia. split_and!; [done|lia|lia].
Qed.

Lemma writing_reserved W kos tmp :
  NoDup kos.*1 -> writing (add_writes tmp kos W) kos.
Proof.
  intros Hnd. split; [done|]. intros [k o] Hin. exists tmp. by apply add_writes_in.
Qed.

(** Loading the reserved slots, also when the query found nothing missing. *)
Lemma load_reserved s W H missing kos :
  l1_inv C (l1 s) W H -> Forall l2_inv (l2s s) -> kos.*1 = take (length kos) missing ->
  NoDup kos.*1 -> (forall ko, ko ∈ kos -> ok ko.1 /\ length (C ko.1) = v_len (mo_tensor ko.2)) ->
  writing W kos ->
  length kos <= max_default (l2_counts C ok s missing) ->
  run (load_from_l2s kos.*1 kos.*2 (if missing is [] then [] else l2_counts C ok s missing)) s
  = (set_l1 (with_pool (fill_slots C kos (pool_of (l1 s))) (l1 s)) s, Ok (length kos)).
Proof.
  intros Hinv Ha Hk Hndk Hkos Hwr Hmb. destruct missing as [|k0 missing0] eqn:Em.
  - rewrite take_nil in Hk. destruct kos; [|done]. simpl in *. rewrite with_pool_id. by destruct s.
  - apply (load_from_l2s_spec C ok s W H kos (k0 :: missing0) (length kos)); try done.
    by apply Forall_forall.
Qed.

(** The load phase: from the L1 holds to all the holds. *)
Lemma prefetch_load_spec {B} s W H missing nb
    (K : list ChunkKey * list MemoryObj -> nat -> prog (Stack A) B) :
  l1_inv C (l1 s) W H -> Forall l2_inv (l2s s) -> NoDup missing -> Forall ok missing ->
  (forall k, k ∈ missing -> Zlen (C k) = nb) -> (0 < nb)%Z ->
  let best := max_default (l2_counts C ok s missing) in
  let m := reservable (l1 s) (take best missing) nb in
  exists x' kos, kos.*1 = take m missing /\ length kos = m /\
    length (pool_of x') = length (pool_of (l1 s)) /\ listeners x' = listeners (l1 s) /\
    l1_inv C x' W (H ⊎ holds_of (take m missing)) /\
    run (let! l2_hits := lookup_l2s missing in
         let! lo := reserve_load missing (max_default l2_hits) nb in
         let! loaded := load_from_l2s lo.1 lo.2 l2_hits in
         let! _ := on_l1 (finish_write_and_reserve_read (take loaded lo.1)) in
         let! _ := on_l1 (delete_keys (drop loaded lo.1) true) in
         K lo loaded) s
    = run (K (kos.*1, kos.*2) m) (set_l1 x' s).
Proof.
  intros Hinv Ha Hnd Hok Hsz Hnb best m.
  assert (forall v, v = (if missing is [] then [] else l2_counts C ok s missing) ->
    max_default v = best) as Hbest.
  { intros v ->. unfold best. destruct missing; [by rewrite max_default_nil|done]. }
  destruct (take_reservable (l1 s) best missing nb) as (Htake & Hmb & Hml). fold m in Htake, Hmb, Hml.
  destruct (reserve_load_spec C s W H (take best missing) nb [] [] Hinv ltac:(auto with pylist) Hnb)
    as (x1 & kos & E1 & Hk & Hso & Hinv1 & [Hp1 Hl1] & _ & Hother). fold m in Hk. rewrite Htake in Hk.
  assert (NoDup kos.*1) as Hndk by (rewrite Hk; auto with pylist).
  assert (length kos = m) as Hlk
    by (rewrite <- (length_fmap fst kos), Hk, length_take; lia).
  assert (forall ko, ko ∈ kos -> ok ko.1 /\ length (C ko.1) = v_len (mo_tensor ko.2)) as Hkos.
  { intros ko Hin. assert (ko.1 ∈ missing) as Hm.
    { apply (subseteq_take m). rewrite <- Hk. apply list_elem_of_fmap. eauto. }
    rewrite Forall_forall in Hok. rewrite Forall_forall in Hso. split; [by apply Hok|].
    specialize (Hsz _ Hm). specialize (Hso _ Hin). unfold Zlen, obj_nbytes in *. lia. }
  pose proof (writing_reserved W kos true Hndk) as Hwr.
  destruct (fill_slots_inv C x1 _ H kos Hinv1 Hwr ltac:(intros; by apply Hkos))
    as (Hinv2 & _ & Hfill & Hlen).
  set (x2 := with_pool (fill_slots C kos (pool_of x1)) x1) in *.
  destruct (finish_write_and_reserve_read_spec C x2 _ H kos.*1 Hinv2 Hndk)
    as (x3 & E3 & [Hp3 Hl3] & Hinv3 & _ & _).
  { intros k ([k' o] & -> & Hin)%list_elem_of_fmap. exists true, o.
    split; [by apply add_writes_in|]. by apply (Hfill (k', o)). }
  rewrite add_then_del_writes in Hinv3; [|done|].
  2: { intros k Hin. apply (lock_inv_absent C (pool_of (l1 s)) (entries (l1 s)) W H k); [apply Hinv|].
       apply (reservable_absent _ (take best missing) nb). fold m. by rewrite Htake, <- Hk. }
  rewrite Hk in Hinv3. exists x3, kos. split_and!; [done|done| | |done|].
  { rewrite Hp3. change (pool_of x2) with (fill_slots C kos (pool_of x1)). by rewrite Hlen, Hp1. }
  { by rewrite Hl3. }
  erewrite run_bind_ok; [|by apply lookup_l2s_spec]. rewrite Hbest by done.
  unfold reserve_load. erewrite run_bind_ok; [|exact E1]. rewrite !app_nil_l. cbn [fst snd].
  pose proof (load_reserved (set_l1 x1 s) (add_writes true kos W) H missing kos Hinv1 Ha
    ltac:(by rewrite Hlk) Hndk Hkos Hwr ltac:(rewrite Hlk; exact Hmb)) as E2. rewrite Hlk in E2.
  erewrite run_bind_ok; [|exact E2].
  assert (take m kos.*1 = kos.*1) as -> by (apply take_ge; rewrite length_fmap; lia).
  assert (drop m kos.*1 = []) as -> by (apply drop_ge; rewrite length_fmap; lia).
  erewrite run_on_l1_ok by exact E3. by erewrite run_on_l1_ok by reflexivity.
Qed.

(** The outcome of one prefetch job. *)
Lemma prefetch_spec s W H rid keys nb elapsed :
  l1_inv C (l1 s) W H -> Forall l2_inv (l2s s) -> NoDup keys -> Forall ok keys ->
  (forall k, k ∈ keys -> Zlen (C k) = nb) -> (0 < nb)%Z -> nonzero_float elapsed = true ->
  let n := l1_hits s keys in
  let m := l2_hits s keys nb in
  exists s' g, run (prefetch elapsed rid keys (Some nb)) s = (s', Ok tt) /\
    l2s s' = l2s s /\ jobs s' = jobs s /\ length (pool_of (l1 s')) = length (pool_of (l1 s)) /\
    match hits s !! rid with
    | Some _ =>
        l1_inv C (l1 s') W (H ⊎ holds_of (take (n + m) keys)) /\
        hits s' = <[rid := Some (Z.of_nat n, Z.of_nat m, g)]> (hits s) /\
        held s' = <[rid := take (n + m) keys]> (held s) /\
        (forall k, k ∈ take (n + m) keys -> exists e, entries (l1 s') !! k = Some e /\
           (0 < read_count e)%Z /\ byte_array (entry_obj e) (pool_of (l1 s')) = C k)
    | None => l1_inv C (l1 s') W H /\ hits s' = hits s /\ held s' = held s
    end.
Proof.
  intros Hinv Ha Hnd Hok Hsz Hnb Hel n m.
  destruct (reserve_read_prefix_spec C (l1 s) W H keys Hinv Hnd) as (x1 & E1 & [Hp1 _] & Hinv1 & He1 & _).
  change (prefix_count (key_readable (entries (l1 s))) keys) with n in *.
  unfold prefetch. erewrite run_on_l1_ok by exact E1.
  destruct (prefetch_load_spec (set_l1 x1 s) W _ (drop n keys) nb
    (fun lo loaded => let! gbps := plift (load_gbps loaded nb elapsed) in
                      resolve rid (take n keys) (take loaded lo.1) gbps) Hinv1 Ha)
    as (x2 & kos & Hk & Hlk & Hp2 & _ & Hinv2 & E2); [auto with pylist|by apply Forall_drop| |done|].
  { intros k Hk. apply Hsz. by eapply subseteq_drop. }
  assert (reservable (l1 (set_l1 x1 s))
    (take (max_default (l2_counts C ok (set_l1 x1 s) (drop n keys))) (drop n keys)) nb = m) as Hm.
  { unfold m, l2_hits, reservable. fold n. simpl.
    rewrite (reserve_read_prefix_allocator _ _ _ _ E1). f_equal. apply prefix_count_ext.
    intros k _. unfold absent. apply bool_decide_ext.
    rewrite He1, update_keys_lookup by auto with pylist.
    case_decide; [apply fmap_None|done]. }
  rewrite Hm in *. rewrite E2. cbn [fst snd].
  destruct (load_gbps_ok m nb elapsed Hel) as [g Hg]. unfold plift. rewrite Hg. cbn [pbind].
  assert (take m kos.*1 = kos.*1) as -> by (apply take_ge; rewrite length_fmap; lia).
  assert (take n keys ++ kos.*1 = take (n + m) keys) as Happ by (rewrite Hk; apply take_take_drop).
  assert (l1_inv C x2 W (H ⊎ holds_of (take n keys ++ kos.*1))) as Hinv3.
  { rewrite holds_of_app, Hk. rewrite (assoc_L (⊎)). exact Hinv2. }
  assert (NoDup (take n keys ++ kos.*1)) as Hnd3 by (rewrite Happ; auto with pylist).
  destruct (resolve_spec (set_l1 x2 (set_l1 x1 s)) W H rid (take n keys) kos.*1 g Hinv3 Hnd3)
    as (s' & E3 & (Hl2 & Hj & [Hp3 _]) & Hres).
  exists s', g. split; [exact E3|]. split; [done|]. split; [done|].
  split; [rewrite Hp3; simpl; rewrite Hp2; simpl; by rewrite Hp1|]. simpl in Hres.
  destruct (hits s !! rid) as [h|]; [|done]. destruct Hres as (Hl1 & Hh & Hd).
  rewrite Happ in Hd, Hinv3. rewrite Hl1. split; [done|]. split.
  - rewrite Hh. do 2 f_equal. unfold Zlen. rewrite length_fmap, Hlk, length_take, Nat.min_l; [done|].
    apply prefix_count_le.
  - split; [done|]. intros k Hk'. destruct Hinv3 as [_ Hlk3].
    destruct (lock_inv_held _ _ _ _ _ k Hlk3) as (e & He & _ & Hw & _ & Hpos).
    { rewrite elem_of_multiplicity, multiplicity_disj_union, multiplicity_holds_of, decide_True
        by auto with pylist. lia. }
    exists e. split_and!; [done|done|]. by eapply lock_inv_ready.
Qed.

(** C12: a lookup of a registered deployment resolves to exactly the longest
    ready prefix in L1 followed by the chunks of the best adapter, up to the
    first chunk that already has an L1 entry and as far as the pool has room.
    Every hit is read-held for the session with its content in place, no
    write lock is left behind, and if the session has ended meanwhile every
    hold is given back. *)
Theorem prefetch_exact s W H rid keys nb elapsed :
  l1_inv C (l1 s) W H -> Forall l2_inv (l2s s) -> NoDup keys -> Forall ok keys ->
  (forall k, k ∈ keys -> Zlen (C k) = nb) -> (0 < nb)%Z -> nonzero_float elapsed = true ->
  let n := l1_hits s keys in
  let m := l2_hits s keys nb in
  exists s' g, run (prefetch elapsed rid keys (Some nb)) s = (s', Ok tt) /\
    l2s s' = l2s s /\ jobs s' = jobs s /\ length (pool_of (l1 s')) = length (pool_of (l1 s)) /\
    match hits s !! rid with
    | Some _ =>
        l1_inv C (l1 s') W (H ⊎ holds_of (take (n + m) keys)) /\
        hits s' = <[rid := Some (Z.of_nat n, Z.of_nat m, g)]> (hits s) /\
        held s' = <[rid := take (n + m) keys]> (held s) /\
        (forall k, k ∈ take (n + m) keys -> exists e, entries (l1 s') !! k = Some e /\
           (0 < read_count e)%Z /\ byte_array (entry_obj e) (pool_of (l1 s')) = C k)
    | None => l1_inv C (l1 s') W H /\ hits s' = hits s /\ held s' = held s
    end.
Proof. apply prefetch_spec. Qed.
End prefetching.

(** ** Sessions: releasing what a lookup holds *)

Lemma del_held_spec released h :
  NoDup released -> (forall k, k ∈ released -> k ∈ h) ->
  del_held released h = (filter (fun k => k ∉ released) h, Ok tt).
Proof.
  intros Hnd. revert h. induction Hnd as [|k ks Hk _ IH]; intros h Hin.
  { simpl. f_equal. symmetry. apply list_filter_all. intros k _. apply not_elem_of_nil. }
  simpl. rewrite decide_True by set_solver. rewrite IH.
  - f_equal. unfold os_del. rewrite list_filter_filter. apply list_filter_iff. set_solver.
  - intros k' Hk'. apply elem_of_os_del. split; [by intros ->|set_solver].
Qed.

(** Duplicate keys make the deletion fail half-way. *)
Example del_held_duplicates (k : ChunkKey) : del_held [k; k] [k] = ([], Raise KeyError).
Proof.
  simpl. rewrite decide_True by set_solver. unfold os_del. rewrite filter_cons_False by naive_solver.
  rewrite filter_nil. by rewrite decide_False by apply not_elem_of_nil.
Qed.

Section sessions.
Context {A : Type} (C : ChunkKey -> bytes) `{!L2Ops A}.
Implicit Types (s : Stack A).

(** The part of [h] a release takes back, and what stays. *)
Definition taken (keys h : list ChunkKey) : list ChunkKey := filter (fun k => k ∈ h) keys.
Definition left_held (keys h : list ChunkKey) : list ChunkKey := filter (fun k => k ∉ keys) h.

Lemma taken_left keys h :
  NoDup keys -> NoDup h -> holds_of (taken keys h) ⊎ holds_of (left_held keys h) = holds_of h.
Proof.
  intros Hk Hh. apply gmultiset_eq. intros k. rewrite multiplicity_disj_union.
  unfold taken, left_held. rewrite !multiplicity_holds_of by (try apply NoDup_filter; done).
  destruct (decide (k ∈ filter _ keys)) as [H1|H1], (decide (k ∈ filter _ h)) as [H2|H2],
    (decide (k ∈ h)) as [H3|H3]; rewrite list_elem_of_filter in H1, H2; naive_solver.
Qed.

(** What leaves the table of the session. *)
Lemma take_held_eq s rid h keys :
  held s !! rid = Some h -> NoDup (default h keys) ->
  take_held rid keys s =
    (set_held (<[rid := left_held (default h keys) h]> (held s)) s, Ok (taken (default h keys) h)).
Proof using Type.
  clear C. intros Hh Hk. unfold take_held. rewrite Hh. set (ks := default h keys) in *. fold (taken ks h). rewrite del_held_spec.
  - simpl. do 3 f_equal. unfold left_held, taken. apply list_filter_iff_in. intros k Hkh.
    rewrite list_elem_of_filter. tauto.
  - by apply NoDup_filter.
  - intros k. unfold taken. rewrite list_elem_of_filter. tauto.
Qed.

(** Releasing [keys] of a session gives back exactly the holds it has on
    them; naming chunks it does not hold changes nothing. *)
Lemma release_spec s W H rid h keys :
  held s !! rid = Some h -> NoDup h -> NoDup (default h keys) ->
  l1_inv C (l1 s) W (H ⊎ holds_of h) ->
  exists s', run (release rid keys) s = (s', Ok tt) /\
    l1_inv C (l1 s') W (H ⊎ holds_of (left_held (default h keys) h)) /\
    held s' = <[rid := left_held (default h keys) h]> (held s) /\ hits s' = hits s /\
    l2s s' = l2s s /\ jobs s' = jobs s /\ same_frame (l1 s) (l1 s') /\
    entries (l1 s') = update_keys upd_release (taken (default h keys) h) (entries (l1 s)).
Proof.
  intros Hh Hnd Hk Hinv. pose proof (take_held_eq s rid h keys Hh Hk) as E. set (ks := default h keys) in *.
  unfold release. erewrite run_atomic_ok by exact E.
  rewrite <- (taken_left ks h), (comm_L (⊎) (holds_of (taken ks h))), (assoc_L (⊎)) in Hinv by done.
  destruct (finish_read_held C _ W _ (taken ks h) Hinv) as (x' & E' & Hf & Hinv' & He);
    [by apply NoDup_filter|].
  erewrite (run_on_l1 _ (set_held _ s)) by exact E'. eexists. split; [reflexivity|]. done.
Qed.

Lemma left_held_all h : left_held h h = [].
Proof.
  unfold left_held. apply elem_of_nil_inv. intros k. rewrite list_elem_of_filter. naive_solver.
Qed.

Lemma left_held_take n h : NoDup h -> left_held (take n h) h = drop n h.
Proof.
  intros Hnd. unfold left_held.
  replace (filter (fun k => k ∉ take n h) h)
    with (filter (fun k => k ∉ take n h) (take n h ++ drop n h)) by (by rewrite take_drop).
  rewrite filter_app.
  assert (filter (fun k => k ∉ take n h) (take n h) = []) as ->.
  { apply elem_of_nil_inv. intros k. rewrite list_elem_of_filter. naive_solver. }
  apply list_filter_all. intros k Hk Hk'. by apply (NoDup_take_notin_drop n h k).
Qed.

(** Progressive unlock: the first [count] holds go, in hit order. *)
Lemma release_first_spec s W H rid h count :
  held s !! rid = Some h -> NoDup h -> (0 <= count)%Z ->
  l1_inv C (l1 s) W (H ⊎ holds_of h) ->
  exists s', run (release_first rid count) s = (s', Ok tt) /\
    l1_inv C (l1 s') W (H ⊎ holds_of (drop (Z.to_nat count) h)) /\
    held s' = <[rid := drop (Z.to_nat count) h]> (held s) /\ hits s' = hits s /\
    l2s s' = l2s s /\ jobs s' = jobs s /\ same_frame (l1 s) (l1 s').
Proof.
  intros Hh Hnd Hc Hinv. unfold release_first. erewrite run_atomic_ok by reflexivity.
  rewrite Hh. cbn [default]. rewrite py_take_nonneg by done.
  rewrite <- (left_held_take (Z.to_nat count) h) by done.
  destruct (release_spec s W H rid h (Some (take (Z.to_nat count) h)))
    as (s' & E & H1 & H2 & H3 & H4 & H5 & H6 & _); [done|done|by apply NoDup_take|done|].
  by exists s'.
Qed.

(** Ending a session gives back every hold and forgets the request. *)
Lemma end_session_spec s W H rid h :
  default [] (held s !! rid) = h -> NoDup h -> l1_inv C (l1 s) W (H ⊎ holds_of h) ->
  exists s', run (end_session rid) s = (s', Ok tt) /\ l1_inv C (l1 s') W H /\
    held s' = delete rid (held s) /\ hits s' = delete rid (hits s) /\
    l2s s' = l2s s /\ jobs s' = jobs s /\ same_frame (l1 s) (l1 s').
Proof.
  intros Hh Hnd Hinv. unfold end_session. destruct (held s !! rid) as [h'|] eqn:Eh; simpl in Hh; subst h.
  - destruct (release_spec s W H rid h' None Eh Hnd Hnd Hinv)
      as (s1 & E & Hinv1 & Hd & Hhit & Hl2 & Hj & Hf & _).
    simpl in Hinv1, Hd. rewrite left_held_all in Hinv1, Hd.
    erewrite run_bind_ok by exact E. rewrite run_atomic. eexists. split; [reflexivity|]. simpl.
    rewrite Hd, Hhit, delete_insert_eq. split_and!; [|done|done|done|done|apply Hf..].
    replace (H ⊎ holds_of []) with H in Hinv1 by (unfold holds_of; simpl; multiset_solver). done.
  - replace (H ⊎ holds_of []) with H in Hinv by (unfold holds_of; simpl; multiset_solver).
    unfold release. erewrite run_bind_ok.
    2: { erewrite run_atomic_ok; [|unfold take_held; rewrite Eh; reflexivity].
         apply run_on_l1. reflexivity. }
    rewrite run_atomic. eexists. split; [reflexivity|]. simpl. by split_and!.
Qed.
End sessions.

Section lifecycle.
Context {A : Type} (C : ChunkKey -> bytes) (ok : ChunkKey -> Prop) `{!L2Ops A} `{!L2Laws A C ok}.
Implicit Types (s : Stack A).

(** A request's calls in order: lookup, resolution by the worker, progressive
    unlock of [count] chunks, end. *)
Definition session (elapsed : float) (rid : string) (keys : list ChunkKey) (nb count : Z)
    : prog (Stack A) (option hit_info) :=
  let! _ := start_session rid keys (Some nb) in
  let! _ := prefetch_round elapsed in
  let! found := query rid in
  let! _ := release_first rid count in
  let! _ := end_session rid in
  pret found.

(** C13: over a whole session the query reports exactly the chunks found, and
    after the end every read hold the lookup took has been given back, however
    many were unlocked early; the request is forgotten. *)
Theorem session_gives_everything_back s W H elapsed rid keys nb count :
  l1_inv C (l1 s) W H -> Forall l2_inv (l2s s) -> NoDup keys -> Forall ok keys ->
  (forall k, k ∈ keys -> Zlen (C k) = nb) -> (0 < nb)%Z -> nonzero_float elapsed = true ->
  jobs s = [] -> held s !! rid = None -> (0 <= count)%Z ->
  exists s' g, run (session elapsed rid keys nb count) s
      = (s', Ok (Some (Z.of_nat (l1_hits s keys), Z.of_nat (l2_hits C ok s keys nb), g))) /\
    l1_inv C (l1 s') W H /\ hits s' !! rid = None /\ held s' = held s /\ jobs s' = [].
Proof.
  intros Hinv Ha Hnd Hok Hsz Hnb Hel Hj Hd Hc.
  set (s0 := set_hits (<[rid := None]> (hits s)) s).
  set (s1 := set_jobs [(rid, keys, Some nb)] s0).
  assert (run (start_session rid keys (Some nb)) s = (s1, Ok tt)) as E1.
  { unfold start_session. erewrite run_atomic_ok by reflexivity. rewrite run_atomic.
    unfold modify. fold s0. change (jobs s0) with (jobs s). by rewrite Hj. }
  assert (run (prefetch_round elapsed) s1 = run (prefetch elapsed rid keys (Some nb)) s0) as E2.
  { unfold prefetch_round. erewrite run_atomic_ok by reflexivity. cbv iota.
    f_equal. destruct s. unfold s0. simpl in *. by subst. }
  destruct (prefetch_spec C ok s0 W H rid keys nb elapsed Hinv Ha Hnd Hok Hsz Hnb Hel)
    as (s2 & g & E3 & _ & Hj2 & _ & Hres).
  change (hits s0 !! rid) with ((<[rid := None]> (hits s)) !! rid) in Hres.
  rewrite lookup_insert_eq in Hres. destruct Hres as (Hinv2 & Hh2 & Hd2 & _).
  change (l1_hits s0 keys) with (l1_hits s keys) in *.
  change (l2_hits C ok s0 keys nb) with (l2_hits C ok s keys nb) in *.
  set (n := l1_hits s keys) in *. set (m := l2_hits C ok s keys nb) in *.
  set (h := take (n + m) keys) in *. assert (NoDup h) as Hndh by by apply NoDup_take.
  assert (held s2 !! rid = Some h) as Hd2' by (rewrite Hd2; apply lookup_insert_eq).
  destruct (release_first_spec C s2 W H rid h count Hd2' Hndh Hc Hinv2)
    as (s3 & E4 & Hinv3 & Hd3 & Hh3 & _ & Hj3 & _).
  destruct (end_session_spec C s3 W H rid (drop (Z.to_nat count) h)) as
    (s4 & E5 & Hinv4 & Hd4 & Hh4 & _ & Hj4 & _);
    [by rewrite Hd3, lookup_insert_eq|by apply NoDup_drop|done|].
  exists s4, g. unfold session. erewrite run_bind_ok by exact E1.
  erewrite run_bind_ok by (rewrite E2; exact E3). unfold query.
  erewrite run_atomic_ok by reflexivity. erewrite run_bind_ok by exact E4.
  erewrite run_bind_ok by exact E5. simpl. unfold lift_res.
  rewrite Hh2, lookup_insert_eq. simpl. split_and!; [done|done| | |by rewrite Hj4, Hj3, Hj2].
  - by rewrite Hh4, lookup_delete_eq.
  - rewrite Hd4, Hd3, Hd2, insert_insert_eq, delete_insert_eq. by apply delete_id.
Qed.
End lifecycle.

#[local] Existing Instance mock_laws.

Definition toy_waiting : Stack Mock := set_hits (<["r" := None]> ∅) toy_stack.

Lemma prefetch_exact_witness :
  exists s' g, run (prefetch f_1e9 "r" [ka; kb; kc] (Some 2%Z)) toy_waiting = (s', Ok tt) /\
    hits s' !! "r" = Some (Some (1%Z, 1%Z, g)) /\ held s' !! "r" = Some [ka; kb] /\
    exists e, entries (l1 s') !! kb = Some e /\ byte_array (entry_obj e) (pool_of (l1 s')) = toy_C kb.
Proof.
  destruct toy_keys as (Hnd & Hok & Hsz).
  pose proof (prefetch_exact toy_C any_chunk toy_waiting ∅ ∅ "r" [ka; kb; kc] 2 f_1e9
              toy_stack_inv toy_stack_loads Hnd Hok Hsz eq_refl eq_refl) as (s' & g & E & _ & _ & _ & H).
  assert (hits toy_waiting !! "r" = Some None) as Hw by apply lookup_insert_eq.
  rewrite Hw in H. destruct H as (Hinv & Hh & Hd & Hk).
  assert (l1_hits toy_waiting [ka; kb; kc] = 1) as En by (vm_compute; reflexivity).
  assert (l2_hits toy_C any_chunk toy_waiting [ka; kb; kc] 2 = 1) as Em by (vm_compute; reflexivity).
  rewrite En, Em in *. exists s', g. split; [exact E|].
  rewrite Hh, Hd, !lookup_insert_eq. split; [reflexivity|]. split; [reflexivity|].
  destruct (Hk kb) as (e & He & _ & Hb); [|exists e; split; [exact He|exact Hb]].
  apply (bool_decide_unpack _). vm_compute. exact I.
Defined.

Lemma session_gives_everything_back_witness :
  exists s' g, run (session f_1e9 "r" [ka; kb; kc] 2 1) toy_stack = (s', Ok (Some (1%Z, 1%Z, g))) /\
    l1_inv toy_C (l1 s') ∅ ∅ /\ hits s' !! "r" = None.
Proof.
  destruct toy_keys as (Hnd & Hok & Hsz).
  destruct (session_gives_everything_back toy_C any_chunk toy_stack ∅ ∅ f_1e9 "r" [ka; kb; kc] 2 1
              toy_stack_inv toy_stack_loads Hnd Hok Hsz eq_refl eq_refl eq_refl eq_refl ltac:(done))
    as (s' & g & E & Hinv & Hh & _).
  assert (l1_hits toy_stack [ka; kb; kc] = 1) as En by (vm_compute; reflexivity).
  assert (l2_hits toy_C any_chunk toy_stack [ka; kb; kc] 2 = 1) as Em by (vm_compute; reflexivity).
  rewrite En, Em in E. exists s', g. split; [exact E|]. split; [exact Hinv|exact Hh].
Defined.

(** ** A race: the session ends while its lookup resolves

    [end_session] releases the holds and forgets the request in two critical
    sections; a lookup that resolves between them publishes its holds into a
    session about to be forgotten. *)

Definition race_start : Stack Mock :=
  fst (run (start_session "r" [ka] (Some 2%Z)) toy_stack).
Definition race_schedule : list nat := [1; 1] ++ replicate 8 0 ++ [1].
Definition race_end : Stack Mock * list (thread (Stack Mock)) :=
  sched race_schedule (race_start, [prefetch_round f_1e9; end_session "r"]).

