(* ===== verification/Server.v ===== *)
(** The cache server (server.py): registration, the request handlers over the
    storage stack, and the chunk keys of an operation. *)
From S2P Require Import Prelude PyFloat Protocol Hasher Memory L1Manager Eviction L1Protocol.
From S2P Require Import L2 Threads Storage Prefetch.
Local Open Scope py_scope.
Local Open Scope Z_scope.

Record EngineInstance := mkEngineInstance {
  ei_rank : Z;
  ei_model : string;
  ei_world_size : Z;
  ei_block_size : Z;
  ei_chunk_nbytes : Z
}.

(** The requests, each with the payload its handler takes. *)
Inductive request :=
| RqGetChunkSize
| RqRegister (p : RegisterPayload)
| RqUnregister (instance_id : Z)
| RqLookup (p : LookupPayload)
| RqQuery (p : QueryPayload)
| RqStore (p : TransferPayload)
| RqRetrieve (p : TransferPayload)
| RqFreeLocks (p : FreeLocksPayload)
| RqEndSession (request_id : string)
| RqAck (p : AckPayload).

(** What a handler returns: a value, or chunks (views into the pool) with the
    callback to run once they are sent. *)
Inductive value := VInt (z : Z) | VBool (b : bool) | VNone.

Section server.
Context {A : Type} `{!L2Ops A} (blake3 : bytes -> bytes).

Record Server := mkServer {
  chunk_size : Z;
  sm : Stack A;
  deployments : gmap (string * Z) Z;
  instances : gmap Z EngineInstance
}.

Inductive result :=
| RValue (v : value)
| RChunks (chunks : list MemoryObj) (post_send : prog Server unit).

Definition set_sm (x : Stack A) (s : Server) : Server :=
  mkServer (chunk_size s) x (deployments s) (instances s).

(** [CacheServer.__init__] *)
Definition new_server (chunk_size : Z) (contents : bytes) (l2s : list A) : Server :=
  mkServer chunk_size (new_stack contents l2s) ∅ ∅.

(** A thread of the storage stack, a call of its manager, a read of a field. *)
Definition on_sm {B} (p : prog (Stack A) B) : prog Server B := pzoom sm set_sm p.
Definition sm_l1 {B} (m : M (L1 lref obs) B) : prog Server B := on_sm (on_l1 m).
Definition server_get {B} (f : Server -> res B) : prog Server B := atomic (fun s => (s, f s)).

Definition get_chunk_size : prog Server result :=
  server_get (fun s => Ok (RValue (VInt (chunk_size s)))).

Definition register (p : RegisterPayload) : prog Server result :=
  let! _ := atomic (modify (fun s =>
    mkServer (chunk_size s) (sm s)
      (<[(rp_model p, rp_world_size p) := rp_chunk_nbytes p]> (deployments s))
      (<[rp_instance_id p := mkEngineInstance (rp_rank p) (rp_model p) (rp_world_size p)
                               (rp_block_size p) (rp_chunk_nbytes p)]> (instances s)))) in
  pret (RValue (VBool true)).

Definition unregister (instance_id : Z) : prog Server result :=
  atomic (fun s =>
    (mkServer (chunk_size s) (sm s) (deployments s) (delete instance_id (instances s)),
     Ok (RValue (VBool (bool_decide (is_Some (instances s !! instance_id))))))).

(** [[ChunkKey(h, model, r) for h in hashes for r in ranks]] *)
Definition keys_for (hashes : list bytes) (model : string) (ranks : list Z) : list ChunkKey :=
  mbind (fun h => (fun r => mkChunkKey h model r) <$> ranks) hashes.

Definition op_keys (chunk_size : Z) (op : LoadStoreOp) (instance : EngineInstance)
    : res (list ChunkKey) :=
  let? hashes := chunk_hashes blake3 (py_take (op_end op) (op_token_ids op)) chunk_size in
  let? first := py_floordiv (op_start op) chunk_size in
  Ok (keys_for (py_drop first hashes) (ei_model instance) [ei_rank instance]).

(** [range(n)] *)
Definition ranks (world_size : Z) : list Z := seqZ 0 world_size.

Definition lookup_keys (chunk_size : Z) (chunk_nbytes : option Z) (p : LookupPayload)
    : res (list ChunkKey) :=
  match chunk_nbytes with
  | None => Ok []
  | Some _ =>
      let? hashes := chunk_hashes blake3 (lp_token_ids p) chunk_size in
      Ok (keys_for hashes (lp_model p) (ranks (lp_world_size p)))
  end.

Definition lookup (p : LookupPayload) : prog Server result :=
  let! chunk_nbytes := server_get (fun s => Ok (deployments s !! (lp_model p, lp_world_size p))) in
  let! keys := server_get (fun s => lookup_keys (chunk_size s) chunk_nbytes p) in
  let! _ := on_sm (start_session (lp_request_id p) keys chunk_nbytes) in
  pret (RValue (VBool true)).

Definition query (p : QueryPayload) : prog Server result :=
  let! resolved := on_sm (Prefetch.query (qp_request_id p)) in
  match resolved with
  | None => pret (RValue VNone)
  | Some (l1_keys, l2_keys, _) =>
      let! q := plift (py_floordiv (l1_keys + l2_keys) (qp_world_size p)) in
      server_get (fun s => Ok (RValue (VInt (q * chunk_size s))))
  end.

Definition free_locks (p : FreeLocksPayload) : prog Server result :=
  let! _ := on_sm (release_first (fp_request_id p) (fp_num_chunks p * fp_world_size p)) in
  pret (RValue (VBool true)).

Definition end_session (request_id : string) : prog Server result :=
  let! _ := on_sm (Prefetch.end_session request_id) in
  pret (RValue (VBool true)).

(** [self.instances[instance_id]] *)
Definition instance_of (instance_id : Z) : prog Server EngineInstance :=
  server_get (fun s =>
    match instances s !! instance_id with Some i => Ok i | None => Raise KeyError end).

(** The selection loop of [store]: the reserved keys that come with a blob;
    [chunk] counts from the start of the operation. *)
Fixpoint select_written (reserved : gmap ChunkKey (option MemoryObj)) (chunks : list bytes)
    (chunk : nat) (keys : list ChunkKey) : list (ChunkKey * MemoryObj * bytes) :=
  match keys with
  | [] => []
  | key :: keys' =>
      match default None (reserved !! key), chunks !! chunk with
      | Some obj, Some blob => (key, obj, blob) :: select_written reserved chunks (S chunk) keys'
      | _, _ => select_written reserved chunks (S chunk) keys'
      end
  end.

(** [obj.byte_array[:] = blob], one slice at a time, outside the lock. *)
Fixpoint copy_blobs (ws : list (ChunkKey * MemoryObj * bytes)) : prog Server unit :=
  match ws with
  | [] => pret tt
  | (_, obj, blob) :: ws' =>
      let! _ := sm_l1 (assign_obj obj blob) in copy_blobs ws'
  end.

Definition store (p : TransferPayload) : prog Server result :=
  let! instance := instance_of (tp_instance_id p) in
  let! keys := server_get (fun s => op_keys (chunk_size s) (tp_op p) instance) in
  let! reserved := sm_l1 (reserve_write keys (ei_chunk_nbytes instance) false) in
  let ws := select_written reserved (tp_chunks p) 0 keys in
  let! _ := copy_blobs ws in
  let! _ := sm_l1 (finish_write ((fun w => w.1.1) <$> ws)) in
  pret (RValue (VBool true)).

(** The callback of RETRIEVE. *)
Definition post_send (request_id : string) (keys : list ChunkKey) : prog Server unit :=
  let! _ := sm_l1 (promote keys) in
  on_sm (release request_id (Some keys)).

(** The divisions are those of the log line; they precede the return. *)
Definition retrieve (p : TransferPayload) : prog Server result :=
  let! instance := instance_of (tp_instance_id p) in
  let! keys := server_get (fun s => op_keys (chunk_size s) (tp_op p) instance) in
  let! resolved := on_sm (Prefetch.query (tp_request_id p)) in
  let '(l1_keys, l2_keys) := match resolved with None => (0, 0) | Some (a, b, _) => (a, b) end in
  let! objs := sm_l1 (read keys) in
  let! _ := plift (py_floordiv l1_keys (ei_world_size instance)) in
  let! _ := plift (py_floordiv l2_keys (ei_world_size instance)) in
  pret (RChunks objs (post_send (tp_request_id p) keys)).

(** [ack] only logs. *)
Definition ack (_ : AckPayload) : prog Server result := pret (RValue (VBool true)).

(** The handler table. *)
Definition dispatch_request (rq : request) : prog Server result :=
  match rq with
  | RqGetChunkSize => get_chunk_size
  | RqRegister p => register p
  | RqUnregister i => unregister i
  | RqLookup p => lookup p
  | RqQuery p => query p
  | RqStore p => store p
  | RqRetrieve p => retrieve p
  | RqFreeLocks p => free_locks p
  | RqEndSession r => end_session r
  | RqAck p => ack p
  end.

Definition req_of (rq : request) : Req :=
  match rq with
  | RqGetChunkSize => GET_CHUNK_SIZE
  | RqRegister _ => REGISTER_KV_CACHE
  | RqUnregister _ => UNREGISTER_KV_CACHE
  | RqLookup _ => LOOKUP
  | RqQuery _ => QUERY_PREFETCH_STATUS
  | RqStore _ => STORE
  | RqRetrieve _ => RETRIEVE
  | RqFreeLocks _ => FREE_LOOKUP_LOCKS
  | RqEndSession _ => END_SESSION
  | RqAck _ => TRANSFER_ACK
  end.
End server.
Arguments Server : clear implicits.
Arguments result : clear implicits.

(** ** Running the parts of a handler *)

Section server_runs.
Context {A : Type} `{!L2Ops A}.
Implicit Types (s : Server A).

Lemma set_sm_set_sm x y s : set_sm x (set_sm y s) = set_sm x s.
Proof. done. Qed.

Lemma run_on_sm {B} (p : prog (Stack A) B) s x r :
  run p (sm s) = (x, r) -> run (on_sm p) s = (set_sm x s, r).
Proof.
  intros E. unfold on_sm. rewrite run_pzoom by (by intros; try destruct w). by rewrite E.
Qed.

Lemma run_on_sm_ok {B D} (p : prog (Stack A) B) (q : B -> prog (Server A) D) s x b :
  run p (sm s) = (x, Ok b) -> run (pbind (on_sm p) q) s = run (q b) (set_sm x s).
Proof. intros E. apply run_bind_ok. by apply run_on_sm. Qed.

Lemma run_sm_l1_ok {B D} (m : M (L1 lref obs) B) (q : B -> prog (Server A) D) s x b :
  m (l1 (sm s)) = (x, Ok b) ->
  run (pbind (sm_l1 m) q) s = run (q b) (set_sm (set_l1 x (sm s)) s).
Proof. intros E. apply run_on_sm_ok. by apply run_on_l1. Qed.

Lemma run_get_ok {B D} (f : Server A -> res B) (q : B -> prog (Server A) D) s b :
  f s = Ok b -> run (pbind (server_get f) q) s = run (q b) s.
Proof. intros E. apply run_bind_ok. unfold server_get. by rewrite run_atomic, E. Qed.

Lemma run_get_raise {B D} (f : Server A -> res B) (q : B -> prog (Server A) D) s e :
  f s = Raise e -> run (pbind (server_get f) q) s = (s, Raise e).
Proof. intros E. apply run_bind_raise. unfold server_get. by rewrite run_atomic, E. Qed.
End server_runs.

(** ** STORE *)

Section store_selection.
Context (C : ChunkKey -> bytes).

(** The blobs sent along are the contents of the operation's chunks. *)
Definition blobs_ok (nb : Z) (keys : list ChunkKey) (chunks : list bytes) (off : nat) : Prop :=
  forall i k blob, keys !! i = Some k -> chunks !! (off + i)%nat = Some blob ->
    blob = C k /\ Zlen (C k) = nb.

Definition selected (ws : list (ChunkKey * MemoryObj * bytes)) : list (ChunkKey * MemoryObj) := ws.*1.

Lemma select_written_spec (r : gmap ChunkKey (option MemoryObj)) nb chunks off keys kos :
  NoDup keys -> blobs_ok nb keys chunks off ->
  kos.*1 = filter (fun k => is_Some (default None (r !! k))) keys ->
  Forall (fun ko => r !! ko.1 = Some (Some ko.2)) kos ->
  let ws := select_written r chunks off keys in
  selected ws `sublist_of` kos /\
  Forall (fun w => w.2 = C w.1.1 /\ Zlen (C w.1.1) = nb) ws /\
  ((off + length keys <= length chunks)%nat -> selected ws = kos) /\
  (forall i k, keys !! i = Some k -> (length chunks <= off + i)%nat -> k ∉ (selected ws).*1).
Proof.
  intros Hnd. revert off kos. induction Hnd as [|k keys Hk _ IH]; intros off kos Hb Hkos Hr ws.
  { simpl in Hkos. destruct kos; [|done].
    split_and!; [done|by unfold ws|done|by intros ? ? ?]. }
  assert (blobs_ok nb keys chunks (S off)) as Hb'.
  { intros i k' blob Hi Hc. apply (Hb (S i)); [done|]. by rewrite Nat.add_succ_r. }
  assert (forall kos', kos'.*1 = filter (fun k => is_Some (default None (r !! k))) keys ->
    Forall (fun ko => r !! ko.1 = Some (Some ko.2)) kos' -> k ∉ kos'.*1) as Hout.
  { intros kos' -> _. rewrite list_elem_of_filter. by intros [_ ?]. }
  unfold ws. simpl. rewrite filter_cons in Hkos.
  destruct (default None (r !! k)) as [o|] eqn:Er.
  - rewrite decide_True in Hkos by eauto. destruct kos as [|[k' o'] kos]; [done|].
    rewrite fmap_cons in Hkos. injection Hkos as Hkk Hkos. simpl in Hkk. subst k'.
    apply Forall_cons in Hr as [Hko Hr]. simpl in Hko. rewrite Hko in Er. simpl in Er. injection Er as ->.
    destruct (IH (S off) kos Hb' Hkos Hr) as (H1 & H2 & H3 & H4).
    destruct (chunks !! off) as [blob|] eqn:Ec.
    + destruct (Hb 0%nat k blob eq_refl) as [Hbl Hn]; [by rewrite Nat.add_0_r|].
      unfold selected. rewrite !fmap_cons. simpl. split_and!.
      * by apply sublist_skip.
      * by constructor.
      * intros Hlen. f_equal. apply H3. simpl in Hlen. lia.
      * intros [|i] k' Hi Hge; simpl in Hi.
        { apply lookup_lt_Some in Ec. lia. }
        intros [->|Hin]%elem_of_cons; [by apply Hk, (list_elem_of_lookup_2 _ i)|].
        apply (H4 i k' Hi); [lia|done].
    + split_and!; [by apply sublist_cons|done| |].
      * intros Hlen. apply lookup_ge_None in Ec. simpl in Hlen. lia.
      * intros [|i] k' Hi Hge; simpl in Hi; [|apply (H4 i k' Hi); lia].
        injection Hi as <-. intros Hin. apply (Hout kos Hkos Hr).
        apply list_elem_of_fmap in Hin as (ko & -> & Hin). apply list_elem_of_fmap.
        exists ko. split; [done|]. by eapply elem_of_sublist.
  - rewrite decide_False in Hkos by (by intros []).
    destruct (IH (S off) kos Hb' Hkos Hr) as (H1 & H2 & H3 & H4).
    split_and!; [done|done|intros; apply H3; simpl in *; lia|].
    intros [|i] k' Hi Hge; simpl in Hi; [|apply (H4 i k' Hi); lia].
    injection Hi as <-. intros Hin. apply (Hout kos Hkos Hr).
    apply list_elem_of_fmap in Hin as (ko & -> & Hin). apply list_elem_of_fmap.
    exists ko. split; [done|]. by eapply elem_of_sublist.
Qed.
End store_selection.

Section store_proofs.
Context {A : Type} `{!L2Ops A} (blake3 : bytes -> bytes) (C : ChunkKey -> bytes).
Implicit Types (s : Server A).

Definition map_l1 (f : L1 lref obs -> L1 lref obs) s : Server A :=
  set_sm (set_l1 (f (l1 (sm s))) (sm s)) s.

Lemma copy_blobs_run ws s :
  Forall (fun w => w.2 = C w.1.1 /\ length (C w.1.1) = v_len (mo_tensor w.1.2)) ws ->
  run (copy_blobs ws) s
    = (map_l1 (fun x => with_pool (fill_slots C (selected ws) (pool_of x)) x) s, Ok tt).
Proof.
  intros Hws. revert s. induction Hws as [|[[k o] b] ws [Hb Hl] _ IH]; intros s.
  { unfold map_l1, selected. cbn. unfold lift_res, with_pool, pool_of, set_pool.
    by destruct s as [? [[[]]] ? ?]. }
  simpl in Hb, Hl. subst b. cbn [copy_blobs]. erewrite run_sm_l1_ok by (by apply assign_obj_run).
  by rewrite IH.
Qed.

(** The keys of [keys] that have no entry yet. *)
Definition missing s (keys : list ChunkKey) : list ChunkKey :=
  filter (fun k => entries (l1 (sm s)) !! k = None) keys.

(** Nothing but the manager changes. *)
Definition only_l1 s s' : Prop := s' = set_sm (set_l1 (l1 (sm s')) (sm s)) s.

(** The reservation of a STORE that finds room: a slot for every missing key. *)
Lemma reserve_missing s W H keys nbytes :
  l1_inv C (l1 (sm s)) W H -> NoDup keys -> 0 < nbytes -> Zlen (missing s keys) <= room (allocator (l1 (sm s))) nbytes ->
  exists x1 r kos, reserve_write keys nbytes false (l1 (sm s)) = (x1, Ok r) /\
    kos.*1 = missing s keys /\ Forall (fun ko => obj_nbytes ko.2 = nbytes) kos /\
    l1_inv C x1 (add_writes false kos W) H /\
    entries x1 = foldl (fun m ko => <[ko.1 := mkEntry ko.2 true 0 false]> m) (entries (l1 (sm s))) kos /\
    Forall (fun ko => r !! ko.1 = Some (Some ko.2)) kos /\
    kos.*1 = filter (fun k => is_Some (default None (r !! k))) keys.
Proof.
  intros Hinv Hnd Hn Hroom.
  destruct (reserve_write_spec C (l1 (sm s)) W H keys nbytes false Hinv Hnd ltac:(lia))
    as (x1 & r & E1 & _ & _ & [(_ & _ & _ & _ & (a' & Ea))|(kos & Hkos & Hsz & Hinv1 & Hr1 & Hr2 & He1)]).
  { exfalso. destruct Hinv as [Ha _].
    destruct (allocate_some_iff _ _ _ _ Ha Hn (Zlen_nonneg (missing s keys))) as [_ Hyes].
    destruct (Hyes Hroom) as (? & ? & Ea'). unfold missing in *. rewrite Ea in Ea'. simplify_eq. }
  fold (missing s keys) in *. exists x1, r, kos. split_and!; [done..| |].
  - apply Forall_forall. intros [k o] Hin. by apply Hr1.
  - rewrite Hkos. apply list_filter_iff_in. intros k Hkk.
    destruct (decide (k ∈ missing s keys)) as [Hm|Hm].
    + assert (Hm' := Hm). rewrite <- Hkos in Hm'. apply list_elem_of_fmap in Hm' as ([k' o] & -> & Hin).
      simpl in *. rewrite (Hr1 k' o Hin). apply list_elem_of_filter in Hm as [Hm _]. split; [eauto|done].
    + rewrite (Hr2 k Hkk Hm). split; [|by intros []]. intros Hnone. exfalso. apply Hm.
      by apply list_elem_of_filter.
Qed.

(** Filling reserved slots and finishing their writes. *)
Lemma fill_and_finish x W H kos :
  l1_inv C x W H -> NoDup kos.*1 -> (forall k o, (k, o) ∈ kos -> W !! k = Some (false, o)) ->
  (forall ko, ko ∈ kos -> length (C ko.1) = v_len (mo_tensor ko.2)) ->
  exists x', finish_write kos.*1 (with_pool (fill_slots C kos (pool_of x)) x) = (x', Ok tt) /\
    l1_inv C x' (del_writes kos.*1 W) H /\ entries x' = update_keys upd_written kos.*1 (entries x).
Proof.
  intros Hinv Hnd HW Hlen. destruct (fill_slots_inv C x _ H kos Hinv) as (Hinv2 & _ & Hfill & _).
  { split; [done|]. intros [k o] Hin. exists false. by apply HW. }
  { done. }
  set (x2 := with_pool (fill_slots C kos (pool_of x)) x) in *.
  destruct (finish_write_spec C x2 _ H kos.*1 Hinv2 Hnd) as (x3 & E3 & _ & Hinv3 & He3 & _).
  { intros k ([k' o] & -> & Hin)%list_elem_of_fmap. exists false, o.
    split_and!; [by apply HW|by apply (Hfill (k', o))|]. simpl. intros e He.
    destruct Hinv2 as [_ Hl2]. destruct (lock_inv_written _ _ _ _ _ _ _ _ Hl2 (HW _ _ Hin))
      as (e' & He' & _ & _ & _ & _ & Ht).
    assert (Some e = Some e') as [= ->] by (rewrite <- He; exact He').
    destruct (is_temporary e'); [by specialize (Ht eq_refl)|done]. }
  by exists x3.
Qed.

Lemma store_run s W H p inst keys :
  instances s !! tp_instance_id p = Some inst ->
  op_keys blake3 (chunk_size s) (tp_op p) inst = Ok keys -> NoDup keys ->
  (0 < ei_chunk_nbytes inst)%Z -> blobs_ok C (ei_chunk_nbytes inst) keys (tp_chunks p) 0 ->
  l1_inv C (l1 (sm s)) W H -> Zlen (missing s keys) <= room (allocator (l1 (sm s))) (ei_chunk_nbytes inst) ->
  exists s' kos written, run (store blake3 p) s = (s', Ok (RValue (VBool true))) /\ only_l1 s s' /\
    kos.*1 = missing s keys /\ written `sublist_of` kos /\
    ((length keys <= length (tp_chunks p))%nat -> written = kos) /\
    (forall i k, keys !! i = Some k -> (length (tp_chunks p) <= i)%nat -> k ∉ written.*1) /\
    l1_inv C (l1 (sm s')) (del_writes written.*1 (add_writes false kos W)) H /\
    entries (l1 (sm s')) = update_keys upd_written written.*1
      (foldl (fun m ko => <[ko.1 := mkEntry ko.2 true 0 false]> m) (entries (l1 (sm s))) kos).
Proof.
  intros Hi Hk Hnd Hn Hb Hinv Hroom.
  destruct (reserve_missing s W H keys (ei_chunk_nbytes inst) Hinv Hnd Hn Hroom)
    as (x1 & r & kos & E1 & Hkos & Hsz & Hinv1 & He1 & Hrk & Hkos').
  assert (NoDup kos.*1) as Hndk by (rewrite Hkos; by apply NoDup_filter).
  destruct (select_written_spec C r _ (tp_chunks p) 0 keys kos Hnd Hb Hkos' Hrk) as (Hsub & Hbl & Hall & Hout).
  set (ws := select_written r (tp_chunks p) 0 keys) in *.
  assert (forall ko, ko ∈ selected ws -> ko ∈ kos) as Hincl
    by (intros ko Hin; by eapply elem_of_sublist).
  assert (NoDup (selected ws).*1) as Hndw
    by (eapply (sublist_NoDup _ kos.*1); [exact Hndk|by apply fmap_sublist]).
  assert (forall ko, ko ∈ selected ws -> length (C ko.1) = v_len (mo_tensor ko.2)) as Hlen.
  { intros ko Hin. rewrite Forall_forall in Hsz. specialize (Hsz ko (Hincl ko Hin)).
    unfold selected in Hin. apply list_elem_of_fmap in Hin as (w & -> & Hin).
    rewrite Forall_forall in Hbl. destruct (Hbl w Hin) as [_ Hz]. unfold Zlen, obj_nbytes in *. lia. }
  assert (forall k o, (k, o) ∈ selected ws -> add_writes false kos W !! k = Some (false, o)) as HW1
    by (intros k o Hin; apply add_writes_in; [done|by apply Hincl]).
  destruct (fill_and_finish x1 _ H (selected ws) Hinv1 Hndw HW1 Hlen) as (x3 & E3 & Hinv3 & He3).
  eexists _, kos, (selected ws). unfold store, instance_of.
  erewrite run_get_ok by (rewrite Hi; reflexivity). erewrite run_get_ok by exact Hk.
  erewrite run_sm_l1_ok by exact E1. fold ws.
  erewrite run_bind_ok.
  2: { apply copy_blobs_run. apply Forall_forall. intros w Hin. rewrite Forall_forall in Hbl.
       destruct (Hbl w Hin) as [Hw _]. split; [exact Hw|]. apply (Hlen w.1).
       apply list_elem_of_fmap. eauto. }
  replace ((fun w : ChunkKey * MemoryObj * bytes => w.1.1) <$> ws) with (selected ws).*1
    by (unfold selected; by rewrite <- list_fmap_compose).
  erewrite run_sm_l1_ok by exact E3. split; [reflexivity|].
  split_and!; [done|done|done|done|intros; by eapply Hout|exact Hinv3|].
  simpl. by rewrite He3, He1.
Qed.

Lemma store_run_entries (s s' : Server A) kos written keys k :
  kos.*1 = missing s keys -> NoDup keys -> written `sublist_of` kos ->
  entries (l1 (sm s')) = update_keys upd_written written.*1
    (foldl (fun m ko => <[ko.1 := mkEntry ko.2 true 0 false]> m) (entries (l1 (sm s))) kos) ->
  (k ∉ kos.*1 -> entries (l1 (sm s')) !! k = entries (l1 (sm s)) !! k) /\
  (k ∈ kos.*1 -> exists o, entries (l1 (sm s')) !! k
     = Some (mkEntry o (bool_decide (k ∉ written.*1)) 0 false)).
Proof.
  intros Hkos Hnd Hsub He. rewrite He.
  assert (NoDup kos.*1) as Hndk by (rewrite Hkos; by apply NoDup_filter).
  assert (NoDup written.*1) as Hndw
    by (eapply (sublist_NoDup _ kos.*1); [exact Hndk|by apply fmap_sublist]).
  rewrite update_keys_lookup by done. split.
  - intros Hk. rewrite decide_False; [by apply foldl_insert_other|].
    intros Hin. apply Hk. eapply elem_of_sublist; [exact Hin|by apply fmap_sublist].
  - intros Hk. apply list_elem_of_fmap in Hk as ([k' o] & -> & Hin). simpl. exists o.
    rewrite (foldl_insert_in _ _ _ k' o) by done.
    destruct (decide (k' ∈ written.*1)) as [Hw|Hw].
    + by rewrite bool_decide_eq_false_2 by (intros H'; by apply H').
    + by rewrite bool_decide_eq_true_2.
Qed.

(** A complete STORE. *)
Lemma store_spec s W H p inst keys :
  instances s !! tp_instance_id p = Some inst ->
  op_keys blake3 (chunk_size s) (tp_op p) inst = Ok keys -> NoDup keys ->
  (0 < ei_chunk_nbytes inst)%Z -> blobs_ok C (ei_chunk_nbytes inst) keys (tp_chunks p) 0 ->
  (length keys <= length (tp_chunks p))%nat -> l1_inv C (l1 (sm s)) W H ->
  Zlen (missing s keys) <= room (allocator (l1 (sm s))) (ei_chunk_nbytes inst) ->
  exists s', run (store blake3 p) s = (s', Ok (RValue (VBool true))) /\ only_l1 s s' /\
    l1_inv C (l1 (sm s')) W H /\
    (forall k, k ∉ missing s keys -> entries (l1 (sm s')) !! k = entries (l1 (sm s)) !! k) /\
    (forall k, k ∈ missing s keys -> exists e, entries (l1 (sm s')) !! k = Some e /\
       write_locked e = false /\ is_temporary e = false /\ read_count e = 0 /\
       byte_array (entry_obj e) (pool_of (l1 (sm s'))) = C k).
Proof.
  intros Hi Hk Hnd Hn Hb Hlen Hinv Hroom.
  destruct (store_run s W H p inst keys Hi Hk Hnd Hn Hb Hinv Hroom)
    as (s' & kos & written & E & Ho & Hkos & Hsub & Hall & _ & Hinv' & He).
  rewrite (Hall Hlen) in *. clear Hall. exists s'. split; [done|]. split; [done|].
  rewrite add_then_del_writes in Hinv'.
  2: { rewrite Hkos. by apply NoDup_filter. }
  2: { intros k Hin. rewrite Hkos in Hin. apply list_elem_of_filter in Hin as [Hnone _].
       destruct Hinv as [_ Hl]. by destruct (lock_inv_absent _ _ _ _ _ _ Hl Hnone). }
  split; [done|].
  assert (forall k, _ /\ _) as Hent by exact (fun k => store_run_entries s s' kos kos keys k Hkos Hnd Hsub He).
  rewrite <- Hkos. split; [intros k; apply Hent|]. intros k Hk'.
  destruct (Hent k) as [_ Hin]. destruct (Hin Hk') as [o Ho']. rewrite bool_decide_eq_false_2 in Ho'
    by (intros Hx; by apply Hx).
  exists (mkEntry o false 0 false). split_and!; [done|done|done|done|].
  destruct Hinv' as [_ Hl]. by eapply lock_inv_ready.
Qed.

(** C17: STORE of an operation whose chunks all come along, with room in the
    pool: the server answers True, every chunk the cache did not have is now
    ready in L1, resident, with exactly the bytes sent, every chunk it had is
    untouched, and no lock is left behind. *)
Theorem store_commits s W H p inst keys :
  instances s !! tp_instance_id p = Some inst ->
  op_keys blake3 (chunk_size s) (tp_op p) inst = Ok keys -> NoDup keys ->
  (0 < ei_chunk_nbytes inst)%Z -> blobs_ok C (ei_chunk_nbytes inst) keys (tp_chunks p) 0 ->
  (length keys <= length (tp_chunks p))%nat -> l1_inv C (l1 (sm s)) W H ->
  Zlen (missing s keys) <= room (allocator (l1 (sm s))) (ei_chunk_nbytes inst) ->
  exists s', run (store blake3 p) s = (s', Ok (RValue (VBool true))) /\ only_l1 s s' /\
    l1_inv C (l1 (sm s')) W H /\
    (forall k, k ∉ missing s keys -> entries (l1 (sm s')) !! k = entries (l1 (sm s)) !! k) /\
    (forall k, k ∈ missing s keys -> exists e, entries (l1 (sm s')) !! k = Some e /\
       write_locked e = false /\ is_temporary e = false /\ read_count e = 0 /\
       byte_array (entry_obj e) (pool_of (l1 (sm s'))) = C k).
Proof. apply store_spec. Qed.

(** C39: STORE of an operation with fewer blobs than chunks still answers
    True, but every new chunk without a blob stays write-locked: it is neither
    readable nor evictable, and no later STORE can supply it, because a key
    that has an entry is skipped. *)
Theorem store_short_payload_leaks s W H p inst keys i k :
  instances s !! tp_instance_id p = Some inst ->
  op_keys blake3 (chunk_size s) (tp_op p) inst = Ok keys -> NoDup keys ->
  (0 < ei_chunk_nbytes inst)%Z -> blobs_ok C (ei_chunk_nbytes inst) keys (tp_chunks p) 0 ->
  l1_inv C (l1 (sm s)) W H ->
  Zlen (missing s keys) <= room (allocator (l1 (sm s))) (ei_chunk_nbytes inst) ->
  keys !! i = Some k -> k ∈ missing s keys -> (length (tp_chunks p) <= i)%nat ->
  exists s' e, run (store blake3 p) s = (s', Ok (RValue (VBool true))) /\
    entries (l1 (sm s')) !! k = Some e /\ write_locked e = true /\
    is_evictable (l1 (sm s')) k = false /\
    forall keys', k ∉ missing s' keys'.
Proof.
  intros Hi Hk Hnd Hn Hb Hinv Hroom Hik Hm Hge.
  destruct (store_run s W H p inst keys Hi Hk Hnd Hn Hb Hinv Hroom)
    as (s' & kos & written & E & Ho & Hkos & Hsub & _ & Hout & _ & He).
  destruct (store_run_entries s s' kos written keys k Hkos Hnd Hsub He) as [_ Hent].
  rewrite <- Hkos in Hm. destruct (Hent Hm) as [o Ho'].
  rewrite bool_decide_eq_true_2 in Ho' by (by eapply Hout).
  exists s', (mkEntry o true 0 false). split_and!; [done|done|done| |].
  - unfold is_evictable. by rewrite Ho'.
  - intros keys' [Hnone _]%list_elem_of_filter. congruence.
Qed.
End store_proofs.

(** ** RETRIEVE, QUERY and the session requests *)

Section retrieve_proofs.
Context {A : Type} `{!L2Ops A} (blake3 : bytes -> bytes) (C : ChunkKey -> bytes).
Implicit Types (s : Server A).

Lemma run_query_sm rid s :
  run (on_sm (Prefetch.query rid)) s = (s, Ok (default None (hits (sm s) !! rid))).
Proof. erewrite run_on_sm; [|unfold Prefetch.query; by rewrite run_atomic]. by destruct s. Qed.

Lemma retrieve_run s p inst keys :
  instances s !! tp_instance_id p = Some inst ->
  op_keys blake3 (chunk_size s) (tp_op p) inst = Ok keys -> ei_world_size inst <> 0 ->
  run (retrieve blake3 p) s =
    match read keys (l1 (sm s)) with
    | (_, Ok objs) => (s, Ok (RChunks objs (post_send (tp_request_id p) keys)))
    | (x, Raise e) => (set_sm (set_l1 x (sm s)) s, Raise e)
    end.
Proof.
  intros Hi Hk Hw. unfold retrieve, instance_of.
  erewrite run_get_ok by (rewrite Hi; reflexivity). erewrite run_get_ok by exact Hk.
  erewrite run_bind_ok by apply run_query_sm.
  destruct (default None (hits (sm s) !! tp_request_id p)) as [[[n m] g]|];
    (destruct (read keys (l1 (sm s))) as [x [objs|e]] eqn:E;
     [erewrite run_sm_l1_ok by exact E; rewrite (read_pure _ _ _ _ E)
     |apply run_bind_raise, run_on_sm, run_on_l1; exact E]);
    unfold plift, py_floordiv; replace (ei_world_size inst =? 0) with false by lia; simpl;
    unfold lift_res; by destruct s as [? [] ? ?].
Qed.

(** The callback keeps what was read resident and releases the session's
    holds on it. *)
Lemma post_send_spec s W H rid h keys :
  held (sm s) !! rid = Some h -> NoDup h -> NoDup keys ->
  l1_inv C (l1 (sm s)) W (H ⊎ holds_of h) ->
  exists s', run (post_send rid keys) s = (s', Ok tt) /\
    l1_inv C (l1 (sm s')) W (H ⊎ holds_of (left_held keys h)) /\
    held (sm s') = <[rid := left_held keys h]> (held (sm s)) /\
    pool_of (l1 (sm s')) = pool_of (l1 (sm s)) /\
    (forall k e, k ∈ keys -> entries (l1 (sm s)) !! k = Some e -> exists e',
       entries (l1 (sm s')) !! k = Some e' /\ is_temporary e' = false /\ entry_obj e' = entry_obj e).
Proof.
  intros Hh Hndh Hndk Hinv.
  destruct (promote_spec C (l1 (sm s)) W _ keys Hinv Hndk) as (x1 & E1 & [Hp1 _] & Hinv1 & He1 & _).
  destruct (release_spec C (set_l1 x1 (sm s)) W H rid h (Some keys) Hh Hndh Hndk Hinv1)
    as (t & E2 & Hinv2 & Hd & _ & _ & _ & [Hp2 _] & He2).
  exists (set_sm t s). unfold post_send. erewrite run_sm_l1_ok by exact E1.
  erewrite run_on_sm by exact E2. split; [reflexivity|].
  split_and!; [exact Hinv2|exact Hd|by etrans|].
  intros k e Hk He. simpl. rewrite He2. simpl. rewrite He1.
  rewrite (update_keys_lookup upd_release) by (by apply NoDup_filter).
  assert (update_keys upd_promote keys (entries (l1 (sm s))) !! k = Some (set_temporary false e)) as ->
    by (rewrite update_keys_lookup, decide_True by done; by rewrite He).
  case_decide; simpl; [rewrite andb_false_r|]; eexists; by split_and!.
Qed.

(** QUERY answers None while the lookup is pending or unknown, and
    otherwise the number of prompt tokens covered: the found chunks divided
    among the ranks, rounded down to whole chunks of the deployment. *)
Lemma query_exact s p :
  run (query p) s =
    (s, match default None (hits (sm s) !! qp_request_id p) with
        | None => Ok (RValue VNone)
        | Some (n, m, _) =>
            if qp_world_size p =? 0 then Raise ZeroDivisionError
            else Ok (RValue (VInt ((n + m) / qp_world_size p * chunk_size s)))
        end).
Proof.
  unfold query. erewrite run_bind_ok by apply run_query_sm.
  destruct (default None (hits (sm s) !! qp_request_id p)) as [[[n m] g]|]; [|done].
  unfold plift, py_floordiv. by destruct (qp_world_size p =? 0).
Qed.
End retrieve_proofs.

(** ** A small concrete server

    One engine of model "m", rank 0 of 1, chunks of one token and two bytes;
    the digest keeps the last byte of its input. *)

Definition last_byte (b : bytes) : bytes := take 1 (reverse b).
Definition toy_inst : EngineInstance := mkEngineInstance 0 "m" 1 1 2.
Definition toy_op (tokens : list Z) : LoadStoreOp := mkLoadStoreOp tokens [] 0 (Zlen tokens) 0.
Definition toy_transfer (tokens : list Z) (chunks : list bytes) : TransferPayload :=
  mkTransferPayload "r" 7 (toy_op tokens) chunks f_0 0.

Definition toy_server (x : Stack Mock) : Server Mock :=
  mkServer 1 x (<[("m"%string, 1) := 2]> ∅) (<[7 := toy_inst]> ∅).
Definition empty_server : Server Mock :=
  toy_server (new_stack (replicate 8 Byte.x00) []).

Lemma empty_server_inv : l1_inv toy_C (l1 (sm empty_server)) ∅ ∅.
Proof. apply (new_stack_inv toy_C (replicate 8 Byte.x00) (@nil Mock)). Qed.

Lemma toy_op_keys : op_keys last_byte 1 (toy_op [1; 2]) toy_inst = Ok [ka; kb].
Proof. vm_compute. reflexivity. Qed.

Lemma toy_blobs (chunks : list bytes) :
  chunks `prefix_of` [toy_C ka; toy_C kb] -> blobs_ok toy_C 2 [ka; kb] chunks 0.
Proof.
  intros Hp [|[|i]] k blob Hk Hb; simplify_eq/=; (split; [|done]);
    eapply prefix_lookup_Some in Hb; [|exact Hp| |exact Hp]; simpl in Hb; by simplify_eq.
Qed.

Lemma store_commits_witness :
  exists s', run (store last_byte (toy_transfer [1; 2] [toy_C ka; toy_C kb])) empty_server
      = (s', Ok (RValue (VBool true))) /\
    l1_inv toy_C (l1 (sm s')) ∅ ∅ /\
    exists e, entries (l1 (sm s')) !! kb = Some e /\
      byte_array (entry_obj e) (pool_of (l1 (sm s'))) = toy_C kb.
Proof.
  destruct (store_commits last_byte toy_C empty_server ∅ ∅
              (toy_transfer [1; 2] [toy_C ka; toy_C kb]) toy_inst [ka; kb])
    as (s' & E & _ & Hinv & _ & Hk).
  - vm_compute. reflexivity.
  - exact toy_op_keys.
  - exact toy_nodup.
  - reflexivity.
  - by apply toy_blobs.
  - simpl. lia.
  - exact empty_server_inv.
  - vm_compute. discriminate.
  - exists s'. split; [exact E|]. split; [exact Hinv|].
    destruct (Hk kb) as (e & He & _ & _ & _ & Hb); [|exists e; split; [exact He|exact Hb]].
    apply (bool_decide_unpack _). vm_compute. exact I.
Defined.

Lemma store_short_payload_leaks_witness :
  exists s' e, run (store last_byte (toy_transfer [1; 2] [toy_C ka])) empty_server
      = (s', Ok (RValue (VBool true))) /\
    entries (l1 (sm s')) !! kb = Some e /\ write_locked e = true.
Proof.
  destruct (store_short_payload_leaks last_byte toy_C empty_server ∅ ∅
              (toy_transfer [1; 2] [toy_C ka]) toy_inst [ka; kb] 1 kb)
    as (s' & e & E & He & Hw & _).
  - vm_compute. reflexivity.
  - exact toy_op_keys.
  - exact toy_nodup.
  - reflexivity.
  - apply toy_blobs. by exists [toy_C kb].
  - exact empty_server_inv.
  - vm_compute. discriminate.
  - reflexivity.
  - apply (bool_decide_unpack _). vm_compute. exact I.
  - simpl. lia.
  - exists s', e. split; [exact E|]. split; [exact He|exact Hw].
Defined.

(** A session "r" that holds [ka]. *)
Definition holding_stack : Stack Mock :=
  set_held (<["r" := [ka]]> ∅) (set_l1 (fst (reserve_read_prefix [ka] (l1 toy_stack))) toy_stack).

Lemma holding_stack_inv : l1_inv toy_C (l1 holding_stack) ∅ (∅ ⊎ holds_of [ka]).
Proof.
  destruct (reserve_read_prefix_spec toy_C (l1 toy_stack) ∅ ∅ [ka] toy_stack_inv (NoDup_singleton ka))
    as (x & E & _ & Hinv & _).
  unfold holding_stack. cbn [l1 set_held set_l1]. rewrite E. cbn [fst].
  assert (prefix_count (key_readable (entries (l1 toy_stack))) [ka] = 1%nat) as Hn
    by (vm_compute; reflexivity).
  by rewrite Hn in Hinv.
Qed.
