(* ===== verification/MQ.v ===== *)
(** Request/reply layer (mq.py): the server side runs a handler in its own
    thread and ships one reply; the client matches replies to futures by uid.

    A message is what the frames say once unpickled: the addressee, the
    [(uid, ok, value)] head and the raw frames after it.  Sockets deliver the
    messages of [wire]; queued messages get there when the I/O thread flushes
    them. *)
From S2P Require Import Prelude PyFloat Protocol Hasher Memory L1Manager Eviction L1Protocol.
From S2P Require Import L2 Threads Storage Prefetch Server.
Local Open Scope py_scope.
Local Open Scope Z_scope.

Inductive body := BValue (v : value) | BExc (e : exn).

Record msg := mkMsg {
  to : bytes;
  m_uid : Z;
  m_ok : bool;
  m_body : body;
  m_frames : list bytes
}.

Section server_side.
Context {A : Type} `{!L2Ops A} (blake3 : bytes -> bytes).

Record Net := mkNet {
  srv : Server A;
  send_queue : list msg;
  wire : list msg
}.

Definition set_srv (s : Server A) (n : Net) : Net := mkNet s (send_queue n) (wire n).
Definition on_srv {B} (p : prog (Server A) B) : prog Net B := pzoom srv set_srv p.

(** [send]: queue for the I/O thread, which delivers in order. *)
Definition send (m : msg) : M Net unit :=
  modify (fun n => mkNet (srv n) (send_queue n ++ [m]) (wire n)).
Definition flush : M Net unit :=
  modify (fun n => match send_queue n with
                   | [] => n
                   | m :: q => mkNet (srv n) q (wire n ++ [m])
                   end).

(** [send_now]: the frames are views; their bytes leave one by one, then the
    message is on the wire. *)
Fixpoint read_frames (chunks : list MemoryObj) : prog Net (list bytes) :=
  match chunks with
  | [] => pret []
  | o :: chunks' =>
      let! b := atomic (fun n => (n, Ok (byte_array o (pool_of (l1 (sm (srv n))))))) in
      let! bs := read_frames chunks' in
      pret (b :: bs)
  end.
Definition send_now (identity : bytes) (uid : Z) (chunks : list MemoryObj) : prog Net unit :=
  let! frames := read_frames chunks in
  atomic (modify (fun n =>
    mkNet (srv n) (send_queue n) (wire n ++ [mkMsg identity uid true (BValue VNone) frames]))).

(** [_is_chunk_result]: a pair of a non-empty list of buffers and a callable. *)
Definition is_chunk_result (r : result A) : bool :=
  match r with RChunks (_ :: _) _ => true | _ => false end.

(** [pickle.dumps((uid, True, result))]: the callback of an empty chunk result
    is a local function, which cannot be pickled. *)
Definition dumps (r : result A) : res value :=
  match r with RValue v => Ok v | RChunks _ _ => Raise PicklingError end.

Definition handle_ok (identity : bytes) (uid : Z) (result : result A) : prog Net unit :=
  if is_chunk_result result then
    match result with
    | RChunks chunks post_send =>
        let! _ := send_now identity uid chunks in
        on_srv post_send
    | RValue _ => pret tt
    end
  else
    let! v := plift (dumps result) in
    atomic (send (mkMsg identity uid true (BValue v) [])).

Definition handle (identity : bytes) (uid : Z) (rq : request) : prog Net unit :=
  ptry (let! result := on_srv (dispatch_request blake3 rq) in
        handle_ok identity uid result)
       (fun exc => atomic (send (mkMsg identity uid false (BExc exc) []))).
End server_side.
Arguments Net : clear implicits.

(** ** The client *)

(** What a future of the client is settled with. *)
Inductive answer := AValue (v : value) | AChunks (chunks : list bytes).

Record Client := mkClient {
  uid_counter : Z;
  pending_futs : gset Z;
  futures : gmap Z (option (res answer))
}.

Definition new_client : Client := mkClient 0 ∅ ∅.

Definition client_submit (c : Client) : Client * Z :=
  (mkClient (uid_counter c + 1) ({[ uid_counter c ]} ∪ pending_futs c)
            (<[uid_counter c := None]> (futures c)), uid_counter c).

(** [None] with frames behind it stands for the frames. *)
Definition decode (m : msg) : answer :=
  match m_body m with
  | BValue VNone => if m_ok m && (0 <? Zlen (m_frames m)) then AChunks (m_frames m) else AValue VNone
  | BValue v => AValue v
  | BExc _ => AValue VNone
  end.

Definition client_on_recv (m : msg) (c : Client) : Client :=
  if decide (m_uid m ∈ pending_futs c) then
    mkClient (uid_counter c) (pending_futs c ∖ {[ m_uid m ]})
      (<[m_uid m := Some (match m_ok m, m_body m with
                          | false, BExc e => Raise e
                          | _, _ => Ok (decode m)
                          end)]> (futures c))
  else c.

(** [call]: the answer once settled, else [TimeoutError] after the wait. *)
Definition future_value (c : Client) (uid : Z) : res answer :=
  match futures c !! uid with
  | Some (Some r) => r
  | _ => Raise TimeoutError
  end.

(** The futures that await a reply are the pending ones. *)
Definition client_ok (c : Client) : Prop :=
  (forall uid, futures c !! uid = Some None <-> uid ∈ pending_futs c) /\
  (forall uid, is_Some (futures c !! uid) -> 0 <= uid < uid_counter c) /\ 0 <= uid_counter c.

(** ** Proofs: the client *)

Lemma client_submit_ok c : client_ok c -> client_ok (client_submit c).1.
Proof.
  intros (H1 & H2 & H3). unfold client_submit, client_ok. simpl. split_and!; [| |lia].
  - intros uid. rewrite lookup_insert. destruct (decide (uid_counter c = uid)) as [<-|Hne]; [set_solver|].
    rewrite H1. set_solver.
  - intros uid. rewrite lookup_insert. destruct (decide (uid_counter c = uid)) as [<-|Hne]; [lia|].
    intros Hs%H2. lia.
Qed.

Lemma client_recv_ok m c : client_ok c -> client_ok (client_on_recv m c).
Proof.
  intros (H1 & H2 & H3). unfold client_on_recv. case_decide as Hp; [|done].
  unfold client_ok. simpl. split_and!; [| |done].
  - intros uid. rewrite lookup_insert. destruct (decide (m_uid m = uid)) as [<-|Hne]; [set_solver|].
    rewrite H1. set_solver.
  - intros uid. rewrite lookup_insert. destruct (decide (m_uid m = uid)) as [<-|Hne]; [|apply H2].
    intros _. apply H2. rewrite (proj2 (H1 _) Hp). eauto.
Qed.

(** Processing messages in the order they arrive. *)
Definition recv_all (ms : list msg) (c : Client) : Client := foldl (fun c m => client_on_recv m c) c ms.

Lemma recv_other ms c uid :
  (forall m, m ∈ ms -> m_uid m <> uid) -> futures (recv_all ms c) !! uid = futures c !! uid /\
    (uid ∈ pending_futs (recv_all ms c) <-> uid ∈ pending_futs c).
Proof.
  revert c. induction ms as [|m ms IH]; intros c Hne; [done|]. unfold recv_all in *. simpl.
  destruct (IH (client_on_recv m c)) as [-> ->]; [set_solver|].
  assert (m_uid m <> uid) by set_solver. unfold client_on_recv. case_decide; [|done]. simpl.
  rewrite lookup_insert_ne by done. split; [done|set_solver].
Qed.

Lemma recv_settled ms c uid r :
  futures c !! uid = Some (Some r) -> uid ∉ pending_futs c ->
  futures (recv_all ms c) !! uid = Some (Some r).
Proof.
  revert c. induction ms as [|m ms IH]; intros c Hf Hp; [done|]. unfold recv_all in *. simpl.
  apply IH; unfold client_on_recv; case_decide as Hd; simpl; try done.
  - rewrite lookup_insert_ne; [done|]. by intros <-.
  - set_solver.
Qed.

(** C34: a submitted future is settled by the first reply that carries its uid
    and by nothing else: replies to other calls, stale or unknown uids and a
    second reply to the same call leave it alone, and uids are never reused. *)
Theorem client_matches_replies c ms1 m ms2 :
  client_ok c ->
  let (c1, uid) := client_submit c in
  (forall m', m' ∈ ms1 -> m_uid m' <> uid) -> m_uid m = uid ->
  client_ok c1 /\ futures c !! uid = None /\
  future_value (recv_all ms1 c1) uid = Raise TimeoutError /\
  future_value (recv_all (ms1 ++ m :: ms2) c1) uid =
    (match m_ok m, m_body m with false, BExc e => Raise e | _, _ => Ok (decode m) end).
Proof.
  intros Hc. pose proof (client_submit_ok c Hc) as Hc1. destruct Hc as (H1 & H2 & H3).
  simpl in *. intros Hms1 Hm. split; [done|].
  set (c1 := mkClient _ _ _) in *. set (uid := uid_counter c) in *.
  assert (futures c !! uid = None) as Hnone.
  { destruct (futures c !! uid) as [x|] eqn:E; [|done]. specialize (H2 uid (mk_is_Some _ _ E)). lia. }
  split; [done|]. destruct (recv_other ms1 c1 uid Hms1) as [Hf Hp].
  assert (uid ∈ pending_futs (recv_all ms1 c1)) as Hin by (apply Hp; simpl; set_solver).
  unfold future_value. rewrite Hf. simpl. rewrite lookup_insert_eq. split; [done|].
  unfold recv_all. rewrite foldl_app. fold (recv_all ms1 c1). simpl.
  fold (recv_all ms2 (client_on_recv m (recv_all ms1 c1))).
  erewrite recv_settled; [reflexivity| |]; unfold client_on_recv; rewrite Hm, decide_True by done; simpl.
  - apply lookup_insert_eq.
  - set_solver.
Qed.

(** ** Proofs: the server side *)

Section handle_proofs.
Context {A : Type} `{!L2Ops A} (blake3 : bytes -> bytes) (C : ChunkKey -> bytes).
Implicit Types (n : Net A).

Lemma run_on_srv {B} (p : prog (Server A) B) n s r :
  run p (srv n) = (s, r) -> run (on_srv p) n = (set_srv s n, r).
Proof.
  intros E. unfold on_srv. rewrite run_pzoom by (by intros; try destruct w). by rewrite E.
Qed.

Lemma read_frames_run chunks n :
  run (read_frames chunks) n
    = (n, Ok ((fun o => byte_array o (pool_of (l1 (sm (srv n))))) <$> chunks)).
Proof.
  induction chunks as [|o chunks IH]; [done|]. cbn [read_frames].
  erewrite run_bind_ok by (rewrite run_atomic; reflexivity).
  erewrite run_bind_ok by exact IH. done.
Qed.

Lemma send_now_run identity uid chunks n :
  run (send_now identity uid chunks) n =
    (mkNet (srv n) (send_queue n)
       (wire n ++ [mkMsg identity uid true (BValue VNone)
                     ((fun o => byte_array o (pool_of (l1 (sm (srv n))))) <$> chunks)]), Ok tt).
Proof.
  unfold send_now. erewrite run_bind_ok by apply read_frames_run. by rewrite run_atomic.
Qed.

(** What one request leaves on the connection. *)
Definition replied identity uid n n' : Prop :=
  exists m, to m = identity /\ m_uid m = uid /\
    ((wire n' = wire n /\ send_queue n' = send_queue n ++ [m]) \/
     (wire n' = wire n ++ [m] /\ m_ok m = true /\
      exists extra, send_queue n' = send_queue n ++ extra /\ (length extra <= 1)%nat /\
        Forall (fun m' => to m' = identity /\ m_uid m' = uid /\ m_ok m' = false) extra)).

(** C33: every request is answered: whatever the handler does (including
    raising any exception), its thread finishes and puts a reply addressed to
    the requester, with the request's uid, on the connection; handlers touch
    the connection in no other way. *)
Theorem handle_always_replies identity uid rq n :
  exists n', run (handle blake3 identity uid rq) n = (n', Ok tt) /\ replied identity uid n n'.
Proof.
  unfold handle. rewrite run_try, run_bind. unfold bind.
  destruct (run (dispatch_request blake3 rq) (srv n)) as [s r] eqn:E.
  rewrite (run_on_srv _ _ _ _ E).
  destruct r as [[v|chunks post]|e].
  - eexists. split; [reflexivity|]. eexists (mkMsg identity uid true (BValue v) []).
    split_and!; [done|done|]. by left.
  - destruct chunks as [|o chunks].
    { eexists. split; [reflexivity|]. eexists (mkMsg identity uid false (BExc PicklingError) []).
      split_and!; [done|done|]. by left. }
    unfold handle_ok. cbn [is_chunk_result]. rewrite run_bind. unfold bind.
    rewrite send_now_run.
    set (n1 := mkNet _ _ _). destruct (run post (srv n1)) as [s2 [[]|e]] eqn:E2;
      rewrite (run_on_srv _ _ _ _ E2); eexists; (split; [reflexivity|]); eexists;
      (split; [|split; [|right; split; [reflexivity|]]]); try done; (split; [done|]).
    + exists []. rewrite app_nil_r. split; [done|]. split; [simpl; lia|constructor].
    + eexists [_]. split; [reflexivity|]. split; [done|]. by repeat constructor.
  - eexists. split; [reflexivity|]. eexists (mkMsg identity uid false (BExc e) []).
    split_and!; [done|done|]. by left.
Qed.

(** A RETRIEVE of held chunks. *)
Lemma retrieve_spec identity uid n W H p inst keys h :
  let s := srv n in
  instances s !! tp_instance_id p = Some inst -> ei_world_size inst <> 0 ->
  op_keys blake3 (chunk_size s) (tp_op p) inst = Ok keys -> keys <> [] -> NoDup keys ->
  held (sm s) !! tp_request_id p = Some h -> NoDup h -> (forall k, k ∈ keys -> k ∈ h) ->
  l1_inv C (l1 (sm s)) W (H ⊎ holds_of h) ->
  exists n', run (handle blake3 identity uid (RqRetrieve p)) n = (n', Ok tt) /\
    wire n' = wire n ++ [mkMsg identity uid true (BValue VNone) (C <$> keys)] /\
    send_queue n' = send_queue n /\
    l1_inv C (l1 (sm (srv n'))) W (H ⊎ holds_of (left_held keys h)) /\
    held (sm (srv n')) = <[tp_request_id p := left_held keys h]> (held (sm s)) /\
    (forall k, k ∈ keys -> exists e, entries (l1 (sm (srv n'))) !! k = Some e /\
       is_temporary e = false /\ byte_array (entry_obj e) (pool_of (l1 (sm (srv n')))) = C k).
Proof.
  intros s Hi Hw Hk Hne Hnd Hh Hndh Hsub Hinv. pose proof Hinv as [_ Hl].
  assert (forall k, k ∈ keys -> exists e, entries (l1 (sm s)) !! k = Some e /\
    byte_array (entry_obj e) (pool_of (l1 (sm s))) = C k) as Hready.
  { intros k Hkk. destruct (lock_inv_held _ _ _ _ _ k Hl) as (e & He & _ & Hwl & _).
    - rewrite elem_of_multiplicity, multiplicity_disj_union, multiplicity_holds_of, decide_True
        by auto. lia.
    - exists e. split; [done|]. by eapply lock_inv_ready. }
  destruct (read_spec C (l1 (sm s)) keys) as (objs & Er & Hobjs).
  { intros k Hkk. destruct (Hready k Hkk) as (e & -> & _). eauto. }
  assert ((fun o => byte_array o (pool_of (l1 (sm s)))) <$> objs = C <$> keys) as Hframes.
  { clear -Hobjs Hready. induction Hobjs as [|k o keys objs (e & He & Ho) _ IH]; [done|].
    csimpl. rewrite IH by set_solver. f_equal. destruct (Hready k) as (e' & He' & Hb); [set_solver|].
    simplify_eq. done. }
  destruct objs as [|o0 objs0]; [by destruct keys|]. set (objs := o0 :: objs0) in *.
  destruct (post_send_spec C s W H (tp_request_id p) h keys Hh Hndh Hnd Hinv)
    as (s' & Ep & Hinv' & Hd & Hp & Hres).
  assert (run (dispatch_request blake3 (RqRetrieve p)) s
          = (s, Ok (RChunks objs (post_send (tp_request_id p) keys)))) as Ed.
  { cbn [dispatch_request]. rewrite (retrieve_run blake3 s p inst keys Hi Hk Hw). by rewrite Er. }
  unfold handle. rewrite run_try, run_bind. unfold bind. rewrite (run_on_srv _ _ _ _ Ed).
  unfold handle_ok. cbn [is_chunk_result objs]. rewrite run_bind. unfold bind.
  rewrite send_now_run. set (n1 := mkNet _ _ _).
  assert (run (post_send (tp_request_id p) keys) (srv n1) = (s', Ok tt)) as Ep1 by exact Ep.
  rewrite (run_on_srv _ _ _ _ Ep1). eexists. split; [reflexivity|].
  split_and!; [|done|exact Hinv'|exact Hd|].
  - simpl. do 2 f_equal. f_equal. exact Hframes.
  - intros k Hkk. destruct (Hready k Hkk) as (e & He & Hb).
    destruct (Hres k e Hkk He) as (e' & He' & Ht & Ho). exists e'. split_and!; [done|done|].
    simpl. by rewrite Ho, Hp.
Qed.


(** RETRIEVE of an operation that covers no whole chunk is not a chunk
    result for the RPC layer, which then tries to pickle the callback and
    answers with an error; no lock changes. *)
Lemma retrieve_empty_errors identity uid n p inst :
  instances (srv n) !! tp_instance_id p = Some inst -> ei_world_size inst <> 0 ->
  op_keys blake3 (chunk_size (srv n)) (tp_op p) inst = Ok [] ->
  exists n', run (handle blake3 identity uid (RqRetrieve p)) n = (n', Ok tt) /\
    send_queue n' = send_queue n ++ [mkMsg identity uid false (BExc PicklingError) []] /\
    wire n' = wire n /\ srv n' = srv n.
Proof.
  intros Hi Hw Hk.
  assert (run (dispatch_request blake3 (RqRetrieve p)) (srv n)
          = (srv n, Ok (RChunks [] (post_send (tp_request_id p) [])))) as Ed.
  { cbn [dispatch_request]. by rewrite (retrieve_run blake3 (srv n) p inst [] Hi Hk Hw). }
  unfold handle. rewrite run_try, run_bind. unfold bind. rewrite (run_on_srv _ _ _ _ Ed).
  eexists. split; [reflexivity|]. done.
Qed.
End handle_proofs.

(** *** Witnesses *)

Definition toy_net (x : Stack Mock) : Net Mock := mkNet (toy_server x) [] [].


Lemma retrieve_empty_errors_witness :
  exists n', run (handle last_byte [] 3 (RqRetrieve (toy_transfer [] []))) (toy_net toy_stack) = (n', Ok tt) /\
    send_queue n' = [mkMsg [] 3 false (BExc PicklingError) []].
Proof.
  destruct (retrieve_empty_errors last_byte [] 3 (toy_net toy_stack) (toy_transfer [] []) toy_inst)
    as (n' & E & Hq & _).
  - reflexivity.
  - discriminate.
  - vm_compute. reflexivity.
  - exists n'. split; [exact E|exact Hq].
Defined.

Lemma client_matches_replies_witness :
  let (c1, uid) := client_submit new_client in
  future_value (recv_all [mkMsg [] 9 true (BValue VNone) [];
                          mkMsg [] 0 true (BValue VNone) [[Byte.x01]];
                          mkMsg [] 0 true (BValue (VInt 5)) []] c1) uid = Ok (AChunks [[Byte.x01]]).
Proof.
  assert (client_ok new_client) as Hc.
  { split; [|split; [|done]]; intros uid; simpl; rewrite lookup_empty.
    - split; [done|]. by intros ?%elem_of_empty.
    - by intros []. }
  destruct (client_matches_replies new_client [mkMsg [] 9 true (BValue VNone) []]
              (mkMsg [] 0 true (BValue VNone) [[Byte.x01]]) [mkMsg [] 0 true (BValue (VInt 5)) []] Hc)
    as (_ & _ & _ & H).
  - by intros m' ->%list_elem_of_singleton.
  - reflexivity.
  - exact H.
Defined.
