(* ===== verification/Corners.v ===== *)
(** Corner cases.

    What the code does outside the obligations the theorems ask of callers,
    each on a small concrete run. *)
From S2P Require Import Prelude PyFloat Protocol Hasher Memory L1Manager Eviction L1Protocol.
From S2P Require Import L2 Threads Storage StoreController Prefetch Server MQ.
Local Open Scope py_scope.
Local Open Scope Z_scope.

(** *** Repeated keys

    [reserve_write] allocates a slot per occurrence of a missing key and keeps
    the last one: four bytes are in use for an entry of two. *)
Definition duplicate_run := reserve_write [ka; ka] 2 false (l1 (new_stack (A := Mock) (replicate 8 Byte.x00) [])).

Example reserve_write_duplicate_leaks :
  used_bytes (allocator duplicate_run.1) = 4 /\ size (entries duplicate_run.1) = 1%nat /\
  obj_nbytes ∘ entry_obj <$> entries duplicate_run.1 !! ka = Some 2.
Proof. split_and!; vm_compute; reflexivity. Qed.

(** *** A second lookup under the same request id

    Both lookups take a hold on [ka]; the table keeps one, and the end of the
    session gives back one. *)
Definition looked_up_twice : Stack Mock :=
  fst (run (let! _ := start_session "r" [ka] (Some 2) in
            let! _ := start_session "r" [ka] (Some 2) in
            let! _ := prefetch_round f_0_8 in
            let! _ := prefetch_round f_0_8 in
            Prefetch.end_session "r") toy_stack).

Example second_lookup_leaks :
  held looked_up_twice = ∅ /\ hits looked_up_twice !! "r"%string = None /\
  read_count <$> entries (l1 looked_up_twice) !! ka = Some 1.
Proof. split_and!; vm_compute; reflexivity. Qed.

(** *** An exception in the prefetch thread

    A lookup of [ka] and [kb], the second to come from the adapter, when the
    clock did not advance around the load: dividing by zero ends the thread; the
    session stays pending and no session lists the holds on the two chunks. *)
Definition dying_run := run (let! _ := start_session "r" [ka; kb] (Some 2) in prefetch_round f_0) toy_stack.

Example prefetch_dies :
  dying_run.2 = Raise ZeroDivisionError /\ hits dying_run.1 !! "r"%string = Some None /\ held dying_run.1 = ∅ /\
  read_count <$> entries (l1 dying_run.1) !! ka = Some 1 /\ read_count <$> entries (l1 dying_run.1) !! kb = Some 1.
Proof. split_and!; vm_compute; reflexivity. Qed.

(** *** Chunks present behind a gap

    [kc] is in L1 and ready, [kb] is not and the adapter has both: the load stops
    at [kc], with plenty of room in the pool. *)
Definition gap_stack : Stack Mock :=
  let s := new_stack (replicate 64 Byte.x00) [mkMock (<[kb := toy_C kb]> {[ kc := toy_C kc ]})] in
  set_l1 (fst (for_each [ReserveWrite [ka; kc] 2 false; Fill ka (toy_C ka); Fill kc (toy_C kc); FinishWrite [ka; kc]]
                 run_call (l1 s))) s.

Definition gap_run : Stack Mock :=
  fst (run (let! _ := start_session "r" [ka; kb; kc] (Some 2) in prefetch_round f_0_8) gap_stack).

Example load_stops_at_present_chunk :
  held gap_run !! "r"%string = Some [ka; kb] /\ key_readable (entries (l1 gap_run)) kc = true /\
  alloc_usage (allocator (l1 gap_run)) = (6, 64).
Proof. split_and!; vm_compute; reflexivity. Qed.

(** *** Two deployments of one model

    Rank 0 of a deployment over one rank stores a chunk of two bytes.  Rank 0 of
    a deployment of the same model over two ranks, with chunks of one byte, looks
    the same token up: the key is the same, and it is served those two bytes. *)
Definition two_deployments : Server Mock :=
  fst (run (let! _ := Server.register (mkRegisterPayload 7 "m" 0 1 1 2) in
            let! _ := Server.register (mkRegisterPayload 8 "m" 0 2 1 1) in
            let! _ := Server.register (mkRegisterPayload 9 "m" 1 2 1 1) in
            let! _ := Server.store last_byte (toy_transfer [1] [toy_C ka]) in
            let! _ := Server.store last_byte (mkTransferPayload "w" 9 (toy_op [1]) [[Byte.x07]] f_0 0) in
            let! _ := Server.lookup last_byte (mkLookupPayload "q" [1] "m" 2) in
            on_sm (prefetch_round f_0_8)) (new_server 1 (replicate 64 Byte.x00) [])).

Definition served_to_another : Net Mock :=
  fst (run (handle last_byte [] 5 (RqRetrieve (mkTransferPayload "q" 8 (toy_op [1]) [] f_0 0)))
         (mkNet two_deployments [] [])).

Example deployments_share_chunks :
  deployments two_deployments !! ("m"%string, 2) = Some 1 /\
  snd (run (query (mkQueryPayload "q" 2)) two_deployments) = Ok (RValue (VInt 1)) /\
  wire served_to_another = [mkMsg [] 5 true (BValue VNone) [toy_C ka]] /\ length (toy_C ka) = 2%nat.
Proof. split_and!; vm_compute; reflexivity. Qed.
