(* ===== verification/Resources.v ===== *)
(** A program logic for threads that interleave.

    A thread owns a resource; a global invariant ties the sum of what all
    threads own to the world.  [safe Inv G p o Q] says that [p], owning [o],
    keeps [Inv] at every step whatever the other threads own, that every step is
    one of [G], and that [p] ends with [Q]; [safe_threads] is that threads proved
    one by one keep the invariant together.  The logic is over any [Resource]:
    [Ownership] has the locks of L1; here are plain tokens, multisets of tokens
    and pairs of resources. *)
From S2P Require Import Prelude Threads.
Local Open Scope py_scope.

Class Resource (O : Type) `{Equiv O} := {
  r_nil : O;
  r_add : O -> O -> O;
  r_apart : O -> O -> Prop;
  r_ok : O -> Prop;
  r_equivalence :: Equivalence (≡@{O});
  r_add_proper :: Proper ((≡) ==> (≡) ==> (≡)) r_add;
  r_add_comm a b : r_apart a b -> r_add a b ≡ r_add b a;
  r_add_assoc a b c : r_add a (r_add b c) ≡ r_add (r_add a b) c;
  r_nil_l a : r_add r_nil a ≡ a;
  r_apart_nil a : r_apart r_nil a;
  r_apart_sym a b : r_apart a b -> r_apart b a;
  r_apart_add a b c : r_apart a (r_add b c) <-> r_apart a b /\ r_apart a c;
  r_apart_proper a b b' : b ≡ b' -> r_apart a b -> r_apart a b';
  r_ok_nil : r_ok r_nil;
  r_ok_add a b : r_ok a -> r_ok b -> r_ok (r_add a b)
}.

(** *** The sum of what several threads own *)

Section sums.
Context {O : Type} `{Resource O}.

Fixpoint r_sum (os : list O) : O :=
  match os with [] => r_nil | a :: os' => r_add a (r_sum os') end.
Fixpoint all_apart (os : list O) : Prop :=
  match os with [] => True | a :: os' => r_apart a (r_sum os') /\ all_apart os' end.

Lemma r_sum_perm os os' : os ≡ₚ os' -> all_apart os -> all_apart os' /\ r_sum os ≡ r_sum os'.
Proof.
  induction 1 as [|a l l' _ IH|a b l|l1 l2 l3 _ IH1 _ IH2]; simpl.
  - done.
  - intros [Ha [Hl He]%IH]. split; [split; [by eapply r_apart_proper|done]|]. by rewrite He.
  - intros [[Hba Hb]%r_apart_add [Ha Hl]]. split.
    + split; [|by split]. apply r_apart_add. split; [by apply r_apart_sym|done].
    + rewrite !r_add_assoc. by rewrite (r_add_comm b a).
  - intros [H2 E1]%IH1. destruct (IH2 H2) as [H3 E2]. split; [done|]. by rewrite E1.
Qed.

Lemma r_ok_sum os : Forall r_ok os -> r_ok (r_sum os).
Proof. induction 1; simpl; [apply r_ok_nil|by apply r_ok_add]. Qed.

Lemma r_sum_nils os : Forall (fun o => o = r_nil) os -> r_sum os ≡ r_nil.
Proof. induction 1 as [|o os -> _ IH]; [done|]. simpl. by rewrite r_nil_l. Qed.

Lemma r_sum_replicate n : all_apart (replicate n r_nil) /\ r_sum (replicate n r_nil) ≡ r_nil.
Proof.
  induction n as [|n [IH1 IH2]]; [done|]. simpl. split; [split; [apply r_apart_nil|done]|].
  by rewrite r_nil_l.
Qed.

(** One thread owns [o], the others nothing. *)
Lemma r_sum_one n i o : (i < n)%nat -> all_apart (<[i := o]> (replicate n r_nil)) /\ r_sum (<[i := o]> (replicate n r_nil)) ≡ o.
Proof.
  intros Hi. assert (o :: replicate (n - 1) r_nil ≡ₚ <[i := o]> (replicate n r_nil)) as Hp.
  { rewrite (delete_Permutation (<[i := o]> (replicate n r_nil)) i o); [|by apply list_lookup_insert_eq; rewrite length_replicate].
    f_equiv. rewrite delete_inserted. clear o. revert i Hi. induction n as [|n IH]; intros i Hi; [lia|].
    destruct i as [|i]; simpl; rewrite Nat.sub_0_r; [done|]. destruct n as [|n]; [lia|].
    rewrite <- IH by lia. simpl. by rewrite Nat.sub_0_r. }
  destruct (r_sum_replicate (n - 1)) as [Ha He].
  destruct (r_sum_perm _ _ Hp) as [H1 H2].
  - split; [|done]. eapply r_apart_proper; [symmetry; exact He|]. apply r_apart_sym, r_apart_nil.
  - split; [done|]. rewrite <- H2. simpl. rewrite He, r_add_comm; [apply r_nil_l|]. apply r_apart_sym, r_apart_nil.
Qed.
End sums.

(** ** The logic *)

Section logic.
Context {O : Type} `{Resource O} {W : Type} (Inv : W -> O -> Prop) (G : W -> W -> Prop).

Fixpoint safe {B} (p : prog W B) (o : O) (Q : res B -> O -> Prop) : Prop :=
  match p with
  | Done r => Q r o
  | Step f k =>
      forall w oF, r_ok o -> r_ok oF -> r_apart o oF -> Inv w (r_add o oF) ->
        exists o', r_ok o' /\ r_apart o' oF /\ Inv (f w) (r_add o' oF) /\ G w (f w) /\ safe (k w) o' Q
  end.

Lemma safe_mono {B} (p : prog W B) o (Q Q' : res B -> O -> Prop) :
  safe p o Q -> (forall r o', Q r o' -> Q' r o') -> safe p o Q'.
Proof.
  intros Hs HQ. revert o Hs. induction p as [r|f k IH]; intros o Hs; simpl in *; [by apply HQ|].
  intros w oF Hoo Hok Hap Hi. destruct (Hs w oF Hoo Hok Hap Hi) as (o' & H1 & H2 & H3 & H4 & H5). eauto 7.
Qed.

Lemma safe_bind {B D} (p : prog W B) (q : B -> prog W D) o Q :
  safe p o (fun r o' => match r with Ok b => safe (q b) o' Q | Raise e => Q (Raise e) o' end) ->
  safe (pbind p q) o Q.
Proof.
  revert o. induction p as [[b|e]|f k IH]; intros o Hs; simpl in *; [done|done|].
  intros w oF Hoo Hok Hap Hi. destruct (Hs w oF Hoo Hok Hap Hi) as (o' & H1 & H2 & H3 & H4 & H5). eauto 7.
Qed.

Lemma safe_bind_inv {B D} (p : prog W B) (q : B -> prog W D) o Q :
  safe (pbind p q) o Q ->
  safe p o (fun r o' => match r with Ok b => safe (q b) o' Q | Raise e => Q (Raise e) o' end).
Proof.
  revert o. induction p as [[b|e]|f k IH]; intros o Hs; simpl in *; [done|done|].
  intros w oF Hoo Hok Hap Hi. destruct (Hs w oF Hoo Hok Hap Hi) as (o' & H1 & H2 & H3 & H4 & H5). eauto 7.
Qed.

Lemma safe_try {B} (p : prog W B) (h : exn -> prog W B) o Q :
  safe p o (fun r o' => match r with Ok b => Q (Ok b) o' | Raise e => safe (h e) o' Q end) ->
  safe (ptry p h) o Q.
Proof.
  revert o. induction p as [[b|e]|f k IH]; intros o Hs; simpl in *; [done|done|].
  intros w oF Hoo Hok Hap Hi. destruct (Hs w oF Hoo Hok Hap Hi) as (o' & H1 & H2 & H3 & H4 & H5). eauto 7.
Qed.

(** One critical section. *)
Lemma safe_section {B} (m : M W B) o Q :
  (forall w oF, r_ok o -> r_ok oF -> r_apart o oF -> Inv w (r_add o oF) ->
     exists w' r o', m w = (w', r) /\ r_ok o' /\ r_apart o' oF /\ Inv w' (r_add o' oF) /\ G w w' /\ Q r o') ->
  safe (atomic m) o Q.
Proof.
  intros Hm w oF Hoo Hok Hap Hi. destruct (Hm w oF Hoo Hok Hap Hi) as (w' & r & o' & E & H1 & H2 & H3 & H4 & H5).
  exists o'. rewrite E. done.
Qed.
End logic.

Lemma safe_guar {O} `{Resource O} {W B} (Inv : W -> O -> Prop) (G G' : W -> W -> Prop) (p : prog W B) o Q :
  (forall w w', G w w' -> G' w w') -> safe Inv G p o Q -> safe Inv G' p o Q.
Proof.
  intros HG. revert o. induction p as [r|f k IH]; intros o Hs; simpl in *; [done|].
  intros w oF Hoo Hok Hap Hi. destruct (Hs w oF Hoo Hok Hap Hi) as (o' & H1 & H2 & H3 & H4 & H5). eauto 8.
Qed.

(** A thread over a part of the world. *)
Lemma safe_zoom {O} `{Resource O} {W S B} (InvW : W -> O -> Prop) (InvS : S -> O -> Prop) (GW : W -> W -> Prop)
    (GS : S -> S -> Prop) (g : W -> S) (put : S -> W -> W) (p : prog S B) o Q :
  (forall w o, InvW w o -> InvS (g w) o) ->
  (forall w s o o', InvW w o -> InvS s o' -> InvW (put s w) o') ->
  (forall w s, GS (g w) s -> GW w (put s w)) ->
  safe InvS GS p o Q -> safe InvW GW (pzoom g put p) o Q.
Proof.
  intros K1 K2 K3. revert o. induction p as [r|f k IH]; intros o Hp; simpl in *; [done|].
  intros w oF Hoo Hok Hap Hi.
  destruct (Hp (g w) oF Hoo Hok Hap (K1 _ _ Hi)) as (o' & Ho' & Hap' & Hi' & Hg & Hs).
  exists o'. split_and!; [done|done|by eapply K2|by apply K3|by apply IH].
Qed.

(** ** Several threads *)

(** Thread [j] makes its next step. *)
Definition step_by {W} (j : nat) (c c' : W * list (thread W)) : Prop :=
  exists f k, c.2 !! j = Some (Step f k) /\ c' = (f c.1, <[j := k c.1]> c.2).

Lemma tstep_step_by {W} (c c' : W * list (thread W)) : tstep c c' -> exists j, step_by j c c'.
Proof. intros [w ts i f k Hi]. exists i. by exists f, k. Qed.

Section threads.
Context {O : Type} `{Resource O} {W : Type} (Inv : W -> O -> Prop) (G : nat -> W -> W -> Prop).
Context (Inv_proper : forall w a b, a ≡ b -> Inv w a -> Inv w b).

(** Thread [i] is safe with what it owns now; its steps are of [G i]. *)
Definition threads_ok (Q : nat -> res unit -> O -> Prop) (c : W * list (thread W)) (os : list O) : Prop :=
  length os = length c.2 /\ Forall r_ok os /\ all_apart os /\ Inv c.1 (r_sum os) /\
  forall i t o, c.2 !! i = Some t -> os !! i = Some o -> safe Inv (G i) t o (Q i).

Lemma threads_step Q j c c' os :
  step_by j c c' -> threads_ok Q c os -> G j c.1 c'.1 /\ exists os', threads_ok Q c' os'.
Proof using Inv_proper.
  destruct c as [w ts]. intros (f & k & Hi & ->) (Hlen & Hok & Hap & Hinv & Hsafe). simpl in *.
  destruct (lookup_lt_is_Some_2 os j) as [o Ho]; [rewrite Hlen; by eapply lookup_lt_Some|].
  pose proof (delete_Permutation os j o Ho) as Hperm.
  destruct (r_sum_perm _ _ Hperm Hap) as [[Hap1 Hap2] He].
  assert (r_ok o /\ Forall r_ok (delete j os)) as [Hoo Hod].
  { rewrite Hperm in Hok. by apply Forall_cons in Hok. }
  destruct (Hsafe j _ o Hi Ho w (r_sum (delete j os))) as (o' & H1 & H2 & H3 & HG & H4);
    [done|by apply r_ok_sum|done|by eapply Inv_proper|].
  split; [exact HG|]. exists (<[j := o']> os).
  assert (<[j := o']> os ≡ₚ o' :: delete j os) as Hperm'.
  { rewrite (delete_Permutation (<[j := o']> os) j o').
    - by rewrite delete_inserted.
    - apply list_lookup_insert_eq. by eapply lookup_lt_Some. }
  destruct (r_sum_perm (o' :: delete j os) (<[j := o']> os)) as [Hap' He']; [done|by split|].
  unfold threads_ok. split_and!; simpl.
  - by rewrite !length_insert.
  - rewrite Hperm'. by constructor.
  - done.
  - eapply Inv_proper; [exact He'|]. done.
  - intros i t oi Hj Hoj. destruct (decide (i = j)) as [->|Hne].
    + rewrite list_lookup_insert_eq in Hj by (by eapply lookup_lt_Some).
      rewrite list_lookup_insert_eq in Hoj by (by eapply lookup_lt_Some).
      injection Hj as <-. by injection Hoj as <-.
    + rewrite list_lookup_insert_ne in Hj by done. rewrite list_lookup_insert_ne in Hoj by done. by eapply Hsafe.
Qed.

Lemma threads_ok_run Q c c' os : threads_ok Q c os -> tsteps c c' -> exists os', threads_ok Q c' os'.
Proof using Inv_proper.
  intros Hok Hrun. revert os Hok. induction Hrun as [c|c1 c2 c3 [j Hs]%tstep_step_by _ IH]; intros os Hok; [eauto|].
  destruct (threads_step Q j c1 c2 os Hs Hok) as [_ [os' Hok']]. by eapply IH.
Qed.

(** Thread [i] starts with [o], the others with nothing. *)
Lemma threads_start_one Q w ts i o :
  (i < length ts)%nat -> r_ok o -> Inv w o ->
  (forall j t, ts !! j = Some t -> safe Inv (G j) t (if decide (j = i) then o else r_nil) (Q j)) ->
  exists os, threads_ok Q (w, ts) os.
Proof using Inv_proper.
  intros Hi Ho Hw Hts. exists (<[i := o]> (replicate (length ts) r_nil)).
  destruct (r_sum_one (length ts) i o Hi) as [Ha He]. unfold threads_ok. split_and!; simpl.
  - by rewrite length_insert, length_replicate.
  - apply Forall_insert; [apply Forall_replicate, r_ok_nil|done].
  - done.
  - by eapply Inv_proper.
  - intros j t oj Ht Hoj. specialize (Hts j t Ht). case_decide as Hd.
    + subst j. rewrite list_lookup_insert_eq in Hoj by (by rewrite length_replicate). by injection Hoj as <-.
    + rewrite list_lookup_insert_ne in Hoj by done. by apply lookup_replicate in Hoj as [-> _].
Qed.

Lemma threads_start Q w ts :
  Inv w r_nil -> (forall i t, ts !! i = Some t -> safe Inv (G i) t r_nil (Q i)) ->
  exists os, threads_ok Q (w, ts) os.
Proof using Inv_proper.
  intros Hw Hts. exists (replicate (length ts) r_nil). destruct (r_sum_replicate (length ts)) as [Ha He].
  unfold threads_ok. split_and!; simpl; [apply length_replicate|apply Forall_replicate, r_ok_nil|done| |].
  - by eapply Inv_proper.
  - intros i t o Hi Ho. apply lookup_replicate in Ho as [-> _]. by apply Hts.
Qed.

(** Threads that are safe on their own, starting with nothing, keep the
    invariant under every interleaving. *)
Lemma safe_threads Q w ts c' :
  Inv w r_nil -> (forall i t, ts !! i = Some t -> safe Inv (G i) t r_nil (Q i)) ->
  tsteps (w, ts) c' -> exists os, threads_ok Q c' os.
Proof using Inv_proper.
  intros Hw Hts Hrun. destruct (threads_start Q w ts Hw Hts) as [os Hok]. by eapply threads_ok_run.
Qed.
End threads.

(** ** Two resources at once

    A thread proved safe for two resources is safe for the pair. *)

#[export] Program Instance pair_resource {O1 O2} `{Resource O1, Resource O2} : Resource (O1 * O2) := {
  r_nil := (r_nil, r_nil);
  r_add a b := (r_add a.1 b.1, r_add a.2 b.2);
  r_apart a b := r_apart a.1 b.1 /\ r_apart a.2 b.2;
  r_ok a := r_ok a.1 /\ r_ok a.2
}.
Next Obligation. intros O1 O2 ???? a a' [] b b' []. by split; simpl; f_equiv. Qed.
Next Obligation. intros O1 O2 ???? a b []. by split; apply r_add_comm. Qed.
Next Obligation. intros O1 O2 ???? a b c. by split; apply r_add_assoc. Qed.
Next Obligation. intros O1 O2 ???? a. by split; apply r_nil_l. Qed.
Next Obligation. intros O1 O2 ???? a. by split; apply r_apart_nil. Qed.
Next Obligation. intros O1 O2 ???? a b []. by split; apply r_apart_sym. Qed.
Next Obligation. intros O1 O2 ???? a b c. simpl. rewrite !r_apart_add. tauto. Qed.
Next Obligation. intros O1 O2 ???? a b b' [] []. by split; eapply r_apart_proper. Qed.
Next Obligation. intros O1 O2 ????. by split; apply r_ok_nil. Qed.
Next Obligation. intros O1 O2 ???? a b [] []. by split; apply r_ok_add. Qed.

Lemma safe_pair {O1 O2} `{Resource O1, Resource O2} {W B} (Inv1 : W -> O1 -> Prop) (Inv2 : W -> O2 -> Prop)
    (G1 G2 : W -> W -> Prop) (p : prog W B) o1 o2 Q1 Q2 :
  safe Inv1 G1 p o1 Q1 -> safe Inv2 G2 p o2 Q2 ->
  safe (fun w o => Inv1 w o.1 /\ Inv2 w o.2) (fun w w' => G1 w w' /\ G2 w w') p (o1, o2)
    (fun r o => Q1 r o.1 /\ Q2 r o.2).
Proof.
  revert o1 o2. induction p as [r|f k IH]; intros o1 o2 S1 S2; simpl in *; [done|].
  intros w [oF1 oF2] [K1 K2] [L1 L2] [M1 M2] [N1 N2]. simpl in *.
  destruct (S1 w oF1 K1 L1 M1 N1) as (o1' & A1 & A2 & A3 & A4 & A5).
  destruct (S2 w oF2 K2 L2 M2 N2) as (o2' & B1 & B2 & B3 & B4 & B5).
  exists (o1', o2'). split_and!; try done. by apply IH.
Qed.

(** ** Tokens

    A resource of which any amounts go together. *)

Class FreeResource (T : Type) `{Resource T} := {
  free_apart (a b : T) : r_apart a b;
  free_ok (a : T) : r_ok a
}.

Lemma free_section {T} `{FreeResource T} {W B} (Inv : W -> T -> Prop) (G : W -> W -> Prop) (m : M W B) c Q :
  (forall w cF, Inv w (r_add c cF) -> exists w' r c', m w = (w', r) /\ Inv w' (r_add c' cF) /\ G w w' /\ Q r c') ->
  safe Inv G (atomic m) c Q.
Proof.
  intros Hm. apply safe_section. intros w cF _ _ _ Hi. destruct (Hm w cF Hi) as (w' & r & c' & E & Hi' & HG & HQ).
  exists w', r, c'. split_and!; try done; [apply free_ok|apply free_apart].
Qed.

(** *** Numbers

    The plainest resource: a number of equal tokens. *)
#[export] Instance nat_Equiv : Equiv nat := eq.

#[export] Program Instance tokens : Resource nat := {
  r_nil := 0; r_add := Nat.add; r_apart := fun _ _ => True; r_ok := fun _ => True
}.
Solve Obligations with first [typeclasses eauto | intros; unfold equiv, nat_Equiv; try done; lia].

#[export] Program Instance tokens_free : FreeResource nat.
Solve Obligations with done.

Lemma token_section {W B} (Inv : W -> nat -> Prop) (G : W -> W -> Prop) (m : M W B) c Q :
  (forall w cF, Inv w (c + cF) -> exists w' r c', m w = (w', r) /\ Inv w' (c' + cF) /\ G w w' /\ Q r c') ->
  safe Inv G (atomic m) c Q.
Proof. exact (free_section Inv G m c Q). Qed.

(** *** Multisets

    Tokens of several kinds. *)
#[export] Program Instance tokens_of_kinds {K} `{Countable K} : Resource (gmultiset K) := {
  r_nil := ∅; r_add := (⊎); r_apart := fun _ _ => True; r_ok := fun _ => True
}.
Next Obligation. intros K ?? a a' Ea b b' Eb x. by rewrite !multiplicity_disj_union, (Ea x), (Eb x). Qed.
Next Obligation. intros. by rewrite (comm_L (⊎)). Qed.
Next Obligation. intros. by rewrite (assoc_L (⊎)). Qed.
Next Obligation. intros. by rewrite (left_id_L ∅ (⊎)). Qed.
Solve Obligations with done.

#[export] Instance kinds_free {K} `{Countable K} : FreeResource (gmultiset K).
Proof. done. Qed.
