(* ===== verification/Ownership.v ===== *)
(** Ownership of locks by threads, as a resource of the logic of [Resources].

    A thread owns write locks, the slices it has already filled with their
    chunk's contents, read holds, and what it knows of the chunks it holds. *)
From S2P Require Import Prelude Protocol Memory L1Manager L1Protocol Threads Resources.
Local Open Scope py_scope.

(** ** What a thread owns *)

Record own := mkOwn {
  o_writes : write_table;
  o_filled : list ChunkKey;
  o_holds : hold_table;
  o_known : list (ChunkKey * MemoryObj)
}.

Definition own_nil : own := mkOwn ∅ [] ∅ [].
Definition own_add (a b : own) : own :=
  mkOwn (o_writes a ∪ o_writes b) (o_filled a ++ o_filled b) (o_holds a ⊎ o_holds b) (o_known a ++ o_known b).
Infix "⊛" := own_add (at level 50, left associativity) : py_scope.

(** Two threads never own the same write lock. *)
Definition own_apart (a b : own) : Prop := o_writes a ##ₘ o_writes b.

(** What a thread claims to have filled it is writing, what it claims to know it
    holds. *)
Definition own_ok (a : own) : Prop :=
  (forall k, k ∈ o_filled a -> is_Some (o_writes a !! k)) /\ (forall ko, ko ∈ o_known a -> ko.1 ∈ o_holds a).

(** The order of claims does not matter. *)
Definition own_equiv (a b : own) : Prop :=
  o_writes a = o_writes b /\ o_holds a = o_holds b /\
  (forall k, k ∈ o_filled a <-> k ∈ o_filled b) /\ (forall ko, ko ∈ o_known a <-> ko ∈ o_known b).
#[export] Instance own_Equiv : Equiv own := own_equiv.

#[export] Instance own_equiv_equivalence : Equivalence (≡@{own}).
Proof.
  split.
  - intros a. done.
  - intros a b (? & ? & ? & ?). split_and!; [done|done|..]; intros; symmetry; auto.
  - intros a b c (H1 & H2 & H3 & H4) (K1 & K2 & K3 & K4).
    split_and!; [congruence|congruence|..]; intros; [rewrite H3; apply K3|rewrite H4; apply K4].
Qed.

#[export] Instance own_add_proper : Proper ((≡) ==> (≡) ==> (≡)) own_add.
Proof.
  intros a a' (H1 & H2 & H3 & H4) b b' (K1 & K2 & K3 & K4). split_and!; simpl.
  - by rewrite H1, K1.
  - by rewrite H2, K2.
  - intros k. by rewrite !elem_of_app, H3, K3.
  - intros ko. by rewrite !elem_of_app, H4, K4.
Qed.

Lemma own_add_comm a b : own_apart a b -> a ⊛ b ≡ b ⊛ a.
Proof.
  intros Hd. split_and!; simpl; [by apply map_union_comm|by rewrite (comm_L (⊎))|..];
    intros; rewrite !elem_of_app; tauto.
Qed.

Lemma own_add_assoc a b c : a ⊛ (b ⊛ c) ≡ a ⊛ b ⊛ c.
Proof.
  split_and!; simpl; [by rewrite (assoc_L (∪))|by rewrite (assoc_L (⊎))|..]; intros; by rewrite (assoc_L (++)).
Qed.

Lemma own_nil_l a : own_nil ⊛ a ≡ a.
Proof. split_and!; simpl; [by rewrite (left_id_L ∅ (∪))|by rewrite (left_id_L ∅ (⊎))|done|done]. Qed.

Lemma own_apart_nil a : own_apart own_nil a.
Proof. apply map_disjoint_empty_l. Qed.

Lemma own_ok_nil : own_ok own_nil.
Proof. split; intros ? H; by apply elem_of_nil in H. Qed.

Lemma own_ok_add a b : own_ok a -> own_ok b -> own_ok (a ⊛ b).
Proof.
  intros [A1 A2] [B1 B2]. split; simpl.
  - intros k [H|H]%elem_of_app; apply lookup_union_is_Some; auto.
  - intros ko [H|H]%elem_of_app; apply gmultiset_elem_of_disj_union; auto.
Qed.

Lemma own_apart_add a b c : own_apart a (b ⊛ c) <-> own_apart a b /\ own_apart a c.
Proof. unfold own_apart. simpl. apply map_disjoint_union_r. Qed.

Lemma own_apart_sym a b : own_apart a b -> own_apart b a.
Proof. apply map_disjoint_sym. Qed.

Lemma own_apart_proper a b b' : b ≡ b' -> own_apart a b -> own_apart a b'.
Proof. unfold own_apart. by intros (<- & _). Qed.

#[export] Program Instance own_resource : Resource own := {
  r_nil := own_nil; r_add := own_add; r_apart := own_apart; r_ok := own_ok
}.
Solve Obligations with
  eauto using own_add_comm, own_add_assoc, own_nil_l, own_apart_nil, own_apart_sym, own_apart_add, own_apart_proper,
    own_ok_nil, own_ok_add.

(** One critical section. *)
Lemma safe_atomic {W B} (Inv : W -> own -> Prop) (G : W -> W -> Prop) (m : M W B) (o : own) Q :
  (forall w oF, own_ok o -> own_ok oF -> own_apart o oF -> Inv w (o ⊛ oF) ->
     exists w' r o', m w = (w', r) /\ own_ok o' /\ own_apart o' oF /\ Inv w' (o' ⊛ oF) /\ G w w' /\ Q r o') ->
  safe Inv G (atomic m) o Q.
Proof. exact (safe_section Inv G m o Q). Qed.

Lemma no_holds_l (H : hold_table) : ∅ ⊎ H = H.
Proof. multiset_solver. Qed.

Lemma multiset_sub_add (H X : hold_table) : (H ⊎ X) ∖ X = H.
Proof. multiset_solver. Qed.

(** ** The manager's operations on what a thread owns *)

Section l1_rules.
Context {R O : Type} `{!Listener R O} (C : ChunkKey -> bytes).
Implicit Types (x : L1 R O) (o oF : own).

Definition l1_owned x (o : own) : Prop :=
  l1_inv C x (o_writes o) (o_holds o) /\
  (forall k tmp obj, k ∈ o_filled o -> o_writes o !! k = Some (tmp, obj) -> byte_array obj (pool_of x) = C k) /\
  (forall ko, ko ∈ o_known o -> exists e, entries x !! ko.1 = Some e /\ entry_obj e = ko.2).

Lemma l1_owned_proper x a b : a ≡ b -> l1_owned x a -> l1_owned x b.
Proof.
  intros (E1 & E2 & E3 & E4) (H1 & H2 & H3). unfold l1_owned. rewrite <- E1, <- E2. split_and!; [done| |].
  - intros k tmp obj Hk%E3. by apply H2.
  - intros ko Hk%E4. by apply H3.
Qed.

Lemma union_apart (a b : own) k v :
  own_apart a b -> o_writes b !! k = Some v -> (o_writes a ∪ o_writes b) !! k = Some v.
Proof.
  intros Hap Hk. rewrite lookup_union_r; [done|].
  destruct (o_writes a !! k) eqn:E; [|done]. by destruct (map_disjoint_spec (o_writes a) (o_writes b)) as [Hd _]; specialize (Hd Hap k _ _ E Hk).
Qed.

(** The outcome of a step: no entry that is still there has moved. *)
Definition l1_to x x' (o : own) : Prop := l1_owned x' o /\ same_slices x x'.

Lemma l1_to_refl x o : l1_owned x o -> l1_to x x o.
Proof. intros H. split; [done|]. intros k e e' H1 H2. congruence. Qed.

Lemma l1_to_proper x x' a b : a ≡ b -> l1_to x x' a -> l1_to x x' b.
Proof. intros E [H1 H2]. split; [by eapply l1_owned_proper|done]. Qed.

(** The claims of the other threads survive a step that moves no slice and
    leaves the slices they write alone. *)
Lemma l1_owned_step x x' o o' oF :
  l1_owned x (o ⊛ oF) -> own_ok oF -> own_apart o oF -> own_ok o' -> own_apart o' oF ->
  l1_inv C x' (o_writes (o' ⊛ oF)) (o_holds (o' ⊛ oF)) -> same_slices x x' ->
  (forall k tmp obj, o_writes oF !! k = Some (tmp, obj) ->
     byte_array obj (pool_of x') = byte_array obj (pool_of x)) ->
  (forall k tmp obj, k ∈ o_filled o' -> o_writes o' !! k = Some (tmp, obj) -> byte_array obj (pool_of x') = C k) ->
  (forall ko, ko ∈ o_known o' -> exists e, entries x' !! ko.1 = Some e /\ entry_obj e = ko.2) ->
  l1_to x x' (o' ⊛ oF).
Proof.
  intros (Hi & Hf & Hk) [Hfw Hkh] Hap [Hfw' _] Hap' Hi' Hsl Hsame Hfill Hkn. split; [|done]. split; [done|]. simpl in *. split.
  - intros k tmp obj [Hin|Hin]%elem_of_app Hw.
    + destruct (Hfw' k Hin) as [v Hv]. rewrite (lookup_union_Some_l _ _ _ _ Hv) in Hw. injection Hw as ->. by eapply Hfill.
    + destruct (Hfw k Hin) as [v Hv]. rewrite (union_apart o' oF k v Hap' Hv) in Hw. injection Hw as ->.
      rewrite (Hsame k tmp obj Hv). apply (Hf k tmp); [apply elem_of_app; by right|by apply union_apart].
  - intros ko [Hin|Hin]%elem_of_app; [by apply Hkn|].
    destruct (Hk ko) as (e & He & Ho); [apply elem_of_app; by right|].
    destruct (lock_inv_held C (pool_of x') (entries x') (o_writes o' ∪ o_writes oF) (o_holds o' ⊎ o_holds oF) ko.1)
      as (e' & He' & _); [apply Hi'|apply gmultiset_elem_of_disj_union; right; by apply Hkh|].
    exists e'. split; [done|]. by rewrite (Hsl _ _ _ He He').
Qed.

(** A step that leaves the pool alone: the thread keeps its claims on what it
    still owns, and may learn what it sees. *)
Lemma l1_owned_keep x x' o o' oF :
  l1_owned x (o ⊛ oF) -> own_ok oF -> own_apart o oF -> own_ok o' -> own_apart o' oF ->
  l1_inv C x' (o_writes (o' ⊛ oF)) (o_holds (o' ⊛ oF)) -> same_frame x x' -> same_slices x x' ->
  (forall k, k ∈ o_filled o' -> k ∈ o_filled o /\ o_writes o' !! k = o_writes o !! k) ->
  (forall ko, ko ∈ o_known o' -> ko ∈ o_known o \/ exists e, entries x' !! ko.1 = Some e /\ entry_obj e = ko.2) ->
  l1_to x x' (o' ⊛ oF).
Proof.
  intros Ho Hok Hap Hok' Hap' Hi' [Hp Hl] Hsl Hfill Hkn. destruct (Ho) as (_ & Hf & Hk).
  apply (l1_owned_step x x' o); try done.
  - by rewrite Hp.
  - intros k tmp obj [Hin Hw]%Hfill Hw'. rewrite Hp. apply (Hf k tmp); [apply elem_of_app; by left|].
    apply lookup_union_Some_l. by rewrite <- Hw.
  - intros ko Hin. destruct (Hkn ko Hin) as [Hin'|]; [|done].
    destruct (Hk ko) as (e & He1 & He2); [apply elem_of_app; by left|].
    destruct Hok' as [_ H2]. destruct Hi' as [_ Hl'].
    destruct (lock_inv_held _ _ _ _ _ ko.1 Hl') as (e' & He' & _);
      [apply gmultiset_elem_of_disj_union; left; by apply H2|].
    exists e'. split; [done|]. by rewrite (Hsl _ _ _ He1 He').
Qed.

Lemma disj_union_swap (H X F : hold_table) : H ⊎ F ⊎ X = H ⊎ X ⊎ F.
Proof. by rewrite <- (assoc_L (⊎)), (comm_L (⊎) F X), (assoc_L (⊎)). Qed.

(** *** Holds *)

Lemma own_reserve_prefix x o oF keys :
  l1_owned x (o ⊛ oF) -> own_ok o -> own_ok oF -> own_apart o oF -> NoDup keys ->
  exists x' n, reserve_read_prefix keys x = (x', Ok n) /\ same_frame x x' /\ observers x' = observers x /\
    let o' := mkOwn (o_writes o) (o_filled o) (o_holds o ⊎ holds_of (take n keys)) (o_known o) in
    own_ok o' /\ l1_to x x' (o' ⊛ oF).
Proof.
  intros Ho Hoo Hok Hap Hnd. destruct (Ho) as (Hi & _ & _).
  destruct (reserve_read_prefix_spec C x _ _ keys Hi Hnd) as (x' & E & Hfr & Hi' & He & Hobs).
  eexists x', _. split_and!; [exact E|done|done|].
  assert (own_ok (mkOwn (o_writes o) (o_filled o)
    (o_holds o ⊎ holds_of (take (prefix_count (key_readable (entries x)) keys) keys)) (o_known o))) as Hok'.
  { destruct Hoo as [H1 H2]. split; [done|]. simpl. intros ko Hin. apply gmultiset_elem_of_disj_union. left. auto. }
  split; [done|]. apply (l1_owned_keep x x' o); try done.
  - simpl in *. by rewrite disj_union_swap in Hi'.
  - eapply same_slices_update; [exact He|auto with pylist|]. intros. apply upd_objs. naive_solver.
  - intros ko Hin. by left.
Qed.

(** The keys a thread gets holds on, with their slices. *)
Definition seen x (keys : list ChunkKey) : list (ChunkKey * MemoryObj) :=
  omap (fun k => pair k <$> read_view (entries x !! k)) keys.

Lemma own_reserve_read x oF keys :
  l1_owned x (own_nil ⊛ oF) -> own_ok oF -> NoDup keys ->
  exists x' r, reserve_read keys x = (x', Ok r) /\ same_frame x x' /\ observers x' = observers x /\
    (forall k, r !! k = if decide (k ∈ keys) then Some (read_view (entries x !! k)) else None) /\
    let o' := mkOwn ∅ [] (holds_of (seen x keys).*1) (seen x keys) in
    own_ok o' /\ l1_to x x' (o' ⊛ oF).
Proof.
  intros Ho Hok Hnd. destruct (Ho) as (Hi & _ & _).
  destruct (reserve_read_spec C x _ _ keys Hi Hnd) as (x' & r & E & Hfr & Hr & Hi' & He & Hobs).
  assert ((seen x keys).*1 = filter (fun k => is_Some (read_view (entries x !! k))) keys) as Hseen.
  { clear. unfold seen. induction keys as [|k keys IH]; [done|]. simpl. rewrite filter_cons.
    destruct (read_view (entries x !! k)) as [obj|]; simpl.
    - f_equal. exact IH.
    - exact IH. }
  assert (own_ok (mkOwn ∅ [] (holds_of (seen x keys).*1) (seen x keys))) as Hok'.
  { split; simpl; [intros k Hk; by apply elem_of_nil in Hk|]. intros ko Hin.
    apply elem_of_multiplicity. rewrite multiplicity_holds_of by (rewrite Hseen; by apply NoDup_filter).
    rewrite decide_True; [lia|]. apply list_elem_of_fmap. eauto. }
  exists x', r. split_and!; [done|done|done|done|]. split; [done|].
  assert (same_slices x x') as Hsl.
  { eapply same_slices_update; [exact He|done|]. intros. apply upd_objs. naive_solver. }
  apply (l1_owned_keep x x' own_nil); try done.
  - apply own_apart_nil.
  - apply own_apart_nil.
  - simpl in *. rewrite Hseen, (comm_L (⊎) (holds_of _)). by rewrite no_holds_l in Hi'.
  - intros [k obj] Hin. right. simpl in *. unfold seen in Hin. apply list_elem_of_omap in Hin as (k' & Hk' & Hv).
    destruct (read_view (entries x !! k')) as [obj'|] eqn:Erv; [|done]. injection Hv as -> ->.
    unfold read_view in Erv. destruct (entries x !! k) as [e|] eqn:Ek; [|done].
    destruct (readable e) eqn:Er; [|done]. injection Erv as <-.
    exists (add_read_count 1 e). split; [|done]. rewrite He, update_keys_lookup, decide_True by done.
    unfold upd_hold. rewrite Ek. simpl. by rewrite Er.
Qed.

Lemma own_finish_read x W F Hd keys K oF :
  let o := mkOwn W F (Hd ⊎ holds_of keys) K in
  l1_owned x (o ⊛ oF) -> own_ok o -> own_ok oF -> own_apart o oF -> NoDup keys ->
  exists x', finish_read keys x = (x', Ok tt) /\ same_frame x x' /\
    observers x' = announced (kept upd_release (entries x) keys) (gone upd_release (entries x) keys) x /\
    own_ok (mkOwn W F Hd []) /\ l1_to x x' (mkOwn W F Hd [] ⊛ oF).
Proof.
  intros o Ho [Hoo _] Hok Hap Hnd. destruct (Ho) as (Hi & _ & _). subst o. simpl in Hi.
  rewrite <- disj_union_swap in Hi.
  destruct (finish_read_spec C x _ _ keys Hi Hnd) as (x' & E & Hfr & Hi' & He & Hobs).
  { intros k Hk. apply gmultiset_elem_of_disj_union. right. apply elem_of_multiplicity.
    rewrite multiplicity_holds_of, decide_True by done. lia. }
  rewrite multiset_sub_add in Hi'.
  assert (own_ok (mkOwn W F Hd [])) as Hok' by (split; [done|intros ko Hin; by apply elem_of_nil in Hin]).
  exists x'. split_and!; [done|done|done|done|].
  apply (l1_owned_keep x x' (mkOwn W F (Hd ⊎ holds_of keys) K)); try done.
  - eapply same_slices_update; [exact He|done|]. intros. apply upd_objs. naive_solver.
  - simpl. intros ko Hin. by apply elem_of_nil in Hin.
Qed.

(** *** Writes *)

Lemma add_writes_union tmp kos (W WF : write_table) : add_writes tmp kos (W ∪ WF) = add_writes tmp kos W ∪ WF.
Proof.
  revert W. induction kos as [|ko kos IH]; intros W; [done|]. unfold add_writes in *. simpl.
  by rewrite insert_union_l, IH.
Qed.

Lemma del_writes_union keys (W WF : write_table) :
  W ##ₘ WF -> (forall k, k ∈ keys -> is_Some (W !! k)) -> del_writes keys (W ∪ WF) = del_writes keys W ∪ WF.
Proof.
  intros Hd Hk. apply map_eq. intros k. rewrite del_writes_lookup.
  destruct (W !! k) as [v|] eqn:E.
  - case_decide as Hin.
    + symmetry. apply lookup_union_None. rewrite del_writes_lookup, decide_True by done. split; [done|].
      destruct (WF !! k) eqn:EF; [|done]. exfalso. rewrite map_disjoint_spec in Hd. by apply (Hd k v p).
    + rewrite (lookup_union_Some_l _ _ _ _ E). symmetry. apply lookup_union_Some_l.
      by rewrite del_writes_lookup, decide_False.
  - assert (k ∉ keys) as Hin by (intros Hin; destruct (Hk k Hin); congruence).
    rewrite decide_False by done. rewrite !lookup_union, del_writes_lookup, decide_False by done. by rewrite E.
Qed.

Lemma del_writes_apart keys W o oF : own_apart o oF -> o_writes o = W ->
  del_writes keys W ##ₘ o_writes oF.
Proof.
  intros Hap <-. apply map_disjoint_spec. intros k v w Hv Hw. rewrite del_writes_lookup in Hv. case_decide; [done|].
  unfold own_apart in Hap. rewrite map_disjoint_spec in Hap. by apply (Hap k v w).
Qed.

Lemma same_slices_insert kos tmp x x' :
  entries x' = foldl (fun m ko => <[ko.1 := mkEntry ko.2 true 0 tmp]> m) (entries x) kos ->
  (forall k, k ∈ kos.*1 -> entries x !! k = None) -> same_slices x x'.
Proof.
  intros He Hk k e e' H1 H2.
  assert (k ∉ kos.*1) as Hn by (intros Hin; rewrite (Hk k Hin) in H1; done).
  enough (entries x' !! k = entries x !! k) by congruence. rewrite He. clear - Hn.
  generalize (entries x). induction kos as [|ko kos IH]; intros m; [done|]. csimpl in *.
  apply not_elem_of_cons in Hn as [Hne Hn]. rewrite IH by done. by rewrite lookup_insert_ne.
Qed.

Lemma own_reserve_write x o oF keys n tmp :
  l1_owned x (o ⊛ oF) -> own_ok o -> own_ok oF -> own_apart o oF -> NoDup keys -> (0 <= n)%Z ->
  exists x' r, reserve_write keys n tmp x = (x', Ok r) /\ same_frame x x' /\ observers x' = observers x /\
    ((l1_to x x' (o ⊛ oF) /\ forall k, k ∈ keys -> r !! k = Some None) \/
     (exists kos, NoDup kos.*1 /\ Forall (fun ko => obj_nbytes ko.2 = n) kos /\
        (forall k, k ∈ kos.*1 -> k ∈ keys) /\ kos.*1 = filter (fun k => k ∈ kos.*1) keys /\
        (forall k, k ∈ keys -> r !! k = Some ((list_to_map kos : gmap ChunkKey MemoryObj) !! k)) /\
        (forall k, k ∈ kos.*1 -> o_writes o !! k = None) /\
        let o' := mkOwn (add_writes tmp kos (o_writes o)) (o_filled o) (o_holds o) (o_known o) in
        own_ok o' /\ own_apart o' oF /\ l1_to x x' (o' ⊛ oF))).
Proof.
  intros Ho Hoo Hok Hap Hnd Hn. destruct (Ho) as (Hi & _ & _).
  destruct (reserve_write_spec C x _ _ keys n tmp Hi Hnd Hn)
    as (x' & r & E & Hfr & Hobs & [(He & Hi' & Hr & _ & _)|(kos & Hk & Hsz & Hi' & Hr1 & Hr2 & He)]);
    exists x', r; split_and!; try done.
  - left. split; [|intros k Hk; by rewrite Hr, decide_True].
    apply (l1_owned_keep x x' o); try done; [|intros ko Hin; by left].
    intros k e e' H1 H2. rewrite He in H2. congruence.
  - right. exists kos.
    assert (forall k, k ∈ kos.*1 -> entries x !! k = None /\ k ∈ keys) as Hks
      by (intros k; rewrite Hk; by rewrite list_elem_of_filter).
    assert (NoDup kos.*1) as Hndk by (rewrite Hk; by apply NoDup_filter).
    assert (forall k, k ∈ kos.*1 -> o_writes o !! k = None /\ o_writes oF !! k = None) as Hfresh.
    { intros k Hin. destruct (Hks k Hin) as [Hnone _]. destruct Hi as [_ Hl].
      destruct (lock_inv_absent _ _ _ _ _ k Hl Hnone) as [Hw _]. by apply lookup_union_None in Hw. }
    assert (forall k, k ∉ kos.*1 -> add_writes tmp kos (o_writes o) !! k = o_writes o !! k) as Hother
      by (intros; by apply add_writes_notin).
    split_and!; [done|done|intros k Hin; by apply Hks| | |intros k Hin; by apply Hfresh|].
    { rewrite Hk at 1. apply list_filter_iff_in. intros k Hin. rewrite Hk, list_elem_of_filter. tauto. }
    { intros k Hin. destruct (decide (k ∈ kos.*1)) as [Hin'|Hin'].
      - apply list_elem_of_fmap in Hin' as ([k' obj] & -> & Hin'). simpl in *.
        rewrite (Hr1 _ _ Hin'). by rewrite (elem_of_list_to_map_1 kos k' obj).
      - rewrite (Hr2 k Hin) by (by rewrite <- Hk). by rewrite (not_elem_of_list_to_map_1 kos k). }
    assert (own_ok (mkOwn (add_writes tmp kos (o_writes o)) (o_filled o) (o_holds o) (o_known o))) as Hok'.
    { destruct Hoo as [H1 H2]. split; [|done]. simpl. intros k Hin. destruct (H1 k Hin) as [v Hv]. exists v.
      rewrite Hother; [done|]. intros Hin'. destruct (Hfresh k Hin'). congruence. }
    assert (own_apart (mkOwn (add_writes tmp kos (o_writes o)) (o_filled o) (o_holds o) (o_known o)) oF) as Hap'.
    { apply map_disjoint_spec. simpl. intros k v w Hv Hw. destruct (decide (k ∈ kos.*1)) as [Hin|Hin].
      - destruct (Hfresh k Hin). congruence.
      - rewrite Hother in Hv by done. unfold own_apart in Hap. rewrite map_disjoint_spec in Hap. by apply (Hap k v w). }
    split; [done|]. split; [done|]. apply (l1_owned_keep x x' o); try done.
    + simpl in *. by rewrite <- add_writes_union.
    + eapply same_slices_insert; [exact He|]. intros k Hin. by apply Hks.
    + simpl. intros k Hin. split; [done|]. apply Hother. intros Hin'.
      destruct Hoo as [H1 _]. destruct (H1 k Hin) as [v Hv]. destruct (Hfresh k Hin'). congruence.
    + intros ko Hin. by left.
Qed.

(** Writing one's own slice. *)
Lemma own_assign x o oF k tmp obj :
  l1_owned x (o ⊛ oF) -> own_ok o -> own_ok oF -> own_apart o oF ->
  o_writes o !! k = Some (tmp, obj) -> length (C k) = v_len (mo_tensor obj) ->
  exists x', assign_obj obj (C k) x = (x', Ok tt) /\ observers x' = observers x /\
    let o' := mkOwn (o_writes o) (k :: o_filled o) (o_holds o) (o_known o) in
    own_ok o' /\ l1_to x x' (o' ⊛ oF).
Proof.
  intros Ho Hoo Hok Hap Hw Hlen. destruct (Ho) as (Hi & Hf & Hkn).
  assert (forall k' v, o_writes o !! k' = Some v -> o_writes (o ⊛ oF) !! k' = Some v) as Hl
    by (intros; by apply lookup_union_Some_l).
  destruct (assign_obj_spec C x _ _ k tmp obj (C k) Hi (Hl _ _ Hw) Hlen)
    as (x' & E & Hi' & Hli & Hobs & He & Hcap & Hself & Hoth).
  assert (forall k' tmp' obj', k' <> k -> o_writes (o ⊛ oF) !! k' = Some (tmp', obj') ->
    byte_array obj' (pool_of x') = byte_array obj' (pool_of x)) as Hrest.
  { intros k' tmp' obj' Hne Hw'. destruct Hi as [_ Hlk].
    destruct (lock_inv_written _ _ _ _ _ _ _ _ Hlk Hw') as (e & He' & _ & _ & <- & _). by apply (Hoth k'). }
  assert (own_ok (mkOwn (o_writes o) (k :: o_filled o) (o_holds o) (o_known o))) as Hok'.
  { destruct Hoo as [H1 H2]. split; [|done]. simpl. intros k' [->|Hin]%elem_of_cons; [eauto|auto]. }
  exists x'. split_and!; [done|done|]. split; [done|].
  apply (l1_owned_step x x' o); try done.
  - intros k' e e' H1 H2. rewrite He in H2. congruence.
  - intros k' tmp' obj' Hw'. apply (Hrest k' tmp'); [|by apply union_apart].
    intros ->. unfold own_apart in Hap. rewrite map_disjoint_spec in Hap. by apply (Hap k (tmp, obj) (tmp', obj')).
  - simpl. intros k' tmp' obj' [->|Hin]%elem_of_cons Hw'; [rewrite Hw in Hw'; by injection Hw' as <- <-|].
    destruct (decide (k' = k)) as [->|Hne]; [rewrite Hw in Hw'; by injection Hw' as <- <-|].
    rewrite (Hrest k' tmp' obj' Hne (Hl _ _ Hw')). apply (Hf k' tmp'); [apply elem_of_app; by left|by apply Hl].
  - simpl. intros ko Hin. rewrite He. apply Hkn, elem_of_app. by left.
Qed.

(** What is left after giving up the write locks [keys]. *)
Definition own_done (keys : list ChunkKey) (W : write_table) (H : hold_table) (K : list (ChunkKey * MemoryObj)) : own :=
  mkOwn (del_writes keys W) [] H K.

Lemma own_done_ok keys W H K : (forall ko, ko ∈ K -> ko.1 ∈ H) -> own_ok (own_done keys W H K).
Proof. intros HK. split; [intros k Hk; by apply elem_of_nil in Hk|done]. Qed.

Lemma own_done_apart keys o H K oF : own_apart o oF -> own_apart (own_done keys (o_writes o) H K) oF.
Proof. intros Hap. by apply (del_writes_apart keys _ o). Qed.

Lemma own_finish_write x o oF keys :
  l1_owned x (o ⊛ oF) -> own_ok o -> own_ok oF -> own_apart o oF -> NoDup keys ->
  (forall k, k ∈ keys -> k ∈ o_filled o /\ exists obj, o_writes o !! k = Some (false, obj)) ->
  exists x', finish_write keys x = (x', Ok tt) /\ same_frame x x' /\
    observers x' = notified on_write_finished keys (set_observers (notified on_created keys x) x) /\
    let o' := own_done keys (o_writes o) (o_holds o) (o_known o) in
    own_ok o' /\ own_apart o' oF /\ l1_to x x' (o' ⊛ oF).
Proof.
  intros Ho [Hoo1 Hoo2] Hok Hap Hnd Hks. destruct (Ho) as (Hi & Hf & _).
  destruct (finish_write_spec C x _ _ keys Hi Hnd) as (x' & E & Hfr & Hi' & He & Hobs).
  { intros k Hk. destruct (Hks k Hk) as [Hfk [obj Hw]]. exists false, obj.
    assert (o_writes (o ⊛ oF) !! k = Some (false, obj)) as Hw' by by apply lookup_union_Some_l.
    split; [done|]. split; [apply (Hf k false); [apply elem_of_app; by left|done]|].
    intros e Hek. destruct Hi as [_ Hl].
    destruct (lock_inv_written _ _ _ _ _ _ _ _ Hl Hw') as (e' & He' & _ & _ & _ & _ & Ht).
    rewrite Hek in He'. injection He' as <-. destruct (is_temporary e); [by specialize (Ht eq_refl)|done]. }
  exists x'. split_and!; [done|done|done|]. split; [by apply own_done_ok|]. split; [by apply own_done_apart|].
  apply (l1_owned_keep x x' o); try done; [by apply own_done_ok|by apply own_done_apart| | | |].
  - simpl in *. rewrite del_writes_union in Hi'; [done|done|]. intros k Hk. destruct (Hks k Hk) as [_ [obj Hw]]. eauto.
  - eapply same_slices_update; [exact He|done|]. intros. apply upd_objs. naive_solver.
  - intros k Hk. by apply elem_of_nil in Hk.
  - intros ko Hin. by left.
Qed.

Lemma own_finish_write_held x o oF keys :
  l1_owned x (o ⊛ oF) -> own_ok o -> own_ok oF -> own_apart o oF -> NoDup keys ->
  (forall k, k ∈ keys -> k ∈ o_filled o) ->
  exists x', finish_write_and_reserve_read keys x = (x', Ok tt) /\ same_frame x x' /\
    observers x' = notified on_created keys x /\
    let o' := own_done keys (o_writes o) (o_holds o ⊎ holds_of keys) (o_known o) in
    own_ok o' /\ own_apart o' oF /\ l1_to x x' (o' ⊛ oF).
Proof.
  intros Ho [Hoo1 Hoo2] Hok Hap Hnd Hks. destruct (Ho) as (Hi & Hf & _).
  destruct (finish_write_and_reserve_read_spec C x _ _ keys Hi Hnd) as (x' & E & Hfr & Hi' & He & Hobs).
  { intros k Hk. destruct (Hoo1 k (Hks k Hk)) as [[tmp obj] Hw]. exists tmp, obj.
    assert (o_writes (o ⊛ oF) !! k = Some (tmp, obj)) as Hw' by by apply lookup_union_Some_l.
    split; [done|]. apply (Hf k tmp); [apply elem_of_app; left; by apply Hks|done]. }
  assert (own_ok (own_done keys (o_writes o) (o_holds o ⊎ holds_of keys) (o_known o))) as Hok'.
  { apply own_done_ok. intros ko Hin. apply gmultiset_elem_of_disj_union. left. auto. }
  exists x'. split_and!; [done|done|done|]. split; [done|]. split; [by apply own_done_apart|].
  apply (l1_owned_keep x x' o); try done; [by apply own_done_apart| | | |].
  - simpl in *. rewrite del_writes_union, disj_union_swap in Hi'; [done|done|]. intros k Hk. auto.
  - eapply same_slices_update; [exact He|done|]. intros. apply upd_objs. naive_solver.
  - intros k Hk. by apply elem_of_nil in Hk.
  - intros ko Hin. by left.
Qed.

(** Giving up one's own slices, filled or not. *)
Lemma own_delete_force x o oF keys :
  l1_owned x (o ⊛ oF) -> own_ok o -> own_ok oF -> own_apart o oF -> NoDup keys ->
  (forall k, k ∈ keys -> is_Some (o_writes o !! k)) ->
  exists x' n, delete_keys keys true x = (x', Ok n) /\ same_frame x x' /\
    (exists removed, observers x' = announced [] removed x) /\
    let o' := own_done keys (o_writes o) (o_holds o) (o_known o) in
    own_ok o' /\ own_apart o' oF /\ l1_to x x' (o' ⊛ oF).
Proof.
  intros Ho [Hoo1 Hoo2] Hok Hap Hnd Hks. destruct (Ho) as (Hi & Hf & _).
  destruct (delete_spec C true x _ _ keys Hi Hnd) as (x' & E & Hfr & Hi' & He & Hobs).
  { intros k Hk e _ _ _. destruct (Hks k Hk) as [v Hv]. exists v. by apply lookup_union_Some_l. }
  eexists x', _. split_and!; [exact E|done|by eexists|]. split; [by apply own_done_ok|]. split; [by apply own_done_apart|].
  apply (l1_owned_keep x x' o); try done; [by apply own_done_ok|by apply own_done_apart| | | |].
  - simpl in *. rewrite del_writes_union in Hi'; [done|done|done].
  - eapply same_slices_update; [exact He|done|]. intros. apply upd_objs. eauto 10.
  - intros k Hk. by apply elem_of_nil in Hk.
  - intros ko Hin. by left.
Qed.

(** Evicting and promoting need no ownership. *)
Lemma own_delete x o oF keys :
  l1_owned x (o ⊛ oF) -> own_ok o -> own_ok oF -> own_apart o oF -> NoDup keys ->
  exists x' n, delete_keys keys false x = (x', Ok n) /\ same_frame x x' /\
    (exists removed, observers x' = announced [] removed x) /\ l1_to x x' (o ⊛ oF).
Proof.
  intros Ho Hoo Hok Hap Hnd. destruct (Ho) as (Hi & Hf & _).
  destruct (delete_spec C false x _ _ keys Hi Hnd) as (x' & E & Hfr & Hi' & He & Hobs); [by intros k Hk e _ _ ?|].
  eexists x', _. split_and!; [exact E|done|by eexists|].
  apply (l1_owned_keep x x' o); try done.
  - eapply same_slices_update; [exact He|done|]. intros. apply upd_objs. eauto 10.
  - intros ko Hin. by left.
Qed.

Lemma own_promote x o oF keys :
  l1_owned x (o ⊛ oF) -> own_ok o -> own_ok oF -> own_apart o oF -> NoDup keys ->
  exists x', promote keys x = (x', Ok tt) /\ same_frame x x' /\ observers x' = observers x /\
    l1_to x x' (o ⊛ oF).
Proof.
  intros Ho Hoo Hok Hap Hnd. destruct (Ho) as (Hi & Hf & _).
  destruct (promote_spec C x _ _ keys Hi Hnd) as (x' & E & Hfr & Hi' & He & Hobs).
  exists x'. split_and!; [done|done|done|].
  apply (l1_owned_keep x x' o); try done.
  - eapply same_slices_update; [exact He|done|]. intros. apply upd_objs. naive_solver.
  - intros ko Hin. by left.
Qed.
End l1_rules.
