(* ===== verification/KVFormat.v ===== *)
(** KV cache layouts (l0/kv_format.py): detection from the shape of a tensor
    and normalisation to block-first order.

    A tensor is its shape and its elements by index; [movedim(1, 0)] is a view
    that swaps the first two dimensions. *)
From S2P Require Import Prelude.
Local Open Scope py_scope.
Local Open Scope Z_scope.

Inductive GPUKVFormat := FA_BLOCK_FIRST | FA_KV_FIRST | FA_SPLIT | MLA.

#[export] Instance GPUKVFormat_eq_dec : EqDecision GPUKVFormat.
Proof. solve_decision. Defined.

(** [num_blocks is None or shape[0] == num_blocks] *)
Definition blocks_match (num_blocks : option Z) (d : Z) : bool :=
  match num_blocks with None => true | Some n => d =? n end.

Definition detect (shape : list Z) (num_blocks : option Z) : res GPUKVFormat :=
  let n := Zlen shape in
  let d0 := default 0 (shape !! 0%nat) in
  let d1 := default 0 (shape !! 1%nat) in
  if (n =? 5) && (d1 =? 2) && blocks_match num_blocks d0 then Ok FA_BLOCK_FIRST
  else if (n =? 5) && (d0 =? 2) then Ok FA_KV_FIRST
  else if n =? 4 then Ok FA_SPLIT
  else if (n =? 3) && blocks_match num_blocks d0 then Ok MLA
  else Raise ValueError.

Record tensor (E : Type) := mkTensor { shape : list Z; at_index : list Z -> E }.
Arguments mkTensor {E} shape at_index.
Arguments shape {E} t.
Arguments at_index {E} t.

(** [t.movedim(1, 0)]; fewer than two dimensions raise. *)
Definition movedim_1_0 {E} (t : tensor E) : res (tensor E) :=
  match shape t with
  | a :: b :: rest =>
      Ok (mkTensor (b :: a :: rest)
            (fun i => match i with x :: y :: i' => at_index t (y :: x :: i') | _ => at_index t i end))
  | _ => Raise IndexError
  end.

Fixpoint res_map {X Y} (f : X -> res Y) (l : list X) : res (list Y) :=
  match l with
  | [] => Ok []
  | x :: l' => let? y := f x in let? ys := res_map f l' in Ok (y :: ys)
  end.

(** [normalize]; [tensors[0]] of an empty list raises. *)
Definition normalize {E} (tensors : list (tensor E)) (num_blocks : option Z)
    : res (list (tensor E)) :=
  match tensors with
  | [] => Raise IndexError
  | t :: _ =>
      let? fmt := detect (shape t) num_blocks in
      if decide (fmt = FA_KV_FIRST) then res_map movedim_1_0 tensors else Ok tensors
  end.

(** ** What detection decides *)

(** The shapes each layout admits, written as the module documents them. *)
Definition layout_shape (f : GPUKVFormat) (num_blocks : option Z) (s : list Z) : Prop :=
  match f with
  | FA_BLOCK_FIRST => exists nb bs nh hs, s = [nb; 2; bs; nh; hs] /\ blocks_match num_blocks nb = true
  | FA_KV_FIRST => exists nb bs nh hs, s = [2; nb; bs; nh; hs]
  | FA_SPLIT => exists nb bs nh hs, s = [nb; bs; nh; hs]
  | MLA => exists nb bs hs, s = [nb; bs; hs] /\ blocks_match num_blocks nb = true
  end.

Lemma shape_5 (s : list Z) : Zlen s = 5 -> exists a b c d e, s = [a; b; c; d; e].
Proof. destruct s as [|a [|b [|c [|d [|e [|]]]]]]; unfold Zlen; simpl; try lia. by eauto 10. Qed.
Lemma shape_4 (s : list Z) : Zlen s = 4 -> exists a b c d, s = [a; b; c; d].
Proof. destruct s as [|a [|b [|c [|d [|]]]]]; unfold Zlen; simpl; try lia. by eauto 10. Qed.
Lemma shape_3 (s : list Z) : Zlen s = 3 -> exists a b c, s = [a; b; c].
Proof. destruct s as [|a [|b [|c [|]]]]; unfold Zlen; simpl; try lia. by eauto 10. Qed.

(** Refuting that a shape has some layout. *)
Ltac no_layout :=
  try match goal with Hs : layout_shape ?f _ _ |- _ => try (is_var f; destruct f); simpl in Hs end;
  repeat match goal with
         | H : ex _ |- _ => destruct H as [? H]
         | H : _ /\ _ |- _ => destruct H
         end;
  simplify_eq; try congruence; exfalso; unfold Zlen in *; simpl in *; lia.


(** Normalisation of a KV-first cache gives tensors whose first dimension
    is the block, with element [(block, kv, ...)] equal to [(kv, block, ...)] of
    the original; every other layout is returned as it is. *)
Lemma normalize_block_first {E} (tensors : list (tensor E)) num_blocks f :
  (exists t rest, tensors = t :: rest /\ detect (shape t) num_blocks = Ok f) ->
  (f = FA_KV_FIRST -> Forall (fun t => exists nb bs nh hs, shape t = [2; nb; bs; nh; hs]) tensors) ->
  exists out, normalize tensors num_blocks = Ok out /\
    if decide (f = FA_KV_FIRST) then
      Forall2 (fun t t' => shape t' = default 0 (shape t !! 1%nat) :: 2 :: drop 2 (shape t) /\
        forall b kv i, at_index t' (b :: kv :: i) = at_index t (kv :: b :: i)) tensors out
    else out = tensors.
Proof.
  intros (t & rest & -> & Hd) Hall. unfold normalize. rewrite Hd. cbn [res_bind].
  destruct (decide (f = FA_KV_FIRST)) as [->|]; [|by eauto].
  specialize (Hall eq_refl). clear Hd. revert Hall. generalize (t :: rest). intros l Hall.
  induction Hall as [|t' ts (nb & bs & nh & hs & Ht) _ IH].
  - exists []. split; [done|constructor].
  - destruct IH as (out & Eo & Ho). simpl. unfold movedim_1_0 at 1. rewrite Ht, Eo. simpl.
    eexists. split; [reflexivity|]. constructor; [|done]. rewrite Ht. by split.
Qed.

(** The docstring says a leading 2 alone makes a layout KV-first; two padded
    blocks are taken for block-first. *)
Example leading_two_alone : detect [2; 2; 128; 8; 128] None = Ok FA_BLOCK_FIRST.
Proof. reflexivity. Qed.

Lemma normalize_block_first_witness :
  let t := mkTensor [2; 4; 3; 2; 2] (fun i => i) in
  exists out, normalize [t] (Some 4) = Ok out /\
    Forall2 (fun t t' => shape t' = default 0 (shape t !! 1%nat) :: 2 :: drop 2 (shape t) /\
        forall b kv i, at_index t' (b :: kv :: i) = at_index t (kv :: b :: i)) [t] out.
Proof.
  intros t. destruct (normalize_block_first [t] (Some 4) FA_KV_FIRST) as (out & E & H).
  - exists t, []. split; reflexivity.
  - intros _. constructor; [|constructor]. by exists 4, 3, 2, 2.
  - exists out. split; [exact E|exact H].
Defined.
