(* ===== verification/Transfer.v ===== *)
(** Transfers between the KV cache and host memory (l0/transfer.py).

    A KV tensor is the list of its blocks' bytes.  A staging slot holds one
    chunk: for each layer, the blocks of the chunk back to back; the typed
    layer views of the code are slices of it.  Streams and events order the
    device work of one call so that each copy sees the previous kernel's result;
    the model runs the operations of a call in that order. *)
From S2P Require Import Prelude Memory KVFormat.
Local Open Scope py_scope.
Local Open Scope Z_scope.

Notation layer := (list bytes) (only parsing).

Record Pipeline := mkPipeline {
  staging : list bytes;
  cpu_bufs : list bytes
}.

Record KVTransfer := mkKVTransfer {
  rank : Z;
  kv_caches : list layer;
  blocks_per_chunk : Z;
  block_nbytes : Z;
  chunk_nbytes : Z;
  d2h : Pipeline;
  h2d : Pipeline
}.

Definition set_kv (kv : list layer) (t : KVTransfer) : KVTransfer :=
  mkKVTransfer (rank t) kv (blocks_per_chunk t) (block_nbytes t) (chunk_nbytes t) (d2h t) (h2d t).
Definition set_d2h (p : Pipeline) (t : KVTransfer) : KVTransfer :=
  mkKVTransfer (rank t) (kv_caches t) (blocks_per_chunk t) (block_nbytes t) (chunk_nbytes t) p (h2d t).
Definition set_h2d (p : Pipeline) (t : KVTransfer) : KVTransfer :=
  mkKVTransfer (rank t) (kv_caches t) (blocks_per_chunk t) (block_nbytes t) (chunk_nbytes t) (d2h t) p.

(** Three staging buffers of arbitrary initial contents. *)
Definition new_pipeline (chunk_nbytes : Z) : Pipeline :=
  let buf := replicate (Z.to_nat chunk_nbytes) Byte.x00 in
  mkPipeline [buf; buf; buf] [buf; buf; buf].

(** [KVTransfer.__init__]; viewing a slot as the blocks of a layer needs
    layers of one block size. *)
Definition new_transfer (kv : list layer) (block_size chunk_size rank : Z) : res KVTransfer :=
  match kv with
  | (b0 :: _) :: _ =>
      let? bpc := py_floordiv chunk_size block_size in
      let bn := Zlen b0 in
      let cn := Zlen kv * bpc * bn in
      if forallb (forallb (fun b => Zlen b =? bn)) kv
      then Ok (mkKVTransfer rank kv bpc bn cn (new_pipeline cn) (new_pipeline cn))
      else Raise RuntimeError
  | _ => Raise IndexError
  end.

(** [torch.index_select(kv, 0, ids)] *)
Definition index_select (kv : layer) (ids : list Z) : res (list bytes) :=
  res_map (fun id => if id <? 0 then Raise IndexError
                     else match kv !! Z.to_nat id with Some b => Ok b | None => Raise IndexError end) ids.

(** [kv.index_copy_(0, ids, src)] *)
Definition index_copy (kv : layer) (ids : list Z) (src : list bytes) : res layer :=
  if decide (length ids = length src) then
    if forallb (fun id => (0 <=? id) && (id <? Zlen kv)) ids
    then Ok (foldl (fun kv p => <[Z.to_nat p.1 := p.2]> kv) kv (zip ids src))
    else Raise IndexError
  else Raise RuntimeError.

Section geometry.
Context (bpc bn : nat).

(** Where layer [l] starts in a slot, writing its blocks, reading them. *)
Definition write_layer (l : nat) (blocks : list bytes) (slot : bytes) : bytes :=
  view_write (mkView (l * bpc * bn) (length (concat blocks))) (concat blocks) slot.
Definition layer_blocks (l : nat) (slot : bytes) : list bytes :=
  (fun b => take bn (drop ((l * bpc + b) * bn) slot)) <$> seq 0 bpc.

(** The loop over the layers of one chunk of [to_host]. *)
Fixpoint gather (l : nat) (kvs : list layer) (ids : list Z) (slot : bytes) : res bytes :=
  match kvs with
  | [] => Ok slot
  | kv :: kvs' =>
      let? blocks := index_select kv ids in
      gather (S l) kvs' ids (write_layer l blocks slot)
  end.

(** The loop over the layers of one chunk of [from_host]; layers already
    written stay written when a later one raises. *)
Fixpoint scatter (l : nat) (kvs : list layer) (ids : list Z) (skip : Z) (slot : bytes)
    : list layer * res unit :=
  match kvs with
  | [] => ([], Ok tt)
  | kv :: kvs' =>
      match index_copy kv ids (py_drop skip (layer_blocks l slot)) with
      | Raise e => (kv :: kvs', Raise e)
      | Ok kv' => let (rest, r) := scatter (S l) kvs' ids skip slot in (kv' :: rest, r)
      end
  end.
End geometry.

(** [buf[:] = np.frombuffer(blob)]: equal sizes, or one byte broadcast. *)
Definition np_assign (buf blob : bytes) : res bytes :=
  if Zlen blob =? 0 then Raise ValueError
  else if Zlen blob =? Zlen buf then Ok blob
  else match blob with [b] => Ok (replicate (length buf) b) | _ => Raise ValueError end.

Definition slot_of (i : nat) : nat := i mod 3.
Definition buf_at (bufs : list bytes) (i : nat) : bytes :=
  match bufs !! i with Some b => b | None => [] end.

(** [block_ids[i * n + skip : (i + 1) * n]] *)
Definition chunk_ids (n : Z) (i : nat) (skip : Z) (block_ids : list Z) : list Z :=
  py_slice (Z.of_nat i * n + skip) ((Z.of_nat i + 1) * n) block_ids.

(** One iteration of [to_host]. *)
Definition to_host_one (block_ids : list Z) (chunks : list bytes) (i : nat)
    : M KVTransfer (list bytes) := fun t =>
  let buf := slot_of i in
  let ids := chunk_ids (blocks_per_chunk t) i 0 block_ids in
  match gather (Z.to_nat (blocks_per_chunk t)) (Z.to_nat (block_nbytes t)) 0 (kv_caches t) ids
          (buf_at (staging (d2h t)) buf) with
  | Raise e => (t, Raise e)
  | Ok slot =>
      (set_d2h (mkPipeline (<[buf := slot]> (staging (d2h t)))
                           (<[buf := slot]> (cpu_bufs (d2h t)))) t, Ok (chunks ++ [slot]))
  end.

Definition to_host (block_ids : list Z) : M KVTransfer (list bytes) :=
  let* t := get in
  let* r := lift_res (py_mod (Zlen block_ids) (blocks_per_chunk t)) in
  if r =? 0 then
    let* n := lift_res (py_floordiv (Zlen block_ids) (blocks_per_chunk t)) in
    for_acc (seq 0 (Z.to_nat n)) [] (to_host_one block_ids)
  else raise AssertionError.

(** One iteration of [from_host]. *)
Definition from_host_one (block_ids : list Z) (skip_blocks : Z) (i : nat) (blob : bytes)
    : M KVTransfer unit := fun t =>
  let buf := slot_of i in
  match np_assign (buf_at (cpu_bufs (h2d t)) buf) blob with
  | Raise e => (t, Raise e)
  | Ok data =>
      let skip := if Nat.eqb i 0 then skip_blocks else 0 in
      let ids := chunk_ids (blocks_per_chunk t) i skip block_ids in
      let t1 := set_h2d (mkPipeline (<[buf := data]> (staging (h2d t)))
                                    (<[buf := data]> (cpu_bufs (h2d t)))) t in
      let (kv', r) := scatter (Z.to_nat (blocks_per_chunk t)) (Z.to_nat (block_nbytes t)) 0
                        (kv_caches t) ids skip data in
      (set_kv kv' t1, r)
  end.

Fixpoint from_host_loop (block_ids : list Z) (skip_blocks : Z) (i : nat) (chunks : list bytes)
    : M KVTransfer unit :=
  match chunks with
  | [] => ret tt
  | blob :: chunks' =>
      let* _ := from_host_one block_ids skip_blocks i blob in
      from_host_loop block_ids skip_blocks (S i) chunks'
  end.

Definition from_host (chunks : list bytes) (block_ids : list Z) (skip_blocks : Z)
    : M KVTransfer unit :=
  let* t := get in
  let* r := lift_res (py_mod (Zlen block_ids) (blocks_per_chunk t)) in
  if r =? 0 then from_host_loop block_ids skip_blocks 0 chunks
  else raise AssertionError.

(** ** DeviceFuture *)

(** The future of the RPC by its uid, the done event by its index. *)
Record DeviceFuture := mkDeviceFuture {
  df_future : Z;
  df_device_index : Z;
  df_done_event : option nat
}.

Definition df_done (future_done : Z -> bool) (is_set : nat -> bool) (f : DeviceFuture) : bool :=
  if negb (future_done (df_future f)) then false
  else match df_done_event f with Some ev => is_set ev | None => true end.

(** ** Reference: the bytes of a chunk, and copying blocks between caches *)

Definition block_at (kv : layer) (id : Z) : bytes := nth (Z.to_nat id) kv [].

Definition layer_bytes (ids : list Z) (kv : layer) : bytes := concat (block_at kv <$> ids).
Definition chunk_bytes (kvs : list layer) (ids : list Z) : bytes := concat (layer_bytes ids <$> kvs).

(** The block ids, chunk by chunk. *)
Definition group (n : nat) (ids : list Z) (i : nat) : list Z := take n (drop (i * n) ids).
Definition groups (n : nat) (ids : list Z) : list (list Z) := group n ids <$> seq 0 (length ids / n).

(** [kv] with the blocks [ids] taken from [kv0]. *)
Definition copy_layer (ids : list Z) (kv kv0 : layer) : layer :=
  foldl (fun kv id => <[Z.to_nat id := block_at kv0 id]> kv) kv ids.
Definition copy_blocks (ids : list Z) (kvs kvs0 : list layer) : list layer :=
  zip_with (copy_layer ids) kvs kvs0.

Definition in_range (kv : layer) (ids : list Z) : Prop := Forall (fun id => 0 <= id < Zlen kv) ids.

Implicit Types (kv : list bytes) (kvs : list (list bytes)) (ids : list Z).

Lemma index_select_ok kv ids :
  in_range kv ids -> index_select kv ids = Ok (block_at kv <$> ids).
Proof.
  unfold index_select. induction 1 as [|id ids [H1 H2] _ IH]; [done|]. csimpl. rewrite IH.
  replace (id <? 0) with false by lia. unfold Zlen in H2.
  destruct (lookup_lt_is_Some_2 kv (Z.to_nat id)) as [b Hb]; [lia|]. rewrite Hb. simpl.
  unfold block_at. by rewrite (nth_lookup_Some _ _ _ _ Hb).
Qed.

Lemma concat_length (l : list bytes) n :
  Forall (fun b : bytes => length b = n) l -> length (concat l) = (length l * n)%nat.
Proof. induction 1 as [|b l Hb _ IH]; simpl; [done|]. rewrite length_app, IH. lia. Qed.

Lemma block_at_length kv ids n :
  Forall (fun b : bytes => length b = n) kv -> in_range kv ids ->
  Forall (fun b : bytes => length b = n) (block_at kv <$> ids).
Proof.
  intros Hb. induction 1 as [|id ids [H1 H2] _ IH]; csimpl; constructor; [|done].
  unfold block_at, Zlen in *. destruct (lookup_lt_is_Some_2 kv (Z.to_nat id)) as [b Hl]; [lia|].
  rewrite (nth_lookup_Some _ _ _ _ Hl). rewrite Forall_forall in Hb. eapply Hb, list_elem_of_lookup_2, Hl.
Qed.

Section layout.
Context (bpc bn : nat).

(** Layers of blocks of [bn] bytes that all have the blocks [ids]. *)
Definition kvs_ok (kvs : list layer) (ids : list Z) : Prop :=
  Forall (fun kv => Forall (fun b : bytes => length b = bn) kv /\ in_range kv ids) kvs.

Lemma layer_bytes_length kv ids :
  Forall (fun b : bytes => length b = bn) kv -> in_range kv ids ->
  length (layer_bytes ids kv) = (length ids * bn)%nat.
Proof.
  intros Hb Hr. unfold layer_bytes. rewrite (concat_length _ bn) by by apply block_at_length.
  by rewrite length_fmap.
Qed.

Lemma chunk_bytes_length kvs ids :
  kvs_ok kvs ids -> length (chunk_bytes kvs ids) = (length kvs * (length ids * bn))%nat.
Proof.
  induction 1 as [|kv kvs [Hb Hr] _ IH]; [done|]. unfold chunk_bytes in *. csimpl.
  rewrite length_app, IH, layer_bytes_length by done. lia.
Qed.

Lemma write_layer_app l pre rest blocks :
  length pre = (l * bpc * bn)%nat -> (length (concat blocks) <= length rest)%nat ->
  write_layer bpc bn l blocks (pre ++ rest)
    = pre ++ concat blocks ++ drop (length (concat blocks)) rest.
Proof.
  intros Hp Hr. unfold write_layer, view_write. cbn [v_start].
  rewrite <- Hp, take_app_length, drop_app_ge by lia. do 3 f_equal. lia.
Qed.

Lemma gather_ok kvs ids l pre rest :
  kvs_ok kvs ids -> length ids = bpc -> length pre = (l * bpc * bn)%nat ->
  length rest = (length kvs * (bpc * bn))%nat ->
  gather bpc bn l kvs ids (pre ++ rest) = Ok (pre ++ chunk_bytes kvs ids).
Proof.
  intros Hk Hi. revert l pre rest. induction Hk as [|kv kvs [Hb Hr] _ IH]; intros l pre rest Hp Hl.
  { destruct rest; [done|]. simpl in Hl. lia. }
  cbn [gather]. rewrite index_select_ok by done. cbn [res_bind].
  pose proof (layer_bytes_length kv ids Hb Hr) as Hlb.
  change (concat (block_at kv <$> ids)) with (layer_bytes ids kv) in *. simpl in Hl.
  rewrite write_layer_app; [|done|change (concat (block_at kv <$> ids)) with (layer_bytes ids kv); lia].
  change (concat (block_at kv <$> ids)) with (layer_bytes ids kv).
  rewrite (assoc_L (++)), IH.
  - rewrite <- (assoc_L (++)). done.
  - rewrite length_app, Hlb. lia.
  - rewrite length_drop. lia.
Qed.

Lemma layer_blocks_app l pre post blocks :
  length pre = (l * bpc * bn)%nat -> length blocks = bpc -> Forall (fun b : bytes => length b = bn) blocks ->
  layer_blocks bpc bn l (pre ++ concat blocks ++ post) = blocks.
Proof.
  intros Hp Hn Hb. unfold layer_blocks. apply list_eq. intros i. rewrite list_lookup_fmap.
  destruct (decide (i < bpc)%nat) as [Hi|Hi].
  - rewrite lookup_seq_lt by done. simpl. destruct (lookup_lt_is_Some_2 blocks i) as [b Hbi]; [lia|].
    rewrite Hbi. f_equal. rewrite drop_app_ge by lia.
    replace ((l * bpc + i) * bn - length pre)%nat with (i * bn)%nat by lia.
    rewrite <- (take_drop_middle blocks i b Hbi) at 1. rewrite concat_app. cbn [concat].
    rewrite <- !(assoc_L (++)). rewrite drop_app_length', take_app_length'; [done| |].
    + rewrite Forall_forall in Hb. symmetry. eapply Hb, list_elem_of_lookup_2, Hbi.
    + rewrite (concat_length _ bn) by by apply Forall_take. rewrite length_take. lia.
  - rewrite (lookup_ge_None_2 blocks), lookup_ge_None_2; [done| |lia]. rewrite length_seq. lia.
Qed.
End layout.

Lemma forallb_in_range kv ids :
  in_range kv ids -> forallb (fun id => (0 <=? id) && (id <? Zlen kv)) ids = true.
Proof. intros H. apply forallb_Forall. eapply Forall_impl; [exact H|]. intros id Hid. simpl in Hid. lia. Qed.

Lemma index_copy_ok kv kv0 ids :
  in_range kv ids -> index_copy kv ids (block_at kv0 <$> ids) = Ok (copy_layer ids kv kv0).
Proof.
  intros Hr. unfold index_copy. rewrite length_fmap, decide_True, forallb_in_range by done.
  f_equal. unfold copy_layer. clear Hr. revert kv. induction ids as [|id ids IH]; intros kv; [done|].
  csimpl. apply IH.
Qed.

Lemma copy_layer_length ids kv kv0 : length (copy_layer ids kv kv0) = length kv.
Proof.
  unfold copy_layer. revert kv. induction ids as [|id ids IH]; intros kv; [done|].
  simpl. rewrite IH. apply length_insert.
Qed.

Lemma copy_layer_app ids1 ids2 kv kv0 :
  copy_layer (ids1 ++ ids2) kv kv0 = copy_layer ids2 (copy_layer ids1 kv kv0) kv0.
Proof. unfold copy_layer. apply foldl_app. Qed.

Lemma copy_layer_lookup ids kv kv0 b :
  in_range kv ids -> 0 <= b < Zlen kv ->
  block_at (copy_layer ids kv kv0) b = if decide (b ∈ ids) then block_at kv0 b else block_at kv b.
Proof.
  intros Hr Hb. revert kv Hr Hb. induction ids as [|id ids IH]; intros kv Hr Hb.
  { by rewrite decide_False by apply not_elem_of_nil. }
  apply Forall_cons in Hr as [Hid Hr]. unfold copy_layer in *. simpl.
  assert (Zlen (<[Z.to_nat id:=block_at kv0 id]> kv) = Zlen kv) as Hl
    by (unfold Zlen; by rewrite length_insert).
  rewrite IH; [|by unfold in_range; rewrite Hl|by rewrite Hl].
  destruct (decide (b ∈ ids)), (decide (b ∈ id :: ids)); try set_solver.
  - assert (b = id) as -> by set_solver. unfold block_at at 1. unfold Zlen in Hb.
    apply nth_lookup_Some. apply list_lookup_insert_eq. lia.
  - unfold block_at. assert (b <> id) by set_solver.
    destruct (lookup_lt_is_Some_2 kv (Z.to_nat b)) as [x Hx]; [unfold Zlen in Hb; lia|].
    rewrite (nth_lookup_Some kv _ _ _ Hx). apply nth_lookup_Some.
    rewrite list_lookup_insert_ne; [done|lia].
Qed.

Section scatter.
Context (bpc bn : nat).

Lemma drop_block_at kv0 ids skip : py_drop skip (block_at kv0 <$> ids) = block_at kv0 <$> py_drop skip ids.
Proof. unfold py_drop, Zlen. by rewrite length_fmap, fmap_drop. Qed.

(** Scattering the bytes of a chunk of [kvs0] copies its blocks. *)
Lemma scatter_ok kvs kvs0 ids skip l pre :
  kvs_ok bn kvs0 ids -> kvs_ok bn kvs ids -> length kvs = length kvs0 -> length ids = bpc ->
  (0 <= skip) -> length pre = (l * bpc * bn)%nat ->
  scatter bpc bn l kvs (py_drop skip ids) skip (pre ++ chunk_bytes kvs0 ids)
    = (copy_blocks (py_drop skip ids) kvs kvs0, Ok tt).
Proof.
  intros H0. revert kvs l pre. induction H0 as [|kv0 kvs0 [Hb0 Hr0] _ IH]; intros kvs l pre Hk Hl Hi Hs Hp.
  { by destruct kvs. }
  destruct kvs as [|kv kvs]; [done|]. apply Forall_cons in Hk as [[Hb Hr] Hk]. injection Hl as Hl.
  cbn [scatter]. unfold chunk_bytes. rewrite fmap_cons. cbn [concat].
  unfold layer_bytes at 1. rewrite layer_blocks_app; [|done|by rewrite length_fmap|by apply block_at_length].
  rewrite drop_block_at, index_copy_ok.
  2: { unfold in_range, py_drop. by apply Forall_drop. }
  fold (layer_bytes ids kv0). rewrite (assoc_L (++)).
  fold (chunk_bytes kvs0 ids). rewrite IH; [done|done|done|done|done|].
  rewrite length_app, (layer_bytes_length bn) by done. lia.
Qed.
End scatter.

(** ** Whole calls *)

Definition pipe_ok (n : nat) (p : Pipeline) : Prop :=
  length (staging p) = 3%nat /\ length (cpu_bufs p) = 3%nat /\
  Forall (fun b : bytes => length b = n) (staging p) /\
  Forall (fun b : bytes => length b = n) (cpu_bufs p).

Record transfer_ok (t : KVTransfer) : Prop := {
  ok_bpc : 0 < blocks_per_chunk t;
  ok_bn : 0 < block_nbytes t;
  ok_layers : kv_caches t <> [];
  ok_chunk : chunk_nbytes t = Zlen (kv_caches t) * blocks_per_chunk t * block_nbytes t;
  ok_d2h : pipe_ok (Z.to_nat (chunk_nbytes t)) (d2h t);
  ok_h2d : pipe_ok (Z.to_nat (chunk_nbytes t)) (h2d t);
  ok_blocks : Forall (Forall (fun b : bytes => length b = Z.to_nat (block_nbytes t))) (kv_caches t)
}.

Lemma pipe_ok_insert n p i b :
  pipe_ok n p -> length b = n ->
  pipe_ok n (mkPipeline (<[i := b]> (staging p)) (<[i := b]> (cpu_bufs p))).
Proof.
  intros (H1 & H2 & H3 & H4) Hb. split_and!; simpl; rewrite ?length_insert; try done;
    by apply Forall_insert.
Qed.

Lemma pipe_slot n p i :
  pipe_ok n p -> length (buf_at (staging p) (slot_of i)) = n /\
                 length (buf_at (cpu_bufs p) (slot_of i)) = n.
Proof.
  intros (H1 & H2 & H3 & H4). assert (slot_of i < 3)%nat by (apply Nat.mod_upper_bound; lia).
  rewrite Forall_forall in H3. rewrite Forall_forall in H4.
  destruct (lookup_lt_is_Some_2 (staging p) (slot_of i)) as [x Hx]; [lia|].
  destruct (lookup_lt_is_Some_2 (cpu_bufs p) (slot_of i)) as [y Hy]; [lia|].
  unfold buf_at. rewrite Hx, Hy. simpl. split; [eapply H3, list_elem_of_lookup_2, Hx|eapply H4, list_elem_of_lookup_2, Hy].
Qed.

Lemma chunk_ids_group n i ids : 0 <= n -> chunk_ids n i 0 ids = group (Z.to_nat n) ids i.
Proof.
  intros Hn. assert (0 <= Z.of_nat i * n) by nia. assert (0 <= (Z.of_nat i + 1) * n) by nia.
  unfold chunk_ids, group. rewrite py_slice_nonneg by lia.
  rewrite Z.add_0_r, !Z2Nat.inj_mul, Z2Nat.inj_add, Nat2Z.id by lia. f_equal. lia.
Qed.

Lemma chunk_ids_skip n i skip ids :
  0 <= skip <= n -> chunk_ids n i skip ids = drop (Z.to_nat skip) (group (Z.to_nat n) ids i).
Proof.
  intros Hn. assert (0 <= Z.of_nat i * n) by nia. assert (0 <= (Z.of_nat i + 1) * n) by nia.
  unfold chunk_ids, group. rewrite py_slice_nonneg by lia.
  replace (Z.to_nat (Z.of_nat i * n + skip)) with (i * Z.to_nat n + Z.to_nat skip)%nat
    by (rewrite Z2Nat.inj_add, Z2Nat.inj_mul, Nat2Z.id by lia; done).
  rewrite <- drop_drop, take_drop_commute. do 2 f_equal. lia.
Qed.

Lemma group_length n ids i :
  (0 < n)%nat -> (length ids mod n = 0)%nat -> (i < length ids / n)%nat -> length (group n ids i) = n.
Proof.
  intros Hn Hm Hi. unfold group. rewrite length_take, length_drop.
  pose proof (Nat.div_mod_eq (length ids) n). nia.
Qed.

Lemma kvs_ok_group bn kvs n ids i : kvs_ok bn kvs ids -> kvs_ok bn kvs (group n ids i).
Proof.
  intros Hk. eapply Forall_impl; [exact Hk|]. intros kv [Hb Hr]. split; [done|].
  by apply Forall_take, Forall_drop.
Qed.

(** Copying blocks out of the cache gives one blob per chunk, in order,
    each the blocks of every layer back to back whatever the staging buffers held
    before (no blob is scrambled by the three rotating buffers), and leaves the
    cache untouched. *)
Lemma to_host_spec t ids :
  transfer_ok t -> kvs_ok (Z.to_nat (block_nbytes t)) (kv_caches t) ids ->
  Zlen ids mod blocks_per_chunk t = 0 ->
  exists t', to_host ids t
      = (t', Ok (chunk_bytes (kv_caches t) <$> groups (Z.to_nat (blocks_per_chunk t)) ids)) /\
    kv_caches t' = kv_caches t /\ h2d t' = h2d t /\ transfer_ok t'.
Proof.
  intros Hok Hk Hm. unfold to_host, get. unfold bind at 1.
  pose proof (ok_bpc t Hok) as Hbpc. unfold lift_res, py_mod, py_floordiv.
  replace (blocks_per_chunk t =? 0) with false by lia. unfold bind at 1. rewrite Hm. cbn [Z.eqb].
  unfold bind at 1. set (n := Z.to_nat (blocks_per_chunk t)).
  assert (Z.to_nat (Zlen ids / blocks_per_chunk t) = length ids / n)%nat as ->.
  { unfold Zlen, n. rewrite Z2Nat.inj_div by lia. by rewrite Nat2Z.id. }
  assert (length ids mod n = 0)%nat as Hmn.
  { unfold n, Zlen in *. apply Nat2Z.inj. rewrite Nat2Z.inj_mod, Z2Nat.id by lia. done. }
  unfold groups. rewrite <- list_fmap_compose.
  enough (forall m off acc t1, (off + m = length ids / n)%nat -> transfer_ok t1 ->
    kv_caches t1 = kv_caches t -> h2d t1 = h2d t -> blocks_per_chunk t1 = blocks_per_chunk t ->
    block_nbytes t1 = block_nbytes t ->
    exists t', for_acc (seq off m) acc (to_host_one ids) t1
      = (t', Ok (acc ++ ((chunk_bytes (kv_caches t) ∘ group n ids) <$> seq off m))) /\
      kv_caches t' = kv_caches t /\ h2d t' = h2d t /\ transfer_ok t') as Hg
    by apply (Hg (length ids / n)%nat 0%nat [] t eq_refl Hok eq_refl eq_refl eq_refl eq_refl).
  induction m as [|m IH]; intros off acc t1 Hoff Hok1 Hkv Hh Hb1 Hb2.
  { exists t1. simpl. by rewrite app_nil_r. }
  cbn [seq for_acc]. unfold bind at 1. unfold to_host_one at 1.
  rewrite Hb1, Hb2, Hkv, chunk_ids_group by lia. fold n.
  destruct (pipe_slot _ _ off (ok_d2h t1 Hok1)) as [Hslot _].
  set (slot := buf_at (staging (d2h t1)) (slot_of off)) in *.
  assert (length (group n ids off) = n) as Hgl by (apply group_length; lia).
  pose proof (kvs_ok_group _ _ n _ off Hk) as Hkg.
  assert (gather n (Z.to_nat (block_nbytes t)) 0 (kv_caches t) (group n ids off) slot
    = Ok (chunk_bytes (kv_caches t) (group n ids off))) as ->.
  { apply (gather_ok n _ _ _ 0 [] slot); [done|done|done|]. rewrite Hslot, (ok_chunk t1 Hok1), Hkv, Hb1, Hb2.
    pose proof (ok_bn t Hok). unfold n, Zlen. nia. }
  set (data := chunk_bytes (kv_caches t) (group n ids off)).
  destruct (IH (S off) (acc ++ [data]) (set_d2h (mkPipeline (<[slot_of off:=data]> (staging (d2h t1)))
    (<[slot_of off:=data]> (cpu_bufs (d2h t1)))) t1)) as (t' & E & H1 & H2 & H3); [lia| |done..|].
  { destruct Hok1. split; try done. apply pipe_ok_insert; [done|]. unfold data.
    rewrite (chunk_bytes_length (Z.to_nat (block_nbytes t))) by done. rewrite Hgl.
    simpl. rewrite ok_chunk0, Hkv, Hb1, Hb2. pose proof (ok_bn t Hok). unfold n, Zlen. nia. }
  exists t'. rewrite E. split_and!; [|done..]. by rewrite <- app_assoc.
Qed.

Lemma copy_blocks_nil kvs kvs0 : length kvs = length kvs0 -> copy_blocks [] kvs kvs0 = kvs.
Proof.
  revert kvs0. induction kvs as [|kv kvs IH]; intros [|kv0 kvs0] Hl; try done.
  unfold copy_blocks in *. simpl. rewrite IH by (simpl in Hl; lia). done.
Qed.

Lemma copy_blocks_length ids kvs kvs0 :
  length kvs = length kvs0 -> length (copy_blocks ids kvs kvs0) = length kvs0.
Proof. intros Hl. unfold copy_blocks. rewrite length_zip_with. lia. Qed.

Lemma copy_blocks_app ids1 ids2 kvs kvs0 :
  copy_blocks (ids1 ++ ids2) kvs kvs0 = copy_blocks ids2 (copy_blocks ids1 kvs kvs0) kvs0.
Proof.
  revert kvs0. induction kvs as [|kv kvs IH]; intros [|kv0 kvs0]; try done.
  unfold copy_blocks in *. simpl. by rewrite copy_layer_app, IH.
Qed.

Lemma copy_layer_blocks n ids kv kv0 :
  Forall (fun b : bytes => length b = n) kv -> Forall (fun b : bytes => length b = n) kv0 ->
  in_range kv0 ids -> Forall (fun b : bytes => length b = n) (copy_layer ids kv kv0).
Proof.
  intros Hk H0 Hr. unfold copy_layer. revert kv Hk. induction Hr as [|id ids Hid _ IH]; intros kv Hk; [done|].
  simpl. apply IH. apply Forall_insert; [done|].
  pose proof (block_at_length kv0 [id] n H0 (Forall_cons_2 _ _ _ Hid (Forall_nil_2 _))) as Hb.
  by inversion Hb.
Qed.

Lemma copy_blocks_ok n all ids kvs kvs0 :
  kvs_ok n kvs all -> kvs_ok n kvs0 all -> kvs_ok n kvs0 ids -> length kvs = length kvs0 ->
  kvs_ok n (copy_blocks ids kvs kvs0) all.
Proof.
  intros Hk H0 Hi. revert kvs Hk. induction H0 as [|kv0 kvs0 [Hb0 _] _ IH]; intros [|kv kvs] Hk Hl; try done.
  apply Forall_cons in Hk as [[Hb Hr] Hk]. apply Forall_cons in Hi as [[_ Hi0] Hi].
  unfold copy_blocks in *. simpl. constructor; [|apply IH; [done|done|simpl in Hl; lia]].
  split; [by apply copy_layer_blocks|]. unfold in_range, Zlen. by rewrite copy_layer_length.
Qed.

Lemma concat_groups n ids off m :
  (0 < n)%nat -> (length ids mod n = 0)%nat -> (off + m = length ids / n)%nat ->
  concat (group n ids <$> seq off m) = drop (off * n) ids.
Proof.
  intros Hn Hm. revert off. induction m as [|m IH]; intros off Hoff.
  { simpl. rewrite drop_ge; [done|]. pose proof (Nat.div_mod_eq (length ids) n). nia. }
  cbn [seq]. rewrite fmap_cons. cbn [concat]. rewrite IH by lia. unfold group.
  rewrite <- (take_drop n (drop (off * n) ids)) at 2. rewrite drop_drop. do 2 f_equal. lia.
Qed.

Lemma np_assign_ok buf blob :
  length blob = length buf -> (0 < length buf)%nat -> np_assign buf blob = Ok blob.
Proof.
  intros Hl Hp. unfold np_assign, Zlen. rewrite Hl.
  replace (Z.of_nat (length buf) =? 0) with false by lia. by rewrite Z.eqb_refl.
Qed.

(** The blocks iteration [i] of [from_host] writes. *)
Definition load_ids (n : Z) (skip : Z) (ids : list Z) (i : nat) : list Z :=
  chunk_ids n i (if Nat.eqb i 0 then skip else 0) ids.

Lemma load_ids_group n skip ids i :
  0 <= skip <= n ->
  load_ids n skip ids i = py_drop (if Nat.eqb i 0 then skip else 0) (group (Z.to_nat n) ids i).
Proof.
  intros Hs. unfold load_ids. rewrite chunk_ids_skip, py_drop_nonneg by (destruct (Nat.eqb i 0); lia).
  done.
Qed.

Lemma concat_load_ids n skip ids :
  0 < n -> 0 <= skip <= n -> (length ids mod Z.to_nat n = 0)%nat ->
  concat (load_ids n skip ids <$> seq 0 (length ids / Z.to_nat n)) = drop (Z.to_nat skip) ids.
Proof.
  intros Hn Hs Hm. pose proof (concat_groups (Z.to_nat n) ids 0 _ ltac:(lia) Hm eq_refl) as Hall.
  rewrite Nat.mul_0_l, drop_0 in Hall.
  destruct (length ids / Z.to_nat n)%nat as [|N] eqn:EN.
  { simpl in *. rewrite <- Hall. by rewrite drop_nil. }
  cbn [seq] in *. rewrite fmap_cons in *. cbn [concat] in *.
  transitivity (drop (Z.to_nat skip) (group (Z.to_nat n) ids 0 ++ concat (group (Z.to_nat n) ids <$> seq 1 N)));
    [|by rewrite Hall].
  rewrite drop_app_le by (rewrite group_length by lia; lia). f_equal.
  - rewrite load_ids_group by done. cbn [Nat.eqb]. by rewrite py_drop_nonneg by lia.
  - f_equal. apply list_fmap_ext. intros i j Hj%list_elem_of_lookup_2%elem_of_seq.
    rewrite load_ids_group by done. destruct j as [|j]; [lia|]. cbn [Nat.eqb]. by rewrite py_drop_nonneg by lia.
Qed.

Section from_host.
Context (bn : nat) (kvs0 : list (list bytes)) (ids : list Z) (skip bpc : Z).
Hypotheses (Hbpc : 0 < bpc) (Hskip : 0 <= skip <= bpc) (Hids : (length ids mod Z.to_nat bpc = 0)%nat)
  (H0 : kvs_ok bn kvs0 ids).
Local Notation n := (Z.to_nat bpc).

Lemma from_host_loop_ok m off t :
  (off + m = length ids / n)%nat -> transfer_ok t ->
  blocks_per_chunk t = bpc -> Z.to_nat (block_nbytes t) = bn ->
  kvs_ok bn (kv_caches t) ids -> length (kv_caches t) = length kvs0 ->
  exists t', from_host_loop ids skip off ((chunk_bytes kvs0 ∘ group n ids) <$> seq off m) t = (t', Ok tt) /\
    kv_caches t' = copy_blocks (concat (load_ids bpc skip ids <$> seq off m)) (kv_caches t) kvs0 /\
    transfer_ok t'.
Proof.
  revert off t. induction m as [|m IH]; intros off t Hoff Hok Hb Hn Hk Hl.
  { exists t. simpl. by rewrite copy_blocks_nil. }
  assert (length (group n ids off) = n) as Hgl by (apply group_length; lia).
  pose proof (kvs_ok_group _ _ n _ off H0) as H0g. pose proof (kvs_ok_group _ _ n _ off Hk) as Hkg.
  set (data := chunk_bytes kvs0 (group n ids off)).
  assert (length data = Z.to_nat (chunk_nbytes t)) as Hdata.
  { unfold data. rewrite (chunk_bytes_length bn) by done. rewrite Hgl, (ok_chunk t Hok), Hb.
    pose proof (ok_bn t Hok). unfold Zlen. rewrite Hl. nia. }
  destruct (pipe_slot _ _ off (ok_h2d t Hok)) as [_ Hbuf].
  assert (0 < Z.to_nat (chunk_nbytes t))%nat as Hpos.
  { rewrite (ok_chunk t Hok). pose proof (ok_bn t Hok). pose proof (ok_bpc t Hok).
    pose proof (ok_layers t Hok). destruct (kv_caches t); [done|]. unfold Zlen. simpl. nia. }
  cbn [seq]. rewrite fmap_cons. cbn [from_host_loop compose]. fold data.
  unfold bind at 1. unfold from_host_one at 1.
  rewrite np_assign_ok by (rewrite ?Hbuf; lia). rewrite Hb, Hn.
  fold (load_ids bpc skip ids off). rewrite load_ids_group by done.
  set (sk := if Nat.eqb off 0 then skip else 0).
  pose proof (scatter_ok n bn (kv_caches t) kvs0 (group n ids off) sk 0 [] H0g Hkg Hl Hgl) as Hsc.
  rewrite app_nil_l in Hsc. fold data in Hsc. rewrite Hsc; [|unfold sk; destruct (Nat.eqb off 0); lia|done].
  set (t1 := set_kv _ _).
  destruct (IH (S off) t1) as (t' & E & Hkv & Hok'); [lia| |done|done| | |].
  - destruct Hok. split; simpl; try done.
    + intros Hnil. apply (f_equal length) in Hnil. rewrite copy_blocks_length in Hnil by done.
      rewrite <- Hl in Hnil. by destruct (kv_caches t).
    + rewrite ok_chunk0. unfold Zlen. by rewrite copy_blocks_length, Hl.
    + by apply pipe_ok_insert.
    + assert (kvs_ok bn (copy_blocks (py_drop sk (group n ids off)) (kv_caches t) kvs0) ids) as Hk'.
      { apply copy_blocks_ok; [done|done| |done]. unfold py_drop.
        eapply Forall_impl; [exact H0g|]. intros kv [? Hr]. split; [done|]. by apply Forall_drop. }
      rewrite Hn. eapply Forall_impl; [exact Hk'|]. by intros kv [? _].
  - apply copy_blocks_ok; [done|done| |done]. unfold py_drop.
    eapply Forall_impl; [exact H0g|]. intros kv [? Hr]. split; [done|]. by apply Forall_drop.
  - simpl. by apply copy_blocks_length.
  - exists t'. split; [exact E|]. split; [|done]. rewrite Hkv. change (seq off (S m)) with (off :: seq (S off) m).
    rewrite fmap_cons. cbn [concat]. by rewrite copy_blocks_app, load_ids_group.
Qed.
End from_host.

(** Scattering the blobs of another cache's blocks back writes exactly
    those blocks: in every layer, each block of the list after the skipped ones
    gets its source contents, and every other block of the cache keeps its own.
    Together with [to_host_spec] this is the round trip through the server. *)
Lemma from_host_spec t kvs0 ids skip :
  transfer_ok t -> kvs_ok (Z.to_nat (block_nbytes t)) (kv_caches t) ids ->
  kvs_ok (Z.to_nat (block_nbytes t)) kvs0 ids -> length (kv_caches t) = length kvs0 ->
  Zlen ids mod blocks_per_chunk t = 0 -> 0 <= skip <= blocks_per_chunk t ->
  exists t', from_host (chunk_bytes kvs0 <$> groups (Z.to_nat (blocks_per_chunk t)) ids) ids skip t
      = (t', Ok tt) /\ transfer_ok t' /\
    forall l kv kv0, kv_caches t !! l = Some kv -> kvs0 !! l = Some kv0 ->
      exists kv', kv_caches t' !! l = Some kv' /\ length kv' = length kv /\
        forall b, 0 <= b < Zlen kv ->
          block_at kv' b = if decide (b ∈ drop (Z.to_nat skip) ids) then block_at kv0 b else block_at kv b.
Proof.
  intros Hok Hk H0 Hl Hm Hs. unfold from_host, get. unfold bind at 1.
  pose proof (ok_bpc t Hok) as Hbpc. unfold lift_res, py_mod.
  replace (blocks_per_chunk t =? 0) with false by lia. unfold bind at 1. rewrite Hm. cbn [Z.eqb].
  assert (length ids mod Z.to_nat (blocks_per_chunk t) = 0)%nat as Hmn.
  { unfold Zlen in *. apply Nat2Z.inj. rewrite Nat2Z.inj_mod, Z2Nat.id by lia. done. }
  destruct (from_host_loop_ok _ kvs0 ids skip (blocks_per_chunk t) Hbpc Hs Hmn H0
              (length ids / Z.to_nat (blocks_per_chunk t)) 0 t eq_refl Hok eq_refl eq_refl Hk Hl)
    as (t' & E & Hkv & Hok').
  exists t'. unfold groups. rewrite <- list_fmap_compose. split; [exact E|]. split; [done|].
  rewrite concat_load_ids in Hkv by done.
  intros l kv kv0 Hlk Hl0. exists (copy_layer (drop (Z.to_nat skip) ids) kv kv0).
  split; [|split; [apply copy_layer_length|]].
  - rewrite Hkv. unfold copy_blocks. rewrite lookup_zip_with, Hlk, Hl0. done.
  - intros b Hb. apply copy_layer_lookup; [|done]. unfold kvs_ok in Hk. rewrite Forall_forall in Hk.
    apply list_elem_of_lookup_2, Hk in Hlk as [_ Hr]. by apply Forall_drop.
Qed.

(** Both directions refuse a block list that does not fill whole chunks,
    before touching any buffer. *)
Lemma partial_chunks_refused t chunks ids skip :
  blocks_per_chunk t <> 0 -> Zlen ids mod blocks_per_chunk t <> 0 ->
  to_host ids t = (t, Raise AssertionError) /\
  from_host chunks ids skip t = (t, Raise AssertionError).
Proof.
  intros Hb Hm. unfold to_host, from_host, get, bind, lift_res, py_mod.
  replace (blocks_per_chunk t =? 0) with false by lia.
  by replace (Zlen ids mod blocks_per_chunk t =? 0) with false by lia.
Qed.

(** ** Witnesses: two layers of four 2-byte blocks, two blocks per chunk *)

Definition toy_layer (x y : Byte.byte) : list bytes := [[x; x]; [x; y]; [y; x]; [y; y]].
Definition toy_kv : list (list bytes) :=
  [toy_layer Byte.x00 Byte.x01; toy_layer Byte.x02 Byte.x03].
Definition toy_kv0 : list (list bytes) :=
  [toy_layer Byte.x10 Byte.x11; toy_layer Byte.x12 Byte.x13].
Definition toy_engine : KVTransfer :=
  mkKVTransfer 0 toy_kv 2 2 8 (new_pipeline 8) (new_pipeline 8).

Example toy_engine_built : new_transfer toy_kv 1 2 0 = Ok toy_engine.
Proof. reflexivity. Qed.

Lemma toy_engine_ok : transfer_ok toy_engine.
Proof.
  assert (pipe_ok 8 (new_pipeline 8)) by (split_and!; repeat constructor).
  split; [done|done|done|reflexivity|done|done|repeat constructor].
Qed.

Lemma toy_kvs_ok ids x y x' y' :
  Forall (fun id => 0 <= id < 4) ids -> kvs_ok 2 [toy_layer x y; toy_layer x' y'] ids.
Proof. intros Hi. repeat constructor; exact Hi. Qed.
