(* ===== verification/Streams.v ===== *)
(** Device streams and events, and the pipelines of l0/transfer.py as the
    commands the host issues to them.

    A stream executes its items in the order they were issued, on its own time;
    an event recorded on a stream is reached when the stream has executed what it
    had been given before; a wait holds back the later items of one stream, a
    synchronize holds back the host.  An event that was never recorded holds
    nothing back.  The machine interleaves host and streams arbitrarily; the
    theorems show that the pipelines compute what [Transfer] computes in program
    order, under every interleaving. *)
From S2P Require Import Prelude Memory KVFormat Transfer.
From stdpp Require Import functions sorting.
Local Open Scope py_scope.
Local Open Scope nat_scope.

(** ** The machine *)

Inductive stream := copy_stream | kernel_stream.
Inductive stream_event := ready_event (buf : nat) | free_event (buf : nat).

#[export] Instance stream_eq_dec : EqDecision stream.
Proof. solve_decision. Defined.
#[export] Instance stream_event_eq_dec : EqDecision stream_event.
Proof. solve_decision. Defined.

(** The point of a stream after its first items: what a recorded event names. *)
Notation mark := (stream * nat)%type (only parsing).

Section machine.
Context {Mem : Type}.

(** What the host does next. *)
Inductive instr :=
| IHost (f : Mem -> Mem)
| ILaunch (s : stream) (f : Mem -> Mem)
| IRecord (e : stream_event) (s : stream)
| IWait (s : stream) (e : stream_event)
| ISync (e : stream_event)
| IDrain (s : stream).

(** What a stream does next: run a kernel or a copy, or wait for a mark. *)
Inductive item := Work (f : Mem -> Mem) | Await (m : option mark).

Record entry := mkEntry { on : stream; number : nat; what : item }.

(** How many items each stream was given, what each event recorded last. *)
Record Issued := mkIssued { count : stream -> nat; recorded : stream_event -> option mark }.

Definition push (s : stream) (it : item) (h : Issued) : Issued * list entry :=
  (mkIssued (<[s := S (count h s)]> (count h)) (recorded h), [mkEntry s (count h s) it]).

Definition issue_one (i : instr) (h : Issued) : Issued * list entry :=
  match i with
  | ILaunch s f => push s (Work f) h
  | IWait s e => push s (Await (recorded h e)) h
  | IRecord e s => (mkIssued (count h) (<[e := Some (s, count h s)]> (recorded h)), [])
  | _ => (h, [])
  end.

Record cfg := mkCfg {
  host : list instr;
  issued : Issued;
  pend : list entry;
  executed : stream -> nat;
  mem : Mem
}.

Definition reached (ex : stream -> nat) (m : option mark) : bool :=
  match m with None => true | Some (s, n) => n <=? ex s end.

Definition host_ready (i : instr) (c : cfg) : bool :=
  match i with
  | ISync e => reached (executed c) (recorded (issued c) e)
  | IDrain s => count (issued c) s <=? executed c s
  | _ => true
  end.

Definition host_effect (i : instr) : Mem -> Mem := match i with IHost f => f | _ => id end.

Definition host_step (c : cfg) : option cfg :=
  match host c with
  | [] => None
  | i :: rest =>
      if host_ready i c then
        let (h, es) := issue_one i (issued c) in
        Some (mkCfg rest h (pend c ++ es) (executed c) (host_effect i (mem c)))
      else None
  end.

(** The oldest pending item of a stream, with what was issued before and after. *)
Fixpoint next_on (s : stream) (l : list entry) : option (list entry * entry * list entry) :=
  match l with
  | [] => None
  | x :: l' =>
      if decide (on x = s) then Some ([], x, l')
      else match next_on s l' with
           | Some (l1, y, l2) => Some (x :: l1, y, l2)
           | None => None
           end
  end.

Definition stream_step (s : stream) (c : cfg) : option cfg :=
  match next_on s (pend c) with
  | None => None
  | Some (l1, x, l2) =>
      let done m := mkCfg (host c) (issued c) (l1 ++ l2) (<[s := S (executed c s)]> (executed c)) m in
      match what x with
      | Work f => Some (done (f (mem c)))
      | Await m => if reached (executed c) m then Some (done (mem c)) else None
      end
  end.

Inductive mstep (c : cfg) : cfg -> Prop :=
| mstep_host c' : host_step c = Some c' -> mstep c c'
| mstep_stream s c' : stream_step s c = Some c' -> mstep c c'.

(** Nothing is pending and every recorded event is reached. *)
Definition idle (h : Issued) : Prop :=
  (forall s, count h s = 0) /\ forall e, reached (fun _ => 0) (recorded h e) = true.

Definition start (P : list instr) (h : Issued) (m : Mem) : cfg := mkCfg P h [] (fun _ => 0) m.

(** Executing a schedule: [None] lets the host move, [Some s] a stream; a move
    that is not possible is skipped. *)
Definition move (c : cfg) (who : option stream) : cfg :=
  default c (match who with None => host_step c | Some s => stream_step s c end).
Definition run_sched (who : list (option stream)) (c : cfg) : cfg := foldl move c who.

Lemma run_sched_steps who c : rtc mstep c (run_sched who c).
Proof.
  revert c. induction who as [|[s|] who IH]; intros c; [constructor| |]; simpl; unfold move; simpl.
  - destruct (stream_step s c) as [c'|] eqn:E; [|apply IH]. eapply rtc_l; [by eapply mstep_stream|apply IH].
  - destruct (host_step c) as [c'|] eqn:E; [|apply IH]. eapply rtc_l; [by eapply mstep_host|apply IH].
Qed.

(** ** Program order *)

Definition instr_effect (i : instr) : Mem -> Mem :=
  match i with IHost f | ILaunch _ f => f | _ => id end.
Definition seq_run (P : list instr) (m : Mem) : Mem := foldl (fun m i => instr_effect i m) m P.
Definition item_effect (x : entry) : Mem -> Mem := match what x with Work f => f | Await _ => id end.
Definition flush_all (l : list entry) (m : Mem) : Mem := foldl (fun m x => item_effect x m) m l.

(** What is left to do, in the order of issue. *)
Definition outcome (c : cfg) : Mem := seq_run (host c) (flush_all (pend c) (mem c)).

Definition commute (f g : Mem -> Mem) : Prop := forall m, f (g m) = g (f m).

(** No race at the next step of [c]: what executes commutes with what was issued
    before and is still pending. *)
Definition race_free (c : cfg) : Prop :=
  (forall f rest x, host c = IHost f :: rest -> x ∈ pend c -> commute f (item_effect x)) /\
  (forall s l1 x l2 y, next_on s (pend c) = Some (l1, x, l2) -> y ∈ l1 ->
     commute (item_effect x) (item_effect y)).

Lemma flush_app l1 l2 m : flush_all (l1 ++ l2) m = flush_all l2 (flush_all l1 m).
Proof. apply foldl_app. Qed.

Lemma flush_commute l f m :
  (forall x, x ∈ l -> commute f (item_effect x)) -> flush_all l (f m) = f (flush_all l m).
Proof.
  revert m. induction l as [|x l IH]; intros m Hc; [done|]. unfold flush_all in *. simpl.
  rewrite <- IH by (intros; apply Hc; set_solver). by rewrite (Hc x) by set_solver.
Qed.

Lemma flush_preserves {X} (g : Mem -> X) l m :
  (forall x, x ∈ l -> forall m, g (item_effect x m) = g m) -> g (flush_all l m) = g m.
Proof.
  revert m. induction l as [|x l IH]; intros m Hg; [done|].
  change (flush_all (x :: l) m) with (flush_all l (item_effect x m)).
  rewrite IH by (intros y Hy; apply Hg; by apply list_elem_of_further). apply Hg, list_elem_of_here.
Qed.

Lemma next_on_split s l l1 x l2 :
  next_on s l = Some (l1, x, l2) -> l = l1 ++ x :: l2 /\ on x = s /\ Forall (fun y => on y <> s) l1.
Proof.
  revert l1. induction l as [|y l IH]; intros l1; simpl; [done|]. case_decide as Hd.
  - intros [= <- <- <-]. done.
  - destruct (next_on s l) as [[[l1' x'] l2']|]; [|done]. intros [= <- <- <-].
    destruct (IH l1' eq_refl) as (-> & ? & ?). split_and!; [done|done|by constructor].
Qed.

Lemma next_on_elem s l x : x ∈ l -> on x = s -> is_Some (next_on s l).
Proof.
  induction l as [|y l IH]; intros Hin Hs; [by apply elem_of_nil in Hin|]. simpl.
  case_decide; [done|]. apply elem_of_cons in Hin as [->|Hin]; [done|].
  destruct (IH Hin Hs) as [[[??]?] ->]. done.
Qed.

Lemma step_outcome c c' : race_free c -> mstep c c' -> outcome c' = outcome c.
Proof.
  intros [Hh Hs] [|s]; unfold outcome.
  - unfold host_step in H. destruct (host c) as [|i rest] eqn:Eh; [done|].
    destruct (host_ready i c); [|done]. destruct (issue_one i (issued c)) as [h es] eqn:Ei. injection H as <-. simpl.
    change (seq_run (i :: rest)) with (fun m => seq_run rest (instr_effect i m)). cbv beta. f_equal.
    rewrite flush_app. destruct i; simpl in Ei; injection Ei as <- <-; try done; simpl.
    apply flush_commute. intros x Hx. by eapply Hh.
  - unfold stream_step in H. destruct (next_on s (pend c)) as [[[l1 x] l2]|] eqn:En; [|done].
    destruct (next_on_split _ _ _ _ _ En) as (-> & _ & _).
    assert (forall m, flush_all (l1 ++ x :: l2) m = flush_all (l1 ++ l2) (item_effect x m)) as Hmv.
    { intros m. rewrite !flush_app. simpl. change (flush_all (x :: l2)) with (fun m => flush_all l2 (item_effect x m)).
      cbv beta. f_equal. symmetry. apply flush_commute. intros y Hy. by eapply Hs. }
    rewrite Hmv. unfold item_effect.
    destruct (what x); [|destruct (reached _ _); [|done]]; by injection H as <-.
Qed.

(** ** What the host has issued *)

Fixpoint issue_all (P : list instr) (h : Issued) : Issued * list entry :=
  match P with
  | [] => (h, [])
  | i :: P' =>
      let (h1, es) := issue_one i h in
      let (h2, es') := issue_all P' h1 in (h2, es ++ es')
  end.

Lemma issue_all_app P1 P2 h h1 e1 h2 e2 :
  issue_all P1 h = (h1, e1) -> issue_all P2 h1 = (h2, e2) -> issue_all (P1 ++ P2) h = (h2, e1 ++ e2).
Proof.
  revert h h1 e1. induction P1 as [|i P1 IH]; intros h h1 e1; simpl; [by intros [= -> <-] ->|].
  destruct (issue_one i h) as [h' es]. destruct (issue_all P1 h') as [h'' es'] eqn:E. intros [= -> <-] E2.
  rewrite (IH _ _ _ E E2). by rewrite app_assoc.
Qed.

Lemma issue_all_snoc P i h :
  issue_all (P ++ [i]) h =
    let (h1, E) := issue_all P h in let (h2, es) := issue_one i h1 in (h2, E ++ es).
Proof.
  destruct (issue_all P h) as [h1 E] eqn:E1, (issue_one i h1) as [h2 es] eqn:E2.
  apply (issue_all_app _ _ _ _ _ _ _ E1). simpl. rewrite E2. by rewrite app_nil_r.
Qed.

Definition earlier (x y : entry) : Prop := on x = on y -> number x < number y.

(** The items of a stream are numbered in the order of issue, and a mark names
    items issued before it was recorded. *)
Record numbered (E : list entry) (h : Issued) : Prop := mkNumbered {
  nb_sorted : StronglySorted earlier E;
  nb_bound : forall x, x ∈ E -> number x < count h (on x);
  nb_all : forall s m, m < count h s -> exists x, x ∈ E /\ on x = s /\ number x = m;
  nb_mark : forall e s n, recorded h e = Some (s, n) -> n <= count h s;
  nb_await : forall l1 x l2 s n m, E = l1 ++ x :: l2 -> what x = Await (Some (s, n)) -> m < n ->
    exists y, y ∈ l1 /\ on y = s /\ number y = m
}.

Lemma idle_numbered h : idle h -> numbered [] h.
Proof.
  intros [H0 He]. split; try done; [constructor|..].
  - intros x Hx. by apply elem_of_nil in Hx.
  - intros s m. rewrite H0. lia.
  - intros e s n Hr. specialize (He e). rewrite Hr in He. simpl in He. apply Nat.leb_le in He. rewrite H0. lia.
  - intros [|??]; discriminate.
Qed.

Lemma push_numbered E h s it :
  numbered E h -> (forall s' n, it = Await (Some (s', n)) -> n <= count h s') ->
  let (h', es) := push s it h in numbered (E ++ es) h'.
Proof.
  intros [Hs Hb Ha Hm Hw] Hit. simpl.
  assert (forall s', count h s' <= (<[s := S (count h s)]> (count h)) s') as Hmono.
  { intros s'. destruct (decide (s' = s)) as [->|]; [rewrite fn_lookup_insert; lia|by rewrite fn_lookup_insert_ne]. }
  split; simpl.
  - apply StronglySorted_app. split_and!; [|done|repeat constructor].
    intros x y Hx Hy%list_elem_of_singleton. subst y. intros Hon. simpl in *. specialize (Hb _ Hx). by rewrite Hon in Hb.
  - intros x [Hx| ->%list_elem_of_singleton]%elem_of_app.
    + specialize (Hb _ Hx). specialize (Hmono (on x)). lia.
    + simpl. rewrite fn_lookup_insert. lia.
  - intros s' m Hlt. destruct (decide (s' = s)) as [->|Hne].
    + rewrite fn_lookup_insert in Hlt. destruct (decide (m = count h s)) as [->|].
      * exists (mkEntry s (count h s) it). split; [|done]. apply elem_of_app. right. by apply list_elem_of_singleton.
      * destruct (Ha s m) as (x & ? & ?); [lia|]. exists x. split; [|done]. apply elem_of_app. by left.
    + rewrite fn_lookup_insert_ne in Hlt by done. destruct (Ha s' m Hlt) as (x & ? & ?). exists x.
      split; [|done]. apply elem_of_app. by left.
  - intros e s' n Hr. specialize (Hm _ _ _ Hr). specialize (Hmono s'). lia.
  - intros l1 x l2 s' n m HE Hx Hlt. destruct l2 as [|z l2 _] using rev_ind.
    + apply app_inj_tail in HE as [-> <-]. simpl in Hx. subst it. apply Ha. specialize (Hit s' n eq_refl). lia.
    + rewrite app_comm_cons, app_assoc in HE. apply app_inj_tail in HE as [HE _]. eauto.
Qed.

Lemma issue_numbered P h0 h E : numbered [] h0 -> issue_all P h0 = (h, E) -> numbered E h.
Proof.
  intros H0. revert h E. induction P as [|i P IH] using rev_ind; intros h E; [by intros [= <- <-]|].
  rewrite issue_all_snoc. destruct (issue_all P h0) as [h1 E1]. specialize (IH _ _ eq_refl).
  destruct i as [f|s f|e s|s e|e|s]; simpl; intros [= <- <-]; rewrite ?app_nil_r; try done.
  - by apply (push_numbered E1 h1 s (Work f)).
  - destruct IH as [Hs Hb Ha Hm Hw]. split; try done. simpl. intros e' s' n.
    destruct (decide (e' = e)) as [->|]; [|rewrite fn_lookup_insert_ne by done; apply Hm].
    rewrite fn_lookup_insert. intros [= <- <-]. done.
  - apply (push_numbered E1 h1 s (Await (recorded h1 e))); [done|]. intros s' n [= Hr]. by eapply nb_mark.
Qed.

(** ** The reachable configurations *)

Definition work_left (c : cfg) : nat := 2 * length (host c) + length (pend c).

Lemma step_work c c' : mstep c c' -> work_left c' < work_left c.
Proof.
  unfold work_left. intros [|s].
  - unfold host_step in H. destruct (host c) as [|i rest]; [done|]. destruct (host_ready i c); [|done].
    destruct i; simpl in H; injection H as <-; simpl; rewrite ?length_app; simpl; lia.
  - unfold stream_step in H. destruct (next_on s (pend c)) as [[[l1 x] l2]|] eqn:En; [|done].
    destruct (next_on_split _ _ _ _ _ En) as (Ep & _ & _). rewrite Ep.
    destruct (what x); [|destruct (reached _ _); [|done]]; injection H as <-; simpl; rewrite !length_app; simpl; lia.
Qed.

Lemma steps_bounded n c c' : nsteps mstep n c c' -> n + work_left c' <= work_left c.
Proof. induction 1 as [|n x y z Hs%step_work _ IH]; lia. Qed.

Lemma reached_mono ex ex' m : (forall s, ex s <= ex' s) -> reached ex m = true -> reached ex' m = true.
Proof.
  intros Hle. destruct m as [[s n]|]; [|done]. simpl. rewrite !Nat.leb_le. specialize (Hle s). lia.
Qed.

Lemma bump_mono (s s' : stream) (ex : stream -> nat) : ex s' <= (<[s := S (ex s)]> ex) s'.
Proof. destruct (decide (s' = s)) as [->|]; [rewrite fn_lookup_insert; lia|by rewrite fn_lookup_insert_ne]. Qed.

Section program.
Context (P : list instr) (h0 : Issued) (Hidle : idle h0).

(** [d] is what the host has executed of [P], [E] what it has issued. *)
Record machine_inv (d : list instr) (E : list entry) (c : cfg) : Prop := mkMachineInv {
  mi_prog : P = d ++ host c;
  mi_issue : issue_all d h0 = (issued c, E);
  mi_exec : forall s, executed c s <= count (issued c) s;
  mi_pend : pend c = filter (fun x => executed c (on x) <= number x) E;
  mi_await : forall x m, x ∈ E -> what x = Await m -> number x < executed c (on x) ->
    reached (executed c) m = true;
  mi_sync : forall d1 e d2 h E', d = d1 ++ ISync e :: d2 -> issue_all d1 h0 = (h, E') ->
    reached (executed c) (recorded h e) = true;
  mi_drain : forall d1 s d2 h E', d = d1 ++ IDrain s :: d2 -> issue_all d1 h0 = (h, E') ->
    count h s <= executed c s
}.

Lemma inv_numbered d E c : machine_inv d E c -> numbered E (issued c).
Proof using Hidle. intros [_ Hi _ _ _ _ _]. eapply issue_numbered; [by apply idle_numbered|done]. Qed.

Lemma inv_pending d E c x : machine_inv d E c -> x ∈ pend c <-> x ∈ E /\ executed c (on x) <= number x.
Proof using Type. intros [_ _ _ -> _ _ _]. rewrite list_elem_of_filter. tauto. Qed.

Lemma sorted_filter (Q : entry -> Prop) `{!forall x, Decision (Q x)} (R : relation entry) (l : list entry) :
  StronglySorted R l -> StronglySorted R (filter Q l).
Proof using Type.
  induction 1 as [|x l Hl IH Hx]; [constructor|]. rewrite filter_cons. case_decide; [|done].
  constructor; [done|]. rewrite Forall_forall in *. intros y [_ Hy]%list_elem_of_filter. auto.
Qed.

Lemma sorted_numbers_inj E x y :
  StronglySorted earlier E -> x ∈ E -> y ∈ E -> on x = on y -> number x = number y -> x = y.
Proof using Type.
  induction 1 as [|z E Hs IH Hz]; intros Hx Hy Hon Hn; [by apply elem_of_nil in Hx|].
  rewrite Forall_forall in Hz.
  apply elem_of_cons in Hx as [->|Hx], Hy as [->|Hy]; [done| | |by apply IH].
  - specialize (Hz _ Hy Hon). lia.
  - specialize (Hz _ Hx (eq_sym Hon)). lia.
Qed.

(** The oldest pending item of a stream is the next one it executes. *)
Lemma next_number d E c s l1 x l2 :
  machine_inv d E c -> next_on s (pend c) = Some (l1, x, l2) -> number x = executed c s.
Proof using Hidle.
  intros Hc Hn. destruct (next_on_split _ _ _ _ _ Hn) as (Ep & Hon & Hl1).
  destruct (inv_numbered _ _ _ Hc) as [Hs Hb Ha _ _].
  assert (x ∈ pend c) as Hx by (rewrite Ep; set_solver).
  apply (inv_pending _ _ _ _ Hc) in Hx as [HxE Hge]. rewrite Hon in Hge.
  destruct (decide (number x = executed c s)) as [|Hne]; [done|]. exfalso.
  specialize (Hb _ HxE). rewrite Hon in Hb.
  destruct (Ha s (executed c s)) as (y & HyE & Hys & Hyn); [lia|].
  assert (y ∈ pend c) as Hy by (apply (inv_pending _ _ _ _ Hc); rewrite Hys; split; [done|lia]).
  assert (StronglySorted earlier (pend c)) as Hsp by (rewrite (mi_pend _ _ _ Hc); by apply sorted_filter).
  rewrite Ep in Hy, Hsp. apply elem_of_app in Hy as [Hy|Hy].
  - rewrite Forall_forall in Hl1. by apply (Hl1 y).
  - apply elem_of_cons in Hy as [->|Hy]; [lia|].
    apply StronglySorted_app in Hsp as (_ & _ & Hsp). apply StronglySorted_cons in Hsp as [Hsp _].
    rewrite Forall_forall in Hsp. specialize (Hsp y Hy). unfold earlier in Hsp. rewrite Hon, Hys in Hsp.
    specialize (Hsp eq_refl). lia.
Qed.

Lemma start_inv m : machine_inv [] [] (start P h0 m).
Proof using Type.
  split; try done; try by intros [|??]; discriminate.
  - intros s. simpl. lia.
  - intros x ? Hx. by apply elem_of_nil in Hx.
Qed.

Lemma filter_all (Q : entry -> Prop) `{!forall x, Decision (Q x)} (l : list entry) : (forall x, x ∈ l -> Q x) -> filter Q l = l.
Proof using Type.
  induction l as [|x l IH]; intros Hq; [done|]. rewrite filter_cons_True by apply Hq, list_elem_of_here.
  f_equal. apply IH. intros y Hy. by apply Hq, list_elem_of_further.
Qed.

Lemma issue_fresh i h h' es x :
  issue_one i h = (h', es) -> x ∈ es -> number x = count h (on x).
Proof using Type.
  destruct i; simpl; intros [= <- <-] Hx; try (by apply elem_of_nil in Hx);
    apply list_elem_of_singleton in Hx; by subst x.
Qed.

Lemma issue_count i h h' es s : issue_one i h = (h', es) -> count h s <= count h' s.
Proof using Type.
  destruct i; simpl; intros [= <- <-]; simpl; try done; apply bump_mono.
Qed.

Lemma host_step_inv d E c c' :
  machine_inv d E c -> host_step c = Some c' -> exists d' E', machine_inv d' E' c'.
Proof using Type.
  intros [Hp Hi Hx Hpe Ha Hy Hr] Hs. unfold host_step in Hs.
  destruct (host c) as [|i rest] eqn:Eh; [done|]. destruct (host_ready i c) eqn:Er; [|done].
  destruct (issue_one i (issued c)) as [h es] eqn:Ei. injection Hs as <-.
  exists (d ++ [i]), (E ++ es). split; simpl.
  - by rewrite Hp, <- app_assoc.
  - rewrite issue_all_snoc, Hi. by rewrite Ei.
  - intros s. specialize (Hx s). pose proof (issue_count _ _ _ _ s Ei). lia.
  - rewrite filter_app, Hpe. f_equal. symmetry. apply filter_all. intros x Hin.
    rewrite (issue_fresh _ _ _ _ _ Ei Hin). apply Hx.
  - intros x m [Hin|Hin]%elem_of_app; [by apply Ha|]. intros _ Hlt.
    rewrite (issue_fresh _ _ _ _ _ Ei Hin) in Hlt. specialize (Hx (on x)). lia.
  - intros d1 e d2 h' E' Hd Hi1. destruct d2 as [|z d2 _] using rev_ind.
    + apply app_inj_tail in Hd as [<- ->]. rewrite Hi in Hi1. injection Hi1 as <- <-. exact Er.
    + rewrite app_comm_cons, app_assoc in Hd. apply app_inj_tail in Hd as [Hd _]. eauto.
  - intros d1 e d2 h' E' Hd Hi1. destruct d2 as [|z d2 _] using rev_ind.
    + apply app_inj_tail in Hd as [<- ->]. rewrite Hi in Hi1. injection Hi1 as <- <-.
      by apply Nat.leb_le in Er.
    + rewrite app_comm_cons, app_assoc in Hd. apply app_inj_tail in Hd as [Hd _]. eauto.
Qed.

Lemma pend_next d E c s l1 x l2 :
  machine_inv d E c -> next_on s (pend c) = Some (l1, x, l2) ->
  l1 ++ l2 = filter (fun y => (<[s := S (executed c s)]> (executed c)) (on y) <= number y) E.
Proof using Hidle.
  intros Hc Hn. pose proof (next_number _ _ _ _ _ _ _ Hc Hn) as Hnum.
  destruct (next_on_split _ _ _ _ _ Hn) as (Ep & Hon & Hl1).
  assert (StronglySorted earlier (pend c)) as Hsp.
  { rewrite (mi_pend _ _ _ Hc). apply sorted_filter. by destruct (inv_numbered _ _ _ Hc). }
  set (Q := fun y : entry => ~ (on y = s /\ number y = executed c s)).
  transitivity (filter Q (pend c)).
  - rewrite Ep, filter_app, filter_cons_False by (unfold Q; tauto).
    rewrite !filter_all; [done|..]; intros y Hy [Hys Hyn].
    + rewrite Ep in Hsp. apply StronglySorted_app in Hsp as (_ & _ & Hsp).
      apply StronglySorted_cons in Hsp as [Hsp _]. rewrite Forall_forall in Hsp.
      specialize (Hsp y Hy). unfold earlier in Hsp. rewrite Hon, Hys in Hsp. specialize (Hsp eq_refl). lia.
    + rewrite Forall_forall in Hl1. by apply (Hl1 y).
  - rewrite (mi_pend _ _ _ Hc), list_filter_filter. apply list_filter_iff. intros y. unfold Q.
    destruct (decide (on y = s)) as [->|Hne]; [rewrite fn_lookup_insert|rewrite fn_lookup_insert_ne by done; tauto].
    split; [|intros ?; split; [intros [_ ?]; lia|lia]].
    intros [Hq ?]. destruct (decide (number y = executed c s)); [by destruct Hq|lia].
Qed.

Lemma stream_step_inv d E c s c' :
  machine_inv d E c -> stream_step s c = Some c' -> machine_inv d E c'.
Proof using Hidle.
  intros Hc Hs. unfold stream_step in Hs.
  destruct (next_on s (pend c)) as [[[l1 x] l2]|] eqn:En; [|done].
  pose proof (pend_next _ _ _ _ _ _ _ Hc En) as Hpend.
  pose proof (next_number _ _ _ _ _ _ _ Hc En) as Hnum.
  destruct (next_on_split _ _ _ _ _ En) as (Ep & Hon & _).
  assert (x ∈ E) as HxE.
  { apply (inv_pending _ _ _ x Hc). rewrite Ep. set_solver. }
  assert (reached (executed c) (match what x with Await m => m | Work _ => None end) = true) as Hreach.
  { destruct (what x) as [f|m]; [done|]. by destruct (reached (executed c) m). }
  destruct (inv_numbered _ _ _ Hc) as [Hso Hb _ _ _]. specialize (Hb _ HxE).
  set (ex := <[s := S (executed c s)]> (executed c)) in *.
  assert (forall s', executed c s' <= ex s') as Hmono by (intros; apply bump_mono).
  assert (exists m, c' = mkCfg (host c) (issued c) (l1 ++ l2) ex m) as [m' ->].
  { destruct (what x) as [f|m]; [|destruct (reached _ m); [|done]]; injection Hs as <-; eauto. }
  clear Hs. destruct Hc as [Hp Hi Hx Hpe Ha Hy Hr]. split; simpl; try done.
  - intros s'. unfold ex. destruct (decide (s' = s)) as [->|]; [|by rewrite fn_lookup_insert_ne].
    rewrite fn_lookup_insert. rewrite <- Hnum. by rewrite Hon in Hb.
  - intros y m HyE Hym Hlt. apply (reached_mono (executed c)); [done|].
    destruct (decide (number y < executed c (on y))) as [|Hge]; [by eapply Ha|].
    assert (on y = s /\ number y = executed c s) as [Hys Hyn].
    { unfold ex in Hlt. destruct (decide (on y = s)) as [E1|]; [|by rewrite fn_lookup_insert_ne in Hlt].
      rewrite E1, fn_lookup_insert in Hlt. rewrite E1 in Hge. split; [done|lia]. }
    assert (y = x) as ->; [|by rewrite Hym in Hreach].
    apply (sorted_numbers_inj E); try done; congruence.
  - intros. apply (reached_mono (executed c)); [done|]. eauto.
  - intros d1 s' d2 h E' Hd Hi'. specialize (Hr _ _ _ _ _ Hd Hi'). specialize (Hmono s'). lia.
Qed.

Lemma machine_reach m c : rtc mstep (start P h0 m) c -> exists d E, machine_inv d E c.
Proof using Hidle.
  apply (rtc_ind_r (fun c => exists d E, machine_inv d E c) (start P h0 m));
    [eexists _, _; apply start_inv|].
  intros c1 c2 _ [|s] (d & E & Hc); [by eapply host_step_inv|].
  exists d, E. by eapply stream_step_inv.
Qed.

(** No program deadlocks: the item issued first among the pending ones can run,
    and without pending items the host can. *)
Lemma inv_progress d E c :
  machine_inv d E c -> (host c = [] /\ pend c = []) \/ exists c', mstep c c'.
Proof using Hidle.
  intros Hc. destruct (pend c) as [|x rest] eqn:Ep.
  - destruct (host c) as [|i P'] eqn:Eh; [by left|]. right.
    assert (host_ready i c = true) as Hready.
    { assert (forall s n, n <= count (issued c) s -> n <= executed c s) as Hall.
      { intros s n Hn. destruct (decide (n <= executed c s)) as [|Hgt]; [done|]. exfalso.
        destruct (nb_all _ _ (inv_numbered _ _ _ Hc) s (executed c s)) as (y & Hy & Hys & Hyn); [lia|].
        assert (y ∈ pend c) as Hin by (apply (inv_pending _ _ _ y Hc); rewrite Hys; split; [done|lia]).
        rewrite Ep in Hin. by apply elem_of_nil in Hin. }
      destruct i; try done; simpl.
      - destruct (recorded (issued c) e) as [[s n]|] eqn:Er; [|done]. simpl. apply Nat.leb_le, Hall.
        by apply (nb_mark _ _ (inv_numbered _ _ _ Hc) e).
      - apply Nat.leb_le, Hall. done. }
    destruct (issue_one i (issued c)) as [h es] eqn:Ei.
    eexists. apply mstep_host. unfold host_step. by rewrite Eh, Hready, Ei.
  - right. assert (next_on (on x) (pend c) = Some ([], x, rest)) as Hn.
    { rewrite Ep. simpl. by rewrite decide_True by done. }
    assert (forall m, what x = Await m -> reached (executed c) m = true) as Hm.
    { intros [[s n]|] Hw; [|done]. simpl. apply Nat.leb_le.
      destruct (decide (n <= executed c s)) as [|Hgt]; [done|]. exfalso.
      assert (x ∈ E) as Hx by (apply (inv_pending _ _ _ x Hc); rewrite Ep; apply list_elem_of_here).
      apply list_elem_of_split in Hx as (l1 & l2 & HE).
      destruct (nb_await _ _ (inv_numbered _ _ _ Hc) _ _ _ s n (executed c s) HE Hw) as (y & Hy & Hys & Hyn); [lia|].
      pose proof (mi_pend _ _ _ Hc) as Hf. rewrite HE, filter_app, Ep in Hf.
      assert (y ∈ filter (fun y => executed c (on y) <= number y) l1) as Hyl
        by (apply list_elem_of_filter; rewrite Hys; split; [lia|done]).
      destruct (filter _ l1) as [|z zs] eqn:El; [by apply elem_of_nil in Hyl|]. injection Hf as -> _.
      assert (z ∈ l1) as Hz by (apply (list_elem_of_filter (fun y => executed c (on y) <= number y)); rewrite El; apply list_elem_of_here).
      pose proof (nb_sorted _ _ (inv_numbered _ _ _ Hc)) as Hs. rewrite HE in Hs.
      apply StronglySorted_app in Hs as [Hs _].
      specialize (Hs z z Hz (list_elem_of_here _ _) eq_refl). lia. }
    destruct (what x) as [f|m] eqn:Ew; eexists; apply (mstep_stream _ (on x)); unfold stream_step; rewrite Hn, Ew; [done|].
    by rewrite (Hm m eq_refl).
Qed.

(** A program that ends by draining a stream leaves nothing on it. *)
Lemma drained d E c s Q x :
  machine_inv d E c -> host c = [] -> P = Q ++ [IDrain s] -> x ∈ pend c -> on x <> s.
Proof using Hidle.
  intros Hc Hh HP Hx Hs. apply (inv_pending _ _ _ _ Hc) in Hx as [HxE Hge].
  pose proof (nb_bound _ _ (inv_numbered _ _ _ Hc) x HxE) as Hlt.
  pose proof (mi_prog _ _ _ Hc) as Hd. rewrite Hh, app_nil_r, HP in Hd. symmetry in Hd.
  destruct (issue_all Q h0) as [h1 E1] eqn:EQ. pose proof (mi_issue _ _ _ Hc) as Hi.
  rewrite Hd, issue_all_snoc, EQ in Hi. injection Hi as Hi _.
  pose proof (mi_drain _ _ _ Hc _ _ [] _ _ Hd EQ) as Hdr. rewrite Hi in Hdr. rewrite Hs in *. lia.
Qed.

(** Every run is finite and ends with nothing left to do. *)
Lemma machine_live m :
  (forall k c, nsteps mstep k (start P h0 m) c -> k <= 2 * length P) /\
  (forall c, rtc mstep (start P h0 m) c -> (host c = [] /\ pend c = []) \/ exists c', mstep c c').
Proof using Hidle.
  split.
  - intros k c Hs%steps_bounded. unfold work_left, start in Hs. simpl in Hs. lia.
  - intros c Hr. destruct (machine_reach _ _ Hr) as (d & E & Hc). by eapply inv_progress.
Qed.

(** Without races every interleaving computes what program order computes. *)
Lemma race_free_outcome m c :
  (forall c', rtc mstep (start P h0 m) c' -> race_free c') ->
  rtc mstep (start P h0 m) c -> outcome c = seq_run P m.
Proof using Type.
  intros Hrf. apply (rtc_ind_r (fun c => outcome c = seq_run P m) (start P h0 m)); [done|].
  intros c1 c2 Hr Hs IH. rewrite <- IH. apply step_outcome; [by apply Hrf|done].
Qed.
End program.

(** ** A ring of three slots between two streams *)

Definition launches (s : stream) (n : nat) (f : nat -> Mem -> Mem) : list instr :=
  (fun r => ILaunch s (f r)) <$> seq 0 n.

Lemma launches_issue s n f h :
  exists h', issue_all (launches s n f) h
      = (h', (fun r => mkEntry s (count h s + r) (Work (f r))) <$> seq 0 n) /\
    count h' s = count h s + n /\ (forall s', s' <> s -> count h' s' = count h s') /\
    recorded h' = recorded h.
Proof.
  unfold launches. induction n as [|n IH].
  - exists h. simpl. split_and!; [done|lia|done|done].
  - destruct IH as (h1 & E1 & Hc & Ho & Hr). rewrite seq_S, !fmap_app. simpl.
    exists (mkIssued (<[s := S (count h1 s)]> (count h1)) (recorded h1)). split_and!.
    + rewrite issue_all_snoc, E1. simpl. by rewrite Hc.
    + simpl. rewrite fn_lookup_insert. lia.
    + intros s' Hne. simpl. rewrite fn_lookup_insert_ne by done. by apply Ho.
    + done.
Qed.

Section ring.
Context (prod cons : stream) (Hpc : prod <> cons) (NP NC : nat).
Context (pw cw : nat -> nat -> Mem -> Mem) (pre post : nat -> list instr).
Hypothesis pre_silent : forall i h, issue_all (pre i) h = (h, []).
Hypothesis post_silent : forall i h, issue_all (post i) h = (h, []).

(** One use of slot [i mod 3]: the producer waits until the slot is free, fills
    it and marks it ready; the consumer waits for that, uses it and frees it. *)
Definition ring_use (i : nat) : list instr :=
  [IWait prod (free_event (slot_of i))] ++ launches prod NP (pw i) ++
  [IRecord (ready_event (slot_of i)) prod; IWait cons (ready_event (slot_of i))] ++
  launches cons NC (cw i) ++ [IRecord (free_event (slot_of i)) cons].

Definition ring_iter (i : nat) : list instr := pre i ++ ring_use i ++ post i.
Definition ring_loop (a n : nat) : list instr := concat (ring_iter <$> seq a n).

(** Where the host's counters and events stand before iteration [i]. *)
Definition at_iter (i : nat) (h : Issued) : Prop :=
  count h prod = i * S NP /\ count h cons = i * S NC /\
  forall j, j < i -> i <= j + 3 -> recorded h (free_event (slot_of j)) = Some (cons, S j * S NC).

(** What the item with a given number does. *)
Definition ring_item (x : entry) : Prop :=
  if decide (on x = prod) then
    let i := number x / S NP in
    match number x mod S NP with
    | O => exists m, what x = Await m /\ (3 <= i -> m = Some (cons, (i - 2) * S NC))
    | S r => what x = Work (pw i r)
    end
  else
    on x = cons /\
    let i := number x / S NC in
    match number x mod S NC with
    | O => what x = Await (Some (prod, S i * S NP))
    | S r => what x = Work (cw i r)
    end.

Definition rank (x : entry) : nat :=
  if decide (on x = prod) then 2 * (number x / S NP) else S (2 * (number x / S NC)).

Lemma slot_eq j i : slot_of j = slot_of i -> j < i -> j + 3 <= i.
Proof using Type. unfold slot_of. intros Hs Hlt. pose proof (Nat.div_mod_eq j 3). pose proof (Nat.div_mod_eq i 3). lia. Qed.

Lemma slot_back i : 3 <= i -> slot_of (i - 3) = slot_of i.
Proof using Type.
  intros Hi. unfold slot_of. replace i with (i - 3 + 1 * 3) at 2 by lia. by rewrite Nat.Div0.mod_add.
Qed.

Lemma div_block i r n : r < S n -> (i * S n + r) / S n = i.
Proof using Type. intros Hr. symmetry. apply (Nat.div_unique _ _ _ r); lia. Qed.
Lemma mod_block i r n : r < S n -> (i * S n + r) mod S n = r.
Proof using Type. intros Hr. symmetry. apply (Nat.mod_unique _ _ i r); lia. Qed.

Lemma prod_entry i r it :
  r < S NP -> let x := mkEntry prod (i * S NP + r) it in
  rank x = 2 * i /\
  (match r with
   | O => exists m, it = Await m /\ (3 <= i -> m = Some (cons, (i - 2) * S NC))
   | S r => it = Work (pw i r)
   end -> ring_item x).
Proof using Type.
  intros Hr x. unfold rank, ring_item. cbn [x on number what]. rewrite !decide_True by done.
  by rewrite div_block, mod_block by done.
Qed.

Lemma cons_entry i r it :
  r < S NC -> let x := mkEntry cons (i * S NC + r) it in
  rank x = S (2 * i) /\
  (match r with O => it = Await (Some (prod, S i * S NP)) | S r => it = Work (cw i r) end -> ring_item x).
Proof using Hpc.
  intros Hr x. unfold rank, ring_item. cbn [x on number what]. rewrite !decide_False by congruence.
  rewrite div_block, mod_block by done. split; [done|]. by destruct r.
Qed.

Lemma const_sorted (k : nat) E :
  (forall x, x ∈ E -> rank x = k) -> StronglySorted (fun x y => rank x <= rank y) E.
Proof using Type.
  induction E as [|x E IH]; intros Hk; [constructor|]. constructor.
  - apply IH. intros y Hy. by apply Hk, list_elem_of_further.
  - apply Forall_forall. intros y Hy. rewrite (Hk x), (Hk y); [done| |]; [by apply list_elem_of_further|apply list_elem_of_here].
Qed.

Definition use_entries (i : nat) (m : option mark) : list entry :=
  (mkEntry prod (i * S NP) (Await m) ::
     ((fun r => mkEntry prod (S (i * S NP) + r) (Work (pw i r))) <$> seq 0 NP)) ++
  (mkEntry cons (i * S NC) (Await (Some (prod, S i * S NP))) ::
     ((fun r => mkEntry cons (S (i * S NC) + r) (Work (cw i r))) <$> seq 0 NC)).

Lemma ring_use_run i h :
  at_iter i h ->
  exists h', issue_all (ring_use i) h = (h', use_entries i (recorded h (free_event (slot_of i)))) /\
    at_iter (S i) h'.
Proof using Hpc.
  intros (Hp & Hc & Hr). unfold ring_use, use_entries.
  set (h1 := mkIssued (<[prod := S (count h prod)]> (count h)) (recorded h)).
  destruct (launches_issue prod NP (pw i) h1) as (h2 & E2 & Hp2 & Ho2 & Hr2).
  assert (count h1 prod = S (i * S NP)) as Hp1 by (simpl; by rewrite fn_lookup_insert, Hp).
  assert (count h1 cons = i * S NC) as Hc1 by (simpl; by rewrite fn_lookup_insert_ne).
  set (h3 := mkIssued (<[cons := S (count h2 cons)]> (count h2))
               (<[ready_event (slot_of i) := Some (prod, count h2 prod)]> (recorded h2))).
  destruct (launches_issue cons NC (cw i) h3) as (h4 & E4 & Hc4 & Ho4 & Hr4).
  assert (count h3 cons = S (i * S NC)) as Hc3.
  { simpl. rewrite fn_lookup_insert, Ho2 by congruence. by rewrite Hc1. }
  exists (mkIssued (count h4) (<[free_event (slot_of i) := Some (cons, count h4 cons)]> (recorded h4))). split.
  - rewrite Hp1 in E2. rewrite Hc3 in E4.
    erewrite issue_all_app; [|reflexivity|eapply issue_all_app; [exact E2|eapply issue_all_app;
      [reflexivity|eapply issue_all_app; [exact E4|reflexivity]]]].
    f_equal. simpl. rewrite app_nil_r, Hp, Hp2, Hp1, Ho2, Hc1 by congruence.
    rewrite fn_lookup_insert. by replace (S (i * S NP) + NP) with (S i * S NP) by lia.
  - unfold at_iter. simpl. split_and!.
    + rewrite Ho4 by done. simpl. rewrite fn_lookup_insert_ne by done. rewrite Hp2, Hp1. lia.
    + rewrite Hc4, Hc3. lia.
    + intros j Hj Hi. destruct (decide (j = i)) as [->|Hne].
      * rewrite fn_lookup_insert, Hc4, Hc3. do 2 f_equal. lia.
      * rewrite fn_lookup_insert_ne, Hr4; [|intros [= Hs]; symmetry in Hs; apply slot_eq in Hs; lia]. simpl.
        rewrite fn_lookup_insert_ne by done. rewrite Hr2. simpl. apply Hr; lia.
Qed.

Lemma use_entries_ok i m :
  (3 <= i -> m = Some (cons, (i - 2) * S NC)) ->
  (forall x, x ∈ use_entries i m -> ring_item x /\ 2 * i <= rank x <= S (2 * i)) /\
  StronglySorted (fun x y => rank x <= rank y) (use_entries i m).
Proof using Hpc.
  intros Hm.
  assert (forall x, x ∈ mkEntry prod (i * S NP) (Await m) ::
      ((fun r => mkEntry prod (S (i * S NP) + r) (Work (pw i r))) <$> seq 0 NP) ->
      ring_item x /\ rank x = 2 * i) as HP.
  { intros x [->|Hx]%elem_of_cons.
    - rewrite <- (Nat.add_0_r (i * S NP)). destruct (prod_entry i 0 (Await m)) as [Hr Hi]; [lia|].
      split; [apply Hi; eauto|done].
    - apply list_elem_of_fmap in Hx as (r & -> & Hr%elem_of_seq).
      destruct (prod_entry i (S r) (Work (pw i r))) as [Hk Hi]; [lia|].
      rewrite Nat.add_succ_comm. split; [by apply Hi|done]. }
  assert (forall x, x ∈ mkEntry cons (i * S NC) (Await (Some (prod, S i * S NP))) ::
      ((fun r => mkEntry cons (S (i * S NC) + r) (Work (cw i r))) <$> seq 0 NC) ->
      ring_item x /\ rank x = S (2 * i)) as HC.
  { intros x [->|Hx]%elem_of_cons.
    - rewrite <- (Nat.add_0_r (i * S NC)). destruct (cons_entry i 0 (Await (Some (prod, S i * S NP)))) as [Hr Hi]; [lia|].
      split; [by apply Hi|done].
    - apply list_elem_of_fmap in Hx as (r & -> & Hr%elem_of_seq).
      destruct (cons_entry i (S r) (Work (cw i r))) as [Hk Hi]; [lia|].
      rewrite Nat.add_succ_comm. split; [by apply Hi|done]. }
  unfold use_entries. split.
  - intros x [Hx|Hx]%elem_of_app; [destruct (HP x Hx)|destruct (HC x Hx)]; split; try done; lia.
  - apply StronglySorted_app. split_and!.
    + intros x y Hx Hy. destruct (HP x Hx), (HC y Hy). lia.
    + eapply const_sorted. intros x Hx. by apply HP.
    + eapply const_sorted. intros x Hx. by apply HC.
Qed.

Lemma free_mark i h :
  at_iter i h -> 3 <= i -> recorded h (free_event (slot_of i)) = Some (cons, (i - 2) * S NC).
Proof using Type.
  intros (_ & _ & Hr) Hi. rewrite <- slot_back by done. rewrite (Hr (i - 3)) by lia. do 3 f_equal. lia.
Qed.

Lemma ring_iter_run i h :
  at_iter i h ->
  exists h', issue_all (ring_iter i) h = (h', use_entries i (recorded h (free_event (slot_of i)))) /\
    at_iter (S i) h'.
Proof using Hpc pre_silent post_silent.
  intros Hat. destruct (ring_use_run i h Hat) as (h' & Eu & Hat'). exists h'. split; [|done].
  unfold ring_iter. erewrite issue_all_app; [|apply pre_silent|eapply issue_all_app; [exact Eu|apply post_silent]].
  by rewrite app_nil_r.
Qed.

Lemma ring_loop_run a n h :
  at_iter a h ->
  exists h' E, issue_all (ring_loop a n) h = (h', E) /\ at_iter (a + n) h' /\
    (forall x, x ∈ E -> ring_item x /\ 2 * a <= rank x) /\
    StronglySorted (fun x y => rank x <= rank y) E.
Proof using Hpc pre_silent post_silent.
  revert a h. induction n as [|n IH]; intros a h Hat.
  - exists h, []. rewrite Nat.add_0_r. split_and!; [done|done| |constructor]. intros x Hx. by apply elem_of_nil in Hx.
  - destruct (ring_iter_run a h Hat) as (h1 & E1 & Hat1).
    destruct (use_entries_ok a (recorded h (free_event (slot_of a)))) as [Hok1 Hs1]; [by apply free_mark|].
    destruct (IH (S a) h1 Hat1) as (h2 & E2 & E & Hat2 & Hok2 & Hs2). exists h2. eexists.
    unfold ring_loop in *. simpl. split_and!; [by eapply issue_all_app|by rewrite <- plus_n_Sm| |].
    + intros x [Hx|Hx]%elem_of_app; [destruct (Hok1 x Hx)|destruct (Hok2 x Hx)]; split; try done; lia.
    + apply StronglySorted_app. split_and!; [|done|done]. intros x y Hx Hy.
      destruct (Hok1 x Hx), (Hok2 y Hy). lia.
Qed.

Lemma idle_at_iter h : idle h -> at_iter 0 h.
Proof using Type. intros [H0 _]. unfold at_iter. rewrite !H0. split_and!; [done|done|lia]. Qed.

Lemma app_cons_split (l1 l2 d rest : list instr) z :
  l1 ++ l2 = d ++ z :: rest ->
  (exists k, l1 = d ++ z :: k) \/ (exists k, d = l1 ++ k /\ l2 = k ++ z :: rest).
Proof using Type.
  intros [(k & -> & Hk)|(k & -> & Hk)]%app_eq_inv; [|by right; exists k].
  destruct k as [|z' k]; [right; exists []; by rewrite !app_nil_r|]. injection Hk as -> _. left. by exists k.
Qed.

Lemma ring_use_no_host j f : IHost f ∉ ring_use j.
Proof using Type.
  unfold ring_use, launches. rewrite !elem_of_app, !list_elem_of_fmap.
  intros [H|[(r & H & _)|[H|[(r & H & _)|H]]]]; try discriminate;
    repeat (apply elem_of_cons in H as [H|H]; [discriminate|]); by apply elem_of_nil in H.
Qed.

(** Where the host's own work stands in a ring program. *)
Lemma ring_host_at tail n a d f rest :
  IHost f ∉ tail -> ring_loop a n ++ tail = d ++ IHost f :: rest ->
  exists j, a <= j < a + n /\
    ((exists p1 p2, pre j = p1 ++ IHost f :: p2 /\ d = ring_loop a (j - a) ++ p1) \/
     (exists p1 p2, post j = p1 ++ IHost f :: p2 /\ d = ring_loop a (j - a) ++ pre j ++ ring_use j ++ p1)).
Proof using Type.
  intros Ht. revert a d. induction n as [|n IH]; intros a d Hd.
  { exfalso. apply Ht. simpl in Hd. rewrite Hd. apply elem_of_app. right. apply list_elem_of_here. }
  unfold ring_loop in Hd. simpl in Hd. rewrite <- app_assoc in Hd. fold (ring_loop (S a) n) in Hd.
  apply app_cons_split in Hd as [[k Hk]|(k & -> & Hk)].
  - exists a. split; [lia|]. rewrite Nat.sub_diag. change (ring_loop a 0) with (@nil instr). unfold ring_iter in Hk.
    apply app_cons_split in Hk as [[k' Hk]|(k' & -> & Hk)]; [left; eauto|].
    apply app_cons_split in Hk as [[k'' Hk]|(k'' & -> & Hk)]; [|right; simpl; eauto 6].
    exfalso. apply (ring_use_no_host a f). rewrite Hk. apply elem_of_app. right. apply list_elem_of_here.
  - destruct (IH (S a) k Hk) as (j & Hj & Hor). exists j. split; [lia|].
    assert (forall q, ring_iter a ++ ring_loop (S a) (j - S a) ++ q = ring_loop a (j - a) ++ q) as Hl.
    { intros q. replace (j - a) with (S (j - S a)) by lia. unfold ring_loop at 2. simpl. by rewrite <- app_assoc. }
    destruct Hor as [(p1 & p2 & Hp & ->)|(p1 & p2 & Hp & ->)]; [left|right]; exists p1, p2; by rewrite Hl.
Qed.

(** *** The reachable configurations of a ring program *)

Section ring_runs.
Context (tail : list instr) (tail_silent : forall h, issue_all tail h = (h, [])).
Context (n : nat) (h0 : Issued) (Hidle : idle h0).

Definition ring_program : list instr := ring_loop 0 n ++ tail.

Lemma ring_inv d E c :
  machine_inv ring_program h0 d E c ->
  (forall x, x ∈ E -> ring_item x) /\ StronglySorted (fun x y => rank x <= rank y) E.
Proof using Hpc pre_silent post_silent tail_silent Hidle.
  intros Hc. destruct (ring_loop_run 0 n h0 (idle_at_iter _ Hidle)) as (hN & EN & EL & _ & Hok & Hs).
  assert (issue_all ring_program h0 = (hN, EN)) as EP.
  { unfold ring_program. erewrite issue_all_app; [|exact EL|apply tail_silent]. by rewrite app_nil_r. }
  rewrite (mi_prog _ _ _ _ _ Hc) in EP. destruct (issue_all (host c) (issued c)) as [h' E'] eqn:Eh.
  rewrite (issue_all_app _ _ _ _ _ _ _ (mi_issue _ _ _ _ _ Hc) Eh) in EP. injection EP as -> <-.
  apply StronglySorted_app in Hs as (_ & Hs & _). split; [|done].
  intros x Hx. apply Hok, elem_of_app. by left.
Qed.

(** A consumer past the wait of use [i] has the producer behind it. *)
Lemma chain_cons d E c i :
  machine_inv ring_program h0 d E c -> i * S NC < executed c cons -> S i * S NP <= executed c prod.
Proof using Hpc pre_silent post_silent tail_silent Hidle.
  intros Hc Hlt. pose proof (mi_exec _ _ _ _ _ Hc cons) as Hx.
  destruct (nb_all _ _ (inv_numbered _ _ Hidle _ _ _ Hc) cons (i * S NC)) as (z & Hz & Hzs & Hzn); [lia|].
  destruct (ring_inv _ _ _ Hc) as [Hok _]. specialize (Hok z Hz). unfold ring_item in Hok.
  rewrite Hzs, Hzn, decide_False in Hok by congruence. destruct Hok as [_ Hok].
  rewrite <- (Nat.add_0_r (i * S NC)), div_block, mod_block in Hok by lia.
  apply (mi_await _ _ _ _ _ Hc) in Hok; [|done|by rewrite Hzs, Hzn]. by apply Nat.leb_le in Hok.
Qed.

Lemma chain_prod d E c i :
  machine_inv ring_program h0 d E c -> 3 <= i -> i * S NP < executed c prod -> (i - 2) * S NC <= executed c cons.
Proof using Hpc pre_silent post_silent tail_silent Hidle.
  intros Hc Hi Hlt. pose proof (mi_exec _ _ _ _ _ Hc prod) as Hx.
  destruct (nb_all _ _ (inv_numbered _ _ Hidle _ _ _ Hc) prod (i * S NP)) as (z & Hz & Hzs & Hzn); [lia|].
  destruct (ring_inv _ _ _ Hc) as [Hok _]. specialize (Hok z Hz). unfold ring_item in Hok.
  rewrite Hzs, Hzn, decide_True in Hok by done.
  rewrite <- (Nat.add_0_r (i * S NP)), div_block, mod_block in Hok by lia.
  destruct Hok as (m & Hw & Hm). rewrite (Hm Hi) in Hw.
  apply (mi_await _ _ _ _ _ Hc) in Hw; [|done|by rewrite Hzs, Hzn]. by apply Nat.leb_le in Hw.
Qed.

Hypothesis slots_commute : forall i j r r', slot_of i <> slot_of j -> commute (pw i r) (cw j r').

Lemma div_le k m l : k * S m <= l -> k <= l / S m.
Proof using Type. intros Hk. apply Nat.div_le_lower_bound; lia. Qed.

Lemma item_start k m : k mod S m <> 0 -> k / S m * S m < k.
Proof using Type. intros Hk. pose proof (Nat.div_mod_eq k (S m)). lia. Qed.

Lemma commute_sym (f g : Mem -> Mem) : commute f g -> commute g f.
Proof using Type. intros Hc w. by rewrite Hc. Qed.
Lemma commute_wait (f : Mem -> Mem) x m : what x = Await m -> commute f (item_effect x).
Proof using Type. intros Hw w. unfold item_effect. by rewrite Hw. Qed.

(** What a stream runs does not race with older items of the other stream. *)
Lemma ring_stream_free d E c s l1 x l2 y :
  machine_inv ring_program h0 d E c -> next_on s (pend c) = Some (l1, x, l2) -> y ∈ l1 ->
  commute (item_effect x) (item_effect y).
Proof using Hpc pre_silent post_silent tail_silent Hidle slots_commute.
  intros Hc Hn Hy. pose proof (next_number _ _ Hidle _ _ _ _ _ _ _ Hc Hn) as Hnum.
  destruct (next_on_split _ _ _ _ _ Hn) as (Ep & Hon & Hl1). rewrite Forall_forall in Hl1. specialize (Hl1 y Hy).
  destruct (ring_inv _ _ _ Hc) as [Hok Hsort].
  assert (x ∈ E /\ executed c (on x) <= number x) as [HxE _] by (apply (inv_pending _ _ _ _ _ x Hc); rewrite Ep; set_solver).
  assert (y ∈ E /\ executed c (on y) <= number y) as [HyE Hyp] by (apply (inv_pending _ _ _ _ _ y Hc); rewrite Ep; set_solver).
  assert (rank y <= rank x) as Hrank.
  { apply (sorted_filter (fun z => executed c (on z) <= number z)) in Hsort.
    rewrite <- (mi_pend _ _ _ _ _ Hc), Ep in Hsort. apply StronglySorted_app in Hsort as (Hsort & _ & _).
    apply Hsort; [done|apply list_elem_of_here]. }
  pose proof (Hok x HxE) as Hxi. pose proof (Hok y HyE) as Hyi. unfold ring_item in Hxi, Hyi. unfold rank in Hrank.
  destruct (decide (on x = prod)) as [Exp|Exp].
  - destruct (number x mod S NP) as [|r] eqn:Er.
    { destruct Hxi as (m & Hw & _). apply commute_sym. by eapply commute_wait. }
    rewrite decide_False in Hyi by congruence. rewrite decide_False in Hrank by congruence. destruct Hyi as [Hyc Hyi].
    destruct (number y mod S NC) as [|r']; [by eapply commute_wait|].
    unfold item_effect. rewrite Hxi, Hyi. apply slots_commute. intros Hs. symmetry in Hs. apply slot_eq in Hs; [|lia].
    assert (number x / S NP - 2 <= number y / S NC); [|lia]. apply div_le. rewrite Hyc in Hyp.
    etransitivity; [|exact Hyp]. eapply chain_prod; [exact Hc|lia|]. rewrite <- Exp, Hon, <- Hnum. apply item_start. lia.
  - destruct Hxi as [Exc Hxi]. destruct (number x mod S NC) as [|r] eqn:Er.
    { apply commute_sym. by eapply commute_wait. }
    destruct (decide (on y = prod)) as [Eyp|Eyp]; [|destruct Hyi as [Eyc _]; congruence].
    destruct (number y mod S NP) as [|r']; [by destruct Hyi as (m & Hw & _); eapply commute_wait|]. exfalso.
    assert (S (number x / S NC) <= number y / S NP); [|lia]. apply div_le. rewrite Eyp in Hyp.
    etransitivity; [|exact Hyp]. eapply chain_cons; [exact Hc|]. rewrite <- Exc, Hon, <- Hnum. apply item_start. lia.
Qed.

Lemma ring_outcome m c :
  (forall d E c f rest x, machine_inv ring_program h0 d E c -> host c = IHost f :: rest -> x ∈ pend c ->
     commute f (item_effect x)) ->
  rtc mstep (start ring_program h0 m) c -> outcome c = seq_run ring_program m.
Proof using Hpc pre_silent post_silent tail_silent Hidle slots_commute.
  intros Hhost. apply race_free_outcome. intros c' Hr.
  destruct (machine_reach _ _ Hidle _ _ Hr) as (d & E & Hc). split; [intros; by eapply Hhost|].
  intros s l1 x l2 y Hn Hy. by eapply ring_stream_free.
Qed.

Lemma prefix_run j : exists h E, issue_all (ring_loop 0 j) h0 = (h, E) /\ at_iter j h.
Proof using Hpc pre_silent post_silent Hidle.
  destruct (ring_loop_run 0 j h0 (idle_at_iter _ Hidle)) as (h & E & E1 & Hat & _). eauto.
Qed.

Lemma pending_count d E c x :
  machine_inv ring_program h0 d E c -> x ∈ pend c ->
  x ∈ E /\ executed c (on x) <= number x < count (issued c) (on x).
Proof using Hidle.
  intros Hc [HxE Hge]%(inv_pending _ _ _ _ _ x Hc). split; [done|]. split; [done|].
  by apply (nb_bound _ _ (inv_numbered _ _ Hidle _ _ _ Hc)).
Qed.

(** Once the host has waited for slot [j], the producer's pending items are on
    other slots. *)
Lemma ring_pre_synced d E c j x :
  machine_inv ring_program h0 d E c ->
  d = ring_loop 0 j ++ (if 3 <=? j then [ISync (free_event (slot_of j))] else []) ->
  x ∈ pend c -> on x = prod -> slot_of (number x / S NP) <> slot_of j.
Proof using Hpc pre_silent post_silent tail_silent Hidle.
  intros Hc Hd Hx Hon Hs. destruct (prefix_run j) as (h & EE & Ei & Hat).
  assert (issued c = h) as Hi.
  { pose proof (mi_issue _ _ _ _ _ Hc) as Hi. rewrite Hd in Hi.
    erewrite issue_all_app in Hi; [by injection Hi|exact Ei|]. by destruct (3 <=? j). }
  destruct (pending_count _ _ _ _ Hc Hx) as (HxE & Hge & Hlt). rewrite Hi, Hon in *.
  destruct (Hat) as (Hcp & _ & _). rewrite Hcp in Hlt.
  apply slot_eq in Hs; [|apply Nat.Div0.div_lt_upper_bound; lia].
  assert (j - 2 <= number x / S NP); [|lia]. apply div_le. etransitivity; [|exact Hge].
  replace (j - 2) with (S (j - 3)) by lia. eapply chain_cons; [exact Hc|].
  destruct (Nat.leb_spec 3 j) as [Hj|]; [|lia].
  pose proof (mi_sync _ _ _ _ _ Hc _ _ [] _ _ Hd Ei) as Hr. rewrite (free_mark j h Hat Hj) in Hr.
  apply Nat.leb_le in Hr. replace (j - 2) with (S (j - 3)) in Hr by lia. lia.
Qed.

(** Once the host has waited for the last use, nothing is pending. *)
Lemma ring_post_synced d E c j x :
  machine_inv ring_program h0 d E c ->
  d = ring_loop 0 j ++ pre j ++ ring_use j ++ [ISync (free_event (slot_of j))] -> x ∉ pend c.
Proof using Hpc pre_silent post_silent tail_silent Hidle.
  intros Hc Hd Hx. destruct (prefix_run j) as (h & EE & Ei & Hat).
  destruct (ring_use_run j h Hat) as (h' & Eu & Hat').
  assert (issue_all (ring_loop 0 j ++ pre j ++ ring_use j) h0
            = (h', EE ++ [] ++ use_entries j (recorded h (free_event (slot_of j))))) as Ei'
    by (eapply issue_all_app; [exact Ei|eapply issue_all_app; [apply pre_silent|exact Eu]]).
  assert (d = (ring_loop 0 j ++ pre j ++ ring_use j) ++ ISync (free_event (slot_of j)) :: []) as Hd'
    by (by rewrite Hd, <- !app_assoc).
  assert (issued c = h') as Hi.
  { pose proof (mi_issue _ _ _ _ _ Hc) as Hi. rewrite Hd' in Hi.
    erewrite issue_all_app in Hi; [by injection Hi|exact Ei'|]. done. }
  destruct (pending_count _ _ _ _ Hc Hx) as (HxE & Hge & Hlt). rewrite Hi in Hlt.
  destruct Hat' as (Hp & Hcs & Hr).
  pose proof (mi_sync _ _ _ _ _ Hc _ _ [] _ _ Hd' Ei') as Hsync. rewrite (Hr j) in Hsync by lia.
  apply Nat.leb_le in Hsync.
  assert (S j * S NP <= executed c prod) as Hpe by (eapply chain_cons; [exact Hc|lia]).
  destruct (ring_inv _ _ _ Hc) as [Hok _]. specialize (Hok x HxE). unfold ring_item in Hok.
  destruct (decide (on x = prod)) as [E1|_]; [rewrite E1 in *; lia|].
  destruct Hok as [E1 _]. rewrite E1 in *. lia.
Qed.
End ring_runs.
End ring.
End machine.
Arguments instr : clear implicits.
Arguments cfg : clear implicits.
Arguments entry : clear implicits.
Arguments item : clear implicits.

Lemma imap_nth {A B} (f : nat -> A -> B) (d : A) l :
  imap f l = (fun i => f i (nth i l d)) <$> seq 0 (length l).
Proof.
  apply list_eq. intros i. rewrite list_lookup_imap, list_lookup_fmap.
  destruct (l !! i) as [x|] eqn:E; simpl.
  - rewrite lookup_seq_lt by by eapply lookup_lt_Some. simpl. by rewrite (nth_lookup_Some _ _ _ _ E).
  - rewrite lookup_seq_ge; [done|]. by apply lookup_ge_None.
Qed.

(** ** [from_host] as commands *)

Section load.
Context (n_layers : nat) (bpc : Z) (block_ids : list Z) (skip_blocks : Z).

(** [pipe.cpu_bufs[buf].numpy()[:] = np.frombuffer(blob)] *)
Definition put_buf (buf : nat) (blob : bytes) (t : KVTransfer) : KVTransfer :=
  match np_assign (buf_at (cpu_bufs (h2d t)) buf) blob with
  | Ok data => set_h2d (mkPipeline (staging (h2d t)) (<[buf := data]> (cpu_bufs (h2d t)))) t
  | Raise _ => t
  end.

(** [pipe.staging[buf].copy_(pipe.cpu_bufs[buf])] *)
Definition copy_up (buf : nat) (t : KVTransfer) : KVTransfer :=
  set_h2d (mkPipeline (<[buf := buf_at (cpu_bufs (h2d t)) buf]> (staging (h2d t))) (cpu_bufs (h2d t))) t.

(** [kv_cache.index_copy_(0, ids, pipe.layer_views[buf][layer][skip:])] *)
Definition scatter_layer (buf : nat) (ids : list Z) (skip : Z) (layer : nat) (t : KVTransfer) : KVTransfer :=
  match kv_caches t !! layer with
  | None => t
  | Some kv =>
      match index_copy kv ids (py_drop skip (layer_blocks (Z.to_nat (blocks_per_chunk t))
              (Z.to_nat (block_nbytes t)) layer (buf_at (staging (h2d t)) buf))) with
      | Ok kv' => set_kv (<[layer := kv']> (kv_caches t)) t
      | Raise _ => t
      end
  end.

Definition load_skip (i : nat) : Z := if Nat.eqb i 0 then skip_blocks else 0.
Definition load_ids (i : nat) : list Z := chunk_ids bpc i (load_skip i) block_ids.

(** What one iteration of [from_host] issues. *)
Definition load_instrs (i : nat) (blob : bytes) : list (instr KVTransfer) :=
  let buf := slot_of i in
  (if 3 <=? i then [ISync (free_event buf)] else []) ++
  [IHost (put_buf buf blob);
   IWait copy_stream (free_event buf);
   ILaunch copy_stream (copy_up buf);
   IRecord (ready_event buf) copy_stream;
   IWait kernel_stream (ready_event buf)] ++
  launches kernel_stream n_layers (scatter_layer buf (load_ids i) (load_skip i)) ++
  [IRecord (free_event buf) kernel_stream].

Definition load_program (chunks : list bytes) : list (instr KVTransfer) :=
  concat (imap load_instrs chunks) ++ [IDrain kernel_stream].

(** *** As a ring *)

Definition load_pre (chunks : list bytes) (i : nat) : list (instr KVTransfer) :=
  (if 3 <=? i then [ISync (free_event (slot_of i))] else []) ++ [IHost (put_buf (slot_of i) (nth i chunks []))].
Definition load_use (i r : nat) : KVTransfer -> KVTransfer := scatter_layer (slot_of i) (load_ids i) (load_skip i) r.

Lemma load_is_ring chunks :
  load_program chunks = ring_program copy_stream kernel_stream 1 n_layers (fun i _ => copy_up (slot_of i)) load_use
                          (load_pre chunks) (fun _ => []) [IDrain kernel_stream] (length chunks).
Proof using Type.
  unfold load_program, ring_program, ring_loop. f_equal. rewrite (imap_nth load_instrs ([] : bytes)). f_equal.
  apply list_fmap_ext. intros k i Hk. unfold load_instrs, ring_iter, ring_use, load_pre.
  rewrite <- !app_assoc, app_nil_r. reflexivity.
Qed.

Lemma buf_at_ne (bufs : list bytes) a b x : a <> b -> buf_at (<[a := x]> bufs) b = buf_at bufs b.
Proof using Type. intros Hne. unfold buf_at. by rewrite list_lookup_insert_ne. Qed.

Lemma put_copy_commute a b blob : a <> b -> commute (put_buf a blob) (copy_up b).
Proof using Type.
  intros Hne t. unfold put_buf, copy_up. cbn. destruct (np_assign _ blob); [|done]. cbn.
  by rewrite buf_at_ne.
Qed.

Lemma put_scatter_commute a blob b ids skip l : commute (put_buf a blob) (scatter_layer b ids skip l).
Proof using Type.
  intros t. unfold put_buf, scatter_layer.
  destruct (np_assign (buf_at (cpu_bufs (h2d t)) a) blob) eqn:E; cbn;
    destruct (kv_caches t !! l); cbn; rewrite ?E; try done;
    destruct (index_copy _ _ _); cbn; by rewrite ?E.
Qed.

Lemma copy_scatter_commute a b ids skip l : a <> b -> commute (copy_up a) (scatter_layer b ids skip l).
Proof using Type.
  intros Hne t. unfold copy_up, scatter_layer. cbn. rewrite buf_at_ne by done.
  destruct (kv_caches t !! l); [|done]. by destruct (index_copy _ _ _).
Qed.

Lemma load_outcome chunks h0 t c :
  idle h0 -> rtc mstep (start (load_program chunks) h0 t) c ->
  outcome c = seq_run (load_program chunks) t.
Proof using Type.
  rewrite load_is_ring. intros Hidle.
  assert (copy_stream <> kernel_stream) as Hpc by done.
  assert (forall i h, issue_all (load_pre chunks i) h = (h, [])) as Hpre'
    by (intros i h; unfold load_pre; by destruct (3 <=? i)).
  assert (forall (i : nat) h, issue_all (@nil (instr KVTransfer)) h = (h, [])) as Hpost' by done.
  assert (forall h, issue_all [@IDrain KVTransfer kernel_stream] h = (h, [])) as Htail by done.
  apply ring_outcome; try done.
  - intros i j _ r' Hs. by apply copy_scatter_commute.
  - intros d E c' f rest x Hc Hh Hx. pose proof (mi_prog _ _ _ _ _ Hc) as Hp. rewrite Hh in Hp.
    apply ring_host_at in Hp as (j & Hj & [(p1 & p2 & Hpre & Hd)|(p1 & p2 & Hpost & _)]).
    + assert (f = put_buf (slot_of j) (nth j chunks []) /\
              p1 = if 3 <=? j then [ISync (free_event (slot_of j))] else []) as [-> ->].
      { unfold load_pre in Hpre. destruct (3 <=? j); simpl in Hpre.
        - destruct p1 as [|? [|? p1]]; [done|by injection Hpre as <- <- _|].
          injection Hpre as _ _ Hpre. by destruct p1.
        - destruct p1 as [|? p1]; [by injection Hpre as <- _|]. injection Hpre as _ Hpre. by destruct p1. }
      rewrite Nat.sub_0_r in Hd.
      pose proof (proj1 (proj1 (inv_pending _ _ _ _ _ x Hc) Hx)) as HxE.
      destruct (ring_inv _ _ Hpc _ _ _ _ _ _ Hpre' Hpost' _ Htail _ _ Hidle _ _ _ Hc) as [Hok _].
      specialize (Hok x HxE). unfold ring_item in Hok. destruct (decide (on x = copy_stream)) as [Ex|Ex].
      * destruct (number x mod 2) as [|r]; [destruct Hok as (m & Hw & _); by eapply commute_wait|].
        unfold item_effect. rewrite Hok. apply put_copy_commute. intros Hs. symmetry in Hs. revert Hs.
        by eapply (ring_pre_synced _ _ Hpc _ _ _ _ _ _ Hpre' Hpost' _ Htail _ _ Hidle).
      * destruct Hok as [_ Hok]. destruct (number x mod S n_layers) as [|r]; [by eapply commute_wait|].
        unfold item_effect. rewrite Hok. apply put_scatter_commute.
    + by destruct p1.
    + intros [H|H]%elem_of_cons; [discriminate|]. by apply elem_of_nil in H.
Qed.

(** *** In program order *)

Lemma seq_app {Mem} (P Q : list (instr Mem)) m : seq_run (P ++ Q) m = seq_run Q (seq_run P m).
Proof using Type. apply foldl_app. Qed.

Lemma seq_launches {Mem} s n (f : nat -> Mem -> Mem) m :
  seq_run (launches s n f) m = foldl (fun m r => f r m) m (seq 0 n).
Proof using Type. unfold seq_run, launches. by rewrite foldl_fmap. Qed.

Lemma scatter_layers buf ids skip kvs1 kvs2 kvs' t :
  kv_caches t = kvs1 ++ kvs2 ->
  scatter (Z.to_nat (blocks_per_chunk t)) (Z.to_nat (block_nbytes t)) (length kvs1) kvs2 ids skip
    (buf_at (staging (h2d t)) buf) = (kvs', Ok tt) ->
  foldl (fun t l => scatter_layer buf ids skip l t) t (seq (length kvs1) (length kvs2)) = set_kv (kvs1 ++ kvs') t.
Proof using Type.
  revert kvs1 kvs' t. induction kvs2 as [|kv kvs2 IH]; intros kvs1 kvs' t Hkv Hs; simpl in Hs.
  - injection Hs as <-. simpl. rewrite <- Hkv. by destruct t.
  - destruct (index_copy kv ids _) as [kv'|] eqn:Ei; [|done].
    destruct (scatter _ _ (S (length kvs1)) kvs2 ids skip _) as [rest r] eqn:Er. injection Hs as <- ->.
    simpl. assert (scatter_layer buf ids skip (length kvs1) t = set_kv (kvs1 ++ kv' :: kvs2) t) as ->.
    { unfold scatter_layer. rewrite Hkv, list_lookup_middle by done. rewrite Ei.
      rewrite insert_app_r_alt, Nat.sub_diag by done. done. }
    replace (kvs1 ++ kv' :: kvs2) with ((kvs1 ++ [kv']) ++ kvs2) by by rewrite <- app_assoc.
    replace (S (length kvs1)) with (length (kvs1 ++ [kv'])) in * by (rewrite length_app; simpl; lia).
    rewrite (IH (kvs1 ++ [kv']) rest); [|done|done]. unfold set_kv. simpl. by rewrite <- app_assoc.
Qed.

Lemma scatter_length a b l kvs ids skip slot kvs' r :
  scatter a b l kvs ids skip slot = (kvs', r) -> length kvs' = length kvs.
Proof using Type.
  revert l kvs'. induction kvs as [|kv kvs IH]; intros l kvs'; simpl; [by intros [= <- _]|].
  destruct (index_copy kv ids _); [|by intros [= <- _]].
  destruct (scatter a b (S l) kvs ids skip slot) as [rest r'] eqn:E. intros [= <- ->]. simpl. by rewrite (IH _ _ E).
Qed.

Definition pipe_slots (p : Pipeline) : Prop := length (staging p) = 3 /\ length (cpu_bufs p) = 3.

Lemma load_one_seq i blob t t' :
  pipe_slots (h2d t) -> length (kv_caches t) = n_layers -> blocks_per_chunk t = bpc ->
  from_host_one block_ids skip_blocks i blob t = (t', Ok tt) ->
  seq_run (load_instrs i blob) t = t' /\ pipe_slots (h2d t') /\ length (kv_caches t') = n_layers /\
  blocks_per_chunk t' = bpc.
Proof using Type.
  intros [Hs Hc] Hl Hb Ho. unfold from_host_one in Ho.
  destruct (np_assign (buf_at (cpu_bufs (h2d t)) (slot_of i)) blob) as [data|] eqn:En; [|done].
  assert (slot_of i < 3) as Hslot by (unfold slot_of; apply Nat.mod_upper_bound; lia).
  destruct (scatter _ _ 0 (kv_caches t) _ _ data) as [kv' r] eqn:Esc. injection Ho as <- ->.
  set (t1 := set_h2d (mkPipeline (<[slot_of i := data]> (staging (h2d t))) (<[slot_of i := data]> (cpu_bufs (h2d t)))) t).
  assert (seq_run (load_instrs i blob) t
            = foldl (fun t l => scatter_layer (slot_of i) (load_ids i) (load_skip i) l t) t1 (seq 0 n_layers)) as ->.
  { unfold load_instrs. rewrite !seq_app, seq_launches.
    assert (seq_run (if 3 <=? i then [ISync (free_event (slot_of i))] else []) t = t) as -> by by destruct (3 <=? i).
    transitivity (foldl (fun t l => scatter_layer (slot_of i) (load_ids i) (load_skip i) l t)
      (copy_up (slot_of i) (put_buf (slot_of i) blob t)) (seq 0 n_layers)); [reflexivity|]. f_equal.
    unfold put_buf. rewrite En. unfold copy_up, t1, set_h2d. simpl. unfold buf_at at 1.
    by rewrite list_lookup_insert_eq by lia. }
  rewrite <- Hl at 1. rewrite (scatter_layers _ _ _ [] (kv_caches t) kv'); [|done|].
  - split_and!; [done| | |done]; simpl; unfold pipe_slots; simpl; rewrite ?length_insert; [done|].
    by rewrite (scatter_length _ _ _ _ _ _ _ _ _ Esc).
  - simpl. unfold buf_at. rewrite list_lookup_insert_eq by lia. unfold load_ids, load_skip. rewrite <- Hb. exact Esc.
Qed.

Lemma load_loop_seq chunks i t t' :
  pipe_slots (h2d t) -> length (kv_caches t) = n_layers -> blocks_per_chunk t = bpc ->
  from_host_loop block_ids skip_blocks i chunks t = (t', Ok tt) ->
  seq_run (concat (imap (fun k => load_instrs (i + k)) chunks)) t = t'.
Proof using Type.
  revert i t. induction chunks as [|blob chunks IH]; intros i t Hp Hl Hb Ho; [by injection Ho as <-|].
  simpl in Ho. unfold bind in Ho. destruct (from_host_one _ _ i blob t) as [t1 [[]|]] eqn:E1; [|done].
  destruct (load_one_seq i blob t t1 Hp Hl Hb E1) as (Es & Hp1 & Hl1 & Hb1).
  rewrite imap_cons. simpl. rewrite seq_app, Nat.add_0_r, Es. rewrite <- (IH (S i) t1 Hp1 Hl1 Hb1 Ho).
  f_equal. f_equal. apply imap_ext. intros k x _. simpl. by rewrite <- plus_n_Sm.
Qed.

(** Once the host has left the loop and drained the kernel stream, what may still
    be pending does not touch the KV tensors. *)
Lemma load_drained chunks h0 t c :
  idle h0 -> rtc mstep (start (load_program chunks) h0 t) c -> host c = [] ->
  kv_caches (flush_all (pend c) (mem c)) = kv_caches (mem c).
Proof using Type.
  rewrite load_is_ring. intros Hidle Hr Hh.
  assert (copy_stream <> kernel_stream) as Hpc by done.
  assert (forall i h, issue_all (load_pre chunks i) h = (h, [])) as Hpre'
    by (intros i h; unfold load_pre; by destruct (3 <=? i)).
  assert (forall (i : nat) h, issue_all (@nil (instr KVTransfer)) h = (h, [])) as Hpost' by done.
  assert (forall h, issue_all [@IDrain KVTransfer kernel_stream] h = (h, [])) as Htail by done.
  destruct (machine_reach _ _ Hidle _ _ Hr) as (d & E & Hc).
  destruct (ring_inv _ _ Hpc _ _ _ _ _ _ Hpre' Hpost' _ Htail _ _ Hidle _ _ _ Hc) as [Hok _].
  assert (forall x, x ∈ pend c -> forall t, kv_caches (item_effect x t) = kv_caches t) as Hkv.
  { intros x Hx t'. pose proof (proj1 (inv_pending _ _ _ _ _ x Hc) Hx) as [HxE Hge].
    specialize (Hok x HxE). unfold ring_item in Hok. unfold item_effect.
    destruct (decide (on x = copy_stream)) as [Ex|Ex].
    - destruct (number x mod 2); [by destruct Hok as (m & -> & _)|]. by rewrite Hok.
    - exfalso. destruct Hok as [Ek _]. by apply (drained _ _ Hidle _ _ _ _ _ _ Hc Hh eq_refl Hx). }
  by apply flush_preserves.
Qed.
End load.

(** C20: the two-stream, three-buffer pipeline of [from_host]: however the host,
    the copy stream and the kernel stream interleave, the call never deadlocks,
    ends after a bounded number of moves, and when it returns the KV tensors are
    those of copying chunk by chunk in program order, which is what the rest of
    the development reasons about. *)
Theorem from_host_pipelined t t' chunks block_ids skip h :
  pipe_slots (h2d t) -> idle h -> from_host chunks block_ids skip t = (t', Ok tt) ->
  let P := load_program (length (kv_caches t)) (blocks_per_chunk t) block_ids skip chunks in
  (forall k c, nsteps mstep k (start P h t) c -> k <= 2 * length P) /\
  (forall c, rtc mstep (start P h t) c -> (host c = [] /\ pend c = []) \/ exists c', mstep c c') /\
  (forall c, rtc mstep (start P h t) c -> host c = [] -> kv_caches (mem c) = kv_caches t').
Proof.
  intros Hp Hidle Ho P. destruct (machine_live P h Hidle t) as [Hb Hl]. split; [exact Hb|]. split; [exact Hl|].
  intros c Hr Hh. rewrite <- (load_drained _ _ _ _ _ _ _ _ Hidle Hr Hh).
  pose proof (load_outcome _ _ _ _ _ _ _ _ Hidle Hr) as Ho'. unfold outcome in Ho'. rewrite Hh in Ho'.
  change (seq_run [] ?x) with x in Ho'. rewrite Ho'. f_equal.
  unfold from_host in Ho. cbv beta iota delta [bind get lift_res] in Ho.
  destruct (py_mod _ _) as [r|]; [|done]. destruct (r =? 0)%Z; [|done].
  unfold P, load_program. rewrite seq_app. change (seq_run [IDrain kernel_stream] ?x) with x.
  by apply (load_loop_seq _ _ _ _ chunks 0).
Qed.

(** ** [to_host] as commands

    The memory is the engine and the list of chunks the host has taken so far.
    The call starts with a synchronize of the whole device: nothing is pending. *)

Section save.
Context (n_layers : nat) (bpc : Z) (block_ids : list Z).
Notation mem_out := (KVTransfer * list bytes)%type.

(** [torch.index_select(kv_cache, 0, ids, out=pipe.layer_views[buf][layer])] *)
Definition gather_layer (buf : nat) (ids : list Z) (layer : nat) (m : mem_out) : mem_out :=
  match kv_caches m.1 !! layer with
  | None => m
  | Some kv =>
      match index_select kv ids with
      | Ok blocks =>
          (set_d2h (mkPipeline (<[buf := write_layer (Z.to_nat (blocks_per_chunk m.1)) (Z.to_nat (block_nbytes m.1))
                                    layer blocks (buf_at (staging (d2h m.1)) buf)]> (staging (d2h m.1)))
                               (cpu_bufs (d2h m.1))) m.1, m.2)
      | Raise _ => m
      end
  end.

(** [pipe.cpu_bufs[buf].copy_(pipe.staging[buf])] *)
Definition copy_down (buf : nat) (m : mem_out) : mem_out :=
  (set_d2h (mkPipeline (staging (d2h m.1))
                       (<[buf := buf_at (staging (d2h m.1)) buf]> (cpu_bufs (d2h m.1)))) m.1, m.2).

(** [chunks.append(pipe.cpu_bufs[buf].numpy().tobytes())] *)
Definition take_chunk (buf : nat) (m : mem_out) : mem_out := (m.1, m.2 ++ [buf_at (cpu_bufs (d2h m.1)) buf]).

Definition save_ids (i : nat) : list Z := chunk_ids bpc i 0 block_ids.

(** What one iteration of [to_host] issues. *)
Definition save_instrs (i : nat) : list (instr mem_out) :=
  let buf := slot_of i in
  [IWait kernel_stream (free_event buf)] ++
  launches kernel_stream n_layers (gather_layer buf (save_ids i)) ++
  [IRecord (ready_event buf) kernel_stream;
   IWait copy_stream (ready_event buf);
   ILaunch copy_stream (copy_down buf);
   IRecord (free_event buf) copy_stream;
   ISync (free_event buf);
   IHost (take_chunk buf)].

Definition save_program (n : nat) : list (instr mem_out) := concat (save_instrs <$> seq 0 n).

Definition save_post (i : nat) : list (instr mem_out) :=
  [ISync (free_event (slot_of i)); IHost (take_chunk (slot_of i))].

Lemma save_is_ring n :
  save_program n = ring_program kernel_stream copy_stream n_layers 1
                     (fun i => gather_layer (slot_of i) (save_ids i)) (fun i _ => copy_down (slot_of i))
                     (fun _ => []) save_post [] n.
Proof using Type.
  unfold save_program, ring_program, ring_loop. rewrite app_nil_r. f_equal. apply list_fmap_ext. intros k i Hk.
  unfold save_instrs, ring_iter, ring_use, save_post. rewrite <- !app_assoc. reflexivity.
Qed.

Lemma gather_copy_commute a b ids l : a <> b -> commute (gather_layer a ids l) (copy_down b).
Proof using Type.
  intros Hne [t out]. unfold gather_layer, copy_down. cbn.
  destruct (kv_caches t !! l); [|done]. destruct (index_select _ ids); [|done]. cbn. by rewrite buf_at_ne.
Qed.

Lemma save_outcome n h0 m c :
  idle h0 -> rtc mstep (start (save_program n) h0 m) c -> outcome c = seq_run (save_program n) m.
Proof using Type.
  rewrite save_is_ring. intros Hidle.
  assert (kernel_stream <> copy_stream) as Hpc by done.
  assert (forall (i : nat) h, issue_all (@nil (instr mem_out)) h = (h, [])) as Hpre' by done.
  assert (forall i h, issue_all (save_post i) h = (h, [])) as Hpost' by done.
  assert (forall h, issue_all (@nil (instr mem_out)) h = (h, [])) as Htail by done.
  apply ring_outcome; try done.
  - intros i j r _ Hs. by apply gather_copy_commute.
  - intros d E c' f rest x Hc Hh Hx. pose proof (mi_prog _ _ _ _ _ Hc) as Hp. rewrite Hh in Hp.
    apply ring_host_at in Hp as (j & Hj & [(p1 & p2 & Hpre & _)|(p1 & p2 & Hpost & Hd)]).
    + by destruct p1.
    + exfalso. rewrite Nat.sub_0_r in Hd.
      assert (p1 = [ISync (free_event (slot_of j))]) as ->.
      { unfold save_post in Hpost. destruct p1 as [|? [|? p1]]; [done|by injection Hpost as <- _ _|].
        injection Hpost as _ _ Hpost. by destruct p1. }
      by apply (ring_post_synced _ _ Hpc _ _ _ _ _ _ Hpre' Hpost' _ Htail _ _ Hidle _ _ _ _ _ Hc Hd Hx).
    + intros H. by apply elem_of_nil in H.
Qed.

(** *** In program order *)

Lemma gather_layers buf ids kvs1 kvs2 slot t out :
  kv_caches t = kvs1 ++ kvs2 -> buf < length (staging (d2h t)) ->
  gather (Z.to_nat (blocks_per_chunk t)) (Z.to_nat (block_nbytes t)) (length kvs1) kvs2 ids
    (buf_at (staging (d2h t)) buf) = Ok slot ->
  foldl (fun m l => gather_layer buf ids l m) (t, out) (seq (length kvs1) (length kvs2))
    = (set_d2h (mkPipeline (<[buf := slot]> (staging (d2h t))) (cpu_bufs (d2h t))) t, out).
Proof using Type.
  revert kvs1 t. induction kvs2 as [|kv kvs2 IH]; intros kvs1 t Hkv Hbuf Hg; simpl in Hg.
  - injection Hg as <-. simpl. unfold buf_at. destruct (lookup_lt_is_Some_2 _ _ Hbuf) as [x Hx]. rewrite Hx.
    rewrite list_insert_id by done. by destruct t as [? ? ? ? ? [] ?].
  - destruct (index_select kv ids) as [blocks|] eqn:Ei; [|done]. simpl in Hg.
    simpl. unfold gather_layer at 2. cbn [fst snd]. rewrite Hkv, list_lookup_middle by done. rewrite Ei.
    set (w := write_layer _ _ _ _ _) in *.
    set (t1 := set_d2h (mkPipeline (<[buf := w]> (staging (d2h t))) (cpu_bufs (d2h t))) t).
    replace (S (length kvs1)) with (length (kvs1 ++ [kv])) in * by (rewrite length_app; simpl; lia).
    rewrite (IH (kvs1 ++ [kv]) t1).
    + unfold t1, set_d2h. simpl. by rewrite list_insert_insert_eq.
    + simpl. by rewrite Hkv, <- app_assoc.
    + simpl. by rewrite length_insert.
    + simpl. unfold buf_at at 1. by rewrite list_lookup_insert_eq.
Qed.

Lemma save_one_seq i t t' out out' :
  pipe_slots (d2h t) -> length (kv_caches t) = n_layers -> blocks_per_chunk t = bpc ->
  to_host_one block_ids out i t = (t', Ok out') ->
  seq_run (save_instrs i) (t, out) = (t', out') /\ pipe_slots (d2h t') /\ length (kv_caches t') = n_layers /\
  blocks_per_chunk t' = bpc.
Proof using Type.
  intros [Hs Hc] Hl Hb Ho. unfold to_host_one in Ho.
  destruct (gather _ _ 0 (kv_caches t) _ _) as [slot|] eqn:Eg; [|done]. injection Ho as <- <-.
  assert (slot_of i < 3) as Hslot by (unfold slot_of; apply Nat.mod_upper_bound; lia).
  split; [|unfold pipe_slots; simpl; by rewrite !length_insert].
  unfold save_instrs. rewrite !seq_app, seq_launches.
  change (seq_run [IWait kernel_stream (free_event (slot_of i))] (t, out)) with (t, out).
  rewrite <- Hl at 1. rewrite (gather_layers _ _ [] (kv_caches t) slot); [|done|lia|unfold save_ids; by rewrite <- Hb].
  set (m1 := (set_d2h (mkPipeline (<[slot_of i:=slot]> (staging (d2h t))) (cpu_bufs (d2h t))) t, out)).
  transitivity (take_chunk (slot_of i) (copy_down (slot_of i) m1)); [reflexivity|].
  unfold take_chunk, copy_down, m1, set_d2h. simpl.
  assert (buf_at (<[slot_of i:=slot]> (staging (d2h t))) (slot_of i) = slot) as ->
    by (unfold buf_at; by rewrite list_lookup_insert_eq by lia).
  f_equal. unfold buf_at. by rewrite list_lookup_insert_eq by lia.
Qed.

Lemma save_loop_seq n a t t' out out' :
  pipe_slots (d2h t) -> length (kv_caches t) = n_layers -> blocks_per_chunk t = bpc ->
  for_acc (seq a n) out (to_host_one block_ids) t = (t', Ok out') ->
  seq_run (concat (save_instrs <$> seq a n)) (t, out) = (t', out').
Proof using Type.
  revert a t out. induction n as [|n IH]; intros a t out Hp Hl Hb Ho; [by injection Ho as <- <-|].
  simpl in Ho. unfold bind in Ho. destruct (to_host_one block_ids out a t) as [t1 [out1|]] eqn:E1; [|done].
  destruct (save_one_seq a t t1 out out1 Hp Hl Hb E1) as (Es & Hp1 & Hl1 & Hb1).
  change (concat (save_instrs <$> seq a (S n))) with (save_instrs a ++ concat (save_instrs <$> seq (S a) n)).
  rewrite seq_app, Es. by apply IH.
Qed.

Lemma save_pending_out n h0 m c :
  idle h0 -> rtc mstep (start (save_program n) h0 m) c -> (flush_all (pend c) (mem c)).2 = (mem c).2.
Proof using Type.
  rewrite save_is_ring. intros Hidle Hr.
  assert (kernel_stream <> copy_stream) as Hpc by done.
  assert (forall (i : nat) h, issue_all (@nil (instr mem_out)) h = (h, [])) as Hpre' by done.
  assert (forall i h, issue_all (save_post i) h = (h, [])) as Hpost' by done.
  assert (forall h, issue_all (@nil (instr mem_out)) h = (h, [])) as Htail by done.
  destruct (machine_reach _ _ Hidle _ _ Hr) as (d & E & Hc).
  destruct (ring_inv _ _ Hpc _ _ _ _ _ _ Hpre' Hpost' _ Htail _ _ Hidle _ _ _ Hc) as [Hok _].
  assert (forall x, x ∈ pend c -> forall m, (item_effect x m).2 = m.2) as Hout.
  { intros x Hx m'. pose proof (proj1 (inv_pending _ _ _ _ _ x Hc) Hx) as [HxE _].
    specialize (Hok x HxE). unfold ring_item in Hok. unfold item_effect. destruct (decide (on x = kernel_stream)).
    - destruct (number x mod S n_layers); [by destruct Hok as (? & -> & _)|]. rewrite Hok. unfold gather_layer.
      destruct (kv_caches m'.1 !! _); [|done]. by destruct (index_select _ _).
    - destruct Hok as [_ Hok]. destruct (number x mod 2); by rewrite Hok. }
  by apply flush_preserves.
Qed.
End save.

(** C21: the pipeline of [to_host], under every interleaving of the host and the
    two streams: no deadlock, a bounded number of moves, and the chunks the host
    returns are those of copying in program order. *)
Theorem to_host_pipelined t t' chunks block_ids h :
  pipe_slots (d2h t) -> idle h -> to_host block_ids t = (t', Ok chunks) ->
  let P := save_program (length (kv_caches t)) (blocks_per_chunk t) block_ids
             (Z.to_nat (Zlen block_ids / blocks_per_chunk t)) in
  (forall k c, nsteps mstep k (start P h (t, [])) c -> k <= 2 * length P) /\
  (forall c, rtc mstep (start P h (t, [])) c -> (host c = [] /\ pend c = []) \/ exists c', mstep c c') /\
  (forall c, rtc mstep (start P h (t, [])) c -> host c = [] -> (mem c).2 = chunks).
Proof.
  intros Hp Hidle Ho P. destruct (machine_live P h Hidle (t, [])) as [Hb Hl]. split; [exact Hb|]. split; [exact Hl|].
  intros c Hr Hh. rewrite <- (save_pending_out _ _ _ _ _ _ _ Hidle Hr).
  pose proof (save_outcome _ _ _ _ _ _ _ Hidle Hr) as Ho'. unfold outcome in Ho'. rewrite Hh in Ho'.
  change (seq_run [] ?x) with x in Ho'. rewrite Ho'.
  unfold to_host in Ho. cbv beta iota delta [bind get lift_res] in Ho.
  destruct (py_mod _ _) as [r|]; [|done]. destruct (r =? 0)%Z; [|done].
  destruct (py_floordiv _ _) as [q|] eqn:Eq; [|done].
  assert (q = (Zlen block_ids / blocks_per_chunk t)%Z) as ->.
  { unfold py_floordiv in Eq. by destruct (_ =? 0)%Z; [|injection Eq as <-]. }
  unfold P, save_program. by rewrite (save_loop_seq _ _ _ _ _ _ _ _ _ Hp eq_refl eq_refl Ho).
Qed.

(** ** Witnesses: four one-block chunks through three slots *)

Definition toy_ring : KVTransfer := mkKVTransfer 0 toy_kv 1 2 4 (new_pipeline 4) (new_pipeline 4).
Definition toy_ids : list Z := [3; 0; 1; 2]%Z.
Definition toy_blobs : list bytes := (fun id => chunk_bytes toy_kv0 [id]) <$> toy_ids.
Definition no_events : Issued := mkIssued (fun _ => 0) (fun _ => None).

(** The host runs ahead until it has to wait, then the copies, then the kernels. *)
Definition toy_turns : list (option stream) :=
  concat (replicate 10 (replicate 40 None ++ replicate 10 (Some copy_stream) ++ replicate 20 (Some kernel_stream))).

Lemma no_events_idle : idle no_events.
Proof. done. Qed.

Lemma from_host_pipelined_witness :
  let P := load_program 2 1 toy_ids 0 toy_blobs in
  let c := run_sched toy_turns (start P no_events toy_ring) in
  kv_caches (mem c) = kv_caches (from_host toy_blobs toy_ids 0 toy_ring).1 /\ kv_caches (mem c) = toy_kv0.
Proof.
  destruct (from_host_pipelined toy_ring _ toy_blobs toy_ids 0 no_events
    (conj eq_refl eq_refl) no_events_idle eq_refl) as (_ & _ & H).
  split; [|reflexivity]. apply H; [apply run_sched_steps|reflexivity].
Defined.

Lemma to_host_pipelined_witness :
  let P := save_program 2 1 toy_ids 4 in
  let c := run_sched toy_turns (start P no_events (toy_ring, [])) in
  to_host toy_ids toy_ring = ((to_host toy_ids toy_ring).1, Ok ((mem c).2)) /\ length ((mem c).2) = 4.
Proof.
  assert (exists chunks, to_host toy_ids toy_ring = ((to_host toy_ids toy_ring).1, Ok chunks)) as [chunks Ho]
    by (eexists; vm_compute; reflexivity).
  destruct (to_host_pipelined toy_ring _ chunks toy_ids no_events
    (conj eq_refl eq_refl) no_events_idle Ho) as (_ & _ & H).
  split; [|reflexivity]. rewrite Ho at 1. do 2 f_equal. symmetry. apply H; [apply run_sched_steps|reflexivity].
Defined.
