(* ===== verification/Tracker.v ===== *)
(** The per-request state of the connector (integration/vllm_connector.py):
    [RequestTracker], the generation of transfer operations from it, and what
    each scheduler hook does to one tracker.

    [token_ids] is the list vLLM owns and extends as it generates tokens; the
    tracker only ever reads it. *)
From S2P Require Import Prelude PyFloat Protocol.
Local Open Scope py_scope.
Local Open Scope Z_scope.

Record RequestTracker := mkRequestTracker {
  token_ids : list Z;
  lmcache_hits : Z;
  vllm_hits : Z;
  block_ids : list Z;
  num_computed_tokens : Z;
  num_stored_tokens : Z;
  lookup_resolved : bool;
  load_pending : bool;
  alloc_seen : bool
}.

Definition new_tracker (token_ids : list Z) : RequestTracker :=
  mkRequestTracker token_ids 0 0 [] 0 0 false false false.

Definition set_tokens (x : list Z) (t : RequestTracker) : RequestTracker :=
  mkRequestTracker x (lmcache_hits t) (vllm_hits t) (block_ids t) (num_computed_tokens t)
    (num_stored_tokens t) (lookup_resolved t) (load_pending t) (alloc_seen t).
Definition set_block_ids (x : list Z) (t : RequestTracker) : RequestTracker :=
  mkRequestTracker (token_ids t) (lmcache_hits t) (vllm_hits t) x (num_computed_tokens t)
    (num_stored_tokens t) (lookup_resolved t) (load_pending t) (alloc_seen t).
Definition set_computed (x : Z) (t : RequestTracker) : RequestTracker :=
  mkRequestTracker (token_ids t) (lmcache_hits t) (vllm_hits t) (block_ids t) x
    (num_stored_tokens t) (lookup_resolved t) (load_pending t) (alloc_seen t).
Definition set_stored (x : Z) (t : RequestTracker) : RequestTracker :=
  mkRequestTracker (token_ids t) (lmcache_hits t) (vllm_hits t) (block_ids t)
    (num_computed_tokens t) x (lookup_resolved t) (load_pending t) (alloc_seen t).
Definition set_resolved (t : RequestTracker) : RequestTracker :=
  mkRequestTracker (token_ids t) (lmcache_hits t) (vllm_hits t) (block_ids t)
    (num_computed_tokens t) (num_stored_tokens t) true (load_pending t) (alloc_seen t).
Definition set_load_pending (x : bool) (t : RequestTracker) : RequestTracker :=
  mkRequestTracker (token_ids t) (lmcache_hits t) (vllm_hits t) (block_ids t)
    (num_computed_tokens t) (num_stored_tokens t) (lookup_resolved t) x (alloc_seen t).
Definition set_alloc_seen (t : RequestTracker) : RequestTracker :=
  mkRequestTracker (token_ids t) (lmcache_hits t) (vllm_hits t) (block_ids t)
    (num_computed_tokens t) (num_stored_tokens t) (lookup_resolved t) (load_pending t) true.

Section ops.
Context (chunk_size block_size : Z).

Definition generate_retrieve_op : M RequestTracker (option LoadStoreOp) :=
  let* tracker := get in
  if negb (load_pending tracker) then ret None
  else
    let* _ := modify (set_load_pending false) in
    let* q := lift_res (py_floordiv (vllm_hits tracker) chunk_size) in
    let start := q * chunk_size in
    let end_ := lmcache_hits tracker in
    let* first := lift_res (py_floordiv start block_size) in
    let* last := lift_res (py_floordiv end_ block_size) in
    ret (Some (mkLoadStoreOp (py_take end_ (token_ids tracker))
                 (py_slice first last (block_ids tracker))
                 start end_ (vllm_hits tracker - start))).

(** [min(len(token_ids), len(block_ids) * block_size, num_computed_tokens)] *)
Definition available (t : RequestTracker) : Z :=
  Z.min (Z.min (Zlen (token_ids t)) (Zlen (block_ids t) * block_size)) (num_computed_tokens t).

Definition generate_store_op : M RequestTracker (option LoadStoreOp) :=
  let* tracker := get in
  let* num_chunks :=
    lift_res (py_floordiv (available tracker - num_stored_tokens tracker) chunk_size) in
  if num_chunks <=? 0 then ret None
  else
    let start := num_stored_tokens tracker in
    let end_ := start + num_chunks * chunk_size in
    let* _ := modify (set_stored end_) in
    let* first := lift_res (py_floordiv start block_size) in
    let* last := lift_res (py_floordiv end_ block_size) in
    ret (Some (mkLoadStoreOp (py_take end_ (token_ids tracker))
                 (py_slice first last (block_ids tracker)) start end_ 0)).
End ops.

(** The tracker after the query that resolves the lookup. *)
Definition resolve_hits (hits num_computed : Z) (t : RequestTracker) : RequestTracker :=
  mkRequestTracker (token_ids t) hits num_computed (block_ids t) (num_computed_tokens t) hits
    true (load_pending t) (alloc_seen t).

(** [update_state_after_alloc] on the tracker: the new blocks extend the known
    ones, and the first allocation yields the number of chunks to unlock. *)
Definition alloc_update (chunk_size : Z) (group_blocks : list Z) (num_external_tokens : Z)
    : M RequestTracker (option Z) :=
  let* tracker := get in
  let* _ := modify (set_block_ids (block_ids tracker
              ++ py_drop (Zlen (block_ids tracker)) group_blocks)) in
  let* _ := modify (if 0 <? num_external_tokens then set_load_pending true else id) in
  if alloc_seen tracker then ret None
  else
    let* _ := modify set_alloc_seen in
    let* tracker := get in
    let* lmcache_chunks := lift_res (py_floordiv (lmcache_hits tracker) chunk_size) in
    let* free_until :=
      if load_pending tracker then
        let* v := lift_res (py_floordiv (vllm_hits tracker) chunk_size) in
        ret (Z.min v lmcache_chunks)
      else ret lmcache_chunks in
    ret (if free_until =? 0 then None else Some free_until).

(** ** The operations, with a valid geometry *)

Section geometry.
Context (cs bs : Z).
Hypotheses (Hbs : 0 < bs) (Hcs : 0 < cs) (Hdiv : cs mod bs = 0).

(** A token count that fills whole chunks. *)
Definition whole (x : Z) : Prop := 0 <= x /\ x mod cs = 0.

Lemma whole_0 : whole 0.
Proof. split; [lia|]. apply Zmod_0_l. Qed.

Lemma whole_blocks x : x mod cs = 0 -> x mod bs = 0.
Proof.
  intros Hx. apply Z.mod_divide in Hx as [a ->]; [|lia]. apply Z.mod_divide in Hdiv as [b ->]; [|lia].
  rewrite Z.mul_assoc. by apply Z_mod_mult.
Qed.

Lemma blocks_exact x : x mod bs = 0 -> x / bs * bs = x.
Proof using Hbs. intros Hx. pose proof (Z.div_mod x bs ltac:(lia)). lia. Qed.

Lemma whole_add x n : x mod cs = 0 -> (x + n * cs) mod cs = 0.
Proof using Hcs. intros Hx. by rewrite Z_mod_plus_full. Qed.

(** The block-table window of a token range that ends inside the table. *)
Lemma window_length a b (ids : list Z) :
  0 <= a <= b -> a mod bs = 0 -> b mod bs = 0 -> b <= Zlen ids * bs ->
  Zlen (py_slice (a / bs) (b / bs) ids) * bs = b - a /\
  py_slice (a / bs) (b / bs) ids
    = take (Z.to_nat ((b - a) / bs)) (drop (Z.to_nat (a / bs)) ids).
Proof using Hbs.
  intros Hab Ha Hb Hl. pose proof (blocks_exact a Ha) as Ea. pose proof (blocks_exact b Hb) as Eb.
  assert (0 <= a / bs <= b / bs) as Hq by (split; [apply Z.div_pos; lia|apply Z.div_le_mono; lia]).
  assert ((b - a) / bs = b / bs - a / bs) as Ed.
  { replace (b - a) with ((b / bs - a / bs) * bs) by lia. apply Z.div_mul. lia. }
  rewrite py_slice_nonneg by lia. rewrite Ed, Z2Nat.inj_sub by lia. split; [|done].
  unfold Zlen in *. rewrite length_take, length_drop, Nat.min_l by nia. nia.
Qed.

Lemma take_whole (e : Z) (l : list Z) : 0 <= e <= Zlen l -> Zlen (py_take e l) = e.
Proof using. intros He. rewrite py_take_nonneg by lia. unfold Zlen in *. rewrite length_take. lia. Qed.

Lemma store_op_run t :
  let n := (available bs t - num_stored_tokens t) / cs in
  let s := num_stored_tokens t in
  let e := s + n * cs in
  generate_store_op cs bs t =
    if n <=? 0 then (t, Ok None)
    else (set_stored e t,
          Ok (Some (mkLoadStoreOp (py_take e (token_ids t))
                      (py_slice (s / bs) (e / bs) (block_ids t)) s e 0))).
Proof using Hbs Hcs.
  intros n s e. unfold generate_store_op, get, bind, lift_res, py_floordiv, modify, ret.
  replace (cs =? 0) with false by lia. replace (bs =? 0) with false by lia.
  fold n. by destruct (n <=? 0).
Qed.

(** What a STORE operation always looks like. *)
Record store_op_ok (tokens : list Z) (op : LoadStoreOp) : Prop := {
  so_start : whole (op_start op);
  so_end : whole (op_end op);
  so_order : op_start op < op_end op;
  so_skip : op_skip_first_n_tokens op = 0;
  so_tokens : op_token_ids op = py_take (op_end op) tokens;
  so_len : op_end op <= Zlen tokens;
  so_blocks : Zlen (op_block_ids op) * bs = op_end op - op_start op
}.

Lemma store_op_spec t t' op :
  whole (num_stored_tokens t) -> generate_store_op cs bs t = (t', Ok (Some op)) ->
  store_op_ok (token_ids t) op /\ op_start op = num_stored_tokens t /\
  t' = set_stored (op_end op) t /\ op_end op <= available bs t < op_end op + cs /\
  op_block_ids op = take (Z.to_nat ((op_end op - op_start op) / bs))
                      (drop (Z.to_nat (op_start op / bs)) (block_ids t)).
Proof.
  intros [Hs0 Hsm]. rewrite store_op_run. set (n := (_ - _) / cs).
  destruct (Z.leb_spec n 0) as [|Hn]; [discriminate|]. intros [= <- <-]. cbn.
  pose proof (Z.div_mod (available bs t - num_stored_tokens t) cs ltac:(lia)) as Hd.
  pose proof (Z.mod_pos_bound (available bs t - num_stored_tokens t) cs ltac:(lia)). fold n in Hd.
  set (s := num_stored_tokens t) in *. set (e := s + n * cs) in *.
  assert (e mod cs = 0) as Hem by by apply whole_add.
  assert (e <= available bs t < e + cs) as Hav by nia.
  assert (e <= Zlen (token_ids t) /\ e <= Zlen (block_ids t) * bs) as [Ht Hb]
    by (unfold available in Hav; lia).
  destruct (window_length s e (block_ids t)) as [Hw1 Hw2];
    [nia|by apply whole_blocks|by apply whole_blocks|done|].
  split; [|done]. split; cbn; [done|split; [nia|done]|nia|done|done|done|done].
Qed.

Lemma retrieve_op_run t :
  generate_retrieve_op cs bs t =
    if load_pending t then
      let s := vllm_hits t / cs * cs in
      (set_load_pending false t,
       Ok (Some (mkLoadStoreOp (py_take (lmcache_hits t) (token_ids t))
                   (py_slice (s / bs) (lmcache_hits t / bs) (block_ids t))
                   s (lmcache_hits t) (vllm_hits t - s))))
    else (t, Ok None).
Proof using Hbs Hcs.
  unfold generate_retrieve_op, get, bind, lift_res, py_floordiv, modify, ret.
  replace (cs =? 0) with false by lia. replace (bs =? 0) with false by lia.
  by destruct (load_pending t).
Qed.

Lemma alloc_update_run t blocks ext :
  let t1 := set_block_ids (block_ids t ++ drop (length (block_ids t)) blocks) t in
  let t2 := if 0 <? ext then set_load_pending true t1 else t1 in
  alloc_update cs blocks ext t =
    if alloc_seen t then (t2, Ok None)
    else (set_alloc_seen t2,
          Ok (let n := if load_pending t2 then Z.min (vllm_hits t / cs) (lmcache_hits t / cs)
                       else lmcache_hits t / cs in
              if n =? 0 then None else Some n)).
Proof using Hcs.
  intros t1 t2. unfold alloc_update, get, bind, modify, lift_res, py_floordiv, ret.
  rewrite py_drop_nonneg by apply Zlen_nonneg. unfold Zlen. rewrite Nat2Z.id. fold t1.
  replace (cs =? 0) with false by lia. unfold t2. destruct t, (0 <? ext); simpl in *;
    destruct alloc_seen0; try done; by destruct load_pending0.
Qed.
End geometry.

(** A STORE operation is generated exactly when at least one more whole
    chunk is computed, allocated and known; it then starts where the last one
    ended and covers all the whole chunks available, with the block ids of
    precisely that token range (so that they fill whole chunks), and moves the
    waterline to its end; less than a chunk is left over. *)
Theorem store_op_exact cs bs t :
  0 < bs -> 0 < cs -> cs mod bs = 0 -> whole cs (num_stored_tokens t) ->
  match generate_store_op cs bs t with
  | (t', Ok None) => t' = t /\ available bs t < num_stored_tokens t + cs
  | (t', Ok (Some op)) =>
      store_op_ok cs bs (token_ids t) op /\ op_start op = num_stored_tokens t /\
      t' = set_stored (op_end op) t /\ op_end op <= available bs t < op_end op + cs /\
      op_block_ids op = take (Z.to_nat ((op_end op - op_start op) / bs))
                          (drop (Z.to_nat (op_start op / bs)) (block_ids t))
  | (_, Raise _) => False
  end.
Proof.
  intros Hbs Hcs Hdiv Hw. destruct (generate_store_op cs bs t) as [t' [[op|]|e]] eqn:E.
  - by apply store_op_spec.
  - rewrite store_op_run in E by done. destruct (Z.leb_spec ((available bs t - num_stored_tokens t) / cs) 0);
      [|discriminate]. injection E as <-. split; [done|].
    pose proof (Z.mul_succ_div_gt (available bs t - num_stored_tokens t) cs Hcs). nia.
  - rewrite store_op_run in E by done. by destruct (_ <=? 0).
Qed.

(** A RETRIEVE operation is generated once per pending load; it spans from
    the start of the chunk in which the local hits end to the end of the cached
    prefix, its block ids fill whole chunks, and the part to skip, smaller than a
    chunk, is exactly what vLLM already has. *)
Lemma retrieve_op_exact cs bs t :
  0 < bs -> 0 < cs -> cs mod bs = 0 -> whole cs (lmcache_hits t) ->
  0 <= vllm_hits t < lmcache_hits t -> lmcache_hits t <= Zlen (token_ids t) ->
  lmcache_hits t <= Zlen (block_ids t) * bs -> load_pending t = true ->
  exists op, generate_retrieve_op cs bs t = (set_load_pending false t, Ok (Some op)) /\
    generate_retrieve_op cs bs (set_load_pending false t) = (set_load_pending false t, Ok None) /\
    whole cs (op_start op) /\ op_end op = lmcache_hits t /\
    op_start op + op_skip_first_n_tokens op = vllm_hits t /\
    0 <= op_skip_first_n_tokens op < cs /\
    Zlen (op_token_ids op) = op_end op /\
    Zlen (op_block_ids op) * bs = op_end op - op_start op /\
    Zlen (op_block_ids op) mod (cs / bs) = 0 /\
    0 <= op_skip_first_n_tokens op / bs <= cs / bs.
Proof.
  intros Hbs Hcs Hdiv [Hw0 Hwm] Hv Ht Hb Hp. set (s := vllm_hits t / cs * cs).
  pose proof (Z.div_mod (vllm_hits t) cs ltac:(lia)) as Hd.
  pose proof (Z.mod_pos_bound (vllm_hits t) cs ltac:(lia)) as Hm.
  assert (0 <= vllm_hits t / cs) by (apply Z.div_pos; lia).
  assert (s mod cs = 0) as Hsm by by apply Z_mod_mult.
  pose proof (Z.div_mod (lmcache_hits t) cs ltac:(lia)) as Hd'.
  destruct (window_length bs Hbs s (lmcache_hits t) (block_ids t)) as [Hw1 _];
    [unfold s; nia|by eapply (whole_blocks cs bs)|by eapply (whole_blocks cs bs)|done|].
  eexists. split; [rewrite retrieve_op_run, Hp by done; reflexivity|].
  split; [by rewrite retrieve_op_run by done|]. cbn. fold s.
  split; [split; [unfold s; nia|done]|]. split; [done|]. split; [lia|]. split; [unfold s; lia|].
  split; [by apply take_whole|]. split; [exact Hw1|].
  assert (cs = cs / bs * bs) as Ecs by (pose proof (Z.div_mod cs bs ltac:(lia)); lia).
  assert (0 < cs / bs) by nia.
  split.
  - set (n := Zlen (py_slice _ _ _)) in *. set (q := cs / bs) in *.
    set (a := lmcache_hits t / cs) in *. set (b := vllm_hits t / cs) in *.
    assert (n = (a - b) * q) as ->; [|by apply Z_mod_mult].
    apply (Z.mul_reg_r _ _ bs); [lia|]. rewrite Hw1. unfold s. rewrite Hd', Hwm.
    transitivity ((a - b) * (q * bs)); [rewrite <- Ecs|]; lia.
  - split; [apply Z.div_pos; unfold s; lia|apply Z.div_le_mono; unfold s; lia].
Qed.

(** ** The life of a tracker

    What the hooks do to the tracker of one request between its creation and
    its removal, with the STORE operations generated so far.  vLLM appends to the
    token list at any time and schedules a request only once its lookup is
    resolved; block tables come from vLLM and are arbitrary. *)

Section life.
Context (cs bs : Z).

Inductive tlife (toks : list Z) : RequestTracker -> list LoadStoreOp -> Prop :=
| tl_new : tlife toks (new_tracker toks) []
| tl_tokens t ops more : tlife toks t ops -> tlife toks (set_tokens (token_ids t ++ more) t) ops
| tl_hits t ops hits n : tlife toks t ops -> lookup_resolved t = false -> whole cs hits ->
    tlife toks (resolve_hits hits n t) ops
| tl_failed t ops : tlife toks t ops -> lookup_resolved t = false -> tlife toks (set_resolved t) ops
| tl_alloc t ops blocks n t' r : tlife toks t ops -> alloc_update cs blocks n t = (t', Ok r) ->
    tlife toks t' ops
| tl_retrieve t ops t' r : tlife toks t ops -> generate_retrieve_op cs bs t = (t', Ok r) ->
    tlife toks t' ops
| tl_table t ops blocks n : tlife toks t ops ->
    tlife toks (set_computed n (set_block_ids blocks t)) ops
| tl_store t ops n t' r : tlife toks t ops -> lookup_resolved t = true ->
    generate_store_op cs bs (set_computed (num_computed_tokens t + n) t) = (t', Ok r) ->
    tlife toks t' (ops ++ match r with Some op => [op] | None => [] end).

(** Operations that cover [from, to) without gap or overlap. *)
Fixpoint tiled (from : Z) (ops : list LoadStoreOp) (to : Z) : Prop :=
  match ops with
  | [] => from = to
  | op :: ops' => op_start op = from /\ from < op_end op /\ tiled (op_end op) ops' to
  end.

Lemma tiled_app from ops1 mid ops2 to :
  tiled from ops1 mid -> tiled mid ops2 to -> tiled from (ops1 ++ ops2) to.
Proof.
  revert from. induction ops1 as [|op ops1 IH]; intros from; simpl; [by intros ->|].
  intros (H1 & H2 & H3) H4. split_and!; [done|done|]. by apply IH.
Qed.

Definition life_inv (toks : list Z) (t : RequestTracker) (ops : list LoadStoreOp) : Prop :=
  whole cs (lmcache_hits t) /\ whole cs (num_stored_tokens t) /\
  tiled (lmcache_hits t) ops (num_stored_tokens t) /\
  Forall (store_op_ok cs bs (token_ids t)) ops /\ toks `prefix_of` token_ids t /\
  (lookup_resolved t = false -> ops = [] /\ num_stored_tokens t = 0).

Lemma store_op_ok_grow tokens more op :
  store_op_ok cs bs tokens op -> store_op_ok cs bs (tokens ++ more) op.
Proof.
  intros [H1 H2 H3 H4 H5 H6 H7]. pose proof (proj1 H2). assert (op_end op <= Zlen (tokens ++ more)) by (unfold Zlen in *; rewrite length_app; lia).
  split; try done. rewrite H5, !py_take_nonneg by lia. rewrite take_app_le; [done|]. unfold Zlen in H6. lia.
Qed.

Hypotheses (Hbs : 0 < bs) (Hcs : 0 < cs) (Hdiv : cs mod bs = 0).

Lemma life_inv_holds toks t ops : tlife toks t ops -> life_inv toks t ops.
Proof.
  unfold life_inv. induction 1 as [|t ops more _ IH|t ops hits n _ IH Hr Hw|t ops _ IH Hr|t ops blocks n t' r _ IH E
    |t ops t' r _ IH E|t ops blocks n _ IH|t ops n t' r _ IH Hr E].
  - split_and!; [apply whole_0..|done|done|done|done].
  - destruct IH as (H1 & H2 & H3 & H4 & H5 & H6). split_and!; cbn; [done|done|done| | |done].
    + eapply Forall_impl; [exact H4|]. intros op. apply store_op_ok_grow.
    + by apply prefix_app_r.
  - destruct IH as (_ & _ & _ & _ & H5 & H6). destruct (H6 Hr) as [-> _]. by split_and!.
  - destruct IH as (H1 & H2 & H3 & H4 & H5 & H6). by split_and!.
  - rewrite alloc_update_run in E by done. destruct (alloc_seen t), (0 <? n); injection E as <- _; exact IH.
  - rewrite retrieve_op_run in E by done. destruct (load_pending t); injection E as <- _; exact IH.
  - exact IH.
  - destruct IH as (H1 & H2 & H3 & H4 & H5 & H6).
    set (t1 := set_computed _ t) in *. destruct r as [op|].
    + destruct (store_op_spec cs bs Hbs Hcs Hdiv t1 t' op H2 E) as (Hop & Hs & -> & _).
      cbn in *. split_and!; [done|apply Hop| |by apply Forall_app; split; [|constructor]|done|congruence].
      eapply tiled_app; [exact H3|]. simpl. split_and!; [done| |done]. rewrite <- Hs. apply Hop.
    + rewrite store_op_run in E by done. destruct (_ <=? 0); [|done]. injection E as <-.
      rewrite app_nil_r. by split_and!.
Qed.
End life.

(** ** Witnesses: blocks of 2 tokens, chunks of 4 *)

Definition toy_tracker : RequestTracker :=
  mkRequestTracker [1; 2; 3; 4; 5; 6; 7; 8; 9] 4 2 [10; 11; 12; 13; 14] 9 4 true true true.

Lemma store_op_exact_witness :
  match generate_store_op 4 2 toy_tracker with
  | (t', Ok (Some op)) => t' = set_stored 8 toy_tracker /\ op_block_ids op = [12; 13]
  | _ => False
  end.
Proof.
  assert (whole 4 (num_stored_tokens toy_tracker)) as Hw by (split; [discriminate|reflexivity]).
  pose proof (store_op_exact 4 2 toy_tracker ltac:(lia) ltac:(lia) eq_refl Hw) as H.
  change (generate_store_op 4 2 toy_tracker) with
    (set_stored 8 toy_tracker, Ok (Some (mkLoadStoreOp [1; 2; 3; 4; 5; 6; 7; 8] [12; 13] 4 8 0))) in *.
  destruct H as (_ & _ & H & _ & Hb). split; [exact H|exact Hb].
Defined.

Lemma retrieve_op_exact_witness :
  exists op, generate_retrieve_op 4 2 toy_tracker = (set_load_pending false toy_tracker, Ok (Some op)) /\
    op_start op + op_skip_first_n_tokens op = 2 /\ Zlen (op_block_ids op) * 2 = op_end op - op_start op.
Proof.
  destruct (retrieve_op_exact 4 2 toy_tracker) as (op & H1 & _ & _ & _ & H2 & _ & _ & H3 & _).
  - lia.
  - lia.
  - reflexivity.
  - split; [discriminate|reflexivity].
  - split; [discriminate|reflexivity].
  - discriminate.
  - discriminate.
  - reflexivity.
  - exists op. split; [exact H1|]. split; [exact H2|exact H3].
Defined.
