(* ===== verification/Connector.v ===== *)
(** The connector (integration/vllm_connector.py): the scheduler hooks over the
    trackers of all requests, and the worker side that executes the transfers.

    What vLLM passes to a hook is an argument of its definition, and so are the
    messages [ms] that arrive while a [call] blocks.  The queued requests are
    logged in [sent]; replies reach the client through [client_on_recv].
    [events] are the [done] events, [loads] the started threads that have not
    run yet. *)
From S2P Require Import Prelude PyFloat Protocol Hasher Memory L1Manager Eviction L1Protocol.
From S2P Require Import L2 Threads Storage Prefetch Server MQ KVFormat Transfer Tracker.
Local Open Scope py_scope.
Local Open Scope Z_scope.

Record LoadThread := mkLoadThread {
  lt_request_id : string;
  lt_op : LoadStoreOp;
  lt_future : Z;
  lt_done : nat
}.

Record Connector := mkConnector {
  cn_chunk_size : Z;
  cn_block_size : Z;
  cn_model : string;
  cn_world_size : Z;
  cn_instance_id : Z;
  client : Client;
  sent : list (Z * request);
  trackers : list (string * RequestTracker);
  store_futures : list (string * list DeviceFuture);
  load_futures : list (string * DeviceFuture);
  pending_sends : gset string;
  transfer : option KVTransfer;
  events : list bool;
  loads : list LoadThread
}.

Definition set_client (x : Client) (l : list (Z * request)) (c : Connector) : Connector :=
  mkConnector (cn_chunk_size c) (cn_block_size c) (cn_model c) (cn_world_size c) (cn_instance_id c)
    x l (trackers c) (store_futures c) (load_futures c) (pending_sends c) (transfer c) (events c) (loads c).
Definition set_trackers (x : list (string * RequestTracker)) (c : Connector) : Connector :=
  mkConnector (cn_chunk_size c) (cn_block_size c) (cn_model c) (cn_world_size c) (cn_instance_id c)
    (client c) (sent c) x (store_futures c) (load_futures c) (pending_sends c) (transfer c) (events c) (loads c).
Definition set_store_futures (x : list (string * list DeviceFuture)) (c : Connector) : Connector :=
  mkConnector (cn_chunk_size c) (cn_block_size c) (cn_model c) (cn_world_size c) (cn_instance_id c)
    (client c) (sent c) (trackers c) x (load_futures c) (pending_sends c) (transfer c) (events c) (loads c).
Definition set_load_futures (x : list (string * DeviceFuture)) (c : Connector) : Connector :=
  mkConnector (cn_chunk_size c) (cn_block_size c) (cn_model c) (cn_world_size c) (cn_instance_id c)
    (client c) (sent c) (trackers c) (store_futures c) x (pending_sends c) (transfer c) (events c) (loads c).
Definition set_pending_sends (x : gset string) (c : Connector) : Connector :=
  mkConnector (cn_chunk_size c) (cn_block_size c) (cn_model c) (cn_world_size c) (cn_instance_id c)
    (client c) (sent c) (trackers c) (store_futures c) (load_futures c) x (transfer c) (events c) (loads c).
Definition set_transfer (x : option KVTransfer) (c : Connector) : Connector :=
  mkConnector (cn_chunk_size c) (cn_block_size c) (cn_model c) (cn_world_size c) (cn_instance_id c)
    (client c) (sent c) (trackers c) (store_futures c) (load_futures c) (pending_sends c) x (events c) (loads c).
Definition set_threads (x : list bool) (l : list LoadThread) (c : Connector) : Connector :=
  mkConnector (cn_chunk_size c) (cn_block_size c) (cn_model c) (cn_world_size c) (cn_instance_id c)
    (client c) (sent c) (trackers c) (store_futures c) (load_futures c) (pending_sends c) (transfer c) x l.

(** [try: m except Exception: ...], the handler seeing the outcome. *)
Definition try_res {S A} (m : M S A) : M S (res A) := fun s => let (s', r) := m s in (s', Ok r).

(** [self.client.submit(req, payload)] and [self.client.call(...)]. *)
Definition submit (rq : request) : M Connector Z := fun c =>
  let (x, uid) := client_submit (client c) in (set_client x (sent c ++ [(uid, rq)]) c, Ok uid).
Definition receive (ms : list msg) : M Connector unit :=
  modify (fun c => set_client (recv_all ms (client c)) (sent c) c).
Definition call (rq : request) (ms : list msg) : M Connector answer :=
  let* uid := submit rq in
  let* _ := receive ms in
  fun c => (c, future_value (client c) uid).

(** An integer reply; [None] stays [None]. *)
Definition int_reply (a : answer) : res (option Z) :=
  match a with
  | AValue VNone => Ok None
  | AValue (VInt z) => Ok (Some z)
  | AValue (VBool b) => Ok (Some (Z.b2z b))
  | AChunks _ => Raise TypeError
  end.

(** [MiniConnector.__init__] after the client is connected: any failure of the
    first call becomes RuntimeError. *)
Definition new_connector (model : string) (block_size world_size instance_id : Z) (ms : list msg)
    : res Connector :=
  let c0 := mkConnector 0 block_size model world_size instance_id new_client [] [] [] [] ∅ None [] [] in
  match call RqGetChunkSize ms c0 with
  | (_, Raise _) => Raise RuntimeError
  | (c, Ok a) =>
      let? chunk_size := int_reply a in
      match chunk_size with
      | None => Raise TypeError
      | Some n =>
          let? r := py_mod n block_size in
          if r =? 0 then
            Ok (mkConnector n block_size model world_size instance_id (client c) (sent c)
                  [] [] [] ∅ None [] [])
          else Raise AssertionError
      end
  end.

(** ** Scheduler side *)

Definition tracker_of (rid : string) : M Connector (option RequestTracker) :=
  fun c => (c, Ok (od_get rid (trackers c))).

(** A method on the tracker of a request, when it has one. *)
Definition on_tracker {B} (rid : string) (m : M RequestTracker B) : M Connector (option B) := fun c =>
  match od_get rid (trackers c) with
  | None => (c, Ok None)
  | Some t =>
      let (t', r) := m t in
      (set_trackers (od_set rid t' (trackers c)) c,
       match r with Ok b => Ok (Some b) | Raise e => Raise e end)
  end.

Definition get_num_new_matched_tokens (rid : string) (all_token_ids prompt : list Z)
    (num_computed_tokens : Z) (ms : list msg) : M Connector (option Z * bool) :=
  let* c := get in
  let* tracker := tracker_of rid in
  let* resolved :=
    match tracker with
    | None =>
        let* _ := modify (fun c => set_trackers (od_set rid (new_tracker all_token_ids) (trackers c)) c) in
        let* q := lift_res (py_floordiv (Zlen prompt) (cn_chunk_size c)) in
        let* _ := submit (RqLookup (mkLookupPayload rid (py_take (q * cn_chunk_size c) prompt)
                            (cn_model c) (cn_world_size c))) in
        ret false
    | Some t => ret (lookup_resolved t)
    end in
  if resolved then ret (Some 0, false)
  else
    let* r := try_res (let* a := call (RqQuery (mkQueryPayload rid (cn_world_size c))) ms in
                       lift_res (int_reply a)) in
    match r with
    | Raise _ =>
        let* _ := on_tracker rid (modify set_resolved) in ret (Some 0, false)
    | Ok None => ret (None, true)
    | Ok (Some hits) =>
        let* _ := on_tracker rid (modify (resolve_hits hits num_computed_tokens)) in
        if num_computed_tokens <? hits then ret (Some (hits - num_computed_tokens), true)
        else ret (Some 0, false)
    end.

(** [blocks.get_block_ids()[0]] is [group_blocks[0]]. *)
Definition update_state_after_alloc (rid : string) (groups : list (list Z)) (num_external_tokens : Z)
    : M Connector unit :=
  let* c := get in
  let* tracker := tracker_of rid in
  match tracker with
  | None => ret tt
  | Some _ =>
      let* group_blocks := lift_res (py_index groups 0) in
      let* free_until := on_tracker rid (alloc_update (cn_chunk_size c) group_blocks num_external_tokens) in
      match free_until with
      | Some (Some n) =>
          let* _ := submit (RqFreeLocks (mkFreeLocksPayload rid n (cn_world_size c))) in ret tt
      | _ => ret tt
      end
  end.

(** What the scheduler decided: new requests with their block tables and
    computed tokens, running requests (the three lists run in parallel), those
    resumed from preemption, and the tokens scheduled for each. *)
Record SchedulerOutput := mkSchedulerOutput {
  scheduled_new_reqs : list (string * list (list Z) * Z);
  cached_req_ids : list string;
  cached_new_block_ids : list (option (list (list Z)));
  cached_num_computed_tokens : list Z;
  resumed_req_ids : list string;
  num_scheduled_tokens : list (string * Z)
}.

(** The three loops of [build_connector_meta]. *)
Definition retrieve_metas (rids : list string) (metas : list ReqMeta) : M Connector (list ReqMeta) :=
  let* c := get in
  for_acc rids metas (fun metas rid =>
    let* op := on_tracker rid (generate_retrieve_op (cn_chunk_size c) (cn_block_size c)) in
    ret (match op with Some (Some op) => metas ++ [mkReqMeta rid RETRIEVE op] | _ => metas end)).

Definition update_new (r : string * list (list Z) * Z) : M Connector unit :=
  let '(rid, groups, computed) := r in
  let* tracker := tracker_of rid in
  match tracker with
  | None => ret tt
  | Some _ =>
      let* blocks := lift_res (py_index groups 0) in
      let* _ := on_tracker rid (modify (fun t => set_computed computed (set_block_ids blocks t))) in
      ret tt
  end.

Definition update_cached (out : SchedulerOutput) (ir : nat * string) : M Connector unit :=
  let (i, rid) := ir in
  let* tracker := tracker_of rid in
  match tracker with
  | None => ret tt
  | Some _ =>
      let* new_blocks := lift_res (py_index (cached_new_block_ids out) (Z.of_nat i)) in
      let* _ :=
        match new_blocks with
        | None => ret tt
        | Some groups =>
            let* blocks := lift_res (py_index groups 0) in
            let* _ := on_tracker rid (modify (fun t =>
              if decide (rid ∈ resumed_req_ids out) then set_block_ids blocks t
              else set_block_ids (block_ids t ++ blocks) t)) in
            ret tt
        end in
      let* computed := lift_res (py_index (cached_num_computed_tokens out) (Z.of_nat i)) in
      let* _ := on_tracker rid (modify (set_computed computed)) in
      ret tt
  end.

Definition store_metas (sched : list (string * Z)) (metas : list ReqMeta) : M Connector (list ReqMeta) :=
  let* c := get in
  for_acc sched metas (fun metas p =>
    let* op := on_tracker p.1 (let* _ := modify (fun t => set_computed (num_computed_tokens t + p.2) t) in
                               generate_store_op (cn_chunk_size c) (cn_block_size c)) in
    ret (match op with Some (Some op) => metas ++ [mkReqMeta p.1 STORE op] | _ => metas end)).

Definition build_connector_meta (out : SchedulerOutput) : M Connector (list ReqMeta) :=
  let* c := get in
  let* metas := retrieve_metas ((trackers c).*1) [] in
  let* _ := for_each (scheduled_new_reqs out) update_new in
  let* _ := for_each (imap pair (cached_req_ids out)) (update_cached out) in
  store_metas (num_scheduled_tokens out) metas.

Definition request_finished (rid : string) : M Connector bool :=
  let* _ := modify (fun c => set_trackers (od_pop rid (trackers c)) c) in
  let* _ := submit (RqEndSession rid) in
  ret true.

(** ** Worker side *)

(** A registered cache is a tensor or, on Ascend, a tuple of tensors. *)
Inductive cache (E : Type) := CTensor (t : tensor E) | CTuple (ts : list (tensor E)).
Arguments CTensor {E} t.
Arguments CTuple {E} ts.

(** [sorted(kv_caches.items())]: the names are distinct. *)
Fixpoint insert_by_name {E} (x : string * cache E) (l : list (string * cache E)) : list (string * cache E) :=
  match l with
  | [] => [x]
  | y :: l' => if String.leb x.1 y.1 then x :: l else y :: insert_by_name x l'
  end.
Definition sorted_items {E} (d : list (string * cache E)) : list (string * cache E) :=
  foldr insert_by_name [] d.

Definition flatten_layers {E} (d : list (string * cache E)) : list (tensor E) :=
  mbind (fun p => match p.2 with CTuple ts => ts | CTensor t => [t] end) (sorted_items d).

(** The bytes of a contiguous view, block by block: the indices of the other
    dimensions in row-major order. *)
Fixpoint row_major (dims : list Z) : list (list Z) :=
  match dims with
  | [] => [[]]
  | d :: dims' => mbind (fun i => cons i <$> row_major dims') (seqZ 0 d)
  end.
Definition tensor_blocks {E} (enc : E -> bytes) (t : tensor E) : list bytes :=
  match shape t with
  | [] => []
  | n :: dims => (fun b => concat ((fun i => enc (at_index t (b :: i))) <$> row_major dims)) <$> seqZ 0 n
  end.

Definition register_kv_caches {E} (enc : E -> bytes) (num_gpu_blocks : option Z) (rank : Z)
    (kv_caches : list (string * cache E)) (ms : list msg) : M Connector unit :=
  let* views := lift_res (normalize (flatten_layers kv_caches) num_gpu_blocks) in
  let* c := get in
  let* tr := lift_res (new_transfer (tensor_blocks enc <$> views) (cn_block_size c) (cn_chunk_size c) rank) in
  let* _ := modify (set_transfer (Some tr)) in
  let* _ := call (RqRegister (mkRegisterPayload (cn_instance_id c) (cn_model c) (Transfer.rank tr)
                    (cn_world_size c) (cn_block_size c) (chunk_nbytes tr))) ms in
  ret tt.

(** A method of the transfer engine. *)
Definition on_transfer {B} (m : M KVTransfer B) : M Connector B := fun c =>
  match transfer c with
  | None => (c, Raise AttributeError)
  | Some t => let (t', r) := m t in (set_transfer (Some t') c, r)
  end.

(** One STORE operation: the copy to the host, then the request. *)
Definition submit_store (device : Z) (elapsed : string -> float) (m : ReqMeta) : M Connector DeviceFuture :=
  let* chunks := on_transfer (to_host (op_block_ids (rm_op m))) in
  let* nbytes := on_transfer (fun t => (t, Ok (Zlen chunks * chunk_nbytes t))) in
  let* c := get in
  let* uid := submit (RqStore (mkTransferPayload (rm_request_id m) (cn_instance_id c) (rm_op m)
                        chunks (elapsed (rm_request_id m)) nbytes)) in
  ret (mkDeviceFuture uid device None).

(** One RETRIEVE operation: the request, an event, a thread. *)
Definition submit_retrieve (device : Z) (m : ReqMeta) : M Connector DeviceFuture :=
  let* c := get in
  let* uid := submit (RqRetrieve (mkTransferPayload (rm_request_id m) (cn_instance_id c) (rm_op m) [] f_0 0)) in
  let ev := length (events c) in
  let* _ := modify (set_threads (events c ++ [false])
              (loads c ++ [mkLoadThread (rm_request_id m) (rm_op m) uid ev])) in
  ret (mkDeviceFuture uid device (Some ev)).

(** [metas] is the metadata bound for this step. *)
Definition submit_transfers (metas : list ReqMeta) (device : Z) (elapsed : string -> float) (req : Req)
    : M Connector (list (string * DeviceFuture)) :=
  let ops := filter (fun m => rm_req m = req) metas in
  match ops with
  | [] => ret []
  | _ =>
      let* c := get in
      match transfer c with
      | None => raise RuntimeError
      | Some _ =>
          for_acc ops [] (fun out m =>
            let* f := if decide (req = STORE) then submit_store device elapsed m
                      else submit_retrieve device m in
            ret (od_set (rm_request_id m) f out))
      end
  end.

(** [future.done()] and [event.is_set()] *)
Definition future_done (c : Connector) (uid : Z) : bool :=
  match futures (client c) !! uid with Some (Some _) => true | _ => false end.
Definition is_set (c : Connector) (ev : nat) : bool := default false (events c !! ev).
Definition device_done (c : Connector) (f : DeviceFuture) : bool := df_done (future_done c) (is_set c) f.

(** [future.result()] of the chunks of a RETRIEVE. *)
Definition load_chunks (a : answer) : res (list bytes) :=
  match a with
  | AChunks chunks => Ok chunks
  | AValue VNone => Raise RuntimeError
  | AValue _ => Raise TypeError
  end.

(** [_finish_load], run by its thread once the future is settled; the printed
    line is not modelled. *)
Definition finish_load (th : LoadThread) (elapsed : float) : M Connector unit :=
  let* _ := try_res (
    let* a := (fun c => (c, future_value (client c) (lt_future th))) in
    let* chunks := lift_res (load_chunks a) in
    let* c := get in
    let* skip_blocks := lift_res (py_floordiv (op_skip_first_n_tokens (lt_op th)) (cn_block_size c)) in
    let* _ := on_transfer (from_host chunks (op_block_ids (lt_op th)) skip_blocks) in
    let* nbytes := on_transfer (fun t => (t, Ok (Zlen chunks * chunk_nbytes t))) in
    submit (RqAck (mkAckPayload (lt_request_id th) "RETRIEVE" nbytes elapsed))) in
  modify (fun c => set_threads (<[lt_done th := true]> (events c)) (loads c) c).

(** The thread at position [i] of [loads] runs; it blocks until its future is
    settled. *)
Definition run_load (i : nat) (elapsed : float) : M Connector unit :=
  let* c := get in
  match loads c !! i with
  | None => ret tt
  | Some th =>
      if future_done c (lt_future th) then
        let* _ := modify (fun c => set_threads (events c) (delete i (loads c)) c) in
        finish_load th elapsed
      else ret tt
  end.

(** [d.update(out)] *)
Definition od_update {V} (d out : list (string * V)) : list (string * V) :=
  foldl (fun d p => od_set p.1 p.2 d) d out.

Definition start_load_kv (metas : list ReqMeta) (device : Z) (elapsed : string -> float) : M Connector unit :=
  let* out := submit_transfers metas device elapsed RETRIEVE in
  modify (fun c => set_load_futures (od_update (load_futures c) out) c).

Definition wait_for_save (metas : list ReqMeta) (device : Z) (elapsed : string -> float) : M Connector unit :=
  let* out := submit_transfers metas device elapsed STORE in
  for_each out (fun p => modify (fun c =>
    set_store_futures (od_set p.1 (default [] (od_get p.1 (store_futures c)) ++ [p.2]) (store_futures c)) c)).

(** The pruning loop of [get_finished]. *)
Definition prune_store (p : string * list DeviceFuture) : M Connector unit :=
  modify (fun c =>
    match filter (fun f => negb (device_done c f)) p.2 with
    | [] => set_store_futures (od_pop p.1 (store_futures c)) c
    | live => set_store_futures (od_set p.1 live (store_futures c)) c
    end).

Definition get_finished (finished_req_ids : gset string) : M Connector (gset string * gset string) :=
  let* _ := modify (fun c => set_pending_sends (pending_sends c ∪ finished_req_ids) c) in
  let* c := get in
  let* _ := for_each (store_futures c) prune_store in
  let* c := get in
  let finished_sending :=
    filter (fun rid => od_get rid (store_futures c) = None) (pending_sends c) in
  let* _ := modify (set_pending_sends (pending_sends c ∖ finished_sending)) in
  let finished_recving : gset string :=
    list_to_set ((filter (fun p => device_done c p.2) (load_futures c)).*1) in
  let* _ := for_each (elements finished_recving) (fun rid =>
    modify (fun c => set_load_futures (od_pop rid (load_futures c)) c)) in
  ret (finished_sending, finished_recving).

Definition shutdown (ms : list msg) : M Connector unit :=
  let* c := get in
  let* _ := call (RqUnregister (cn_instance_id c)) ms in
  ret tt.
