(* ===== verification/Scheduling.v ===== *)
(** The scheduler side of the connector: every request is handled on its own,
    and the operations queued for it tile its tokens. *)
From S2P Require Import Prelude PyFloat Protocol Hasher Memory L1Manager Eviction L1Protocol.
From S2P Require Import L2 Threads Storage Prefetch Server MQ KVFormat Transfer Tracker.
From S2P Require Import Connector.
Local Open Scope py_scope.
Local Open Scope Z_scope.

(** ** Loops over the trackers *)

Definition upd_tracker (rid : string) (f : RequestTracker -> RequestTracker) (c : Connector) : Connector :=
  match od_get rid (trackers c) with
  | None => c
  | Some t => set_trackers (od_set rid (f t) (trackers c)) c
  end.

Definition same_but_trackers (c c' : Connector) : Prop := c' = set_trackers (trackers c') c.

Lemma same_but_trackers_trans c1 c2 c3 :
  same_but_trackers c1 c2 -> same_but_trackers c2 c3 -> same_but_trackers c1 c3.
Proof. unfold same_but_trackers. intros -> ->. reflexivity. Qed.

Lemma same_but_trackers_refl c : same_but_trackers c c.
Proof. by destruct c. Qed.

Lemma upd_tracker_spec rid f c :
  same_but_trackers c (upd_tracker rid f c) /\
  (trackers (upd_tracker rid f c)).*1 = (trackers c).*1 /\
  forall rid', od_get rid' (trackers (upd_tracker rid f c)) =
    (fun t => if decide (rid = rid') then f t else t) <$> od_get rid' (trackers c).
Proof.
  unfold upd_tracker. destruct (od_get rid (trackers c)) as [t|] eqn:E.
  - split; [done|]. split; [by eapply od_set_keys|]. intros rid'. simpl.
    case_decide as Hr; [subst; rewrite E; apply od_get_set_eq|].
    rewrite od_get_set_ne by done. by destruct (od_get rid' (trackers c)).
  - split; [apply same_but_trackers_refl|]. split; [done|]. intros rid'.
    case_decide as Hr; [subst; by rewrite E|]. by destruct (od_get rid' (trackers c)).
Qed.

(** [c'] and [metas'] come from [c] and [metas] by running [F rid] on the
    tracker of each request [rid]. *)
Definition per_request (F : string -> RequestTracker -> RequestTracker * list ReqMeta)
    (c c' : Connector) (metas metas' : list ReqMeta) : Prop :=
  same_but_trackers c c' /\ (trackers c').*1 = (trackers c).*1 /\
  forall rid,
    od_get rid (trackers c') = (fun t => (F rid t).1) <$> od_get rid (trackers c) /\
    filter (fun m => rm_request_id m = rid) metas' =
      filter (fun m => rm_request_id m = rid) metas ++
      match od_get rid (trackers c) with Some t => (F rid t).2 | None => [] end.

Lemma per_request_geometry F c c' metas metas' :
  per_request F c c' metas metas' ->
  cn_chunk_size c' = cn_chunk_size c /\ cn_block_size c' = cn_block_size c.
Proof. by intros (-> & _). Qed.

Lemma per_request_trans F G c1 c2 c3 m1 m2 m3 :
  per_request F c1 c2 m1 m2 -> per_request G c2 c3 m2 m3 ->
  per_request (fun rid t => let (t1, o1) := F rid t in let (t2, o2) := G rid t1 in (t2, o1 ++ o2)) c1 c3 m1 m3.
Proof.
  intros (H1 & H2 & H3) (K1 & K2 & K3). split_and!; [by eapply same_but_trackers_trans|congruence|].
  intros rid. destruct (H3 rid) as [H4 H5], (K3 rid) as [K4 K5]. rewrite K4, K5, H4, H5.
  destruct (od_get rid (trackers c1)) as [t|]; simpl; [|by rewrite app_nil_r].
  destruct (F rid t) as [t1 o1]. cbn [fst snd]. destruct (G rid t1) as [t2 o2]. by rewrite <- app_assoc.
Qed.

(** Operations that all belong to one request. *)
Lemma filter_keyed k rid (ms : list ReqMeta) :
  (forall m, m ∈ ms -> rm_request_id m = k) ->
  filter (fun m => rm_request_id m = rid) ms = if decide (k = rid) then ms else [].
Proof.
  induction ms as [|m ms IH]; intros Hk; [by case_decide|].
  rewrite filter_cons, IH, (Hk m) by set_solver. by case_decide.
Qed.

Section loops.
Context {X} (k : X -> string) (f : X -> RequestTracker -> RequestTracker)
  (g : X -> RequestTracker -> list ReqMeta).

(** One iteration, seen by the request [rid]. *)
Definition run_one (rid : string) (p : RequestTracker * list ReqMeta) (x : X)
    : RequestTracker * list ReqMeta :=
  if decide (k x = rid) then (f x p.1, p.2 ++ g x p.1) else p.
Definition run_all (xs : list X) (rid : string) (t : RequestTracker) : RequestTracker * list ReqMeta :=
  foldl (run_one rid) (t, []) xs.

Lemma run_one_acc rid t o xs :
  foldl (run_one rid) (t, o) xs = ((run_all xs rid t).1, o ++ (run_all xs rid t).2).
Proof.
  unfold run_all. revert t o. induction xs as [|x xs IH]; intros t o; simpl; [by rewrite app_nil_r|].
  unfold run_one at 2 4 6. cbn [fst snd]. case_decide; [|apply IH].
  rewrite app_nil_l, (IH (f x t) (g x t)), (IH (f x t) (o ++ g x t)). cbn [fst snd]. by rewrite app_assoc.
Qed.

Lemma run_all_cons x xs rid t :
  run_all (x :: xs) rid t =
    if decide (k x = rid)
    then ((run_all xs rid (f x t)).1, g x t ++ (run_all xs rid (f x t)).2) else run_all xs rid t.
Proof.
  unfold run_all at 1. simpl. unfold run_one at 2. cbn [fst snd]. case_decide; [|done].
  rewrite app_nil_l. apply run_one_acc.
Qed.

Definition emits (c : Connector) (x : X) : list ReqMeta :=
  match od_get (k x) (trackers c) with Some t => g x t | None => [] end.

Lemma emits_keyed c x m :
  (forall x t m, m ∈ g x t -> rm_request_id m = k x) -> m ∈ emits c x -> rm_request_id m = k x.
Proof. intros Hg. unfold emits. case_match; [apply Hg|by intros ?%not_elem_of_nil]. Qed.

Lemma loop_spec (body : list ReqMeta -> X -> M Connector (list ReqMeta)) xs c acc :
  (forall acc x c, x ∈ xs -> body acc x c = (upd_tracker (k x) (f x) c, Ok (acc ++ emits c x))) ->
  (forall x t m, m ∈ g x t -> rm_request_id m = k x) ->
  exists c' acc', for_acc xs acc body c = (c', Ok acc') /\ per_request (run_all xs) c c' acc acc'.
Proof.
  intros Hb Hg. revert c acc. induction xs as [|x xs IH]; intros c acc.
  { exists c, acc. split; [done|]. split_and!; [apply same_but_trackers_refl|done|].
    intros rid. destruct (od_get rid (trackers c)); simpl; by rewrite app_nil_r. }
  simpl. unfold bind at 1. rewrite Hb by set_solver.
  destruct (IH ltac:(set_solver) (upd_tracker (k x) (f x) c) (acc ++ emits c x)) as (c' & acc' & E & H1 & H2 & H3).
  exists c', acc'. split; [exact E|]. destruct (upd_tracker_spec (k x) (f x) c) as (U1 & U2 & U3).
  split_and!; [by eapply same_but_trackers_trans|congruence|].
  intros rid. destruct (H3 rid) as [-> ->]. rewrite U3. rewrite filter_app, <- app_assoc.
  destruct (od_get rid (trackers c)) as [t|] eqn:Et; simpl.
  - rewrite run_all_cons, (filter_keyed (k x) rid (emits c x)) by (intros m; by apply emits_keyed). unfold emits.
    split; [by case_decide|]. case_decide as Hr; [subst; by rewrite Et|done].
  - split; [done|]. rewrite !app_nil_r, (filter_keyed (k x) rid (emits c x)) by (intros m; by apply emits_keyed).
    unfold emits. case_decide as Hr; [subst; by rewrite Et, app_nil_r|by rewrite app_nil_r].
Qed.
End loops.

Lemma for_each_acc {S X A} (xs : list X) (body : X -> M S unit) (acc : A) s s' r :
  for_acc xs acc (fun acc x => let* _ := body x in ret acc) s = (s', r) ->
  for_each xs body s = (s', match r with Ok _ => Ok tt | Raise e => Raise e end) /\
  match r with Ok a => a = acc | Raise _ => True end.
Proof.
  revert s. induction xs as [|x xs IH]; intros s; simpl; [by intros [= <- <-]|].
  unfold bind, ret. destruct (body x s) as [s1 [[]|e]]; [|by intros [= <- <-]]. apply IH.
Qed.

(** ** build_connector_meta, one request at a time *)

(** Queue the operation a tracker generated. *)
Definition metas_of (rid : string) (req : Req) (r : res (option LoadStoreOp)) : list ReqMeta :=
  match r with Ok (Some op) => [mkReqMeta rid req op] | _ => [] end.

Section build.
Context (cs bs : Z).

Definition first_group (groups : list (list Z)) : list Z := default [] (head groups).

(** What one entry of the scheduler output does to its request. *)
Definition new_entry (r : string * list (list Z) * Z) (t : RequestTracker) : RequestTracker :=
  set_computed r.2 (set_block_ids (first_group r.1.2) t).
Definition cached_entry (out : SchedulerOutput) (ir : nat * string) (t : RequestTracker) : RequestTracker :=
  set_computed (default 0 (cached_num_computed_tokens out !! ir.1))
    match default None (cached_new_block_ids out !! ir.1) with
    | None => t
    | Some groups =>
        set_block_ids ((if decide (ir.2 ∈ resumed_req_ids out) then [] else block_ids t)
                         ++ first_group groups) t
    end.
Definition sched_entry (n : Z) : M RequestTracker (option LoadStoreOp) :=
  let* _ := modify (fun t => set_computed (num_computed_tokens t + n) t) in generate_store_op cs bs.

(** The pass of one request through the three loops. *)
Definition request_step (out : SchedulerOutput) (rid : string) (t : RequestTracker)
    : RequestTracker * list ReqMeta :=
  let (t1, retrieve) := generate_retrieve_op cs bs t in
  let t2 := foldl (fun t r => if decide (r.1.1 = rid) then new_entry r t else t) t1 (scheduled_new_reqs out) in
  let t3 := foldl (fun t ir => if decide (ir.2 = rid) then cached_entry out ir t else t) t2
              (imap pair (cached_req_ids out)) in
  foldl (fun p s => if decide (s.1 = rid)
                    then let (t', r) := sched_entry s.2 p.1 in (t', p.2 ++ metas_of rid STORE r)
                    else p) (t3, metas_of rid RETRIEVE retrieve) (num_scheduled_tokens out).

(** vLLM hands over block tables for at least one cache group and parallel
    lists of one length. *)
Definition out_ok (out : SchedulerOutput) : Prop :=
  Forall (fun r : string * list (list Z) * Z => r.1.2 <> []) (scheduled_new_reqs out) /\
  forall i rid, cached_req_ids out !! i = Some rid ->
    (exists b, cached_new_block_ids out !! i = Some b /\ b <> Some []) /\
    is_Some (cached_num_computed_tokens out !! i).

Hypotheses (Hbs : 0 < bs) (Hcs : 0 < cs).

Lemma retrieve_total t : exists t' r, generate_retrieve_op cs bs t = (t', Ok r).
Proof using Hbs Hcs. rewrite retrieve_op_run by done. case_match; eauto. Qed.

Lemma sched_total n t : exists t' r, sched_entry n t = (t', Ok r).
Proof using Hbs Hcs. unfold sched_entry, bind, modify. rewrite store_op_run by done. case_match; eauto. Qed.

Lemma metas_of_rid rid req r m : m ∈ metas_of rid req r -> rm_request_id m = rid.
Proof. unfold metas_of. repeat case_match; set_solver. Qed.

(** A tracker method whose operation is queued, as one iteration. *)
Lemma on_tracker_emit rid req (m : M RequestTracker (option LoadStoreOp)) acc c :
  (forall t, exists t' r, m t = (t', Ok r)) ->
  (let* op := on_tracker rid m in
   ret (match op with Some (Some op) => acc ++ [mkReqMeta rid req op] | _ => acc end)) c
  = (upd_tracker rid (fun t => (m t).1) c,
     Ok (acc ++ match od_get rid (trackers c) with Some t => metas_of rid req (m t).2 | None => [] end)).
Proof using.
  intros Hm. unfold bind, on_tracker, upd_tracker, ret.
  destruct (od_get rid (trackers c)) as [t|]; [|by rewrite app_nil_r].
  destruct (Hm t) as (t' & r & ->). cbn [fst snd]. destruct r as [op|]; [done|].
  unfold metas_of. by rewrite app_nil_r.
Qed.

Lemma sched_fold sched rid t o :
  foldl (fun p (s : string * Z) => if decide (s.1 = rid)
           then let (t', r) := sched_entry s.2 p.1 in (t', p.2 ++ metas_of rid STORE r) else p) (t, o) sched
  = let (t', o') := run_all fst (fun p t => (sched_entry p.2 t).1)
                      (fun p t => metas_of p.1 STORE (sched_entry p.2 t).2) sched rid t in (t', o ++ o').
Proof using.
  revert t o. induction sched as [|[r n] sched IH]; intros t o; [unfold run_all; simpl; by rewrite app_nil_r|].
  rewrite run_all_cons. cbn [foldl fst snd]. case_decide as Hr; [subst|apply IH].
  destruct (sched_entry n t) as [t' x]. rewrite IH. cbn [fst snd].
  destruct (run_all _ _ _ sched rid t') as [t2 o2]. cbn [fst snd]. by rewrite app_assoc.
Qed.

(** A method that does nothing the second time. *)
Lemma run_all_idle rid t keys (m : M RequestTracker (option LoadStoreOp)) req :
  m t = (t, Ok None) ->
  run_all id (fun _ t => (m t).1) (fun rid t => metas_of rid req (m t).2) keys rid t = (t, []).
Proof using.
  intros Hm. induction keys as [|x keys IH]; [done|]. rewrite run_all_cons, Hm.
  cbn [fst snd metas_of]. rewrite IH. by case_decide.
Qed.

Lemma run_all_once rid t keys (m : M RequestTracker (option LoadStoreOp)) req :
  rid ∈ keys -> m (m t).1 = ((m t).1, Ok None) ->
  run_all id (fun _ t => (m t).1) (fun rid t => metas_of rid req (m t).2) keys rid t
    = ((m t).1, metas_of rid req (m t).2).
Proof using.
  intros Hin Hm. revert Hin. induction keys as [|x keys IH]; [by intros ?%not_elem_of_nil|].
  intros Hin. rewrite run_all_cons. unfold id at 1. destruct (decide (x = rid)) as [->|Hne].
  - by rewrite run_all_idle, app_nil_r.
  - apply IH. apply elem_of_cons in Hin as [->|Hin]; [contradiction|exact Hin].
Qed.

(** Loops without output. *)
Lemma run_all_quiet {X} (k : X -> string) (f : X -> RequestTracker -> RequestTracker) xs rid t :
  run_all k f (fun _ _ => []) xs rid t
    = (foldl (fun t x => if decide (k x = rid) then f x t else t) t xs, []).
Proof using.
  revert t. induction xs as [|x xs IH]; intros t; [done|]. rewrite run_all_cons. simpl.
  case_decide; by rewrite IH.
Qed.

Lemma each_spec {X} (k : X -> string) (f : X -> RequestTracker -> RequestTracker)
    (body : X -> M Connector unit) xs c metas :
  (forall x c, x ∈ xs -> body x c = (upd_tracker (k x) (f x) c, Ok tt)) ->
  exists c', for_each xs body c = (c', Ok tt) /\
    per_request (fun rid t => (foldl (fun t x => if decide (k x = rid) then f x t else t) t xs, [])) c c' metas metas.
Proof using.
  intros Hb. destruct (loop_spec k f (fun _ _ => []) (fun acc x => let* _ := body x in ret acc) xs c metas)
    as (c' & acc' & E & H1 & H2 & H3).
  - intros acc x c0 Hx. unfold bind, ret. rewrite Hb by done. unfold emits. case_match; by rewrite app_nil_r.
  - by intros x t m ?%not_elem_of_nil.
  - apply for_each_acc in E as [E ->]. exists c'. split; [exact E|]. split_and!; [done|done|].
    pose proof (run_all_quiet k f xs) as Hrun.
    intros rid. destruct (H3 rid) as [-> _]. split.
    + destruct (od_get rid (trackers c)); simpl; by rewrite ?Hrun.
    + case_match; by rewrite app_nil_r.
Qed.

(** The three loops. *)
Lemma retrieve_loop c :
  cn_chunk_size c = cs -> cn_block_size c = bs ->
  exists c' metas, retrieve_metas ((trackers c).*1) [] c = (c', Ok metas) /\
    per_request (fun rid t => let (t1, r) := generate_retrieve_op cs bs t in (t1, metas_of rid RETRIEVE r))
      c c' [] metas.
Proof.
  intros Ec Eb. unfold retrieve_metas, get. unfold bind at 1. rewrite Ec, Eb.
  destruct (loop_spec id (fun _ t => (generate_retrieve_op cs bs t).1)
    (fun rid t => metas_of rid RETRIEVE (generate_retrieve_op cs bs t).2)
    (fun metas rid => let* op := on_tracker rid (generate_retrieve_op cs bs) in
       ret (match op with Some (Some op) => metas ++ [mkReqMeta rid RETRIEVE op] | _ => metas end))
    ((trackers c).*1) c []) as (c' & metas & E & H1 & H2 & H3).
  - intros acc rid c0 _. apply on_tracker_emit, retrieve_total.
  - intros rid t m. apply metas_of_rid.
  - exists c', metas. split; [exact E|]. split_and!; [done|done|]. intros rid.
    destruct (H3 rid) as [-> ->]. destruct (od_get rid (trackers c)) as [t|] eqn:Et; [|done].
    assert (rid ∈ (trackers c).*1) as Hin.
    { apply list_elem_of_fmap. exists (rid, t). split; [done|]. by apply od_get_elem. }
    cbn [fmap option_fmap option_map]. rewrite run_all_once; [|done|].
    + destruct (generate_retrieve_op cs bs t). done.
    + rewrite !retrieve_op_run by done. destruct (load_pending t) eqn:Ep; cbn; by rewrite ?Ep.
Qed.

Lemma py_index_head {Y} (l : list Y) x : head l = Some x -> py_index l 0 = Ok x.
Proof using. destruct l; [done|]. by intros [= ->]. Qed.

Lemma py_index_lookup {Y} (l : list Y) i x : l !! i = Some x -> py_index l (Z.of_nat i) = Ok x.
Proof using.
  intros Hl. unfold py_index. rewrite (proj2 (Z.ltb_ge _ _)) by apply Nat2Z.is_nonneg. by rewrite Nat2Z.id, Hl.
Qed.

Lemma update_new_run r c :
  r.1.2 <> [] -> update_new r c = (upd_tracker r.1.1 (new_entry r) c, Ok tt).
Proof using.
  destruct r as [[rid groups] n]. simpl. intros Hg. unfold update_new, tracker_of, upd_tracker, bind.
  destruct (od_get rid (trackers c)) as [t|] eqn:E; [|done].
  destruct groups as [|g groups]; [done|]. unfold lift_res. rewrite (py_index_head _ g) by done.
  unfold on_tracker. by rewrite E.
Qed.

Lemma update_cached_run out i rid b n c :
  cached_new_block_ids out !! i = Some b -> b <> Some [] ->
  cached_num_computed_tokens out !! i = Some n ->
  update_cached out (i, rid) c = (upd_tracker rid (cached_entry out (i, rid)) c, Ok tt).
Proof using.
  intros Hb Hne Hn. unfold update_cached, cached_entry. cbn [fst snd]. rewrite Hb, Hn. cbn [default].
  unfold tracker_of, upd_tracker. unfold bind at 1. destruct (od_get rid (trackers c)) as [t|] eqn:E; [|done].
  unfold lift_res. rewrite !(py_index_lookup _ _ _ Hb), !(py_index_lookup _ _ _ Hn). unfold bind at 1.
  destruct b as [[|g groups]|]; [done| |].
  - unfold bind, on_tracker, modify, ret. rewrite (py_index_head _ g), E by done. simpl. rewrite od_get_set_eq.
    rewrite od_set_set. by case_decide.
  - unfold bind, on_tracker, modify, ret. by rewrite E.
Qed.

Lemma build_meta_spec out c :
  cn_chunk_size c = cs -> cn_block_size c = bs -> out_ok out ->
  exists c' metas, build_connector_meta out c = (c', Ok metas) /\
    per_request (request_step out) c c' [] metas.
Proof.
  intros Ec Eb [Hnew Hcached]. rewrite Forall_forall in Hnew.
  destruct (retrieve_loop c Ec Eb) as (c1 & m1 & E1 & P1). destruct (per_request_geometry _ _ _ _ _ P1) as [Ec1 Eb1].
  destruct (each_spec (fun r : string * list (list Z) * Z => r.1.1) new_entry update_new
              (scheduled_new_reqs out) c1 m1) as (c2 & E2 & P2).
  { intros r c0 Hr. by apply update_new_run, Hnew. }
  destruct (per_request_geometry _ _ _ _ _ P2) as [Ec2 Eb2].
  destruct (each_spec snd (cached_entry out) (update_cached out)
              (imap pair (cached_req_ids out)) c2 m1) as (c3 & E3 & P3).
  { intros [i rid] c0 (j & x & [= <- <-] & Hx)%elem_of_lookup_imap_1.
    destruct (Hcached _ _ Hx) as [(b & Hb & Hne) [n Hn]]. by eapply update_cached_run. }
  destruct (per_request_geometry _ _ _ _ _ P3) as [Ec3 Eb3].
  destruct (loop_spec fst (fun p t => (sched_entry p.2 t).1)
    (fun p t => metas_of p.1 STORE (sched_entry p.2 t).2)
    (fun metas p => let* op := on_tracker p.1 (sched_entry p.2) in
       ret (match op with Some (Some op) => metas ++ [mkReqMeta p.1 STORE op] | _ => metas end))
    (num_scheduled_tokens out) c3 m1) as (c4 & m4 & E4 & P4).
  { intros acc p c0 _. apply on_tracker_emit, sched_total. }
  { intros p t m. apply metas_of_rid. }
  exists c4, m4. split.
  - unfold build_connector_meta, get. unfold bind at 1. unfold bind at 1. rewrite E1. unfold bind at 1. rewrite E2.
    unfold bind at 1. rewrite E3. unfold store_metas, get. unfold bind at 1.
    assert (cn_chunk_size c3 = cs /\ cn_block_size c3 = bs) as [-> ->] by (split; congruence). exact E4.
  - pose proof (per_request_trans _ _ _ _ _ _ _ _ (per_request_trans _ _ _ _ _ _ _ _
      (per_request_trans _ _ _ _ _ _ _ _ P1 P2) P3) P4) as (H1 & H2 & H3).
    split_and!; [done|done|]. intros rid. destruct (H3 rid) as [-> ->].
    destruct (od_get rid (trackers c)) as [t|]; [|done]. cbn [fmap option_fmap option_map].
    unfold request_step. destruct (generate_retrieve_op cs bs t) as [t1 r]. rewrite !app_nil_r.
    rewrite sched_fold. by destruct (run_all _ _ _ _ _ _).
Qed.
End build.

(** ** The first hook *)

(** What the query of a call learns: the reply to its own uid, when one of the
    messages carries it. *)
Definition query_outcome (ms : list msg) (c : Connector) : res (option Z) :=
  let (cl, uid) := client_submit (client c) in
  let? a := future_value (recv_all ms cl) uid in int_reply a.

Definition after_query (rid : string) (ms : list msg) (c : Connector) : Connector :=
  let (cl, uid) := client_submit (client c) in
  set_client (recv_all ms cl) (sent c ++ [(uid, RqQuery (mkQueryPayload rid (cn_world_size c)))]) c.

(** The first call for a request: a tracker and a LOOKUP of its whole chunks. *)
Definition first_contact (rid : string) (all_token_ids prompt : list Z) (c : Connector) : Connector :=
  let (cl, uid) := client_submit (client c) in
  let n := Zlen prompt / cn_chunk_size c * cn_chunk_size c in
  set_client cl (sent c ++ [(uid, RqLookup (mkLookupPayload rid (py_take n prompt) (cn_model c) (cn_world_size c)))])
    (set_trackers (od_set rid (new_tracker all_token_ids) (trackers c)) c).

Lemma on_tracker_modify rid f c :
  on_tracker rid (modify f) c
    = (upd_tracker rid f c, Ok (match od_get rid (trackers c) with Some _ => Some tt | None => None end)).
Proof. unfold on_tracker, upd_tracker, modify. by destruct (od_get rid (trackers c)). Qed.

(** The query of a call, and what the call makes of its outcome. *)
Definition ask (rid : string) (n : Z) (ms : list msg) (c : Connector) : Connector * res (option Z * bool) :=
  match query_outcome ms c with
  | Raise _ => (upd_tracker rid set_resolved (after_query rid ms c), Ok (Some 0, false))
  | Ok None => (after_query rid ms c, Ok (None, true))
  | Ok (Some hits) =>
      (upd_tracker rid (resolve_hits hits n) (after_query rid ms c),
       Ok (if n <? hits then (Some (hits - n), true) else (Some 0, false)))
  end.

Lemma match_tokens_run rid all prompt n ms c :
  0 < cn_chunk_size c ->
  get_num_new_matched_tokens rid all prompt n ms c =
    match od_get rid (trackers c) with
    | None => ask rid n ms (first_contact rid all prompt c)
    | Some t => if lookup_resolved t then (c, Ok (Some 0, false)) else ask rid n ms c
    end.
Proof.
  intros Hcs. set (c2 := fun c1 : Connector => set_client (recv_all ms (client_submit (client c1)).1)
    (sent c1 ++ [((client_submit (client c1)).2, RqQuery (mkQueryPayload rid (cn_world_size c)))]) c1).
  assert (forall c1 : Connector,
    (let* r := try_res (let* a := call (RqQuery (mkQueryPayload rid (cn_world_size c))) ms in
                       lift_res (int_reply a)) in
     match r with
     | Raise _ => let* _ := on_tracker rid (modify set_resolved) in ret (Some 0, false)
     | Ok None => ret (None, true)
     | Ok (Some hits) =>
        let* _ := on_tracker rid (modify (resolve_hits hits n)) in
        if n <? hits then ret (Some (hits - n), true) else ret (Some 0, false)
     end) c1 =
    match query_outcome ms c1 with
    | Raise _ => (upd_tracker rid set_resolved (c2 c1), Ok (Some 0, false))
    | Ok None => (c2 c1, Ok (None, true))
    | Ok (Some hits) =>
        (upd_tracker rid (resolve_hits hits n) (c2 c1),
         Ok (if n <? hits then (Some (hits - n), true) else (Some 0, false)))
    end) as Hask.
  { intros c1. unfold c2, query_outcome, call, submit, receive, try_res, lift_res. unfold bind at 1.
    unfold bind at 1. unfold bind at 1. unfold bind at 1. unfold modify at 1.
    destruct (client_submit (client c1)) as [cl uid]. unfold bind at 1. simpl.
    destruct (future_value (recv_all ms cl) uid) as [a|e]; simpl;
      [destruct (int_reply a) as [[hits|]|e]; simpl|]; try done; unfold bind;
      rewrite on_tracker_modify; try done; by destruct (n <? hits). }
  unfold get_num_new_matched_tokens, get, tracker_of. unfold bind at 1. unfold bind at 1. unfold bind at 1.
  destruct (od_get rid (trackers c)) as [t|] eqn:E.
  - unfold ret at 1. destruct (lookup_resolved t); [done|]. rewrite Hask. unfold c2, ask, after_query.
    by destruct (client_submit (client c)).
  - unfold modify at 1, lift_res at 1, py_floordiv. replace (cn_chunk_size c =? 0) with false by lia.
    unfold submit at 1. unfold bind at 1. unfold bind at 1. unfold bind at 1.
    unfold first_contact. simpl (client _). destruct (client_submit (client c)) as [cl uid] eqn:Ecl.
    unfold ret at 1. rewrite Hask. unfold c2, ask, after_query. simpl (client _).
    by destruct (client_submit cl).
Qed.

(** ** Reachable connectors

    Any sequence of hook calls, replies and worker activity; [log rid] are the
    STORE operations queued for the current tracker of [rid].  vLLM schedules a
    request only after its lookup is resolved, and the server counts hits in whole
    chunks. *)

Definition stores_of (ms : list ReqMeta) : list LoadStoreOp :=
  rm_op <$> filter (fun m => rm_req m = STORE) ms.

(** A settled future was settled by a message. *)
Lemma future_from_message ms cl uid a :
  futures cl !! uid = Some None -> future_value (recv_all ms cl) uid = Ok a ->
  exists m, m ∈ ms /\ a = decode m.
Proof.
  unfold recv_all. revert cl. induction ms as [|m ms IH]; intros cl H0; simpl.
  { unfold future_value. by rewrite H0. }
  intros Ha. destruct (decide (m_uid m = uid /\ uid ∈ pending_futs cl)) as [[Hu Hp]|Hne].
  - exists m. split; [left|]. fold (recv_all ms (client_on_recv m cl)) in Ha.
    pose proof (recv_settled ms (client_on_recv m cl) uid
      (match m_ok m, m_body m with false, BExc e => Raise e | _, _ => Ok (decode m) end)) as Hs.
    unfold client_on_recv in Hs, Ha. rewrite Hu, decide_True in Hs by done.
    rewrite Hu, decide_True in Ha by done. simpl in *. unfold future_value in Ha.
    rewrite Hs in Ha by first [apply lookup_insert_eq|set_solver].
    by destruct (m_ok m), (m_body m); simplify_eq.
  - destruct (IH (client_on_recv m cl)) as (m' & Hm & ->); [|done|exists m'; by split; [right|]].
    unfold client_on_recv. case_decide as Hp; [|done]. simpl. rewrite lookup_insert_ne; [done|].
    intros Hu. apply Hne. rewrite <- Hu. by split.
Qed.

Section reach.
Context (cs bs : Z).

Definition whole_replies (ms : list msg) : Prop :=
  Forall (fun m => forall h, int_reply (decode m) = Ok (Some h) -> whole cs h) ms.

Definition scheduled_resolved (out : SchedulerOutput) (c : Connector) : Prop :=
  forall rid t, rid ∈ (num_scheduled_tokens out).*1 -> od_get rid (trackers c) = Some t ->
    lookup_resolved t = true.

Inductive creach : Connector -> (string -> list LoadStoreOp) -> Prop :=
| cr_new c : trackers c = [] -> cn_chunk_size c = cs -> cn_block_size c = bs -> creach c (fun _ => [])
| cr_tokens c log rid more : creach c log ->
    creach (upd_tracker rid (fun t => set_tokens (token_ids t ++ more) t) c) log
| cr_match c log rid all prompt n ms c' r : creach c log -> whole_replies ms ->
    get_num_new_matched_tokens rid all prompt n ms c = (c', Ok r) -> creach c' log
| cr_alloc c log rid groups n c' r : creach c log ->
    update_state_after_alloc rid groups n c = (c', r) -> creach c' log
| cr_build c log out c' metas : creach c log -> out_ok out -> scheduled_resolved out c ->
    build_connector_meta out c = (c', Ok metas) ->
    creach c' (fun rid => log rid ++ stores_of (filter (fun m => rm_request_id m = rid) metas))
| cr_finished c log rid c' b : creach c log -> request_finished rid c = (c', Ok b) ->
    creach c' (fun rid' => if decide (rid' = rid) then [] else log rid')
| cr_other c log c' : creach c log -> trackers c' = trackers c ->
    cn_chunk_size c' = cn_chunk_size c -> cn_block_size c' = cn_block_size c -> creach c' log.

Definition reach_ok (c : Connector) (log : string -> list LoadStoreOp) : Prop :=
  cn_chunk_size c = cs /\ cn_block_size c = bs /\
  forall rid, match od_get rid (trackers c) with
              | Some t => exists toks, tlife cs bs toks t (log rid)
              | None => log rid = []
              end.

(** A hook that only acts on the tracker of one request. *)
Lemma reach_ok_upd rid f c log :
  reach_ok c log ->
  (forall t toks, od_get rid (trackers c) = Some t -> tlife cs bs toks t (log rid) ->
     tlife cs bs toks (f t) (log rid)) ->
  reach_ok (upd_tracker rid f c) log.
Proof.
  intros (H1 & H2 & H3) Hf. destruct (upd_tracker_spec rid f c) as (Hs & _ & Hu).
  rewrite Hs. split; [done|]. split; [done|]. intros rid'. simpl. rewrite Hu. specialize (H3 rid').
  destruct (od_get rid' (trackers c)) as [t|] eqn:E; [|done]. simpl. destruct H3 as [toks H3].
  exists toks. case_decide; [subst; by apply Hf|done].
Qed.

Lemma reach_ok_same c c' log :
  reach_ok c log -> trackers c' = trackers c ->
  cn_chunk_size c' = cn_chunk_size c -> cn_block_size c' = cn_block_size c -> reach_ok c' log.
Proof. intros (H1 & H2 & H3) E1 E2 E3. split; [congruence|]. split; [congruence|]. by rewrite E1. Qed.

Hypotheses (Hbs : 0 < bs) (Hcs : 0 < cs) (Hdiv : cs mod bs = 0).

(** One pass through the scheduler output is a stretch of a tracker's life. *)
Lemma sched_life toks rid sched t ops o :
  tlife cs bs toks t (ops ++ stores_of o) -> (rid ∈ sched.*1 -> lookup_resolved t = true) ->
  let (t', o') := foldl (fun p (s : string * Z) => if decide (s.1 = rid)
           then let (t', r) := sched_entry cs bs s.2 p.1 in (t', p.2 ++ metas_of rid STORE r) else p)
           (t, o) sched in
  tlife cs bs toks t' (ops ++ stores_of o').
Proof using Hbs Hcs.
  revert t o. induction sched as [|[r n] sched IH]; intros t o Ht Hr; [done|]. cbn [foldl fst snd].
  case_decide as E; [subst r|apply IH; [done|]; intros Hin; apply Hr; rewrite fmap_cons; by right].
  assert (lookup_resolved t = true) as Hres by (apply Hr; rewrite fmap_cons; left).
  destruct (sched_entry cs bs n t) as [t' [r|e]] eqn:Es.
  2: { destruct (sched_total cs bs Hbs Hcs n t) as (? & ? & ?). congruence. }
  assert (generate_store_op cs bs (set_computed (num_computed_tokens t + n) t) = (t', Ok r)) as Eg by exact Es.
  apply IH.
  - assert (stores_of (o ++ metas_of rid STORE (Ok r))
      = stores_of o ++ match r with Some op => [op] | None => [] end) as ->.
    { unfold stores_of. rewrite filter_app, fmap_app. f_equal. by destruct r. }
    rewrite app_assoc. by eapply tl_store.
  - intros _. rewrite store_op_run in Eg by done. destruct (_ <=? 0); by injection Eg as <- _.
Qed.

Lemma request_step_life out rid toks t ops :
  tlife cs bs toks t ops -> (rid ∈ (num_scheduled_tokens out).*1 -> lookup_resolved t = true) ->
  tlife cs bs toks (request_step cs bs out rid t).1 (ops ++ stores_of (request_step cs bs out rid t).2).
Proof using Hbs Hcs.
  intros Ht Hr. unfold request_step.
  destruct (generate_retrieve_op cs bs t) as [t1 [r|e]] eqn:E1.
  2: { destruct (retrieve_total cs bs Hbs Hcs t) as (? & ? & ?). congruence. }
  assert (lookup_resolved t1 = lookup_resolved t) as Hr1.
  { rewrite retrieve_op_run in E1 by done. by destruct (load_pending t); injection E1 as <- _. }
  apply (tl_retrieve cs bs toks t ops t1 r) in Ht; [|done]. rewrite <- Hr1 in Hr. clear E1 Hr1.
  assert (forall {X} (k : X -> string) (f : X -> RequestTracker -> RequestTracker) xs t,
    (forall x t, tlife cs bs toks t ops -> tlife cs bs toks (f x t) ops) ->
    (forall x t, lookup_resolved (f x t) = lookup_resolved t) -> tlife cs bs toks t ops ->
    let t' := foldl (fun t x => if decide (k x = rid) then f x t else t) t xs in
    tlife cs bs toks t' ops /\ lookup_resolved t' = lookup_resolved t) as Hfold.
  { intros X k f xs t0 Hf Hf'. revert t0. induction xs as [|x xs IH]; intros t0 H0; [done|].
    simpl. case_decide; [|by apply IH]. rewrite <- (Hf' x t0). by apply IH, Hf. }
  destruct (Hfold _ (fun r : string * list (list Z) * Z => r.1.1) new_entry (scheduled_new_reqs out) t1)
    as [Ht2 Hr2]; [intros x t0; apply tl_table|done|done|].
  set (t2 := foldl _ t1 _) in *.
  destruct (Hfold _ snd (cached_entry out) (imap pair (cached_req_ids out)) t2) as [Ht3 Hr3]; [| |done|].
  { intros x t0 H0. unfold cached_entry. destruct (default None _); [by apply tl_table|].
    replace t0 with (set_block_ids (block_ids t0) t0) by by destruct t0. by apply tl_table. }
  { intros x t0. unfold cached_entry. by destruct (default None _). }
  set (t3 := foldl _ t2 _) in *.
  pose proof (sched_life toks rid (num_scheduled_tokens out) t3 ops (metas_of rid RETRIEVE (Ok r))) as Hs.
  destruct (foldl _ (t3, _) _) as [t4 o4]. cbn [fst snd]. apply Hs.
  2: { intros Hin. rewrite Hr3, Hr2. by apply Hr. }
  assert (stores_of (metas_of rid RETRIEVE (Ok r)) = []) as -> by by destruct r.
  by rewrite app_nil_r.
Qed.


Lemma query_whole ms c hits :
  whole_replies ms -> query_outcome ms c = Ok (Some hits) -> whole cs hits.
Proof using.
  intros Hms. unfold query_outcome, client_submit. set (cl := mkClient _ _ _).
  destruct (future_value (recv_all ms cl) _) as [a|] eqn:E; [|done]. simpl. intros Ha.
  apply future_from_message in E as (m & Hm & ->); [|apply lookup_insert_eq].
  unfold whole_replies in Hms. rewrite Forall_forall in Hms. by eapply Hms.
Qed.

Lemma reach_match c log rid all prompt n ms c' r :
  reach_ok c log -> whole_replies ms ->
  get_num_new_matched_tokens rid all prompt n ms c = (c', Ok r) -> reach_ok c' log.
Proof using Hcs.
  intros Hok Hms. pose proof Hok as (Hc & Hb & _). rewrite match_tokens_run by (rewrite Hc; done).
  assert (forall c1 t1, reach_ok c1 log -> od_get rid (trackers c1) = Some t1 -> lookup_resolved t1 = false ->
    ask rid n ms c1 = (c', Ok r) -> reach_ok c' log) as Hask.
  { intros c1 t1 Hok1 Ht1 Hres Hq. unfold ask in Hq.
    assert (trackers (after_query rid ms c1) = trackers c1) as Et
      by (unfold after_query; by destruct (client_submit (client c1))).
    assert (reach_ok (after_query rid ms c1) log) as Hok2.
    { eapply reach_ok_same; [exact Hok1|done|..]; unfold after_query; by destruct (client_submit (client c1)). }
    destruct (query_outcome ms c1) as [[hits|]|e] eqn:Eq; injection Hq as <- _; [|done|];
      (apply reach_ok_upd; [done|]; intros t toks Ht Hl; rewrite Et in Ht; simplify_eq).
    - apply tl_hits; [done|done|]. by eapply query_whole.
    - by apply tl_failed. }
  destruct (od_get rid (trackers c)) as [t|] eqn:Et; cbv zeta.
  - destruct (lookup_resolved t) eqn:Hres; [by intros [= <- _]|]. by eapply Hask.
  - eapply (Hask _ (new_tracker all)); [| |done].
    + destruct Hok as (_ & _ & H3). unfold first_contact. destruct (client_submit (client c)) as [cl uid].
      split; [done|]. split; [done|]. intros rid'. simpl.
      destruct (decide (rid' = rid)) as [->|Hne]; [|rewrite od_get_set_ne by done; apply H3].
      rewrite od_get_set_eq. exists all. specialize (H3 rid). rewrite Et in H3. rewrite H3. apply tl_new.
    + unfold first_contact. destruct (client_submit (client c)) as [cl uid]. apply od_get_set_eq.
Qed.

Lemma reach_alloc c log rid groups n c' r :
  reach_ok c log -> update_state_after_alloc rid groups n c = (c', r) -> reach_ok c' log.
Proof using Hcs.
  intros Hok. unfold update_state_after_alloc, get, tracker_of. unfold bind at 1. unfold bind at 1.
  destruct (od_get rid (trackers c)) as [t|] eqn:Et; [|by intros [= <- _]].
  unfold bind at 1, lift_res at 1. destruct (py_index groups 0) as [g|]; [|by intros [= <- _]].
  unfold bind at 1, on_tracker. rewrite Et. destruct Hok as (Hc & Hok). rewrite Hc.
  destruct (alloc_update cs g n t) as [t' [r'|e]] eqn:Ea.
  2: { rewrite alloc_update_run in Ea by done. by destruct (alloc_seen t). }
  assert (reach_ok (set_trackers (od_set rid t' (trackers c)) c) log) as Hok'.
  { pose proof (reach_ok_upd rid (fun _ => t') c log (conj Hc Hok)) as Hu. unfold upd_tracker in Hu.
    rewrite Et in Hu. apply Hu. intros t0 toks Ht0 Hl. simplify_eq. by eapply tl_alloc. }
  destruct r' as [k|]; [|by intros [= <- _]]. unfold bind, submit. destruct (client_submit _) as [cl uid].
  intros [= <- _]. by eapply reach_ok_same.
Qed.

Lemma creach_ok c log : creach c log -> reach_ok c log.
Proof.
  induction 1 as [c Ht Hc Hb|c log rid more _ IH|c log rid all prompt n ms c' r _ IH Hms E
    |c log rid groups n c' r _ IH E|c log out c' metas _ IH Hout Hsr E|c log rid c' b _ IH E|c log c' _ IH E1 E2 E3].
  - split; [done|]. split; [done|]. intros rid. by rewrite Ht.
  - apply reach_ok_upd; [done|]. intros t toks _. apply tl_tokens.
  - by eapply reach_match.
  - by eapply reach_alloc.
  - destruct IH as (Hc & Hb & H3).
    destruct (build_meta_spec cs bs Hbs Hcs out c Hc Hb Hout) as (c0 & m0 & E0 & Hs & _ & Hp).
    rewrite E in E0. injection E0 as <- <-. rewrite Hs. split; [done|]. split; [done|]. intros rid. simpl.
    destruct (Hp rid) as [-> ->]. specialize (H3 rid). destruct (od_get rid (trackers c)) as [t|] eqn:Et; simpl.
    + destruct H3 as [toks Hl]. exists toks. apply request_step_life; [done|]. intros Hin. by eapply Hsr.
    + by rewrite H3.
  - destruct IH as (Hc & Hb & H3). unfold request_finished, bind, modify, submit, ret in E.
    destruct (client_submit _) as [cl uid]. injection E as <- _. split; [done|]. split; [done|].
    intros rid'. simpl. destruct (decide (rid' = rid)) as [->|Hne]; [by rewrite od_get_pop_eq|].
    rewrite od_get_pop_ne by done. apply H3.
  - by eapply reach_ok_same.
Qed.
End reach.

(** C24: [build_connector_meta] treats every request on its own: the tracker it
    leaves and the operations it queues for a request depend only on that
    request's tracker and on the entries of the scheduler output that name it, in
    the order retrieve, block table, computed tokens, store; nothing else of the
    connector changes. *)
Theorem build_meta_per_request out c :
  0 < cn_block_size c -> 0 < cn_chunk_size c -> out_ok out ->
  exists c' metas, build_connector_meta out c = (c', Ok metas) /\ same_but_trackers c c' /\
    forall rid,
      od_get rid (trackers c')
        = (fun t => (request_step (cn_chunk_size c) (cn_block_size c) out rid t).1) <$> od_get rid (trackers c) /\
      filter (fun m => rm_request_id m = rid) metas
        = match od_get rid (trackers c) with
          | Some t => (request_step (cn_chunk_size c) (cn_block_size c) out rid t).2
          | None => []
          end.
Proof.
  intros Hb Hc Hout.
  destruct (build_meta_spec _ _ Hb Hc out c eq_refl eq_refl Hout) as (c' & metas & E & H1 & _ & H3).
  by exists c', metas.
Qed.


(** Asking the server: what the tracker of the request knows afterwards. *)
Definition told (n : Z) (r : option Z * bool) (t' : RequestTracker) : Prop :=
  match r with
  | (None, b) => b = true /\ lookup_resolved t' = false
  | (Some k, b) => lookup_resolved t' = true /\ 0 <= k /\ b = (0 <? k) /\
      (0 < k -> vllm_hits t' = n /\ lmcache_hits t' = n + k /\ num_stored_tokens t' = n + k)
  end.

Lemma after_query_spec rid ms c :
  trackers (after_query rid ms c) = trackers c /\
  (sent (after_query rid ms c)).*2 = (sent c).*2 ++ [RqQuery (mkQueryPayload rid (cn_world_size c))].
Proof. unfold after_query. destruct (client_submit (client c)). split; [done|]. cbn. by rewrite fmap_app. Qed.

Lemma upd_after_query rid ms c f t :
  od_get rid (trackers c) = Some t ->
  let c' := upd_tracker rid f (after_query rid ms c) in
  sent c' = sent (after_query rid ms c) /\ od_get rid (trackers c') = Some (f t) /\
  forall rid', rid' <> rid -> od_get rid' (trackers c') = od_get rid' (trackers c).
Proof.
  intros Ht. destruct (upd_tracker_spec rid f (after_query rid ms c)) as (Hs & _ & Hu). cbv zeta.
  rewrite (proj1 (after_query_spec rid ms c)) in Hu.
  split; [by rewrite Hs|]. split; [rewrite Hu, Ht; cbn; by rewrite decide_True|]. intros rid' Hne.
  rewrite Hu. destruct (od_get rid' (trackers c)); cbn; [by rewrite decide_False|done].
Qed.

Lemma ask_spec rid n ms c t :
  od_get rid (trackers c) = Some t -> lookup_resolved t = false ->
  exists c' r, ask rid n ms c = (c', Ok r) /\
    (sent c').*2 = (sent c).*2 ++ [RqQuery (mkQueryPayload rid (cn_world_size c))] /\
    (forall rid', rid' <> rid -> od_get rid' (trackers c') = od_get rid' (trackers c)) /\
    exists t', od_get rid (trackers c') = Some t' /\ told n r t'.
Proof.
  intros Ht Hres. destruct (after_query_spec rid ms c) as [Et Es]. unfold ask.
  destruct (query_outcome ms c) as [[hits|]|e].
  - destruct (upd_after_query rid ms c (resolve_hits hits n) t Ht) as (H1 & H2 & H3). eexists _, _. split; [reflexivity|].
    rewrite H1. split; [done|]. split; [done|]. eexists. split; [exact H2|]. cbn.
    destruct (Z.ltb_spec n hits); (split; [done|]).
    + split; [lia|]. split; [symmetry; apply Z.ltb_lt; lia|]. cbn. lia.
    + split; [done|]. split; [done|]. lia.
  - eexists _, _. split; [reflexivity|]. split; [done|]. rewrite Et. split; [done|]. by exists t.
  - destruct (upd_after_query rid ms c set_resolved t Ht) as (H1 & H2 & H3). eexists _, _. split; [reflexivity|].
    rewrite H1. split; [done|]. split; [done|]. eexists. split; [exact H2|]. cbn. by split_and!.
Qed.

(** The first call sends the LOOKUP of the whole chunks of the prompt. *)
Lemma first_contact_spec rid all prompt c :
  0 < cn_chunk_size c ->
  od_get rid (trackers (first_contact rid all prompt c)) = Some (new_tracker all) /\
  cn_world_size (first_contact rid all prompt c) = cn_world_size c /\
  (sent (first_contact rid all prompt c)).*2 = (sent c).*2 ++
    [RqLookup (mkLookupPayload rid (take (Z.to_nat (Zlen prompt / cn_chunk_size c * cn_chunk_size c)) prompt)
       (cn_model c) (cn_world_size c))] /\
  forall rid', rid' <> rid -> od_get rid' (trackers (first_contact rid all prompt c)) = od_get rid' (trackers c).
Proof.
  intros Hc. unfold first_contact. destruct (client_submit (client c)) as [cl uid]. split_and!.
  - apply od_get_set_eq.
  - done.
  - cbn. rewrite fmap_app, py_take_nonneg; [done|]. pose proof (Zlen_nonneg prompt).
    assert (0 <= Zlen prompt / cn_chunk_size c) by (apply Z.div_pos; lia). nia.
  - intros rid' Hne. cbn. by apply od_get_set_ne.
Qed.


(** ** Witnesses: one request, chunks of 4 tokens, blocks of 2 *)

Definition toy_connector : Connector :=
  mkConnector 4 2 "m" 1 7 new_client [] [] [] [] ∅ None [] [].
Definition toy_prompt : list Z := [1; 2; 3; 4; 5; 6; 7; 8; 9].
Definition toy_sched : SchedulerOutput :=
  mkSchedulerOutput [("r", [[20; 21; 22; 23; 24]], 0)] [] [] [] [] [("r", 9)].

(** The server answers 4 hits to the second message. *)
Definition toy_matched : Connector :=
  fst (get_num_new_matched_tokens "r" toy_prompt toy_prompt 0 [mkMsg [] 1 true (BValue (VInt 4)) []] toy_connector).
Definition toy_built : Connector := fst (build_connector_meta toy_sched toy_matched).

Lemma toy_matched_run :
  get_num_new_matched_tokens "r" toy_prompt toy_prompt 0 [mkMsg [] 1 true (BValue (VInt 4)) []] toy_connector
    = (toy_matched, Ok (Some 4, true)).
Proof. vm_compute. reflexivity. Qed.

Lemma toy_out_ok : out_ok toy_sched.
Proof. split; [by repeat constructor|]. by intros i rid Hi. Qed.

Definition toy_log (rid : string) : list LoadStoreOp :=
  [] ++ stores_of (filter (fun m => rm_request_id m = rid) [mkReqMeta "r" STORE
    (mkLoadStoreOp [1; 2; 3; 4; 5; 6; 7; 8] [22; 23] 4 8 0)]).

Lemma toy_creach : creach 4 2 toy_built toy_log.
Proof.
  apply (cr_build 4 2 toy_matched (fun _ => []) toy_sched); [|exact toy_out_ok| |vm_compute; reflexivity].
  - eapply cr_match; [by apply (cr_new 4 2 toy_connector)| |exact toy_matched_run].
    constructor; [|constructor]. intros h [= <-]. split; [lia|done].
  - intros rid t Hin Ht. assert (rid = "r") as -> by set_solver. vm_compute in Ht. by injection Ht as <-.
Qed.

Lemma build_meta_per_request_witness :
  exists c' metas, build_connector_meta toy_sched toy_matched = (c', Ok metas) /\
    filter (fun m => rm_request_id m = "r") metas
      = [mkReqMeta "r" STORE (mkLoadStoreOp [1; 2; 3; 4; 5; 6; 7; 8] [22; 23] 4 8 0)].
Proof.
  destruct (build_meta_per_request toy_sched toy_matched) as (c' & metas & E & _ & H).
  - vm_compute. reflexivity.
  - vm_compute. reflexivity.
  - exact toy_out_ok.
  - exists c', metas. split; [exact E|]. destruct (H "r") as [_ ->]. vm_compute. reflexivity.
Defined.


