(* ===== verification/Unlocking.v ===== *)
(** Connector and server together: which chunks the operations of a request
    name on the server, and which of the lookup's locks each of its messages gives
    back. *)
From S2P Require Import Prelude PyFloat Protocol Hasher Memory L1Manager Eviction L1Protocol.
From S2P Require Import L2 Threads Storage Prefetch Server MQ KVFormat Transfer Tracker.
From S2P Require Import Connector Scheduling.
Local Open Scope py_scope.
Local Open Scope Z_scope.

(** ** Keys of several ranks *)

Section keys.
Context (model : string).

Lemma keys_for_app hs1 hs2 rs : keys_for (hs1 ++ hs2) model rs = keys_for hs1 model rs ++ keys_for hs2 model rs.
Proof. apply bind_app. Qed.

Lemma keys_for_length hs rs : length (keys_for hs model rs) = (length hs * length rs)%nat.
Proof.
  unfold keys_for. induction hs as [|h hs IH]; [done|]. csimpl. rewrite length_app, length_fmap, IH. reflexivity.
Qed.

Lemma keys_for_take_drop hs rs n :
  take (n * length rs) (keys_for hs model rs) = keys_for (take n hs) model rs /\
  drop (n * length rs) (keys_for hs model rs) = keys_for (drop n hs) model rs.
Proof.
  destruct (decide (n <= length hs)%nat) as [Hn|Hn].
  - pose proof (keys_for_app (take n hs) (drop n hs) rs) as Ha. rewrite take_drop in Ha. rewrite Ha.
    assert (length (keys_for (take n hs) model rs) = (n * length rs)%nat) as Hl
      by (by rewrite keys_for_length, length_take, Nat.min_l).
    split; [by apply take_app_length'|by apply drop_app_length'].
  - rewrite !take_ge, !drop_ge by (rewrite ?keys_for_length; nia). done.
Qed.

(** The keys of all the ranks, rank by rank. *)
Lemma keys_for_ranks hs rs :
  keys_for hs model rs ≡ₚ concat ((fun r => keys_for hs model [r]) <$> rs).
Proof.
  induction rs as [|r rs IH].
  - unfold keys_for. simpl. induction hs as [|h hs IH]; [done|]. exact IH.
  - csimpl. rewrite <- IH. clear IH. unfold keys_for. induction hs as [|h hs IH]; [done|].
    csimpl. rewrite IH. constructor. rewrite !app_assoc. f_equiv. apply Permutation_app_comm.
Qed.
End keys.

Lemma ranks_length n : length (ranks n) = Z.to_nat n.
Proof. apply length_seqZ. Qed.

Section operations.
Context (blake3 : bytes -> bytes) (cs : Z).
Hypothesis (Hcs : 0 < cs).

(** The chunks an operation names, when its tokens are a prefix in whole
    chunks of tokens already hashed. *)
Lemma op_keys_prefix tokens hs op inst :
  chunk_hashes blake3 tokens cs = Ok hs -> whole cs (op_start op) -> whole cs (op_end op) ->
  op_end op <= Zlen tokens -> op_token_ids op = py_take (op_end op) tokens ->
  op_keys blake3 cs op inst =
    Ok (keys_for (drop (Z.to_nat (op_start op / cs)) (take (Z.to_nat (op_end op / cs)) hs))
          (ei_model inst) [ei_rank inst]).
Proof.
  intros Hhs [Hs0 Hs] [He0 He] Hlen Htok. unfold op_keys. rewrite Htok, !py_take_nonneg by lia.
  rewrite take_take, Nat.min_id.
  pose proof (Z.div_mod (op_end op) cs ltac:(lia)) as Hd. rewrite He, Z.add_0_r in Hd.
  assert (0 <= op_end op / cs) by (apply Z.div_pos; lia).
  assert (Z.to_nat (op_end op) = Z.to_nat (op_end op / cs) * Z.to_nat cs)%nat as Hn
    by (rewrite Hd at 1; rewrite Z2Nat.inj_mul by lia; lia).
  assert (Z.to_nat (op_end op / cs) <= length hs)%nat as Hk.
  { rewrite (chunk_hashes_length blake3 tokens cs hs Hcs Hhs).
    apply Nat.div_le_lower_bound; [lia|]. unfold Zlen in Hlen. lia. }
  rewrite Hn, (chunk_hashes_take blake3 tokens cs hs _ Hcs Hhs Hk).
  cbn [res_bind]. unfold py_floordiv. replace (cs =? 0) with false by lia. cbn [res_bind].
  rewrite py_drop_nonneg by (apply Z.div_pos; lia). done.
Qed.
End operations.

Lemma prefix_take (l1 l2 : list Z) e : l1 `prefix_of` l2 -> 0 <= e <= Zlen l1 -> py_take e l2 = py_take e l1.
Proof.
  intros [more ->] He. rewrite !py_take_nonneg by lia. apply take_app_le. unfold Zlen in He. lia.
Qed.

(** Consecutive operations name consecutive chunks. *)
Lemma tiled_keys blake3 cs bs tokens hs inst from ops to :
  0 < cs -> chunk_hashes blake3 tokens cs = Ok hs -> whole cs from ->
  tiled from ops to -> Forall (store_op_ok cs bs tokens) ops ->
  exists kss, Forall2 (fun op ks => op_keys blake3 cs op inst = Ok ks) ops kss /\
    concat kss = keys_for (drop (Z.to_nat (from / cs)) (take (Z.to_nat (to / cs)) hs))
                   (ei_model inst) [ei_rank inst] /\ from <= to.
Proof.
  intros Hcs Hhs. revert from. induction ops as [|op ops IH]; intros from Hf Ht Hok.
  { simpl in Ht. subst. exists []. split; [constructor|]. split; [|lia].
    rewrite skipn_all2; [done|]. rewrite length_take. lia. }
  destruct Ht as (Hs & Hlt & Ht). apply Forall_cons in Hok as [Hop Hok].
  destruct (IH (op_end op) (so_end _ _ _ _ Hop) Ht Hok) as (kss & Hkss & Hc & Hle).
  pose proof (op_keys_prefix blake3 cs Hcs tokens hs op inst Hhs (so_start _ _ _ _ Hop)
    (so_end _ _ _ _ Hop) (so_len _ _ _ _ Hop) (so_tokens _ _ _ _ Hop)) as Hk.
  eexists (_ :: kss). split; [by constructor|]. split; [|lia]. cbn [concat]. rewrite Hc, Hs, <- keys_for_app.
  f_equal. assert (Z.to_nat (from / cs) <= Z.to_nat (op_end op / cs))%nat as H1
    by (apply Z2Nat.inj_le; [apply Z.div_pos; [apply Hf|lia]|apply Z.div_pos; [apply Hop|lia]|apply Z.div_le_mono; lia]).
  assert (Z.to_nat (op_end op / cs) <= Z.to_nat (to / cs))%nat as H2.
  { pose proof (proj1 (so_end _ _ _ _ Hop)).
    apply Z2Nat.inj_le; [apply Z.div_pos; lia|apply Z.div_pos; lia|apply Z.div_le_mono; lia]. }
  set (a := Z.to_nat (from / cs)) in *. set (b := Z.to_nat (op_end op / cs)) in *. set (c := Z.to_nat (to / cs)) in *.
  pose proof (take_drop b (take c hs)) as E. rewrite take_take, Nat.min_l in E by done.
  transitivity (drop a (take b hs ++ drop b (take c hs))); [|by rewrite E].
  destruct (decide (b <= length hs)%nat).
  - rewrite drop_app_le; [done|]. rewrite length_take. lia.
  - rewrite !(drop_ge (take c hs) b) by (rewrite length_take; lia). by rewrite !app_nil_r.
Qed.

(** C15: the STORE operations of a request name every chunk from the cached
    prefix to the waterline on the server exactly once and in order, as the
    tokens' chunk hashes for the instance's model and rank. *)
Theorem stores_name_chunks_once blake3 cs bs c log rid t hs inst :
  0 < bs -> 0 < cs -> cs mod bs = 0 -> creach cs bs c log -> od_get rid (trackers c) = Some t ->
  chunk_hashes blake3 (token_ids t) cs = Ok hs ->
  exists kss, Forall2 (fun op ks => op_keys blake3 cs op inst = Ok ks) (log rid) kss /\
    concat kss =
      keys_for (drop (Z.to_nat (lmcache_hits t / cs)) (take (Z.to_nat (num_stored_tokens t / cs)) hs))
        (ei_model inst) [ei_rank inst].
Proof.
  intros Hbs Hcs Hdiv Hr Ht Hhs. apply creach_ok in Hr as (_ & _ & H); [|done..]. specialize (H rid).
  rewrite Ht in H. destruct H as [toks H].
  destruct (life_inv_holds cs bs Hbs Hcs Hdiv toks t (log rid) H) as (H1 & _ & H2 & H3 & _).
  destruct (tiled_keys blake3 cs bs (token_ids t) hs inst _ _ _ Hcs Hhs H1 H2 H3) as (kss & ? & ? & _). eauto.
Qed.

(** C11: the locks of a lookup are given back exactly once. The lookup holds the
    first [k] keys, chunk by chunk for all ranks; when the request is allocated
    with a pending load, the chunks FREE_LOOKUP_LOCKS names and the chunks the
    ranks RETRIEVE partition the whole chunks held: nothing RETRIEVE still needs
    is unlocked early. Only an incomplete last chunk stays for END_SESSION. *)
Theorem unlock_partition blake3 cs bs L hs model ws k t blocks ext t1 n t2 op bsz nb :
  let held := take k (keys_for hs model (ranks ws)) in
  0 < bs -> 0 < cs -> cs mod bs = 0 -> 0 < ws -> (k <= length (keys_for hs model (ranks ws)))%nat ->
  chunk_hashes blake3 L cs = Ok hs -> L `prefix_of` token_ids t ->
  lmcache_hits t = Z.of_nat k / ws * cs -> 0 <= vllm_hits t < lmcache_hits t ->
  alloc_seen t = false -> 0 < ext -> alloc_update cs blocks ext t = (t1, Ok n) ->
  generate_retrieve_op cs bs t1 = (t2, Ok (Some op)) ->
  exists kss,
    Forall2 (fun r ks => op_keys blake3 cs op (mkEngineInstance r model ws bsz nb) = Ok ks) (ranks ws) kss /\
    take (Z.to_nat (default 0 n * ws)) held ++ concat kss ++ drop (k / Z.to_nat ws * Z.to_nat ws) held ≡ₚ held /\
    (length (drop (k / Z.to_nat ws * Z.to_nat ws) held) < Z.to_nat ws)%nat.
Proof.
  intros held Hbs Hcs Hdiv Hws Hk Hhs Hpre Hhits Hv Has Hext Ha Hr.
  rewrite alloc_update_run in Ha by done. rewrite Has in Ha.
  replace (0 <? ext) with true in Ha by lia. simpl in Ha. injection Ha as <- Hn.
  rewrite retrieve_op_run in Hr by done. simpl in Hr. injection Hr as _ Hop.
  set (K := (k / Z.to_nat ws)%nat). set (A := Z.to_nat (vllm_hits t / cs)).
  assert (Z.of_nat k / ws = Z.of_nat K) as EK by (unfold K; rewrite Nat2Z.inj_div, Z2Nat.id by lia; done).
  rewrite EK in Hhits.
  assert (0 <= vllm_hits t / cs < Z.of_nat K) as HA
    by (split; [apply Z.div_pos; lia|apply Z.div_lt_upper_bound; lia]).
  assert (lmcache_hits t / cs = Z.of_nat K) as Eh by (rewrite Hhits; apply Z.div_mul; lia).
  assert (Z.to_nat (default 0 n * ws) = (A * length (ranks ws))%nat) as ->.
  { rewrite ranks_length, <- Hn, Eh, Z.min_l by lia. unfold A. rewrite <- Z2Nat.inj_mul by lia.
    destruct (Z.eqb_spec (vllm_hits t / cs) 0) as [->|]; done. }
  pose proof (keys_for_length model hs (ranks ws)) as Hkl. rewrite Hkl in Hk.
  rewrite ranks_length in *. set (w := Z.to_nat ws) in *. assert (0 < w)%nat by lia.
  assert (K * w <= k)%nat as HKk by (unfold K; pose proof (Nat.mul_div_le k w ltac:(lia)); lia).
  assert (k < K * w + w)%nat as HkK by (unfold K; pose proof (Nat.mul_succ_div_gt k w ltac:(lia)); lia).
  assert (K <= length hs)%nat as HKh by nia.
  exists ((fun r => keys_for (drop A (take K hs)) model [r]) <$> ranks ws). split; [|split].
  - apply Forall2_fmap_r, Forall_Forall2_diag, Forall_forall. intros r _.
    pose proof (chunk_hashes_length blake3 L cs hs Hcs Hhs) as Hlen.
    assert (lmcache_hits t <= Zlen L) as HL.
    { rewrite Hhits. unfold Zlen. rewrite Hlen in HKh.
      pose proof (Nat.mul_div_le (length L) (Z.to_nat cs) ltac:(lia)). nia. }
    rewrite (op_keys_prefix blake3 cs Hcs L hs); [|done| | | |]; subst op; simpl.
    + by rewrite Z.div_mul, Eh, Nat2Z.id by lia.
    + split; [nia|]. apply Z_mod_mult.
    + split; [lia|]. rewrite Hhits. apply Z_mod_mult.
    + done.
    + apply prefix_take; [done|]. lia.
  - rewrite <- (keys_for_ranks model (drop A (take K hs)) (ranks ws)).
    destruct (keys_for_take_drop model hs (ranks ws) K) as [HtK HdK]. rewrite ranks_length in *. fold w in HtK, HdK.
    assert (take (K * w) held = keys_for (take K hs) model (ranks ws)) as Hm
      by (unfold held; by rewrite take_take, Nat.min_l).
    destruct (keys_for_take_drop model (take K hs) (ranks ws) A) as [HtA HdA]. rewrite ranks_length in *. fold w in HtA, HdA.
    rewrite <- HdA, <- Hm. rewrite <- (take_drop (K * w) held) at 4.
    rewrite (assoc_L (++)). f_equiv.
    rewrite <- (take_drop (A * w) (take (K * w) held)) at 2. f_equiv.
    rewrite take_take, Nat.min_l by nia. done.
  - rewrite length_drop. unfold held. rewrite length_take, Hkl. fold K. lia.
Qed.

(** ** Witnesses *)

Lemma stores_name_chunks_once_witness :
  exists hs kss, chunk_hashes toy_digest toy_prompt 4 = Ok hs /\
    Forall2 (fun op ks => op_keys toy_digest 4 op (mkEngineInstance 0 "m" 1 2 8) = Ok ks) (toy_log "r") kss /\
    concat kss = keys_for (drop 1 (take 2 hs)) "m" [0].
Proof.
  destruct (chunk_hashes toy_digest toy_prompt 4) as [hs|e] eqn:E; [|vm_compute in E; discriminate E].
  destruct (stores_name_chunks_once toy_digest 4 2 toy_built toy_log "r"
    (mkRequestTracker toy_prompt 4 0 [20; 21; 22; 23; 24] 9 8 true false false) hs
    (mkEngineInstance 0 "m" 1 2 8)) as (kss & H1 & H2).
  - lia.
  - lia.
  - reflexivity.
  - exact toy_creach.
  - vm_compute. reflexivity.
  - exact E.
  - exists hs, kss. split; [reflexivity|]. split; [exact H1|exact H2].
Defined.

Definition toy_lookup : list Z := [1; 2; 3; 4; 5; 6; 7; 8; 9; 10; 11; 12].
Definition toy_pending : RequestTracker := mkRequestTracker toy_lookup 8 4 [] 0 8 true false false.

(** Two ranks hold five keys, two whole chunks; one chunk is local. *)
Lemma unlock_partition_witness :
  exists hs op kss, let held := take 5 (keys_for hs "m" (ranks 2)) in
    Forall2 (fun r ks => op_keys toy_digest 4 op (mkEngineInstance r "m" 2 2 8) = Ok ks) (ranks 2) kss /\
    take 2 held ++ concat kss ++ drop 4 held ≡ₚ held /\ op_start op = 4.
Proof.
  destruct (chunk_hashes toy_digest toy_lookup 4) as [hs|e] eqn:E; [|vm_compute in E; discriminate E].
  eexists hs, _.
  destruct (unlock_partition toy_digest 4 2 toy_lookup hs "m" 2 5 toy_pending [1; 2; 3; 4; 5; 6] 4
    (set_alloc_seen (set_load_pending true (set_block_ids [1; 2; 3; 4; 5; 6] toy_pending))) (Some 1)
    (set_load_pending false (set_alloc_seen (set_load_pending true (set_block_ids [1; 2; 3; 4; 5; 6] toy_pending))))
    (mkLoadStoreOp [1; 2; 3; 4; 5; 6; 7; 8] [3; 4] 4 8 0) 2 8) as (kss & H1 & H2 & _).
  - lia.
  - lia.
  - reflexivity.
  - lia.
  - rewrite keys_for_length, (chunk_hashes_length toy_digest toy_lookup 4 hs) by (reflexivity || exact E).
    vm_compute. lia.
  - exact E.
  - exists []. reflexivity.
  - reflexivity.
  - split; [discriminate|reflexivity].
  - reflexivity.
  - lia.
  - reflexivity.
  - reflexivity.
  - exists kss. split; [exact H1|]. split; [exact H2|reflexivity].
Defined.
