(* ===== verification/Worker.v ===== *)
(** The worker side of the connector: the transfers it executes and what it
    reports as finished. *)
From S2P Require Import Prelude PyFloat Protocol Hasher Memory L1Manager Eviction L1Protocol.
From S2P Require Import L2 Threads Storage Prefetch Server MQ KVFormat Transfer Tracker.
From S2P Require Import Connector.
Local Open Scope py_scope.
Local Open Scope Z_scope.

(** ** Saving *)

(** The request of one STORE operation whose blocks are those of [kvs]. *)
Definition store_request (c : Connector) (elapsed : string -> float) (t : KVTransfer) (m : ReqMeta) : request :=
  let chunks := chunk_bytes (kv_caches t)
                  <$> groups (Z.to_nat (blocks_per_chunk t)) (op_block_ids (rm_op m)) in
  RqStore (mkTransferPayload (rm_request_id m) (cn_instance_id c) (rm_op m) chunks
             (elapsed (rm_request_id m)) (Zlen chunks * chunk_nbytes t)).

(** The block ids of an operation name blocks of the cache and fill chunks. *)
Definition op_fits (t : KVTransfer) (m : ReqMeta) : Prop :=
  kvs_ok (Z.to_nat (block_nbytes t)) (kv_caches t) (op_block_ids (rm_op m)) /\
  Zlen (op_block_ids (rm_op m)) mod blocks_per_chunk t = 0.

(** The engine behind [t'] is the one behind [t], with the same contents. *)
Definition same_cache (t t' : KVTransfer) : Prop :=
  kv_caches t' = kv_caches t /\ blocks_per_chunk t' = blocks_per_chunk t /\
  block_nbytes t' = block_nbytes t /\ chunk_nbytes t' = chunk_nbytes t.

(** [c'] differs from [c] at most in the client, the log and the engine. *)
Definition worker_frame (c c' : Connector) : Prop :=
  cn_instance_id c' = cn_instance_id c /\ trackers c' = trackers c /\
  store_futures c' = store_futures c /\ load_futures c' = load_futures c /\
  pending_sends c' = pending_sends c /\ events c' = events c /\ loads c' = loads c.

Definition geometry (t : KVTransfer) : Z * Z * Z := (blocks_per_chunk t, block_nbytes t, chunk_nbytes t).

Lemma to_host_geometry ids t : geometry (to_host ids t).1 = geometry t.
Proof.
  assert (forall l acc t0, geometry (for_acc l acc (to_host_one ids) t0).1 = geometry t0) as Hloop.
  { induction l as [|i l IH]; intros acc t0; [done|]. cbn [for_acc]. unfold bind at 1, to_host_one at 1.
    destruct (gather _ _ _ _ _ _) as [slot|]; [|done]. by rewrite IH. }
  unfold to_host, get, bind, lift_res, raise. destruct (py_mod _ _) as [r|]; [|done].
  destruct (r =? 0); [|done]. destruct (py_floordiv _ _); [|done]. apply Hloop.
Qed.

Lemma submit_store_spec device elapsed m c t :
  transfer c = Some t -> transfer_ok t -> op_fits t m ->
  exists c' t' f, submit_store device elapsed m c = (c', Ok f) /\
    transfer c' = Some t' /\ transfer_ok t' /\ same_cache t t' /\ worker_frame c c' /\
    sent c' = sent c ++ [(df_future f, store_request c elapsed t m)] /\
    df_done_event f = None /\ df_device_index f = device.
Proof.
  intros Ht Hok [Hk Hm]. destruct (to_host_spec t (op_block_ids (rm_op m)) Hok Hk Hm) as (t' & E & Hkv & _ & Hok').
  pose proof (to_host_geometry (op_block_ids (rm_op m)) t) as Hfr. rewrite E in Hfr. injection Hfr as Hf1 Hf2 Hf3.
  unfold submit_store, on_transfer, get, submit, bind, ret. rewrite Ht, E. simpl.
  destruct (client_submit (client c)) as [cl uid]. eexists _, t', _. split; [reflexivity|].
  unfold same_cache, worker_frame. simpl. split_and!; try done. unfold store_request. by rewrite Hf3.
Qed.

(** The futures of a batch, one per operation. *)
Definition batch (ops : list ReqMeta) (fs : list DeviceFuture) : list (string * DeviceFuture) :=
  zip (rm_request_id <$> ops) fs.

Lemma store_loop device elapsed ops c t out :
  transfer c = Some t -> transfer_ok t -> Forall (op_fits t) ops ->
  NoDup (out.*1 ++ (rm_request_id <$> ops)) ->
  exists c' t' fs,
    for_acc ops out (fun out m =>
      let* f := if decide (STORE = STORE) then submit_store device elapsed m else submit_retrieve device m in
      ret (od_set (rm_request_id m) f out)) c = (c', Ok (out ++ batch ops fs)) /\
    length fs = length ops /\ Forall (fun f => df_done_event f = None) fs /\
    transfer c' = Some t' /\ transfer_ok t' /\ same_cache t t' /\ worker_frame c c' /\
    sent c' = sent c ++ zip (df_future <$> fs) (store_request c elapsed t <$> ops).
Proof.
  intros Ht Hok Hops. revert c t out Ht Hok Hops. induction ops as [|m ops IH]; intros c t out Ht Hok Hops Hnd.
  { exists c, t, []. rewrite !app_nil_r. unfold same_cache, worker_frame. by split_and!. }
  apply Forall_cons in Hops as [Hm Hops].
  destruct (submit_store_spec device elapsed m c t Ht Hok Hm) as (c1 & t1 & f & E & Ht1 & Hok1 & Hs1 & Hw1 & Hl1 & Hf & _).
  rewrite fmap_cons in Hnd.
  assert (od_get (rm_request_id m) out = None) as Hfresh.
  { apply od_get_None. apply NoDup_app in Hnd as (_ & Hnd & _). intros Hin. apply (Hnd _ Hin). left. }
  destruct (IH c1 t1 (out ++ [(rm_request_id m, f)]) Ht1 Hok1) as (c' & t' & fs & E' & Hlen & Hev & Ht' & Hok' & Hs' & Hw' & Hl').
  - eapply Forall_impl; [exact Hops|]. intros m' [Hk Hmod]. destruct Hs1 as (S1 & S2 & S3 & _).
    split; [by rewrite S1, S3|by rewrite S2].
  - rewrite fmap_app. by rewrite <- app_assoc.
  - exists c', t', (f :: fs). cbn [for_acc]. unfold bind at 1. unfold bind at 1. rewrite decide_True by done.
    rewrite E. unfold ret at 1. rewrite od_set_fresh by done.
    split; [rewrite E'; unfold batch; by rewrite <- app_assoc|]. split; [simpl; by rewrite Hlen|].
    split; [by constructor|]. split; [done|]. split; [done|].
    destruct Hs1 as (S1 & S2 & S3 & S4), Hs' as (S1' & S2' & S3' & S4').
    destruct Hw1 as (W1 & W2 & W3 & W4 & W5 & W6 & W7), Hw' as (V1 & V2 & V3 & V4 & V5 & V6 & V7).
    split; [unfold same_cache; split_and!; congruence|]. split; [unfold worker_frame; split_and!; congruence|].
    rewrite Hl', Hl1, <- app_assoc. simpl. do 2 f_equal. f_equal. apply list_fmap_ext. intros i m' _.
    unfold store_request. by rewrite W1, S1, S2, S4.
Qed.

(** Appending each future of a batch to its request's list. *)
Lemma append_futures out c :
  NoDup out.*1 ->
  exists c', for_each out (fun p => modify (fun c =>
      set_store_futures (od_set p.1 (default [] (od_get p.1 (store_futures c)) ++ [p.2]) (store_futures c)) c)) c
      = (c', Ok tt) /\ c' = set_store_futures (store_futures c') c /\
    forall rid, od_get rid (store_futures c') =
      match od_get rid out with
      | Some f => Some (default [] (od_get rid (store_futures c)) ++ [f])
      | None => od_get rid (store_futures c)
      end.
Proof.
  revert c. induction out as [|[r f] out IH]; intros c Hnd.
  { exists c. split; [done|]. split; [by destruct c|]. done. }
  rewrite fmap_cons in Hnd. apply NoDup_cons in Hnd as [Hr Hnd]. cbn [for_each]. unfold bind, modify at 1. cbn [fst snd].
  destruct (IH (set_store_futures (od_set r (default [] (od_get r (store_futures c)) ++ [f]) (store_futures c)) c) Hnd)
    as (c' & E & Hc & Hg).
  exists c'. split; [exact E|]. split; [rewrite Hc; reflexivity|]. intros rid. rewrite Hg. cbn [od_get store_futures set_store_futures].
  destruct (decide (rid = r)) as [->|Hne].
  - rewrite (proj2 (od_get_None r out) Hr). by rewrite od_get_set_eq.
  - by rewrite od_get_set_ne.
Qed.

(** C19: saving ships exactly the computed blocks: [wait_for_save] sends one
    STORE per queued operation, in order, whose chunks are the bytes of the
    operation's blocks in every layer and whose size is theirs, leaves the cache
    untouched, and tracks one unfinished future more for each request. *)
Theorem save_ships_blocks metas device elapsed c t :
  let ops := filter (fun m => rm_req m = STORE) metas in
  transfer c = Some t -> transfer_ok t -> Forall (op_fits t) ops -> NoDup (rm_request_id <$> ops) ->
  exists c' t' fs, wait_for_save metas device elapsed c = (c', Ok tt) /\
    length fs = length ops /\ transfer c' = Some t' /\ same_cache t t' /\ transfer_ok t' /\
    sent c' = sent c ++ zip (df_future <$> fs) (store_request c elapsed t <$> ops) /\
    (forall rid, od_get rid (store_futures c') =
      match od_get rid (batch ops fs) with
      | Some f => Some (default [] (od_get rid (store_futures c)) ++ [f])
      | None => od_get rid (store_futures c)
      end).
Proof.
  intros ops Ht Hok Hops Hnd. unfold wait_for_save, submit_transfers. fold ops.
  destruct ops as [|m ops'] eqn:Eops.
  { exists c, t, []. split; [done|]. rewrite app_nil_r. unfold same_cache. by split_and!. }
  rewrite <- Eops in *. destruct (store_loop device elapsed ops c t [] Ht Hok Hops) as
    (c1 & t1 & fs & E & Hlen & _ & Ht1 & Hok1 & Hs1 & Hw1 & Hl1); [done|].
  assert (NoDup (batch ops fs).*1) as Hnd'.
  { unfold batch. rewrite fst_zip; [done|]. rewrite length_fmap. lia. }
  destruct (append_futures (batch ops fs) c1 Hnd') as (c' & E' & Hc' & Hg).
  exists c', t1, fs. split.
  { unfold bind at 1. unfold get. unfold bind at 1. rewrite Ht. rewrite E. exact E'. }
  rewrite Hc'. destruct Hw1 as (_ & _ & Hsf & _). rewrite Hsf in Hg. by split_and!.
Qed.

(** ** Loading *)

Lemma from_host_geometry chunks ids skip t : geometry (from_host chunks ids skip t).1 = geometry t.
Proof.
  assert (forall i blob t0, geometry (from_host_one ids skip i blob t0).1 = geometry t0) as Hone.
  { intros i blob t0. unfold from_host_one. destruct (np_assign _ _); [|done]. by destruct (scatter _ _ _ _ _ _ _). }
  assert (forall l i t0, geometry (from_host_loop ids skip i l t0).1 = geometry t0) as Hloop.
  { induction l as [|b l IH]; intros i t0; [done|]. cbn [from_host_loop]. unfold bind at 1.
    specialize (Hone i b t0). destruct (from_host_one ids skip i b t0) as [t1 [[]|]]; [|done]. by rewrite IH. }
  unfold from_host, get, bind, lift_res, raise. destruct (py_mod _ _) as [r|]; [|done].
  destruct (r =? 0); [|done]. apply Hloop.
Qed.

Lemma is_set_done ev c l :
  (ev < length (events c))%nat -> is_set (set_threads (<[ev := true]> (events c)) l c) ev = true.
Proof. intros Hl. unfold is_set. simpl. by rewrite list_lookup_insert_eq. Qed.

(** C18: loading fills exactly the missing blocks: when the reply carries the
    chunks of an operation, [_finish_load] writes, in every layer, each block of
    the operation after those vLLM already has with the contents the chunks were
    made from, leaves every other block alone, acknowledges with the size received
    and sets the done event. *)
Theorem load_fills_blocks c th elapsed t kvs0 :
  let ids := op_block_ids (lt_op th) in
  let skip := op_skip_first_n_tokens (lt_op th) / cn_block_size c in
  let chunks := chunk_bytes kvs0 <$> groups (Z.to_nat (blocks_per_chunk t)) ids in
  transfer c = Some t -> transfer_ok t -> cn_block_size c <> 0 ->
  futures (client c) !! lt_future th = Some (Some (Ok (AChunks chunks))) ->
  kvs_ok (Z.to_nat (block_nbytes t)) (kv_caches t) ids -> kvs_ok (Z.to_nat (block_nbytes t)) kvs0 ids ->
  length (kv_caches t) = length kvs0 -> Zlen ids mod blocks_per_chunk t = 0 ->
  0 <= skip <= blocks_per_chunk t -> (lt_done th < length (events c))%nat ->
  exists c' t', finish_load th elapsed c = (c', Ok tt) /\ transfer c' = Some t' /\ transfer_ok t' /\
    is_set c' (lt_done th) = true /\
    (sent c').*2 = (sent c).*2 ++
      [RqAck (mkAckPayload (lt_request_id th) "RETRIEVE" (Zlen chunks * chunk_nbytes t) elapsed)] /\
    forall l kv kv0, kv_caches t !! l = Some kv -> kvs0 !! l = Some kv0 ->
      exists kv', kv_caches t' !! l = Some kv' /\ length kv' = length kv /\
        forall b, 0 <= b < Zlen kv ->
          block_at kv' b = if decide (b ∈ drop (Z.to_nat skip) ids) then block_at kv0 b else block_at kv b.
Proof.
  intros ids skip chunks Ht Hok Hbs Hfut Hk H0 Hl Hm Hs Hev.
  destruct (from_host_spec t kvs0 ids skip Hok Hk H0 Hl Hm Hs) as (t' & E & Hok' & Hblocks).
  fold chunks in E. pose proof (from_host_geometry chunks ids skip t) as Hg. rewrite E in Hg.
  injection Hg as _ _ Hcn.
  unfold finish_load, try_res, lift_res, get, on_transfer, submit, modify, bind, future_value.
  rewrite Hfut. cbn [load_chunks]. unfold py_floordiv.
  replace (cn_block_size c =? 0) with false by lia. fold ids skip. rewrite Ht, E. simpl.
  destruct (client_submit (client c)) as [cl uid]. simpl. eexists _, t'. split; [reflexivity|]. simpl.
  split_and!; [done|done| | |exact Hblocks].
  - unfold is_set. simpl. by rewrite list_lookup_insert_eq.
  - by rewrite fmap_app, Hcn.
Qed.

(** What a thread does when no chunks came: an exception of the handler, a
    timeout reply, a reply without chunks. *)
Lemma failed_load_run c th elapsed e :
  (let? a := future_value (client c) (lt_future th) in load_chunks a) = Raise e ->
  finish_load th elapsed c = (set_threads (<[lt_done th := true]> (events c)) (loads c) c, Ok tt).
Proof.
  intros He. unfold finish_load, try_res, lift_res, get, modify, bind.
  destruct (future_value (client c) (lt_future th)) as [a|]; [|done]. simpl in He.
  destruct (load_chunks a); [done|]. done.
Qed.

(** ** Reporting *)

Lemma device_done_frame c c' f :
  client c' = client c -> events c' = events c -> device_done c' f = device_done c f.
Proof.
  intros H1 H2. unfold device_done, df_done, future_done, is_set. by rewrite H1, H2.
Qed.

Definition live (c : Connector) (fs : list DeviceFuture) : list DeviceFuture :=
  filter (fun f => negb (device_done c f)) fs.

Lemma live_frame c c' fs : client c' = client c -> events c' = events c -> live c' fs = live c fs.
Proof.
  intros H1 H2. unfold live. apply list_filter_iff. intros f. by rewrite (device_done_frame c c').
Qed.

Lemma prune_loop xs c :
  NoDup xs.*1 ->
  exists c', for_each xs prune_store c = (c', Ok tt) /\ c' = set_store_futures (store_futures c') c /\
    forall rid, od_get rid (store_futures c') =
      match od_get rid xs with
      | Some fs => match live c fs with [] => None | l => Some l end
      | None => od_get rid (store_futures c)
      end.
Proof.
  revert c. induction xs as [|[r fs] xs IH]; intros c Hnd.
  { exists c. split; [done|]. split; [by destruct c|done]. }
  rewrite fmap_cons in Hnd. apply NoDup_cons in Hnd as [Hr Hnd]. cbn [for_each]. unfold bind at 1, prune_store at 1, modify.
  cbn [fst snd]. change (filter _ fs) with (live c fs). set (c1 := match live c fs with [] => _ | _ => _ end).
  assert (client c1 = client c /\ events c1 = events c /\ c1 = set_store_futures (store_futures c1) c /\
    (forall rid, rid <> r -> od_get rid (store_futures c1) = od_get rid (store_futures c)) /\
    od_get r (store_futures c1) = match live c fs with [] => None | l => Some l end) as (H1 & H2 & H3 & H4 & H5).
  { unfold c1. destruct (live c fs) as [|f l]; cbn; split_and!; try done.
    - intros rid Hne. by apply od_get_pop_ne.
    - apply od_get_pop_eq.
    - intros rid Hne. by apply od_get_set_ne.
    - apply od_get_set_eq. }
  destruct (IH c1 Hnd) as (c' & E & Hc & Hg). exists c'. split; [exact E|].
  split; [rewrite Hc, H3; reflexivity|]. intros rid. rewrite Hg. cbn [od_get].
  case_decide as Hd; [subst rid; rewrite (proj2 (od_get_None r xs) Hr); exact H5|].
  destruct (od_get rid xs); [by rewrite (live_frame c c1)|by apply H4].
Qed.

Lemma pop_loads rids c :
  exists c', for_each rids (fun rid => modify (fun c => set_load_futures (od_pop rid (load_futures c)) c)) c
      = (c', Ok tt) /\ c' = set_load_futures (load_futures c') c /\
    forall rid, od_get rid (load_futures c') = if decide (rid ∈ rids) then None else od_get rid (load_futures c).
Proof.
  revert c. induction rids as [|r rids IH]; intros c.
  { exists c. split; [done|]. split; [by destruct c|]. intros rid. by rewrite decide_False by apply not_elem_of_nil. }
  cbn [for_each]. unfold bind, modify at 1. destruct (IH (set_load_futures (od_pop r (load_futures c)) c)) as (c' & E & Hc & Hg).
  exists c'. split; [exact E|]. split; [rewrite Hc; reflexivity|]. intros rid. rewrite Hg. cbn [load_futures set_load_futures].
  destruct (decide (rid = r)) as [->|Hne].
  - rewrite od_get_pop_eq, (decide_True (P := r ∈ r :: rids)) by left. by case_decide.
  - rewrite od_get_pop_ne by done. destruct (decide (rid ∈ rids)), (decide (rid ∈ r :: rids)); set_solver.
Qed.

Lemma get_finished_spec fin c :
  NoDup (store_futures c).*1 -> NoDup (load_futures c).*1 ->
  exists c' sending recving, get_finished fin c = (c', Ok (sending, recving)) /\
    (forall rid, rid ∈ sending <-> rid ∈ pending_sends c ∪ fin /\ live c (default [] (od_get rid (store_futures c))) = []) /\
    (forall rid, rid ∈ recving <-> exists f, od_get rid (load_futures c) = Some f /\ device_done c f = true) /\
    pending_sends c' = (pending_sends c ∪ fin) ∖ sending /\
    (forall rid, od_get rid (store_futures c') =
      match live c (default [] (od_get rid (store_futures c))) with [] => None | l => Some l end) /\
    (forall rid, od_get rid (load_futures c') = if decide (rid ∈ recving) then None else od_get rid (load_futures c)).
Proof.
  intros Hs Hl. unfold get_finished, get. unfold bind at 1, modify at 1. unfold bind at 1.
  set (c1 := set_pending_sends (pending_sends c ∪ fin) c). unfold bind at 1.
  change (store_futures c1) with (store_futures c).
  destruct (prune_loop (store_futures c) c1 Hs) as (c2 & E2 & Hc2 & Hg2). rewrite E2.
  unfold bind at 1. set (sending := filter (fun rid => od_get rid (store_futures c2) = None) (pending_sends c2)).
  unfold bind at 1, modify at 1. cbv zeta.
  set (recving := list_to_set ((filter (fun p => device_done c2 p.2) (load_futures c2)).*1) : gset string).
  set (c3 := set_pending_sends (pending_sends c2 ∖ sending) c2).
  destruct (pop_loads (elements recving) c3) as (c4 & E4 & Hc4 & Hg4).
  unfold bind at 1. rewrite E4. eexists c4, sending, recving. split; [reflexivity|].
  assert (forall fs, live c1 fs = live c fs) as Hlive by (intros fs; by apply live_frame).
  assert (forall rid, od_get rid (store_futures c2)
    = match live c (default [] (od_get rid (store_futures c))) with [] => None | l => Some l end) as Hst.
  { intros rid. rewrite Hg2. change (store_futures c1) with (store_futures c).
    destruct (od_get rid (store_futures c)) as [fs|]; simpl; [by rewrite Hlive|done]. }
  assert (pending_sends c2 = pending_sends c ∪ fin) as Hp by by rewrite Hc2.
  assert (load_futures c2 = load_futures c) as Hlf by by rewrite Hc2.
  assert (client c2 = client c /\ events c2 = events c) as [Hcl Hev] by by rewrite Hc2.
  split_and!.
  - intros rid. unfold sending. rewrite elem_of_filter, Hst, Hp. destruct (live c _); naive_solver.
  - intros rid. unfold recving. rewrite elem_of_list_to_set, list_elem_of_fmap, Hlf. split.
    + intros ([r f] & -> & [Hd Hin]%list_elem_of_filter). exists f. split; [by apply od_get_NoDup|].
      cbn in Hd. rewrite (device_done_frame c c2) in Hd by done. by apply Is_true_true.
    + intros (f & Hf & Hd). exists (rid, f). split; [done|]. apply list_elem_of_filter. split.
      * cbn. rewrite (device_done_frame c c2) by done. by rewrite Hd.
      * by apply od_get_elem.
  - rewrite Hc4. simpl. by rewrite Hp.
  - intros rid. rewrite Hc4. simpl. apply Hst.
  - intros rid. rewrite Hg4. change (load_futures c3) with (load_futures c2). rewrite Hlf.
    by rewrite (decide_ext _ _ _ _ (elem_of_elements recving rid)).
Qed.


(** C40: a load that failed is reported like one that succeeded: whatever made
    RETRIEVE bring no chunks (a handler error, an empty reply), the thread leaves
    the cache as it was, sends no acknowledgement and sets the done event, and the
    next [get_finished] hands the request's unfilled blocks to vLLM as received. *)
Theorem failed_load_reported i c th elapsed e :
  loads c !! i = Some th -> future_done c (lt_future th) = true ->
  (let? a := future_value (client c) (lt_future th) in load_chunks a) = Raise e ->
  od_get (lt_request_id th) (load_futures c) = Some (mkDeviceFuture (lt_future th) 0 (Some (lt_done th))) ->
  (lt_done th < length (events c))%nat -> NoDup (store_futures c).*1 -> NoDup (load_futures c).*1 ->
  exists c' c'' sending recving, run_load i elapsed c = (c', Ok tt) /\
    transfer c' = transfer c /\ sent c' = sent c /\
    get_finished ∅ c' = (c'', Ok (sending, recving)) /\ lt_request_id th ∈ recving.
Proof.
  intros Hi Hd He Hf Hev Hs Hl. unfold run_load, get. 
  set (c1 := set_threads (events c) (delete i (loads c)) c).
  set (c' := set_threads (<[lt_done th := true]> (events c1)) (loads c1) c1).
  assert (run_load i elapsed c = (c', Ok tt)) as E.
  { unfold run_load, get. unfold bind at 1. rewrite Hi, Hd. unfold bind, modify. fold c1.
    apply (failed_load_run c1 th elapsed e). exact He. }
  destruct (get_finished_spec ∅ c' Hs Hl) as (c'' & sending & recving & E' & _ & H2 & _).
  exists c', c'', sending, recving. split; [exact E|]. split; [done|]. split; [done|]. split; [exact E'|].
  apply H2. eexists. split; [exact Hf|]. unfold device_done, df_done. cbn [df_future df_done_event].
  change (future_done c' (lt_future th)) with (future_done c (lt_future th)). rewrite Hd. cbn.
  by apply (is_set_done (lt_done th) c1).
Qed.

(** ** Witnesses *)

Definition toy_worker : Connector :=
  mkConnector 2 1 "m" 1 7 new_client [] [] [] [] ∅ (Some toy_engine) [] [].
Definition toy_store_meta : ReqMeta := mkReqMeta "r" STORE (mkLoadStoreOp [5; 6] [3; 0] 0 2 0).

Lemma save_ships_blocks_witness :
  exists c' t' fs, wait_for_save [toy_store_meta] 0 (fun _ => f_0) toy_worker = (c', Ok tt) /\
    length fs = 1%nat /\ transfer c' = Some t' /\
    sent c' = zip (df_future <$> fs) [store_request toy_worker (fun _ => f_0) toy_engine toy_store_meta].
Proof.
  destruct (save_ships_blocks [toy_store_meta] 0 (fun _ => f_0) toy_worker toy_engine)
    as (c' & t' & fs & H1 & H2 & H3 & _ & _ & H4 & _).
  - reflexivity.
  - exact toy_engine_ok.
  - constructor; [|constructor]. split; [|reflexivity]. apply toy_kvs_ok. repeat constructor; lia.
  - repeat constructor. set_solver.
  - exists c', t', fs. split; [exact H1|]. split; [exact H2|]. split; [exact H3|exact H4].
Defined.

(** A load whose reply has come: blocks 3 0 1 2, the first already computed. *)
Definition toy_load (r : res answer) : Connector :=
  mkConnector 2 1 "m" 1 7 (mkClient 1 ∅ {[ 0 := Some r ]}) [] [] []
    [("r", mkDeviceFuture 0 0 (Some 0%nat))] ∅ (Some toy_engine) [false]
    [mkLoadThread "r" (mkLoadStoreOp [5; 6; 7; 8] [3; 0; 1; 2] 0 4 1) 0 0].
Definition toy_chunks : list bytes := chunk_bytes toy_kv0 <$> groups 2 [3; 0; 1; 2].

Lemma load_fills_blocks_witness :
  let th := mkLoadThread "r" (mkLoadStoreOp [5; 6; 7; 8] [3; 0; 1; 2] 0 4 1) 0 0 in
  exists c' t', finish_load th f_0 (toy_load (Ok (AChunks toy_chunks))) = (c', Ok tt) /\ transfer c' = Some t' /\
    forall l kv kv0, toy_kv !! l = Some kv -> toy_kv0 !! l = Some kv0 ->
      exists kv', kv_caches t' !! l = Some kv' /\ length kv' = length kv /\
        forall b, 0 <= b < Zlen kv ->
          block_at kv' b = if decide (b ∈ [0; 1; 2]) then block_at kv0 b else block_at kv b.
Proof.
  intros th. destruct (load_fills_blocks (toy_load (Ok (AChunks toy_chunks))) th f_0 toy_engine toy_kv0)
    as (c' & t' & H1 & H2 & _ & _ & _ & H3).
  - reflexivity.
  - exact toy_engine_ok.
  - discriminate.
  - reflexivity.
  - apply toy_kvs_ok. repeat constructor; lia.
  - apply toy_kvs_ok. repeat constructor; lia.
  - reflexivity.
  - reflexivity.
  - split; discriminate.
  - simpl. lia.
  - exists c', t'. split; [exact H1|]. split; [exact H2|exact H3].
Defined.


Lemma failed_load_reported_witness :
  exists c' c'' sending recving, run_load 0 f_0 (toy_load (Raise PicklingError)) = (c', Ok tt) /\
    transfer c' = Some toy_engine /\ get_finished ∅ c' = (c'', Ok (sending, recving)) /\ "r" ∈ recving.
Proof.
  destruct (failed_load_reported 0 (toy_load (Raise PicklingError))
    (mkLoadThread "r" (mkLoadStoreOp [5; 6; 7; 8] [3; 0; 1; 2] 0 4 1) 0 0) f_0 PicklingError)
    as (c' & c'' & s & r & H1 & H2 & _ & H3 & H4).
  - reflexivity.
  - reflexivity.
  - reflexivity.
  - reflexivity.
  - simpl. lia.
  - constructor.
  - repeat constructor. set_solver.
  - exists c', c'', s, r. split; [exact H1|]. split; [exact H2|]. split; [exact H3|exact H4].
Defined.
