(* ===== verification/EndToEnd.v ===== *)
(** The whole path of a cached prefix: one engine computes and stores it,
    another engine's request finds it and loads it into its own blocks. *)
From S2P Require Import Prelude PyFloat Protocol Hasher Memory L1Manager Eviction L1Protocol.
From S2P Require Import L2 Threads Storage Prefetch Server MQ KVFormat Transfer.
Local Open Scope py_scope.
Local Open Scope Z_scope.

(** ** Blocks under other ids *)

(** [kvB] with the block [idsB[j]] replaced by the block [idsA[j]] of [kvA]. *)
Definition move_layer (idsA idsB : list Z) (kvA kvB : list bytes) : list bytes :=
  foldl (fun kv p => <[Z.to_nat p.2 := block_at kvA p.1]> kv) kvB (zip idsA idsB).

Lemma move_layer_length idsA idsB kvA kvB : length (move_layer idsA idsB kvA kvB) = length kvB.
Proof.
  unfold move_layer. generalize (zip idsA idsB). intros ps. revert kvB.
  induction ps as [|p ps IH]; intros kvB; [done|]. simpl. by rewrite IH, length_insert.
Qed.

Lemma block_at_insert kv id x b :
  0 <= id < Zlen kv -> 0 <= b -> block_at (<[Z.to_nat id := x]> kv) b = if decide (b = id) then x else block_at kv b.
Proof.
  intros Hid Hb. unfold block_at, Zlen in *. rewrite !nth_lookup. case_decide as E.
  - subst. by rewrite list_lookup_insert_eq by lia.
  - rewrite list_lookup_insert_ne by lia. done.
Qed.

Lemma move_layer_other idsA idsB kvA kvB b :
  in_range kvB idsB -> 0 <= b -> b ∉ idsB -> block_at (move_layer idsA idsB kvA kvB) b = block_at kvB b.
Proof.
  unfold move_layer. revert idsA kvB. induction idsB as [|i idsB IH]; intros [|a idsA] kvB Hr Hb Hn; try done.
  apply Forall_cons in Hr as [Hi Hr]. apply not_elem_of_cons in Hn as [Hne Hn]. simpl.
  rewrite IH; [|unfold in_range, Zlen in *; by rewrite length_insert|done|done].
  rewrite block_at_insert by done. by rewrite decide_False.
Qed.

Lemma move_layer_blocks idsA idsB kvA kvB :
  in_range kvB idsB -> NoDup idsB -> length idsA = length idsB ->
  block_at (move_layer idsA idsB kvA kvB) <$> idsB = block_at kvA <$> idsA.
Proof.
  unfold move_layer. revert idsA kvB. induction idsB as [|i idsB IH]; intros [|a idsA] kvB Hr Hnd Hl; try done.
  apply Forall_cons in Hr as [Hi Hr]. apply NoDup_cons in Hnd as [Hni Hnd]. injection Hl as Hl.
  assert (in_range (<[Z.to_nat i := block_at kvA a]> kvB) idsB) as Hr'
    by (unfold in_range, Zlen in *; by rewrite length_insert).
  csimpl. f_equal; [|by apply IH].
  fold (move_layer idsA idsB kvA (<[Z.to_nat i := block_at kvA a]> kvB)).
  rewrite move_layer_other by (done || lia). rewrite block_at_insert by (done || lia). by rewrite decide_True.
Qed.

Lemma move_layer_sizes n idsA idsB kvA kvB :
  Forall (fun b : bytes => length b = n) kvB -> Forall (fun b : bytes => length b = n) kvA ->
  in_range kvA idsA -> Forall (fun b : bytes => length b = n) (move_layer idsA idsB kvA kvB).
Proof.
  intros HB HA. unfold move_layer. revert idsB kvB HB.
  induction idsA as [|a idsA IH]; intros [|i idsB] kvB HB Hr; try done.
  apply Forall_cons in Hr as [Ha Hr]. simpl. apply IH; [|done]. apply Forall_insert; [done|].
  pose proof (block_at_length kvA [a] n HA (Forall_cons_2 _ _ _ Ha (Forall_nil_2 _))) as Hb. by inversion Hb.
Qed.

Definition move_blocks (idsA idsB : list Z) (kvsA kvsB : list (list bytes)) : list (list bytes) :=
  zip_with (move_layer idsA idsB) kvsA kvsB.

Lemma group_fmap {X} (f : Z -> X) n ids i : f <$> group n ids i = take n (drop (i * n) (f <$> ids)).
Proof. unfold group. by rewrite fmap_take, fmap_drop. Qed.

Lemma move_blocks_chunk n idsA idsB kvsA kvsB i :
  Forall (fun kv => in_range kv idsB) kvsB -> NoDup idsB -> length idsA = length idsB ->
  length kvsA = length kvsB ->
  chunk_bytes (move_blocks idsA idsB kvsA kvsB) (group n idsB i) = chunk_bytes kvsA (group n idsA i).
Proof.
  intros Hr Hnd Hl. unfold chunk_bytes, move_blocks. revert kvsA. induction Hr as [|kvB kvsB HrB _ IH]; intros [|kvA kvsA] Hk; try done.
  injection Hk as Hk. csimpl. rewrite (IH kvsA Hk). f_equal. unfold layer_bytes.
  by rewrite !group_fmap, move_layer_blocks.
Qed.

Lemma move_blocks_ok n idsA idsB kvsA kvsB :
  kvs_ok n kvsA idsA -> kvs_ok n kvsB idsB -> length kvsA = length kvsB ->
  kvs_ok n (move_blocks idsA idsB kvsA kvsB) idsB.
Proof.
  intros HA HB. revert kvsA HA. induction HB as [|kvB kvsB [Hb Hr] _ IH]; intros [|kvA kvsA] HA Hl; try done;
    [by constructor|]. apply Forall_cons in HA as [[Ha HrA] HA]. injection Hl as Hl.
  constructor; [|by apply IH]. split; [by apply move_layer_sizes|]. unfold in_range, Zlen. by rewrite move_layer_length.
Qed.

(** ** LOOKUP and its resolution, at the server *)

Section server_path.
Context {A : Type} `{!L2Ops A} (blake3 : bytes -> bytes).
Context (C : ChunkKey -> bytes) (ok : ChunkKey -> Prop) `{!L2Laws A C ok}.
Implicit Types (s : Server A).

(** A lookup handled and its job run, with no other job waiting. *)
Lemma lookup_resolves s W H lp nb keys elapsed :
  deployments s !! (lp_model lp, lp_world_size lp) = Some nb ->
  lookup_keys blake3 (chunk_size s) (Some nb) lp = Ok keys ->
  l1_inv C (l1 (sm s)) W H -> Forall l2_inv (l2s (sm s)) -> NoDup keys -> Forall ok keys ->
  (forall k, k ∈ keys -> Zlen (C k) = nb) -> 0 < nb -> nonzero_float elapsed = true -> jobs (sm s) = [] ->
  let n := l1_hits (sm s) keys in
  let m := l2_hits C ok (sm s) keys nb in
  exists s1 s2 g, run (lookup blake3 lp) s = (s1, Ok (RValue (VBool true))) /\
    run (on_sm (prefetch_round elapsed)) s1 = (s2, Ok tt) /\
    chunk_size s2 = chunk_size s /\ instances s2 = instances s /\
    l1_inv C (l1 (sm s2)) W (H ⊎ holds_of (take (n + m) keys)) /\
    held (sm s2) !! lp_request_id lp = Some (take (n + m) keys) /\
    hits (sm s2) !! lp_request_id lp = Some (Some (Z.of_nat n, Z.of_nat m, g)).
Proof.
  intros Hd Hk Hinv Ha Hnd Hok Hsz Hnb Hel Hj n m. set (rid := lp_request_id lp).
  set (x0 := set_hits (<[rid := None]> (hits (sm s))) (sm s)).
  set (x1 := set_jobs [(rid, keys, Some nb)] x0).
  assert (run (lookup blake3 lp) s = (set_sm x1 s, Ok (RValue (VBool true)))) as E1.
  { unfold lookup. erewrite run_get_ok by reflexivity. erewrite run_get_ok by (rewrite Hd; exact Hk).
    erewrite run_on_sm_ok; [reflexivity|]. unfold start_session. erewrite run_atomic_ok by reflexivity.
    rewrite run_atomic. unfold modify. rewrite Hd. fold rid x0. change (jobs x0) with (jobs (sm s)). by rewrite Hj. }
  assert (run (prefetch_round elapsed) x1 = run (prefetch elapsed rid keys (Some nb)) x0) as E2.
  { unfold prefetch_round. erewrite run_atomic_ok by reflexivity. cbv iota. f_equal.
    unfold x0. destruct s as [? [] ? ?]. simpl in *. by subst. }
  destruct (prefetch_spec C ok x0 W H rid keys nb elapsed Hinv Ha Hnd Hok Hsz Hnb Hel)
    as (x2 & g & E3 & _ & _ & _ & Hres).
  change (hits x0 !! rid) with ((<[rid := None]> (hits (sm s))) !! rid) in Hres.
  rewrite lookup_insert_eq in Hres. destruct Hres as (Hinv2 & Hh2 & Hd2 & _).
  exists (set_sm x1 s), (set_sm x2 (set_sm x1 s)), g. split; [exact E1|].
  split; [apply run_on_sm; cbn [sm set_sm]; by rewrite E2|]. split_and!; [done|done|exact Hinv2| |].
  - cbn. by rewrite Hd2, lookup_insert_eq.
  - cbn. by rewrite Hh2, lookup_insert_eq.
Qed.

(** A chunk stored and not yet evicted is found: with every key ready, the hits
    are all of them. *)
Lemma all_ready_hits s keys :
  (forall k, k ∈ keys -> exists e, entries (l1 (sm s)) !! k = Some e /\ write_locked e = false) ->
  l1_hits (sm s) keys = length keys.
Proof.
  intros Hr. apply prefix_count_full, Forall_forall. intros k Hk. apply key_readable_true.
  destruct (Hr k Hk) as (e & He & Hw). exists e. split; [done|]. unfold readable. by rewrite Hw.
Qed.

Lemma all_hit_l2 s keys nb : l1_hits (sm s) keys = length keys -> l2_hits C ok (sm s) keys nb = 0%nat.
Proof.
  intros Hn. unfold l2_hits. rewrite Hn, (drop_ge keys) by lia. rewrite take_nil.
  pose proof (reservable_le (l1 (sm s)) [] nb) as Hle. simpl in Hle. lia.
Qed.

(** A STORE of chunks the server does not have makes all of them ready. *)
Lemma stored_ready s W H p inst keys :
  instances s !! tp_instance_id p = Some inst ->
  op_keys blake3 (chunk_size s) (tp_op p) inst = Ok keys -> NoDup keys -> 0 < ei_chunk_nbytes inst ->
  (forall k, k ∈ keys -> entries (l1 (sm s)) !! k = None) ->
  Zlen keys <= room (allocator (l1 (sm s))) (ei_chunk_nbytes inst) ->
  C <$> keys = tp_chunks p -> (forall k, k ∈ keys -> Zlen (C k) = ei_chunk_nbytes inst) ->
  l1_inv C (l1 (sm s)) W H ->
  exists s1, run (store blake3 p) s = (s1, Ok (RValue (VBool true))) /\ only_l1 s s1 /\
    l1_inv C (l1 (sm s1)) W H /\
    forall k, k ∈ keys -> exists e, entries (l1 (sm s1)) !! k = Some e /\ write_locked e = false.
Proof.
  intros Hi Hk Hnd Hnb Hnew Hroom Hc Hsz Hinv.
  assert (missing s keys = keys) as Hm by by apply list_filter_all.
  assert (blobs_ok C (ei_chunk_nbytes inst) keys (tp_chunks p) 0) as Hb.
  { intros i k blob Hik Hblob. rewrite <- Hc in Hblob. simpl in Hblob.
    rewrite list_lookup_fmap, Hik in Hblob. injection Hblob as <-. split; [done|].
    by eapply Hsz, list_elem_of_lookup_2. }
  destruct (store_spec blake3 C s W H p inst keys Hi Hk Hnd Hnb Hb) as (s1 & E & Ho & Hinv1 & _ & Hr);
    [by rewrite <- Hc, length_fmap|done|by rewrite Hm|].
  exists s1. split_and!; [done|done|done|]. intros k Hkk. rewrite Hm in Hr.
  destruct (Hr k Hkk) as (e & He & Hwl & _). by exists e.
Qed.

Context (elapsed : float).

(** The two engines and their operations: [tA] computed the blocks [idsA] that
    [pA] stores, [tB] wants them in its blocks [idsB]. *)
Record exchange (tA tB : KVTransfer) (idsA idsB : list Z) : Prop := {
  ex_A : transfer_ok tA;
  ex_B : transfer_ok tB;
  ex_layers : length (kv_caches tA) = length (kv_caches tB);
  ex_bpc : blocks_per_chunk tA = blocks_per_chunk tB;
  ex_bn : block_nbytes tA = block_nbytes tB;
  ex_idsA : kvs_ok (Z.to_nat (block_nbytes tB)) (kv_caches tA) idsA;
  ex_idsB : kvs_ok (Z.to_nat (block_nbytes tB)) (kv_caches tB) idsB;
  ex_len : length idsA = length idsB;
  ex_whole : Zlen idsB mod blocks_per_chunk tB = 0;
  ex_nodup : NoDup idsB
}.

(** Engine B writes engine A's chunks into its own blocks. *)
Lemma exchange_from_host tA tB idsA idsB skip :
  exchange tA tB idsA idsB -> 0 <= skip <= blocks_per_chunk tB ->
  exists tB', from_host (chunk_bytes (kv_caches tA) <$> groups (Z.to_nat (blocks_per_chunk tA)) idsA) idsB skip tB
      = (tB', Ok tt) /\
    forall l kvA kvB, kv_caches tA !! l = Some kvA -> kv_caches tB !! l = Some kvB ->
      exists kvB', kv_caches tB' !! l = Some kvB' /\ length kvB' = length kvB /\
        (forall j a b, idsA !! j = Some a -> idsB !! j = Some b -> (Z.to_nat skip <= j)%nat ->
           block_at kvB' b = block_at kvA a) /\
        (forall b, 0 <= b < Zlen kvB -> b ∉ drop (Z.to_nat skip) idsB -> block_at kvB' b = block_at kvB b).
Proof.
  intros [HA HB Hlay Hbpc Hbn HkA HkB Hlen Hwhole Hnd] Hskip.
  set (kvs0 := move_blocks idsA idsB (kv_caches tA) (kv_caches tB)).
  assert (Forall (fun kv => in_range kv idsB) (kv_caches tB)) as Hr
    by (eapply Forall_impl; [exact HkB|]; by intros kv [_ ?]).
  assert (chunk_bytes (kv_caches tA) <$> groups (Z.to_nat (blocks_per_chunk tA)) idsA
    = chunk_bytes kvs0 <$> groups (Z.to_nat (blocks_per_chunk tB)) idsB) as ->.
  { unfold groups. rewrite <- !list_fmap_compose, Hbpc, Hlen. apply list_fmap_ext. intros i j _. simpl.
    symmetry. by apply move_blocks_chunk. }
  destruct (from_host_spec tB kvs0 idsB skip HB HkB) as (tB' & E & _ & Hblocks);
    [by apply move_blocks_ok|unfold kvs0, move_blocks; rewrite length_zip_with; lia|done|done|].
  exists tB'. split; [exact E|]. intros l kvA kvB HlA HlB.
  assert (kvs0 !! l = Some (move_layer idsA idsB kvA kvB)) as Hl0
    by (unfold kvs0, move_blocks; by rewrite lookup_zip_with, HlA, HlB).
  destruct (Hblocks l kvB _ HlB Hl0) as (kvB' & Hl' & Hlen' & Hb). exists kvB'. split; [done|]. split; [done|].
  rewrite Forall_forall in Hr. pose proof (Hr kvB (list_elem_of_lookup_2 _ _ _ HlB)) as HrB. split.
  - intros j a b Hja Hjb Hj.
    assert (0 <= b < Zlen kvB) as Hbr by (unfold in_range in HrB; rewrite Forall_forall in HrB; by eapply HrB, list_elem_of_lookup_2).
    assert (b ∈ drop (Z.to_nat skip) idsB) as Hin.
    { apply list_elem_of_lookup. exists (j - Z.to_nat skip)%nat. rewrite lookup_drop. by replace (_ + _)%nat with j by lia. }
    rewrite Hb, decide_True by done.
    pose proof (move_layer_blocks idsA idsB kvA kvB HrB Hnd Hlen) as Hm.
    apply (f_equal (fun l => l !! j)) in Hm. rewrite !list_lookup_fmap, Hja, Hjb in Hm. by injection Hm.
  - intros b Hbr Hn. by rewrite Hb, decide_False.
Qed.

(** The requests name the same chunks [keys], none of which the server has,
    and the contents of a key are the bytes engine A computed for it. *)
Record request_path (s : Server A) W H (tA : KVTransfer) (idsA : list Z) (pA pB : TransferPayload)
    (lp : LookupPayload) (instA instB : EngineInstance) (keys : list ChunkKey) : Prop := {
  rp_A : instances s !! tp_instance_id pA = Some instA;
  rp_B : instances s !! tp_instance_id pB = Some instB;
  rp_keysA : op_keys blake3 (chunk_size s) (tp_op pA) instA = Ok keys;
  rp_keysB : op_keys blake3 (chunk_size s) (tp_op pB) instB = Ok keys;
  rp_nbytes : ei_chunk_nbytes instA = chunk_nbytes tA;
  rp_pos : 0 < chunk_nbytes tA;
  rp_world : ei_world_size instB <> 0;
  rp_deployed : deployments s !! (lp_model lp, lp_world_size lp) = Some (chunk_nbytes tA);
  rp_lookup : lookup_keys blake3 (chunk_size s) (Some (chunk_nbytes tA)) lp = Ok keys;
  rp_one_rank : lp_world_size lp = 1;
  rp_rid : lp_request_id lp = tp_request_id pB;
  rp_keys : keys <> [] /\ NoDup keys /\ Forall ok keys;
  rp_new : forall k, k ∈ keys -> entries (l1 (sm s)) !! k = None;
  rp_room : Zlen keys <= room (allocator (l1 (sm s))) (chunk_nbytes tA);
  rp_chunks : tp_chunks pA = chunk_bytes (kv_caches tA) <$> groups (Z.to_nat (blocks_per_chunk tA)) idsA;
  rp_contents : C <$> keys = tp_chunks pA;
  rp_sizes : forall k, k ∈ keys -> Zlen (C k) = chunk_nbytes tA;
  rp_inv : l1_inv C (l1 (sm s)) W H;
  rp_l2 : Forall l2_inv (l2s (sm s));
  rp_idle : jobs (sm s) = []
}.

End server_path.

(** ** Witness: two engines, one chunk of two blocks *)

#[local] Existing Instance mock_laws.

Definition toy_source : KVTransfer :=
  mkKVTransfer 0 toy_kv0 2 2 8 (new_pipeline 8) (new_pipeline 8).
Definition toy_content (_ : ChunkKey) : bytes := chunk_bytes toy_kv0 [0; 1].
Definition toy_inst8 : EngineInstance := mkEngineInstance 0 "m" 1 1 8.
Definition toy_server8 : Server Mock :=
  mkServer 2 (new_stack (replicate 16 Byte.x00) []) (<[("m"%string, 1) := 8]> ∅)
    (<[7 := toy_inst8]> (<[9 := toy_inst8]> ∅)).
Definition toy_span (blocks : list Z) : LoadStoreOp := mkLoadStoreOp [1; 2] blocks 0 2 0.
Definition toy_save : TransferPayload :=
  mkTransferPayload "q" 7 (toy_span [0; 1]) [chunk_bytes toy_kv0 [0; 1]] f_0 8.
Definition toy_fetch : TransferPayload := mkTransferPayload "r" 9 (toy_span [3; 2]) [] f_0 0.
Definition toy_ask : LookupPayload := mkLookupPayload "r" [1; 2] "m" 1.

Lemma toy_exchange : exchange toy_source toy_engine [0; 1] [3; 2].
Proof.
  split; try reflexivity.
  - assert (pipe_ok 8 (new_pipeline 8)) by (split_and!; repeat constructor).
    split; [done|done|done|reflexivity|done|done|repeat constructor].
  - exact toy_engine_ok.
  - apply toy_kvs_ok. repeat constructor; lia.
  - apply toy_kvs_ok. repeat constructor; lia.
  - apply (bool_decide_unpack _). vm_compute. exact I.
Qed.

Lemma toy_request_path :
  request_path last_byte toy_content any_chunk toy_server8 ∅ ∅ toy_source [0; 1] toy_save toy_fetch toy_ask
    toy_inst8 toy_inst8 [kb].
Proof.
  split; try (vm_compute; reflexivity).
  - done.
  - split_and!; [done|apply NoDup_singleton|by repeat constructor].
  - vm_compute. discriminate.
  - apply (new_stack_inv toy_content (replicate 16 Byte.x00) (@nil Mock)).
  - constructor.
Qed.

