(* ===== verification/Evictor.v ===== *)
(** The eviction thread (l1/eviction.py) among other threads.

    The controller takes the L1 lock to read the usage, then the policy's lock
    for the scan; [is_evictable] reads an entry without the L1 lock, so each
    key of the scan may be looked at in a different state of L1.  Only
    [delete] takes the L1 lock again, and looks at every lock a second time. *)
From S2P Require Import Prelude PyFloat Protocol Memory L1Manager Eviction L1Protocol.
From S2P Require Import L2 Threads Storage.
Local Open Scope py_scope.
Local Open Scope Z_scope.

Section evictor.
Context {A : Type}.

(** The loop of [get_victims] over the order as it is when the policy's lock
    is taken; other threads cannot change it before the scan is over. *)
Fixpoint scan_victims (target : Z) (victims order : list ChunkKey) : prog (Stack A) (list ChunkKey) :=
  match order with
  | [] => pret victims
  | key :: order' =>
      if target <=? Zlen victims then pret victims
      else
        let! eligible := on_l1 (fun x => (x, Ok (is_evictable x key))) in
        scan_victims target (if eligible : bool then victims ++ [key] else victims) order'
  end.

(** One iteration of [run] after the sleep. *)
Definition evict_thread : prog (Stack A) unit :=
  let! usage := on_l1 l1_usage in
  let! below := plift (below_watermark usage) in
  if below : bool then pret tt
  else
    let! keys := on_l1 (fun x => (x, Ok (order (observers x)))) in
    let! target := plift (victim_target (Zlen keys) EVICTION_RATIO) in
    let! victims := scan_victims target [] keys in
    let! _ := on_l1 (delete_keys victims false) in
    pret tt.

Lemma scan_victims_run target victims keys (s : Stack A) :
  run (scan_victims target victims keys) s = (s, Ok (pick_victims target (is_evictable (l1 s)) victims keys)).
Proof.
  revert victims. induction keys as [|key keys IH]; intros victims; [done|]. cbn [scan_victims pick_victims].
  destruct (target <=? Zlen victims); [done|].
  erewrite run_on_l1_ok by reflexivity. rewrite set_l1_id. apply IH.
Qed.

(** Run alone, the thread is the round of [Eviction]. *)
Lemma evict_thread_alone (s : Stack A) :
  run evict_thread s =
    let (x, r) := evict_round order (l1 s) in (set_l1 x s, res_bind r (fun _ => Ok tt)).
Proof.
  unfold evict_thread. erewrite run_on_l1_ok by reflexivity. rewrite set_l1_id.
  unfold evict_round, l1_usage, bind, lift_res, plift, get. cbn [fst snd].
  destruct (below_watermark _) as [[]|e]; cbn [pbind res_bind]; [by rewrite <- set_l1_id at 1| |by rewrite <- set_l1_id at 1].
  erewrite run_on_l1_ok by reflexivity. rewrite set_l1_id. unfold get_victims.
  destruct (victim_target _ _) as [t|e]; cbn [pbind res_bind]; [|by rewrite <- set_l1_id at 1].
  erewrite run_bind_ok by apply scan_victims_run.
  destruct (delete_keys _ false (l1 s)) as [x [n|e]] eqn:E.
  - by erewrite run_on_l1_ok by exact E.
  - erewrite run_bind_raise; [reflexivity|]. by apply run_on_l1.
Qed.
End evictor.
