(* ===== verification/Rely.v ===== *)
(** What one thread achieves while others run, when they respect something of
    it.

    [under J R S p w Q]: started in [w], the thread [p] ends with [Q], whatever
    steps of [R] the others take between its own; [J] holds at each of its steps,
    and these are of [S].  [run_under]: among threads that are [safe] twice over,
    for what they own and for what they respect of [p], this is what [p] does. *)
From S2P Require Import Prelude Threads Resources.
Local Open Scope py_scope.

Section rely.
Context {W : Type} (J : W -> Prop) (R S : W -> W -> Prop).

Fixpoint under {B} (p : prog W B) (w : W) (Q : res B -> W -> Prop) : Prop :=
  match p with
  | Done r => Q r w
  | Step f k => forall w1, rtc R w w1 -> J w1 -> S w1 (f w1) -> under (k w1) (f w1) Q
  end.

Lemma under_mono {B} (p : prog W B) w (Q Q' : res B -> W -> Prop) :
  under p w Q -> (forall r w', Q r w' -> Q' r w') -> under p w Q'.
Proof. intros Hu HQ. revert w Hu. induction p as [r|f k IH]; intros w Hu; simpl in *; eauto. Qed.

Lemma under_bind {B D} (p : prog W B) (q : B -> prog W D) w Q :
  under p w (fun r w' => match r with Ok b => under (q b) w' Q | Raise e => Q (Raise e) w' end) ->
  under (pbind p q) w Q.
Proof. revert w. induction p as [[b|e]|f k IH]; intros w Hu; simpl in *; auto. Qed.

Lemma under_try {B} (p : prog W B) (h : exn -> prog W B) w Q :
  under p w (fun r w' => match r with Ok b => Q (Ok b) w' | Raise e => under (h e) w' Q end) ->
  under (ptry p h) w Q.
Proof. revert w. induction p as [[b|e]|f k IH]; intros w Hu; simpl in *; auto. Qed.

Lemma under_atomic {B} (m : M W B) w (Q : res B -> W -> Prop) :
  (forall w1, rtc R w w1 -> J w1 -> exists w2 r, m w1 = (w2, r) /\ Q r w2) -> under (atomic m) w Q.
Proof. intros H w1 HR HJ _. destruct (H w1 HR HJ) as (w2 & r & E & HQ). simpl. by rewrite E. Qed.

Lemma rtc_stable (R' : W -> W -> Prop) (F : W -> Prop) w w' :
  (forall w w', R' w w' -> F w -> F w') -> rtc R' w w' -> F w -> F w'.
Proof. intros HF. induction 1 as [|w1 w2 w3 Hs _ IH]; [done|]. intros H. by eapply IH, HF. Qed.

(** What neither the others nor the thread itself undo. *)
Lemma under_always {B} (F : W -> Prop) (p : prog W B) w Q :
  (forall w w', R w w' -> F w -> F w') -> (forall w w', S w w' -> F w -> F w') ->
  F w -> under p w Q -> under p w (fun r w' => F w' /\ Q r w').
Proof.
  intros HR HS. revert w. induction p as [r|f k IH]; intros w HF Hu; simpl in *; [by split|].
  intros w1 Hw1 HJ1 HS1. apply IH; [|by apply Hu]. eapply HS; [exact HS1|]. by eapply (rtc_stable R).
Qed.

(** What every step of the thread keeps, whenever it is taken. *)
Lemma under_safe {B} (F : W -> Prop) (Inv : W -> nat -> Prop) (G : W -> W -> Prop) (p : prog W B) c w Q :
  (forall w c, J w -> Inv w c) -> (forall w w', R w w' -> F w -> F w') -> (forall w w', G w w' -> F w -> F w') ->
  safe Inv G p c Q -> F w -> under p w (fun _ w' => F w').
Proof.
  intros HJ HR HG. revert c w. induction p as [r|f k IH]; intros c w Hs HF; simpl in *; [done|].
  intros w1 Hw1 HJ1 _. destruct (Hs w1 0%nat I I I) as (c' & _ & _ & _ & HG1 & Hk); [by apply HJ|].
  eapply IH; [exact Hk|]. eapply HG; [exact HG1|]. by eapply (rtc_stable R).
Qed.
End rely.

(** A thread over a part of the world; [F] is of the rest. *)
Lemma under_zoom {W T B} (JW : W -> Prop) (RW SW : W -> W -> Prop) (JT : T -> Prop) (RT ST : T -> T -> Prop)
    (F : W -> Prop) (g : W -> T) (put : T -> W -> W) (p : prog T B) w Q :
  (forall w, JW w -> JT (g w)) -> (forall w w', RW w w' -> RT (g w) (g w')) -> (forall w w', SW w w' -> ST (g w) (g w')) ->
  (forall w w', RW w w' -> F w -> F w') -> (forall s w, F w -> F (put s w)) ->
  (forall s w, g (put s w) = s) ->
  F w -> under JT RT ST p (g w) Q -> under JW RW SW (pzoom g put p) w (fun r w' => F w' /\ Q r (g w')).
Proof.
  intros HJ HR HS HF1 HF2 Hg. revert w. induction p as [r|f k IH]; intros w HF Hu; simpl in *; [by split|].
  intros w1 Hw1 HJ1 HS1. apply IH.
  - apply HF2. by eapply (rtc_stable RW).
  - rewrite Hg. apply Hu; [|by apply HJ|apply HS in HS1; by rewrite Hg in HS1]. clear - Hw1 HR.
    induction Hw1 as [|w1 w2 w3 Hs _ IHw]; [constructor|]. econstructor; [by apply HR|done].
Qed.

(** Less may be asked of the others, and of the thread's own steps. *)
Lemma under_sub {W B} (J J' : W -> Prop) (R R' S S' : W -> W -> Prop) (p : prog W B) w Q :
  (forall w, J w -> J' w) -> (forall w w', R w w' -> R' w w') -> (forall w w', S w w' -> S' w w') ->
  under J' R' S' p w Q -> under J R S p w Q.
Proof.
  intros HJ HR HS. revert w. induction p as [r|f k IH]; intros w Hu; simpl in *; [done|].
  intros w1 Hw1 HJ1 HS1. apply IH, Hu; [|by apply HJ|by apply HS]. clear - Hw1 HR.
  induction Hw1 as [|w1 w2 w3 Hs _ IHw]; [constructor|]. econstructor; [by apply HR|done].
Qed.

(** What a thread may rely on of the others' steps. *)
Definition relied {O W} (Inv : W -> O -> Prop) (G E : W -> W -> Prop) (w w' : W) : Prop :=
  G w w' /\ E w w' /\ exists o, Inv w' o.

Section runs.
Context {O1 O2 : Type} `{Resource O1} `{Resource O2} {W : Type}.
Context (Inv1 : W -> O1 -> Prop) (Inv2 : W -> O2 -> Prop) (G F E : W -> W -> Prop) (i : nat).
Context (Inv1_proper : forall w a b, a ≡ b -> Inv1 w a -> Inv1 w b) (Inv2_proper : forall w a b, a ≡ b -> Inv2 w a -> Inv2 w b).

Definition both_hold (w : W) : Prop := (exists o, Inv1 w o) /\ exists o, Inv2 w o.
Definition both_relied (w w' : W) : Prop := relied Inv1 G E w w' /\ exists o, Inv2 w' o.

Definition own_step (w w' : W) : Prop := G w w' /\ F w w'.

(** All threads keep [F], and all but [i] respect [E]. *)
Definition respecting (j : nat) (w w' : W) : Prop := F w w' /\ (j <> i -> E w w').

Lemma run_under Q1 Q2 Q t c c' :
  (exists os, threads_ok Inv1 (fun _ => G) Q1 c os) -> (exists os, threads_ok Inv2 respecting Q2 c os) ->
  c.2 !! i = Some t -> under both_hold both_relied own_step t c.1 Q -> tsteps c c' ->
  exists t' w0, c'.2 !! i = Some t' /\ under both_hold both_relied own_step t' w0 Q /\ rtc both_relied w0 c'.1.
Proof using Inv1_proper Inv2_proper.
  intros Hs1 Hs2 Ht Hu Hrun. set (here := fun c : W * list (thread W) => (exists os, threads_ok Inv1 (fun _ => G) Q1 c os) /\
    (exists os, threads_ok Inv2 respecting Q2 c os) /\
    exists t' w0, c.2 !! i = Some t' /\ under both_hold both_relied own_step t' w0 Q /\ rtc both_relied w0 c.1).
  enough (here c') as [_ [_ Hc']] by exact Hc'.
  assert (here c) as Hc by (split_and!; [done|done|by exists t, c.1]).
  clear Hs1 Hs2 Ht Hu. induction Hrun as [c|c1 c2 c3 [j Hs]%tstep_step_by _ IH]; [exact Hc|]. apply IH. clear IH.
  destruct Hc as ([os1 Hok1] & [os2 Hok2] & t' & w0 & Ht & Hu & Hr).
  destruct (threads_step Inv1 (fun _ => G) Inv1_proper Q1 j c1 c2 os1 Hs Hok1) as (HG & os1' & Hok1').
  destruct (threads_step Inv2 respecting Inv2_proper Q2 j c1 c2 os2 Hs Hok2) as (HE & os2' & Hok2').
  split_and!; [by exists os1'|by exists os2'|].
  assert (forall os1 os2 c, threads_ok Inv1 (fun _ => G) Q1 c os1 -> threads_ok Inv2 respecting Q2 c os2 -> both_hold c.1) as HJ.
  { intros ? ? ? (_ & _ & _ & K1 & _) (_ & _ & _ & K2 & _). split; eauto. }
  destruct (decide (j = i)) as [->|Hne].
  - destruct Hs as (f & k & Hj & ->). pose proof (eq_trans (eq_sym Ht) Hj) as Heq. injection Heq as ->.
    exists (k c1.1), (f c1.1). split_and!; simpl.
    + apply list_lookup_insert_eq. by eapply lookup_lt_Some.
    + apply Hu; [exact Hr|by eapply HJ|]. split; [exact HG|apply HE].
    + constructor.
  - exists t', w0. destruct (HJ _ _ _ Hok1' Hok2') as [K1 K2]. split_and!; [|done|].
    + destruct Hs as (f & k & _ & ->). simpl. by rewrite list_lookup_insert_ne.
    + eapply rtc_r; [exact Hr|]. split; [|exact K2]. split_and!; [exact HG|by apply HE|exact K1].
Qed.
End runs.
