(* ===== verification/Interleaving.v ===== *)
(** The threads of the server under arbitrary interleaving: request handlers,
    the prefetcher, write-back and eviction.

    [stack_inv] is what holds of the storage stack between any two critical
    sections: the locks in force are those the running threads own, plus the
    holds of the session table and what may be left over ([Leftover]).  Every
    thread of the program is shown to keep it on its own ([safe]);
    [Resources.safe_threads] puts them together. *)
From S2P Require Import Prelude PyFloat Protocol Memory L1Manager Eviction L1Protocol.
From S2P Require Import L2 Threads Storage StoreController Prefetch Evictor Resources Ownership.
Local Open Scope py_scope.
Local Open Scope Z_scope.

(** ** The holds of the session table *)

Definition table_holds (m : gmap string (list ChunkKey)) : hold_table :=
  map_fold (fun _ h acc => holds_of h ⊎ acc) ∅ m.

Lemma table_holds_insert m rid h :
  m !! rid = None -> table_holds (<[rid := h]> m) = holds_of h ⊎ table_holds m.
Proof.
  intros Hn. unfold table_holds. rewrite map_fold_insert_L; [done| |done].
  intros j1 j2 z1 z2 y _ _ _. multiset_solver.
Qed.

Lemma table_holds_delete m rid h :
  m !! rid = Some h -> table_holds m = holds_of h ⊎ table_holds (delete rid m).
Proof.
  intros Hr. rewrite <- (table_holds_insert (delete rid m) rid h) by apply lookup_delete_eq. by rewrite insert_delete_id.
Qed.

(** Overwriting a session's holds. *)
Lemma table_holds_set m rid h :
  table_holds (<[rid := h]> m) ⊎ holds_of (default [] (m !! rid)) = holds_of h ⊎ table_holds m.
Proof.
  destruct (m !! rid) as [h0|] eqn:E; simpl.
  - rewrite <- insert_delete_eq, table_holds_insert by apply lookup_delete_eq.
    rewrite (table_holds_delete m rid h0 E). multiset_solver.
  - rewrite table_holds_insert by done. change (holds_of []) with (∅ : hold_table). multiset_solver.
Qed.

(** ** The listeners' state *)

Section listeners.
Context (ok : ChunkKey -> Prop).
Implicit Types (x : L1 lref obs).

(** Batches for write-back name storable chunks once, the recency order has no
    repetition. *)
Definition obs_ok (o : obs) : Prop :=
  Forall (fun ks : list ChunkKey => NoDup ks /\ Forall ok ks) (pending o) /\ NoDup (order o).

Lemma obs_notified ev keys x :
  (ev = on_write_finished -> NoDup keys /\ Forall ok keys) -> obs_ok (observers x) -> obs_ok (notified ev keys x).
Proof.
  intros Hev. unfold notified. generalize (observers x). induction (listeners x) as [|r l IH]; intros o [Hp Ho]; [done|].
  simpl. apply IH. destruct r; simpl; (split; simpl; [|try done]); try done; [|by apply NoDup_lru_dispatch].
  destruct ev; simpl; try done. apply Forall_app. split; [done|]. constructor; [by apply Hev|constructor].
Qed.

Lemma obs_announced touched removed x : obs_ok (observers x) -> obs_ok (announced touched removed x).
Proof.
  intros Ho. unfold announced, notify_nonempty.
  destruct removed, touched; simpl; try done; repeat (apply obs_notified; [done|]; simpl; try done).
Qed.
End listeners.

(** ** The invariant *)

(** What holds may be left over, in the table of no session and of no thread:
    sessions that ended, or were looked up again, while a prefetch was under way
    leave some.  No matter which, unless a file says otherwise. *)
Class Leftover := leftover : hold_table -> Prop.

#[export] Instance anything_left : Leftover | 100 := fun _ => True.

Definition none_left : Leftover := fun rest => rest = ∅.

Class AnyLeftover (left : Leftover) := any_leftover rest : leftover rest.

#[export] Instance anything_left_any : AnyLeftover anything_left.
Proof. done. Qed.

(** *** The two halves of a prefetch *)

(** What a prefetch does up to its resolution. *)
Definition prefetch_hits {A} `{!L2Ops A} (elapsed : float) (keys : list ChunkKey) (nb : option Z)
    : prog (Stack A) (list ChunkKey * list ChunkKey * float) :=
  let! n := on_l1 (reserve_read_prefix keys) in
  match nb with
  | None => pret (take n keys, [], f_0)
  | Some nb =>
      let! hs := lookup_l2s (drop n keys) in
      let! lo := reserve_load (drop n keys) (max_default hs) nb in
      let! m := load_from_l2s lo.1 lo.2 hs in
      let! _ := on_l1 (finish_write_and_reserve_read (take m lo.1)) in
      let! _ := on_l1 (delete_keys (drop m lo.1) true) in
      let! g := plift (load_gbps m nb elapsed) in
      pret (take n keys, take m lo.1, g)
  end.

Lemma safe_prefetch_hits {A O} `{!L2Ops A} `{Resource O} (Inv : Stack A -> O -> Prop) G elapsed rid keys nb o Q :
  safe Inv G (prefetch_hits elapsed keys nb) o
    (fun r o' => match r with Ok h => safe Inv G (resolve rid h.1.1 h.1.2 h.2) o' Q | Raise e => Q (Raise e) o' end) ->
  safe Inv G (prefetch elapsed rid keys nb) o Q.
Proof.
  assert (forall B D D' (p : prog (Stack A) B) (q : B -> prog (Stack A) D) (q' : B -> prog (Stack A) D') o
      (Q1 : res D -> O -> Prop) (Q2 : res D' -> O -> Prop),
    (forall b o', safe Inv G (q b) o' Q1 -> safe Inv G (q' b) o' Q2) -> (forall e o', Q1 (Raise e) o' -> Q2 (Raise e) o') ->
    safe Inv G (pbind p q) o Q1 -> safe Inv G (pbind p q') o Q2) as go.
  { intros * Hq He Hp%safe_bind_inv. apply safe_bind. eapply safe_mono; [exact Hp|]. intros [b|e] o'; [apply Hq|apply He]. }
  unfold prefetch, prefetch_hits. apply go; [|done]. intros n o1. destruct nb as [nb|]; [|done].
  do 6 (apply go; [|done]; intros ? ?). done.
Qed.

Section stack_inv.
Context {A : Type} (C : ChunkKey -> bytes) (ok : ChunkKey -> Prop) `{!L2Ops A} `{!L2Laws A C ok} {left : Leftover}.
Context (adapters : nat).
Implicit Types (s : Stack A) (x : L1 lref obs) (o oF : own).

(** A lookup job: distinct keys of chunks of the announced size. *)
Definition job_ok (j : job) : Prop :=
  let '(_, keys, nb) := j in
  NoDup keys /\ Forall ok keys /\
  match nb with None => True | Some n => 0 < n /\ forall k, k ∈ keys -> Zlen (C k) = n end.

Definition held_own (m : gmap string (list ChunkKey)) (rest : hold_table) : own :=
  mkOwn ∅ [] (table_holds m ⊎ rest) [].

(** The locks in force are those of the threads, the table's, and the leftover. *)
Record stack_inv s o : Prop := mkStackInv {
  si_l1 : exists rest, leftover rest /\ l1_owned C (l1 s) (o ⊛ held_own (held s) rest);
  si_held : map_Forall (fun _ h => NoDup h) (held s);
  si_l2 : Forall l2_inv (l2s s);
  si_len : length (l2s s) = adapters;
  si_jobs : Forall job_ok (jobs s);
  si_obs : obs_ok ok (observers (l1 s))
}.

Lemma stack_inv_proper s a b : a ≡ b -> stack_inv s a -> stack_inv s b.
Proof.
  intros E [[rest [HR Hl]] H1 H2 H3 H4 H5]. split; try done. exists rest. split; [done|].
  eapply l1_owned_proper; [|exact Hl]. by rewrite E.
Qed.

Lemma held_own_ok m rest : own_ok (held_own m rest).
Proof. split; intros ? H; by apply elem_of_nil in H. Qed.

Lemma held_own_apart o m rest : own_apart o (held_own m rest).
Proof. apply map_disjoint_empty_r. Qed.

(** What every step of every thread respects: no chunk moves within the pool. *)
Definition slices_stay s s' : Prop := same_slices (l1 s) (l1 s').

Lemma stays_same s s' : l1 s' = l1 s -> slices_stay s s'.
Proof. intros E k e e' H1 H2. rewrite E in H2. congruence. Qed.

(** A call of the manager, with the rest of the world as the frame. *)
Lemma safe_l1 {B} (m : M (L1 lref obs) B) o Q :
  (forall x oF, own_ok o -> own_ok oF -> own_apart o oF -> l1_owned C x (o ⊛ oF) -> obs_ok ok (observers x) ->
     exists x' r o', m x = (x', r) /\ own_ok o' /\ own_apart o' oF /\ l1_to C x x' (o' ⊛ oF) /\
       obs_ok ok (observers x') /\ Q r o') ->
  safe stack_inv slices_stay (on_l1 m) o Q.
Proof.
  intros Hm. apply safe_atomic. intros s oF Hoo Hok Hap [[rest [HR Hl]] H1 H2 H3 H4 H5].
  destruct (Hm (l1 s) (oF ⊛ held_own (held s) rest)) as (x' & r & o' & E & Ho' & Hap' & [Hl' Hst] & Hp' & HQ); [done| | | |done|].
  - apply own_ok_add; [done|apply held_own_ok].
  - apply own_apart_add. split; [done|apply held_own_apart].
  - eapply l1_owned_proper; [|exact Hl]. by rewrite own_add_assoc.
  - exists (set_l1 x' s), r, o'. unfold zoom. rewrite E. apply own_apart_add in Hap' as [Hap' _].
    split_and!; [done|done|done| |exact Hst|done]. split; try done. exists rest. split; [done|].
    eapply l1_owned_proper; [|exact Hl']. by rewrite own_add_assoc.
Qed.

(** A task of an adapter. *)
Lemma safe_on_l2 i t o Q :
  (forall s oF, own_ok o -> own_ok oF -> own_apart o oF -> stack_inv s (o ⊛ oF) ->
     exists s' r o', run (on_l2 i t) s = (s', r) /\ own_ok o' /\ own_apart o' oF /\ stack_inv s' (o' ⊛ oF) /\
       entries (l1 s') = entries (l1 s) /\ Q r o') ->
  safe stack_inv slices_stay (on_l2 i t) o Q.
Proof.
  intros H. apply safe_atomic. intros s oF Hoo Hok Hap Hi. destruct (H s oF Hoo Hok Hap Hi) as (s' & r & o' & E & H1 & H2 & H3 & He & HQ).
  unfold on_l2 in E. rewrite run_atomic in E. exists s', r, o'. split_and!; try done.
  intros k e e' Hk Hk'. rewrite He in Hk'. congruence.
Qed.

(** A read of the stack. *)
Lemma safe_read {B} (f : Stack A -> res B) o (Q : res B -> own -> Prop) :
  (forall s oF, stack_inv s (o ⊛ oF) -> Q (f s) o) -> safe stack_inv slices_stay (atomic (fun s => (s, f s))) o Q.
Proof.
  intros H. apply safe_atomic. intros s oF Hoo Hok Hap Hi. exists s, (f s), o. split_and!; [done|done|done|done|by apply stays_same|by eapply H].
Qed.

Lemma l2_at s o i : stack_inv s o -> (i < adapters)%nat -> exists a, l2s s !! i = Some a /\ l2_inv a.
Proof.
  intros Hi Hlt. destruct (lookup_lt_is_Some_2 (l2s s) i) as [a Ha]; [by rewrite (si_len _ _ Hi)|].
  exists a. split; [done|]. pose proof (si_l2 _ _ Hi) as Hl. rewrite Forall_forall in Hl. by eapply Hl, list_elem_of_lookup_2.
Qed.

(** One task to every adapter, each of which keeps what the thread owns. *)
Lemma safe_submit_all t o :
  (forall i, (i < adapters)%nat -> safe stack_inv slices_stay (on_l2 i t) o (fun r o' => o' = o /\ exists n, r = Ok (Ok n))) ->
  safe stack_inv slices_stay (submit_all adapters t) o (fun r o' => o' = o /\ exists ns, r = Ok (Ok <$> ns)).
Proof.
  intros Ht. unfold submit_all.
  enough (forall n off ns, (off + n = adapters)%nat ->
    safe stack_inv slices_stay (pfor_acc (seq off n) (Ok <$> ns) (fun rs i => pbind (on_l2 i t) (fun r => pret (rs ++ [r])))) o
      (fun r o' => o' = o /\ exists ns, r = Ok (Ok <$> ns))) as Hg by apply (Hg adapters 0%nat [] eq_refl).
  induction n as [|n IH]; intros off ns Hoff; cbn [seq pfor_acc]; [split; [done|by exists ns]|].
  apply safe_bind, safe_bind. eapply safe_mono; [apply Ht; lia|]. intros r o' [-> [m ->]]. cbn [safe pret].
  specialize (IH (S off) (ns ++ [m])). rewrite fmap_app in IH. refine (IH _). lia.
Qed.

Lemma safe_lookup_l2s missing o Q :
  Forall ok missing -> (forall hits, Q (Ok hits) o) -> safe stack_inv slices_stay (lookup_l2s missing) o Q.
Proof.
  intros Hk HQ. destruct missing as [|k ks] eqn:Em; [apply HQ|]. unfold lookup_l2s. rewrite <- Em in *.
  apply safe_bind, safe_read. intros s oF Hi. rewrite (si_len _ _ Hi).
  apply safe_bind. eapply safe_mono; [apply safe_submit_all|].
  - intros i Hlt. apply safe_on_l2. intros s' oF' Hoo Hok Hap Hi'. destruct (l2_at _ _ _ Hi' Hlt) as (a & Ha & Hinv).
    eexists s', _, o. split_and!; [by apply (on_l2_lookup C ok _ _ a)|done|done|done|done|done|eauto].
  - intros r o' [-> [ns ->]]. rewrite future_results_ok. apply HQ.
Qed.

(** *** Prefetching *)

(** A thread writing the slices [kos], some of them filled. *)
Definition own_wr (kos : list (ChunkKey * MemoryObj)) (filled : list ChunkKey) (H : hold_table) : own :=
  mkOwn (add_writes true kos ∅) filled H [].

Lemma own_wr_ok kos filled H : NoDup kos.*1 -> (forall k, k ∈ filled -> k ∈ kos.*1) -> own_ok (own_wr kos filled H).
Proof.
  intros Hnd Hf. split; simpl; [|intros ko Hin; by apply elem_of_nil in Hin].
  intros k ([k' o] & -> & Hin)%Hf%list_elem_of_fmap. exists (true, o). by apply add_writes_in.
Qed.

Lemma safe_reserve_load keys nb kos H Q :
  NoDup (kos.*1 ++ keys) -> 0 < nb -> Forall (fun ko => obj_nbytes ko.2 = nb) kos ->
  (forall kos', NoDup kos'.*1 -> (forall k, k ∈ kos'.*1 -> k ∈ kos.*1 ++ keys) ->
     Forall (fun ko => obj_nbytes ko.2 = nb) kos' -> Q (Ok (kos'.*1, kos'.*2)) (own_wr kos' [] H)) ->
  safe stack_inv slices_stay (reserve_load_loop keys nb kos.*1 kos.*2) (own_wr kos [] H) Q.
Proof.
  revert kos. induction keys as [|key keys IH]; intros kos Hnd Hnb Hsz HQ; cbn [reserve_load_loop].
  { rewrite app_nil_r in Hnd. apply HQ; [done| |done]. intros k Hk. by rewrite app_nil_r. }
  assert (NoDup kos.*1) as Hndk by (by apply NoDup_app in Hnd as [? _]).
  apply safe_bind, safe_l1. intros x oF Hoo Hok Hap Hl Hobs.
  destruct (own_reserve_write C x _ oF [key] nb true Hl Hoo Hok Hap) as (x' & r & E & Hfr & Hob & Hcase);
    [apply NoDup_singleton|lia|].
  assert (obs_ok ok (observers x')) as Hobs' by by rewrite Hob.
  assert (Q (Ok (kos.*1, kos.*2)) (own_wr kos [] H)) as Hstop.
  { apply HQ; [done| |done]. intros k Hk. apply elem_of_app. by left. }
  destruct Hcase as [[Hl' Hr]|(kos' & Hnd' & Hsz' & Hsub & _ & Hr & _ & Hok' & Hap' & Hl')].
  - eexists x', _, _. split_and!; [exact E|exact Hoo|exact Hap|exact Hl'|done|]. cbn beta iota.
    rewrite (Hr key) by by apply list_elem_of_singleton. exact Hstop.
  - eexists x', _, _. split_and!; [exact E|exact Hok'|exact Hap'|exact Hl'|done|]. cbn beta iota.
    rewrite (Hr key) by by apply list_elem_of_singleton.
    assert (kos' = [] \/ exists obj, kos' = [(key, obj)]) as [->|[obj ->]].
    { destruct kos' as [|[k obj] [|[k' obj'] l]]; [by left| |].
      - right. exists obj. f_equal. f_equal. apply list_elem_of_singleton, Hsub. csimpl. apply list_elem_of_here.
      - exfalso. csimpl in *. assert (k = key) as -> by (apply list_elem_of_singleton, Hsub, list_elem_of_here).
        assert (k' = key) as -> by (apply list_elem_of_singleton, Hsub, list_elem_of_further, list_elem_of_here).
        apply NoDup_cons in Hnd' as [Hn _]. apply Hn, list_elem_of_here. }
    + exact Hstop.
    + simpl list_to_map. rewrite lookup_insert_eq.
      specialize (IH (kos ++ [(key, obj)])). rewrite !fmap_app in IH.
      assert (add_writes true (kos ++ [(key, obj)]) ∅ = add_writes true [(key, obj)] (add_writes true kos ∅)) as Eadd
        by apply foldl_app.
      assert (own_wr (kos ++ [(key, obj)]) [] H = mkOwn (add_writes true [(key, obj)] (add_writes true kos ∅)) [] H []) as Eo
        by (unfold own_wr; by rewrite Eadd).
      rewrite Eo in IH. apply IH; [by rewrite <- app_assoc|done|by apply Forall_app|].
      intros kos' H1 H2 H3. apply HQ; [done| |done]. intros k Hk. specialize (H2 k Hk). by rewrite <- app_assoc in H2.
Qed.

(** Filling one's own slices. *)
Lemma own_fill x o oF kos tmp :
  l1_owned C x (o ⊛ oF) -> own_ok o -> own_ok oF -> own_apart o oF -> NoDup kos.*1 ->
  (forall ko, ko ∈ kos -> o_writes o !! ko.1 = Some (tmp, ko.2) /\ length (C ko.1) = v_len (mo_tensor ko.2)) ->
  let o' := mkOwn (o_writes o) (o_filled o ++ kos.*1) (o_holds o) (o_known o) in
  own_ok o' /\ l1_to C x (with_pool (fill_slots C kos (pool_of x)) x) (o' ⊛ oF).
Proof.
  intros Hl Hoo Hok Hap Hnd Hk o'. destruct (Hl) as (Hi & Hf & Hkn).
  assert (forall k v, o_writes o !! k = Some v -> o_writes (o ⊛ oF) !! k = Some v) as Hlf
    by (intros; by apply lookup_union_Some_l).
  assert (writing (o_writes (o ⊛ oF)) kos) as Hwr.
  { split; [done|]. intros ko Hin. exists tmp. apply Hlf. by apply Hk. }
  destruct (fill_slots_inv C x _ _ kos Hi Hwr) as (Hi' & Hoth & Hself & _); [intros; by apply Hk|].
  assert (own_ok o') as Hok'.
  { destruct Hoo as [H1 H2]. split; [|done]. simpl. intros k [Hin|(ko & -> & Hin)%list_elem_of_fmap]%elem_of_app; [auto|].
    destruct (Hk ko Hin) as [Hw _]. eauto. }
  assert (forall k tmp' obj, k ∉ kos.*1 -> o_writes (o ⊛ oF) !! k = Some (tmp', obj) ->
    byte_array obj (pool_of (with_pool (fill_slots C kos (pool_of x)) x)) = byte_array obj (pool_of x)) as Hrest.
  { intros k tmp' obj Hn Hw. destruct Hi as [_ Hlk].
    destruct (lock_inv_written _ _ _ _ _ _ _ _ Hlk Hw) as (e & He & _ & _ & <- & _). by apply (Hoth k). }
  split; [done|]. apply (l1_owned_step C x _ o); try done.
  - intros k e e' H1 H2. simpl in H2. congruence.
  - intros k tmp' obj Hw. apply (Hrest k tmp'); [|by apply union_apart].
    intros (ko & -> & Hin)%list_elem_of_fmap. destruct (Hk ko Hin) as [Hw' _].
    unfold own_apart in Hap. rewrite map_disjoint_spec in Hap. by apply (Hap _ _ _ Hw' Hw).
  - simpl. intros k tmp' obj Hin Hw. destruct (decide (k ∈ kos.*1)) as [(ko & -> & Hin')%list_elem_of_fmap|Hn].
    + destruct (Hk ko Hin') as [Hw' _]. rewrite Hw in Hw'. injection Hw' as -> ->. by apply Hself.
    + apply elem_of_app in Hin as [Hin|Hin]; [|done]. etransitivity; [by eapply Hrest, Hlf|].
      apply (Hf k tmp'); [apply elem_of_app; by left|by apply Hlf].
  - simpl. intros ko Hin. apply Hkn, elem_of_app. by left.
Qed.

(** The world with another L1 state, for a thread that holds the rest as frame. *)
Lemma stack_inv_l1 s x' o o' oF :
  stack_inv s (o ⊛ oF) -> obs_ok ok (observers x') ->
  (forall rest, l1_owned C (l1 s) (o ⊛ (oF ⊛ held_own (held s) rest)) ->
     l1_owned C x' (o' ⊛ (oF ⊛ held_own (held s) rest))) ->
  stack_inv (set_l1 x' s) (o' ⊛ oF).
Proof.
  intros [[rest [HR Hl]] H1 H2 H3 H4 H5] Hobs Hx. split; try done. exists rest. split; [done|].
  eapply l1_owned_proper; [apply own_add_assoc|]. apply Hx. eapply l1_owned_proper; [|exact Hl]. by rewrite own_add_assoc.
Qed.

Definition slots_of (kos : list (ChunkKey * MemoryObj)) : Prop :=
  NoDup kos.*1 /\ Forall (fun ko => ok ko.1 /\ length (C ko.1) = v_len (mo_tensor ko.2)) kos.

Lemma take_S_fst {X Y} (l : list (X * Y)) n m : take (n + m) l.*1 = take n l.*1 ++ (take m (drop n l)).*1.
Proof. by rewrite fmap_take, fmap_drop, take_take_drop. Qed.

Lemma safe_load kos H loaded i Q :
  slots_of kos -> (loaded <= length kos)%nat -> (i < adapters)%nat ->
  (forall n, (loaded + n <= length kos)%nat -> Q (Ok (Ok n)) (own_wr kos (take (loaded + n) kos.*1) H)) ->
  safe stack_inv slices_stay (on_l2 i (TLoad (drop loaded kos.*1) (drop loaded kos.*2))) (own_wr kos (take loaded kos.*1) H) Q.
Proof.
  intros [Hnd Hkos] Hle Hi HQ. apply safe_on_l2. intros s oF Hoo Hok Hap Hinv.
  destruct (l2_at _ _ _ Hinv Hi) as (a & Ha & Hai). destruct (si_l1 _ _ Hinv) as (rest & _ & Hl).
  set (rem := drop loaded kos). assert (NoDup rem.*1) as Hndr by (unfold rem; rewrite fmap_drop; by apply NoDup_drop).
  assert (forall ko, ko ∈ rem -> add_writes true kos ∅ !! ko.1 = Some (true, ko.2) /\
            ok ko.1 /\ length (C ko.1) = v_len (mo_tensor ko.2)) as Hrem.
  { intros [k obj] Hin. assert ((k, obj) ∈ kos) as Hin' by (eapply subseteq_drop; exact Hin).
    rewrite Forall_forall in Hkos. split; [by apply add_writes_in|by apply (Hkos (k, obj))]. }
  assert (slots_ok C (pool_of (l1 s)) rem) as Hslots.
  { destruct Hl as (Hli & _). apply (writing_slots C _ _ _ _ Hli); [|intros; by apply Hrem].
    split; [done|]. intros ko Hin. exists true. simpl. rewrite <- !(assoc_L (∪)). apply lookup_union_Some_l. by apply Hrem. }
  set (n := l2_prefix C ok a rem.*1).
  assert (n <= length rem)%nat as Hn.
  { unfold n, l2_prefix. etransitivity; [apply prefix_count_le|]. by rewrite length_fmap. }
  assert (length rem = length kos - loaded)%nat as Hlr by apply length_drop.
  rewrite <- !fmap_drop. fold rem.
  assert (own_wr kos (take (loaded + n) kos.*1) H
    = mkOwn (add_writes true kos ∅) (take loaded kos.*1 ++ (take n rem).*1) H []) as Eo
    by (unfold own_wr, rem; by rewrite take_S_fst).
  assert (forall ko, ko ∈ take n rem -> add_writes true kos ∅ !! ko.1 = Some (true, ko.2) /\
            length (C ko.1) = v_len (mo_tensor ko.2)) as Htk.
  { intros ko Hin. destruct (Hrem ko) as (? & _ & ?); [by eapply subseteq_take|done]. }
  assert (NoDup (take n rem).*1) as Hndt by (rewrite fmap_take; by apply NoDup_take).
  eexists _, _, (own_wr kos (take (loaded + n) kos.*1) H). split_and!.
  - apply (on_l2_load C ok _ _ a); [done|done| |done]. apply Forall_forall. intros ko Hin. by apply Hrem.
  - apply own_wr_ok; [done|]. intros k. apply subseteq_take.
  - done.
  - fold n. apply (stack_inv_l1 s _ (own_wr kos (take loaded kos.*1) H)); [done|apply (si_obs _ _ Hinv)|].
    intros rest' Hl'. rewrite Eo.
    refine (proj1 (proj2 (own_fill (l1 s) (own_wr kos (take loaded kos.*1) H) _ (take n rem) true Hl' Hoo _ _ Hndt Htk))).
    + apply own_ok_add; [done|apply held_own_ok].
    + apply own_apart_add. split; [done|apply held_own_apart].
  - done.
  - apply HQ. lia.
Qed.

Lemma safe_load_loop idxs kos H loaded hits Q :
  slots_of kos -> (loaded <= length kos)%nat -> Forall (fun i => (i < adapters)%nat) idxs ->
  (forall m, (m <= length kos)%nat -> Q (Ok m) (own_wr kos (take m kos.*1) H)) ->
  safe stack_inv slices_stay (load_loop idxs kos.*1 kos.*2 hits loaded) (own_wr kos (take loaded kos.*1) H) Q.
Proof.
  intros Hs. revert loaded. induction idxs as [|i idxs IH]; intros loaded Hle Hidx HQ; cbn [load_loop]; [by apply HQ|].
  destruct (_ || _); [by apply HQ|]. apply Forall_cons in Hidx as [Hi Hidx].
  apply safe_bind, safe_load; [done|done|done|]. intros n Hn. cbn beta iota.
  unfold future_result, plift. cbn [pbind]. by apply IH.
Qed.

Lemma safe_load_from kos H hits Q :
  slots_of kos -> (forall m, (m <= length kos)%nat -> Q (Ok m) (own_wr kos (take m kos.*1) H)) ->
  safe stack_inv slices_stay (load_from_l2s kos.*1 kos.*2 hits) (own_wr kos [] H) Q.
Proof.
  intros Hs HQ. unfold load_from_l2s. destruct (kos.*1) as [|k ks] eqn:Ek.
  - specialize (HQ 0%nat ltac:(lia)). by rewrite take_0 in HQ.
  - rewrite <- Ek in *. apply safe_bind, safe_read. intros s oF Hi. cbn beta iota. rewrite (si_len _ _ Hi).
    apply (safe_load_loop _ kos H 0%nat); [done|lia| |exact HQ].
    rewrite sorted_desc_perm. apply Forall_forall. intros i Hin%elem_of_seq. lia.
Qed.

(** *** Sessions *)

(** A thread that owns nothing but holds. *)
Definition own_held (H : hold_table) : own := mkOwn ∅ [] H [].

Lemma own_held_ok H : own_ok (own_held H).
Proof. split; intros ? Hin; by apply elem_of_nil in Hin. Qed.
Lemma own_held_apart H oF : own_apart (own_held H) oF.
Proof. apply map_disjoint_empty_l. Qed.

(** Holds moving between a thread and the table, some perhaps left over. *)
Lemma stack_inv_move s s' Hd Hd' lost oF :
  stack_inv s (own_held Hd ⊛ oF) -> l1 s' = l1 s -> l2s s' = l2s s -> jobs s' = jobs s ->
  map_Forall (fun _ h => NoDup h) (held s') ->
  Hd ⊎ table_holds (held s) = Hd' ⊎ table_holds (held s') ⊎ lost ->
  (forall rest, leftover rest -> leftover (rest ⊎ lost)) ->
  stack_inv s' (own_held Hd' ⊛ oF).
Proof.
  intros [[rest [HR Hl]] H1 H2 H3 H4 H5] E1 E2 E3 Hnd He Hlost. split; rewrite ?E1, ?E2, ?E3; try done.
  exists (rest ⊎ lost). split; [by apply Hlost|]. eapply l1_owned_proper; [|exact Hl]. split_and!; try done. simpl.
  revert He. generalize (table_holds (held s)) (table_holds (held s')). intros T T'. multiset_solver.
Qed.

Lemma safe_finish_held keys (Q : res unit -> own -> Prop) :
  NoDup keys -> Q (Ok tt) own_nil ->
  safe stack_inv slices_stay (on_l1 (finish_read keys)) (own_held (∅ ⊎ holds_of keys)) Q.
Proof.
  intros Hnd HQ. apply safe_l1. intros x oF Hoo Hok Hap Hl Hobs.
  destruct (own_finish_read C x ∅ [] ∅ keys [] oF Hl Hoo Hok Hap Hnd) as (x' & E & _ & Ho & Hok' & Hl').
  exists x', (Ok tt), (mkOwn ∅ [] ∅ []). split_and!; [done|done|apply own_held_apart|done| |by apply HQ].
  rewrite Ho. by apply obs_announced.
Qed.

(** The publication of a result: what the table had for the session is lost. *)
Lemma stack_inv_publish s rid ks1 ks2 v oF :
  stack_inv s (own_held (∅ ⊎ holds_of (ks1 ++ ks2)) ⊛ oF) -> NoDup (ks1 ++ ks2) ->
  (forall rest, leftover rest -> leftover (rest ⊎ holds_of (default [] (held s !! rid)))) ->
  stack_inv (set_hits v (set_held (<[rid := fromkeys (ks1 ++ ks2)]> (held s)) s)) (own_held ∅ ⊛ oF).
Proof.
  intros Hi Hnd Hlost. rewrite fromkeys_NoDup by done.
  apply (stack_inv_move s _ _ _ (holds_of (default [] (held s !! rid))) _ Hi); try done.
  - simpl. intros r' h'. rewrite lookup_insert. case_decide; [by intros [= <-]|apply (si_held _ _ Hi)].
  - simpl. rewrite no_holds_l. pose proof (table_holds_set (held s) rid (ks1 ++ ks2)) as Ht.
    rewrite <- (assoc_L (⊎)), Ht. by rewrite no_holds_l.
Qed.

Lemma safe_resolve `{!AnyLeftover left} rid ks1 ks2 g (Q : res unit -> own -> Prop) :
  NoDup (ks1 ++ ks2) -> Q (Ok tt) own_nil ->
  safe stack_inv slices_stay (resolve rid ks1 ks2 g) (own_held (∅ ⊎ holds_of (ks1 ++ ks2))) Q.
Proof.
  intros Hnd HQ. apply safe_bind, safe_atomic. intros s oF Hoo Hok Hap Hi. unfold publish.
  destruct (hits s !! rid) as [h|].
  - eexists _, _, (own_held ∅). split_and!; [reflexivity|apply own_held_ok|apply own_held_apart| |by apply stays_same|by apply HQ].
    apply stack_inv_publish; [done|done|]. intros rest _. apply any_leftover.
  - eexists _, _, _. split_and!; [reflexivity|exact Hoo|exact Hap|exact Hi|by apply stays_same|]. by apply safe_finish_held.
Qed.

Lemma safe_release rid keys (Q : res unit -> own -> Prop) :
  (forall ks, keys = Some ks -> NoDup ks) -> Q (Ok tt) own_nil ->
  safe stack_inv slices_stay (release rid keys) own_nil Q.
Proof.
  intros Hks HQ. apply safe_bind, safe_atomic. intros s oF Hoo Hok Hap Hi.
  destruct (held s !! rid) as [h|] eqn:Eh.
  - set (ks := default h keys). assert (NoDup h) as Hndh by (by apply (si_held _ _ Hi rid)).
    assert (NoDup ks) as Hnd by (unfold ks; destruct keys as [l|]; simpl; [by apply Hks|done]).
    rewrite (take_held_eq s rid h keys Eh Hnd). fold ks. eexists _, _, (own_held (∅ ⊎ holds_of (taken ks h))). split_and!.
    + reflexivity.
    + apply own_held_ok.
    + apply own_held_apart.
    + apply (stack_inv_move s _ ∅ _ ∅ _ Hi); try done; simpl.
      * intros r' h'. rewrite lookup_insert. case_decide; [|apply (si_held _ _ Hi)].
        intros [= <-]. by apply NoDup_filter.
      * pose proof (table_holds_set (held s) rid (left_held ks h)) as Ht. rewrite Eh in Ht. simpl in Ht.
        pose proof (taken_left C ks h Hnd Hndh) as Hsplit. rewrite <- Hsplit in Ht. revert Ht.
        generalize (table_holds (held s)) (table_holds (<[rid:=left_held ks h]> (held s))). intros T T'. multiset_solver.
      * intros rest. by rewrite (right_id_L ∅ (⊎)).
    + by apply stays_same.
    + simpl. apply safe_finish_held; [by apply NoDup_filter|done].
  - unfold take_held. rewrite Eh. eexists _, _, _. split_and!; [reflexivity|exact Hoo|exact Hap|exact Hi|by apply stays_same|].
    apply (safe_finish_held []); [constructor|done].
Qed.

Lemma safe_release_first rid count (Q : res unit -> own -> Prop) :
  Q (Ok tt) own_nil -> safe stack_inv slices_stay (release_first rid count) own_nil Q.
Proof.
  intros HQ. apply safe_bind, safe_read. intros s oF Hi. cbn beta iota. apply safe_release; [|done].
  intros ks [= <-]. unfold py_take. apply NoDup_take.
  destruct (held s !! rid) as [h|] eqn:Eh; simpl; [by apply (si_held _ _ Hi rid)|constructor].
Qed.

(** A session that ends: what the table has for it is lost. *)
Lemma stack_inv_forget s rid v oF :
  stack_inv s (own_nil ⊛ oF) ->
  (forall rest, leftover rest -> leftover (rest ⊎ holds_of (default [] (held s !! rid)))) ->
  stack_inv (set_held (delete rid (held s)) (set_hits v s)) (own_nil ⊛ oF).
Proof.
  intros Hi Hlost. apply (stack_inv_move s _ ∅ ∅ (holds_of (default [] (held s !! rid))) oF); try done; simpl.
  - apply map_Forall_delete. apply (si_held _ _ Hi).
  - rewrite !no_holds_l. destruct (held s !! rid) as [h|] eqn:Eh; simpl.
    + rewrite (table_holds_delete _ _ _ Eh). by rewrite (comm_L (⊎)).
    + rewrite delete_id by done. change (holds_of []) with (∅ : hold_table). multiset_solver.
Qed.

Lemma safe_end_session `{!AnyLeftover left} rid (Q : res unit -> own -> Prop) :
  Q (Ok tt) own_nil -> safe stack_inv slices_stay (Prefetch.end_session rid) own_nil Q.
Proof.
  intros HQ. apply safe_bind, safe_release; [done|]. cbn beta iota. apply safe_atomic. intros s oF Hoo Hok Hap Hi.
  eexists _, _, own_nil. split_and!; [reflexivity|done|done| |by apply stays_same|done].
  apply stack_inv_forget; [done|]. intros rest _. apply any_leftover.
Qed.

(** The end of a prefetch: every slot is either published or given back. *)
Lemma own_prefetched kos m H K :
  (forall k, k ∈ K <-> k ∈ kos.*1) ->
  own_done (drop m K) (del_writes (take m K) (add_writes true kos ∅)) H [] = own_held H.
Proof.
  intros HK. unfold own_done, own_held. f_equal. apply map_eq. intros k. rewrite !del_writes_lookup, lookup_empty.
  case_decide as H1; [done|]. case_decide as H2; [done|].
  rewrite add_writes_notin; [apply lookup_empty|]. intros Hk%HK. rewrite <- (take_drop m K) in Hk.
  by apply elem_of_app in Hk as [?|?].
Qed.

Lemma take_take_NoDup {X} n (l l' : list X) :
  NoDup l -> NoDup l' -> (forall y, y ∈ l' -> y ∈ drop n l) -> NoDup (take n l ++ l').
Proof.
  intros Hl Hl' Hsub. apply NoDup_app. split_and!; [by apply NoDup_take| |done].
  intros y Hy Hy'. by apply (NoDup_take_notin_drop n l y Hl Hy), Hsub.
Qed.

(** It owns the holds on what it found. *)
Lemma safe_hits elapsed rid keys nb (Q : res (list ChunkKey * list ChunkKey * float) -> own -> Prop) :
  nonzero_float elapsed = true -> job_ok (rid, keys, nb) ->
  (forall ks1 ks2 g, NoDup (ks1 ++ ks2) -> Q (Ok (ks1, ks2, g)) (own_held (∅ ⊎ holds_of (ks1 ++ ks2)))) ->
  safe stack_inv slices_stay (prefetch_hits elapsed keys nb) own_nil Q.
Proof.
  intros Hel (Hnd & Hok & Hnb) HQ. apply safe_bind, safe_l1. intros x oF Hoo HokF Hap Hl Hobs.
  destruct (own_reserve_prefix C x own_nil oF keys Hl Hoo HokF Hap Hnd) as (x' & n & E & _ & Ho & Hok' & Hl').
  eexists x', _, _. split_and!; [exact E|exact Hok'|exact Hap|exact Hl'|by rewrite Ho|]. cbn beta iota.
  clear - Hel Hnd Hok Hnb HQ.
  change (mkOwn (o_writes own_nil) (o_filled own_nil) (o_holds own_nil ⊎ holds_of (take n keys)) (o_known own_nil))
    with (own_held (∅ ⊎ holds_of (take n keys))).
  destruct nb as [nb|].
  2: { specialize (HQ (take n keys) [] f_0). rewrite app_nil_r in HQ. by apply HQ, NoDup_take. }
  destruct Hnb as [Hnb HC]. apply safe_bind, safe_lookup_l2s; [by apply Forall_drop|]. intros l2_hits. cbn beta iota.
  unfold reserve_load. set (missing := take (max_default l2_hits) (drop n keys)).
  assert (forall k, k ∈ missing -> k ∈ drop n keys) as Hmiss by (intros k; apply subseteq_take).
  assert (NoDup missing) as Hndm by (by apply NoDup_take, NoDup_drop).
  apply safe_bind, (safe_reserve_load missing nb [] (∅ ⊎ holds_of (take n keys))); [done|done|constructor|].
  intros kos Hndk Hsub Hsz. cbn beta iota. cbn [fst snd].
  assert (slots_of kos) as Hslots.
  { split; [done|]. rewrite Forall_forall in Hok. rewrite Forall_forall in Hsz. apply Forall_forall. intros [k obj] Hin.
    assert (k ∈ keys) as Hk by (eapply subseteq_drop, Hmiss, (Hsub k), list_elem_of_fmap; by exists (k, obj)).
    split; [by apply Hok|]. specialize (Hsz _ Hin). specialize (HC k Hk). unfold obj_nbytes, Zlen in *. simpl in *. lia. }
  apply safe_bind, safe_load_from; [done|]. intros m Hm. cbn beta iota.
  assert (NoDup (take n keys ++ take m kos.*1)) as Hnd2.
  { apply take_take_NoDup; [done|by apply NoDup_take|]. intros k Hk. apply Hmiss, (Hsub k). by eapply subseteq_take. }
  apply safe_bind, safe_l1. intros x2 oF Hoo HokF Hap Hl Hobs.
  destruct (own_finish_write_held C x2 _ oF (take m kos.*1) Hl Hoo HokF Hap) as (x3 & E3 & _ & Ho3 & Hok3 & Hap3 & Hl3);
    [by apply NoDup_take|done|].
  eexists x3, _, _. split_and!; [exact E3|exact Hok3|exact Hap3|exact Hl3|rewrite Ho3; by apply obs_notified|].
  clear - Hel HQ Hnd2 Hslots Hndk. cbn beta iota.
  apply safe_bind, safe_l1. intros x4 oF4 Hoo4 HokF4 Hap4 Hl4 Hobs4.
  destruct (own_delete_force C x4 _ oF4 (drop m kos.*1) Hl4 Hoo4 HokF4 Hap4)
    as (x5 & n5 & E5 & _ & (removed & Ho5) & Hok5 & Hap5 & Hl5); [by apply NoDup_drop| |].
  { intros k Hk. simpl. assert (k ∈ kos.*1) as ([k' obj] & -> & Hin)%list_elem_of_fmap by (by eapply subseteq_drop).
    rewrite del_writes_lookup. rewrite decide_False.
    - exists (true, obj). by apply add_writes_in.
    - intros Htk. by apply (NoDup_take_notin_drop m kos.*1 _ Hndk Htk). }
  eexists x5, _, _. split_and!; [exact E5|exact Hok5|exact Hap5|exact Hl5|rewrite Ho5; by apply obs_announced|].
  clear - Hel HQ Hnd2 Hndk. cbn beta iota. simpl o_writes. simpl o_holds. simpl o_known.
  rewrite own_prefetched by done. destruct (load_gbps_ok m nb elapsed Hel) as [g ->]. unfold plift. cbn [pbind].
  rewrite <- (assoc_L (⊎)), <- holds_of_app. by apply HQ.
Qed.

Lemma safe_prefetch `{!AnyLeftover left} elapsed rid keys nb (Q : res unit -> own -> Prop) :
  nonzero_float elapsed = true -> job_ok (rid, keys, nb) -> Q (Ok tt) own_nil ->
  safe stack_inv slices_stay (prefetch elapsed rid keys nb) own_nil Q.
Proof.
  intros Hel Hj HQ. apply safe_prefetch_hits. eapply safe_hits; [done|exact Hj|]. intros ks1 ks2 g Hnd. by apply safe_resolve.
Qed.

(** *** The two threads of the controller's queue, and the callers *)

Lemma safe_pop :
  safe stack_inv slices_stay (atomic pop_job) own_nil
    (fun r o => o = own_nil /\ exists oj, r = Ok oj /\ match oj with Some j => job_ok j | None => True end).
Proof.
  apply safe_atomic. intros s oF Hoo Hok Hap Hi. unfold pop_job.
  pose proof (si_jobs _ _ Hi) as Hj. destruct (jobs s) as [|j rest].
  - eexists _, _, own_nil. split_and!; [reflexivity|done|done|done|by apply stays_same|done|by eexists].
  - apply Forall_cons in Hj as [Hj Hrest]. eexists _, _, own_nil. split_and!; [reflexivity|done|done| |by apply stays_same|done|by eexists].
    destruct Hi as [? ? ? ? ? ?]. by split.
Qed.

Lemma safe_prefetch_round `{!AnyLeftover left} elapsed (Q : res unit -> own -> Prop) :
  nonzero_float elapsed = true -> Q (Ok tt) own_nil ->
  safe stack_inv slices_stay (prefetch_round elapsed) own_nil Q.
Proof.
  intros Hel HQ. apply safe_bind. eapply safe_mono; [apply safe_pop|]. intros r o (-> & [[[rid keys] nb]|] & -> & Hj); [|done].
  by apply safe_prefetch.
Qed.

Lemma safe_start_session rid keys nb o (Q : res unit -> own -> Prop) :
  job_ok (rid, keys, nb) -> Q (Ok tt) o -> safe stack_inv slices_stay (start_session rid keys nb) o Q.
Proof.
  intros Hj HQ. apply safe_bind, safe_atomic. intros s oF Hoo Hok Hap Hi.
  eexists _, _, o. split_and!; [reflexivity|done|done|by destruct Hi; split|by apply stays_same|].
  apply safe_atomic. clear s oF Hoo Hok Hap Hi. intros s oF Hoo Hok Hap Hi.
  eexists _, _, o. split_and!; [reflexivity|done|done| |by apply stays_same|done].
  destruct Hi as [? ? ? ? Hjs ?]. split; try done. apply Forall_app. split; [done|]. by constructor.
Qed.

Lemma safe_query rid o (Q : res (option hit_info) -> own -> Prop) :
  (forall r, Q (Ok r) o) -> safe stack_inv slices_stay (Prefetch.query rid) o Q.
Proof. intros HQ. apply (safe_read (fun s => Ok (default None (hits s !! rid)))). intros s oF _. apply HQ. Qed.

(** *** Write-back *)

Lemma seen_split x keys :
  (seen x keys).*1 = filter (fun k => is_Some (read_view (entries x !! k))) keys /\
  (seen x keys).*2 = omap (fun k => read_view (entries x !! k)) keys.
Proof.
  unfold seen. induction keys as [|k keys [IH1 IH2]]; [done|]. simpl. rewrite filter_cons.
  destruct (read_view (entries x !! k)) as [obj|]; simpl.
  - split; f_equal; [exact IH1|exact IH2].
  - split; [exact IH1|exact IH2].
Qed.

(** What a thread knows of the chunks it holds: they are ready, so the pool has
    their contents where it looks. *)
Lemma known_contents s o oF ko :
  own_ok o -> stack_inv s (o ⊛ oF) -> ko ∈ o_known o -> byte_array ko.2 (pool_of (l1 s)) = C ko.1.
Proof.
  intros [_ Hk] Hi Hin. destruct (si_l1 _ _ Hi) as (rest & _ & [_ Hl] & _ & Hkn). specialize (Hk ko Hin).
  destruct (Hkn ko) as (e & He & <-); [simpl; apply elem_of_app; left; apply elem_of_app; by left|].
  destruct (lock_inv_held _ _ _ _ _ ko.1 Hl) as (e' & He' & _ & Hw & _).
  { simpl. apply gmultiset_elem_of_disj_union. left. apply gmultiset_elem_of_disj_union. by left. }
  rewrite He in He'. injection He' as <-. by destruct (lock_inv_ready _ _ _ _ _ _ _ Hl He Hw).
Qed.

Lemma safe_store_task i kos H :
  (i < adapters)%nat -> Forall ok kos.*1 ->
  safe stack_inv slices_stay (on_l2 i (TStore kos.*1 kos.*2)) (mkOwn ∅ [] H kos)
    (fun r o' => o' = mkOwn ∅ [] H kos /\ exists n, r = Ok (Ok n)).
Proof.
  intros Hi Hok. apply safe_on_l2. intros s oF Hoo HokF Hap Hinv.
  destruct (l2_at _ _ _ Hinv Hi) as (a & Ha & Hai).
  destruct (on_l2_store C ok s i a kos Ha Hai) as (a' & E & Hai' & _).
  { rewrite Forall_forall in Hok. apply Forall_forall. intros ko Hin.
    split; [by apply Hok, list_elem_of_fmap; eauto|]. by apply (known_contents s (mkOwn ∅ [] H kos) oF). }
  eexists _, _, _. split_and!; [exact E|exact Hoo|exact Hap| |done|done|eauto].
  destruct Hinv as [H1 H2 H3 H4 H5 H6]. split; try done; simpl.
  - by apply Forall_insert.
  - by rewrite length_insert.
Qed.

Lemma safe_write_back keys (Q : res unit -> own -> Prop) :
  NoDup keys -> Forall ok keys -> Q (Ok tt) own_nil ->
  safe stack_inv slices_stay (write_back keys) own_nil Q.
Proof.
  intros Hnd Hok HQ. apply safe_bind, safe_l1. intros x oF Hoo HokF Hap Hl Hobs.
  destruct (own_reserve_read C x oF keys Hl HokF Hnd) as (x' & r & E & _ & Ho & Hr & Hok' & Hl').
  eexists x', _, _. split_and!; [exact E|exact Hok'|apply map_disjoint_empty_l|exact Hl'|by rewrite Ho|]. cbn beta iota.
  assert (forall k, k ∈ keys -> reserved_obj r k = read_view (entries x !! k)) as Hro.
  { intros k Hk. unfold reserved_obj. by rewrite Hr, decide_True. }
  destruct (seen_split x keys) as [Hs1 Hs2].
  assert (filter (fun k => is_Some (reserved_obj r k)) keys = (seen x keys).*1) as ->.
  { rewrite Hs1. apply list_filter_iff_in. intros k Hk. by rewrite Hro. }
  assert (Forall ok (seen x keys).*1) as Hoks.
  { rewrite Hs1. rewrite Forall_forall in Hok. apply Forall_forall. by intros k [_ Hk%Hok]%list_elem_of_filter. }
  assert (omap (reserved_obj r) (seen x keys).*1 = (seen x keys).*2) as Hobj.
  { clear - Hro. assert (forall ko, ko ∈ seen x keys -> reserved_obj r ko.1 = Some ko.2) as Hin.
    { intros [k obj] (k' & Hk' & Hv)%list_elem_of_omap. rewrite <- (Hro k' Hk') in Hv.
      destruct (reserved_obj r k') eqn:Ev; [|done]. injection Hv as -> ->. exact Ev. }
    induction (seen x keys) as [|ko l IH]; [done|]. simpl.
    rewrite (Hin ko (list_elem_of_here _ _)). simpl. f_equal. apply IH. intros ko' Hk. by apply Hin, list_elem_of_further. }
  assert (NoDup (seen x keys).*1) as Hnds by (rewrite Hs1; by apply NoDup_filter).
  cbv zeta. rewrite Hobj. clear - Hnds Hoks HQ L2Laws0. generalize dependent (seen x keys). intros kos Hoks Hndk.
  destruct (kos.*1) as [|k0 ks] eqn:Ek.
  { apply fmap_nil_inv in Ek as ->. exact HQ. }
  rewrite <- Ek in *. apply safe_bind, safe_read. intros s oF Hi. cbn beta iota. rewrite (si_len _ _ Hi).
  apply safe_bind. eapply safe_mono; [apply safe_submit_all; intros i Hlt; by apply safe_store_task|].
  intros r' o' [-> [ns ->]]. cbn beta iota. rewrite future_results_ok. unfold plift. cbn [pbind].
  clear s oF Hi. apply safe_l1. intros y oF Hoo HokF Hap Hl Hobs.
  destruct (own_finish_read C y ∅ [] ∅ kos.*1 kos oF) as (y' & E & _ & Ho & Hok' & Hl'); try done.
  { by rewrite no_holds_l. }
  { by rewrite no_holds_l. }
  eexists y', _, (mkOwn ∅ [] ∅ []). split_and!; [exact E|exact Hok'|apply map_disjoint_empty_l|exact Hl'| |by apply HQ].
  rewrite Ho. by apply obs_announced.
Qed.

Lemma safe_store_round (Q : res unit -> own -> Prop) :
  Q (Ok tt) own_nil -> safe stack_inv slices_stay store_round own_nil Q.
Proof.
  intros HQ. apply safe_bind, safe_l1. intros x oF Hoo HokF Hap Hl [Hp Hord].
  destruct (pending (observers x)) as [|keys rest] eqn:Ep.
  - exists x, (Ok []), own_nil. split_and!; [done|done|done|by apply l1_to_refl|split; [by rewrite Ep|done]|].
    cbn beta iota. apply safe_write_back; [constructor|constructor|done].
  - apply Forall_cons in Hp as [[Hnd Hok] Hrest].
    eexists _, (Ok keys), own_nil. split_and!; [reflexivity|done|done| |by split|].
    + split; [exact Hl|]. intros k e e' H1 H2. simpl in H2. congruence.
    + cbn beta iota. by apply safe_write_back.
Qed.

(** *** Eviction

    Whatever the scan sees, the victims are distinct tracked keys. *)

Lemma safe_scan target victims keys o (Q : res (list ChunkKey) -> own -> Prop) :
  NoDup (victims ++ keys) -> (forall vs, NoDup vs -> Q (Ok vs) o) ->
  safe stack_inv slices_stay (scan_victims target victims keys) o Q.
Proof.
  intros Hnd HQ. revert victims Hnd. induction keys as [|key keys IH]; intros victims Hnd; cbn [scan_victims].
  { apply HQ. by rewrite app_nil_r in Hnd. }
  assert (NoDup victims) as Hv by by apply NoDup_app in Hnd as [? _].
  destruct (target <=? Zlen victims); [by apply HQ|]. apply safe_bind, safe_l1. intros x oF Hoo HokF Hap Hl Hobs.
  eexists x, _, o. split_and!; [reflexivity|done|done|by apply l1_to_refl|done|]. cbn beta iota. apply IH.
  destruct (is_evictable x key); [by rewrite <- app_assoc|].
  rewrite NoDup_app in *. rewrite NoDup_cons in Hnd. split_and!; [done| |tauto].
  intros k Hk Hin. destruct Hnd as (_ & Hd & _). by apply (Hd k Hk), list_elem_of_further.
Qed.

Lemma safe_evict_thread (Q : res unit -> own -> Prop) :
  (forall r, Q r own_nil) -> safe stack_inv slices_stay evict_thread own_nil Q.
Proof.
  intros HQ. apply safe_bind, safe_l1. intros x oF Hoo HokF Hap Hl Hobs.
  eexists x, _, own_nil. split_and!; [reflexivity|done|done|by apply l1_to_refl|done|]. cbn beta iota. unfold plift.
  destruct (below_watermark _) as [[]|e]; cbn [pbind]; [by apply HQ| |by apply HQ].
  clear x oF Hoo HokF Hap Hl Hobs. apply safe_bind, safe_l1. intros x oF Hoo HokF Hap Hl Hobs.
  eexists x, _, own_nil. split_and!; [reflexivity|done|done|by apply l1_to_refl|done|]. cbn beta iota.
  destruct (victim_target _ _) as [t|e]; cbn [pbind]; [|by apply HQ]. destruct Hobs as [_ Hnd].
  apply safe_bind, safe_scan; [done|]. intros vs Hvs. cbn beta iota. clear - HQ Hvs.
  apply safe_bind, safe_l1. intros x oF Hoo HokF Hap Hl Hobs.
  destruct (own_delete C x _ oF vs Hl Hoo HokF Hap Hvs) as (x' & n & E & _ & (removed & Ho) & Hl').
  eexists x', _, own_nil. split_and!; [exact E|done|done|exact Hl'|rewrite Ho; by apply obs_announced|].
  cbn beta iota. by apply HQ.
Qed.
End stack_inv.
