(* ===== verification/ServerThreads.v ===== *)
(** Every thread of the cache server, interleaved.

    The request handlers (server.py, mq.py) run in threads of their own beside
    the prefetcher, write-back, eviction and the I/O thread.  [thread_of] is the
    program of each; [net_inv] holds between any two of their steps. *)
From S2P Require Import Prelude PyFloat Protocol Hasher Memory L1Manager Eviction L1Protocol.
From S2P Require Import L2 Threads Storage StoreController Prefetch Server MQ Evictor Resources Ownership Interleaving.
Local Open Scope py_scope.
Local Open Scope Z_scope.


Section works.
Context {A : Type} `{!L2Ops A} (blake3 : bytes -> bytes).

(** A request handled for a client, one turn of a background thread, or the
    I/O thread delivering a queued reply. *)
Inductive work :=
| WHandle (identity : bytes) (uid : Z) (rq : request)
| WPrefetch (elapsed : float)
| WWriteBack
| WEvict
| WFlush.

Definition on_stack {B} (p : prog (Stack A) B) : prog (Net A) B := on_srv (on_sm p).

Definition thread_of (w : work) : prog (Net A) unit :=
  match w with
  | WHandle identity uid rq => handle blake3 identity uid rq
  | WPrefetch elapsed => on_stack (prefetch_round elapsed)
  | WWriteBack => on_stack store_round
  | WEvict => on_stack evict_thread
  | WFlush => atomic flush
  end.
End works.

(** ** The invariant *)

Section server_threads.
Context {A : Type} (C : ChunkKey -> bytes) (ok : ChunkKey -> Prop) `{!L2Ops A} `{!L2Laws A C ok} {left : Leftover}.
Context (blake3 : bytes -> bytes) (adapters : nat) (cs : Z) (registered : Z -> EngineInstance -> Prop).
Implicit Types (s : Server A) (n : Net A) (o oF : own).

Definition instance_ok (i : Z) (inst : EngineInstance) : Prop := registered i inst /\ 0 < ei_chunk_nbytes inst.

(** The chunk size announced for a deployment is that of one of its instances. *)
Definition deployment_ok (d : string * Z) (nb : Z) : Prop :=
  exists i inst, instance_ok i inst /\ d = (ei_model inst, ei_world_size inst) /\ nb = ei_chunk_nbytes inst.

Record srv_inv s o : Prop := mkSrvInv {
  sv_stack : stack_inv C ok adapters (sm s) o;
  sv_size : chunk_size s = cs;
  sv_instances : map_Forall instance_ok (instances s);
  sv_deployments : map_Forall deployment_ok (deployments s)
}.

Definition net_inv n o : Prop := srv_inv (srv n) o.

(** What the engines promise of their requests: the instances they register,
    the keys of an operation distinct, and with a STORE the contents of all its
    chunks. *)
Definition request_ok (rq : request) : Prop :=
  match rq with
  | RqRegister p =>
      instance_ok (rp_instance_id p)
        (mkEngineInstance (rp_rank p) (rp_model p) (rp_world_size p) (rp_block_size p) (rp_chunk_nbytes p))
  | RqLookup p => forall nb keys,
      deployment_ok (lp_model p, lp_world_size p) nb -> lookup_keys blake3 cs (Some nb) p = Ok keys ->
      job_ok C ok (lp_request_id p, keys, Some nb)
  | RqStore p => forall inst keys,
      instance_ok (tp_instance_id p) inst -> op_keys blake3 cs (tp_op p) inst = Ok keys ->
      NoDup keys /\ Forall ok keys /\ (length keys <= length (tp_chunks p))%nat /\
      blobs_ok C (ei_chunk_nbytes inst) keys (tp_chunks p) 0
  | RqRetrieve p => forall inst keys,
      instance_ok (tp_instance_id p) inst -> op_keys blake3 cs (tp_op p) inst = Ok keys -> NoDup keys
  | _ => True
  end.

(** What may leave holds over: the end of a session, and a prefetch. *)
Definition rq_forgets (rq : request) : Prop := match rq with RqEndSession _ => True | _ => False end.
Definition forgets (w : work) : Prop :=
  match w with WHandle _ _ rq => rq_forgets rq | WPrefetch _ => True | _ => False end.

Definition work_ok (w : work) : Prop :=
  match w with
  | WHandle _ _ rq => request_ok rq
  | WPrefetch elapsed => nonzero_float elapsed = true
  | _ => True
  end.

Lemma srv_inv_proper s a b : a ≡ b -> srv_inv s a -> srv_inv s b.
Proof. intros E [H1 H2 H3 H4]. split; try done. by eapply stack_inv_proper. Qed.

(** Chunks stay where they are in the pool, messages on the wire. *)
Definition srv_stays s s' : Prop := slices_stay (sm s) (sm s').
Definition net_stays n n' : Prop := srv_stays (srv n) (srv n') /\ wire n `prefix_of` wire n'.

Notation ssafe := (safe srv_inv srv_stays).

Lemma srv_stays_same s s' : l1 (sm s') = l1 (sm s) -> srv_stays s s'.
Proof. apply stays_same. Qed.

Lemma net_stays_same n n' : srv n' = srv n -> wire n `prefix_of` wire n' -> net_stays n n'.
Proof. intros E Hw. split; [|done]. apply srv_stays_same. by rewrite E. Qed.

Lemma safe_on_sm {B} (p : prog (Stack A) B) o Q :
  safe (stack_inv C ok adapters) slices_stay p o Q -> ssafe (on_sm p) o Q.
Proof.
  apply safe_zoom; [by intros w o' []| |done]. intros w x o1 o2 [H1 H2 H3 H4] H. by split.
Qed.

Lemma safe_get {B} (f : Server A -> res B) o (Q : res B -> own -> Prop) :
  (forall s oF, srv_inv s (o ⊛ oF) -> Q (f s) o) -> ssafe (server_get f) o Q.
Proof.
  intros H. apply safe_atomic. intros s oF Hoo HokF Hap Hi. exists s, (f s), o. split_and!; [done|done|done|done|by apply srv_stays_same|by eapply H].
Qed.

Lemma safe_instance i o (Q : res EngineInstance -> own -> Prop) :
  (forall inst, instance_ok i inst -> Q (Ok inst) o) -> (forall e, Q (Raise e) o) -> ssafe (instance_of i) o Q.
Proof.
  intros H1 H2. apply safe_get. intros s oF Hi. pose proof (sv_instances _ _ Hi i) as Hin.
  destruct (instances s !! i) as [inst|]; [by apply H1, Hin|by apply H2].
Qed.

(** *** STORE *)

Lemma safe_copy_blobs ws W F H K (Q : res unit -> own -> Prop) :
  (forall w, w ∈ ws -> W !! w.1.1 = Some (false, w.1.2) /\ w.2 = C w.1.1 /\ length (C w.1.1) = v_len (mo_tensor w.1.2)) ->
  (forall F', (forall k, k ∈ F \/ k ∈ ws.*1.*1 -> k ∈ F') -> Q (Ok tt) (mkOwn W F' H K)) ->
  ssafe (copy_blobs ws) (mkOwn W F H K) Q.
Proof.
  revert F. induction ws as [|[[k obj] blob] ws IH]; intros F Hws HQ; cbn [copy_blobs].
  { apply HQ. intros k [Hk|Hk]; [done|by apply elem_of_nil in Hk]. }
  destruct (Hws (k, obj, blob) (list_elem_of_here _ _)) as (Hw & Hb & Hlen). simpl in Hw, Hb, Hlen. subst blob.
  apply safe_bind, safe_on_sm, safe_l1. intros x oF Hoo HokF Hap Hl Hobs.
  destruct (own_assign C x _ oF k false obj Hl Hoo HokF Hap Hw Hlen) as (x' & E & Ho & Hok' & Hl').
  eexists x', _, _. split_and!; [exact E|exact Hok'|exact Hap|exact Hl'|by rewrite Ho|]. cbn beta iota.
  apply IH; [intros w Hin; by apply Hws, list_elem_of_further|].
  intros F' HF'. apply HQ. intros k' [Hk|Hk].
  - apply HF'. left. by apply list_elem_of_further.
  - csimpl in Hk. apply elem_of_cons in Hk as [->|Hk]; apply HF'; [left; apply list_elem_of_here|by right].
Qed.

Lemma safe_finish_write keys W F (Q : res unit -> own -> Prop) :
  NoDup keys -> Forall ok keys -> (forall k, k ∈ keys -> k ∈ F /\ exists obj, W !! k = Some (false, obj)) ->
  (forall k, is_Some (W !! k) -> k ∈ keys) -> Q (Ok tt) own_nil ->
  ssafe (sm_l1 (finish_write keys)) (mkOwn W F ∅ []) Q.
Proof.
  intros Hnd Hok Hks Hall HQ. apply safe_on_sm, safe_l1. intros x oF Hoo HokF Hap Hl Hobs.
  destruct (own_finish_write C x _ oF keys Hl Hoo HokF Hap Hnd Hks) as (x' & E & _ & Ho & Hok' & Hap' & Hl').
  eexists x', _, _. split_and!; [exact E|exact Hok'|exact Hap'|exact Hl'| |].
  - rewrite Ho. apply obs_notified; [by split|]. by apply obs_notified.
  - enough (del_writes keys W = ∅) as E' by (unfold own_done; simpl; rewrite E'; exact HQ). apply map_eq. intros k. rewrite del_writes_lookup, lookup_empty.
    case_decide as Hk; [done|]. destruct (W !! k) eqn:Ek; [|done]. exfalso. apply Hk, Hall. eauto.
Qed.

Lemma safe_store p (Q : res (result A) -> own -> Prop) :
  request_ok (RqStore p) -> (forall v, Q (Ok (RValue v)) own_nil) ->
  (forall e, Q (Raise e) own_nil) -> ssafe (store blake3 p) own_nil Q.
Proof.
  intros Hrq HQ HE. apply safe_bind, safe_instance; [|intros e; by apply HE]. intros inst Hinst. cbn beta iota.
  apply safe_bind, safe_get. intros s oF Hi. rewrite (sv_size _ _ Hi). clear s oF Hi.
  destruct (op_keys blake3 cs (tp_op p) inst) as [keys|e] eqn:Ek; [|by apply HE].
  destruct (Hrq inst keys Hinst Ek) as (Hnd & Hok & Hlen & Hb). clear Hrq Ek.
  apply safe_bind, safe_on_sm, safe_l1. intros x oF Hoo HokF Hap Hl Hobs. destruct Hinst as [_ Hpos].
  destruct (own_reserve_write C x _ oF keys (ei_chunk_nbytes inst) false Hl Hoo HokF Hap Hnd)
    as (x' & r & E & _ & Ho & Hcase); [lia|].
  assert (exists kos, NoDup kos.*1 /\ Forall (fun ko => obj_nbytes ko.2 = ei_chunk_nbytes inst) kos /\
    (forall k, k ∈ kos.*1 -> k ∈ keys) /\ kos.*1 = filter (fun k => is_Some (default None (r !! k))) keys /\
    Forall (fun ko => r !! ko.1 = Some (Some ko.2)) kos /\
    let o' := mkOwn (add_writes false kos ∅) [] ∅ [] in
    own_ok o' /\ own_apart o' oF /\ l1_to C x x' (o' ⊛ oF)) as (kos & Hndk & Hsz & Hsub & Hkos & Hrk & Hok' & Hap' & Hl').
  { destruct Hcase as [[Hl' Hr]|(kos & Hndk & Hsz & Hsub & Hfil & Hr & _ & Hrest)].
    - exists []. split_and!; try done; [constructor|by intros k Hk%elem_of_nil|].
      destruct (filter (fun k => is_Some (default None (r !! k))) keys) as [|k l] eqn:Ef; [done|]. exfalso.
      assert (k ∈ filter (fun k => is_Some (default None (r !! k))) keys) as Hin by (rewrite Ef; apply list_elem_of_here).
      apply list_elem_of_filter in Hin as [[y Hy] Hin]. by rewrite (Hr k Hin) in Hy.
    - exists kos. split_and!; try done.
      + rewrite Hfil at 1. apply list_filter_iff_in. intros k Hk. rewrite (Hr k Hk). simpl. split.
        * intros ([k' obj] & -> & Hin)%list_elem_of_fmap. exists obj. by apply elem_of_list_to_map_1.
        * intros [obj Hin%elem_of_list_to_map_2]. apply list_elem_of_fmap. by exists (k, obj).
      + apply Forall_forall. intros [k obj] Hin. simpl. rewrite (Hr k) by (apply Hsub, list_elem_of_fmap; by exists (k, obj)).
        f_equal. by apply elem_of_list_to_map_1. }
  eexists x', _, _. split_and!; [exact E|exact Hok'|exact Hap'|exact Hl'|by rewrite Ho|]. cbn beta iota.
  clear - Hnd Hok Hlen Hb HQ HE Hndk Hsz Hsub Hkos Hrk L2Laws0.
  destruct (select_written_spec C r (ei_chunk_nbytes inst) (tp_chunks p) 0 keys kos Hnd Hb Hkos Hrk)
    as (_ & Hws & Hsel & _). specialize (Hsel Hlen). set (ws := select_written _ _ _ _) in *. cbv zeta.
  assert ((fun w => w.1.1) <$> ws = kos.*1) as Hkeys by (rewrite <- Hsel; unfold selected; by rewrite <- list_fmap_compose).
  assert (forall w, w ∈ ws -> w.1 ∈ kos) as Hin by (intros w Hw; rewrite <- Hsel; apply list_elem_of_fmap; eauto).
  apply safe_bind, safe_copy_blobs.
  { intros w Hw. specialize (Hin w Hw). rewrite Forall_forall in Hws. destruct (Hws w Hw) as [HC Hnb].
    split_and!; [by apply add_writes_in; destruct w as [[]]|done|].
    rewrite Forall_forall in Hsz. specialize (Hsz _ Hin). unfold obj_nbytes, Zlen in *. lia. }
  intros F' HF'. cbn beta iota. apply safe_bind. rewrite Hkeys. apply safe_finish_write; [done| | | |].
  - rewrite Forall_forall in Hok. apply Forall_forall. intros k Hk. by apply Hok, Hsub.
  - intros k Hk. split.
    + apply HF'. right. unfold selected in Hsel. by rewrite Hsel.
    + apply list_elem_of_fmap in Hk as ([k' obj] & -> & Hk). exists obj. by apply add_writes_in.
  - intros k [v Hv]. destruct (decide (k ∈ kos.*1)) as [|Hn]; [done|].
    rewrite add_writes_notin in Hv by done. by rewrite lookup_empty in Hv.
  - apply HQ.
Qed.

(** *** RETRIEVE *)

Lemma safe_post_send rid keys (Q : res unit -> own -> Prop) :
  NoDup keys -> Q (Ok tt) own_nil -> ssafe (post_send rid keys) own_nil Q.
Proof.
  intros Hnd HQ. apply safe_bind, safe_on_sm, safe_l1. intros x oF Hoo HokF Hap Hl Hobs.
  destruct (own_promote C x _ oF keys Hl Hoo HokF Hap Hnd) as (x' & E & _ & Ho & Hl').
  eexists x', _, own_nil. split_and!; [exact E|done|done|exact Hl'|by rewrite Ho|]. cbn beta iota.
  apply safe_on_sm, safe_release; [by intros ks [= <-]|done].
Qed.

Lemma safe_retrieve p (Q : res (result A) -> own -> Prop) :
  request_ok (RqRetrieve p) ->
  (forall objs keys, NoDup keys -> Q (Ok (RChunks objs (post_send (tp_request_id p) keys))) own_nil) ->
  (forall e, Q (Raise e) own_nil) -> ssafe (retrieve blake3 p) own_nil Q.
Proof.
  intros Hrq HQ HE. apply safe_bind, safe_instance; [|done]. intros inst Hinst. cbn beta iota.
  apply safe_bind, safe_get. intros s oF Hi. rewrite (sv_size _ _ Hi). clear s oF Hi.
  destruct (op_keys blake3 cs (tp_op p) inst) as [keys|e] eqn:Ek; [|done]. specialize (Hrq inst keys Hinst Ek).
  apply safe_bind, safe_on_sm, safe_query. intros resolved. cbn beta iota. unfold plift.
  destruct (match resolved with None => (0, 0) | Some (a, b, _) => (a, b) end) as [l1_keys l2_keys].
  apply safe_bind, safe_on_sm, safe_l1. intros x oF Hoo HokF Hap Hl Hobs.
  destruct (read keys x) as [x' r] eqn:E.
  apply read_pure in E as Ex. subst x'.
  exists x, r, own_nil. split_and!; [done|done|done|by apply l1_to_refl|done|]. destruct r as [objs|e]; [|apply HE].
  destruct (py_floordiv l1_keys _); cbn [pbind]; [|apply HE]. destruct (py_floordiv l2_keys _); cbn [pbind]; [|apply HE].
  by apply HQ.
Qed.

(** *** The other handlers *)

Lemma safe_register p (Q : res (result A) -> own -> Prop) :
  request_ok (RqRegister p) -> (forall v, Q (Ok (RValue v)) own_nil) -> ssafe (register p) own_nil Q.
Proof.
  intros Hrq HQ. apply safe_bind, safe_atomic. intros s oF Hoo HokF Hap [H1 H2 H3 H4].
  eexists _, _, own_nil. split_and!; [reflexivity|done|done| |by apply srv_stays_same|apply HQ]. split; [done|done| |].
  - simpl. apply map_Forall_insert_2; done.
  - simpl. apply map_Forall_insert_2; [|done]. by eexists _, _.
Qed.

Lemma safe_unregister i (Q : res (result A) -> own -> Prop) :
  (forall v, Q (Ok (RValue v)) own_nil) -> ssafe (unregister i) own_nil Q.
Proof.
  intros HQ. apply safe_atomic. intros s oF Hoo HokF Hap [H1 H2 H3 H4].
  eexists _, _, own_nil. split_and!; [reflexivity|done|done| |by apply srv_stays_same|apply HQ]. split; try done.
  simpl. by apply map_Forall_delete.
Qed.

Lemma safe_server_lookup p (Q : res (result A) -> own -> Prop) :
  request_ok (RqLookup p) -> (forall v, Q (Ok (RValue v)) own_nil) -> (forall e, Q (Raise e) own_nil) ->
  ssafe (lookup blake3 p) own_nil Q.
Proof.
  intros Hrq HQ HE. apply safe_bind, safe_get. intros s oF Hi. pose proof (sv_deployments _ _ Hi) as Hd.
  specialize (Hd (lp_model p, lp_world_size p)).
  destruct (deployments s !! (lp_model p, lp_world_size p)) as [nb|] eqn:En;
    apply safe_bind, safe_get; intros s' oF' Hi'; rewrite (sv_size _ _ Hi').
  - destruct (lookup_keys blake3 cs (Some nb) p) as [keys|e] eqn:Ek; [|apply HE].
    apply safe_bind, safe_on_sm, safe_start_session; [|apply HQ]. apply Hrq; [by apply Hd|done].
  - apply safe_bind, safe_on_sm, safe_start_session; [|apply HQ]. split_and!; [constructor|constructor|done].
Qed.

Lemma safe_server_query p (Q : res (result A) -> own -> Prop) :
  (forall v, Q (Ok (RValue v)) own_nil) -> (forall e, Q (Raise e) own_nil) -> ssafe (query p) own_nil Q.
Proof.
  intros HQ HE. apply safe_bind, safe_on_sm, safe_query. intros [[[l1_keys l2_keys] g]|]; [|apply HQ].
  cbn beta iota. unfold plift. destruct (py_floordiv _ _) as [q|e]; cbn [pbind]; [|apply HE].
  apply safe_get. intros s oF _. apply HQ.
Qed.

(** What a handler returns: a value, or chunks with a callback that is safe. *)
Definition result_ok (r : res (result A)) (o : own) : Prop :=
  o = own_nil /\
  match r with
  | Ok (RChunks _ post) => ssafe post own_nil (fun _ o' => o' = own_nil)
  | _ => True
  end.

Lemma safe_dispatch rq : request_ok rq -> (rq_forgets rq -> AnyLeftover left) -> ssafe (dispatch_request blake3 rq) own_nil result_ok.
Proof.
  intros Hrq Hany. destruct rq as [|p|i|p|p|p|p|p|rid|p]; cbn [dispatch_request].
  - apply safe_get. by intros.
  - by apply safe_register.
  - by apply safe_unregister.
  - by apply safe_server_lookup.
  - by apply safe_server_query.
  - by apply safe_store.
  - apply safe_retrieve; [done| |done]. intros objs keys Hnd. split; [done|]. by apply safe_post_send.
  - apply safe_bind, safe_on_sm, safe_release_first. done.
  - specialize (Hany I). by apply safe_bind, safe_on_sm, safe_end_session.
  - done.
Qed.

(** *** The request layer *)

Notation nsafe := (safe net_inv net_stays).

Lemma safe_on_srv {B} (p : prog (Server A) B) o Q : ssafe p o Q -> nsafe (on_srv p) o Q.
Proof. apply safe_zoom; [done| |by split]. by intros w s o1 o2 _ H. Qed.

Lemma safe_send m o (Q : res unit -> own -> Prop) : Q (Ok tt) o -> nsafe (atomic (send m)) o Q.
Proof.
  intros HQ. apply safe_atomic. intros n oF Hoo HokF Hap Hi.
  eexists _, _, o. split_and!; [reflexivity|done|done|exact Hi|by apply net_stays_same|done].
Qed.

Lemma safe_read_frames chunks o (Q : res (list bytes) -> own -> Prop) :
  (forall bs, Q (Ok bs) o) -> nsafe (read_frames chunks) o Q.
Proof.
  revert Q. induction chunks as [|obj chunks IH]; intros Q HQ; cbn [read_frames]; [apply HQ|].
  apply safe_bind, safe_atomic. intros n oF Hoo HokF Hap Hi.
  eexists n, _, o. split_and!; [reflexivity|done|done|exact Hi|by apply net_stays_same|]. cbn beta iota.
  apply safe_bind, IH. intros bs. apply HQ.
Qed.

Definition all_given_back (_ : res unit) (o : own) : Prop := o = own_nil.

Lemma safe_handle identity uid rq : request_ok rq -> (rq_forgets rq -> AnyLeftover left) ->
  nsafe (handle blake3 identity uid rq) own_nil all_given_back.
Proof.
  intros Hrq Hany. unfold handle. apply safe_try.
  assert (forall r o', o' = own_nil -> match r : res unit with
      Ok b => all_given_back (Ok b) o'
    | Raise e => nsafe (atomic (send (mkMsg identity uid false (BExc e) []))) o' all_given_back end) as Hend.
  { intros [[]|e] o' ->; [done|]. by apply safe_send. }
  apply safe_bind, safe_on_srv. eapply safe_mono; [by apply safe_dispatch|].
  intros [r|e] o' [-> Hr]; [|by apply (Hend (Raise e))]. unfold handle_ok.
  destruct r as [v|chunks post]; cbn [is_chunk_result].
  - unfold plift. cbn [pbind dumps]. by apply safe_send.
  - destruct chunks as [|obj chunks]; [by apply (Hend (Raise PicklingError))|].
    apply safe_bind. apply safe_bind, safe_read_frames. intros bs. cbn beta iota.
    apply safe_atomic. intros n oF Hoo HokF Hap Hi.
    eexists _, _, own_nil. split_and!; [reflexivity|done|done|exact Hi|apply net_stays_same; [done|by eexists]|].
    apply safe_on_srv. eapply safe_mono; [exact Hr|]. cbn beta. intros r' o' ->. by apply (Hend r').
Qed.

Lemma safe_work w : work_ok w -> (forgets w -> AnyLeftover left) -> nsafe (thread_of blake3 w) own_nil all_given_back.
Proof.
  destruct w as [identity uid rq|elapsed| | |]; intros Hw Hany; cbn [thread_of].
  - by apply safe_handle.
  - specialize (Hany I). by apply safe_on_srv, safe_on_sm, safe_prefetch_round.
  - by apply safe_on_srv, safe_on_sm, safe_store_round.
  - by apply safe_on_srv, safe_on_sm, safe_evict_thread.
  - apply safe_atomic. intros n oF Hoo HokF Hap Hi. unfold flush, modify.
    eexists _, _, own_nil. split_and!; [reflexivity|done|done| | |done].
    + unfold net_inv. by destruct (send_queue n).
    + destruct (send_queue n); apply net_stays_same; try done. by eexists.
Qed.

(** A server as it starts. *)
Definition new_net (contents : bytes) (l2s : list A) : Net A := mkNet (new_server cs contents l2s) [] [].

Lemma table_holds_elem m rid h k : m !! rid = Some h -> k ∈ h -> NoDup h -> k ∈ table_holds m.
Proof.
  intros Hm Hk Hnd. rewrite (table_holds_delete m rid h Hm). apply gmultiset_elem_of_disj_union. left.
  apply elem_of_multiplicity. rewrite multiplicity_holds_of, decide_True by done. lia.
Qed.

(** What a session holds is in L1, ready. *)
Lemma session_chunk s o rid keys k :
  srv_inv s o -> held (sm s) !! rid = Some keys -> k ∈ keys ->
  exists e, entries (l1 (sm s)) !! k = Some e /\ write_locked e = false /\ 0 < read_count e /\
            byte_array (entry_obj e) (pool_of (l1 (sm s))) = C k.
Proof.
  intros [[(rest & _ & [_ Hl] & _) Hh _ _ _ _] _ _ _] Hr Hk. destruct (lock_inv_held _ _ _ _ _ k Hl) as (e & He & _ & Hwl & _ & Hrc).
  { simpl. apply gmultiset_elem_of_disj_union. right. apply gmultiset_elem_of_disj_union. left.
    apply (table_holds_elem _ rid keys); [done|done|by apply (Hh rid)]. }
  exists e. split_and!; [done|done|done|]. by destruct (lock_inv_ready _ _ _ _ _ _ _ Hl He Hwl).
Qed.

Lemma net_inv_proper n a b : a ≡ b -> net_inv n a -> net_inv n b.
Proof. apply srv_inv_proper. Qed.

Lemma new_net_inv contents l2s :
  leftover ∅ -> Forall l2_inv l2s -> length l2s = adapters -> net_inv (new_net contents l2s) own_nil.
Proof.
  intros HR Ha Hlen. destruct (new_stack_inv C contents l2s) as (Hinv & Hheld & _). split; try done.
  assert (observers (l1 (new_stack contents l2s)) = mkObs [] []) as Hobs by by destruct l2s.
  split; try done.
  - exists ∅. split; [done|]. split_and!; [|intros k tmp obj Hk; by apply elem_of_nil in Hk|intros ko Hk; by apply elem_of_nil in Hk].
    simpl. rewrite (left_id_L ∅ (∪)). exact Hinv.
  - change (obs_ok ok (observers (l1 (new_stack contents l2s)))). rewrite Hobs. split; [constructor|constructor].
Qed.
End server_threads.

(** *** All of them together *)

Section all_threads.
Context {A : Type} (C : ChunkKey -> bytes) (ok : ChunkKey -> Prop) `{!L2Ops A} `{!L2Laws A C ok}.
Context (blake3 : bytes -> bytes) (adapters : nat) (cs : Z) (registered : Z -> EngineInstance -> Prop).
Implicit Types (s : Server A) (n : Net A) (o oF : own).
Notation inv := (net_inv C ok adapters cs registered).
Notation works_fine := (Forall (work_ok C ok blake3 cs registered)).

Definition finished (t : prog (Net A) unit) : Prop := exists r, t = Done r.

Lemma safe_works works i t :
  works_fine works -> (thread_of blake3 <$> works) !! i = Some t ->
  safe inv net_stays t own_nil all_given_back.
Proof.
  intros Hw Ht. apply list_lookup_fmap_Some in Ht as (w & -> & Hi). apply safe_work; [|done].
  rewrite Forall_forall in Hw. by eapply Hw, list_elem_of_lookup_2.
Qed.

Lemma works_start works n :
  works_fine works -> inv n own_nil ->
  exists os, threads_ok inv (fun _ => net_stays) (fun _ => all_given_back) (n, thread_of blake3 <$> works) os.
Proof. intros Hw Hn. apply threads_start; [apply net_inv_proper|done|]. intros i t. by apply safe_works. Qed.

Lemma works_ok works n n' ts' :
  works_fine works -> inv n own_nil -> tsteps (n, thread_of blake3 <$> works) (n', ts') ->
  exists os, threads_ok inv (fun _ => net_stays) (fun _ => all_given_back) (n', ts') os.
Proof.
  intros Hw Hn Hs. destruct (works_start works n Hw Hn) as [os Hok]. by eapply threads_ok_run; [apply net_inv_proper|..].
Qed.

(** Threads that have finished have given everything back. *)
Lemma works_settled works n n' ts' :
  works_fine works -> inv n own_nil -> tsteps (n, thread_of blake3 <$> works) (n', ts') ->
  Forall finished ts' -> inv n' own_nil.
Proof.
  intros Hw Hn Hs Hfin. destruct (works_ok works n n' ts' Hw Hn Hs) as (os & Hlen & _ & _ & Hi & Hsafe).
  assert (r_sum os ≡ own_nil) as E; [|by eapply srv_inv_proper].
  simpl in *. refine (r_sum_nils os _). apply Forall_lookup. intros i o Ho.
  pose proof (lookup_lt_Some _ _ _ Ho) as Hlt. rewrite Hlen in Hlt.
  destruct (lookup_lt_is_Some_2 ts' i Hlt) as [t Ht].
  specialize (Hsafe i t o Ht Ho). rewrite Forall_lookup in Hfin. by destruct (Hfin i t Ht) as [r ->].
Qed.

(** C6: under every interleaving of the server's threads (request handlers in
    any number, the prefetcher, write-back, eviction, the I/O thread), at every
    moment: a chunk that is not being written holds exactly its content, and a
    chunk in the table of a session, which a RETRIEVE may be reading, is in L1,
    readable, and its reader count covers the hold; no eviction, store or
    session end of another request takes it away. *)
Theorem server_threads_safe works n n' ts' :
  works_fine works -> inv n own_nil -> tsteps (n, thread_of blake3 <$> works) (n', ts') ->
  let x := l1 (sm (srv n')) in
  (forall k e, entries x !! k = Some e -> write_locked e = false -> byte_array (entry_obj e) (pool_of x) = C k) /\
  (forall rid keys k, held (sm (srv n')) !! rid = Some keys -> k ∈ keys ->
     exists e, entries x !! k = Some e /\ write_locked e = false /\ 0 < read_count e /\
               byte_array (entry_obj e) (pool_of x) = C k) /\
  l1_wf C x /\ Forall l2_inv (l2s (sm (srv n'))).
Proof.
  intros Hw Hn Hs x. destruct (works_ok works n n' ts' Hw Hn Hs) as (os & _ & _ & _ & Hi & _).
  split_and!; [|intros rid keys k; by apply (session_chunk C ok adapters cs registered (srv n') (r_sum os))| |apply Hi];
    destruct Hi as [[(rest & _ & Hl & _) _ _ _ _ _] _ _ _].
  - intros k e Hk He. destruct Hl as [_ Hl]. by destruct (lock_inv_ready _ _ _ _ _ _ _ Hl Hk He).
  - by eexists _, _.
Qed.

End all_threads.

(** ** A small server at work

    The engine registers while a lookup, a store, a retrieve and the end of a
    session are handled, and every background thread takes a turn. *)

#[local] Existing Instance mock_laws.

Definition toy_registered (i : Z) (inst : EngineInstance) : Prop := i = 7 /\ inst = toy_inst.

Definition toy_works : list work :=
  [WHandle [] 0 (RqRegister (mkRegisterPayload 7 "m" 0 1 1 2));
   WHandle [] 1 (RqLookup (mkLookupPayload "r" [1; 2] "m" 1));
   WHandle [] 2 (RqStore (toy_transfer [1; 2] [toy_C ka; toy_C kb]));
   WPrefetch f_0_8; WWriteBack; WEvict;
   WHandle [] 3 (RqRetrieve (toy_transfer [1; 2] []));
   WHandle [] 4 (RqEndSession "r"); WFlush].

Definition toy_start : Net Mock := new_net 1 (replicate 8 Byte.x00) [mkMock {[ kb := toy_C kb ]}].

(** Turn by turn, [rounds] times. *)
Definition in_turn (rounds : nat) : list nat := concat (replicate rounds (seq 0 (length toy_works))).

Lemma toy_works_ok : Forall (work_ok toy_C any_chunk last_byte 1 toy_registered) toy_works.
Proof.
  assert (forall inst keys, instance_ok toy_registered 7 inst -> op_keys last_byte 1 (toy_op [1; 2]) inst = Ok keys ->
    keys = [ka; kb] /\ ei_chunk_nbytes inst = 2) as Hop.
  { intros inst keys [[_ ->] _]. rewrite toy_op_keys. by intros [= <-]. }
  assert (Forall any_chunk [ka; kb]) as Hany by by repeat constructor.
  unfold toy_works. repeat (apply Forall_cons; split); try done; simpl.
  - intros nb keys (i & inst & [[_ ->] _] & _ & ->) Hk.
    assert (keys = [ka; kb]) as -> by (revert Hk; vm_compute; by intros [= <-]).
    split_and!; [exact toy_nodup|done|done|]. by apply toy_pair.
  - intros inst keys Hi Hk. destruct (Hop inst keys Hi Hk) as [-> ->].
    split_and!; [exact toy_nodup|done|done|by apply toy_blobs].
  - intros inst keys Hi Hk. destruct (Hop inst keys Hi Hk) as [-> _]. exact toy_nodup.
Qed.

Lemma toy_start_inv : net_inv toy_C any_chunk 1 1 toy_registered toy_start own_nil.
Proof. apply new_net_inv; [done|exact toy_stack_loads|done]. Qed.

Lemma server_threads_safe_witness :
  exists n' ts', sched (in_turn 5) (toy_start, thread_of last_byte <$> toy_works) = (n', ts') /\
    l1_wf toy_C (l1 (sm (srv n'))) /\
    forall k e, entries (l1 (sm (srv n'))) !! k = Some e -> write_locked e = false ->
      byte_array (entry_obj e) (pool_of (l1 (sm (srv n')))) = toy_C k.
Proof.
  destruct (sched (in_turn 5) (toy_start, thread_of last_byte <$> toy_works)) as [n' ts'] eqn:E.
  destruct (server_threads_safe toy_C any_chunk last_byte 1 1 toy_registered toy_works toy_start n' ts')
    as (H1 & _ & H3 & _).
  - exact toy_works_ok.
  - exact toy_start_inv.
  - rewrite <- E. apply sched_tsteps.
  - eauto.
Defined.

Definition is_done (t : prog (Net Mock) unit) : bool := match t with Done _ => true | _ => false end.

