(* ===== verification/CommandLine.v ===== *)
(** Starting the server (server.py, [serve] and [main]).

    From the parsed arguments to the state the threads of the server start in.
    What the arguments spell, the JSON decoder, the allocation of the pool and
    the socket are parameters. *)
From stdpp Require Import pretty.
From S2P Require Import Prelude PyFloat Protocol Memory L1Manager L1Protocol L2 L2FS L2Registry Threads Storage Server MQ Resources Ownership Interleaving ServerThreads.
Local Open Scope py_scope.
Local Open Scope Z_scope.

(** The result of [parser.parse_args()]. *)
Record Args := mkArgs {
  host : string;
  port : Z;
  arg_bind_url : option string;
  arg_chunk_size : Z;
  l1_size_gb : float;
  l2_adapter : list string
}.

(** With no argument given. *)
Definition default_args : Args := mkArgs "127.0.0.1" 5555 None 256 (float_of_int 20) [].

(** [args.bind_url or f"tcp://{args.host}:{args.port}"]; an empty string is
    false. *)
Definition bind_url (args : Args) : string :=
  match arg_bind_url args with
  | Some (String c s) => String c s
  | _ => "tcp://" +:+ host args +:+ ":" +:+ pretty (port args)
  end.

(** [int(args.l1_size_gb * (1 << 30))] *)
Definition l1_capacity (args : Args) : res Z := float_trunc (fmul (l1_size_gb args) (float_of_int (Z.shiftl 1 30))).

Definition banner (url : string) (chunk_size capacity_bytes : Z) (num_l2s : nat) : string :=
  "mini cache server up and ready on " +:+ url +:+ " (chunk_size=" +:+ pretty chunk_size +:+ ", " +:+
  pretty (Z.shiftr capacity_bytes 30) +:+ " GB L1, " +:+ pretty (Z.of_nat num_l2s) +:+ " L2 adapters)".

Section starting.
Context (disk : string -> gmap string bytes) (json_loads : string -> res (list (string * json))).
Context (torch_empty : Z -> res bytes) (zmq_bind : string -> res unit).

(** What is printed, and the server at work from then on. *)
Definition serve (url : string) (chunk_size capacity_bytes : Z) (l2_specs : list string) : res (Net Adapter * string) :=
  let? l2s := build_l2s disk json_loads l2_specs in
  let? contents := torch_empty capacity_bytes in
  let? _ := zmq_bind url in
  Ok (new_net chunk_size contents l2s, banner url chunk_size capacity_bytes (length l2s)).

Definition main (args : Args) : res (Net Adapter * string) :=
  let url := bind_url args in
  let? capacity_bytes := l1_capacity args in
  serve url (arg_chunk_size args) capacity_bytes (l2_adapter args).
End starting.

(** ** The size of L1 *)

Lemma one_gb : float_of_int (Z.shiftl 1 30) = S754_finite false 4503599627370496 (30 - 52).
Proof. vm_compute. reflexivity. Qed.

(** C36: the size of L1 in bytes is exact: for every float [x] (sign [s],
    mantissa [m], exponent [e]) given as --l1-size-gb it is the integer part of
    [x * 2^30], no rounding of the product intervenes, and the number of
    gigabytes the banner shows for a size that is not negative is the integer
    part of [x]; a product out of range, an infinity or a NaN is refused before
    anything is started. *)
Theorem capacity_exact args :
  match l1_size_gb args with
  | S754_finite s m e =>
      bounded fprec femax m e = true ->
      if e + 30 <=? femax - fprec
      then exists cap, l1_capacity args = Ok cap /\ Z.abs cap = scaled_floor (Zpos m) (e + 30) /\
           (if s then cap <= 0 else 0 <= cap /\ Z.shiftr cap 30 = scaled_floor (Zpos m) e)
      else l1_capacity args = Raise OverflowError
  | S754_zero _ => l1_capacity args = Ok 0
  | S754_infinity _ => l1_capacity args = Raise OverflowError
  | S754_nan => l1_capacity args = Raise ValueError
  end.
Proof.
  unfold l1_capacity. rewrite one_gb. destruct (l1_size_gb args) as [s|s| |s m e]; [by destruct s|by destruct s|done|].
  intros Hb. destruct (Z.leb_spec (e + 30) (femax - fprec)) as [He|He].
  - rewrite (float_trunc_pow2 s m e 30) by (done || lia).
    assert (0 <= scaled_floor (Zpos m) (e + 30)) as Hpos by by apply scaled_floor_nonneg.
    eexists. split; [reflexivity|]. destruct s; split_and!; [lia..|].
    by apply scaled_floor_shiftr.
  - destruct (fmul_pow2 s m e 30 Hb) as (n & Hn & Hs & ->); [lia|]. unfold emin, fprec, femax in *.
    by replace (_ <=? _) with false by lia.
Qed.

Lemma capacity_exact_witness :
  exists cap, l1_capacity default_args = Ok cap /\ Z.abs cap = scaled_floor 5629499534213120 (-48 + 30) /\
    0 <= cap /\ Z.shiftr cap 30 = scaled_floor 5629499534213120 (-48).
Proof.
  pose proof (capacity_exact default_args) as H.
  replace (l1_size_gb default_args) with (S754_finite false 5629499534213120 (-48)) in H by (vm_compute; reflexivity).
  exact (H eq_refl).
Defined.

(** 20 GB unless told otherwise; fractions, zero, and sizes out of range. *)
Example capacities :
  l1_capacity default_args = Ok (20 * 2 ^ 30) /\
  l1_capacity (mkArgs "" 0 None 0 f_0_2 []) = Ok 214748364 /\
  l1_capacity (mkArgs "" 0 None 0 f_0 []) = Ok 0 /\
  l1_capacity (mkArgs "" 0 None 0 (S754_finite false 4503599627370496 950) []) = Raise OverflowError.
Proof. by vm_compute. Qed.

Example default_start :
  main (fun _ => ∅) (fun _ => Raise ValueError) (fun _ => Ok []) (fun _ => Ok tt) default_args =
  Ok (new_net 256 [] [], "mini cache server up and ready on tcp://127.0.0.1:5555 (chunk_size=256, 20 GB L1, 0 L2 adapters)").
Proof. by vm_compute. Qed.

(** A size that is no number, or an adapter that cannot be built, stops the
    server before the pool is allocated and the socket bound. *)
Example refused_starts disk json_loads torch_empty zmq_bind :
  main disk json_loads torch_empty zmq_bind (mkArgs "h" 1 None 256 S754_nan []) = Raise ValueError /\
  main disk (fun _ => Ok [("type", JStr "s3")]) torch_empty zmq_bind (mkArgs "h" 1 None 256 f_0_2 ["{}"]) = Raise KeyError.
Proof. by vm_compute. Qed.

(** ** The server that starts *)

Section started.
Context (C : ChunkKey -> bytes) (models : list string).
Context (models_distinct : forall m m', m ∈ models -> m' ∈ models -> sanitize m = sanitize m' -> m = m').
Context (disk : string -> gmap string bytes) (json_loads : string -> res (list (string * json))).
Context (torch_empty : Z -> res bytes) (zmq_bind : string -> res unit).
Context (disk_ok : forall path, fs_inv C models (mkFS (disk path) ∅)).
Context (torch_empty_length : forall n b, torch_empty n = Ok b -> Zlen b = n).

Lemma build_l2_inv spec a : build_l2 disk spec = Ok a -> any_inv C models a.
Proof using disk_ok.
  unfold build_l2, construct. intros H. repeat case_match; simplify_eq; [apply disk_ok|]. by intros k b _.
Qed.

Lemma build_l2s_inv specs l : build_l2s disk json_loads specs = Ok l -> Forall (any_inv C models) l.
Proof using disk_ok.
  revert l. induction specs as [|text specs IH]; intros l; [by intros [= <-]|]. simpl.
  destruct (json_loads text) as [spec|]; [|done]. simpl. destruct (build_l2 disk spec) as [a|] eqn:Ea; [|done]. simpl.
  destruct (build_l2s _ _ specs) as [l'|]; [|done]. intros [= <-]. constructor; [by eapply build_l2_inv|by apply IH].
Qed.

(** Whatever the arguments, a server that starts has a pool of the size asked
    for and satisfies the invariant all theorems about its threads start from, no
    holds being left over. *)
Lemma main_net_inv args n out registered (left : Leftover) :
  leftover ∅ -> main disk json_loads torch_empty zmq_bind args = Ok (n, out) ->
  (exists cap, l1_capacity args = Ok cap /\ Zlen (pool_of (l1 (sm (srv n)))) = cap) /\
  exists adapters, @net_inv Adapter C (served models) any_ops (any_laws C models models_distinct) left adapters
    (arg_chunk_size args) registered n own_nil.
Proof using disk_ok torch_empty_length.
  intros HR. unfold main. destruct (l1_capacity args) as [cap|] eqn:Ecap; [|done]. simpl. unfold serve.
  destruct (build_l2s _ _ _) as [l2s|] eqn:El; [|done]. simpl. destruct (torch_empty cap) as [contents|] eqn:Et; [|done].
  simpl. destruct (zmq_bind _); [|done]. intros [= <- <-]. split.
  - exists cap. split; [done|]. rewrite <- (torch_empty_length cap contents Et). by destruct l2s.
  - exists (length l2s). apply new_net_inv; [done| |done]. by apply build_l2s_inv in El.
Qed.
End started.
