(* ===== verification/Serving.v ===== *)
(** A RETRIEVE among other requests.

    The chunks of a session are sent as views into the pool, after the L1 lock
    is given back; what makes that safe is that the session still holds them.
    Here one RETRIEVE runs beside any other threads of the server, which may do
    anything but give back its holds. *)
From S2P Require Import Prelude PyFloat Protocol Hasher Memory L1Manager Eviction L1Protocol.
From S2P Require Import L2 Threads Storage StoreController Prefetch Server MQ Evictor Resources Ownership Rely Interleaving ServerThreads.
Local Open Scope py_scope.
Local Open Scope Z_scope.

Lemma Forall2_pairs {X Y} (P : X -> Y -> Prop) xs ys :
  Forall2 P xs ys -> exists ps : list (X * Y), ps.*1 = xs /\ ps.*2 = ys /\ forall p, p ∈ ps -> P p.1 p.2.
Proof.
  induction 1 as [|x y xs ys Hp _ (ps & <- & <- & Hps)].
  - exists []. split_and!; [done|done|]. intros p Hp. by apply elem_of_nil in Hp.
  - exists ((x, y) :: ps). split_and!; [done|done|]. intros p [->|Hp']%elem_of_cons; [done|by apply Hps].
Qed.

Section serving.
Context {A : Type} (C : ChunkKey -> bytes) (ok : ChunkKey -> Prop) `{!L2Ops A} `{!L2Laws A C ok}.
Context (blake3 : bytes -> bytes) (adapters : nat) (cs : Z) (registered : Z -> EngineInstance -> Prop).
Context (rid : string) (i : Z) (keys : list ChunkKey).
Implicit Types (s : Server A) (n : Net A).

Definition session_has s (k : ChunkKey) : Prop := exists h, held (sm s) !! rid = Some h /\ k ∈ h.

(** What the other threads respect: the holds on the chunks stay, and the
    engine stays registered. *)
Definition leaves_session s s' : Prop :=
  (forall k, k ∈ keys -> session_has s k -> session_has s' k) /\
  (is_Some (instances s !! i) -> is_Some (instances s' !! i)).
Definition leaves_alone n n' : Prop := leaves_session (srv n) (srv n').

Notation sinv := (srv_inv C ok adapters cs registered).
Notation ninv := (net_inv C ok adapters cs registered).
Notation JS := (fun s => exists o, sinv s o).
Notation JN := (fun n => exists o, ninv n o).
Notation SS := (fun _ _ => True).
Notation SN := (fun _ _ => True).
Notation RS := (relied sinv srv_stays leaves_session).
Notation RN := (relied ninv net_stays leaves_alone).

Definition session_ready s : Prop := (forall k, k ∈ keys -> session_has s k) /\ is_Some (instances s !! i).

(** [kos]: where the chunks of the session are. *)
Definition at_slots (kos : list (ChunkKey * MemoryObj)) s : Prop :=
  forall ko, ko ∈ kos -> session_has s ko.1 /\ exists e, entries (l1 (sm s)) !! ko.1 = Some e /\ entry_obj e = ko.2.

Lemma session_ready_stays s s' : rtc RS s s' -> session_ready s -> session_ready s'.
Proof. induction 1 as [|s1 s2 s3 (_ & [H1 H2] & _) _ IH]; [done|]. intros [K1 K2]. apply IH. split; auto. Qed.

Lemma session_entry s k : JS s -> session_has s k ->
  exists e, entries (l1 (sm s)) !! k = Some e /\ byte_array (entry_obj e) (pool_of (l1 (sm s))) = C k.
Proof.
  intros [o Hi] (h & Hh & Hk). destruct (session_chunk C ok adapters cs registered s o rid h k Hi Hh Hk) as (e & ? & _ & _ & ?).
  eauto.
Qed.

Lemma at_slots_stay kos s s' : (forall k, k ∈ kos.*1 -> k ∈ keys) -> rtc RS s s' -> at_slots kos s -> at_slots kos s'.
Proof.
  intros Hsub. induction 1 as [|s1 s2 s3 (HG & [H1 _] & HJ) _ IH]; [done|]. intros Hs. apply IH.
  intros ko Hin. destruct (Hs ko Hin) as (Hh & e & He & Ho).
  assert (session_has s2 ko.1) as Hh2 by (apply H1; [apply Hsub, list_elem_of_fmap; eauto|done]).
  split; [done|]. destruct (session_entry s2 ko.1 HJ Hh2) as (e' & He' & _). exists e'. split; [done|].
  rewrite <- Ho. by apply (HG ko.1 e e').
Qed.

Lemma at_slots_bytes kos s ko : JS s -> at_slots kos s -> ko ∈ kos -> byte_array ko.2 (pool_of (l1 (sm s))) = C ko.1.
Proof.
  intros HJ Hs Hin. destruct (Hs ko Hin) as (Hh & e & He & <-). destruct (session_entry s ko.1 HJ Hh) as (e' & He' & Hb).
  rewrite He in He'. by injection He' as <-.
Qed.

(** *** The handler *)

Lemma under_get {B} (f : Server A -> res B) s (Q : res B -> Server A -> Prop) :
  (forall s1, rtc RS s s1 -> JS s1 -> Q (f s1) s1) -> under JS RS SS (server_get f) s Q.
Proof. intros H. apply under_atomic. intros s1 HR HJ. exists s1, (f s1). split; [done|]. by apply H. Qed.

Lemma under_sm_read {B} (m : M (Stack A) B) s (Q : res B -> Server A -> Prop) :
  (forall x x' r, m x = (x', r) -> x' = x) ->
  (forall s1, rtc RS s s1 -> JS s1 -> Q (snd (m (sm s1))) s1) -> under JS RS SS (on_sm (atomic m)) s Q.
Proof.
  intros Hm H s1 HR HJ _. simpl. specialize (H s1 HR HJ). destruct (m (sm s1)) as [x r] eqn:E. simpl in *.
  apply Hm in E as ->. by destruct s1.
Qed.

Lemma under_retrieve p s :
  tp_request_id p = rid -> tp_instance_id p = i ->
  (forall inst, instance_ok registered i inst ->
     ei_world_size inst <> 0 /\ op_keys blake3 cs (tp_op p) inst = Ok keys) ->
  session_ready s ->
  under JS RS SS (retrieve blake3 p) s (fun r s' => exists kos,
    kos.*1 = keys /\ at_slots kos s' /\ r = Ok (RChunks kos.*2 (post_send rid keys))).
Proof.
  intros Hrid Hid Hinst Hready. unfold retrieve. rewrite Hrid, Hid.
  apply under_bind, under_get. intros s1 HR1 HJ1. pose proof (session_ready_stays _ _ HR1 Hready) as Hready1.
  destruct Hready1 as [Hh1 [inst Hi1]]. rewrite Hi1.
  destruct (Hinst inst) as [Hws Hkeys]; [destruct HJ1 as [o HJ1]; by apply (sv_instances _ _ _ _ _ _ _ HJ1 i)|].
  apply under_bind, under_get. intros s2 HR2 HJ2. destruct HJ2 as [o2 HJ2].
  rewrite (sv_size _ _ _ _ _ _ _ HJ2), Hkeys.
  apply under_bind, under_sm_read; [by intros x x' r [= <- _]|]. intros s3 HR3 _.
  cbn [fst snd]. cbn beta iota.
  match goal with |- context [let '(_, _) := ?hits in _] => destruct hits as [l1_keys l2_keys] end.
  apply under_bind, under_sm_read.
  { intros x x' r. unfold zoom. destruct (read keys (l1 x)) as [y r'] eqn:E. apply read_pure in E as ->.
    intros [= <- _]. apply set_l1_id. }
  intros s4 HR4 HJ4. assert (session_ready s4) as [Hh4 _].
  { do 3 (eapply session_ready_stays; [eassumption|]). by eapply session_ready_stays. }
  destruct (read_spec C (l1 (sm s4)) keys) as (objs & E & Hf).
  { intros k Hk. destruct (session_entry s4 k HJ4 (Hh4 k Hk)) as (e & He & _). eauto. }
  destruct (Forall2_pairs _ _ _ Hf) as (kos & Hk1 & <- & Hkos).
  unfold zoom. rewrite E. cbn [fst snd]. unfold plift, py_floordiv. apply Z.eqb_neq in Hws. rewrite Hws. cbn [pbind].
  exists kos. split_and!; [done| |done]. intros ko Hin. split; [|by apply Hkos].
  apply Hh4. rewrite <- Hk1. apply list_elem_of_fmap. eauto.
Qed.

(** *** The request layer *)

Lemma relied_srv n n' : RN n n' -> RS (srv n) (srv n').
Proof. intros ([HG _] & HE & HJ). by split_and!. Qed.

Lemma rtc_relied_srv n n' : rtc RN n n' -> rtc RS (srv n) (srv n').
Proof. induction 1 as [|n1 n2 n3 H _ IH]; [constructor|]. econstructor; [by apply relied_srv|done]. Qed.

Lemma under_read_frames all kos n (Q : res (list bytes) -> Net A -> Prop) :
  (forall k, k ∈ all.*1 -> k ∈ keys) -> (forall ko, ko ∈ kos -> ko ∈ all) -> at_slots all (srv n) ->
  (forall n', at_slots all (srv n') -> Q (Ok (C <$> kos.*1)) n') -> under JN RN SN (read_frames kos.*2) n Q.
Proof.
  intros Hsub. revert n Q. induction kos as [|ko kos IH]; intros n Q Hin Hs HQ; [by apply HQ|].
  cbn [fmap list_fmap read_frames]. apply under_bind, under_atomic. intros n1 HR HJ.
  pose proof (at_slots_stay _ _ _ Hsub (rtc_relied_srv _ _ HR) Hs) as Hs1.
  eexists n1, _. split; [reflexivity|]. cbn beta iota.
  rewrite (at_slots_bytes _ (srv n1) ko HJ Hs1 (Hin _ (list_elem_of_here _ _))).
  apply under_bind, IH; [|done|].
  - intros ko' Hk. by apply Hin, list_elem_of_further.
  - intros n'. apply HQ.
Qed.

Lemma under_any {W B} (JW : W -> Prop) (RW SW : W -> W -> Prop) (p : prog W B) w : under JW RW SW p w (fun _ _ => True).
Proof. revert w. induction p as [r|f k IH]; intros w; [done|]. simpl. intros. apply IH. Qed.

Definition on_wire (m : msg) n : Prop := m ∈ wire n.

Lemma on_wire_prefix m n n' : wire n `prefix_of` wire n' -> on_wire m n -> on_wire m n'.
Proof. intros [l Hl] H. unfold on_wire. rewrite Hl. apply elem_of_app. by left. Qed.

Lemma on_wire_stays m n n' : rtc RN n n' -> on_wire m n -> on_wire m n'.
Proof. apply rtc_stable. intros n1 n2 ([_ Hw] & _). by apply on_wire_prefix. Qed.

(** The handler of a RETRIEVE, beside threads that keep [RN] and more; [F] holds
    until the callback, [G] from it on. *)
Section handler.
Context (J' : Net A -> Prop) (R' S' : Net A -> Net A -> Prop) (F G : Net A -> Prop).
Context (J_holds : forall n, J' n -> JN n) (R_relied : forall n n', R' n n' -> RN n n').
Context (S_wire : forall n n', S' n n' -> wire n `prefix_of` wire n').
Context (F_R : forall n n', R' n n' -> F n -> F n') (F_S : forall n n', S' n n' -> F n -> F n').
Context (F_srv : forall n n', srv n' = srv n -> F n -> F n').
Context (G_R : forall n n', R' n n' -> G n -> G n') (G_srv : forall n n', srv n' = srv n -> G n -> G n').
Context (callback : forall n, F n -> (forall k, k ∈ keys -> session_has (srv n) k) ->
  under J' R' S' (on_srv (post_send rid keys)) n (fun _ => G)).

Lemma rtc_relied n n' : rtc R' n n' -> rtc RN n n'.
Proof. induction 1 as [|n1 n2 n3 H _ IH]; [constructor|]. econstructor; [by apply R_relied|done]. Qed.

(** Beside the relation of this file and [F]. *)
Lemma under_also {B} (p : prog (Net A) B) n Q :
  F n -> under JN RN SN p n Q -> under J' R' S' p n (fun r n' => F n' /\ Q r n').
Proof. intros Hn Hp. apply under_always; [done..|]. by eapply under_sub; [..|exact Hp]. Qed.

Lemma under_handle_post identity uid p n :
  tp_request_id p = rid -> tp_instance_id p = i -> keys <> [] ->
  (forall inst, instance_ok registered i inst ->
     ei_world_size inst <> 0 /\ op_keys blake3 cs (tp_op p) inst = Ok keys) ->
  session_ready (srv n) -> F n ->
  under J' R' S' (handle blake3 identity uid (RqRetrieve p)) n
    (fun _ n' => on_wire (mkMsg identity uid true (BValue VNone) (C <$> keys)) n' /\ G n').
Proof.
  intros Hrid Hid Hne Hinst Hready HF. set (m := mkMsg _ _ _ _ _). unfold handle. apply under_try.
  assert (forall (r : res unit) n', on_wire m n' /\ G n' -> match r with
      Ok b => on_wire m n' /\ G n'
    | Raise e => under J' R' S' (atomic (send (mkMsg identity uid false (BExc e) []))) n' (fun _ n' => on_wire m n' /\ G n') end) as Hend.
  { intros [[]|e] n' [Hm HG]; [done|]. apply under_atomic. intros n1 HR _. eexists _, _. split; [reflexivity|].
    split; [by apply (on_wire_stays m n' n1), Hm; apply rtc_relied|].
    by apply (G_srv n1), (rtc_stable R' G n'). }
  apply under_bind. eapply under_mono.
  { apply under_also; [exact HF|]. apply (under_zoom JN RN SN JS RS SS (fun _ => True) srv set_srv); try done; [apply relied_srv|].
    by apply under_retrieve. }
  intros r n' (HF' & _ & kos & Hk & Hs & ->). cbn beta iota. unfold handle_ok.
  destruct kos as [|ko kos]; [by destruct Hne|]. change (is_chunk_result _) with true. cbn beta iota.
  assert (forall k, k ∈ (ko :: kos).*1 -> k ∈ keys) as Hsub by (intros k; by rewrite Hk).
  apply under_bind. unfold send_now. apply under_bind. eapply under_mono.
  { apply under_also; [exact HF'|]. by apply (under_read_frames (ko :: kos) (ko :: kos) n'
      (fun r n1 => at_slots (ko :: kos) (srv n1) /\ r = Ok (C <$> (ko :: kos).*1))). }
  intros r n1 (HF1 & Hs1 & ->). cbn beta iota. apply under_atomic. intros n2 HR _. eexists _, _. split; [reflexivity|]. cbn beta iota.
  rewrite Hk. set (n3 := mkNet _ _ _). apply (under_mono _ _ _ _ _ (fun _ n' => on_wire m n' /\ G n')); [|intros r' n4; apply Hend].
  apply under_always.
  - intros a b Hab. apply on_wire_stays. by apply rtc_once, R_relied.
  - intros a b Hab. by apply on_wire_prefix, S_wire.
  - unfold on_wire. simpl. apply elem_of_app. right. by apply list_elem_of_singleton.
  - apply callback; [by apply (F_srv n2 n3), (rtc_stable R' F n1)|]. intros k Hkk. rewrite <- Hk in Hkk.
    apply list_elem_of_fmap in Hkk as (ko' & -> & Hin).
    by apply (at_slots_stay _ _ _ Hsub (rtc_relied_srv _ _ (rtc_relied _ _ HR)) Hs1).
Qed.
End handler.

Notation SW := (fun n n' => wire n `prefix_of` wire n').

Lemma under_handle identity uid p n :
  tp_request_id p = rid -> tp_instance_id p = i -> keys <> [] ->
  (forall inst, instance_ok registered i inst ->
     ei_world_size inst <> 0 /\ op_keys blake3 cs (tp_op p) inst = Ok keys) ->
  session_ready (srv n) ->
  under JN RN SW (handle blake3 identity uid (RqRetrieve p)) n
    (fun _ => on_wire (mkMsg identity uid true (BValue VNone) (C <$> keys))).
Proof.
  intros Hrid Hid Hne Hinst Hready. eapply under_mono.
  - apply (under_handle_post JN RN SW (fun _ => True) (fun _ => True)); try done. intros n1 _ _. apply under_any.
  - by intros r n' [Hm _].
Qed.
End serving.

Section retrieve_claim.
Context {A : Type} (C : ChunkKey -> bytes) (ok : ChunkKey -> Prop) `{!L2Ops A} `{!L2Laws A C ok}.
Context (blake3 : bytes -> bytes) (adapters : nat) (cs : Z) (registered : Z -> EngineInstance -> Prop).

(** A RETRIEVE of chunks its session holds is answered with exactly their
    contents, as long as the other threads neither give back the holds of the
    session on these chunks nor unregister the engine. *)
Lemma retrieve_respected {O} `{Resource O} (Inv2 : Net A -> O -> Prop) F Q2 works t identity uid p keys (n : Net A) c' r :
  (forall w a b, a ≡ b -> Inv2 w a -> Inv2 w b) ->
  Forall (work_ok C ok blake3 cs registered) works ->
  net_inv C ok adapters cs registered n own_nil ->
  works !! t = Some (WHandle identity uid (RqRetrieve p)) ->
  (forall inst, instance_ok registered (tp_instance_id p) inst ->
     ei_world_size inst <> 0 /\ op_keys blake3 cs (tp_op p) inst = Ok keys) -> keys <> [] ->
  session_ready (tp_request_id p) (tp_instance_id p) keys (srv n) ->
  (exists os, threads_ok Inv2 (respecting F (leaves_alone (tp_request_id p) (tp_instance_id p) keys) t) Q2
     (n, thread_of blake3 <$> works) os) ->
  tsteps (n, thread_of blake3 <$> works) c' -> c'.2 !! t = Some (Done r) ->
  mkMsg identity uid true (BValue VNone) (C <$> keys) ∈ wire c'.1.
Proof.
  intros Hp2 Hw Hn Ht Hinst Hne Hready Hothers Hrun Hdone.
  destruct (run_under (net_inv C ok adapters cs registered) Inv2 net_stays
    F (leaves_alone (tp_request_id p) (tp_instance_id p) keys) t (net_inv_proper C ok adapters cs registered) Hp2
    (fun _ => all_given_back) Q2 (fun _ => on_wire (mkMsg identity uid true (BValue VNone) (C <$> keys)))
    (handle blake3 identity uid (RqRetrieve p)) (n, thread_of blake3 <$> works) c') as (t' & n0 & Ht' & Hu & HR).
  - by apply works_start.
  - exact Hothers.
  - simpl. by rewrite list_lookup_fmap, Ht.
  - eapply under_sub; [| | |by apply (under_handle C ok blake3 adapters cs registered)]; [by intros w []|by intros w w' []|by intros w w' [[_ Hw'] _]].
  - exact Hrun.
  - pose proof (eq_trans (eq_sym Ht') Hdone) as Heq. injection Heq as ->. simpl in Hu.
    apply (on_wire_stays C ok adapters cs registered (tp_request_id p) (tp_instance_id p) keys _ n0); [|exact Hu].
    clear - HR. induction HR as [|n1 n2 n3 [Hs _] _ IH]; [constructor|]. by eapply rtc_l.
Qed.
End retrieve_claim.

(** *** A small session *)

#[local] Existing Instance mock_laws.

Lemma holding_net_inv_of (left : Leftover) :
  leftover ∅ -> net_inv toy_C any_chunk 1 1 toy_registered (toy_net holding_stack) own_nil.
Proof.
  intros HR. assert (instance_ok toy_registered 7 toy_inst) as Hinst by done.
  split; [|done| |].
  - split; [| |exact toy_stack_loads|done|constructor|].
    + exists ∅. split; [done|]. split_and!; [|intros k tmp obj Hk; by apply elem_of_nil in Hk|intros ko Hk; by apply elem_of_nil in Hk].
      change (l1_inv toy_C (l1 holding_stack) (∅ ∪ (∅ ∪ ∅)) (∅ ⊎ (table_holds (<["r"%string := [ka]]> ∅) ⊎ ∅))).
      rewrite table_holds_insert by apply lookup_empty. change (table_holds ∅) with (∅ : hold_table).
      pose proof holding_stack_inv as Hi. rewrite no_holds_l in Hi. rewrite !(left_id_L ∅ (∪)).
      by rewrite !(right_id_L ∅ (⊎)).
    + change (map_Forall (fun (_ : string) (h : list ChunkKey) => NoDup h)
        (<["r"%string := [ka]]> ∅ : gmap string (list ChunkKey))).
      apply map_Forall_insert_2; [apply NoDup_singleton|apply map_Forall_empty].
    + assert (pending (observers (l1 holding_stack)) = [[ka]] /\ order (observers (l1 holding_stack)) = [ka]) as [E1 E2]
        by (vm_compute; done).
      change (obs_ok any_chunk (observers (l1 holding_stack))). split; rewrite ?E1, ?E2; [|apply NoDup_singleton].
      repeat constructor. by intros Hk%elem_of_nil.
  - apply map_Forall_insert_2; [done|apply map_Forall_empty].
  - apply map_Forall_insert_2; [by exists 7, toy_inst|apply map_Forall_empty].
Qed.

Lemma holding_net_inv : net_inv toy_C any_chunk 1 1 toy_registered (toy_net holding_stack) own_nil.
Proof. by apply holding_net_inv_of. Qed.

Lemma holding_ready : session_ready "r" 7 [ka] (srv (toy_net holding_stack)).
Proof.
  split; [intros k ->%list_elem_of_singleton; exists [ka]; split; [|apply list_elem_of_here]|exists toy_inst].
  - apply lookup_insert_eq.
  - apply lookup_insert_eq.
Qed.
