(* ===== verification/Still.v ===== *)
(** Threads of the server, for what concerns sessions.

    Almost every step of the server leaves the session tables and the queue of
    lookups alone.  [Ist] and [Gst] stand for a property of these and of their
    changes; this file shows that every thread keeps them, given that the few
    calls which do change a table or the queue do. *)
From S2P Require Import Prelude PyFloat Protocol Hasher Memory L1Manager Eviction L1Protocol.
From S2P Require Import L2 Threads Storage StoreController Prefetch Server MQ Evictor Resources Ownership Rely Interleaving ServerThreads.
Local Open Scope py_scope.
Local Open Scope Z_scope.

Notation anything := (fun _ _ => True) (only parsing).
Notation kept c := (fun _ c' => c' = c) (only parsing).
(** No matter what tokens are left. *)
Notation any_left := (fun _ : nat => True) (only parsing).

Section still.
Context {A T : Type} `{!L2Ops A} `{ET : Equiv T, RT : !Resource T, FT : !FreeResource T} (Ist : Stack A -> T -> Prop) (Gst : Stack A -> Stack A -> Prop) (Jst : job -> T -> Prop).
Context (Ist_proper : forall s a b, a ≡ b -> Ist s a -> Ist s b).
Context (End : T -> Prop) (End_nil : End r_nil).
Context (still_step : forall s s' c, hits s' = hits s -> held s' = held s -> jobs s' = jobs s -> Ist s c -> Ist s' c /\ Gst s s').
Context (still_pop : forall s j rest c, Ist s c -> jobs s = j :: rest ->
  exists d, Ist (set_jobs rest s) (r_add d c) /\ Gst s (set_jobs rest s) /\ Jst j d).
Context (still_job : forall r ks nb d n lks m g, Jst (r, ks, nb) d -> lks `prefix_of` drop n ks ->
  safe Ist Gst (resolve r (take n ks) (take m lks) g) d (fun r c => r = Ok tt -> End c)).

(** What a thread may have left at its end, and what one that succeeds may. *)
Notation ended := (fun _ c => End c).
Notation ended_ok := (fun r c => r = Ok tt -> End c).

(** *** The storage stack *)

Notation ksafe := (safe Ist Gst).

Lemma still_l1 {B} (m : M (L1 lref obs) B) c (Q : res B -> T -> Prop) : (forall r, Q r c) -> ksafe (on_l1 m) c Q.
Proof using FT still_step.
  intros HQ. apply free_section. intros s cF Hs. unfold zoom. destruct (m (l1 s)) as [x r].
  destruct (still_step s (set_l1 x s) (r_add c cF)) as [K1 K2]; try done. by exists (set_l1 x s), r, c.
Qed.

Lemma still_l2 j t c (Q : res (res nat) -> T -> Prop) : (forall r, Q r c) -> ksafe (on_l2 j t) c Q.
Proof.
  intros HQ. apply free_section. intros s cF Hs. destruct (l2s s !! j) as [a|].
  - destruct (run_task t _) as [[a' p'] r]. eexists _, _, c. split; [reflexivity|].
    match goal with |- Ist ?s' _ /\ _ => destruct (still_step s s' (r_add c cF)) as [K1 K2] end; try done; by split_and!.
  - destruct (still_step s s (r_add c cF)) as [K1 K2]; try done. by eexists s, _, c.
Qed.

Lemma still_read {B} (f : Stack A -> res B) c (Q : res B -> T -> Prop) :
  (forall r, Q r c) -> ksafe (atomic (fun s => (s, f s))) c Q.
Proof.
  intros HQ. apply free_section. intros s cF Hs. destruct (still_step s s (r_add c cF)) as [K1 K2]; try done.
  by exists s, (f s), c.
Qed.

(** A step that leaves the session table alone, whatever it returns. *)
Ltac step := apply safe_bind; first [apply still_l1 | apply still_l2 | apply still_read]; intros [?|?]; [|done].
Ltac final := first [done | apply still_l1; done | apply still_l2; done | apply still_read; done].

Lemma still_submit_all n t c : ksafe (submit_all n t) c (kept c).
Proof.
  unfold submit_all. enough (forall js rs, ksafe (pfor_acc js rs
    (fun rs j => pbind (on_l2 j t) (fun r => pret (rs ++ [r])))) c (kept c)) as H by apply H.
  induction js as [|j js IH]; intros rs; [done|]. cbn [pfor_acc]. apply safe_bind. step. apply IH.
Qed.

(** Going on from a part that leaves the table alone. *)
Lemma still_bind {B D} (p : prog (Stack A) B) (q : B -> prog (Stack A) D) c Q :
  ksafe p c (kept c) -> (forall b, ksafe (q b) c Q) -> (forall e, Q (Raise e) c) -> ksafe (pbind p q) c Q.
Proof. intros Hp Hq HE. apply safe_bind. eapply safe_mono; [exact Hp|]. intros [b|e] c' ->; [apply Hq|apply HE]. Qed.

Lemma still_write_back ks c : ksafe (write_back ks) c (kept c).
Proof.
  step. destruct (filter _ ks) as [|k l]; [done|]. step. apply still_bind; [apply still_submit_all| |done].
  intros fs. unfold plift. destruct (future_results fs); cbn [pbind]; [|done]. final.
Qed.

Lemma still_store_round c : ksafe store_round c (kept c).
Proof. unfold store_round. apply still_bind; [unfold pop_pending; final| |done]. intros ks. apply still_write_back. Qed.

Lemma still_scan target victims ks c : ksafe (scan_victims target victims ks) c (kept c).
Proof.
  revert victims. induction ks as [|k ks IH]; intros victims; [done|]. cbn [scan_victims].
  destruct (target <=? Zlen victims); [done|]. step. apply IH.
Qed.

Lemma still_evict c : ksafe evict_thread c (kept c).
Proof.
  unfold evict_thread. step. unfold plift. destruct (below_watermark _) as [[]|]; cbn [pbind]; [done| |done].
  step. destruct (victim_target _ _); cbn [pbind]; [|done]. apply still_bind; [apply still_scan| |done]. intros vs. by step.
Qed.

(** *** Prefetching *)

Lemma still_lookup_l2s missing c : ksafe (lookup_l2s missing) c (kept c).
Proof.
  destruct missing as [|k ks]; [done|]. unfold lookup_l2s. step. apply still_bind; [apply still_submit_all|done|done].
Qed.

Lemma still_reserve_load ks nb lks objs c :
  ksafe (reserve_load_loop ks nb lks objs) c
    (fun r c' => c' = c /\ forall lo, r = Ok lo -> exists l, lo.1 = lks ++ l /\ l `prefix_of` ks).
Proof.
  revert lks objs. induction ks as [|k ks IH]; intros lks objs; cbn [reserve_load_loop].
  { split; [done|]. intros lo [= <-]. exists []. by rewrite app_nil_r. }
  apply safe_bind, still_l1. intros [dict|e]; [|done].
  destruct (dict !! k) as [[obj|]|]; [| |done].
  - eapply safe_mono; [apply IH|]. cbn beta. intros r c' [-> Hr]. split; [done|].
    intros lo ->. destruct (Hr lo eq_refl) as (l & -> & Hl).
    exists (k :: l). rewrite <- app_assoc. split; [done|]. by apply prefix_cons.
  - split; [done|]. intros lo [= <-]. exists []. rewrite app_nil_r. split; [done|apply prefix_nil].
Qed.

Lemma still_load_from lks objs hs c : ksafe (load_from_l2s lks objs hs) c (kept c).
Proof.
  destruct lks as [|k ks]; [done|]. unfold load_from_l2s. step.
  generalize (sorted_desc (hit_of hs) (seq 0 a)) as js. intros js. generalize 0%nat as loaded.
  induction js as [|j js IH]; intros loaded; [done|]. cbn [load_loop].
  destruct (_ || _); [done|]. step. unfold future_result, plift. destruct a0 as [m|]; cbn [pbind]; [apply IH|done].
Qed.

Lemma still_hits elapsed ks nb c :
  ksafe (prefetch_hits elapsed ks nb) c
    (fun r c' => c' = c /\ forall h, r = Ok h -> exists n lks m, h.1 = (take n ks, take m lks) /\ lks `prefix_of` drop n ks).
Proof.
  apply safe_bind, still_l1. intros [n|e]; [|done].
  destruct nb as [nb|]; [|split; [done|]; intros h [= <-]; exists n, [], 0%nat; split; [done|apply prefix_nil]].
  apply still_bind; [apply still_lookup_l2s| |done]. intros hs. apply safe_bind.
  eapply safe_mono; [apply still_reserve_load|]. intros [lo|e] c' [-> Hlo]; [|done]. destruct (Hlo lo eq_refl) as (l & Hl & Hp).
  simpl in Hl. rewrite Hl. assert (l `prefix_of` drop n ks) as Hpre.
  { etransitivity; [exact Hp|]. apply prefix_take. }
  apply still_bind; [apply still_load_from| |done]. intros m. do 2 step. unfold plift.
  destruct (load_gbps _ _ _) as [g|]; cbn [pbind]; [|done]. split; [done|]. intros h [= <-]. by exists n, l, m.
Qed.

Lemma still_prefetch elapsed r ks nb d : Jst (r, ks, nb) d -> ksafe (prefetch elapsed r ks nb) d ended_ok.
Proof.
  intros Hj. apply safe_prefetch_hits. eapply safe_mono; [apply still_hits|]. intros [[[ks1 ks2] g]|e] c [-> Hh]; [|done].
  destruct (Hh _ eq_refl) as (n & lks & m & [= -> ->] & Hp). by apply (still_job r ks nb).
Qed.

Lemma still_pop_job :
  ksafe (atomic pop_job) r_nil (fun r d => exists oj, r = Ok oj /\ match oj with Some j => Jst j d | None => d = r_nil end).
Proof.
  apply free_section. intros s cF Hs. unfold pop_job. destruct (jobs s) as [|j rest] eqn:Ej.
  - destruct (still_step s s (r_add r_nil cF)) as [K1 K2]; try done. eexists s, _, r_nil. split_and!; [done|done|done|by eexists].
  - apply (Ist_proper s _ cF (r_nil_l cF)) in Hs. destruct (still_pop s j rest cF Hs Ej) as (d & K1 & K2 & K3).
    eexists _, _, d. split_and!; [done|done|done|by eexists].
Qed.

Lemma still_prefetch_round elapsed : ksafe (prefetch_round elapsed) r_nil ended_ok.
Proof.
  apply safe_bind. eapply safe_mono; [apply still_pop_job|]. intros r d ([[[rr ks] nb]|] & -> & Hd); [by apply still_prefetch|].
  intros _. by rewrite Hd.
Qed.

(** *** The server *)

Context (blake3 : bytes -> bytes) (cs : Z) (registered : Z -> EngineInstance -> Prop).
Context (Gin : gmap Z EngineInstance -> gmap Z EngineInstance -> Prop) (Gin_refl : forall m, Gin m m).

Definition srv_plain (s : Server A) (c : T) : Prop :=
  Ist (sm s) c /\ chunk_size s = cs /\ map_Forall (instance_ok registered) (instances s).
Definition srv_change (s s' : Server A) : Prop := Gst (sm s) (sm s') /\ Gin (instances s) (instances s').

Notation vsafe := (safe srv_plain srv_change).

Lemma still_on_sm {B} (p : prog (Stack A) B) c Q : ksafe p c Q -> vsafe (on_sm p) c Q.
Proof using FT Gin_refl.
  apply safe_zoom; [by intros s c' []|by intros s x c1 c2 (_ & K1 & K2) H|]. intros s x Hx. split; [done|apply Gin_refl].
Qed.

Lemma srv_change_same s s' c : srv_plain s c -> sm s' = sm s -> Gin (instances s) (instances s') -> srv_change s s'.
Proof using FT still_step. intros [Hs _] E HG. split; [|done]. rewrite E. by apply (still_step (sm s) (sm s) c). Qed.

Lemma still_get {B} (f : Server A -> res B) c (Q : res B -> T -> Prop) :
  (forall s c', srv_plain s c' -> Q (f s) c) -> vsafe (server_get f) c Q.
Proof using FT still_step Gin_refl.
  intros HQ. apply free_section. intros s cF Hs. exists s, (f s), c.
  split_and!; [done|done|eapply srv_change_same; [exact Hs|done|apply Gin_refl]|by eapply HQ].
Qed.

Lemma still_srv_bind {B D} (p : prog (Server A) B) (q : B -> prog (Server A) D) c (Q : res D -> T -> Prop) :
  vsafe p c (kept c) -> (forall b, vsafe (q b) c Q) -> (forall e, Q (Raise e) c) -> vsafe (pbind p q) c Q.
Proof using Type. intros Hp Hq HE. apply safe_bind. eapply safe_mono; [exact Hp|]. intros [b|e] c' ->; [apply Hq|apply HE]. Qed.

Lemma still_instance j c (Q : res EngineInstance -> T -> Prop) :
  (forall inst, instance_ok registered j inst -> Q (Ok inst) c) -> (forall e, Q (Raise e) c) -> vsafe (instance_of j) c Q.
Proof using FT still_step Gin_refl.
  intros K1 K2. apply still_get. intros s c' (_ & _ & Hi). specialize (Hi j).
  destruct (instances s !! j) as [inst|]; [by apply K1, Hi|apply K2].
Qed.

(** The session calls a request makes, by a thread with [c] tokens, keep [Ist]
    and are of [Gst]. *)
Definition request_still (rq : request) (c : T) : Prop :=
  match rq with
  | RqRegister p =>
      instance_ok registered (rp_instance_id p)
        (mkEngineInstance (rp_rank p) (rp_model p) (rp_world_size p) (rp_block_size p) (rp_chunk_nbytes p)) /\
      forall m inst, Gin m (<[rp_instance_id p := inst]> m)
  | RqUnregister j => forall m, Gin m (delete j m)
  | RqLookup p => forall nb ks, lookup_keys blake3 cs nb p = Ok ks -> ksafe (start_session (lp_request_id p) ks nb) c ended
  | RqFreeLocks p => ksafe (release_first (fp_request_id p) (fp_num_chunks p * fp_world_size p)) c ended
  | RqEndSession r => ksafe (Prefetch.end_session r) c ended
  | RqRetrieve p => forall inst ks, instance_ok registered (tp_instance_id p) inst ->
      op_keys blake3 cs (tp_op p) inst = Ok ks -> ksafe (release (tp_request_id p) (Some ks)) c ended
  | _ => True
  end.

(** The callback of a chunk result keeps them as well. *)
Definition result_still (r : res (result A)) (c : T) : Prop :=
  End c /\ match r with Ok (RChunks _ post) => vsafe post c ended | _ => True end.

Lemma still_copy_blobs ws c : vsafe (copy_blobs ws) c (kept c).
Proof.
  induction ws as [|[[k obj] blob] ws IH]; [done|]. cbn [copy_blobs]. apply still_srv_bind; [by apply still_on_sm, still_l1|done|done].
Qed.

Lemma still_store p c : End c -> vsafe (store blake3 p) c result_still.
Proof.
  intros Hc. apply safe_bind, still_instance; [|done]. intros inst _. apply safe_bind, still_get. intros s _ _.
  destruct (op_keys _ _ _ _) as [ks|]; [|done]. apply still_srv_bind; [by apply still_on_sm, still_l1| |done]. intros r.
  apply still_srv_bind; [apply still_copy_blobs| |done]. intros _.
  apply still_srv_bind; [by apply still_on_sm, still_l1|done|done].
Qed.

Lemma still_retrieve p c : End c -> request_still (RqRetrieve p) c -> vsafe (retrieve blake3 p) c result_still.
Proof.
  intros Hc Ho. apply safe_bind, still_instance; [|done]. intros inst Hinst. apply safe_bind, still_get.
  intros s c' (_ & -> & _). destruct (op_keys blake3 cs (tp_op p) inst) as [ks|] eqn:Ek; [|done].
  apply still_srv_bind; [by apply still_on_sm, still_read| |done]. intros resolved. cbn beta iota.
  match goal with |- context [let '(_, _) := ?hits in _] => destruct hits as [l1_keys l2_keys] end.
  apply still_srv_bind; [by apply still_on_sm, still_l1| |done]. intros objs. unfold plift.
  destruct (py_floordiv l1_keys _); [|done]. cbn [pbind]. destruct (py_floordiv l2_keys _); [|done]. cbn [pbind].
  split; [done|]. apply still_srv_bind; [by apply still_on_sm, still_l1| |done]. intros _. apply still_on_sm. by apply (Ho inst).
Qed.

(** A last call that changes a session. *)
Lemma still_call (p : prog (Stack A) unit) v c : ksafe p c ended -> vsafe (let! _ := on_sm p in pret (RValue v)) c result_still.
Proof using FT Gin_refl. intros Hp. apply safe_bind, still_on_sm. eapply safe_mono; [exact Hp|]. by intros [[]|e] c' Hc. Qed.

Lemma still_dispatch rq c : End c -> request_still rq c -> vsafe (dispatch_request blake3 rq) c result_still.
Proof using FT still_step Gin_refl.
  intros Hc Ho. destruct rq as [|p|j|p|p|p|p|p|r|p]; cbn [dispatch_request].
  - by apply still_get.
  - destruct Ho as [Hinst HG]. apply still_srv_bind with (c := c); [|done|done]. apply free_section.
    intros s cF Hs. eexists _, _, c. split; [reflexivity|].
    split_and!; [|eapply srv_change_same; [exact Hs|done|apply HG]|done].
    destruct Hs as (K1 & K2 & K3). split_and!; [done|done|]. by apply map_Forall_insert_2.
  - apply free_section. intros s cF Hs. eexists _, _, c. split; [reflexivity|].
    split_and!; [|eapply srv_change_same; [exact Hs|done|apply Ho]|done].
    destruct Hs as (K1 & K2 & K3). split_and!; [done|done|]. by apply map_Forall_delete.
  - apply safe_bind, still_get. intros s _ _. apply safe_bind, still_get. intros s' c' (_ & -> & _).
    destruct (lookup_keys blake3 cs _ p) as [ks|] eqn:Ek; [|done]. by eapply still_call, Ho.
  - apply still_srv_bind with (c := c); [by apply still_on_sm, still_read| |done]. intros [[[a b] g]|]; [|done]. unfold plift.
    destruct (py_floordiv _ _); [|done]. by apply still_get.
  - by apply still_store.
  - by apply still_retrieve.
  - by apply still_call.
  - by apply still_call.
  - done.
Qed.

(** *** All threads *)

Definition net_plain (n : Net A) (c : T) : Prop := srv_plain (srv n) c.
Definition net_change (n n' : Net A) : Prop := srv_change (srv n) (srv n').
Notation wsafe := (safe net_plain net_change).

Lemma still_on_srv {B} (p : prog (Server A) B) c Q : vsafe p c Q -> wsafe (on_srv p) c Q.
Proof. by apply safe_zoom. Qed.

Lemma still_net {B} (m : M (Net A) B) c (Q : res B -> T -> Prop) :
  (forall n n' r, m n = (n', r) -> srv n' = srv n) -> (forall r, Q r c) -> wsafe (atomic m) c Q.
Proof.
  intros Hm HQ. apply free_section. intros n cF Hn. destruct (m n) as [n' r] eqn:E. apply Hm in E. exists n', r, c.
  unfold net_plain, net_change. rewrite E. split_and!; [done|done| |apply HQ].
  eapply srv_change_same; [exact Hn|done|apply Gin_refl].
Qed.

Lemma still_send m c (Q : res unit -> T -> Prop) : (forall r, Q r c) -> wsafe (atomic (send m)) c Q.
Proof. apply still_net. by intros n n' r [= <- _]. Qed.

Lemma still_read_frames chunks c : wsafe (read_frames chunks) c (kept c).
Proof.
  induction chunks as [|obj chunks IH]; [done|]. cbn [read_frames]. apply safe_bind, still_net; [by intros n n' r [= <- _]|].
  intros [b|e]; [|done]. apply safe_bind. eapply safe_mono; [exact IH|]. by intros [bs|e] c' ->.
Qed.

Lemma still_handle identity uid rq c : End c -> request_still rq c -> wsafe (handle blake3 identity uid rq) c ended.
Proof.
  intros Hc Ho. unfold handle. apply safe_try.
  assert (forall (r : res unit) c, End c -> match r with
      Ok _ => End c | Raise e => wsafe (atomic (send (mkMsg identity uid false (BExc e) []))) c ended end) as Hend.
  { intros [[]|e] c' Hc'; [done|by apply still_send]. }
  apply safe_bind, still_on_srv. eapply safe_mono; [by apply still_dispatch|].
  intros [r|e] c' [Hc' Hr]; [|by apply (Hend (Raise e))]. unfold handle_ok. destruct r as [v|chunks post]; cbn [is_chunk_result].
  - unfold plift. cbn [pbind dumps]. apply still_send. intros r'. by apply Hend.
  - destruct chunks as [|obj chunks]; [by apply (Hend (Raise PicklingError))|].
    apply safe_bind, safe_bind. eapply safe_mono; [apply still_read_frames|]. intros [bs|e] c'' ->; [|by apply (Hend (Raise e))].
    apply still_net; [by intros n n' r [= <- _]|]. intros [[]|e]; [|by apply (Hend (Raise e))].
    apply still_on_srv. eapply safe_mono; [exact Hr|]. intros r' c'' Hr'. by apply Hend.
Qed.

(** What a thread has left; of a prefetch worker that fails nothing is said. *)
Definition work_ended (w : work) (r : res unit) (c : T) : Prop :=
  match w with WPrefetch _ => r = Ok tt -> End c | _ => End c end.

Definition work_still (w : work) : Prop := match w with WHandle _ _ rq => request_still rq r_nil | _ => True end.

Lemma still_work w : work_still w -> wsafe (thread_of blake3 w) r_nil (work_ended w).
Proof.
  destruct w as [identity uid rq|elapsed| | |]; intros Hw; cbn [thread_of].
  - by apply still_handle.
  - apply still_on_srv, still_on_sm, still_prefetch_round.
  - apply still_on_srv, still_on_sm. eapply safe_mono; [apply still_store_round|by intros r c ->].
  - apply still_on_srv, still_on_sm. eapply safe_mono; [apply still_evict|by intros r c ->].
  - apply still_net; [|done]. intros n n' r. unfold flush, modify. intros [= <- _]. by destruct (send_queue n).
Qed.
End still.

(** The same, of no matter what is left. *)
Lemma still_work_any {A} `{!L2Ops A} (Ist : Stack A -> nat -> Prop) (Gst : Stack A -> Stack A -> Prop) (Jst : job -> nat -> Prop)
    (blake3 : bytes -> bytes) cs registered (Gin : gmap Z EngineInstance -> gmap Z EngineInstance -> Prop) w :
  (forall s s' c, hits s' = hits s -> held s' = held s -> jobs s' = jobs s -> Ist s c -> Ist s' c /\ Gst s s') ->
  (forall s j rest c, Ist s c -> jobs s = j :: rest ->
     exists d, Ist (set_jobs rest s) (d + c)%nat /\ Gst s (set_jobs rest s) /\ Jst j d) ->
  (forall r ks nb d n lks m g, Jst (r, ks, nb) d -> lks `prefix_of` drop n ks ->
     safe Ist Gst (resolve r (take n ks) (take m lks) g) d anything) ->
  (forall m, Gin m m) -> work_still Ist Gst any_left blake3 cs registered Gin w ->
  safe (net_plain Ist cs registered) (net_change Gst Gin) (thread_of blake3 w) 0%nat anything.
Proof.
  intros Hstep Hpop Hjob HG Hw. eapply safe_mono; [|done].
  apply (still_work Ist Gst Jst ltac:(by intros s a b <-) any_left I Hstep Hpop); [|done|done].
  intros r ks nb d n lks m g Hj Hl. eapply safe_mono; [by eapply Hjob|done].
Qed.
