(* ===== verification/Sessions.v ===== *)
(** What requests leave to each other's sessions.

    Only the requests that name a session, the jobs queued for it, and the
    unregistration of its engine touch what [Serving] relies on; so a RETRIEVE
    is served correctly beside any requests of other sessions, and beside the
    RETRIEVEs of the other ranks of its own. *)
From S2P Require Import Prelude PyFloat Protocol Hasher Memory L1Manager Eviction L1Protocol.
From S2P Require Import L2 Threads Storage StoreController Prefetch Server MQ Evictor Resources Ownership Rely Interleaving ServerThreads Serving Still.
Local Open Scope py_scope.
Local Open Scope Z_scope.

(** What is found in L1 and then loaded is a prefix of what was looked up. *)
Lemma take_found_prefix {X} n m (lks keys : list X) : lks `prefix_of` drop n keys -> (take n keys ++ take m lks) `prefix_of` keys.
Proof.
  intros [l Hl]. exists (drop m lks ++ l). rewrite <- app_assoc, (app_assoc (take m lks)), take_drop, <- Hl.
  by rewrite take_drop.
Qed.

Section sessions.
Context {A : Type} `{!L2Ops A} (blake3 : bytes -> bytes) (cs : Z) (registered : Z -> EngineInstance -> Prop).
Context (rid : string) (i : Z) (ks mine : list ChunkKey) (ks_NoDup : NoDup ks).
Implicit Types s : Stack A.

(** Lookups of the session are for [ks], or for nothing when its deployment is
    not known. *)
Definition lookup_of (j : job) : Prop := j.1.1 = rid -> j.1.2 `prefix_of` ks.

Definition queued s : nat := length (filter (fun j : job => j.1.1 = rid) (jobs s)).
Definition resolved s : Prop := exists v, hits s !! rid = Some (Some v).
Definition in_table s (k : ChunkKey) : Prop := exists h, held s !! rid = Some h /\ k ∈ h.
Definition table s : list ChunkKey := default [] (held s !! rid).

Lemma elem_of_table s k : k ∈ table s <-> in_table s k.
Proof.
  unfold table, in_table. destruct (held s !! rid) as [h|]; simpl.
  - split; [intros Hk; by exists h|]. by intros (h' & [= <-] & Hk).
  - split; [intros Hk; by apply elem_of_nil in Hk|]. by intros (h' & Hh & _).
Qed.

(** At most one lookup of the session is under way: queued, or a token of the
    thread that makes or resolves it; until then the session holds nothing. *)
Record one_lookup s (c : nat) : Prop := {
  ol_jobs : Forall lookup_of (jobs s);
  ol_one : (queued s + c <= 1)%nat;
  ol_idle : (queued s + c = 1)%nat -> ~ resolved s /\ forall k, ~ in_table s k
}.

(** A resolved lookup of [a + b] chunks has put those of [mine] in the table,
    which is in the order of the lookup. *)
Definition answer_held s : Prop :=
  forall a b g, hits s !! rid = Some (Some (a, b, g)) ->
    0 <= a + b <= Zlen ks /\ table s `sublist_of` ks /\
    forall k, k ∈ mine -> k ∈ take (Z.to_nat (a + b)) ks -> in_table s k.

(** What the others leave: the holds on [mine], and an answer as it is, to which
    no holds are added. *)
Definition holds_stay s s' : Prop := forall k, k ∈ mine -> in_table s k -> in_table s' k.
Definition answer_stays s s' : Prop := forall v,
  hits s !! rid = Some (Some v) -> hits s' !! rid = Some (Some v) /\ table s' `sublist_of` table s.
Record spares s s' : Prop := { sp_holds : holds_stay s s'; sp_answer : answer_stays s s'; sp_held : answer_held s -> answer_held s' }.
Definition engine_stays (m m' : gmap Z EngineInstance) : Prop := is_Some (m !! i) -> is_Some (m' !! i).

(** [strict]: of all threads but one. *)
Context (strict : Prop).
Definition spares_if s s' : Prop := answer_stays s s' /\ (strict -> spares s s').
Definition engine_stays_if (m m' : gmap Z EngineInstance) : Prop := strict -> engine_stays m m'.

Notation ksafe := (safe one_lookup spares_if).

(** Steps that leave the tables of the session as they are. *)
Lemma spares_same s s' : hits s' !! rid = hits s !! rid -> held s' !! rid = held s !! rid -> spares s s'.
Proof.
  intros E1 E2. assert (forall k, in_table s k <-> in_table s' k) as Ht by (intros k; unfold in_table; by rewrite E2).
  split.
  - intros k _. apply Ht.
  - intros v Hv. split; [exact (eq_trans E1 Hv)|]. unfold table. by rewrite E2.
  - intros H a b g Hh. destruct (H a b g (eq_trans (eq_sym E1) Hh)) as (H1 & H2 & H3).
    split; [done|]. split; [unfold table; by rewrite E2|]. intros k Hk1 Hk2. by apply Ht, H3.
Qed.

Lemma spares_any s s' : spares s s' -> spares_if s s'.
Proof. intros H. split; [apply H|done]. Qed.

Lemma one_lookup_same s s' c :
  hits s' !! rid = hits s !! rid -> held s' !! rid = held s !! rid -> jobs s' = jobs s -> one_lookup s c -> one_lookup s' c.
Proof.
  intros E1 E2 E3 [H1 H2 H3]. unfold queued in *. split; unfold queued, resolved, in_table in *; rewrite E3; [done|done|].
  intros Hq. destruct (H3 Hq) as [K1 K2]. split; [|intros k; rewrite E2; apply K2].
  intros [v Hv]. apply K1. exists v. exact (eq_trans (eq_sym E1) Hv).
Qed.

Lemma session_step s s' c :
  hits s' = hits s -> held s' = held s -> jobs s' = jobs s -> one_lookup s c -> one_lookup s' c /\ spares_if s s'.
Proof.
  intros E1 E2 E3 H. split; [apply (one_lookup_same s); [by rewrite E1|by rewrite E2|done|done]|].
  apply spares_any, spares_same; [by rewrite E1|by rewrite E2].
Qed.

(** A job taken from the queue comes with the token. *)
Definition token_of (j : job) (d : nat) : Prop := lookup_of j /\ (j.1.1 = rid -> d = 1%nat).

Lemma session_pop s j rest c : one_lookup s c -> jobs s = j :: rest ->
  exists d, one_lookup (set_jobs rest s) (d + c) /\ spares_if s (set_jobs rest s) /\ token_of j d.
Proof.
  intros [H1 H2 H3] E. unfold queued in *. rewrite E in *. apply Forall_cons in H1 as [Hj H1]. rewrite filter_cons in H2, H3.
  destruct (decide (j.1.1 = rid)) as [Hr|Hr]; [exists 1%nat|exists 0%nat]; simpl in *;
    (split_and!; [|by apply spares_any, spares_same|by split]); (split; unfold queued; simpl; [done|lia|]); intros Hq;
    apply H3; lia.
Qed.

(** *** The calls that change the tables *)

Lemma backed_keys l1_keys lks : (l1_keys ++ lks) `prefix_of` ks ->
  fromkeys (l1_keys ++ lks) = take (Z.to_nat (Zlen l1_keys + Zlen lks)) ks.
Proof using ks_NoDup.
  intros [l Hl]. rewrite fromkeys_NoDup by (apply (proj1 (NoDup_app _ l)); by rewrite <- Hl).
  rewrite Hl. unfold Zlen. rewrite <- Nat2Z.inj_add, Nat2Z.id, <- length_app. by rewrite take_app_length.
Qed.

Lemma found_length (l1_keys lks : list ChunkKey) :
  (l1_keys ++ lks) `prefix_of` ks -> 0 <= Zlen l1_keys + Zlen lks <= Zlen ks.
Proof. intros [l ->]. unfold Zlen. rewrite !length_app. lia. Qed.

Lemma still_resolve r l1_keys lks g d :
  (r = rid -> d = 1%nat /\ (l1_keys ++ lks) `prefix_of` ks) -> ksafe (resolve r l1_keys lks g) d anything.
Proof using ks_NoDup.
  intros Hr. apply safe_bind. apply (safe_mono _ _ _ _ anything).
  2: { intros [[]|e] c _; [done| |done]. by apply (still_l1 _ _ session_step). }
  apply token_section. intros s cF Hs. unfold publish. destruct (hits s !! r) as [h|] eqn:Eh.
  2: { exists s, (Ok false), d. split_and!; [done|done| |done]. by apply spares_any, spares_same. }
  destruct (decide (r = rid)) as [->|Hne].
  - destruct (Hr eq_refl) as [-> Hp]. destruct Hs as [H1 H2 H3]. eexists _, _, 0%nat. split; [reflexivity|]. split_and!; [| |done].
    + split; unfold queued in *; simpl; [done|lia|lia].
    + apply spares_any. destruct H3 as [K1 K2]; [lia|]. split.
      * intros k _ Hk. by destruct (K2 k).
      * intros v Hv. destruct K1. by exists v.
      * intros _ a b g'. simpl. rewrite !lookup_insert_eq. intros [= <- <- <-]. split; [by apply found_length|].
        split; [unfold table; simpl; rewrite lookup_insert_eq; simpl; rewrite backed_keys by done; apply sublist_take|].
        intros k _ Hk. exists (fromkeys (l1_keys ++ lks)). simpl. rewrite lookup_insert_eq. split; [done|]. by rewrite backed_keys.
  - eexists _, _, d. split; [reflexivity|]. split_and!; [|apply spares_any, spares_same; simpl; by rewrite lookup_insert_ne|done].
    eapply one_lookup_same; [..|exact Hs]; simpl; [by rewrite lookup_insert_ne|by rewrite lookup_insert_ne|done].
Qed.

Lemma session_job r keys nb d n lks m g :
  token_of (r, keys, nb) d -> lks `prefix_of` drop n keys -> ksafe (resolve r (take n keys) (take m lks) g) d anything.
Proof using ks_NoDup.
  intros [Hj Hd] Hl. apply still_resolve. intros Hr. split; [by apply Hd|]. etransitivity; [|by apply Hj].
  by apply take_found_prefix.
Qed.

Lemma del_held_others released l k : k ∉ released -> k ∈ l -> k ∈ (del_held released l).1.
Proof.
  revert l. induction released as [|r released IH]; intros l Hn Hk; [done|]. simpl.
  apply not_elem_of_cons in Hn as [Hne Hn]. case_decide; [|done]. apply IH; [done|]. by apply elem_of_os_del.
Qed.

Lemma del_held_sub released l k : k ∈ (del_held released l).1 -> k ∈ l.
Proof.
  revert l. induction released as [|r released IH]; intros l Hk; [done|]. simpl in Hk.
  case_decide; [|done]. apply IH in Hk. by apply elem_of_os_del in Hk as [_ Hk].
Qed.

Lemma del_held_sublist released l : (del_held released l).1 `sublist_of` l.
Proof.
  revert l. induction released as [|r released IH]; intros l; [done|]. simpl. case_decide; [|done].
  etransitivity; [apply IH|]. apply sublist_filter.
Qed.

Lemma release_shrinks s h released :
  held s !! rid = Some h -> table (set_held (<[rid := (del_held released h).1]> (held s)) s) `sublist_of` table s.
Proof. intros Eh. unfold table. simpl. rewrite lookup_insert_eq, Eh. apply del_held_sublist. Qed.

(** What a release may not touch. *)
Definition apart_release (r : string) (keys : option (list ChunkKey)) : Prop :=
  r <> rid \/ exists l, keys = Some l /\ forall k, k ∈ mine -> k ∉ l.

Lemma release_spares s h h' d released :
  held s !! rid = Some h -> del_held released h = (h', d) -> (forall k, k ∈ mine -> k ∉ released) ->
  spares s (set_held (<[rid := h']> (held s)) s).
Proof.
  intros Eh Ed Hr. pose proof (release_shrinks s h released Eh) as Hsub. rewrite Ed in Hsub. cbn [fst] in Hsub.
  assert (holds_stay s (set_held (<[rid := h']> (held s)) s)) as Hst.
  { intros k Hk (h0 & Hh0 & Hin). rewrite Eh in Hh0. injection Hh0 as <-. exists h'. simpl. rewrite lookup_insert_eq.
    split; [done|]. replace h' with (del_held released h).1 by by rewrite Ed. by apply del_held_others; [apply Hr|]. }
  split; [done|by intros v Hv|]. intros H a b g Hh. destruct (H a b g Hh) as (K1 & K2 & K3).
  split; [done|]. split; [by etransitivity|]. intros k H1 H2. by apply Hst, K3.
Qed.

Lemma still_release r keys c : (strict -> apart_release r keys) -> ksafe (release r keys) c anything.
Proof.
  intros Hr. apply still_bind; [|intros released; by apply (still_l1 _ _ session_step)|done].
  apply token_section. intros s cF Hs. unfold take_held. destruct (held s !! r) as [h|] eqn:Eh.
  2: { eexists s, _, c. split_and!; [done|done| |done]. by apply spares_any, spares_same. }
  set (released := filter _ _). destruct (del_held released h) as [h' d] eqn:Ed. eexists _, _, c. split; [reflexivity|].
  destruct (decide (r = rid)) as [->|Hne].
  - pose proof (release_shrinks s h released Eh) as Hsub. rewrite Ed in Hsub. cbn [fst] in Hsub.
    split_and!; [|split; [by intros v Hv|intros Hst]|done].
    + destruct Hs as [H1 H2 H3]. split; [done|done|]. intros Hq. destruct (H3 Hq) as [K1 K2]. split; [done|].
      intros k (h0 & Hh0 & Hk). simpl in Hh0. rewrite lookup_insert_eq in Hh0. injection Hh0 as <-. apply (K2 k).
      exists h. split; [done|]. apply (del_held_sub released). by rewrite Ed.
    + destruct (Hr Hst) as [|(l & -> & Hl)]; [done|]. eapply release_spares; [done|exact Ed|].
      intros k Hk. unfold released. simpl. rewrite list_elem_of_filter. intros [_ Hkl]. by apply (Hl k Hk).
  - split_and!; [|apply spares_any, spares_same; simpl; by rewrite ?lookup_insert_ne|done].
    eapply one_lookup_same; [..|exact Hs]; simpl; [done|by rewrite lookup_insert_ne|done].
Qed.

Lemma still_release_first r n c : (strict -> r <> rid) -> ksafe (release_first r n) c anything.
Proof.
  intros Hr. unfold release_first. apply still_bind; [by apply (still_read _ _ session_step)| |done]. intros l.
  apply still_release. intros H. left. by apply Hr.
Qed.

Lemma still_end_session r c : r <> rid -> ksafe (Prefetch.end_session r) c anything.
Proof.
  intros Hr. apply safe_bind. eapply safe_mono; [apply still_release; intros _; by left|]. intros [[]|e] c' _; [|done].
  apply token_section. intros s cF Hs. eexists _, _, c'. split; [reflexivity|].
  split_and!; [|apply spares_any, spares_same; simpl; by rewrite lookup_delete_ne|done].
  eapply one_lookup_same; [..|exact Hs]; simpl; [by rewrite lookup_delete_ne|by rewrite lookup_delete_ne|done].
Qed.

Lemma still_start_session r keys nb c : r <> rid -> ksafe (start_session r keys nb) c anything.
Proof.
  intros Hr. apply still_bind; [|intros _|done]; apply token_section; intros s cF Hs; eexists _, _, c; (split; [reflexivity|]);
    (split_and!; [|apply spares_any, spares_same; simpl; by rewrite ?lookup_insert_ne|done]).
  - eapply one_lookup_same; [..|exact Hs]; simpl; [by rewrite lookup_insert_ne|done|done].
  - destruct Hs as [H1 H2 H3]. assert (queued (set_jobs (jobs s ++ [(r, keys, nb)]) s) = queued s) as Eq.
    { unfold queued. cbn [jobs set_jobs]. rewrite filter_app, filter_cons_False by done. by rewrite filter_nil, app_nil_r. }
    split; rewrite ?Eq; [|done|done]. simpl. apply Forall_app. split; [done|]. constructor; [by intros Hj|constructor].
Qed.

(** The thread with the token may look the session up. *)
Lemma own_start_session keys nb : keys `prefix_of` ks -> ksafe (start_session rid keys nb) 1%nat anything.
Proof.
  intros Hk. apply still_bind; [|intros _|done]; apply token_section; intros s cF [H1 H2 H3].
  - eexists _, _, 1%nat. split; [reflexivity|]. destruct H3 as [K1 K2]; [lia|]. split_and!; [|apply spares_any|done].
    + split; [done|done|]. intros _. split; [|done]. intros [v Hv]. simpl in Hv. by rewrite lookup_insert_eq in Hv.
    + split; [intros k _ Hk0; exact Hk0| |].
      * intros v Hv. destruct K1. by exists v.
      * intros _ a b g Hh. simpl in Hh. by rewrite lookup_insert_eq in Hh.
  - eexists _, _, 0%nat. split; [reflexivity|]. split_and!; [|by apply spares_any, spares_same|done].
    assert (queued (set_jobs (jobs s ++ [(rid, keys, nb)]) s) = S (queued s)) as Eq.
    { unfold queued. cbn [jobs set_jobs]. rewrite filter_app, length_app, filter_cons_True by done. simpl. lia. }
    split; rewrite ?Eq; [|lia|intros _; apply H3; lia]. simpl. apply Forall_app. split; [done|]. constructor; [by intros _|constructor].
Qed.

(** Requests that leave the session alone: they name another one, or take
    other chunks of it. *)
Definition other_ok (rq : request) : Prop :=
  match rq with
  | RqLookup p => lp_request_id p <> rid
  | RqUnregister j => j <> i
  | RqFreeLocks p => fp_request_id p <> rid
  | RqEndSession r => r <> rid
  | RqRetrieve p => tp_request_id p <> rid \/ forall inst ks,
      instance_ok registered (tp_instance_id p) inst -> op_keys blake3 cs (tp_op p) inst = Ok ks ->
      forall k, k ∈ mine -> k ∉ ks
  | RqRegister p =>
      instance_ok registered (rp_instance_id p)
        (mkEngineInstance (rp_rank p) (rp_model p) (rp_world_size p) (rp_block_size p) (rp_chunk_nbytes p))
  | _ => True
  end.

(** Nothing is asked of the RETRIEVE itself. *)
Definition quiet (rq : request) : Prop :=
  match rq with RqRetrieve _ => strict -> other_ok rq | _ => other_ok rq end.

Lemma quiet_still rq c : quiet rq -> request_still one_lookup spares_if any_left blake3 cs registered engine_stays_if rq c.
Proof.
  destruct rq as [|p|j|p|p|p|p|p|r|p]; simpl; try done.
  - intros Hinst. split; [done|]. intros m inst _ Hi. rewrite lookup_insert_is_Some.
    destruct (decide (rp_instance_id p = i)); auto.
  - intros Hj m _ Hi. by rewrite lookup_delete_ne.
  - intros Hr nb keys _. by apply still_start_session.
  - intros Ho inst keys Hinst Hk. apply still_release. intros Hst. destruct (Ho Hst) as [Hne|Hks]; [by left|].
    right. exists keys. split; [done|]. by apply (Hks inst).
  - intros Hr. by apply still_release_first.
  - intros Hr. by apply still_end_session.
Qed.

Notation wsafe := (safe (net_plain one_lookup cs registered) (net_change spares_if engine_stays_if)).

Lemma session_work w :
  match w with WHandle _ _ rq => quiet rq | _ => True end -> wsafe (thread_of blake3 w) 0%nat anything.
Proof using ks_NoDup.
  intros Hw. apply (still_work_any _ _ token_of); [exact session_step|exact session_pop|exact session_job|..].
  - by intros m _ Hi.
  - destruct w; [by apply quiet_still|done..].
Qed.

Lemma session_proper n (a b : nat) : a ≡ b -> net_plain one_lookup cs registered n a -> net_plain one_lookup cs registered n b.
Proof. by intros <-. Qed.
End sessions.

Section retrieve_claim.
Context {A : Type} (C : ChunkKey -> bytes) (ok : ChunkKey -> Prop) `{!L2Ops A} `{!L2Laws A C ok}.
Context (blake3 : bytes -> bytes) (adapters : nat) (cs : Z) (registered : Z -> EngineInstance -> Prop).

(** Every other thread spares the session [rid] of engine [i] on [keys]. *)
Definition others_spare (rid : string) (i : Z) (keys : list ChunkKey) (works : list work) (t : nat) : Prop :=
  forall j identity uid rq, works !! j = Some (WHandle identity uid rq) -> j <> t ->
    other_ok blake3 cs registered rid i keys rq.

(** No lookup of the session is queued. *)
Definition no_job (rid : string) (s : Stack A) : Prop := Forall (fun j : job => j.1.1 <> rid) (jobs s).

Lemma no_job_queued rid s : no_job rid s -> queued rid s = 0%nat.
Proof.
  intros H. unfold queued. apply length_zero_iff_nil, elem_of_nil_inv. intros j [Hj Hin]%list_elem_of_filter.
  by apply (proj1 (Forall_forall _ _) H j Hin).
Qed.

Lemma no_job_one_lookup rid ks s : no_job rid s -> one_lookup rid ks s 0%nat.
Proof.
  intros H. pose proof (no_job_queued rid s H) as Eq.
  split; [|lia|lia]. eapply Forall_impl; [exact H|]. intros j Hne Hj. by destruct Hne.
Qed.

End retrieve_claim.

(** *** A RETRIEVE among an eviction, a store, write-back and another session *)

#[local] Existing Instance mock_laws.

Definition retrieve_works : list work :=
  [WHandle [Byte.x2a] 3 (RqRetrieve (toy_transfer [1] [])); WEvict;
   WHandle [] 4 (RqStore (toy_transfer [1; 2] [toy_C ka; toy_C kb])); WWriteBack; WHandle [] 5 (RqEndSession "q")].

Lemma retrieve_works_ok : Forall (work_ok toy_C any_chunk last_byte 1 toy_registered) retrieve_works.
Proof.
  unfold retrieve_works. repeat (apply Forall_cons; split); try done; simpl; intros inst keys [[_ ->] _] Hk.
  - assert (keys = [ka]) as -> by (revert Hk; vm_compute; by intros [= <-]). apply NoDup_singleton.
  - assert (keys = [ka; kb]) as -> by (revert Hk; vm_compute; by intros [= <-]).
    split_and!; [exact toy_nodup|by repeat constructor|done|by apply toy_blobs].
Qed.

Lemma retrieve_works_spare : others_spare last_byte 1 toy_registered "r" 7 [ka] retrieve_works 0.
Proof.
  intros j identity uid rq Hj Hne. destruct j as [|[|[|[|[|j]]]]]; simplify_eq/=; done.
Qed.

(** The retrieving thread is interrupted after every step. *)
Definition retrieve_run : Net Mock * list (thread (Net Mock)) :=
  sched (concat (replicate 12 [0; 1; 2; 3; 4; 3; 1; 2]%nat)) (toy_net holding_stack, thread_of last_byte <$> retrieve_works).

Lemma retrieve_run_done : match retrieve_run.2 !! 0%nat with Some (Done _) => true | _ => false end = true.
Proof. vm_compute. reflexivity. Qed.

Lemma retrieve_run_steps :
  tsteps (toy_net holding_stack, thread_of last_byte <$> retrieve_works) (retrieve_run.1, retrieve_run.2).
Proof. rewrite <- surjective_pairing. apply sched_tsteps. Qed.

