(* ===== verification/Releases.v ===== *)
(** Giving back holds of a session, among other threads.

    The table of a resolved session only shrinks, and keeps the order of the
    lookup.  So a thread that gives some of its holds back, by name (RETRIEVE) or
    by number (FREE_LOOKUP_LOCKS), knows which are gone afterwards and which are
    still there. *)
From S2P Require Import Prelude PyFloat Protocol Hasher Memory L1Manager Eviction L1Protocol.
From S2P Require Import L2 Threads Storage StoreController Prefetch Server MQ Evictor Resources Ownership Rely Interleaving ServerThreads Serving Still Sessions.
Local Open Scope py_scope.
Local Open Scope Z_scope.

(** A list in the order of [l] that has the first [n] of [l] starts with them. *)
Lemma sublist_take_all {X} (h l : list X) n :
  NoDup l -> h `sublist_of` l -> (forall x, x ∈ take n l -> x ∈ h) -> (n <= length l)%nat -> take n h = take n l.
Proof.
  intros Hnd Hs. revert n. induction Hs as [|x h l Hs IH|x h l Hs IH]; intros n Hin Hn.
  - done.
  - apply NoDup_cons in Hnd as [Hx Hnd]. destruct n as [|n]; [done|]. simpl. f_equal. simpl in Hn.
    apply IH; [done| |lia]. intros y Hy. specialize (Hin y). simpl in Hin. rewrite !elem_of_cons in Hin.
    destruct Hin as [->|Hin]; [by right| |done]. destruct Hx. by eapply subseteq_take.
  - apply NoDup_cons in Hnd as [Hx Hnd]. destruct n as [|n]; [done|]. exfalso. apply Hx.
    eapply elem_of_sublist; [apply (Hin x); simpl; apply list_elem_of_here|done].
Qed.

Section releases.
Context {A : Type} `{!L2Ops A} (rid : string) (ks mine : list ChunkKey) (ks_NoDup : NoDup ks).
Implicit Types s : Stack A.

Notation J := (fun _ : Stack A => True).
Notation R := (spares rid ks mine).
Notation S := (fun _ _ : Stack A => True).

(** The answer to the lookup is [v], and the holds on [l] are given back. *)
Definition gone (v : hit_info) (l : list ChunkKey) s : Prop :=
  hits s !! rid = Some (Some v) /\ forall k, k ∈ l -> k ∉ table rid s.

(** The answer is [v], the table in order, and has [l]. *)
Definition holding (v : hit_info) (l : list ChunkKey) s : Prop :=
  hits s !! rid = Some (Some v) /\ table rid s `sublist_of` ks /\ forall k, k ∈ l -> k ∈ table rid s.

Lemma gone_answer v l s s' : answer_stays rid s s' -> gone v l s -> gone v l s'.
Proof.
  intros Ha [Hv Hl]. destruct (Ha v Hv) as [Hv' Hs]. split; [done|]. intros k Hk Hin. apply (Hl k Hk).
  by eapply elem_of_sublist.
Qed.

Lemma gone_stays v l s s' : R s s' -> gone v l s -> gone v l s'.
Proof. intros [_ Ha _]. by apply gone_answer. Qed.

Lemma holding_stays v l s s' : (forall k, k ∈ l -> k ∈ mine) -> R s s' -> holding v l s -> holding v l s'.
Proof.
  intros Hsub [Hh Ha _] (Hv & Hs & Hl). destruct (Ha v Hv) as [Hv' Hs']. split; [done|]. split; [by etransitivity|].
  intros k Hk. apply elem_of_table, Hh; [by apply Hsub|]. by apply elem_of_table, Hl.
Qed.

Lemma holding_fewer v l l' s : (forall k, k ∈ l' -> k ∈ l) -> holding v l s -> holding v l' s.
Proof. intros Hsub (H1 & H2 & H3). split_and!; [done|done|]. intros k Hk. by apply H3, Hsub. Qed.

Lemma holding_nil_answer v s s' : answer_stays rid s s' -> holding v [] s -> holding v [] s'.
Proof.
  intros Ha (Hv & Hs & _). destruct (Ha v Hv) as [Hv' Hs']. split; [done|]. split; [by etransitivity|].
  intros k Hk. by apply elem_of_nil in Hk.
Qed.

(** Neither is about L1. *)
Lemma gone_l1 v l x s : gone v l s -> gone v l (set_l1 x s).
Proof. done. Qed.

Lemma holding_l1 v l x s : holding v l s -> holding v l (set_l1 x s).
Proof. done. Qed.

(** Giving [l] back, and nothing else. *)
Lemma under_release l rest v s :
  NoDup l -> (forall k, k ∈ l -> k ∉ rest) -> (forall k, k ∈ rest -> k ∈ mine) -> holding v rest s ->
  under J R S (release rid (Some l)) s (fun _ s' => gone v l s' /\ holding v rest s').
Proof.
  intros Hnd Hap Hmine Hs. apply under_bind, under_atomic. intros s1 HR1 _.
  pose proof (rtc_stable R (holding v rest) _ _ (fun a b => holding_stays v rest a b Hmine) HR1 Hs) as Hs1.
  assert (exists s2 o, take_held rid (Some l) s1 = (s2, Ok o) /\ gone v l s2 /\ holding v rest s2) as (s2 & o & E & H2).
  { destruct Hs1 as (Hv & Hsub & Hrest). destruct (held s1 !! rid) as [h|] eqn:Eh.
    - eexists _, _. split; [by apply (take_held_eq s1 rid h)|]. unfold table in Hsub, Hrest. rewrite Eh in Hsub, Hrest.
      unfold gone, holding, table. simpl. rewrite lookup_insert_eq. simpl. unfold left_held. split_and!; try done.
      + intros k Hk. rewrite list_elem_of_filter. tauto.
      + etransitivity; [apply sublist_filter|done].
      + intros k Hk. apply list_elem_of_filter. split; [|by apply Hrest]. intros Hkl. by apply (Hap k).
    - exists s1, []. unfold take_held. rewrite Eh. split; [done|]. split; [|by split_and!].
      split; [done|]. intros k _. unfold table. rewrite Eh. apply not_elem_of_nil. }
  exists s2, (Ok o). split; [exact E|]. apply under_atomic. intros s3 HR3 _. unfold zoom.
  destruct (finish_read o (l1 s3)) as [x r]. eexists _, _. split; [reflexivity|]. destruct H2 as [H2 H2'].
  split; [apply gone_l1|apply holding_l1].
  - exact (rtc_stable R _ _ _ (gone_stays v l) HR3 H2).
  - exact (rtc_stable R _ _ _ (fun a b => holding_stays v rest a b Hmine) HR3 H2').
Qed.

(** The first [n] holds are those of the first [n] chunks. *)
Lemma under_release_first n rest v s :
  (Z.to_nat n <= length ks)%nat -> 0 <= n ->
  (forall k, k ∈ take (Z.to_nat n) ks -> k ∉ rest) ->
  (forall k, k ∈ take (Z.to_nat n) ks ++ rest -> k ∈ mine) -> holding v (take (Z.to_nat n) ks ++ rest) s ->
  under J R S (release_first rid n) s (fun _ s' => gone v (take (Z.to_nat n) ks) s' /\ holding v rest s').
Proof using ks_NoDup.
  intros Hle Hn Hap Hmine Hs. apply under_bind, under_atomic. intros s1 HR1 _.
  destruct (rtc_stable R _ _ _ (fun a b => holding_stays v _ a b Hmine) HR1 Hs) as (Hv & Hsub & Hall).
  eexists s1, _. split; [reflexivity|]. cbn beta iota. fold (table rid s1).
  assert (py_take n (table rid s1) = take (Z.to_nat n) ks) as ->.
  { rewrite py_take_nonneg by done. apply sublist_take_all; [done|done| |done].
    intros k Hk. apply Hall, elem_of_app. by left. }
  apply under_release.
  - by apply NoDup_take.
  - exact Hap.
  - intros k Hk. apply Hmine, elem_of_app. by right.
  - split_and!; [done|done|]. intros k Hk. apply Hall, elem_of_app. by right.
Qed.
End releases.
