(* ===== verification/Answers.v ===== *)
(** What the answer to a lookup stands for.

    Between the answer of QUERY_PREFETCH_STATUS and the RETRIEVE nothing but the
    session's holds keeps the chunks: here, whatever else the server does, an
    answer is backed by holds on exactly the chunks it counts. *)
From S2P Require Import Prelude PyFloat Protocol Hasher Memory L1Manager Eviction L1Protocol.
From S2P Require Import L2 Threads Storage StoreController Prefetch Server MQ Evictor Resources Ownership Rely Interleaving ServerThreads Serving Still Sessions.
Local Open Scope py_scope.
Local Open Scope Z_scope.

Section answers.
Context {A : Type} `{!L2Ops A} (blake3 : bytes -> bytes) (cs : Z) (registered : Z -> EngineInstance -> Prop).
Context (rid : string) (ks : list ChunkKey) (ks_NoDup : NoDup ks).

(** A resolved lookup holds the chunks it counts. *)
Definition backed (s : Stack A) : Prop :=
  Forall (lookup_of rid ks) (jobs s) /\
  forall a b g, hits s !! rid = Some (Some (a, b, g)) -> held s !! rid = Some (take (Z.to_nat (a + b)) ks).

Notation ksafe := (safe (fun s (_ : nat) => backed s) (fun _ _ => True)).

Lemma backed_other s s' : jobs s' = jobs s ->
  hits s' !! rid = hits s !! rid -> held s' !! rid = held s !! rid -> backed s -> backed s'.
Proof. intros E1 E2 E3 [H1 H2]. split; [by rewrite E1|]. intros a b g Hh. rewrite E3. apply (H2 a b g), (eq_trans (eq_sym E2) Hh). Qed.

Lemma backed_step s s' (c : nat) : hits s' = hits s -> held s' = held s -> jobs s' = jobs s -> backed s -> backed s' /\ True.
Proof. intros E1 E2 E3 H. split; [|done]. apply (backed_other s); [done|by rewrite E1|by rewrite E2|done]. Qed.

(** A step that keeps [backed]. *)
Lemma backed_section {B} (m : M (Stack A) B) c (Q : res B -> nat -> Prop) :
  (forall s s' r, backed s -> m s = (s', r) -> backed s' /\ Q r c) -> ksafe (atomic m) c Q.
Proof.
  intros Hm. apply token_section. intros s cF Hs. destruct (m s) as [s' r] eqn:E. destruct (Hm s s' r Hs E) as [H1 H2].
  by exists s', r, c.
Qed.

Lemma backed_resolve r l1_keys lks g c :
  (r = rid -> (l1_keys ++ lks) `prefix_of` ks) -> ksafe (resolve r l1_keys lks g) c anything.
Proof using ks_NoDup.
  intros Hr. apply still_bind; [|intros []; [done|by apply (still_l1 _ _ backed_step)]|done].
  apply backed_section. intros s s' r' Hs. unfold publish. destruct (hits s !! r) as [h|] eqn:Eh; intros [= <- <-]; [|done].
  split; [|done]. destruct (decide (r = rid)) as [->|Hne].
  - destruct Hs as [Hj _]. split; [done|]. simpl. intros a b g'. rewrite !lookup_insert_eq. intros [= <- <- <-].
    f_equal. by apply backed_keys, Hr.
  - apply (backed_other s); simpl; try done; by rewrite lookup_insert_ne.
Qed.

Lemma backed_job r keys nb d n lks m g :
  lookup_of rid ks (r, keys, nb) -> lks `prefix_of` drop n keys -> ksafe (resolve r (take n keys) (take m lks) g) d anything.
Proof using ks_NoDup.
  intros Hj Hl. apply backed_resolve. intros Hr. etransitivity; [|by apply Hj]. by apply take_found_prefix.
Qed.

Lemma backed_pop s j rest (c : nat) : backed s -> jobs s = j :: rest ->
  exists d, backed (set_jobs rest s) /\ True /\ (fun j (_ : nat) => lookup_of rid ks j) j d.
Proof. intros [Hj Hh] E. exists 0%nat. rewrite E in Hj. apply Forall_cons in Hj as [Hj Hr]. by split_and!. Qed.

Lemma backed_start r keys nb c : lookup_of rid ks (r, keys, nb) -> ksafe (start_session r keys nb) c anything.
Proof.
  intros Hj. apply still_bind; [|intros _|done]; apply backed_section; intros s s' r' [Hs1 Hs2] [= <- <-]; (split; [split|done]).
  - done.
  - simpl. intros a b g. rewrite lookup_insert. case_decide; [done|]. apply Hs2.
  - apply Forall_app. split; [done|]. by constructor.
  - exact Hs2.
Qed.

Lemma backed_release r keys c : r <> rid -> ksafe (release r keys) c anything.
Proof.
  intros Hr. apply still_bind; [|intros released; by apply (still_l1 _ _ backed_step)|done].
  apply backed_section. intros s s' r' Hs. unfold take_held. destruct (held s !! r) as [h|]; [|by intros [= <- <-]].
  destruct (del_held _ h) as [h' d]. intros [= <- <-]. split; [|done].
  apply (backed_other s); simpl; try done. by rewrite lookup_insert_ne.
Qed.

Lemma backed_release_first r n c : r <> rid -> ksafe (release_first r n) c anything.
Proof.
  intros Hr. unfold release_first. apply still_bind; [by apply (still_read _ _ backed_step)| |done]. intros l.
  by apply backed_release.
Qed.

Lemma backed_end_session r c : r <> rid -> ksafe (Prefetch.end_session r) c anything.
Proof.
  intros Hr. apply safe_bind. eapply safe_mono; [by apply backed_release|]. intros [[]|e] c' _; [|done].
  apply backed_section. intros s s' r' Hs [= <- <-].
  split; [|done]. apply (backed_other s); simpl; try done; by rewrite lookup_delete_ne.
Qed.

(** The requests that may run between a lookup and the use of its answer: any
    of other sessions, and lookups of the same chunks. *)
Definition keeps_answer (rq : request) : Prop :=
  match rq with
  | RqRegister p =>
      instance_ok registered (rp_instance_id p)
        (mkEngineInstance (rp_rank p) (rp_model p) (rp_world_size p) (rp_block_size p) (rp_chunk_nbytes p))
  | RqLookup p => lp_request_id p = rid -> forall nb keys, lookup_keys blake3 cs nb p = Ok keys -> keys `prefix_of` ks
  | RqFreeLocks p => fp_request_id p <> rid
  | RqEndSession r => r <> rid
  | RqRetrieve p => tp_request_id p <> rid
  | _ => True
  end.

Lemma backed_work w :
  match w with WHandle _ _ rq => keeps_answer rq | _ => True end ->
  safe (net_plain (fun s (_ : nat) => backed s) cs registered) (net_change (fun _ _ => True) (fun _ _ => True))
    (thread_of blake3 w) 0%nat anything.
Proof using ks_NoDup.
  intros Hw. apply (still_work_any _ _ (fun j _ => lookup_of rid ks j)); [exact backed_step|exact backed_pop|exact backed_job|done|].
  destruct w as [identity uid rq| | | |]; try done. destruct rq as [|p|j|p|p|p|p|p|r|p]; cbn [work_still request_still keeps_answer] in *; try done.
  - intros nb keys Hk. apply backed_start. intros Hr. exact (Hw Hr nb keys Hk).
  - intros inst keys _ _. by apply backed_release.
  - by apply backed_release_first.
  - by apply backed_end_session.
Qed.
End answers.

Section answers_claim.
Context {A : Type} (C : ChunkKey -> bytes) (ok : ChunkKey -> Prop) `{!L2Ops A} `{!L2Laws A C ok}.
Context (blake3 : bytes -> bytes) (adapters : nat) (cs : Z) (registered : Z -> EngineInstance -> Prop).

(** C8: an answer is backed by holds.  Under every interleaving of the server's
    threads in which the session [rid] is only looked up, at every moment: once
    the lookup has resolved to [a] chunks from L1 and [b] from L2, the session
    holds exactly the first [a + b] chunks of the prompt, and each of them is in
    L1, readable, with its content, until the session gives it back; an answer
    never counts a chunk that could be evicted before it is retrieved. *)
Theorem answers_are_backed works rid ks (n n' : Net A) ts' a b g :
  Forall (work_ok C ok blake3 cs registered) works ->
  net_inv C ok adapters cs registered n own_nil -> NoDup ks -> backed rid ks (sm (srv n)) ->
  (forall identity uid rq, WHandle identity uid rq ∈ works -> keeps_answer blake3 cs registered rid ks rq) ->
  tsteps (n, thread_of blake3 <$> works) (n', ts') ->
  hits (sm (srv n')) !! rid = Some (Some (a, b, g)) ->
  held (sm (srv n')) !! rid = Some (take (Z.to_nat (a + b)) ks) /\
  forall k, k ∈ take (Z.to_nat (a + b)) ks ->
    exists e, entries (l1 (sm (srv n'))) !! k = Some e /\ write_locked e = false /\ 0 < read_count e /\
              byte_array (entry_obj e) (pool_of (l1 (sm (srv n')))) = C k.
Proof.
  intros Hw Hn Hnd Hb Hks Hrun Hhit.
  destruct (works_ok C ok blake3 adapters cs registered works n n' ts' Hw Hn Hrun) as (os & _ & _ & _ & Hi & _).
  destruct (safe_threads (net_plain (fun s (_ : nat) => backed rid ks s) cs registered) (fun _ => net_change (fun _ _ => True) (fun _ _ => True))
    ltac:(by intros m x y <-) (fun _ => anything) n (thread_of blake3 <$> works) (n', ts'))
    as (cs' & _ & _ & _ & [[_ Hbk] _] & _).
  - destruct Hn as [_ H1 H2 _]. by split_and!.
  - intros j q Hq. apply list_lookup_fmap_Some in Hq as (w & -> & Hj).
    apply (backed_work blake3 cs registered rid ks Hnd). destruct w; try done. by eapply Hks, list_elem_of_lookup_2.
  - exact Hrun.
  - specialize (Hbk a b g Hhit). split; [exact Hbk|]. intros k Hk. by eapply session_chunk.
Qed.
End answers_claim.

(** *** A lookup beside the end of another session and evictions *)

#[local] Existing Instance mock_laws.

Definition lookup_works : list work :=
  [WHandle [] 1 (RqLookup (mkLookupPayload "q" [1; 2] "m" 1)); WPrefetch f_0_8; WHandle [] 2 (RqEndSession "r");
   WEvict; WHandle [] 3 (RqQuery (mkQueryPayload "q" 1)); WEvict].

Lemma lookup_works_ok : Forall (work_ok toy_C any_chunk last_byte 1 toy_registered) lookup_works.
Proof.
  unfold lookup_works. repeat (apply Forall_cons; split); try done; simpl.
  intros nb keys (i & inst & [[_ ->] _] & _ & ->) Hk.
  assert (keys = [ka; kb]) as -> by (revert Hk; vm_compute; by intros [= <-]).
  split_and!; [exact toy_nodup|by repeat constructor|done|]. by apply toy_pair.
Qed.

Lemma lookup_works_keep identity uid rq :
  WHandle identity uid rq ∈ lookup_works -> keeps_answer last_byte 1 toy_registered "q" [ka; kb] rq.
Proof.
  intros Hin. repeat (apply elem_of_cons in Hin as [Hin|Hin]; [simplify_eq/=|]); try done; [|by apply elem_of_nil in Hin].
  intros _ [nb|] keys; vm_compute; intros [= <-]; [by exists []|by exists [ka; kb]].
Qed.

Definition lookup_run : Net Mock * list (thread (Net Mock)) :=
  sched (replicate 6 0%nat ++ concat (replicate 20 [1; 2; 1; 3; 1; 4; 5]%nat)) (toy_net holding_stack, thread_of last_byte <$> lookup_works).

Definition both_found (h : option (option hit_info)) : bool :=
  match h with Some (Some (1, 1, _)) => true | _ => false end.

Lemma lookup_run_found : both_found (hits (sm (srv lookup_run.1)) !! "q"%string) = true.
Proof. vm_compute. reflexivity. Qed.

Lemma lookup_run_steps :
  tsteps (toy_net holding_stack, thread_of last_byte <$> lookup_works) (lookup_run.1, lookup_run.2).
Proof. rewrite <- surjective_pairing. apply sched_tsteps. Qed.

Lemma holding_backed : backed "q" [ka; kb] (sm (srv (toy_net holding_stack))).
Proof.
  split; [constructor|]. intros a b g Hh. exfalso. revert Hh.
  assert (hits (sm (srv (toy_net holding_stack))) !! "q"%string = None) as E by (vm_compute; reflexivity).
  intros Hh. pose proof (eq_trans (eq_sym E) Hh). discriminate.
Qed.

Lemma answers_are_backed_witness :
  held (sm (srv lookup_run.1)) !! "q"%string = Some [ka; kb] /\
  exists e, entries (l1 (sm (srv lookup_run.1))) !! kb = Some e /\ 0 < read_count e /\
    byte_array (entry_obj e) (pool_of (l1 (sm (srv lookup_run.1)))) = toy_C kb.
Proof.
  pose proof lookup_run_found as Hf. pose proof lookup_run_steps as Hs.
  destruct (hits (sm (srv lookup_run.1)) !! "q"%string) as [[[[a b] g]|]|] eqn:Eh; [|discriminate Hf|discriminate Hf].
  destruct (answers_are_backed toy_C any_chunk last_byte 1 1 toy_registered lookup_works "q" [ka; kb]
              (toy_net holding_stack) lookup_run.1 lookup_run.2 a b g) as [H1 H2].
  - exact lookup_works_ok.
  - exact holding_net_inv.
  - exact toy_nodup.
  - exact holding_backed.
  - exact lookup_works_keep.
  - exact Hs.
  - exact Eh.
  - destruct a as [|[]|], b as [|[]|]; try discriminate Hf. split; [exact H1|].
    destruct (H2 kb) as (e & He & _ & Hc & Hb); [|exists e; split; [exact He|split; [exact Hc|exact Hb]]].
    apply list_elem_of_further, list_elem_of_here.
Defined.
