(* ===== verification/Pending.v ===== *)
(** No lookup is lost.

    A lookup is pending from its LOOKUP until a prefetch worker publishes what
    it found.  Here a pending lookup is always in somebody's hands: a token
    passes from the thread that handles LOOKUP to the queue, from the queue to
    the worker that takes the job, and is given up with the answer. *)
From S2P Require Import Prelude PyFloat Protocol Hasher Memory L1Manager Eviction L1Protocol.
From S2P Require Import L2 Threads Storage StoreController Prefetch Server MQ Evictor Resources Ownership Rely Interleaving ServerThreads Serving Still Sessions Answers.
Local Open Scope py_scope.
Local Open Scope Z_scope.

Section pending.
Context {A : Type} `{!L2Ops A} (blake3 : bytes -> bytes) (cs : Z) (registered : Z -> EngineInstance -> Prop) (rid : string).
Implicit Types s : Stack A.

Definition pending s : Prop := hits s !! rid = Some None.

(** A pending lookup has a job in the queue, or a token of some thread. *)
Definition accounted s (c : nat) : Prop := pending s -> (0 < queued rid s + c)%nat.

(** The token of a job taken from the queue. *)
Definition job_token (j : job) (d : nat) : Prop := j.1.1 <> rid -> d = 0%nat.
Definition no_token (c : nat) : Prop := c = 0%nat.

Notation Gany := (fun _ _ => True).
Notation ksafe := (safe accounted (fun _ _ : Stack A => True)).

Lemma accounted_same s s' c : hits s' !! rid = hits s !! rid -> jobs s' = jobs s -> accounted s c -> accounted s' c.
Proof.
  intros E1 E2 H Hp. assert (queued rid s' = queued rid s) as -> by (unfold queued; by rewrite E2).
  apply H. exact (eq_trans (eq_sym E1) Hp).
Qed.

Lemma accounted_step s s' c :
  hits s' = hits s -> held s' = held s -> jobs s' = jobs s -> accounted s c -> accounted s' c /\ True.
Proof. intros E1 _ E3 H. split; [|done]. apply (accounted_same s); [by rewrite E1|done|done]. Qed.

(** An answered lookup, or one whose session is gone, needs no token. *)
Lemma accounted_settled s c : ~ pending s -> accounted s c.
Proof. by intros H Hp. Qed.

(** A step from [c] to [c'] tokens. *)
Lemma pending_section {B} (m : M (Stack A) B) c (Q : res B -> nat -> Prop) :
  (forall s cF, accounted s (c + cF) ->
     exists s' r c', m s = (s', r) /\ accounted s' (c' + cF) /\ Q r c') -> ksafe (atomic m) c Q.
Proof.
  intros Hm. apply token_section. intros s cF Hs. destruct (Hm s cF Hs) as (s' & r & c' & E & H1 & H2).
  by exists s', r, c'.
Qed.

Lemma queued_app s r keys nb :
  queued rid (set_jobs (jobs s ++ [(r, keys, nb)]) s) = (queued rid s + if decide (r = rid) then 1 else 0)%nat.
Proof.
  unfold queued. cbn [jobs set_jobs]. rewrite filter_app, length_app, filter_cons, filter_nil. simpl. by case_decide.
Qed.

Lemma pending_pop s j rest c : accounted s c -> jobs s = j :: rest ->
  exists d, accounted (set_jobs rest s) (d + c) /\ True /\ job_token j d.
Proof.
  intros H E. exists (if decide (j.1.1 = rid) then 1 else 0)%nat. split_and!; [|done|intros Hne; by rewrite decide_False].
  intros Hp. specialize (H Hp). unfold queued in *. cbn [jobs set_jobs]. rewrite E, filter_cons in H.
  revert H. case_decide; cbn [length]; lia.
Qed.

(** What a thread may still have when it succeeds: nothing. *)
Notation none_ok := (fun r c => r = Ok tt -> no_token c).

Lemma pending_resolve r l1_keys lks g d : (r <> rid -> d = 0%nat) -> ksafe (resolve r l1_keys lks g) d none_ok.
Proof.
  intros Hd. apply safe_bind. apply (safe_mono _ _ _ _ (fun _ c => no_token c)).
  2: { intros [[]|e] c Hc; [exact (fun _ => Hc)|by apply (still_l1 _ _ accounted_step)|done]. }
  apply pending_section. intros s cF Hs. unfold publish. destruct (hits s !! r) as [h|] eqn:Eh; eexists _, _, 0%nat;
    (split; [reflexivity|]); (split; [|done]); destruct (decide (r = rid)) as [->|Hne].
  - apply accounted_settled. unfold pending. simpl. by rewrite lookup_insert_eq.
  - rewrite (Hd Hne) in Hs. apply (accounted_same s); [|done|done]. simpl. by rewrite lookup_insert_ne.
  - apply accounted_settled. intros Hp. pose proof (eq_trans (eq_sym Eh) Hp). discriminate.
  - by rewrite (Hd Hne) in Hs.
Qed.

Lemma pending_job r keys nb d n lks m g :
  job_token (r, keys, nb) d -> lks `prefix_of` drop n keys -> ksafe (resolve r (take n keys) (take m lks) g) d none_ok.
Proof. intros Hd _. by apply pending_resolve. Qed.

(** LOOKUP takes the token when it announces the session, and puts it into the
    queue. *)
Lemma pending_start r keys nb : ksafe (start_session r keys nb) 0%nat (fun _ c => no_token c).
Proof.
  apply safe_bind, pending_section. intros s cF Hs. eexists _, _, (if decide (r = rid) then 1%nat else 0%nat).
  split; [reflexivity|]. split.
  { case_decide as Hr; [intros _; lia|]. apply (accounted_same s); [|done|exact Hs]. simpl. by rewrite lookup_insert_ne. }
  cbn beta iota. apply pending_section. clear s cF Hs. intros s cF Hs. eexists _, _, 0%nat. split; [reflexivity|]. split; [|done].
  intros Hp. specialize (Hs Hp). rewrite queued_app. case_decide; lia.
Qed.

Lemma pending_release r keys : ksafe (release r keys) 0%nat (fun _ c => no_token c).
Proof.
  apply still_bind; [|intros released; by apply (still_l1 _ _ accounted_step)|done].
  apply pending_section. intros s cF Hs. unfold take_held. destruct (held s !! r) as [h|]; [|by eexists s, _, 0%nat].
  destruct (del_held _ h) as [h' d]. by eexists _, _, 0%nat.
Qed.

Lemma pending_release_first r count : ksafe (release_first r count) 0%nat (fun _ c => no_token c).
Proof. apply still_bind; [by apply (still_read _ _ accounted_step)| |done]. intros l. apply pending_release. Qed.

Lemma pending_end_session r : ksafe (Prefetch.end_session r) 0%nat (fun _ c => no_token c).
Proof.
  apply safe_bind. eapply safe_mono; [apply pending_release|]. intros [[]|e] c ->; [|done].
  apply pending_section. intros s cF Hs. eexists _, _, 0%nat. split; [reflexivity|]. split; [|done].
  destruct (decide (r = rid)) as [->|Hne].
  - apply accounted_settled. unfold pending. simpl. by rewrite lookup_delete_eq.
  - apply (accounted_same s); [|done|done]. simpl. by rewrite lookup_delete_ne.
Qed.

(** No request loses a lookup: only registrations are asked for anything. *)
Definition registers_ok (rq : request) : Prop :=
  match rq with
  | RqRegister p =>
      instance_ok registered (rp_instance_id p)
        (mkEngineInstance (rp_rank p) (rp_model p) (rp_world_size p) (rp_block_size p) (rp_chunk_nbytes p))
  | _ => True
  end.

Lemma pending_work w :
  match w with WHandle _ _ rq => registers_ok rq | _ => True end ->
  safe (net_plain accounted cs registered) (net_change Gany Gany) (thread_of blake3 w) 0%nat (work_ended no_token w).
Proof.
  intros Hw. apply (still_work accounted (fun _ _ => True) job_token ltac:(by intros s a b <-) no_token eq_refl accounted_step pending_pop pending_job); [done|].
  destruct w as [identity uid rq| | | |]; try done. destruct rq; cbn [work_still request_still registers_ok] in *; try done.
  - intros nb keys _. apply pending_start.
  - intros inst keys _ _. apply pending_release.
  - apply pending_release_first.
  - apply pending_end_session.
Qed.
End pending.

(** ** Emptying the queue *)

Section draining.
Context {A : Type} `{!L2Ops A} (blake3 : bytes -> bytes) (cs : Z) (registered : Z -> EngineInstance -> Prop).
Implicit Types s : Stack A.

(** There are workers enough for the queue, one token each. *)
Definition workers_enough s (c : nat) : Prop := (length (jobs s) <= c)%nat.

Notation ksafe := (safe workers_enough (fun _ _ : Stack A => True)).

Lemma drain_step s s' c : hits s' = hits s -> held s' = held s -> jobs s' = jobs s ->
  workers_enough s c -> workers_enough s' c /\ True.
Proof. unfold workers_enough. by intros _ _ ->. Qed.

Lemma drain_job r keys (nb : option Z) d n lks m g :
  no_token d -> lks `prefix_of` drop n keys ->
  ksafe (resolve r (take n keys) (take m lks) g) d (fun r c => r = Ok tt -> no_token c).
Proof.
  intros Hd _. apply still_bind; [|intros []; [exact (fun _ => Hd)|by apply (still_l1 _ _ drain_step)]|done].
  apply token_section. intros s cF Hs. unfold publish. destruct (hits s !! r); by eexists _, _, d.
Qed.

(** A worker uses its token up. *)
Lemma drain_work elapsed :
  safe (net_plain workers_enough cs registered) (net_change (fun _ _ => True) (fun _ _ => True))
    (thread_of blake3 (WPrefetch elapsed)) 1%nat (fun r c => r = Ok tt -> no_token c).
Proof.
  cbn [thread_of]. apply still_on_srv, (still_on_sm _ _ cs registered (fun _ _ => True)); [done|]. apply safe_bind.
  apply (safe_mono _ _ _ _ (fun _ c => no_token c)).
  - apply token_section. intros s cF Hs. unfold pop_job, workers_enough in *.
    destruct (jobs s) as [|j rest] eqn:E; eexists _, _, 0%nat; (split; [reflexivity|]); split_and!; try done.
    + rewrite E. simpl. lia.
    + simpl in *. lia.
  - intros [[[[r keys] nb]|]|e] c Hc; [|exact (fun _ => Hc)|done].
    by apply (still_prefetch _ _ (fun _ => no_token) no_token drain_step drain_job).
Qed.
End draining.

Section pending_claim.
Context {A : Type} (C : ChunkKey -> bytes) (ok : ChunkKey -> Prop) `{!L2Ops A} `{!L2Laws A C ok}.
Context (blake3 : bytes -> bytes) (adapters : nat) (cs : Z) (registered : Z -> EngineInstance -> Prop).

Definition has_job (rid : string) (n : Net A) : Prop := exists j, j ∈ jobs (sm (srv n)) /\ j.1.1 = rid.

Lemma has_job_queued rid n : has_job rid n <-> (0 < queued rid (sm (srv n)))%nat.
Proof.
  unfold has_job, queued. split.
  - intros (j & Hj & Hr). assert (j ∈ filter (fun j : job => j.1.1 = rid) (jobs (sm (srv n)))) as Hin
      by by apply list_elem_of_filter. destruct (filter _ _); [by apply elem_of_nil in Hin|simpl; lia].
  - destruct (filter (fun j : job => j.1.1 = rid) _) as [|j l] eqn:E; simpl; [lia|]. intros _. exists j.
    assert (j ∈ filter (fun j : job => j.1.1 = rid) (jobs (sm (srv n)))) as Hin by (rewrite E; apply list_elem_of_here).
    apply list_elem_of_filter in Hin. tauto.
Qed.

(** A prefetch worker does not fail. *)
Definition worker_succeeds (w : work) (r : res unit) : Prop :=
  match w with WPrefetch _ => r = Ok tt | _ => True end.

Lemma safe_succeeds w : work_ok C ok blake3 cs registered w ->
  safe (net_inv C ok adapters cs registered) net_stays (thread_of blake3 w) own_nil (fun r _ => worker_succeeds w r).
Proof.
  intros Hw. destruct w; cbn [worker_succeeds]; try (eapply safe_mono; [by apply safe_work|done]).
  by apply safe_on_srv, safe_on_sm, safe_prefetch_round.
Qed.

Notation at_work Q works := (fun i r c => forall w : work, works !! i = Some w -> Q w r c).

(** Threads proved one by one, each with a postcondition of its own. *)
Lemma works_threads {O} `{Resource O} (Inv : Net A -> O -> Prop) (G : Net A -> Net A -> Prop)
    (Q : work -> res unit -> O -> Prop) works n os n' ts' :
  (forall m a b, a ≡ b -> Inv m a -> Inv m b) ->
  length os = length works -> Forall r_ok os -> all_apart os -> Inv n (r_sum os) ->
  (forall i w o, works !! i = Some w -> os !! i = Some o -> safe Inv G (thread_of blake3 w) o (Q w)) ->
  tsteps (n, thread_of blake3 <$> works) (n', ts') ->
  exists os', threads_ok Inv (fun _ => G) (at_work Q works) (n', ts') os'.
Proof.
  intros Hproper Hlen Hok Hap Hn Hw. apply (threads_ok_run _ _ Hproper _ _ _ os). split_and!; try done.
  - cbn [snd]. by rewrite length_fmap.
  - intros i t o Ht Ho. apply list_lookup_fmap_Some in Ht as (w & -> & Hi).
    eapply safe_mono; [by eapply Hw|]. intros r o' HQ w' Hw'. by assert (w' = w) as -> by congruence.
Qed.

Lemma tsteps_length {W} (c c' : W * list (thread W)) : tsteps c c' -> length c'.2 = length c.2.
Proof. induction 1 as [|c1 c2 c3 [w ts i f k Hi] _ IH]; [done|]. rewrite IH. simpl. apply length_insert. Qed.

Lemma works_succeed works n n' ts' :
  Forall (work_ok C ok blake3 cs registered) works -> net_inv C ok adapters cs registered n own_nil ->
  tsteps (n, thread_of blake3 <$> works) (n', ts') ->
  forall i w r, works !! i = Some w -> ts' !! i = Some (Done r) -> worker_succeeds w r.
Proof.
  intros Hw Hn Hrun i w r Hi Ht. destruct (r_sum_replicate (O := own) (length works)) as [Ha He].
  destruct (works_threads (net_inv C ok adapters cs registered) net_stays (fun w r _ => worker_succeeds w r) works n
    (replicate (length works) own_nil) n' ts' (net_inv_proper C ok adapters cs registered)) as (os & Hlen & _ & _ & _ & Hres).
  - apply length_replicate.
  - apply Forall_replicate. exact (r_ok_nil (O := own)).
  - exact Ha.
  - eapply net_inv_proper; [symmetry; exact He|exact Hn].
  - intros j w' o Hj [-> _]%lookup_replicate. apply safe_succeeds. rewrite Forall_lookup in Hw. by eapply Hw.
  - exact Hrun.
  - destruct (lookup_lt_is_Some_2 os i) as [o Ho]; [rewrite Hlen; by eapply lookup_lt_Some|].
    exact (Hres i _ o Ht Ho w Hi).
Qed.

(** When all threads have finished, none has a token left. *)
Lemma finished_no_tokens (Inv : Stack A -> nat -> Prop) works cs0 n n' ts' :
  Forall (work_ok C ok blake3 cs registered) works -> net_inv C ok adapters cs registered n own_nil ->
  length cs0 = length works -> Inv (sm (srv n)) (r_sum cs0) ->
  (forall i w c, works !! i = Some w -> cs0 !! i = Some c ->
     safe (net_plain Inv cs registered) (net_change (fun _ _ => True) (fun _ _ => True)) (thread_of blake3 w) c (work_ended no_token w)) ->
  tsteps (n, thread_of blake3 <$> works) (n', ts') -> Forall finished ts' -> Inv (sm (srv n')) 0%nat.
Proof.
  intros Hw Hn Hlen Hinv Hsafe Hrun Hfin. pose proof (works_succeed works n n' ts' Hw Hn Hrun) as Hsucc.
  destruct (works_threads (net_plain Inv cs registered) (net_change (fun _ _ => True) (fun _ _ => True))
    (work_ended no_token) works n cs0 n' ts' ltac:(by intros m x y <-)) as (ts & Hlt & _ & _ & [Hacc _] & Htok).
  - exact Hlen.
  - by apply Forall_forall.
  - clear. induction cs0; [done|by split].
  - destruct Hn as [_ H1 H2 _]. by split_and!.
  - exact Hsafe.
  - exact Hrun.
  - assert (r_sum ts ≡ 0%nat) as E; [|simpl in E; by rewrite E in Hacc].
    refine (r_sum_nils ts _). apply Forall_lookup. intros i c Hc.
    pose proof (tsteps_length _ _ Hrun) as Hl. cbn [snd] in Hl, Hlt. rewrite length_fmap in Hl.
    destruct (lookup_lt_is_Some_2 ts' i) as [t Ht]; [rewrite <- Hlt; by eapply lookup_lt_Some|].
    destruct (lookup_lt_is_Some_2 works i) as [w Hi]; [rewrite <- Hl; by eapply lookup_lt_Some|].
    rewrite Forall_lookup in Hfin. destruct (Hfin i t Ht) as [r ->].
    specialize (Htok i _ c Ht Hc w Hi). specialize (Hsucc i w r Hi Ht). destruct w; by try apply Htok.
Qed.

Lemma r_sum_tokens (n c : nat) : r_sum (replicate n c) = (n * c)%nat.
Proof. induction n as [|n IH]; [done|]. simpl in *. by rewrite IH. Qed.

Lemma finished_accounted works rid n n' ts' :
  Forall (work_ok C ok blake3 cs registered) works -> net_inv C ok adapters cs registered n own_nil ->
  accounted rid (sm (srv n)) 0 -> tsteps (n, thread_of blake3 <$> works) (n', ts') -> Forall finished ts' ->
  accounted rid (sm (srv n')) 0.
Proof.
  intros Hw Hn Hrid. apply (finished_no_tokens (accounted rid) works (replicate (length works) 0%nat)); [done|done| | |].
  - apply length_replicate.
  - by rewrite r_sum_tokens, Nat.mul_0_r.
  - intros i w c Hi [-> _]%lookup_replicate. apply pending_work. rewrite Forall_lookup in Hw. specialize (Hw i w Hi).
    destruct w as [identity uid rq| | | |]; try done. by destruct rq.
Qed.

(** A worker for each job empties the queue. *)
Lemma finished_drained es n n' ts' :
  Forall (fun e => nonzero_float e = true) es -> net_inv C ok adapters cs registered n own_nil ->
  (length (jobs (sm (srv n))) <= length es)%nat ->
  tsteps (n, thread_of blake3 <$> (WPrefetch <$> es)) (n', ts') -> Forall finished ts' -> jobs (sm (srv n')) = [].
Proof.
  intros He Hn Hlen Hrun Hfin. apply length_zero_iff_nil, Nat.le_0_r.
  refine (finished_no_tokens workers_enough (WPrefetch <$> es) (replicate (length es) 1%nat) n n' ts' _ Hn _ _ _ Hrun Hfin).
  - by apply Forall_fmap.
  - by rewrite length_replicate, length_fmap.
  - unfold workers_enough. rewrite r_sum_tokens. lia.
  - intros i w c Hi [-> _]%lookup_replicate. apply list_lookup_fmap_Some in Hi as (e & -> & _). apply drain_work.
Qed.

Lemma finished_or_not (ts : list (thread (Net A))) : Forall finished ts \/ exists t, t ∈ ts /\ ~ finished t.
Proof.
  induction ts as [|t ts [IH|(t' & Hin & Ht)]]; [by left| |right; exists t'; split; [by apply list_elem_of_further|done]].
  destruct t as [r|f k]; [left; constructor; [by exists r|done]|right].
  exists (Step f k). split; [apply list_elem_of_here|]. by intros [r Hr].
Qed.

(** C9: no lookup is lost, and every lookup is answered.  Whatever threads run
    that meet the obligations [work_ok] (the one on the worker is that its clock
    moved: a measured time of zero would end it), whatever requests they handle
    (any number of lookups, ends and retrieves of the same session among them),
    and however they interleave: a lookup that is pending at any moment is still
    to be answered, by a thread that has not finished or by a job in the queue.
    Once they have finished, as many prefetch workers as there are jobs, in any
    order, leave no lookup pending: no client polls for ever. *)
Theorem lookups_are_answered works rid es (n n' n'' : Net A) ts' ts'' :
  Forall (work_ok C ok blake3 cs registered) works -> net_inv C ok adapters cs registered n own_nil ->
  (hits (sm (srv n)) !! rid = Some None -> has_job rid n) ->
  tsteps (n, thread_of blake3 <$> works) (n', ts') ->
  (hits (sm (srv n')) !! rid = Some None -> has_job rid n' \/ exists t, t ∈ ts' /\ ~ finished t) /\
  (Forall finished ts' ->
   Forall (fun e => nonzero_float e = true) es -> (length (jobs (sm (srv n'))) <= length es)%nat ->
   tsteps (n', thread_of blake3 <$> (WPrefetch <$> es)) (n'', ts'') -> Forall finished ts'' ->
   hits (sm (srv n'')) !! rid <> Some None).
Proof.
  intros Hw Hn Hrid Hrun. assert (accounted rid (sm (srv n)) 0) as Hacc.
  { intros Hp. rewrite Nat.add_0_r. by apply has_job_queued, Hrid. }
  split.
  - intros Hpend. destruct (finished_or_not ts') as [Hfin|Hrest]; [left|by right].
    apply has_job_queued. rewrite <- (Nat.add_0_r (queued _ _)).
    exact (finished_accounted works rid n n' ts' Hw Hn Hacc Hrun Hfin Hpend).
  - intros Hfin He Hlen Hrun' Hfin' Hpend.
    pose proof (finished_accounted works rid n n' ts' Hw Hn Hacc Hrun Hfin) as Hacc'.
    pose proof (works_settled C ok blake3 adapters cs registered works n n' ts' Hw Hn Hrun Hfin) as Hn'.
    pose proof (finished_drained es n' n'' ts'' He Hn' Hlen Hrun' Hfin') as Hj.
    pose proof (finished_accounted (WPrefetch <$> es) rid n' n'' ts'' ltac:(by apply Forall_fmap) Hn' Hacc' Hrun' Hfin' Hpend) as Hq.
    unfold queued in Hq. rewrite Hj in Hq. simpl in Hq. lia.
Qed.
End pending_claim.

(** *** A lookup that waits for the prefetcher *)

#[local] Existing Instance mock_laws.

Definition waiting_works : list work :=
  [WHandle [] 1 (RqLookup (mkLookupPayload "q" [1; 2] "m" 1)); WHandle [] 2 (RqEndSession "r");
   WHandle [] 3 (RqQuery (mkQueryPayload "q" 1)); WEvict].

Lemma waiting_works_ok : Forall (work_ok toy_C any_chunk last_byte 1 toy_registered) waiting_works.
Proof.
  unfold waiting_works. apply Forall_cons. split; [exact (proj1 (proj1 (Forall_cons _ _ _) lookup_works_ok))|].
  by repeat (apply Forall_cons; split).
Qed.

Definition all_done (ts : list (thread (Net Mock))) : bool := forallb (fun t => match t with Done _ => true | _ => false end) ts.

Lemma all_done_finished ts : all_done ts = true -> Forall finished ts.
Proof.
  intros H. apply Forall_forall. intros t Ht. apply list_elem_of_In in Ht. pose proof (proj1 (forallb_forall _ ts) H t Ht) as Hd.
  destruct t as [r|]; [by exists r|discriminate Hd].
Qed.

Definition waits (h : option (option hit_info)) : bool := match h with Some None => true | _ => false end.

Lemma waits_pending h : waits h = true -> h = Some None.
Proof. by destruct h as [[v|]|]. Qed.

(** LOOKUP, the end of another session, a query and an eviction. *)
Definition waiting_run : Net Mock * list (thread (Net Mock)) :=
  sched (concat (replicate 12 [0; 1; 2; 3]%nat)) (toy_net holding_stack, thread_of last_byte <$> waiting_works).

Lemma waiting_run_steps :
  tsteps (toy_net holding_stack, thread_of last_byte <$> waiting_works) (waiting_run.1, waiting_run.2).
Proof. rewrite <- surjective_pairing. apply sched_tsteps. Qed.

Lemma waiting_run_done : all_done waiting_run.2 = true.
Proof. vm_compute. reflexivity. Qed.

Lemma waiting_run_waits : waits (hits (sm (srv waiting_run.1)) !! "q"%string) = true.
Proof. vm_compute. reflexivity. Qed.

(** Then two workers, of which one finds the queue empty. *)
Definition answered_run : Net Mock * list (thread (Net Mock)) :=
  sched (concat (replicate 20 [0; 1]%nat)) (waiting_run.1, thread_of last_byte <$> (WPrefetch <$> [f_0_8; f_0_8])).

Lemma answered_run_steps :
  tsteps (waiting_run.1, thread_of last_byte <$> (WPrefetch <$> [f_0_8; f_0_8])) (answered_run.1, answered_run.2).
Proof. rewrite <- surjective_pairing. apply sched_tsteps. Qed.

Lemma answered_run_done : all_done answered_run.2 = true.
Proof. vm_compute. reflexivity. Qed.

Lemma waiting_run_queue : length (jobs (sm (srv waiting_run.1))) = 1%nat.
Proof. vm_compute. reflexivity. Qed.

Lemma not_waiting_before : waits (hits (sm (srv (toy_net holding_stack))) !! "q"%string) = false.
Proof. vm_compute. reflexivity. Qed.

Lemma lookups_are_answered_witness :
  has_job "q" waiting_run.1 /\ hits (sm (srv answered_run.1)) !! "q"%string <> Some None.
Proof.
  destruct (lookups_are_answered toy_C any_chunk last_byte 1 1 toy_registered waiting_works "q" [f_0_8; f_0_8]
              (toy_net holding_stack) waiting_run.1 answered_run.1 waiting_run.2 answered_run.2) as [H1 H2].
  - exact waiting_works_ok.
  - exact holding_net_inv.
  - intros H. pose proof not_waiting_before as Hn. rewrite H in Hn. discriminate Hn.
  - exact waiting_run_steps.
  - split.
    + destruct (H1 (waits_pending _ waiting_run_waits)) as [H|(t & Ht & Hn)]; [exact H|]. exfalso. apply Hn.
      exact (proj1 (Forall_forall _ _) (all_done_finished _ waiting_run_done) t Ht).
    + apply H2; [exact (all_done_finished _ waiting_run_done)| | |exact answered_run_steps|exact (all_done_finished _ answered_run_done)].
      * repeat constructor.
      * rewrite waiting_run_queue. apply Nat.le_succ_diag_r.
Defined.
