(* ===== verification/Clients.v ===== *)
(** A whole request of an engine, among everything else the server does.

    [load_cached] is what the connector makes of one prompt, with the operations
    of its tracker: look the prompt up, ask until the lookup has resolved, free
    the locks of the chunks the engine has itself, and retrieve the others.  The
    theorem follows this thread through LOOKUP, the prefetcher's work in other
    threads, the answer, FREE_LOOKUP_LOCKS and RETRIEVE. *)
From S2P Require Import Prelude PyFloat Protocol Hasher Memory L1Manager Eviction L1Protocol.
From S2P Require Import L2 Threads Storage StoreController Prefetch Server MQ Tracker Unlocking.
From S2P Require Import Evictor Resources Ownership Rely Interleaving ServerThreads Serving Still Sessions Releases Answers.
Local Open Scope py_scope.
Local Open Scope Z_scope.

(** ** The client *)

Section client.
Context {A : Type} `{!L2Ops A} (blake3 : bytes -> bytes) (cs bs : Z).
Context (identity : bytes) (uid1 uid2 uid3 : Z) (rid model : string) (i ws : Z).

(** The tokens the answer covers; a client that has asked [fuel] times gives
    up. *)
Fixpoint poll (fuel : nat) : prog (Net A) Z :=
  match fuel with
  | O => praise TimeoutError
  | S fuel' =>
      let! answer := on_srv (query (mkQueryPayload rid ws)) in
      match answer with RValue (VInt n) => pret n | _ => poll fuel' end
  end.

(** The tracker once the answer is there and vLLM has allocated [blocks]: the
    hooks [get_num_new_matched_tokens] and [update_state_after_alloc]. *)
Definition allocated (prompt blocks : list Z) (hits num_computed : Z) : RequestTracker * res (option Z) :=
  alloc_update cs blocks (if num_computed <? hits then hits - num_computed else 0)
    (resolve_hits hits num_computed (new_tracker prompt)).

Definition load_request (op : LoadStoreOp) : TransferPayload := mkTransferPayload rid i op [] f_0 0.

Definition load_cached (fuel : nat) (prompt blocks : list Z) (num_computed : Z) : prog (Net A) unit :=
  let! q := plift (py_floordiv (Zlen prompt) cs) in
  let! _ := handle blake3 identity uid1 (RqLookup (mkLookupPayload rid (py_take (q * cs) prompt) model ws)) in
  let! hits := poll fuel in
  let (tracker, r) := allocated prompt blocks hits num_computed in
  let! free_until := plift r in
  let! _ := match free_until with
            | Some n => handle blake3 identity uid2 (RqFreeLocks (mkFreeLocksPayload rid n ws))
            | None => pret tt
            end in
  let! op := plift (snd (generate_retrieve_op cs bs tracker)) in
  match op with
  | Some op => handle blake3 identity uid3 (RqRetrieve (load_request op))
  | None => pret tt
  end.
End client.

Section clients.
Context {A : Type} (C : ChunkKey -> bytes) (ok : ChunkKey -> Prop) `{!L2Ops A} `{!L2Laws A C ok}.
Context (blake3 : bytes -> bytes) (adapters : nat) (cs bs : Z) (registered : Z -> EngineInstance -> Prop).
Context (rid model : string) (i ws rank : Z) (prompt : list Z) (hs : list bytes) (from : Z).
Implicit Types n : Net A.

(** All chunks of the prompt; what the others have to leave to the session: the
    chunks of the client's rank, and for all ranks those the engine has. *)
Notation ks := (keys_for hs model (ranks ws)).
Notation start := (from / cs).
Notation mine := (keys_for hs model [rank] ++ keys_for (take (Z.to_nat start) hs) model (ranks ws)).
Notation tbl := (fun n => table rid (sm (srv n))).

Notation sess := (net_plain (one_lookup rid ks) cs registered).
Notation ninv := (net_inv C ok adapters cs registered).
Definition others_keep : Net A -> Net A -> Prop := net_change (spares rid ks mine) (engine_stays i).
Definition all_keep : Net A -> Net A -> Prop := net_change (answer_stays rid) (fun _ _ => True).
Notation J := (both_hold ninv sess).
Notation R := (both_relied ninv sess net_stays others_keep).
Notation OWN := (own_step net_stays all_keep).

(** What holds of the session from the start on: an answer is backed, and the
    engine is there. *)
Definition session_fine n : Prop := answer_held rid ks mine (sm (srv n)) /\ is_Some (instances (srv n) !! i).
Definition answered v n : Prop := hits (sm (srv n)) !! rid = Some (Some v).

Lemma R_spares n n' : R n n' -> spares rid ks mine (sm (srv n)) (sm (srv n')) /\ engine_stays i (instances (srv n)) (instances (srv n')).
Proof. by intros [(_ & H & _) _]. Qed.

Lemma OWN_answer n n' : OWN n n' -> answer_stays rid (sm (srv n)) (sm (srv n')).
Proof. by intros [_ [Hs _]]. Qed.

Lemma session_fine_stays n n' : R n n' -> session_fine n -> session_fine n'.
Proof. intros [Hs He]%R_spares [H1 H2]. split; [by apply Hs|by apply He]. Qed.

Lemma answered_stays v n n' : R n n' -> answered v n -> answered v n'.
Proof. intros [Hs _]%R_spares Hv. by apply (sp_answer _ _ _ _ _ Hs). Qed.

Lemma J_plain n c : J n -> net_plain (fun _ (_ : nat) => True) cs registered n c.
Proof. intros [_ [c' (_ & H1 & H2)]]. by split_and!. Qed.

(** ** LOOKUP *)

Notation fine_kept := (fun s s' => answer_held rid ks mine s -> answer_held rid ks mine s').

Lemma fine_step (s s' : Stack A) (c : nat) : hits s' = hits s -> held s' = held s -> jobs s' = jobs s -> True -> True /\ fine_kept s s'.
Proof. intros E1 E2 _ _. split; [done|]. apply (spares_same rid ks mine s s'); [by rewrite E1|by rewrite E2]. Qed.

Lemma fine_start keys nb :
  safe (fun _ (_ : nat) => True) fine_kept (@start_session A rid keys nb) 0%nat (fun _ _ => True).
Proof.
  apply (still_bind (fun _ _ => True)); [|intros _|done]; apply token_section; intros s cF _; eexists _, _, 0%nat;
    (split; [reflexivity|]); (split_and!; [done| |done]).
  - intros _ a b g Hh. simpl in Hh. by rewrite lookup_insert_eq in Hh.
  - by intros H.
Qed.

Lemma under_lookup identity uid toks n : session_fine n ->
  under J R OWN (handle blake3 identity uid (RqLookup (mkLookupPayload rid toks model ws))) n (fun _ n' => session_fine n').
Proof.
  apply (under_safe J R OWN session_fine (net_plain (fun _ (_ : nat) => True) cs registered)
    (net_change fine_kept (fun m m' => is_Some (m !! i) -> is_Some (m' !! i))) _ 0%nat _ (fun _ _ => True)).
  - intros m c. apply J_plain.
  - apply session_fine_stays.
  - intros m m' [H1 H2] [H3 H4]. split; auto.
  - apply (still_handle _ _ any_left fine_step); [by intros m|done|]. intros nb keys _. apply fine_start.
Qed.

(** ** The answer *)

(** The chunks of every rank the answer finds, and the tokens they cover. *)
Definition whole_chunks_found (v : hit_info) : Z := (v.1.1 + v.1.2) / ws.
Definition covers (v : hit_info) : Z := whole_chunks_found v * cs.

Lemma under_query n (Q : res (result A) -> Net A -> Prop) :
  0 < ws -> session_fine n ->
  (forall n', session_fine n' -> Q (Ok (RValue VNone)) n') ->
  (forall v n', session_fine n' -> answered v n' -> Q (Ok (RValue (VInt (covers v)))) n') ->
  under J R OWN (on_srv (query (mkQueryPayload rid ws))) n Q.
Proof.
  intros Hws Hn HN HV n1 HR1 HJ1 _. cbn [pbind fst snd pzoom qp_request_id qp_world_size].
  assert (set_srv (set_sm (sm (srv n1)) (srv n1)) n1 = n1) as -> by by destruct n1 as [[] ? ?].
  pose proof (rtc_stable R session_fine _ _ session_fine_stays HR1 Hn) as Hn1.
  destruct (hits (sm (srv n1)) !! rid) as [[[[a b] g]|]|] eqn:Eh; cbn [default]; [|by apply HN..].
  unfold py_floordiv. replace (ws =? 0) with false by lia. cbn [plift pbind pzoom].
  intros n2 HR2 HJ2 _. cbn [fst snd pzoom]. assert (set_srv (srv n2) n2 = n2) as -> by by destruct n2.
  destruct HJ2 as [_ [c (_ & -> & _)]]. apply (HV (a, b, g)).
  - by apply (rtc_stable R session_fine n1 n2 session_fine_stays).
  - by apply (rtc_stable R _ n1 n2 (answered_stays (a, b, g))).
Qed.

Lemma under_poll fuel n : 0 < ws -> session_fine n ->
  under J R OWN (poll rid ws fuel) n (fun r n' => forall upto, r = Ok upto ->
    exists v, session_fine n' /\ answered v n' /\ upto = covers v).
Proof.
  intros Hws. revert n. induction fuel as [|fuel IH]; intros n Hn; [done|]. cbn [poll].
  apply under_bind, under_query; [done|done|intros n' Hn'; by apply IH|].
  intros v n' Hn' Hv. intros upto [= <-]. by exists v.
Qed.

(** ** The chunks of the answer *)

(** What is freed, for all ranks, and what the client's rank retrieves. *)
Definition freed (v : hit_info) : list ChunkKey :=
  keys_for (take (Z.to_nat (Z.min start (whole_chunks_found v))) hs) model (ranks ws).
Definition covered (v : hit_info) : list ChunkKey :=
  keys_for (drop (Z.to_nat start) (take (Z.to_nat (whole_chunks_found v)) hs)) model [rank].

Lemma elem_of_keys_for k l m rs : k ∈ keys_for l m rs <-> exists h r, h ∈ l /\ r ∈ rs /\ k = mkChunkKey h m r.
Proof.
  unfold keys_for. rewrite list_elem_of_bind. split.
  - intros (h & Hk & Hh). apply list_elem_of_fmap in Hk as (r & -> & Hr). by exists h, r.
  - intros (h & r & Hh & Hr & ->). exists h. split; [|done]. apply list_elem_of_fmap. by exists r.
Qed.

Lemma keys_for_NoDup_hashes l m rs r : r ∈ rs -> NoDup (keys_for l m rs) -> NoDup l.
Proof.
  intros Hr. induction l as [|h l IH]; intros Hnd; [constructor|]. change (h :: l) with ([h] ++ l) in Hnd.
  rewrite keys_for_app in Hnd. apply NoDup_app in Hnd as (_ & Hd & Hl). constructor; [|by apply IH].
  intros Hh. apply (Hd (mkChunkKey h m r)); apply elem_of_keys_for; exists h, r; split_and!; try done. by apply list_elem_of_singleton.
Qed.

Lemma keys_for_NoDup_rank l m r : NoDup l -> NoDup (keys_for l m [r]).
Proof.
  intros Hl. assert (keys_for l m [r] = (fun h => mkChunkKey h m r) <$> l) as ->.
  { clear Hl. induction l as [|h l IH]; [done|].
    change (keys_for (h :: l) m [r]) with (mkChunkKey h m r :: keys_for l m [r]). by rewrite IH. }
  apply NoDup_fmap; [|done]. by intros h h' [= ->].
Qed.

(** The prompt and the engine of the client. *)
Record client_ok : Prop := {
  cl_cs : 0 < cs;
  cl_bs : 0 < bs;
  cl_hashes : chunk_hashes blake3 prompt cs = Ok hs;
  cl_nodup : NoDup ks;
  cl_ws : 0 < ws;
  cl_rank : 0 <= rank < ws;
  cl_engine : forall inst, instance_ok registered i inst -> ei_model inst = model /\ ei_world_size inst = ws /\ ei_rank inst = rank;
  cl_from : 0 <= from
}.
Context (client : client_ok).

Lemma start_nonneg : 0 <= start.
Proof using client. apply Z.div_pos; apply client. Qed.

Lemma hashes_NoDup : NoDup hs.
Proof using client.
  destruct client. apply (keys_for_NoDup_hashes hs model (ranks ws) 0); [|done]. apply elem_of_seqZ. lia.
Qed.

Lemma chunks_le_tokens : Zlen hs * cs <= Zlen prompt.
Proof using client.
  destruct client as [Hcs _ Hhs]. unfold Zlen. rewrite (chunk_hashes_length blake3 prompt cs hs Hcs Hhs), Nat2Z.inj_div, Z2Nat.id by lia.
  rewrite Z.mul_comm. apply Z.mul_div_le. lia.
Qed.

Section answer.
Context (v : hit_info) (in_prompt : 0 <= v.1.1 + v.1.2 <= Zlen ks).
Notation q := (whole_chunks_found v).

Lemma answer_in_prompt : 0 <= q <= Zlen hs.
Proof using client in_prompt.
  destruct client. destruct in_prompt as [H1 H2]. unfold whole_chunks_found. split; [apply Z.div_pos; lia|].
  unfold Zlen in *. rewrite keys_for_length, ranks_length in H2. apply Z.div_le_upper_bound; [done|]. lia.
Qed.

Lemma chunks_found x : 0 <= x <= q -> 0 <= x * ws <= v.1.1 + v.1.2.
Proof using client in_prompt.
  intros Hx. destruct client. pose proof (Z.mul_div_le (v.1.1 + v.1.2) ws ltac:(lia)). unfold whole_chunks_found in Hx. nia.
Qed.

Lemma keys_found x : 0 <= x -> take (Z.to_nat (x * ws)) ks = keys_for (take (Z.to_nat x) hs) model (ranks ws).
Proof using client.
  intros Hx. destruct client. rewrite <- (proj1 (keys_for_take_drop model hs (ranks ws) (Z.to_nat x))), ranks_length.
  by rewrite Z2Nat.inj_mul by lia.
Qed.

Lemma freed_eq : freed v = take (Z.to_nat (Z.min start q * ws)) ks.
Proof using client in_prompt. pose proof start_nonneg. pose proof answer_in_prompt. by rewrite keys_found by lia. Qed.

Lemma freed_mine k : k ∈ freed v -> k ∈ mine.
Proof using client in_prompt.
  pose proof start_nonneg. unfold freed. rewrite elem_of_app, !elem_of_keys_for. intros (h & r & Hh & Hr & ->). right.
  exists h, r. split_and!; [|done|done]. eapply (subseteq_take (Z.to_nat (Z.min start q))). rewrite take_take, Nat.min_l by lia. exact Hh.
Qed.

Lemma covered_hash h : h ∈ drop (Z.to_nat start) (take (Z.to_nat q) hs) -> h ∈ take (Z.to_nat q) hs /\ h ∈ drop (Z.to_nat start) hs.
Proof.
  intros Hh. split; [by eapply subseteq_drop|]. rewrite skipn_firstn_comm in Hh. by eapply subseteq_take.
Qed.

Lemma covered_mine k : k ∈ covered v -> k ∈ mine.
Proof.
  unfold covered. rewrite elem_of_app, !elem_of_keys_for. intros (h & r & [Hh _]%covered_hash & Hr & ->). left.
  exists h, r. split_and!; [|done|done]. by eapply subseteq_take.
Qed.

Lemma freed_not_covered k : k ∈ freed v -> k ∉ covered v.
Proof using client in_prompt.
  unfold freed, covered. rewrite !elem_of_keys_for. intros (h & r & Hh & _ & ->) (h' & r' & [_ Hh']%covered_hash & _ & [= <- _]).
  pose proof hashes_NoDup as Hnd. rewrite <- (take_drop (Z.to_nat start) hs) in Hnd. apply NoDup_app in Hnd as (_ & Hd & _).
  apply (Hd h); [|done]. pose proof start_nonneg.
  eapply (subseteq_take (Z.to_nat (Z.min start q))). rewrite take_take, Nat.min_l by lia. exact Hh.
Qed.

Lemma covered_NoDup : NoDup (covered v).
Proof using client. apply keys_for_NoDup_rank, NoDup_drop, NoDup_take, hashes_NoDup. Qed.

(** All of it is found. *)
Lemma needed_found k : k ∈ freed v ++ covered v -> k ∈ take (Z.to_nat (v.1.1 + v.1.2)) ks.
Proof using client in_prompt.
  pose proof start_nonneg as Hs. pose proof answer_in_prompt as Hq. intros Hk.
  assert (k ∈ take (Z.to_nat (q * ws)) ks) as H.
  { rewrite keys_found by lia. unfold freed, covered in Hk. rewrite elem_of_app, !elem_of_keys_for in Hk. apply elem_of_keys_for.
    destruct Hk as [(h & r & Hh & Hr & ->)|(h & r & [Hh _]%covered_hash & ->%list_elem_of_singleton & ->)].
    - exists h, r. split_and!; [|done|done]. eapply (subseteq_take (Z.to_nat (Z.min start q))). rewrite take_take, Nat.min_l by lia. exact Hh.
    - exists h, rank. split_and!; [done| |done]. apply elem_of_seqZ. pose proof (cl_rank client). lia. }
  pose proof (chunks_found q ltac:(lia)). eapply (subseteq_take (Z.to_nat (q * ws))). rewrite take_take, Nat.min_l by lia. exact H.
Qed.

(** Of the client's rank, it is all the answer covers. *)
Lemma promised_needed k : k ∈ keys_for (take (Z.to_nat q) hs) model [rank] -> k ∈ freed v ++ covered v.
Proof using client in_prompt.
  pose proof start_nonneg as Hs. pose proof answer_in_prompt as Hq. unfold freed, covered. rewrite elem_of_app, !elem_of_keys_for.
  intros (h & r & Hh & Hr & ->). rewrite <- (take_drop (Z.to_nat start) (take (Z.to_nat q) hs)), take_take in Hh.
  apply elem_of_app in Hh as [Hh|Hh]; [left|right]; exists h, r; split_and!; try done.
  - by rewrite Z2Nat.inj_min.
  - apply list_elem_of_singleton in Hr as ->. apply elem_of_seqZ. pose proof (cl_rank client). lia.
Qed.

Lemma covered_nonempty : from < covers v -> covered v <> [].
Proof using client in_prompt.
  intros Hlt E. pose proof start_nonneg. pose proof answer_in_prompt as Hq. destruct client.
  apply (f_equal length) in E. unfold covered in E. rewrite keys_for_length, length_drop, length_take in E. simpl in E.
  assert (start < q) as Hlt' by (apply Z.div_lt_upper_bound; [done|]; unfold covers in Hlt; lia). unfold Zlen in Hq. lia.
Qed.
End answer.

(** ** The operations of the tracker *)

Definition retrieve_op (blocks : list Z) (hits : Z) : LoadStoreOp :=
  mkLoadStoreOp (py_take hits prompt) (py_slice (start * cs / bs) (hits / bs) blocks) (start * cs) hits (from - start * cs).

Lemma allocated_spec blocks hits :
  exists t, allocated cs prompt blocks hits from
      = (t, Ok (let n := if from <? hits then Z.min start (hits / cs) else hits / cs in if n =? 0 then None else Some n)) /\
    snd (generate_retrieve_op cs bs t) = Ok (if from <? hits then Some (retrieve_op blocks hits) else None).
Proof using client.
  destruct client. unfold allocated. rewrite alloc_update_run by done. simpl alloc_seen. cbv iota.
  eexists. split.
  - f_equal. destruct (Z.ltb_spec from hits); simpl; [|done]. by replace (0 <? hits - from) with true by lia.
  - rewrite retrieve_op_run by done. destruct (Z.ltb_spec from hits); simpl; [|done].
    replace (0 <? hits - from) with true by lia. simpl. by rewrite drop_0.
Qed.

Lemma chunks_covered v : covers v / cs = whole_chunks_found v.
Proof using client. destruct client. unfold covers. apply Z.div_mul. lia. Qed.

(** What is freed comes before what is retrieved, if anything is. *)
Lemma freed_chunks v :
  (if from <? covers v then Z.min start (covers v / cs) else covers v / cs) = Z.min start (whole_chunks_found v).
Proof using client.
  rewrite chunks_covered. destruct (Z.ltb_spec from (covers v)) as [|Hle]; [done|]. symmetry. apply Z.min_r.
  rewrite <- chunks_covered. apply Z.div_le_mono; [apply client|done].
Qed.

Lemma op_start_whole : whole cs (start * cs).
Proof using client. pose proof start_nonneg. destruct client. split; [nia|]. apply Z_mod_mult. Qed.

Lemma load_keys blocks v inst :
  instance_ok registered i inst -> 0 <= v.1.1 + v.1.2 <= Zlen ks ->
  op_keys blake3 cs (retrieve_op blocks (covers v)) inst = Ok (covered v).
Proof using client.
  intros Hinst Hv. pose proof (answer_in_prompt v Hv) as Hq. pose proof chunks_le_tokens as Hl.
  pose proof op_start_whole. destruct client as [Hcs _ Hhs _ _ _ He _]. destruct (He inst Hinst) as (Em & _ & Er).
  rewrite (op_keys_prefix blake3 cs Hcs prompt hs); simpl; [|done|done| | |done].
  - unfold covered. by rewrite chunks_covered, Z.div_mul, Em, Er by lia.
  - split; [unfold covers; nia|]. unfold covers. apply Z_mod_mult.
  - unfold covers. nia.
Qed.

(** Whatever the number of tokens the operation is for, its chunks are distinct. *)
Lemma retrieve_op_ok blocks hits :
  request_ok C ok blake3 cs registered (RqRetrieve (load_request rid i (retrieve_op blocks hits))).
Proof using client.
  intros inst keys Hinst. unfold op_keys, load_request, retrieve_op, py_take, py_drop, py_floordiv. simpl. rewrite take_take.
  pose proof hashes_NoDup as Hnd. destruct client as [Hcs _ Hhs _ _ _ He _]. destruct (He inst Hinst) as (-> & _ & ->).
  destruct (chunk_hashes blake3 (take _ prompt) cs) as [hh|e] eqn:Eh; [|done]. simpl.
  replace (cs =? 0) with false by lia. simpl. intros [= <-].
  apply keys_for_NoDup_rank, NoDup_drop. rewrite (chunk_hashes_prefix blake3 prompt _ cs hs hh Hcs Hhs Eh). by apply NoDup_take.
Qed.

(** ** FREE_LOOKUP_LOCKS and RETRIEVE *)

Notation JK := (fun _ : Stack A => True).
Notation RK := (spares rid ks mine).
Notation SK := (fun _ _ : Stack A => True).
Notation JV := (fun _ : Server A => True).
Notation RV := (fun s s' : Server A => spares rid ks mine (sm s) (sm s') /\ engine_stays i (instances s) (instances s')).
Notation SV := (fun _ _ : Server A => True).
Notation engine s := (is_Some (instances s !! i)).

(** A program on the sessions, under the relations of the server. *)
Lemma under_sessions (F : Server A -> Prop) {B} (p : prog (Stack A) B) (s : Server A) Q :
  (forall s s', RV s s' -> F s -> F s') -> (forall x s, F s -> F (set_sm x s)) -> F s ->
  under JK RK SK p (sm s) Q -> under JV RV SV (on_sm p) s (fun r s' => F s' /\ Q r (sm s')).
Proof.
  intros H1 H2 Hs Hp. apply (under_zoom JV RV SV JK RK SK F sm set_sm); try done. by intros w w' [].
Qed.

Lemma under_server {B} (p : prog (Server A) B) n Q :
  under JV RV SV p (srv n) Q -> under J R OWN (on_srv p) n (fun r n' => Q r (srv n')).
Proof.
  intros Hp. eapply under_mono.
  - apply (under_zoom J R OWN JV RV SV (fun _ => True) srv set_srv _ _ (fun r s => Q r s)); try done. apply R_spares.
  - by intros r n' [_ H].
Qed.

(** What the session still has to have. *)
Definition has_left v (l : list ChunkKey) n : Prop := holding rid ks v l (sm (srv n)) /\ engine (srv n).

Lemma has_left_stays v l n n' : (forall k, k ∈ l -> k ∈ mine) -> R n n' -> has_left v l n -> has_left v l n'.
Proof. intros Hl [Hs He]%R_spares [H1 H2]. split; [|by apply He]. by apply (holding_stays rid ks mine v l (sm (srv n))). Qed.

Definition given_back v (l : list ChunkKey) n : Prop := gone rid v l (sm (srv n)).

Lemma given_back_stays v l n n' : R n n' -> given_back v l n -> given_back v l n'.
Proof. intros [Hs _]%R_spares. apply (gone_stays rid ks mine v l _ _ Hs). Qed.

Lemma given_back_own v l n n' : OWN n n' -> given_back v l n -> given_back v l n'.
Proof. intros H%OWN_answer. apply (gone_answer rid v l _ _ H). Qed.

(** A fine session has what the answer promises. *)
Lemma answer_holds v n : session_fine n -> answered v n ->
  0 <= v.1.1 + v.1.2 <= Zlen ks /\ has_left v (freed v ++ covered v) n.
Proof using client.
  intros [Hh He] Hv. pose proof Hv as Hv'. destruct v as [[a b] g]. destruct (Hh a b g Hv) as (Hab & Hs & Hk). split; [done|].
  split; [|done]. split; [done|]. split; [done|]. intros k Hin. apply elem_of_table, Hk.
  - apply elem_of_app in Hin as [Hin|Hin]; [by apply (freed_mine (a, b, g))|by apply (covered_mine (a, b, g))].
  - by apply (needed_found (a, b, g)).
Qed.
Section found.
Context (v : hit_info) (in_prompt : 0 <= v.1.1 + v.1.2 <= Zlen ks).

Lemma under_free identity uid n :
  has_left v (freed v ++ covered v) n ->
  under J R OWN
    (handle blake3 identity uid (RqFreeLocks (mkFreeLocksPayload rid (Z.min start (whole_chunks_found v)) ws))) n
    (fun _ n' => given_back v (freed v) n' /\ has_left v (covered v) n').
Proof using client in_prompt.
  intros [Hn He]. set (Post := fun n => given_back v (freed v) n /\ has_left v (covered v) n).
  assert (forall n1 n2, rtc R n1 n2 -> Post n1 -> Post n2) as Hpost.
  { intros n1 n2 HR [H1 H2]. split; [exact (rtc_stable R _ _ _ (given_back_stays v _) HR H1)|].
    exact (rtc_stable R _ _ _ (fun a b => has_left_stays v _ a b (covered_mine v)) HR H2). }
  assert (forall (r : res unit) n1, Post n1 -> match r with
      Ok b => Post n1 | Raise e => under J R OWN (atomic (send (mkMsg identity uid false (BExc e) []))) n1 (fun _ => Post) end) as Hend.
  { intros [[]|e] n1 H1; [done|]. apply under_atomic. intros n2 HR _. eexists _, _. split; [reflexivity|]. exact (Hpost _ _ HR H1). }
  apply under_try, under_bind. eapply under_mono.
  { apply (under_server _ n (fun r s => (forall x, r = Ok x -> x = RValue (VBool true)) /\
      engine s /\ gone rid v (freed v) (sm s) /\ holding rid ks v (covered v) (sm s))).
    cbn [dispatch_request]. unfold free_locks. cbn [fp_request_id fp_num_chunks fp_world_size]. apply under_bind. eapply under_mono.
    { apply (under_sessions (fun s => engine s)); [intros s s' [_ HE]; apply HE|done|exact He|]. rewrite freed_eq in Hn by done.
      pose proof start_nonneg. pose proof (answer_in_prompt v in_prompt) as Hq. pose proof in_prompt as Hp.
      pose proof (chunks_found v in_prompt (Z.min start (whole_chunks_found v)) ltac:(lia)).
      apply (under_release_first rid ks mine (cl_nodup client) _ (covered v) v); [unfold Zlen in *; lia|lia| | |exact Hn].
      - intros k. rewrite <- freed_eq by done. by apply freed_not_covered.
      - intros k. rewrite <- freed_eq by done. rewrite elem_of_app. intros [Hk|Hk]; [by apply (freed_mine v)|by apply (covered_mine v)]. }
    rewrite <- freed_eq by done. intros [[]|e] s (H1 & H2 & H3); [|by split_and!]. split_and!; try done. by intros x [= <-]. }
  intros r n1 (Hr & H1 & H2 & H3). assert (Post n1) as Hn1 by by split.
  destruct r as [x|e]; [|by apply (Hend (Raise e))]. rewrite (Hr x) by done. apply under_atomic. intros n2 HR _.
  eexists _, _. split; [reflexivity|]. apply Hend. exact (Hpost _ _ HR Hn1).
Qed.

(** The callback of RETRIEVE. *)
Lemma under_post_send (s : Server A) :
  holding rid ks v [] (sm s) ->
  under JV RV SV (post_send rid (covered v)) s (fun _ s' => gone rid v (covered v) (sm s')).
Proof using client in_prompt.
  intros H2. unfold post_send. apply under_bind. eapply under_mono.
  - apply (under_sessions (fun _ => True) _ _ (fun r s' => r = Ok tt /\ holding rid ks v [] s')); try done.
    apply under_atomic. intros s1 HR _. unfold zoom. destruct (promote_total (l1 s1) (covered v)) as [x ->].
    eexists _, _. split; [reflexivity|]. split; [done|]. apply holding_l1.
    refine (rtc_stable RK _ _ _ _ HR H2). intros a b Ha. apply (holding_nil_answer rid ks v), Ha.
  - intros r s1 (_ & -> & H1). eapply under_mono.
    + apply (under_sessions (fun _ => True)); [done|done|done|].
      apply (under_release rid ks mine (covered v) [] v); [by apply covered_NoDup| | |exact H1].
      * intros k _. apply not_elem_of_nil.
      * intros k Hk. by apply elem_of_nil in Hk.
    + by intros r s2 (_ & H3 & _).
Qed.

Lemma under_load identity uid blocks n :
  from < covers v -> given_back v (freed v) n -> has_left v (covered v) n ->
  under J R OWN (handle blake3 identity uid (RqRetrieve (load_request rid i (retrieve_op blocks (covers v))))) n
    (fun _ n' => on_wire (mkMsg identity uid true (BValue VNone) (C <$> covered v)) n' /\ given_back v (freed v ++ covered v) n').
Proof using client in_prompt.
  intros Hlt Hfree [Hleft He].
  set (F := fun n => given_back v (freed v) n /\ holding rid ks v [] (sm (srv n))).
  assert (forall n1 n2, answer_stays rid (sm (srv n1)) (sm (srv n2)) -> F n1 -> F n2) as HF.
  { intros n1 n2 Ha [H1 H2]. split; [by apply (gone_answer rid v _ _ _ Ha)|by apply (holding_nil_answer rid ks v _ _ Ha)]. }
  apply (under_handle_post C ok blake3 adapters cs registered rid i (covered v) J R OWN F (given_back v (freed v ++ covered v))).
  - by intros m [H _].
  - intros m m' [(HG & [Hs HE] & HI) _]. split_and!; [done| |done]. split; [|done]. intros k Hk Hin.
    apply (sp_holds _ _ _ _ _ Hs); [by apply (covered_mine v)|exact Hin].
  - by intros m m' [[_ Hw] _].
  - intros m m' [Hs _]%R_spares. apply HF, Hs.
  - intros m m' Ha%OWN_answer. by apply HF.
  - intros m m' E. unfold F, given_back. by rewrite E.
  - intros m m'. apply given_back_stays.
  - intros m m' E. unfold given_back. by rewrite E.
  - intros m [H1 H2] _. eapply under_mono.
    + apply (under_always J R OWN (given_back v (freed v)) _ _ (fun _ m' => given_back v (covered v) m'));
        [apply given_back_stays|apply given_back_own|exact H1|].
      apply (under_server _ m (fun _ s => gone rid v (covered v) (sm s))). by apply under_post_send.
    + cbn beta. intros r m' [H3 H4]. split; [apply H3|]. intros k [Hk|Hk]%elem_of_app; [by apply H3|by apply H4].
  - done.
  - done.
  - by apply covered_nonempty.
  - intros inst Hinst. pose proof (cl_engine client inst Hinst) as (_ & -> & _). pose proof (cl_ws client). split; [lia|].
    by apply load_keys.
  - split; [|exact He]. intros k Hk. by apply elem_of_table, Hleft.
  - split; [exact Hfree|]. apply (holding_fewer rid ks v (covered v)); [|exact Hleft]. intros k Hk. by apply elem_of_nil in Hk.
Qed.
End found.
(** ** The client among the other threads *)

Notation nsafe := (safe ninv net_stays).

Lemma safe_poll fuel (Q : res Z -> own -> Prop) :
  (forall upto, Q (Ok upto) own_nil) -> (forall e, Q (Raise e) own_nil) -> nsafe (poll rid ws fuel) own_nil Q.
Proof.
  intros HQ HE. induction fuel as [|fuel IH]; cbn [poll]; [apply HE|].
  apply safe_bind, safe_on_srv, safe_server_query; [|apply HE]. intros v. destruct v; first [apply HQ|exact IH].
Qed.

Notation wsafe strict := (safe sess (net_change (spares_if rid ks mine strict) (engine_stays_if i strict))).

Lemma session_poll strict fuel c : wsafe strict (@poll A rid ws fuel) c anything.
Proof.
  revert c. induction fuel as [|fuel IH]; intros c; [done|]. cbn [poll].
  apply safe_bind, still_on_srv. eapply safe_mono.
  - by apply (still_dispatch _ _ any_left (session_step rid ks mine strict) blake3 cs registered (engine_stays_if i strict)
      ltac:(by intros m _ Hm) (RqQuery (mkQueryPayload rid ws)) c).
  - intros [[v|]|e] c' _; [destruct v; done || apply IH|apply IH|done].
Qed.

(** The tokens of LOOKUP: the whole chunks of the prompt. *)
Definition lookup_tokens : list Z := py_take (Zlen prompt / cs * cs) prompt.

Lemma lookup_tokens_hashes : chunk_hashes blake3 lookup_tokens cs = Ok hs.
Proof using client.
  destruct client as [Hcs _ Hhs]. unfold lookup_tokens. pose proof (chunk_hashes_length blake3 prompt cs hs Hcs Hhs) as Hl.
  rewrite py_take_nonneg by (apply Z.mul_nonneg_nonneg; [apply Z.div_pos; [apply Zlen_nonneg|]|]; lia).
  assert (Z.to_nat (Zlen prompt / cs * cs) = (length hs * Z.to_nat cs)%nat) as ->.
  { rewrite Hl, Z2Nat.inj_mul by (try apply Z.div_pos; unfold Zlen; lia). f_equal. unfold Zlen.
    rewrite Z2Nat.inj_div, Nat2Z.id by lia. done. }
  rewrite (chunk_hashes_take blake3 prompt cs hs (length hs) Hcs Hhs) by done. by rewrite take_ge.
Qed.

Context (works : list work) (identity : bytes) (uid1 uid2 uid3 : Z) (fuel : nat) (blocks : list Z).
Notation load := (load_cached (A := A) blake3 cs bs identity uid1 uid2 uid3 rid model i ws fuel prompt blocks from).
Notation reply v := (mkMsg identity uid3 true (BValue VNone) (C <$> covered v)).

(** The client, with the operations of the tracker worked out. *)
Lemma load_cached_eq :
  load = (let! _ := handle blake3 identity uid1 (RqLookup (mkLookupPayload rid lookup_tokens model ws)) in
          let! hits := poll rid ws fuel in
          let (t, r) := allocated cs prompt blocks hits from in
          let! free_until := plift r in
          let! _ := match free_until with
                    | Some n => handle blake3 identity uid2 (RqFreeLocks (mkFreeLocksPayload rid n ws))
                    | None => pret tt
                    end in
          let! op := plift (snd (generate_retrieve_op cs bs t)) in
          match op with
          | Some op => handle blake3 identity uid3 (RqRetrieve (load_request rid i op))
          | None => pret tt
          end).
Proof using client.
  destruct client. unfold load_cached, plift, py_floordiv. replace (cs =? 0) with false by lia. done.
Qed.

Lemma safe_load_cached :
  request_ok C ok blake3 cs registered (RqLookup (mkLookupPayload rid lookup_tokens model ws)) ->
  nsafe load own_nil all_given_back.
Proof using client.
  intros H1. rewrite load_cached_eq. apply safe_bind. eapply safe_mono; [by apply safe_handle|]. intros [[]|e] o ->; [|done].
  apply safe_bind, safe_poll; [|done]. intros hits. destruct (allocated_spec blocks hits) as (t & -> & Hop). rewrite Hop.
  unfold plift. cbn [pbind]. set (n := if from <? hits then _ else _). cbv zeta. apply safe_bind.
  apply (safe_mono _ _ _ _ (fun _ o => o = own_nil)).
  - destruct (n =? 0); [done|]. eapply safe_mono; [by apply safe_handle|]. by intros r o.
  - intros [[]|e] o ->; [|done]. destruct (from <? hits); [|done]. apply safe_handle; [apply retrieve_op_ok|done].
Qed.

(** The client holds the token of the lookup. *)
Lemma session_load_cached strict : ~ strict -> wsafe strict load 1%nat anything.
Proof using client.
  intros Hst. pose proof (cl_nodup client) as Hnd. rewrite load_cached_eq. apply safe_bind.
  assert (forall uid rq c, request_still (A := A) (one_lookup rid ks) (spares_if rid ks mine strict) any_left blake3 cs registered
    (engine_stays_if i strict) rq c -> wsafe strict (handle (A := A) blake3 identity uid rq) c anything) as Hh.
  { intros uid rq c. apply (still_handle _ _ any_left (session_step rid ks mine strict)); [by intros m _ Hm|done]. }
  eapply safe_mono.
  - apply Hh. intros [nb|] keys; cbn; rewrite ?lookup_tokens_hashes; intros [= <-]; apply own_start_session; [done|apply prefix_nil].
  - intros [[]|e] c _; [|done]. apply safe_bind. eapply safe_mono; [apply session_poll|].
    intros [hits|e] c' _; [|done]. destruct (allocated_spec blocks hits) as (t & -> & Hop). rewrite Hop.
    unfold plift. cbn [pbind]. set (n := if from <? hits then _ else _). cbv zeta. apply safe_bind.
    apply (safe_mono _ _ _ _ anything).
    + destruct (n =? 0); [done|]. apply Hh. apply still_release_first. intros Hs. by destruct Hst.
    + intros [[]|e] c'' _; [|done]. destruct (from <? hits); [|done]. apply Hh. apply quiet_still. intros Hs. by destruct Hst.
Qed.

(** The session before its LOOKUP. *)
Definition unknown_session n : Prop :=
  hits (sm (srv n)) !! rid = None /\ held (sm (srv n)) !! rid = None /\ no_job rid (sm (srv n)).

Lemma unknown_one_lookup n : unknown_session n -> one_lookup rid ks (sm (srv n)) 1%nat.
Proof.
  intros (H1 & H2 & H3). destruct (no_job_one_lookup rid ks _ H3) as [K1 K2 _].
  assert (queued rid (sm (srv n)) = 0%nat) as Eq by by apply no_job_queued.
  split; [done|lia|]. intros _. split.
  - intros [v Hv]. pose proof (eq_trans (eq_sym H1) Hv). discriminate.
  - intros k (h & Hh & _). pose proof (eq_trans (eq_sym H2) Hh). discriminate.
Qed.

(** What the client achieves beside threads that spare its session. *)
Definition served n : Prop := exists v, 0 <= v.1.1 + v.1.2 <= Zlen ks /\
  given_back v (freed v ++ covered v) n /\ (from < covers v -> on_wire (reply v) n).

Lemma under_client n : session_fine n -> under J R OWN load n (fun r n' => r = Ok tt -> served n').
Proof using client.
  intros Hn. rewrite load_cached_eq. apply under_bind. eapply under_mono; [by apply under_lookup|].
  intros [[]|e] n1 Hn1; [|done]. apply under_bind. eapply under_mono; [apply under_poll; [apply client|done]|].
  intros [hits|e] n2 Hn2; [|done]. destruct (Hn2 hits eq_refl) as (v & Hf2 & Hv & ->). clear Hn2.
  destruct (answer_holds v n2 Hf2 Hv) as [Hrange Hhas]. destruct (allocated_spec blocks (covers v)) as (t & -> & Hop). rewrite Hop.
  unfold plift. cbn [pbind]. rewrite freed_chunks. cbv zeta. apply under_bind.
  apply (under_mono _ _ _ _ _ (fun _ n' => given_back v (freed v) n' /\ has_left v (covered v) n')).
  - destruct (Z.eqb_spec (Z.min start (whole_chunks_found v)) 0) as [E|_].
    + assert (freed v = []) as Ef by (unfold freed; by rewrite E). rewrite Ef in Hhas |- *. split; [|exact Hhas].
      split; [exact Hv|]. intros k Hk. by apply elem_of_nil in Hk.
    + by apply under_free.
  - intros [[]|e] n3 [H3 H4]; [|done]. destruct (Z.ltb_spec from (covers v)) as [Hlt|Hle].
    + eapply under_mono; [by apply under_load|]. intros r n4 [Hm Hg] _. by exists v.
    + intros _. exists v. split; [done|]. split; [|lia]. assert (covered v = []) as ->; [|by rewrite app_nil_r].
      unfold covered. rewrite (drop_ge (take _ hs)); [done|]. rewrite length_take.
      pose proof (freed_chunks v) as Ec. rewrite chunks_covered in Ec. replace (from <? covers v) with false in Ec by lia.
      pose proof start_nonneg. lia.
Qed.

Lemma served_stays n n' : rtc R n n' -> served n -> served n'.
Proof.
  intros HR (v & Hv & Hg & Hm). exists v. split; [done|]. split; [exact (rtc_stable R _ _ _ (given_back_stays v _) HR Hg)|].
  intros Hlt. refine (rtc_stable R (on_wire (reply v)) n n' _ HR (Hm Hlt)). intros m m' (([_ Hw] & _) & _). by apply on_wire_prefix.
Qed.

(** All threads together keep the session to one lookup, and all but the client
    spare it. *)
Lemma client_threads n :
  net_inv C ok adapters cs registered n own_nil -> unknown_session n ->
  (forall id uid rq, WHandle id uid rq ∈ works -> other_ok blake3 cs registered rid i mine rq) ->
  exists os, threads_ok sess (respecting all_keep others_keep 0) (fun _ => anything)
    (n, load :: (thread_of blake3 <$> works)) os.
Proof using client.
  intros Hn Hnew Hothers.
  apply (threads_start_one sess (respecting all_keep others_keep 0) (session_proper cs registered rid ks) _ _ _ 0 1%nat);
    [simpl; lia|done|..].
  - destruct Hn as [_ H1 H2 _]. split_and!; [by apply unknown_one_lookup|done|done].
  - intros [|j] t Ht; simpl in Ht.
    + injection Ht as <-. eapply safe_guar; [|apply (session_load_cached False); tauto].
      intros m m' [[H1 _] _]. split; [by split|]. intros Hne. by destruct Hne.
    + apply list_lookup_fmap_Some in Ht as (w & -> & Hj).
      eapply safe_guar; [|apply (session_work blake3 cs registered rid i ks mine (cl_nodup client) True)].
      { intros m m' [[H0 H1] H2]. split; [by split|]. intros _. split; [by apply H1|by apply H2]. }
      destruct w as [id' uid' rq| | | |]; try done. pose proof (Hothers id' uid' rq (list_elem_of_lookup_2 _ _ _ Hj)) as Ho.
      destruct rq; first [exact Ho|intros _; exact Ho].
Qed.

(** C4: an engine that asks gets what it was promised, and gives back what it
    held for it.  A client thread does what the connector does for a prompt of
    which the engine has the first [from] tokens: LOOKUP, poll,
    FREE_LOOKUP_LOCKS and RETRIEVE, with the operations the tracker generates.
    Any other threads of the server run beside it: requests of any other session,
    the RETRIEVEs of the other ranks of its own, any number of prefetch workers
    (one of which must find its lookup in the queue), write-back, eviction, the
    I/O thread.  If it comes to an end without giving up, the answer is still
    what the server has on record; unless there was nothing to retrieve, the
    contents of exactly the covered chunks of its rank, from the one in which the
    engine's own tokens end, are on the wire; and the session holds no more any
    chunk of that rank the answer covers, nor any chunk the engine had itself. *)
Theorem client_is_served n n' ts' :
  request_ok C ok blake3 cs registered (RqLookup (mkLookupPayload rid lookup_tokens model ws)) ->
  Forall (work_ok C ok blake3 cs registered) works ->
  net_inv C ok adapters cs registered n own_nil ->
  unknown_session n -> is_Some (instances (srv n) !! i) ->
  (forall id uid rq, WHandle id uid rq ∈ works -> other_ok blake3 cs registered rid i mine rq) ->
  tsteps (n, load :: (thread_of blake3 <$> works)) (n', ts') -> ts' !! 0%nat = Some (Done (Ok tt)) ->
  exists v, hits (sm (srv n')) !! rid = Some (Some v) /\ 0 <= whole_chunks_found v <= Zlen hs /\
    (from < covers v -> mkMsg identity uid3 true (BValue VNone) (C <$> covered v) ∈ wire n') /\
    (forall k, k ∈ freed v \/ k ∈ keys_for (take (Z.to_nat (whole_chunks_found v)) hs) model [rank] ->
       k ∉ table rid (sm (srv n'))).
Proof using client.
  intros Hrq Hw Hn Hnew Hi Hothers Hrun Hdone.
  destruct (run_under ninv sess net_stays all_keep others_keep 0 (net_inv_proper C ok adapters cs registered)
    (session_proper cs registered rid ks) (fun _ => all_given_back) (fun _ => anything)
    (fun r m => r = Ok tt -> served m) load (n, load :: (thread_of blake3 <$> works)) (n', ts'))
    as (t' & n0 & Ht' & Hu & HR).
  - apply threads_start; [apply net_inv_proper|done|]. intros [|j] t Ht; simpl in Ht.
    + injection Ht as <-. by apply safe_load_cached.
    + by eapply safe_works.
  - by apply client_threads.
  - reflexivity.
  - apply under_client. split; [|done]. destruct Hnew as (Hh & _). intros a b g Hab.
    pose proof (eq_trans (eq_sym Hh) Hab). discriminate.
  - exact Hrun.
  - pose proof (eq_trans (eq_sym Ht') Hdone) as Heq. injection Heq as ->.
    destruct (served_stays n0 n' HR (Hu eq_refl)) as (v & Hv & [Hans Hg] & Hm). exists v.
    split; [exact Hans|]. split; [by apply answer_in_prompt|]. split; [exact Hm|].
    intros k Hk. apply Hg. destruct Hk as [Hk|Hk]; [apply elem_of_app; by left|by apply promised_needed].
Qed.
End clients.

(** *** A client beside the end of another session *)

#[local] Existing Instance mock_laws.

(** The engine has the first token, a chunk, itself. *)
Definition toy_client : prog (Net Mock) unit :=
  load_cached last_byte 1 1 [Byte.x2a] 1 2 3 "q" "m" 7 1 3 [1; 2] [10; 11] 1.
Definition client_works : list work := [WPrefetch f_0_8; WEvict; WHandle [] 4 (RqEndSession "r"); WWriteBack; WFlush].

(** LOOKUP is handled, then everybody takes turns. *)
Definition client_run : Net Mock * list (thread (Net Mock)) :=
  sched (replicate 5 0%nat ++ replicate 40 1%nat ++ concat (replicate 25 [0; 2; 3; 4; 5]%nat))
    (toy_net holding_stack, toy_client :: (thread_of last_byte <$> client_works)).

Notation toy_hashes := [[Byte.x01]; [Byte.x02]].
Notation toy_mine := (keys_for toy_hashes "m" [0] ++ keys_for (take 1 toy_hashes) "m" (ranks 1)).

Lemma client_works_ok : Forall (work_ok toy_C any_chunk last_byte 1 toy_registered) client_works.
Proof. unfold client_works. by repeat (apply Forall_cons; split). Qed.

Lemma client_works_spare identity uid rq :
  WHandle identity uid rq ∈ client_works -> other_ok last_byte 1 toy_registered "q" 7 toy_mine rq.
Proof. intros Hin. repeat (apply elem_of_cons in Hin as [Hin|Hin]; [by simplify_eq/=|]). by apply elem_of_nil in Hin. Qed.

Lemma toy_client_ok : client_ok last_byte 1 1 toy_registered "m" 7 1 0 [1; 2] toy_hashes 1.
Proof. split; [done|done|by vm_compute|exact toy_nodup|done|done|by intros inst [[_ ->] _]|done]. Qed.

Lemma toy_client_lookup :
  request_ok toy_C any_chunk last_byte 1 toy_registered (RqLookup (mkLookupPayload "q" (lookup_tokens 1 [1; 2]) "m" 1)).
Proof. exact (proj1 (proj1 (Forall_cons _ _ _) lookup_works_ok)). Qed.

Lemma holding_unknown : unknown_session "q" (toy_net holding_stack).
Proof. split_and!; [vm_compute; reflexivity..|constructor]. Qed.

Lemma client_run_done : match client_run.2 !! 0%nat with Some (Done (Ok tt)) => true | _ => false end = true.
Proof. vm_compute. reflexivity. Qed.

Lemma client_run_found : both_found (hits (sm (srv client_run.1)) !! "q"%string) = true.
Proof. vm_compute. reflexivity. Qed.

Lemma client_run_steps :
  tsteps (toy_net holding_stack, toy_client :: (thread_of last_byte <$> client_works)) (client_run.1, client_run.2).
Proof. rewrite <- surjective_pairing. apply sched_tsteps. Qed.

Lemma client_is_served_witness :
  mkMsg [Byte.x2a] 3 true (BValue VNone) [toy_C kb] ∈ wire client_run.1 /\
  ka ∉ table "q" (sm (srv client_run.1)) /\ kb ∉ table "q" (sm (srv client_run.1)).
Proof.
  pose proof client_run_done as Hd. pose proof client_run_found as Hf.
  destruct (client_run.2 !! 0%nat) as [[[[]|e]|f k]|] eqn:Ed; try discriminate Hd.
  destruct (client_is_served toy_C any_chunk last_byte 1 1 1 toy_registered "q" "m" 7 1 0 [1; 2] toy_hashes 1 toy_client_ok
              client_works [Byte.x2a] 1 2 3 3 [10; 11] (toy_net holding_stack) client_run.1 client_run.2)
    as ([[a b] g] & Ev & _ & Hm & Hg).
  - exact toy_client_lookup.
  - exact client_works_ok.
  - exact holding_net_inv.
  - exact holding_unknown.
  - exists toy_inst. apply lookup_insert_eq.
  - exact client_works_spare.
  - exact client_run_steps.
  - exact Ed.
  - rewrite Ev in Hf. destruct a as [|[]|], b as [|[]|]; try discriminate Hf.
    split; [exact (Hm eq_refl)|]. split; apply Hg; right; [apply list_elem_of_here|apply list_elem_of_further, list_elem_of_here].
Defined.
