(* ===== verification/Accounting.v ===== *)
(** No lock of the cache is forgotten.

    In general the end of a session, or a second lookup of it, may lose the
    holds that a prefetch under way is about to publish ([Leftover]).  Here each
    session is named by one lookup or one end at a time, as a connector does:
    then nothing is ever left over, and once the threads have finished the
    reader count of every chunk is the number of sessions that hold it. *)
From S2P Require Import Prelude PyFloat Protocol Hasher Memory L1Manager Eviction L1Protocol.
From S2P Require Import L2 Threads Storage StoreController Prefetch Server MQ Evictor Resources Ownership Rely Interleaving ServerThreads Serving Still Sessions Answers Pending.
Local Open Scope py_scope.
Local Open Scope Z_scope.

(** ** Who may do what to a session *)

(** A thread that resolves a lookup, one that ends the session, one that has
    released what it held. *)
Inductive role := Resolving | Ending | Ended.

#[export] Instance role_EqDecision : EqDecision role.
Proof. solve_decision. Defined.

#[export] Instance role_Countable : Countable role.
Proof.
  apply (inj_countable' (fun r => match r with Resolving => 0 | Ending => 1 | Ended => 2 end)%nat
           (fun n => match n with 0 => Resolving | 1 => Ending | _ => Ended end)%nat). by intros [].
Defined.

Notation roles := (gmultiset (string * role)).

Section accounts.
Context {A : Type} `{!L2Ops A}.
Implicit Types (s : Stack A) (c d : roles) (r : string).

Definition has (c : roles) (r : string) (x : role) : nat := multiplicity (r, x) c.

(** A session is queued, being resolved or ending at most once; it holds
    nothing from its lookup until that is resolved, nor at the very end. *)
Record sessions_ok s c : Prop := mkSessionsOk {
  so_one r : (queued r s + has c r Resolving + has c r Ending + has c r Ended <= 1)%nat;
  so_idle r : (0 < queued r s + has c r Resolving + has c r Ended)%nat -> table r s = [];
  so_distinct r : NoDup (table r s)
}.

Lemma sessions_ok_proper s c c' : c ≡ c' -> sessions_ok s c -> sessions_ok s c'.
Proof. by intros ->%leibniz_equiv. Qed.

(** Fewer roles, smaller tables. *)
Lemma sessions_ok_less s s' c c' :
  (forall r, queued r s' + has c' r Resolving <= queued r s + has c r Resolving)%nat ->
  (forall r, has c' r Ending <= has c r Ending)%nat -> (forall r, has c' r Ended <= has c r Ended)%nat ->
  (forall r, table r s' `sublist_of` table r s) ->
  sessions_ok s c -> sessions_ok s' c'.
Proof.
  intros H1 H2 H3 Ht [K1 K2 K3]. split; intros r; specialize (H1 r); specialize (H2 r); specialize (H3 r); specialize (Ht r).
  - specialize (K1 r). lia.
  - intros Hr. apply sublist_nil_r. rewrite <- (K2 r) by lia. done.
  - by eapply sublist_NoDup.
Qed.

Lemma sessions_same s s' c : held s' = held s -> jobs s' = jobs s -> sessions_ok s c -> sessions_ok s' c.
Proof.
  intros E1 E2. apply sessions_ok_less; try done; intros r; unfold queued, table; rewrite ?E1, ?E2; done.
Qed.

Lemma sessions_step s s' c :
  hits s' = hits s -> held s' = held s -> jobs s' = jobs s -> sessions_ok s c -> sessions_ok s' c /\ True.
Proof. intros _ E1 E2 H. split; [by apply (sessions_same s)|done]. Qed.

Lemma has_add c c' r x : has (c ⊎ c') r x = (has c r x + has c' r x)%nat.
Proof. apply multiplicity_disj_union. Qed.

Lemma has_one r x r' x' : has {[+ (r, x) +]} r' x' = if decide (r = r' /\ x = x') then 1%nat else 0%nat.
Proof.
  unfold has. rewrite multiplicity_singleton. do 2 case_decide; naive_solver.
Qed.

Lemma has_self r x : has {[+ (r, x) +]} r x = 1%nat.
Proof. rewrite has_one. by rewrite decide_True. Qed.

Definition resolves (j : job) (d : roles) : Prop := d = {[+ (j.1.1, Resolving) +]}.

Lemma sessions_pop s j rest c : sessions_ok s c -> jobs s = j :: rest ->
  exists d, sessions_ok (set_jobs rest s) (r_add d c) /\ True /\ resolves j d.
Proof.
  intros H E. eexists. split_and!; [|done|reflexivity]. revert H.
  assert (forall r, queued r s = (if decide (j.1.1 = r) then 1 else 0) + queued r (set_jobs rest s))%nat as Hq.
  { intros r. unfold queued. rewrite E, filter_cons. by case_decide. }
  apply sessions_ok_less; intros r; cbn [r_add tokens_of_kinds]; rewrite ?has_add, ?has_one; [rewrite Hq|..]; repeat case_decide; try lia; naive_solver.
Qed.
Notation ksafe := (safe sessions_ok (fun _ _ => True)).
Notation may r x := ({[+ (r, x) +]} : roles).

(** *** The calls *)

Lemma queue_lookup r keys nb : ksafe (start_session r keys nb) (may r Resolving) anything.
Proof.
  apply safe_bind. apply (safe_mono _ _ _ _ (fun x c => x = Ok tt /\ c = may r Resolving)).
  { apply free_section. intros s cF Hs. eexists _, _, _. split_and!; [reflexivity| |done|done|reflexivity]. by apply (sessions_same s). }
  intros x c [-> ->]. apply free_section. intros s cF Hs. eexists _, _, ∅. split_and!; [reflexivity| |done|done]. revert Hs.
  apply sessions_ok_less; [|intros r'; cbn [r_add tokens_of_kinds]; rewrite !has_add, has_one; unfold has; rewrite multiplicity_empty; lia..|done].
  intros r'. cbn [r_add tokens_of_kinds]. rewrite !has_add, has_one. unfold queued. cbn [jobs set_jobs].
  rewrite filter_app, length_app, filter_cons. unfold has. rewrite multiplicity_empty.
  destruct (decide (r = r')) as [<-|Hne].
  - rewrite decide_True by done. rewrite filter_nil, decide_True by done. simpl. lia.
  - rewrite decide_False by done. rewrite filter_nil, decide_False by naive_solver. simpl. lia.
Qed.

Lemma take_held_state r keys s :
  let s' := (take_held r keys s).1 in
  hits s' = hits s /\ jobs s' = jobs s /\ forall r', table r' s' `sublist_of` table r' s.
Proof.
  unfold take_held. destruct (held s !! r) as [h|] eqn:Eh; [|done].
  pose proof (release_shrinks r s h (filter (fun k => k ∈ h) (default h keys)) Eh) as Hr.
  destruct (del_held _ h) as [h' x]. simpl. split_and!; [done|done|]. intros r'.
  destruct (decide (r' = r)) as [->|Hne]; [exact Hr|]. unfold table. simpl. by rewrite lookup_insert_ne.
Qed.

Lemma shrink_table r keys c : ksafe (release r keys) c (kept c).
Proof.
  apply safe_bind. apply (safe_mono _ _ _ _ (kept c)).
  - apply free_section. intros s cF Hs. destruct (take_held_state r keys s) as (_ & Ej & Ht).
    destruct (take_held r keys s) as [s' x]. simpl in *. exists s', x, c. split_and!; [done| |done|done]. revert Hs.
    by apply sessions_ok_less; [intros r'; unfold queued; rewrite Ej| | |].
  - intros [ks|e] c' ->; [|done]. by apply (still_l1 _ _ sessions_step).
Qed.

(** The session that ends has nothing left in the table. *)
Lemma empty_table r : ksafe (release r None) (may r Ending) (kept (may r Ended)).
Proof.
  apply safe_bind. apply (safe_mono _ _ _ _ (kept (may r Ended))).
  2: { intros [ks|e] c' ->; [|done]. by apply (still_l1 _ _ sessions_step). }
  apply free_section. intros s cF [K1 K2 K3]. destruct (take_held_state r None s) as (_ & Ej & Ht).
  assert (table r (take_held r None s).1 = []) as Hnil.
  { unfold table, take_held. destruct (held s !! r) as [h|] eqn:Eh; [|simpl; by rewrite Eh]. simpl.
    specialize (K3 r). unfold table in K3. rewrite Eh in K3. simpl in K3.
    rewrite (list_filter_all _ h) by done. rewrite del_held_spec by done. simpl. rewrite lookup_insert_eq. simpl.
    apply elem_of_nil_inv. intros k [Hn Hk]%list_elem_of_filter. done. }
  destruct (take_held r None s) as [s' x]. simpl in *. exists s', x, (may r Ended). split_and!; [done| |done|done].
  cbn [r_add tokens_of_kinds] in *.
  assert (forall r', queued r' s' = queued r' s) as Eq by (intros r'; unfold queued; by rewrite Ej).
  split; intros r'; specialize (K1 r'); specialize (K2 r'); specialize (K3 r'); specialize (Ht r');
    rewrite ?has_add, ?has_one, ?Eq in *.
  - repeat case_decide; naive_solver lia.
  - intros Hr. destruct (decide (r = r')) as [->|Hne]; [done|]. apply sublist_nil_r. rewrite <- K2; [done|].
    repeat case_decide; naive_solver lia.
  - by eapply sublist_NoDup.
Qed.
End accounts.

(** The sessions of the table that hold a chunk. *)
Definition holders (m : gmap string (list ChunkKey)) (k : ChunkKey) : nat :=
  size (filter (fun rh : string * list ChunkKey => k ∈ rh.2) m).

Lemma multiplicity_table_holds m k :
  map_Forall (fun _ h => NoDup h) m -> multiplicity k (table_holds m) = holders m k.
Proof.
  unfold holders. induction m as [|r h m Hr IH] using map_ind; intros Hnd.
  { by rewrite map_filter_empty, map_size_empty. }
  apply map_Forall_insert in Hnd as [Hh Hnd]; [|done]. rewrite table_holds_insert by done.
  rewrite multiplicity_disj_union, multiplicity_holds_of, IH by done. case_decide as Hk.
  - rewrite map_filter_insert_True by done. rewrite map_size_insert_None; [done|]. apply map_lookup_filter_None. by left.
  - rewrite map_filter_insert_False by done. by rewrite delete_id.
Qed.

(** ** Threads that leave nothing over *)

#[local] Existing Instance none_left | 0.

Section tidy.
Context {A : Type} (C : ChunkKey -> bytes) (ok : ChunkKey -> Prop) `{!L2Ops A} `{!L2Laws A C ok}.
Context (blake3 : bytes -> bytes) (adapters : nat) (cs : Z) (registered : Z -> EngineInstance -> Prop).
Implicit Types (s : Stack A) (n : Net A) (r : string).
Notation may r x := ({[+ (r, x) +]} : roles).

(** What a thread owns, and what it may do to sessions. *)
Notation tsafe := (safe (fun s (o : own * roles) => stack_inv C ok adapters s o.1 /\ sessions_ok s o.2)
  (fun s s' : Stack A => slices_stay s s' /\ True)).
Notation all_back := (fun _ (o : own * roles) => o.1 = own_nil).

Lemma nothing_lost s r rest : table r s = [] -> leftover rest -> leftover (rest ⊎ holds_of (default [] (held s !! r))).
Proof. unfold table. intros -> ->. change (holds_of []) with (∅ : hold_table). by rewrite (right_id_L ∅ (⊎)). Qed.

Lemma sessions_publish s r ks c h :
  sessions_ok s (may r Resolving ⊎ c) -> sessions_ok (set_hits h (set_held (<[r := fromkeys ks]> (held s)) s)) c.
Proof.
  intros [K1 K2 K3]. split; intros r'; specialize (K1 r'); specialize (K2 r'); specialize (K3 r');
    rewrite !has_add, !has_one in *; unfold queued, table in *; cbn [held jobs set_hits set_held] in *;
    destruct (decide (r = r')) as [->|Hne];
    rewrite ?lookup_insert_eq, ?(lookup_insert_ne _ r r') by done; repeat case_decide; try naive_solver lia.
  apply NoDup_fromkeys.
Qed.

Lemma tidy_resolve r ks1 ks2 g :
  NoDup (ks1 ++ ks2) ->
  tsafe (resolve r ks1 ks2 g) (own_held (∅ ⊎ holds_of (ks1 ++ ks2)), may r Resolving) all_back.
Proof.
  intros Hnd. set (o := (own_held (∅ ⊎ holds_of (ks1 ++ ks2)), may r Resolving)). apply safe_bind.
  apply (safe_mono _ _ _ _ (fun x o' => x = Ok true /\ o'.1 = own_nil \/ x = Ok false /\ o' = o)).
  - apply safe_section. intros s [oF cF] Hoo HokF Hap [H1 H2]. simpl in H1, H2. unfold publish. destruct (hits s !! r) as [h|].
    + eexists _, _, (own_held ∅, ∅). split_and!; [reflexivity|split; [apply own_held_ok|done]|split; [apply own_held_apart|done]| | |
        by apply stays_same|done|by left]; simpl; [|rewrite (left_id_L ∅ (⊎)); by apply sessions_publish].
      apply stack_inv_publish; [done|done|]. intros rest. apply nothing_lost, (so_idle _ _ H2).
      rewrite !has_add, has_self. lia.
    + eexists _, _, o. split_and!; [reflexivity|done|done|done|done|by apply stays_same|done|by right].
  - intros x o' [[-> Ho]|[-> ->]]; [done|]. eapply safe_mono.
    + apply (safe_pair _ _ _ _ _ _ _ (fun _ o => o = own_nil) (fun _ _ => True)); [by apply safe_finish_held|].
      by apply (still_l1 _ _ sessions_step).
    + by intros x o1 [].
Qed.

Lemma tidy_prefetch_round elapsed : nonzero_float elapsed = true -> tsafe (prefetch_round elapsed) (own_nil, ∅) all_back.
Proof.
  intros Hel. apply safe_bind. eapply safe_mono.
  - eapply safe_pair; [apply (safe_pop C ok adapters)|].
    apply (still_pop_job (T := roles) sessions_ok (fun _ _ => True) resolves sessions_ok_proper sessions_step sessions_pop).
  - intros x [o c] [[Ho (oj & -> & Hj)] (oj' & [= <-] & Hc)]. simpl in Ho. subst o. destruct oj as [[[r keys] nb]|]; [|done].
    simpl in Hc. unfold resolves in Hc. simpl in Hc. subst c. apply safe_prefetch_hits. eapply safe_mono.
    + eapply safe_pair.
      * apply (safe_hits C ok adapters elapsed r keys nb (fun x o => exists ks1 ks2 g, x = Ok (ks1, ks2, g) /\ NoDup (ks1 ++ ks2) /\
          o = own_held (∅ ⊎ holds_of (ks1 ++ ks2)))); [done|done|]. intros ks1 ks2 g Hnd. by exists ks1, ks2, g.
      * apply (still_hits _ _ sessions_step elapsed keys nb).
    + intros x [o c] [(ks1 & ks2 & g & -> & Hnd & Ho) [Hc _]]. simpl in Ho, Hc. subst o c. by apply tidy_resolve.
Qed.

Lemma sessions_forget s r c h :
  sessions_ok s (may r Ended ⊎ c) -> sessions_ok (set_held (delete r (held s)) (set_hits h s)) c.
Proof.
  apply sessions_ok_less; intros r'; rewrite ?has_add; unfold queued, table; cbn [held jobs set_hits set_held]; try lia.
  rewrite lookup_delete. case_decide; [apply sublist_nil_l|done].
Qed.

Lemma tidy_end_session r : tsafe (Prefetch.end_session r) (own_nil, may r Ending) (fun x o => x = Ok tt /\ o.1 = own_nil).
Proof.
  apply safe_bind. eapply safe_mono.
  - eapply safe_pair; [|apply empty_table].
    by apply (safe_release C ok adapters r None (fun x o => x = Ok tt /\ o = own_nil)).
  - intros x [o c] [[-> Ho] Hc]. simpl in Ho, Hc. subst o c. apply safe_section. intros s [oF cF] Hoo HokF Hap [H1 H2]. simpl in H1, H2.
    eexists _, _, (own_nil, ∅). split_and!; [reflexivity|done|done| | |by apply stays_same|done|done|done]; simpl;
      [|rewrite (left_id_L ∅ (⊎)); by eapply sessions_forget].
    apply stack_inv_forget; [done|]. intros rest. apply nothing_lost, (so_idle _ _ H2).
    rewrite !has_add, has_self. lia.
Qed.
(** *** The threads of the server *)

Notation nsafe := (safe (fun n (o : own * roles) => net_inv C ok adapters cs registered n o.1 /\ net_plain sessions_ok cs registered n o.2)
  (fun n n' : Net A => net_stays n n' /\ net_change (fun _ _ => True) (fun _ _ => True) n n')).

Notation vsafe := (safe (fun v (o : own * roles) => srv_inv C ok adapters cs registered v o.1 /\ srv_plain sessions_ok cs registered v o.2)
  (fun v v' : Server A => srv_stays v v' /\ srv_change (fun _ _ => True) (fun _ _ => True) v v')).

Lemma tidy_on_srv {B} (p : prog (Server A) B) o Q : vsafe p o Q -> nsafe (on_srv p) o Q.
Proof.
  apply safe_zoom; [done|by intros n v o1 o2 _ H; exact H|]. intros n v [H1 H2]. split; [by split|exact H2].
Qed.

Lemma tidy_on_sm {B} (p : prog (Stack A) B) o Q : tsafe p o Q -> vsafe (on_sm p) o Q.
Proof.
  apply safe_zoom; [by intros v o' [[] []]| |by intros v s' [H _]].
  intros v s' o1 o2 [[H1 H2 H3 H4] (K1 & K2 & K3)] [L1 L2]. by split.
Qed.

Definition claims (w : work) : roles :=
  match w with
  | WHandle _ _ (RqLookup p) => may (lp_request_id p) Resolving
  | WHandle _ _ (RqEndSession r) => may r Ending
  | _ => ∅
  end.

Notation wsafe := (safe (net_plain sessions_ok cs registered) (net_change (A := A) (fun _ _ => True) (fun _ _ => True))).

(** All but those that may lose holds. *)
Lemma sessions_work w :
  work_ok C ok blake3 cs registered w -> ~ forgets w -> wsafe (thread_of blake3 w) (claims w) anything.
Proof.
  intros Hw Hf. destruct w as [identity uid rq|elapsed| | |]; [|by destruct Hf|..]; cbn [thread_of].
  - apply (still_handle _ _ (fun _ => True) sessions_step); [done|done|].
    destruct rq as [|p|j|p|p|p|p|p|r|p]; cbn [request_still claims]; try done.
    + intros nb keys _. apply queue_lookup.
    + intros inst keys _ _. eapply safe_mono; [apply shrink_table|done].
    + apply (still_bind sessions_ok (fun _ _ => True)); [by apply (still_read _ _ sessions_step)| |done]. intros l.
      eapply safe_mono; [apply shrink_table|done].
  - apply still_on_srv, still_on_sm; [done|]. eapply safe_mono; [apply (still_store_round _ _ sessions_step)|done].
  - apply still_on_srv, still_on_sm; [done|]. eapply safe_mono; [apply (still_evict _ _ sessions_step)|done].
  - apply (still_net _ _ sessions_step); [done| |done]. intros n n' r. unfold flush, modify. intros [= <- _]. by destruct (send_queue n).
Qed.

Lemma tidy_send m o : o.1 = own_nil -> nsafe (atomic (send m)) o all_back.
Proof.
  destruct o as [o c]. cbn [fst]. intros ->. eapply safe_mono.
  - eapply safe_pair.
    + by apply (safe_send C ok adapters cs registered m _ (fun _ o => o = own_nil)).
    + by apply (still_send _ _ sessions_step cs registered _ (fun _ => I) m c (fun _ _ => True)).
  - by intros x o [].
Qed.

Lemma tidy_end identity uid r : nsafe (handle blake3 identity uid (RqEndSession r)) (own_nil, may r Ending) all_back.
Proof.
  unfold handle. apply safe_try, safe_bind. cbn [dispatch_request].
  apply tidy_on_srv, safe_bind, tidy_on_sm. eapply safe_mono; [apply tidy_end_session|]. intros x o [-> Ho]. cbn [safe pret].
  cbn [handle_ok is_chunk_result]. unfold plift. cbn [pbind dumps]. eapply safe_mono; [by apply tidy_send|].
  intros [[]|e] o' Ho'; [done|by apply tidy_send].
Qed.

(** Every thread gives back what it took, and leaves nothing over. *)
Lemma tidy_work w : work_ok C ok blake3 cs registered w -> nsafe (thread_of blake3 w) (own_nil, claims w) all_back.
Proof.
  intros Hw. assert (~ forgets w -> nsafe (thread_of blake3 w) (own_nil, claims w) all_back) as Hkeep.
  { intros Hn. eapply safe_mono; [eapply safe_pair; [apply safe_work; [done|by intros ?%Hn]|by apply sessions_work]|].
    by intros x o []. }
  destruct w as [identity uid rq|elapsed| | |]; try (by apply Hkeep; intros []).
  - destruct rq; try (by apply Hkeep; intros []). apply tidy_end.
  - by apply tidy_on_srv, tidy_on_sm, tidy_prefetch_round.
Qed.
(** *** Batches of threads *)

(** Nothing is held but what the table has. *)
Definition tidy n : Prop := net_inv (left := none_left) C ok adapters cs registered n own_nil.

Definition looks_up r (w : work) : bool :=
  match w with WHandle _ _ (RqLookup p) => bool_decide (lp_request_id p = r) | _ => false end.
Definition ends r (w : work) : bool :=
  match w with WHandle _ _ (RqEndSession r') => bool_decide (r' = r) | _ => false end.

(** Among the queued jobs and the requests of a batch each session is looked up
    or ended at most once, and it is looked up when it holds nothing. *)
Record one_at_a_time (works : list work) s : Prop := {
  oa_one r : (queued r s + length (filter (looks_up r) works) + length (filter (ends r) works) <= 1)%nat;
  oa_idle r : (0 < queued r s + length (filter (looks_up r) works))%nat -> table r s = []
}.

Definition all_claims (works : list work) : roles := r_sum (claims <$> works).

Lemma has_claims works r :
  has (all_claims works) r Resolving = length (filter (looks_up r) works) /\
  has (all_claims works) r Ending = length (filter (ends r) works) /\ has (all_claims works) r Ended = 0%nat.
Proof.
  unfold all_claims. induction works as [|w works (IH1 & IH2 & IH3)]; [done|]. csimpl. cbn [r_add tokens_of_kinds].
  rewrite !has_add, IH1, IH2, IH3, !filter_cons.
  assert (has (claims w) r Resolving = (if looks_up r w then 1 else 0) /\
          has (claims w) r Ending = (if ends r w then 1 else 0) /\ has (claims w) r Ended = 0)%nat as (-> & -> & ->).
  { destruct w as [? ? rq| | | |]; [destruct rq|..]; cbn [claims looks_up ends]; try done;
      rewrite !has_one; repeat case_bool_decide; repeat case_decide; naive_solver. }
  destruct (looks_up r w), (ends r w); repeat case_decide; simpl in *; done.
Qed.

Lemma sessions_start works s :
  one_at_a_time works s -> map_Forall (fun _ h => NoDup h) (held s) -> sessions_ok s (all_claims works).
Proof.
  intros [H1 H2] Hnd. split; intros r; destruct (has_claims works r) as (E1 & E2 & E3).
  - specialize (H1 r). lia.
  - intros Hr. apply H2. lia.
  - unfold table. destruct (held s !! r) as [h|] eqn:Eh; [by apply (Hnd r)|apply NoDup_nil_2].
Qed.

Lemma sessions_end s c : sessions_ok s c -> one_at_a_time [] s.
Proof.
  intros [H1 H2 _]. split; intros r; [specialize (H1 r)|specialize (H2 r)]; simpl; [lia|]. intros Hr. apply H2. lia.
Qed.

Notation tidy_inv := (fun n (o : own * roles) => net_inv C ok adapters cs registered n o.1 /\ net_plain sessions_ok cs registered n o.2).

Lemma tidy_inv_proper n a b : a ≡ b -> tidy_inv n a -> tidy_inv n b.
Proof.
  intros [E1 E2%leibniz_equiv] [H1 H2]. split; [by eapply net_inv_proper|]. by rewrite <- E2.
Qed.

Lemma claims_apart works : all_apart ((fun w => (own_nil, claims w)) <$> works) /\
  r_sum ((fun w => (own_nil, claims w)) <$> works) ≡ (own_nil, all_claims works).
Proof.
  induction works as [|w works [IH1 IH2]]; [done|]. split; [split; [split; [apply own_apart_nil|done]|done]|].
  etransitivity; [apply (r_add_proper (own_nil, claims w) _ (reflexivity _) _ _ IH2)|]. split; [apply own_nil_l|done].
Qed.

Lemma tidy_start works n :
  Forall (work_ok C ok blake3 cs registered) works -> tidy n -> one_at_a_time works (sm (srv n)) ->
  exists os, threads_ok tidy_inv (fun _ n n' => net_stays n n' /\ net_change (fun _ _ => True) (fun _ _ => True) n n')
    (fun _ => all_back) (n, thread_of blake3 <$> works) os.
Proof.
  intros Hw Hn Hone. exists ((fun w => (own_nil, claims w)) <$> works). destruct (claims_apart works) as [Ha Hs].
  split; [|split; [|split; [|split]]]; cbn [fst snd].
  - by rewrite !length_fmap.
  - apply Forall_fmap, Forall_true. intros w. split; [apply own_ok_nil|done].
  - done.
  - apply (tidy_inv_proper n (own_nil, all_claims works)); [done|]. split; [exact Hn|]. destruct Hn as [Hst H1 H2 _].
    split_and!; [|done|done]. by apply sessions_start; [|apply Hst].
  - intros i t o Ht Ho. apply list_lookup_fmap_Some in Ht as (w & -> & Hi). rewrite list_lookup_fmap, Hi in Ho.
    injection Ho as <-. apply tidy_work. rewrite Forall_forall in Hw. by eapply Hw, list_elem_of_lookup_2.
Qed.

Lemma tidy_end_of works n n' ts' :
  Forall (work_ok C ok blake3 cs registered) works -> tidy n -> one_at_a_time works (sm (srv n)) ->
  tsteps (n, thread_of blake3 <$> works) (n', ts') -> Forall finished ts' ->
  tidy n' /\ one_at_a_time [] (sm (srv n')).
Proof.
  intros Hw Hn Hone Hrun Hfin. destruct (tidy_start works n Hw Hn Hone) as [os Hos].
  destruct (threads_ok_run tidy_inv _ tidy_inv_proper _ _ _ _ Hos Hrun) as (os' & Hlen & _ & _ & [H1 H2] & Hsafe).
  cbn [fst snd] in *. split; [|by eapply sessions_end, H2].
  eapply net_inv_proper; [|exact H1]. enough (forall i o, os' !! i = Some o -> o.1 = own_nil) as Hnil.
  { clear - Hnil. induction os' as [|o os' IH]; [done|]. cbn [r_sum]. cbn [r_add pair_resource fst].
    rewrite (Hnil 0%nat o eq_refl), IH; [apply own_nil_l|]. intros i. apply (Hnil (S i)). }
  intros i o Ho. destruct (lookup_lt_is_Some_2 ts' i) as [t Ht]; [rewrite <- Hlen; by eapply lookup_lt_Some|].
  specialize (Hsafe i t o Ht Ho). rewrite Forall_lookup in Hfin. by destruct (Hfin i t Ht) as [x ->].
Qed.
Lemma tidy_counts n k e :
  tidy n -> entries (l1 (sm (srv n))) !! k = Some e ->
  read_count e = Z.of_nat (holders (held (sm (srv n))) k) /\ write_locked e = false /\
  (is_temporary e = true -> (0 < holders (held (sm (srv n))) k)%nat).
Proof.
  intros [[(rest & Hr & [_ Hl] & _) Hh _ _ _ _] _ _ _] He. unfold leftover, none_left in Hr. subst rest.
  specialize (Hl k). rewrite He in Hl. simpl in Hl. rewrite (left_id_L ∅ (∪)), lookup_empty in Hl.
  rewrite (left_id_L ∅ (⊎)), (right_id_L ∅ (⊎)), multiplicity_table_holds in Hl by done. unfold entry_ok in Hl. tauto.
Qed.

End tidy.

(** *** A session looked up and prefetched while another is read and ends *)

#[local] Existing Instance mock_laws.

Definition account_works : list work :=
  [WHandle [] 1 (RqLookup (mkLookupPayload "q" [1; 2] "m" 1)); WPrefetch f_0_8;
   WHandle [] 2 (RqRetrieve (toy_transfer [1] [])); WHandle [] 3 (RqEndSession "r"); WEvict; WWriteBack; WFlush].

Lemma account_works_ok : Forall (work_ok toy_C any_chunk last_byte 1 toy_registered) account_works.
Proof.
  unfold account_works. repeat (apply Forall_cons; split); try done.
  - exact (proj1 (proj1 (Forall_cons _ _ _) waiting_works_ok)).
  - exact (proj1 (proj1 (Forall_cons _ _ _) retrieve_works_ok)).
Qed.

Lemma account_tidy : tidy toy_C any_chunk 1 1 toy_registered (toy_net holding_stack).
Proof. by apply (holding_net_inv_of none_left). Qed.

Lemma account_one_at_a_time : one_at_a_time account_works (sm (srv (toy_net holding_stack))).
Proof.
  assert (jobs (sm (srv (toy_net holding_stack))) = []) as Ej by reflexivity.
  assert (table "q" (sm (srv (toy_net holding_stack))) = []) as Eq by (vm_compute; reflexivity).
  split; intros r; unfold queued, account_works; rewrite Ej; rewrite !filter_cons; cbn [looks_up ends lp_request_id];
    repeat case_bool_decide; subst; simpl; try lia; try done.
Qed.

Definition account_run : Net Mock * list (thread (Net Mock)) :=
  sched (replicate 6 0%nat ++ concat (replicate 30 [0; 1; 2; 3; 4; 5; 6]%nat)) (toy_net holding_stack, thread_of last_byte <$> account_works).

Lemma account_run_steps :
  tsteps (toy_net holding_stack, thread_of last_byte <$> account_works) (account_run.1, account_run.2).
Proof. rewrite <- surjective_pairing. apply sched_tsteps. Qed.

Lemma account_run_done : all_done account_run.2 = true.
Proof. vm_compute. reflexivity. Qed.

(** The chunk both sessions had found is held by one of them, and so is the one
    that was loaded. *)
Lemma account_run_holders :
  holders (held (sm (srv account_run.1))) ka = 1%nat /\ holders (held (sm (srv account_run.1))) kb = 1%nat.
Proof. split; vm_compute; reflexivity. Qed.

