(* ===== verification/IOLoop.v ===== *)
(** The event loop of a socket (mq.py, [SocketLoop]): one I/O thread that polls
    the socket and a wake-up pipe, and threads that queue messages for it.

    A sender puts its message on the queue and then writes one byte into the
    pipe; the loop reads up to 4096 bytes, drains the queue and receives at most
    one message per turn.  The pipe is unbounded here: a full one would only
    delay a sender that has already queued its message. *)
From S2P Require Import Prelude.
Local Open Scope py_scope.

Section loop.
Context {F X : Type}.

(** Where the I/O thread is: at the test of [while not self.stopped], in
    [poll], and in the two [if]s with what [poll] reported of pipe and socket. *)
Inductive place :=
| AtTest
| AtPoll
| AtRead (wake sock : bool)
| AtDrain (sock : bool)
| AtRecv (sock : bool)
| AtExit.

Record SocketLoop := mkSocketLoop {
  at_place : place;
  send_queue : list F;
  pipe : nat;
  stopped : bool;
  sock_out : list F;
  sock_in : list X;
  received : list X
}.

Definition new_loop : SocketLoop := mkSocketLoop AtTest [] 0 false [] [] [].

Definition goto (p : place) (l : SocketLoop) : SocketLoop :=
  mkSocketLoop p (send_queue l) (pipe l) (stopped l) (sock_out l) (sock_in l) (received l).

(** [os.read(self.wake_read, 4096)] *)
Definition READ_SIZE : nat := Z.to_nat 4096.
Definition read_pipe (l : SocketLoop) : SocketLoop :=
  mkSocketLoop (at_place l) (send_queue l) (pipe l - READ_SIZE) (stopped l) (sock_out l) (sock_in l) (received l).

(** The next step of the I/O thread; [None] when it blocks or is over. *)
Definition io_step (l : SocketLoop) : option SocketLoop :=
  match at_place l with
  | AtTest => Some (goto (if stopped l then AtExit else AtPoll) l)
  | AtPoll =>
      match pipe l, sock_in l with
      | O, [] => None
      | n, s => Some (goto (AtRead (negb (n =? 0)) (if s is [] then false else true)) l)
      end
  | AtRead true s => Some (goto (AtDrain s) (read_pipe l))
  | AtRead false s => Some (goto (AtRecv s) l)
  | AtDrain s =>
      match send_queue l with
      | [] => Some (goto (AtRecv s) l)
      | m :: q => Some (mkSocketLoop (AtDrain s) q (pipe l) (stopped l) (sock_out l ++ [m]) (sock_in l) (received l))
      end
  | AtRecv false => Some (goto AtTest l)
  | AtRecv true =>
      match sock_in l with
      | [] => None
      | x :: s => Some (mkSocketLoop AtTest (send_queue l) (pipe l) (stopped l) (sock_out l) s (received l ++ [x]))
      end
  | AtExit => None
  end.

(** [send], in two steps: [self.send_queue.put(frames)], [os.write]. *)
Definition put (m : F) (l : SocketLoop) : SocketLoop :=
  mkSocketLoop (at_place l) (send_queue l ++ [m]) (pipe l) (stopped l) (sock_out l) (sock_in l) (received l).
Definition write_pipe (l : SocketLoop) : SocketLoop :=
  mkSocketLoop (at_place l) (send_queue l) (pipe l + 1) (stopped l) (sock_out l) (sock_in l) (received l).
Definition send_now (m : F) (l : SocketLoop) : SocketLoop :=
  mkSocketLoop (at_place l) (send_queue l) (pipe l) (stopped l) (sock_out l ++ [m]) (sock_in l) (received l).
(** [close], up to its own [os.write]. *)
Definition stop (l : SocketLoop) : SocketLoop :=
  mkSocketLoop (at_place l) (send_queue l) (pipe l) true (sock_out l) (sock_in l) (received l).
(** A message arrives. *)
Definition arrive (x : X) (l : SocketLoop) : SocketLoop :=
  mkSocketLoop (at_place l) (send_queue l) (pipe l) (stopped l) (sock_out l) (sock_in l ++ [x]) (received l).

(** Any thread moves; [writers] are between their first step and their
    [os.write]. *)
Inductive lstep : SocketLoop * nat -> SocketLoop * nat -> Prop :=
| ls_io l l' u : io_step l = Some l' -> lstep (l, u) (l', u)
| ls_put m l u : lstep (l, u) (put m l, S u)
| ls_write l u : lstep (l, S u) (write_pipe l, u)
| ls_now m l u : lstep (l, u) (send_now m l, u)
| ls_stop l u : lstep (l, u) (stop l, S u)
| ls_arrive x l u : lstep (l, u) (arrive x l, u).

(** Running the I/O thread alone for at most [fuel] steps. *)
Fixpoint run_io (fuel : nat) (l : SocketLoop) : SocketLoop :=
  match fuel with
  | O => l
  | S fuel' => match io_step l with None => l | Some l' => run_io fuel' l' end
  end.

(** ** No wake-up is lost *)

(** Past the poll that saw the pipe, or past the loop. *)
Definition draining (p : place) : Prop :=
  match p with AtRead true _ | AtDrain _ | AtExit => True | _ => False end.
Definition not_polling (p : place) : Prop := match p with AtPoll => False | _ => True end.
(** Where [poll] has reported a message of the socket. *)
Definition sock_ready (p : place) : Prop :=
  match p with AtRead _ true | AtDrain true | AtRecv true => True | _ => False end.

(** [poll] returns only when there is something to read. *)
Definition polled (p : place) (n : nat) : Prop :=
  match p with AtRead true _ => 0 < n | AtRead false s => s = true | _ => True end.

Record loop_inv (c : SocketLoop * nat) : Prop := mkLoopInv {
  li_queue : send_queue c.1 <> [] -> 0 < c.2 \/ 0 < pipe c.1 \/ draining (at_place c.1);
  li_stop : stopped c.1 = true -> 0 < c.2 \/ 0 < pipe c.1 \/ not_polling (at_place c.1);
  li_sock : sock_ready (at_place c.1) -> sock_in c.1 <> [];
  li_exit : at_place c.1 = AtExit -> stopped c.1 = true;
  li_read : polled (at_place c.1) (pipe c.1)
}.

Lemma loop_inv_step c c' : lstep c c' -> loop_inv c -> loop_inv c'.
Proof.
  intros [l l' u E|m l u|l u|m l u|l u|x l u] [H1 H2 H3 H4 H5]; simpl in *.
  2,4,5: by split; simpl; intuition (congruence || lia).
  2: { split; simpl; intuition (congruence || lia || idtac). destruct (at_place l) as [| |[] ?|?|?|]; simpl in *; done || lia. }
  2: { split; simpl; intuition (try congruence). by eapply app_cons_not_nil. }
  unfold io_step in E. destruct (at_place l) as [| |[] s|s|[]|] eqn:Ep; simpl in *; simplify_eq.
  - destruct (stopped l) eqn:Es; split; simpl; rewrite ?Es; intuition congruence.
  - destruct (pipe l) as [|n] eqn:En, (sock_in l) as [|x xs] eqn:Ex; simplify_eq; split; simpl;
      rewrite ?En, ?Ex; intuition (congruence || lia).
  - split; simpl; try destruct s; intuition congruence.
  - split; simpl; try destruct s; intuition congruence.
  - destruct (send_queue l) as [|m q] eqn:Eq; simplify_eq; split; simpl; rewrite ?Eq; try destruct s; intuition congruence.
  - destruct (sock_in l) as [|x xs] eqn:Ex; simplify_eq; split; simpl; intuition congruence.
  - split; simpl; intuition congruence.
Qed.

Lemma loop_reachable c : rtc lstep (new_loop, 0) c -> loop_inv c.
Proof.
  intros Hr. eapply (rtc_ind_r loop_inv); [| |exact Hr]; [by split|]. intros c1 c2 _ Hs. by apply loop_inv_step.
Qed.

(** The I/O thread blocks only when there is nothing to do. *)
Lemma blocked_idle l :
  loop_inv (l, 0) -> io_step l = None ->
  if stopped l then at_place l = AtExit else send_queue l = [] /\ sock_in l = [].
Proof.
  intros [H1 H2 H3 H4 _]. simpl in *. unfold io_step.
  destruct (at_place l) as [| |[] s|s|[]|] eqn:Ep; simpl in *; intros E; try done.
  - destruct (pipe l) as [|n] eqn:En, (sock_in l) as [|x xs] eqn:Ex; try done.
    destruct (stopped l); [destruct H2 as [|[]]; done || lia|].
    split; [|done]. destruct (send_queue l) eqn:Eq; [done|]. destruct H1 as [|[]]; done || lia.
  - by destruct (send_queue l).
  - destruct (sock_in l); [by destruct (H3 I)|done].
  - by rewrite (H4 eq_refl).
Qed.

(** *** The I/O thread makes progress *)

Lemma read_some : 0 < READ_SIZE.
Proof. unfold READ_SIZE. lia. Qed.

Definition rank (p : place) : nat :=
  match p with
  | AtTest => 5
  | AtPoll => 4
  | AtRead _ _ => 3
  | AtDrain s => if s then 3 else 7
  | AtRecv s => if s then 2 else 6
  | AtExit => 0
  end.
(** Enough turns for what is waiting. *)
Definition turns (l : SocketLoop) : nat := 6 * (pipe l + length (sock_in l)) + length (send_queue l) + rank (at_place l).

(** What the I/O thread alone does not change. *)
Definition carried (l l' : SocketLoop) : Prop :=
  sock_out l' ++ send_queue l' = sock_out l ++ send_queue l /\ received l' ++ sock_in l' = received l ++ sock_in l /\
  stopped l' = stopped l.

Lemma io_step_progress l l' :
  polled (at_place l) (pipe l) -> io_step l = Some l' -> turns l' < turns l /\ carried l l'.
Proof.
  intros Hp. unfold io_step, turns, carried. destruct (at_place l) as [| |[] s|s|[]|] eqn:Ep; simpl in *; intros E; simplify_eq.
  - split; [destruct (stopped l); simpl; lia|done].
  - destruct (pipe l) as [|n] eqn:En, (sock_in l) as [|x xs] eqn:Ex; simplify_eq; simpl; rewrite ?En, ?Ex; simpl;
      (split; [lia|done]).
  - pose proof read_some. split; [destruct s; cbn -[Nat.mul]; lia|done].
  - split; [cbn -[Nat.mul]; lia|done].
  - destruct (send_queue l) as [|m q] eqn:Eq; simplify_eq; simpl; rewrite ?Eq; simpl.
    + split; [destruct s; lia|done].
    + split; [lia|]. by rewrite <- app_assoc.
  - destruct (sock_in l) as [|x xs] eqn:Ex; simplify_eq; simpl. rewrite ?Ex. simpl.
    split; [lia|]. by rewrite <- app_assoc.
  - split; [cbn -[Nat.mul]; lia|done].
Qed.

Lemma run_io_blocks fuel l :
  turns l <= fuel -> loop_inv (l, 0) -> io_step (run_io fuel l) = None /\ loop_inv (run_io fuel l, 0) /\ carried l (run_io fuel l).
Proof.
  revert l. induction fuel as [|fuel IH]; intros l Hf Hi; simpl.
  - destruct (io_step l) as [l'|] eqn:E; [|by split_and!].
    destruct (io_step_progress l l') as [Hlt _]; [apply Hi|done|lia].
  - destruct (io_step l) as [l'|] eqn:E; [|by split_and!].
    destruct (io_step_progress l l') as [Hlt Hc]; [apply Hi|done|].
    destruct (IH l') as (H1 & H2 & H3); [lia|by eapply loop_inv_step; [apply ls_io|]|].
    split_and!; [done|done|]. destruct Hc as (C1 & C2 & C3), H3 as (D1 & D2 & D3). split_and!; congruence.
Qed.

(** C32: no wake-up of the I/O thread is lost and no message is stuck: in every
    reachable state in which no sender is between queueing a message and writing
    to the pipe, the I/O thread on its own, in a bounded number of steps, sends
    every queued message in order, receives every message that has arrived, and
    blocks in [poll] only then; once the loop is stopped it ends. *)
Theorem io_thread_delivers l :
  rtc lstep (new_loop, 0) (l, 0) ->
  let l' := run_io (turns l) l in
  io_step l' = None /\
  if stopped l then at_place l' = AtExit
  else send_queue l' = [] /\ sock_out l' = sock_out l ++ send_queue l /\
       sock_in l' = [] /\ received l' = received l ++ sock_in l.
Proof.
  intros Hr%loop_reachable. destruct (run_io_blocks (turns l) l) as (H1 & H2 & C1 & C2 & C3); [lia|done|].
  intros l'. fold l' in H1, H2, C1, C2, C3. split; [done|]. pose proof (blocked_idle l' H2 H1) as Hb. rewrite C3 in Hb.
  destruct (stopped l); [done|]. destruct Hb as [E1 E2]. rewrite E1, app_nil_r in C1. by rewrite E2, app_nil_r in C2.
Qed.
End loop.
Arguments SocketLoop : clear implicits.
Arguments new_loop {F X}.

(** Two senders, the second of which overtakes the first one's wake-up. *)
Lemma io_thread_delivers_witness :
  exists l : SocketLoop nat nat, rtc lstep (new_loop, 0) (l, 0) /\
    sock_out (run_io (turns l) l) = [1; 2] /\ received (run_io (turns l) l) = [7].
Proof.
  set (l := arrive 7 (write_pipe (write_pipe (put 2 (put 1 (new_loop (X := nat))))))).
  assert (rtc lstep (new_loop, 0) (l, 0)) as Hr.
  { eapply rtc_l; [apply (ls_put 1)|]. eapply rtc_l; [apply (ls_put 2)|]. do 2 (eapply rtc_l; [apply ls_write|]).
    eapply rtc_l; [apply (ls_arrive 7)|]. constructor. }
  exists l. split; [exact Hr|]. destruct (io_thread_delivers l Hr) as (_ & _ & H1 & _ & H2). by split.
Defined.

(** A message queued while the loop is stopped may never leave: the loop looks
    at [stopped] before it looks at the queue. *)
Example closed_with_message :
  exists l : SocketLoop nat nat, rtc lstep (new_loop, 0) (l, 0) /\ at_place l = AtExit /\ send_queue l = [1].
Proof.
  exists (goto AtExit (write_pipe (write_pipe (stop (put 1 new_loop))))). split; [|done].
  eapply rtc_l; [apply (ls_put 1)|]. eapply rtc_l; [apply ls_stop|]. do 2 (eapply rtc_l; [apply ls_write|]).
  eapply rtc_l; [by apply ls_io|]. constructor.
Qed.
