(* ===== verification/Recency.v ===== *)
(** What the order of [LRUPolicy] (l1/eviction.py) means: the chunks of L1 by
    the time of their last use. *)
From Stdlib Require Import Sorting.Sorted.
From S2P Require Import Prelude Protocol L1Manager Eviction.
Local Open Scope py_scope.

(** The history of the policy, one chunk at a time.  A batch is used back to
    front, so that its first chunk, on which the others depend, is evicted
    last. *)
Inductive use := Used (k : ChunkKey) | Gone (k : ChunkKey).

Definition uses_of (e : event * list ChunkKey) : list use :=
  match e.1 with
  | on_created | on_touched => Used <$> reverse e.2
  | on_removed => Gone <$> e.2
  | on_write_finished => []
  end.

(** When [k] was last used, if it was not removed since. *)
Definition last_use_step (k : ChunkKey) (s : nat * option nat) (u : use) : nat * option nat :=
  (S s.1, match u with
          | Used k' => if decide (k' = k) then Some s.1 else s.2
          | Gone k' => if decide (k' = k) then None else s.2
          end).
Definition last_use (us : list use) (k : ChunkKey) : option nat := (foldl (last_use_step k) (0, None) us).2.

(** The policy's order after a history of events. *)
Definition lru_after (evs : list (event * list ChunkKey)) : list ChunkKey :=
  foldl (fun order e => lru_dispatch e.1 e.2 order) [] evs.

Definition lru_use (order : list ChunkKey) (u : use) : list ChunkKey :=
  match u with Used k => lru_touch_one order k | Gone k => os_del k order end.

Lemma lru_dispatch_uses e order : lru_dispatch e.1 e.2 order = foldl lru_use order (uses_of e).
Proof.
  destruct e as [[] ks]; simpl; unfold uses_of; simpl; try done.
  - unfold lru_on_created. by rewrite foldl_fmap.
  - unfold lru_on_created. by rewrite foldl_fmap.
  - unfold lru_on_removed. by rewrite foldl_fmap.
Qed.

Lemma lru_after_uses evs : lru_after evs = foldl lru_use [] (mbind uses_of evs).
Proof.
  unfold lru_after. generalize (@nil ChunkKey). induction evs as [|e evs IH]; intros order; [done|].
  csimpl. by rewrite IH, lru_dispatch_uses, foldl_app.
Qed.

(** ** The order is by last use *)

Lemma last_use_time us k : (foldl (last_use_step k) (0, None) us).1 = length us.
Proof. induction us as [|u us IH] using rev_ind; [done|]. rewrite foldl_snoc, length_app. simpl. rewrite IH. lia. Qed.

Lemma last_use_snoc us u k :
  last_use (us ++ [u]) k = match u with
    | Used k' => if decide (k' = k) then Some (length us) else last_use us k
    | Gone k' => if decide (k' = k) then None else last_use us k
    end.
Proof. unfold last_use. rewrite foldl_snoc. simpl. by rewrite last_use_time. Qed.

Lemma last_use_bound us k t : last_use us k = Some t -> t < length us.
Proof.
  revert t. induction us as [|u us IH] using rev_ind; intros t; [done|]. rewrite last_use_snoc, length_app. simpl.
  destruct u as [k'|k']; case_decide; intros Ht.
  - injection Ht as <-. lia.
  - apply IH in Ht. lia.
  - done.
  - apply IH in Ht. lia.
Qed.

Definition used_before (us : list use) (a b : ChunkKey) : Prop :=
  exists ta tb, last_use us a = Some ta /\ last_use us b = Some tb /\ ta < tb.

(** Removing a key, and forgetting when it was used. *)
Lemma sorted_del (R R' : ChunkKey -> ChunkKey -> Prop) k l :
  (forall a b, a <> k -> b <> k -> R a b -> R' a b) -> StronglySorted R l -> StronglySorted R' (os_del k l).
Proof.
  intros HR. unfold os_del. induction 1 as [|a l _ IH Ha]; [constructor|].
  rewrite filter_cons. case_decide as Hk; [|exact IH]. constructor; [exact IH|].
  rewrite Forall_forall in Ha. apply Forall_forall. intros b [Hb Hin]%list_elem_of_filter. auto.
Qed.

Lemma sorted_snoc (R : ChunkKey -> ChunkKey -> Prop) l k :
  StronglySorted R l -> (forall a, a ∈ l -> R a k) -> StronglySorted R (l ++ [k]).
Proof.
  intros Hl Hk. induction Hl as [|a l _ IH Ha]; simpl; [repeat constructor|]. constructor.
  - apply IH. intros b Hb. by apply Hk, list_elem_of_further.
  - apply Forall_app. split; [done|]. constructor; [apply Hk, list_elem_of_here|constructor].
Qed.

Lemma lru_touch_one_del order k : lru_touch_one order k = os_del k order ++ [k].
Proof.
  unfold lru_touch_one, os_move_to_end. f_equal. unfold os_add. case_decide; [done|]. rewrite os_del_app.
  unfold os_del at 2. rewrite filter_cons_False, filter_nil by (by intros []). apply app_nil_r.
Qed.

Lemma lru_uses_sorted us :
  let order := foldl lru_use [] us in
  StronglySorted (used_before us) order /\ forall k, k ∈ order <-> is_Some (last_use us k).
Proof.
  induction us as [|u us [IH1 IH2]] using rev_ind; simpl.
  { split; [constructor|]. intros k. split; [by intros H%elem_of_nil|by intros [t Ht]]. }
  rewrite foldl_snoc. set (order := foldl lru_use [] us) in *. destruct u as [k0|k0]; cbn [lru_use].
  - rewrite lru_touch_one_del. split.
    + apply sorted_snoc.
      * eapply sorted_del; [|exact IH1]. intros a b Ha Hb (ta & tb & H1 & H2 & Hlt). exists ta, tb.
        by rewrite !last_use_snoc, !decide_False by congruence.
      * intros a [Ha Hin]%elem_of_os_del. apply IH2 in Hin as [t Ht]. exists t, (length us).
        rewrite !last_use_snoc, decide_False, decide_True by congruence. split_and!; [done|done|by eapply last_use_bound].
    + intros k. rewrite elem_of_app, elem_of_os_del, list_elem_of_singleton, last_use_snoc, IH2.
      case_decide; [subst; naive_solver|]. naive_solver.
  - split.
    + eapply sorted_del; [|exact IH1]. intros a b Ha Hb (ta & tb & H1 & H2 & Hlt). exists ta, tb.
      by rewrite !last_use_snoc, !decide_False by congruence.
    + intros k. rewrite elem_of_os_del, last_use_snoc, IH2. case_decide; [|naive_solver].
      subst. split; [naive_solver|by intros []].
Qed.

(** C31: the order from which the evictor takes its victims is, after any
    history of events, exactly the chunks used and not removed since, coldest
    first: sorted by the time of their last use, where a batch counts as used
    from its last chunk to its first. *)
Theorem lru_order_by_last_use evs :
  let us := mbind uses_of evs in
  StronglySorted (used_before us) (lru_after evs) /\
  forall k, k ∈ lru_after evs <-> is_Some (last_use us k).
Proof. intros us. rewrite lru_after_uses. apply lru_uses_sorted. Qed.

(** The head of a prompt outlives its tail. *)
Example batch_order k1 k2 :
  k1 <> k2 -> lru_after [(on_created, [k1; k2]); (on_write_finished, [k1; k2])] = [k2; k1].
Proof.
  intros Hne. unfold lru_after, lru_dispatch, lru_on_created. simpl. rewrite !lru_touch_one_del.
  unfold os_del. rewrite !filter_nil. simpl. by rewrite filter_cons_True, filter_nil by congruence.
Qed.
